(* ===== verification/_CoqProject ===== *)
-Q . S2P
Prelude.v
Hash.v
Strconv.v
Scan.v
Wire.v
RingBuf.v
TinyLfu.v
Dict.v
Cache.v
Store.v
Objects.v
Codec.v
CodecSpec.v
StoreView.v
ObjectSpec.v
ZSetSpec.v
StringSpec.v
KeySpec.v
ExpirySpec.v
Slots.v
SlotsSpec.v
Gossip.v
GossipSpec.v
Replication.v
ReplicationSpec.v
Cluster.v
StateFile.v
ClusterSpec.v
Protocol.v
Hotspot.v
Rebalance.v
RebalanceSpec.v
Engine.v
Handler.v
Migration.v
ClusterCmd.v
ClusterCmdSpec.v
Operator.v
Program.v
OperatorSpec.v
KubeObjects.v
Reconciler.v
Server.v
ServerSpec.v
StateFileSpec.v
MigrationSpec.v
ReconcilerSpec.v
ProgramSpec.v
Clipboard.v
ClipboardSpec.v
HandlerSpec.v
RestoreSpec.v
TierStats.v
Warm.v
Tiered.v
TieredAdapter.v
WriteBehindSpec.v
TierStatsSpec.v
TieredSpec.v
