(* ===== verification/Prelude.v ===== *)
(** * AutoCache: a verification library for the Go cache server

    AutoCache is a Redis-compatible cache. A server keeps strings and counters in
    a sharded cache whose shards store entries in ring buffers, and the other
    types in a sharded dictionary; a protocol layer turns RESP commands into
    calls of the store; several servers form a cluster that divides the 16384
    hash slots, learns of each other by gossip, redirects clients, replicates
    writes to replicas and fails over.

    ** The files and the code they model (paths under [src/])

    - [Prelude]: machine integers with their wrap-around, bytes, the class
      [GoRange] of iteration orders of Go maps, tactics, hints.
    - [Hash]: [internal/cluster/hash/crc16.go].
    - [Strconv]: [internal/protocol/format.go], with [strconv] on integers.
    - [Scan]: cursor iteration shared by cache and store.
    - [RingBuf], [TinyLfu], [Dict], [Cache]: [ringbuf.go], [tinylfu.go],
      [dict.go] and [shard.go] of [internal/engine/memory]; one record per struct,
      one definition per method.
    - [Store], [Objects]: [store.go], [eviction.go], [expiry.go] and the typed
      values of [list.go], [hash.go], [set.go], [zset.go], in a state monad over
      the two stores.
    - [Codec]: [entry_codec.go], with the part of [encoding/json] that it uses.
    - [Slots]: [internal/cluster/slots.go], [failover/manager.go], the saved state
      of [state/].
    - [Gossip]: [internal/cluster/gossip].
    - [Wire], [Replication]: [internal/cluster/replication] and the payloads of
      [handler.go].
    - [Cluster]: [internal/cluster/cluster.go], [node.go], [router/router.go].
    - [Hotspot]: [internal/cluster/hotspot/detector.go], in binary64.
    - [StateFile]: [internal/cluster/state/manager.go], as a transition system.
    - [Migration]: [internal/cluster/migration], [internal/cluster/migrate] and the
      key transfer of [cluster.go]; what a connection meets is an argument.
    - [Rebalance]: [internal/cluster/rebalance/manager.go].
    - [TierStats], [Warm], [Tiered], [TieredAdapter]: [internal/engine/tiered],
      [engine/badger], [engine/s3], [persistence/writebehind.go] and the tiered
      engine of [protocol/adapter.go]; a tier is a class with laws that a Badger
      database discharges.
    - [Operator], [KubeObjects], [Reconciler]: the Kubernetes operator in
      [controllers/] and its resource in [api/v1alpha1]: slot arithmetic, RESP
      reader and slot moves; the objects it builds; [Reconcile] and scaling, over
      an API and pods that are classes.
    - [Program]: the configuration and the shutdown of [cmd/server/main.go].
    - [Clipboard]: the service of [clipboard/backend]; a request is a program over
      the commands of the cache.
    - [Protocol], [Engine], [Handler], [ClusterCmd], [Server]: the protocol layer
      [internal/protocol]: command tables, the interface [ProtocolEngine] (a class;
      the memory store is an instance), every command handler, the subcommands of
      CLUSTER, and the dispatchers [Execute] and [ExecuteBytes].
    - the files named [...Spec], [StoreView], and the second part of [RingBuf],
      [TinyLfu], [Dict], [Cache], [Wire], [Hash], [Strconv], [Protocol]: theorems.

    ** What the theorems show

    - Storage. The ring buffer is a bounded queue until it wraps, and a write
      never touches bytes outside its entry; the sharded cache, without the record
      of accesses and until a ring buffer wraps, behaves as one cell per hash
      ([Cache.cache_refines_cells]), the dictionary as one map
      ([Dict.Dict_refines_map]).
    - Commands. String, list, hash, set and sorted set commands refine pure
      functions on values ([StringSpec], [ObjectSpec], [ZSetSpec]); commands on a
      value of another type fail without effect; deletion, expiry, scans.
    - Cluster. Every run of slot operations, and every run of client requests,
      keeps the slot table consistent ([SlotsSpec], [ServerSpec]); the report with
      the highest epoch decides an owner ([GossipSpec]); routing, failover, drain
      and failure detection ([ClusterSpec], [GossipSpec]).
    - Replication. Frames round-trip; a replica that replays the log executes the
      whole history once and in order, also when operations fail; a SET on the
      primary gives the replica the value up to its first NUL byte
      ([ReplicationSpec], [HandlerSpec]).
    - Dispatch. The hash table of commands agrees with the map; a command on the
      keys of another node changes nothing; wrong arities are rejected.
    - Tiers. A demotion keeps a string readable; accepted writes reach the disk in
      order, but for batches that fail; the frequency of a key never fails and is
      at least its aged number of accesses ([TieredSpec], [WriteBehindSpec],
      [TierStatsSpec]).
    - Moving data. Serialised values are decoded as they were, MIGRATE followed by
      RESTORE copies a collection ([CodecSpec], [RestoreSpec]); every transfer deletes a
      key only when it has arrived, and a drained slot has moved with its keys
      ([MigrationSpec]); the rebalancer moves only slots that stay hot
      ([RebalanceSpec]).
    - State file. Requests that change what a restart reads back mark it; as long as
      saves succeed and nothing changes while one runs, a marked state gets saved,
      and after a clean [Close] a restart gives it back ([StateFileSpec]); a drain
      on shutdown comes too late for the file ([ProgramSpec]).
    - Operator. A new cluster is partitioned evenly and completely, the target of a
      rebalance is the same partition, the configuration of a pod reaches its
      server, scaling runs after the resize and once ([OperatorSpec],
      [ReconcilerSpec], [ProgramSpec]).
    - Clipboard. However requests interleave, a paste is read no more often than its
      policy allows ([ClipboardSpec]).
    - Where the code does not do what it means to, a theorem states what it does:
      for instance [Cache.recordAccess_diverges], [RingBuf.WriteWithEvict_gap_overwrites],
      [ReplicationSpec.restart_stops_replication], [ServerSpec.unreplicated_commands],
      [ServerSpec.fast_SET_ignores_options], [ClusterSpec.migrating_slot_refuses_writes],
      [RestoreSpec.restored_null_hash_panics], [OperatorSpec.rebalance_sources_last_pod],
      [TieredSpec.write_during_demotion_lost], [WriteBehindSpec.write_behind_order],
      [StateFileSpec.change_during_save_lost], [StateFileSpec.meet_not_marked],
      [ClipboardSpec.claim_deleted_by_code], [MigrationSpec.zero_retries_migrates_nothing],
      [ReconcilerSpec.scale_down_stops_at_forget], [ProgramSpec.shutdown_forgets_drain].

    ** Conventions

    Integers are [Z] with the wrap-around of their width ([u16], [u64], [i64], ...);
    [float64] is the binary64 of [SpecFloat]. A run that panics or does not end is
    [None]; Go's [(value, error)] is a sum. Strings hold bytes. Operations of the
    store are atomic at the instant of their [Env]; where the code releases a lock
    between steps and it matters, the steps are separate ([ReplicationSpec]).
    Loops that are not structural have fuel: the eviction loops of a write run at
    most once per used byte ([RingBuf.evict_while_terminates]); probing of the
    command table has 128 steps as in the code; MIGRATE makes four attempts; WAIT
    polls as often as its argument says; the recursion of [recordAccess], which
    never ends in the code, is shown to end for no depth; the operator's polling and
    moving of keys has fuel, and [None] is a loop that has not ended, which its
    theorems do not exclude. Map iteration takes any
    order ([GoRange]); hashing with [maphash], [path.Match], connections and
    decoding of floats are arguments.

    ** Not modelled

    Sockets, timers, goroutine scheduling, gob and HTTP are outside the model, as
    are metrics, the HTTP interfaces of the admin and clipboard backends, generated
    code and the other programs' wiring; Badger and S3 are third-party stores. *)

From stdpp Require Export base gmap strings list list_numbers sorting fin_maps fin_sets.
From Stdlib Require Export ZArith Lia.
From Stdlib Require Export Strings.Byte.
From stdpp Require Import options.

#[global] Open Scope Z_scope.

Declare Scope go_scope.
Delimit Scope go_scope with go.
#[global] Open Scope go_scope.

(** ** Machine integers

    A Go integer is a [Z]; the conversions below are the wrap-around of the
    width the source declares. *)

Definition u8 (z : Z) : Z := z mod 2 ^ 8.
Definition u16 (z : Z) : Z := z mod 2 ^ 16.
Definition u32 (z : Z) : Z := z mod 2 ^ 32.
Definition u64 (z : Z) : Z := z mod 2 ^ 64.
Definition i64 (z : Z) : Z := (z + 2 ^ 63) mod 2 ^ 64 - 2 ^ 63.

Definition is_u16 (z : Z) : Prop := 0 ≤ z < 2 ^ 16.
Definition is_u64 (z : Z) : Prop := 0 ≤ z < 2 ^ 64.
Definition is_i64 (z : Z) : Prop := - 2 ^ 63 ≤ z < 2 ^ 63.

Lemma u16_id z : is_u16 z → u16 z = z.
Proof. unfold is_u16, u16. apply Z.mod_small. Qed.

Lemma u64_id z : is_u64 z → u64 z = z.
Proof. unfold is_u64, u64. apply Z.mod_small. Qed.

Lemma u16_range z : is_u16 (u16 z).
Proof. apply Z.mod_pos_bound. lia. Qed.

Lemma u64_range z : is_u64 (u64 z).
Proof. apply Z.mod_pos_bound. lia. Qed.

Lemma i64_range z : is_i64 (i64 z).
Proof.
  unfold is_i64, i64. pose proof (Z.mod_pos_bound (z + 2 ^ 63) (2 ^ 64)). lia.
Qed.

Lemma i64_id z : is_i64 z → i64 z = z.
Proof. unfold is_i64, i64. intros. rewrite Z.mod_small; lia. Qed.

Lemma i64_u64 z : i64 (u64 z) = i64 z.
Proof. unfold i64, u64. by rewrite Zplus_mod_idemp_l. Qed.

Lemma u64_i64 z : u64 (i64 z) = u64 z.
Proof.
  unfold i64, u64. rewrite Zminus_mod_idemp_l. f_equal. lia.
Qed.

(** Finite checks: a boolean test that holds on [0 .. n-1]. *)
Lemma forallb_seqZ (P : Z → bool) n :
  forallb P (seqZ 0 n) = true → ∀ z, 0 ≤ z < n → P z = true.
Proof.
  intros H z Hz.
  pose proof (proj1 (List.forallb_forall P (seqZ 0 n)) H) as H'.
  apply H', list_elem_of_In, elem_of_seqZ. lia.
Qed.

(** ** Bytes

    [byte] is the type of an element of a Go [[]byte] or [string]. *)

#[export] Instance byte_eq_dec : EqDecision byte := Byte.byte_eq_dec.

Definition Z_of_byte (b : byte) : Z := Z.of_N (Byte.to_N b).

Definition byte_of_Z (z : Z) : byte :=
  default x00 (Byte.of_N (Z.to_N (z mod 256))).

Lemma Z_of_byte_range b : 0 ≤ Z_of_byte b < 256.
Proof.
  unfold Z_of_byte. pose proof (Byte.to_N_bounded b). lia.
Qed.

Lemma Z_of_byte_of_Z z : Z_of_byte (byte_of_Z z) = z mod 256.
Proof.
  unfold Z_of_byte, byte_of_Z.
  pose proof (Z.mod_pos_bound z 256 ltac:(lia)).
  destruct (Byte.of_N (Z.to_N (z mod 256))) as [b|] eqn:E; simpl.
  - apply Byte.to_of_N in E. rewrite E. lia.
  - apply Byte.of_N_None_iff in E. lia.
Qed.

Lemma byte_of_Z_of_byte b : byte_of_Z (Z_of_byte b) = b.
Proof.
  unfold byte_of_Z. rewrite Z.mod_small by apply Z_of_byte_range.
  unfold Z_of_byte. by rewrite N2Z.id, Byte.of_to_N.
Qed.

(** [binary.LittleEndian.PutUintN] and [UintN] of the Go standard library. *)

Fixpoint le_bytes (n : nat) (z : Z) : list byte :=
  match n with
  | O => []
  | S m => byte_of_Z z :: le_bytes m (z / 256)
  end.

Fixpoint le_value (bs : list byte) : Z :=
  match bs with
  | [] => 0
  | b :: bs' => Z_of_byte b + 256 * le_value bs'
  end.

Lemma length_le_bytes n z : length (le_bytes n z) = n.
Proof. revert z. induction n; intros; simpl; auto. Qed.

Lemma le_value_range bs : 0 ≤ le_value bs < 256 ^ Z.of_nat (length bs).
Proof.
  induction bs as [|b bs IH]; [simpl; lia|].
  cbn [le_value length]. rewrite Nat2Z.inj_succ, Z.pow_succ_r by lia.
  pose proof (Z_of_byte_range b). lia.
Qed.

Lemma le_value_bytes n z : le_value (le_bytes n z) = z mod 256 ^ Z.of_nat n.
Proof.
  revert z. induction n as [|n IH]; intros z; [by rewrite Z.mod_1_r|].
  cbn [le_bytes le_value].
  rewrite IH, Z_of_byte_of_Z, Nat2Z.inj_succ, Z.pow_succ_r by lia.
  by rewrite Z.rem_mul_r by lia.
Qed.

(** ** Go slices of bytes: [copy] and slicing *)

(** [copy(dst[off:], src)]: overwrites as many bytes as fit, never grows [dst]. *)
Fixpoint copy_at {A} (dst : list A) (off : nat) (src : list A) : list A :=
  match dst, off with
  | [], _ => []
  | x :: d, S o => x :: copy_at d o src
  | x :: d, O =>
      match src with
      | [] => x :: d
      | y :: s => y :: copy_at d O s
      end
  end.

(** [data[off : off+n]], as long as the range is inside [data]. *)
Definition slice {A} (data : list A) (off n : nat) : list A := take n (drop off data).

Section copy.
Context {A : Type}.
Implicit Types (d s : list A) (o n i : nat).

Lemma length_copy_at d o s : length (copy_at d o s) = length d.
Proof.
  revert o s. induction d as [|x d IH]; intros [|o] s; simpl; auto.
  destruct s; simpl; auto.
Qed.

Lemma lookup_copy_at_old d o s i :
  (i < o ∨ o + length s ≤ i)%nat → copy_at d o s !! i = d !! i.
Proof.
  revert o s i. induction d as [|x d IH]; intros [|o] s i H; auto.
  - destruct s as [|y s]; [done|]. simpl in *.
    destruct i as [|i]; simpl; [lia|]. apply IH. lia.
  - destruct i as [|i]; simpl; [done|]. apply IH. lia.
Qed.

Lemma lookup_copy_at_new d o s i :
  (o ≤ i < o + length s)%nat → (i < length d)%nat →
  copy_at d o s !! i = s !! (i - o)%nat.
Proof.
  revert o s i. induction d as [|x d IH]; intros [|o] s i H Hd; simpl in *; try lia.
  - destruct s as [|y s]; simpl in *; [lia|].
    destruct i as [|i]; simpl; [done|]. rewrite IH by lia. f_equal. lia.
  - destruct i as [|i]; simpl; [lia|]. apply IH; lia.
Qed.

Lemma lookup_slice d o n i :
  slice d o n !! i = if decide (i < n)%nat then d !! (o + i)%nat else None.
Proof.
  unfold slice. case_decide.
  - by rewrite lookup_take_lt, lookup_drop by lia.
  - by apply lookup_take_ge; lia.
Qed.

Lemma length_slice d o n : (o + n ≤ length d)%nat → length (slice d o n) = n.
Proof. intros. unfold slice. rewrite length_take, length_drop. lia. Qed.

Lemma slice_add d o n m : slice d o (n + m) = slice d o n ++ slice d (o + n) m.
Proof.
  unfold slice. by rewrite <-(take_take_drop _ n m), drop_drop, (Nat.add_comm o n), (Nat.add_comm n o).
Qed.

Lemma slice_slice d o m a n : (a + n ≤ m)%nat → slice (slice d o m) a n = slice d (o + a) n.
Proof.
  intros H. apply list_eq. intros i. rewrite !lookup_slice.
  repeat case_decide; try lia; try done. f_equal. lia.
Qed.

Lemma slice_app_skip d1 d2 o n m :
  length d1 = n → slice (d1 ++ d2) (n + o) m = slice d2 o m.
Proof. intros <-. unfold slice. by rewrite drop_app_add. Qed.

Lemma slice_app_first d1 d2 n : length d1 = n → slice (d1 ++ d2) 0 n = d1.
Proof. intros <-. apply take_app_length. Qed.

Lemma slice_copy_same d o s :
  (o + length s ≤ length d)%nat → slice (copy_at d o s) o (length s) = s.
Proof.
  intros H. apply list_eq. intros i. rewrite lookup_slice. case_decide.
  - rewrite lookup_copy_at_new by lia. f_equal. lia.
  - symmetry. apply lookup_ge_None. lia.
Qed.

Lemma slice_copy_disjoint d o s o' n :
  (o' + n ≤ o ∨ o + length s ≤ o')%nat →
  slice (copy_at d o s) o' n = slice d o' n.
Proof.
  intros H. apply list_eq. intros i. rewrite !lookup_slice. case_decide; [|done].
  apply lookup_copy_at_old. lia.
Qed.

Lemma copy_at_app d o s1 s2 :
  copy_at (copy_at d o s1) (o + length s1) s2 = copy_at d o (s1 ++ s2).
Proof.
  apply list_eq. intros i.
  destruct (decide (i < length d)%nat) as [Hd|Hd]; last first.
  { rewrite !(proj2 (lookup_ge_None _ _)); rewrite ?length_copy_at; try done; lia. }
  destruct (decide (o ≤ i < o + length (s1 ++ s2))%nat) as [Hi|Hi].
  - rewrite (lookup_copy_at_new d) by lia. rewrite length_app in Hi.
    destruct (decide (i < o + length s1)%nat).
    + rewrite lookup_copy_at_old, lookup_copy_at_new, lookup_app_l by lia. done.
    + rewrite lookup_copy_at_new, lookup_app_r by (rewrite ?length_copy_at; lia).
      f_equal. lia.
  - rewrite length_app in Hi.
    by rewrite !lookup_copy_at_old by (rewrite ?length_app; lia).
Qed.
End copy.

(** ** Go strings *)

(** The unsafe conversions of [internal/engine/memory/unsafe.go] (and their
    copy in [pkg/bytes/unsafe.go]) reinterpret the same bytes. *)
Definition StringToBytes (s : string) : list byte :=
  match s with
  | EmptyString => []
  | _ => Stdlib.Strings.String.list_byte_of_string s
  end.

Definition BytesToString (b : list byte) : string :=
  match b with
  | [] => EmptyString
  | _ => Stdlib.Strings.String.string_of_list_byte b
  end.

Lemma BytesToString_StringToBytes s : BytesToString (StringToBytes s) = s.
Proof.
  destruct s as [|a s]; [done|]. apply (Stdlib.Strings.String.string_of_list_byte_of_string (String a s)).
Qed.

Lemma StringToBytes_BytesToString b : StringToBytes (BytesToString b) = b.
Proof.
  destruct b as [|x b]; [done|].
  assert (Stdlib.Strings.String.string_of_list_byte (x :: b) ≠ EmptyString) as Hne by done.
  unfold BytesToString, StringToBytes.
  destruct (Stdlib.Strings.String.string_of_list_byte (x :: b)) eqn:E; [done|].
  rewrite <-E. apply Stdlib.Strings.String.list_byte_of_string_of_list_byte.
Qed.

#[export] Instance StringToBytes_inj : Inj (=) (=) StringToBytes.
Proof.
  intros s1 s2 H. rewrite <-(BytesToString_StringToBytes s1), H.
  apply BytesToString_StringToBytes.
Qed.

(** [sort.Strings]: bytewise lexicographic order. *)
Definition sort_strings (l : list string) : list string := merge_sort String.le l.

Lemma sort_strings_perm l : sort_strings l ≡ₚ l.
Proof. apply merge_sort_Permutation. Qed.

Lemma sort_strings_sorted l : StronglySorted String.le (sort_strings l).
Proof. apply StronglySorted_merge_sort; apply _. Qed.

(** [sort.Strings] is deterministic: the order in which a Go map was iterated
    before sorting does not matter. *)
Lemma sort_strings_unique l1 l2 : l1 ≡ₚ l2 → sort_strings l1 = sort_strings l2.
Proof.
  intros H. apply (StronglySorted_unique String.le).
  - apply sort_strings_sorted.
  - apply sort_strings_sorted.
  - by rewrite !sort_strings_perm.
Qed.

#[export] Instance sort_strings_proper : Proper (Permutation ==> eq) sort_strings.
Proof. intros l1 l2. apply sort_strings_unique. Qed.

(** ** Go maps

    Ranging over a Go map visits every entry once in an unspecified order. A
    [GoRange] fixes such an order; definitions that range over a map take one
    as an argument, so their theorems hold for every order. *)
Class GoRange (K A : Type) `{Countable K} := {
  go_range : gmap K A → list (K * A);
  go_range_perm m : go_range m ≡ₚ map_to_list m
}.

Definition listed_range {K A : Type} `{Countable K} : GoRange K A :=
  {| go_range := map_to_list; go_range_perm m := reflexivity (map_to_list m) |}.

Section go_range.
Context {K A : Type} `{Countable K} `{!GoRange K A}.

Lemma elem_of_go_range (m : gmap K A) k x : (k, x) ∈ go_range m ↔ m !! k = Some x.
Proof. by rewrite go_range_perm, elem_of_map_to_list. Qed.

Lemma NoDup_go_range_keys (m : gmap K A) : NoDup (go_range m).*1.
Proof. rewrite go_range_perm. apply NoDup_fst_map_to_list. Qed.

Lemma length_go_range (m : gmap K A) : length (go_range m) = size m.
Proof. by rewrite go_range_perm, length_map_to_list. Qed.
End go_range.

(** ** Lists *)

Lemma list_elem_of_concat {A} (x : A) (ls : list (list A)) :
  x ∈ concat ls ↔ ∃ l, x ∈ l ∧ l ∈ ls.
Proof.
  induction ls as [|l ls IH]; simpl.
  - split; [by intros ?%not_elem_of_nil|]. intros (? & _ & []%not_elem_of_nil).
  - rewrite elem_of_app, IH. setoid_rewrite elem_of_cons. naive_solver.
Qed.

Section filter.
Context {A : Type} (P : A → Prop) `{!∀ x, Decision (P x)}.

Lemma list_filter_all (l : list A) : (∀ x, x ∈ l → P x) → filter P l = l.
Proof.
  induction l as [|x l IH]; intros Hl; [done|]. rewrite filter_cons_True by (apply Hl; by left).
  f_equal. apply IH. intros y Hy. apply Hl. by right.
Qed.

Lemma list_filter_none (l : list A) : (∀ x, x ∈ l → ¬ P x) → filter P l = [].
Proof.
  induction l as [|x l IH]; intros Hl; [done|]. rewrite filter_cons_False by (apply Hl; by left).
  apply IH. intros y Hy. apply Hl. by right.
Qed.
End filter.

(** ** Sets of strings *)

Lemma size_add (x : string) (X : gset string) : x ∉ X → size ({[x]} ∪ X) = S (size X).
Proof.
  intros Hx. assert (({[x]} : gset string) ## X) as Hd by set_solver.
  by rewrite (size_union _ _ Hd), size_singleton.
Qed.

(** ** Automation *)

(** Case analysis on the integer and decidable tests of the source. *)
Ltac zcase :=
  match goal with
  | |- context [ ?a <? ?b ] => destruct (Z.ltb_spec a b)
  | |- context [ ?a <=? ?b ] => destruct (Z.leb_spec a b)
  | |- context [ ?a =? ?b ] => destruct (Z.eqb_spec a b)
  | |- context [ ?a >? ?b ] => rewrite (Z.gtb_ltb a b)
  | |- context [ ?a >=? ?b ] => rewrite (Z.geb_leb a b)
  end.

Ltac zcases := repeat zcase.

Ltac zcase_in H :=
  match type of H with
  | context [ ?a <? ?b ] => destruct (Z.ltb_spec a b)
  | context [ ?a <=? ?b ] => destruct (Z.leb_spec a b)
  | context [ ?a =? ?b ] => destruct (Z.eqb_spec a b)
  | context [ ?a >? ?b ] => rewrite (Z.gtb_ltb a b) in H
  | context [ ?a >=? ?b ] => rewrite (Z.geb_leb a b) in H
  end.

(** Split every conditional of a computation that returned a value. *)
Ltac go_inv H :=
  repeat first
    [ progress simplify_option_eq
    | zcase_in H
    | case_bool_decide
    | match type of H with
      | context [ match ?x with _ => _ end ] => destruct x eqn:?
      end ].

(** Evaluate a decidable proposition on concrete data. *)
Ltac by_compute := apply (bool_decide_eq_true_1 _); vm_compute; reflexivity.

Create HintDb go_ints.
#[export] Hint Resolve u16_range u64_range i64_range : go_ints.
#[export] Hint Rewrite @length_copy_at length_le_bytes : go_len.
