(* ===== verification/Hash.v ===== *)
(** * Key hashing: [internal/cluster/hash/crc16.go]

    The table-driven CRC16 of the source, the slot of a key with its hash-tag
    rule, and the bit-by-bit CRC16-CCITT polynomial division the table
    implements. *)

From S2P Require Import Prelude.
From stdpp Require Import options.

(** ** The code *)

Definition SlotCount : Z := 16384.

Definition crc16Table : list Z := [
   0x0000; 0x1021; 0x2042; 0x3063; 0x4084; 0x50a5; 0x60c6; 0x70e7;
   0x8108; 0x9129; 0xa14a; 0xb16b; 0xc18c; 0xd1ad; 0xe1ce; 0xf1ef;
   0x1231; 0x0210; 0x3273; 0x2252; 0x52b5; 0x4294; 0x72f7; 0x62d6;
   0x9339; 0x8318; 0xb37b; 0xa35a; 0xd3bd; 0xc39c; 0xf3ff; 0xe3de;
   0x2462; 0x3443; 0x0420; 0x1401; 0x64e6; 0x74c7; 0x44a4; 0x5485;
   0xa56a; 0xb54b; 0x8528; 0x9509; 0xe5ee; 0xf5cf; 0xc5ac; 0xd58d;
   0x3653; 0x2672; 0x1611; 0x0630; 0x76d7; 0x66f6; 0x5695; 0x46b4;
   0xb75b; 0xa77a; 0x9719; 0x8738; 0xf7df; 0xe7fe; 0xd79d; 0xc7bc;
   0x48c4; 0x58e5; 0x6886; 0x78a7; 0x0840; 0x1861; 0x2802; 0x3823;
   0xc9cc; 0xd9ed; 0xe98e; 0xf9af; 0x8948; 0x9969; 0xa90a; 0xb92b;
   0x5af5; 0x4ad4; 0x7ab7; 0x6a96; 0x1a71; 0x0a50; 0x3a33; 0x2a12;
   0xdbfd; 0xcbdc; 0xfbbf; 0xeb9e; 0x9b79; 0x8b58; 0xbb3b; 0xab1a;
   0x6ca6; 0x7c87; 0x4ce4; 0x5cc5; 0x2c22; 0x3c03; 0x0c60; 0x1c41;
   0xedae; 0xfd8f; 0xcdec; 0xddcd; 0xad2a; 0xbd0b; 0x8d68; 0x9d49;
   0x7e97; 0x6eb6; 0x5ed5; 0x4ef4; 0x3e13; 0x2e32; 0x1e51; 0x0e70;
   0xff9f; 0xefbe; 0xdfdd; 0xcffc; 0xbf1b; 0xaf3a; 0x9f59; 0x8f78;
   0x9188; 0x81a9; 0xb1ca; 0xa1eb; 0xd10c; 0xc12d; 0xf14e; 0xe16f;
   0x1080; 0x00a1; 0x30c2; 0x20e3; 0x5004; 0x4025; 0x7046; 0x6067;
   0x83b9; 0x9398; 0xa3fb; 0xb3da; 0xc33d; 0xd31c; 0xe37f; 0xf35e;
   0x02b1; 0x1290; 0x22f3; 0x32d2; 0x4235; 0x5214; 0x6277; 0x7256;
   0xb5ea; 0xa5cb; 0x95a8; 0x8589; 0xf56e; 0xe54f; 0xd52c; 0xc50d;
   0x34e2; 0x24c3; 0x14a0; 0x0481; 0x7466; 0x6447; 0x5424; 0x4405;
   0xa7db; 0xb7fa; 0x8799; 0x97b8; 0xe75f; 0xf77e; 0xc71d; 0xd73c;
   0x26d3; 0x36f2; 0x0691; 0x16b0; 0x6657; 0x7676; 0x4615; 0x5634;
   0xd94c; 0xc96d; 0xf90e; 0xe92f; 0x99c8; 0x89e9; 0xb98a; 0xa9ab;
   0x5844; 0x4865; 0x7806; 0x6827; 0x18c0; 0x08e1; 0x3882; 0x28a3;
   0xcb7d; 0xdb5c; 0xeb3f; 0xfb1e; 0x8bf9; 0x9bd8; 0xabbb; 0xbb9a;
   0x4a75; 0x5a54; 0x6a37; 0x7a16; 0x0af1; 0x1ad0; 0x2ab3; 0x3a92;
   0xfd2e; 0xed0f; 0xdd6c; 0xcd4d; 0xbdaa; 0xad8b; 0x9de8; 0x8dc9;
   0x7c26; 0x6c07; 0x5c64; 0x4c45; 0x3ca2; 0x2c83; 0x1ce0; 0x0cc1;
   0xef1f; 0xff3e; 0xcf5d; 0xdf7c; 0xaf9b; 0xbfba; 0x8fd9; 0x9ff8;
   0x6e17; 0x7e36; 0x4e55; 0x5e74; 0x2e93; 0x3eb2; 0x0ed1; 0x1ef0
].

(** One iteration of the loop of [CRC16]:
    [crc = (crc << 8) ^ crc16Table[byte(crc>>8)^b]] on a [uint16]. *)
Definition crc16_step (crc : Z) (b : byte) : Z :=
  Z.lxor (u16 (Z.shiftl crc 8))
    (default 0 (crc16Table !! Z.to_nat (Z.lxor (u8 (Z.shiftr crc 8)) (Z_of_byte b)))).

Definition CRC16 (data : list byte) : Z := foldl crc16_step 0 data.

(** [indexByte]: the loop over [i], with the bytes left of [i] consumed. *)
Fixpoint indexByte_loop (i : Z) (s : list byte) (c : byte) : Z :=
  match s with
  | [] => -1
  | x :: s' => if bool_decide (x = c) then i else indexByte_loop (i + 1) s' c
  end.

Definition indexByte (s : list byte) (c : byte) : Z := indexByte_loop 0 s c.

Definition open_brace : byte := x7b.
Definition close_brace : byte := x7d.

(** The part of the key that is hashed: [KeySlot] reassigns [key] to it. *)
Definition hashed_part (key : list byte) : list byte :=
  let start := indexByte key open_brace in
  if 0 <=? start then
    let rest := drop (Z.to_nat (start + 1)) key in
    let end_ := indexByte rest close_brace in
    if 0 <=? end_ then slice key (Z.to_nat (start + 1)) (Z.to_nat end_) else key
  else key.

Definition KeySlot (key : string) : Z :=
  CRC16 (hashed_part (StringToBytes key)) mod SlotCount.

(** ** The reference: polynomial division, one bit at a time *)

Definition crc_poly : Z := 0x1021.

Definition crc_bit (x : Z) : Z :=
  Z.lxor (Z.land (Z.shiftl x 1) (Z.ones 16)) (if Z.testbit x 15 then crc_poly else 0).

Definition crc_byte (crc : Z) (b : byte) : Z :=
  Nat.iter 8 crc_bit (Z.lxor crc (Z.shiftl (Z_of_byte b) 8)).

Definition crc16_reference (data : list byte) : Z := foldl crc_byte 0 data.

(** ** Proofs *)

Lemma crc_bit_lxor x y : crc_bit (Z.lxor x y) = Z.lxor (crc_bit x) (crc_bit y).
Proof.
  unfold crc_bit. rewrite Z.lxor_spec.
  apply Z.bits_inj'. intros n Hn.
  rewrite !Z.lxor_spec, !Z.land_spec, !Z.shiftl_spec, Z.lxor_spec by done.
  destruct (Z.testbit x 15), (Z.testbit y 15), (Z.testbit crc_poly n) eqn:E,
    (Z.testbit x (n - 1)), (Z.testbit y (n - 1)), (Z.testbit (Z.ones 16) n);
    simpl; rewrite ?Z.testbit_0_l, ?E; done.
Qed.

Lemma crc_iter_lxor k x y :
  Nat.iter k crc_bit (Z.lxor x y) = Z.lxor (Nat.iter k crc_bit x) (Nat.iter k crc_bit y).
Proof. induction k as [|k IH]; simpl; [done|]. by rewrite IH, crc_bit_lxor. Qed.

(** Division of a byte that has not reached the top of the register only shifts it. *)
Lemma crc_low_shift lo : 0 ≤ lo < 256 → Nat.iter 8 crc_bit lo = Z.shiftl lo 8.
Proof.
  intros Hlo. apply Z.eqb_eq. revert lo Hlo.
  apply (forallb_seqZ (λ z, Nat.iter 8 crc_bit z =? Z.shiftl z 8)). by vm_compute.
Qed.

(** The 256 entries of [crc16Table] are the divisions of the high byte. *)
Lemma crc_table_entry hi :
  0 ≤ hi < 256 →
  default 0 (crc16Table !! Z.to_nat hi) = Nat.iter 8 crc_bit (Z.shiftl hi 8).
Proof.
  intros Hhi. apply Z.eqb_eq. revert hi Hhi.
  apply (forallb_seqZ (λ z, default 0 (crc16Table !! Z.to_nat z) =? Nat.iter 8 crc_bit (Z.shiftl z 8))).
  by vm_compute.
Qed.

Lemma lxor_split_bytes crc b :
  is_u16 crc →
  Z.lxor crc (Z.shiftl (Z_of_byte b) 8) =
  Z.lxor (Z.shiftl (Z.lxor (u8 (Z.shiftr crc 8)) (Z_of_byte b)) 8) (Z.land crc (Z.ones 8)).
Proof.
  unfold is_u16. intros Hc. unfold u8. rewrite <-Z.land_ones by lia.
  apply Z.bits_inj'. intros n Hn.
  rewrite !Z.lxor_spec, Z.land_spec, !Z.shiftl_spec, Z.lxor_spec, Z.land_spec by done.
  destruct (Z.ltb_spec n 8) as [H8|H8].
  - rewrite (Z.ones_spec_low 8 n), !(Z.testbit_neg_r _ (n - 8)) by lia.
    by destruct (Z.testbit crc n).
  - rewrite Z.shiftr_spec, (Z.ones_spec_high 8 n) by lia. replace (n - 8 + 8) with n by lia.
    destruct (Z.ltb_spec n 16).
    + rewrite (Z.ones_spec_low 8 (n - 8)) by lia.
      by destruct (Z.testbit crc n), (Z.testbit (Z_of_byte b) (n - 8)).
    + rewrite (Z.ones_spec_high 8 (n - 8)) by lia.
      replace (Z.testbit crc n) with false; [by destruct (Z.testbit (Z_of_byte b) (n - 8))|].
      rewrite <-(Z.mod_small crc (2 ^ 16)) by done.
      symmetry. apply Z.mod_pow2_bits_high. lia.
Qed.

Lemma lxor_u8_range a b : 0 ≤ a < 256 → 0 ≤ b < 256 → 0 ≤ Z.lxor a b < 256.
Proof.
  intros Ha Hb. assert (0 ≤ Z.lxor a b) by (apply Z.lxor_nonneg; lia). split; [done|].
  assert (Z.lxor a b = Z.lxor a b mod 2 ^ 8) as ->; [|apply Z.mod_pos_bound; lia].
  rewrite <-Z.land_ones by lia. apply Z.bits_inj'. intros n Hn.
  rewrite Z.land_spec. destruct (Z.ltb_spec n 8).
  - by rewrite Z.ones_spec_low, andb_true_r by lia.
  - rewrite Z.ones_spec_high, andb_false_r by lia.
    rewrite Z.lxor_spec, <-(Z.mod_small a (2 ^ 8)), <-(Z.mod_small b (2 ^ 8)) by lia.
    by rewrite !Z.mod_pow2_bits_high by lia.
Qed.

Lemma crc16_step_reference crc b : is_u16 crc → crc16_step crc b = crc_byte crc b.
Proof.
  intros Hc. unfold crc16_step, crc_byte.
  rewrite lxor_split_bytes, crc_iter_lxor by done.
  rewrite <-crc_table_entry; [|apply lxor_u8_range; [|apply Z_of_byte_range];
    apply Z.mod_pos_bound; lia].
  rewrite crc_low_shift by (rewrite Z.land_ones by lia; apply Z.mod_pos_bound; lia).
  rewrite Z.lxor_comm. f_equal. unfold u16.
  rewrite <-!Z.land_ones by lia. apply Z.bits_inj'. intros n Hn.
  rewrite Z.land_spec, !Z.shiftl_spec, Z.land_spec by done.
  destruct (Z.ltb_spec n 8); [by rewrite !(Z.testbit_neg_r _ (n - 8)) by lia|].
  destruct (Z.ltb_spec n 16).
  - by rewrite !Z.ones_spec_low by lia.
  - by rewrite !Z.ones_spec_high by lia.
Qed.

Lemma crc_bit_range x : is_u16 (crc_bit x).
Proof.
  unfold is_u16, crc_bit.
  assert (0 ≤ Z.land (Z.shiftl x 1) (Z.ones 16) < 2 ^ 16) as Hl
    by (rewrite Z.land_ones by lia; apply Z.mod_pos_bound; lia).
  set (a := Z.land _ _) in *. set (p := if Z.testbit x 15 then _ else _).
  assert (0 ≤ p < 2 ^ 16) as Hp by (unfold p, crc_poly; destruct (Z.testbit x 15); lia).
  split; [apply Z.lxor_nonneg; lia|].
  destruct (Z.eq_dec (Z.lxor a p) 0) as [->|Hz]; [lia|].
  apply Z.log2_lt_pow2; [assert (0 ≤ Z.lxor a p) by (apply Z.lxor_nonneg; lia); lia|].
  eapply Z.le_lt_trans; [apply Z.log2_lxor; lia|].
  apply Z.max_lub_lt.
  - destruct (Z.eq_dec a 0) as [->|]; [done|]. apply Z.log2_lt_pow2; lia.
  - destruct (Z.eq_dec p 0) as [->|]; [done|]. apply Z.log2_lt_pow2; lia.
Qed.

Lemma crc_byte_range crc b : is_u16 (crc_byte crc b).
Proof. apply crc_bit_range. Qed.

Lemma crc16_fold_reference data crc :
  is_u16 crc → foldl crc16_step crc data = foldl crc_byte crc data.
Proof.
  revert crc. induction data as [|b data IH]; intros crc Hc; simpl; [done|].
  rewrite crc16_step_reference by done. apply IH, crc_byte_range.
Qed.

(** [CRC16] is the CRC16-CCITT checksum: the table-driven loop computes the
    bit-by-bit polynomial division for every input. *)
Theorem CRC16_correct data : CRC16 data = crc16_reference data.
Proof. apply crc16_fold_reference. unfold is_u16. lia. Qed.

(** Every key belongs to one of the 16384 slots. *)
Lemma KeySlot_range key : 0 ≤ KeySlot key < SlotCount.
Proof. apply Z.mod_pos_bound. done. Qed.

Lemma indexByte_loop_app i s1 s2 c :
  c ∉ s1 → indexByte_loop i (s1 ++ s2) c = indexByte_loop (i + Z.of_nat (length s1)) s2 c.
Proof.
  revert i. induction s1 as [|x s1 IH]; intros i Hc; simpl; [f_equal; lia|].
  rewrite bool_decide_eq_false_2 by set_solver. rewrite IH by set_solver. f_equal. lia.
Qed.

Lemma indexByte_split s1 s2 c :
  c ∉ s1 → indexByte (s1 ++ c :: s2) c = Z.of_nat (length s1).
Proof.
  intros Hc. unfold indexByte. rewrite indexByte_loop_app by done. simpl.
  by rewrite bool_decide_eq_true_2.
Qed.

Lemma indexByte_absent s c : c ∉ s → indexByte s c = -1.
Proof.
  intros Hc. unfold indexByte. rewrite <-(app_nil_r s) at 1.
  by rewrite indexByte_loop_app.
Qed.

Lemma hashed_part_tag pre tag post :
  open_brace ∉ pre → close_brace ∉ tag →
  hashed_part (pre ++ open_brace :: tag ++ close_brace :: post) = tag.
Proof.
  intros Hp Ht. unfold hashed_part. rewrite indexByte_split by done.
  zcase; [|lia].
  replace (Z.to_nat (Z.of_nat (length pre) + 1)) with (length (pre ++ [open_brace]))
    by (rewrite length_app; simpl; lia).
  rewrite (app_assoc pre [open_brace] (tag ++ close_brace :: post) : pre ++ open_brace :: _ = _).
  rewrite drop_app_length, indexByte_split by done. zcase; [|lia].
  unfold slice. rewrite drop_app_length, Nat2Z.id. apply take_app_length.
Qed.

Lemma hashed_part_untagged key : open_brace ∉ key → hashed_part key = key.
Proof. intros H. unfold hashed_part. by rewrite indexByte_absent. Qed.

(** Hash tags: for a key of the form [pre{tag}post], where [pre] has no brace
    and [tag] no closing one, the slot depends on [tag] alone, so all keys that
    share a tag are in the same slot. *)
Theorem KeySlot_hash_tag key pre tag post :
  open_brace ∉ pre → close_brace ∉ tag →
  StringToBytes key = pre ++ open_brace :: tag ++ close_brace :: post →
  KeySlot key = CRC16 tag mod SlotCount.
Proof. intros Hp Ht Hk. unfold KeySlot. by rewrite Hk, hashed_part_tag. Qed.

Lemma KeySlot_hash_tag_witness :
  KeySlot "{user:1000}.name" = KeySlot "{user:1000}.email".
Proof.
  rewrite (KeySlot_hash_tag "{user:1000}.name" [] (StringToBytes "user:1000") (StringToBytes ".name"));
    [|by_compute|by_compute|reflexivity].
  rewrite (KeySlot_hash_tag "{user:1000}.email" [] (StringToBytes "user:1000") (StringToBytes ".email"));
    [reflexivity|by_compute|by_compute|reflexivity].
Defined.

(** An empty tag is not skipped: every key that starts with an empty tag is in
    slot 0, whatever follows, where a test comment of the repository asks for
    the whole key to be hashed. *)
Theorem KeySlot_empty_tag key post :
  StringToBytes key = open_brace :: close_brace :: post → KeySlot key = 0.
Proof.
  intros Hk. unfold KeySlot. rewrite Hk.
  change (open_brace :: close_brace :: post) with ([] ++ open_brace :: [] ++ close_brace :: post).
  by rewrite hashed_part_tag by apply not_elem_of_nil.
Qed.

Lemma KeySlot_empty_tag_witness :
  KeySlot "{}foo" = 0 ∧ CRC16 (StringToBytes "{}foo") mod SlotCount = 9500.
Proof.
  split; [apply (KeySlot_empty_tag _ (StringToBytes "foo")); reflexivity|vm_compute; reflexivity].
Defined.

(** A key without an opening brace is hashed whole. *)
Lemma KeySlot_untagged key :
  open_brace ∉ StringToBytes key → KeySlot key = CRC16 (StringToBytes key) mod SlotCount.
Proof. intros H. unfold KeySlot. by rewrite hashed_part_untagged. Qed.

(** The values the repository's own tests record. *)
Example CRC16_check : CRC16 (StringToBytes "123456789") = 0x31C3.
Proof. reflexivity. Qed.
Example KeySlot_foo : KeySlot "foo" = 12182.
Proof. reflexivity. Qed.
Example KeySlot_nested : KeySlot "{{foo}}" = 13308.
Proof. reflexivity. Qed.
Example KeySlot_unclosed : KeySlot "{foo" = 13308.
Proof. reflexivity. Qed.
Example KeySlot_reversed : KeySlot "}foo{bar" = 7622.
Proof. reflexivity. Qed.
