(* ===== verification/Strconv.v ===== *)
(** * Decimal integers: Go's [strconv] and [internal/protocol/format.go]

    [strconv.FormatInt(_, 10)] and [strconv.ParseInt(_, 10, 64)] of the Go
    standard library, as the engine and the protocol use them, and the
    allocation-free formatter the protocol has of its own. *)

From S2P Require Import Prelude.
From stdpp Require Import options.

(** ** The standard library *)

Definition ascii_digit (d : Z) : byte := byte_of_Z (48 + d).

Definition ascii_minus : byte := x2d.
Definition ascii_plus : byte := x2b.

Fixpoint decimal (fuel : nat) (n : Z) : list byte :=
  match fuel with
  | O => []
  | S f => if n <? 10 then [ascii_digit n] else decimal f (n / 10) ++ [ascii_digit (n mod 10)]
  end.

(** An [int64] or [uint64] has at most 20 digits. *)
Definition strconv_FormatInt (z : Z) : list byte :=
  if z <? 0 then ascii_minus :: decimal 20 (- z) else decimal 20 z.

Fixpoint parse_digits (acc : Z) (bs : list byte) : option Z :=
  match bs with
  | [] => Some acc
  | b :: bs' =>
      let d := Z_of_byte b - 48 in
      if (0 <=? d) && (d <=? 9) then parse_digits (acc * 10 + d) bs' else None
  end.

Definition strconv_ParseInt (bs : list byte) : option Z :=
  match bs with
  | [] => None
  | b :: rest =>
      let neg := bool_decide (b = ascii_minus) in
      let digits := if neg || bool_decide (b = ascii_plus) then rest else bs in
      match digits with
      | [] => None
      | _ =>
          n ← parse_digits 0 digits;
          let v := if neg then - n else n in
          if (- 2 ^ 63 <=? v) && (v <? 2 ^ 63) then Some v else None
      end
  end.

(** ** [internal/protocol/format.go] *)

Definition smallIntStrings : list (list byte) :=
  (λ i, if i <? 10 then [byte_of_Z (48 + i)] else [byte_of_Z (48 + i / 10); byte_of_Z (48 + i mod 10)])
    <$> seqZ 0 100.

(** The loop of [appendUint] fills a 20-byte array from its end; a write below
    index 0 would panic. *)
Fixpoint appendUint_loop (fuel : nat) (digits : list byte) (i : nat) (n : Z) : option (list byte * nat) :=
  match fuel with
  | O => None
  | S f =>
      if 0 <? n then
        match i with
        | O => None
        | S i' => appendUint_loop f (<[i' := byte_of_Z (n mod 10 + 48)]> digits) i' (n / 10)
        end
      else Some (digits, i)
  end.

Definition appendUint (buf : list byte) (n : Z) : option (list byte) :=
  if n =? 0 then Some (buf ++ [byte_of_Z 48])
  else
    r ← appendUint_loop 21 (replicate 20 x00) 20 n;
    let '(digits, i) := r in Some (buf ++ drop i digits).

Definition FormatInt (buf : list byte) (n : Z) : option (list byte) :=
  if (0 <=? n) && (n <? 100) then (λ s, buf ++ s) <$> smallIntStrings !! Z.to_nat n
  else
    let '(buf, n) := if n <? 0 then (buf ++ [ascii_minus], i64 (- n)) else (buf, n) in
    appendUint buf (u64 n).

Definition FormatUint (buf : list byte) (n : Z) : option (list byte) :=
  if n <? 100 then (λ s, buf ++ s) <$> smallIntStrings !! Z.to_nat n else appendUint buf n.

Definition crlf : list byte := [x0d; x0a].

Definition FormatIntRESP (buf : list byte) (n : Z) : option (list byte) :=
  buf ← FormatInt (buf ++ [x3a]) n; Some (buf ++ crlf).

Definition FormatBulkLen (buf : list byte) (length : Z) : option (list byte) :=
  buf ← FormatInt (buf ++ [x24]) length; Some (buf ++ crlf).

Definition FormatArrayLen (buf : list byte) (length : Z) : option (list byte) :=
  buf ← FormatInt (buf ++ [x2a]) length; Some (buf ++ crlf).

Definition FormatBulkString (buf s : list byte) : option (list byte) :=
  buf ← FormatBulkLen buf (Z.of_nat (length s)); Some ((buf ++ s) ++ crlf).

Definition FormatSimpleString (buf : list byte) (s : string) : list byte :=
  ((buf ++ [x2b]) ++ StringToBytes s) ++ crlf.

Definition FormatErrorString (buf : list byte) (s : string) : list byte :=
  ((buf ++ [x2d]) ++ StringToBytes s) ++ crlf.

(** ** Round trip of the standard library's pair *)

Lemma digit_value d : 0 ≤ d < 10 → Z_of_byte (ascii_digit d) - 48 = d.
Proof.
  intros Hd. unfold ascii_digit. rewrite Z_of_byte_of_Z, Z.mod_small; lia.
Qed.

Lemma parse_digit a d bs :
  0 ≤ d < 10 → parse_digits a (ascii_digit d :: bs) = parse_digits (a * 10 + d) bs.
Proof.
  intros Hd. simpl. rewrite digit_value by done.
  destruct ((0 <=? d) && (d <=? 9)) eqn:E; [done|lia].
Qed.

Lemma parse_digits_app a l1 l2 :
  parse_digits a (l1 ++ l2) = parse_digits a l1 ≫= λ a', parse_digits a' l2.
Proof.
  revert a. induction l1 as [|b l1 IH]; intros a; simpl; [done|].
  destruct ((0 <=? Z_of_byte b - 48) && (Z_of_byte b - 48 <=? 9)); [apply IH|done].
Qed.

Lemma parse_decimal f n : 0 ≤ n < 10 ^ Z.of_nat f → parse_digits 0 (decimal f n) = Some n.
Proof.
  revert n. induction f as [|f IH]; intros n Hn; [simpl in *; f_equal; lia|].
  cbn [decimal]. rewrite Nat2Z.inj_succ, Z.pow_succ_r in Hn by lia.
  destruct (Z.ltb_spec n 10) as [H|H].
  - by rewrite parse_digit by lia.
  - pose proof (Z.mod_pos_bound n 10). rewrite parse_digits_app, IH.
    + change (parse_digits (n / 10) [ascii_digit (n mod 10)] = Some n).
      rewrite parse_digit by lia. simpl. f_equal. pose proof (Z.div_mod n 10). lia.
    + split; [apply Z.div_pos; lia|]. apply Z.div_lt_upper_bound; lia.
Qed.

Lemma decimal_first f n : 0 ≤ n < 10 ^ Z.of_nat (S f) →
  ∃ d l, 0 ≤ d < 10 ∧ decimal (S f) n = ascii_digit d :: l.
Proof.
  revert n. induction f as [|f IH]; intros n Hn; cbn [decimal];
    destruct (Z.ltb_spec n 10) as [H|H]; try (by exists n, []; split; [lia|]).
  - change (10 ^ Z.of_nat 1) with 10 in Hn. lia.
  - rewrite Nat2Z.inj_succ, Z.pow_succ_r in Hn by lia.
    destruct (IH (n / 10)) as (d & l & Hd & E).
    + split; [apply Z.div_pos; lia|]. apply Z.div_lt_upper_bound; lia.
    + cbn [decimal] in E. rewrite E. exists d, (l ++ [ascii_digit (n mod 10)]). done.
Qed.

Lemma ascii_digit_sign d : 0 ≤ d < 10 → ascii_digit d ≠ ascii_minus ∧ ascii_digit d ≠ ascii_plus.
Proof.
  intros Hd. pose proof (digit_value d Hd) as H.
  split; intros E; rewrite E in H; vm_compute in H; lia.
Qed.

Lemma ParseInt_strconv z : is_i64 z → strconv_ParseInt (strconv_FormatInt z) = Some z.
Proof.
  unfold is_i64. intros Hz. unfold strconv_FormatInt.
  assert (∀ n, 0 ≤ n ≤ 2 ^ 63 → 0 ≤ n < 10 ^ Z.of_nat 20) as Hlt by (intros n Hn; simpl; lia).
  destruct (Z.ltb_spec z 0) as [Hneg|Hpos].
  - destruct (decimal_first 19 (- z)) as (d & l & Hd & E); [apply Hlt; lia|].
    pose proof (parse_decimal 20 (- z) (Hlt (- z) ltac:(lia))) as Hp.
    unfold strconv_ParseInt. rewrite E in *.
    rewrite bool_decide_eq_true_2 by done. cbn [orb]. rewrite Hp. cbn [mbind option_bind]. cbv zeta.
    destruct ((- 2 ^ 63 <=? - - z) && (- - z <? 2 ^ 63)) eqn:R; [f_equal; lia|lia].
  - destruct (decimal_first 19 z) as (d & l & Hd & E); [apply Hlt; lia|].
    pose proof (parse_decimal 20 z (Hlt z ltac:(lia))) as Hp.
    unfold strconv_ParseInt. rewrite E in *.
    destruct (ascii_digit_sign d Hd) as [H1 H2].
    rewrite !bool_decide_eq_false_2 by done. cbn [orb]. rewrite Hp. cbn [mbind option_bind]. cbv zeta.
    destruct ((- 2 ^ 63 <=? z) && (z <? 2 ^ 63)) eqn:R; [done|lia].
Qed.

(** ** The protocol's formatter *)

Lemma appendUint_loop_spec f digits i n :
  length digits = 20%nat → (i ≤ 20)%nat → 0 ≤ n < 10 ^ Z.of_nat i → (i < f)%nat →
  ∃ digits' i', appendUint_loop f digits i n = Some (digits', i') ∧ (i' ≤ i)%nat ∧
    length digits' = 20%nat ∧
    drop i' digits' = (if n =? 0 then [] else decimal i n) ++ drop i digits.
Proof.
  revert digits i n. induction f as [|f IH]; intros digits i n Hl Hi Hn Hf; [lia|].
  cbn [appendUint_loop]. destruct (Z.ltb_spec 0 n) as [Hp|Hz]; last first.
  { exists digits, i. split_and!; [done|lia|done|]. by replace n with 0 by lia. }
  destruct i as [|i]; [change (10 ^ Z.of_nat 0) with 1 in Hn; lia|].
  rewrite Nat2Z.inj_succ, Z.pow_succ_r in Hn by lia.
  set (b := byte_of_Z (n mod 10 + 48)).
  destruct (IH (<[i := b]> digits) i (n / 10)) as (digits' & i' & E & Hi' & Hl' & Hd).
  { by rewrite length_insert. } { lia. }
  { split; [apply Z.div_pos; lia|]. apply Z.div_lt_upper_bound; lia. } { lia. }
  exists digits', i'. split_and!; [done|lia|done|]. rewrite Hd.
  assert (drop i (<[i := b]> digits) = ascii_digit (n mod 10) :: drop (S i) digits) as ->.
  { unfold ascii_digit. rewrite (Z.add_comm 48).
    rewrite (drop_S _ b) by (apply list_lookup_insert_eq; lia). f_equal.
    by rewrite drop_insert_lt by lia. }
  destruct (Z.eqb_spec n 0); [lia|]. cbn [decimal].
  destruct (Z.ltb_spec n 10).
  - rewrite Z.div_small, Z.mod_small by lia. done.
  - destruct (Z.eqb_spec (n / 10) 0) as [E0|_].
    + apply Z.div_small_iff in E0; lia.
    + by rewrite <-app_assoc.
Qed.

Lemma appendUint_decimal buf n : 0 ≤ n < 2 ^ 64 → appendUint buf n = Some (buf ++ decimal 20 n).
Proof.
  intros Hn. unfold appendUint. destruct (Z.eqb_spec n 0) as [->|H0]; [done|].
  destruct (appendUint_loop_spec 21 (replicate 20 x00) 20 n) as (ds & i & -> & _ & _ & Hd);
    [done|lia|simpl; lia|lia|].
  destruct (Z.eqb_spec n 0); [done|]. cbn. by rewrite Hd, app_nil_r.
Qed.

Lemma smallIntStrings_decimal n :
  0 ≤ n < 100 → smallIntStrings !! Z.to_nat n = Some (decimal 20 n).
Proof.
  intros Hn.
  pose proof (forallb_seqZ
    (λ n, bool_decide (smallIntStrings !! Z.to_nat n = Some (decimal 20 n))) 100 eq_refl n Hn) as H.
  by apply bool_decide_eq_true in H.
Qed.

Lemma FormatInt_strconv buf n :
  is_i64 n → FormatInt buf n = Some (buf ++ strconv_FormatInt n).
Proof.
  unfold is_i64. intros Hn. unfold FormatInt, strconv_FormatInt.
  destruct ((0 <=? n) && (n <? 100)) eqn:Hs.
  { rewrite smallIntStrings_decimal by lia. destruct (Z.ltb_spec n 0); [lia|done]. }
  destruct (Z.ltb_spec n 0) as [H|H].
  - assert (u64 (i64 (- n)) = - n) as ->.
    { rewrite u64_i64. apply u64_id. unfold is_u64. lia. }
    rewrite appendUint_decimal by lia. by rewrite <-app_assoc.
  - rewrite u64_id by (unfold is_u64; lia). by rewrite appendUint_decimal by lia.
Qed.

(** For every [int64] the formatter of the protocol never runs out of its
    20-byte array, appends exactly what [strconv.FormatInt] prints, and a client
    that parses those bytes gets the integer back; this includes the smallest
    one, whose negation wraps around. *)
Theorem FormatInt_correct buf n :
  is_i64 n →
  FormatInt buf n = Some (buf ++ strconv_FormatInt n) ∧
  strconv_ParseInt (strconv_FormatInt n) = Some n.
Proof. intros Hn. split; [by apply FormatInt_strconv|by apply ParseInt_strconv]. Qed.

Lemma FormatInt_correct_witness :
  FormatInt [] (- 2 ^ 63) = Some (StringToBytes "-9223372036854775808") ∧
  strconv_ParseInt (strconv_FormatInt (- 2 ^ 63)) = Some (- 2 ^ 63).
Proof. apply (FormatInt_correct [] (- 2 ^ 63)). unfold is_i64. lia. Defined.

(** *** A reader for one bulk string, to state that the framing is decodable *)

(** The bytes before the first CR LF, and what follows it. *)
Fixpoint split_crlf (bs : list byte) : option (list byte * list byte) :=
  match bs with
  | [] => None
  | b :: rest =>
      if bool_decide (take 2 bs = crlf) then Some ([], drop 1 rest)
      else r ← split_crlf rest; let '(l, rest') := r in Some (b :: l, rest')
  end.

Definition read_bulk (bs : list byte) : option (list byte * list byte) :=
  match bs with
  | b :: bs =>
      if negb (bool_decide (b = x24)) then None else
      r ← split_crlf bs;
      let '(l, rest) := r in
      n ← strconv_ParseInt l;
      if (0 <=? n) && (n + 2 <=? Z.of_nat (length rest))
         && bool_decide (slice rest (Z.to_nat n) 2 = crlf)
      then Some (take (Z.to_nat n) rest, drop (Z.to_nat n + 2) rest) else None
  | [] => None
  end.

Definition printable (b : byte) : bool := negb (bool_decide (b = x0d)).

Lemma split_crlf_app l rest :
  forallb printable l = true → split_crlf (l ++ crlf ++ rest) = Some (l, rest).
Proof.
  induction l as [|b l IH]; intros Hl; [done|].
  simpl in Hl. apply andb_true_iff in Hl as [Hb Hl]. apply negb_true_iff, bool_decide_eq_false in Hb.
  cbn [app split_crlf]. rewrite bool_decide_eq_false_2.
  - by rewrite IH by done.
  - destruct (l ++ crlf ++ rest); cbn; unfold crlf; congruence.
Qed.

Lemma digit_printable d : 0 ≤ d < 10 → printable (ascii_digit d) = true.
Proof.
  intros Hd. apply negb_true_iff, bool_decide_eq_false. intros E.
  pose proof (digit_value d Hd) as H. rewrite E in H. vm_compute in H. lia.
Qed.

Lemma decimal_printable f n : 0 ≤ n → forallb printable (decimal f n) = true.
Proof.
  revert n. induction f as [|f IH]; intros n Hn; [done|]. cbn [decimal].
  destruct (Z.ltb_spec n 10).
  - cbn. by rewrite digit_printable by lia.
  - rewrite forallb_app, IH by (apply Z.div_pos; lia). cbn.
    pose proof (Z.mod_pos_bound n 10). by rewrite digit_printable by lia.
Qed.

(** A bulk string is decoded back from its frame, whatever bytes it holds and
    whatever follows the frame: the length prefix, not the CR LF, delimits it. *)
Theorem FormatBulkString_decodes s rest :
  Z.of_nat (length s) < 2 ^ 63 →
  ∃ frame, FormatBulkString [] s = Some frame ∧ read_bulk (frame ++ rest) = Some (s, rest).
Proof.
  intros Hs. unfold FormatBulkString, FormatBulkLen.
  rewrite FormatInt_strconv by (unfold is_i64; lia). cbn [mbind option_bind].
  eexists. split; [reflexivity|]. rewrite <-!app_assoc. cbn [app read_bulk].
  rewrite bool_decide_eq_true_2 by done. cbn [negb].
  assert (Hf : strconv_FormatInt (Z.of_nat (length s)) = decimal 20 (Z.of_nat (length s))).
  { unfold strconv_FormatInt. destruct (Z.ltb_spec (Z.of_nat (length s)) 0); [lia|done]. }
  rewrite split_crlf_app by (rewrite Hf; apply decimal_printable; lia). cbn [mbind option_bind].
  rewrite ParseInt_strconv by (unfold is_i64; lia). cbn [mbind option_bind].
  rewrite Nat2Z.id. unfold slice. rewrite drop_app_length.
  rewrite !length_app, bool_decide_eq_true_2 by done. change (length crlf) with 2%nat.
  rewrite (proj2 (Z.leb_le 0 (Z.of_nat (length s)))), (proj2 (Z.leb_le (Z.of_nat (length s) + 2) _)) by lia.
  cbn [andb]. by rewrite take_app_length, drop_app_add.
Qed.

Lemma FormatBulkString_decodes_witness :
  ∃ frame, FormatBulkString [] [x0d; x0a; x61] = Some frame ∧
    frame = StringToBytes "$3" ++ crlf ++ [x0d; x0a; x61] ++ crlf ∧
    read_bulk (frame ++ [x7a]) = Some ([x0d; x0a; x61], [x7a]).
Proof.
  destruct (FormatBulkString_decodes [x0d; x0a; x61] [x7a]) as (frame & E & R); [simpl; lia|].
  exists frame. split_and!; [done| |done]. vm_compute in E. by injection E as <-.
Defined.
