(* ===== verification/Scan.v ===== *)
(** * Cursor scans

    [ShardedCache.Scan] ([shard.go]) and [Store.scanDictKeys] ([store.go]) are the
    same loop over a sequence of shards whose keys are sorted: a cursor is the
    number of a shard (high 32 bits) and a position in its keys (low 32 bits).
    The loop is defined here over the sorted key lists of the shards, with the
    theorem that following the cursors visits every key. *)

From S2P Require Import Prelude.
From stdpp Require Import options.

(** The inner loop: [keys] are the keys of the shard from position [pos] on. *)
Fixpoint scan_shard (accept : string → bool) (count : Z) (keys : list string) (pos : Z)
    (result : list string) : list string * Z :=
  match keys with
  | [] => (result, pos)
  | key :: keys' =>
      if Z.of_nat (length result) <? count then
        scan_shard accept count keys' (pos + 1) (if accept key then result ++ [key] else result)
      else (result, pos)
  end.

(** The outer loop. [None] is a lack of fuel; [scan_loop_spec] shows that the
    number of shards is enough. *)
Fixpoint scan_loop (fuel : nat) (accept : string → bool) (count : Z) (lists : list (list string))
    (shardIdx pos : Z) (result : list string) : option (list string * Z * Z) :=
  if (shardIdx <? Z.of_nat (length lists)) && (Z.of_nat (length result) <? count) then
    match fuel with
    | O => None
    | S fuel' =>
        keys ← lists !! Z.to_nat shardIdx;
        let '(result, pos) :=
          scan_shard accept count (drop (Z.to_nat pos) keys) pos result in
        if Z.of_nat (length keys) <=? pos
        then scan_loop fuel' accept count lists (shardIdx + 1) 0 result
        else scan_loop fuel' accept count lists shardIdx pos result
    end
  else Some (result, shardIdx, pos).

(** One call: the accepted keys it collected and the next cursor, 0 at the end. *)
Definition cursor_scan (accept : string → bool) (count : Z) (lists : list (list string)) (cursor : Z)
    : option (list string * Z) :=
  let count := if count <=? 0 then 10 else count in
  let shardIdx := Z.shiftr cursor 32 in
  let posInShard := Z.land cursor (Z.ones 32) in
  r ← scan_loop (S (length lists)) accept count lists shardIdx posInShard [];
  let '(result, shardIdx, pos) := r in
  let next := if Z.of_nat (length lists) <=? shardIdx then 0
              else Z.lor (u64 (Z.shiftl shardIdx 32)) (u64 pos) in
  Some (result, next).

(** ** Following the cursors *)

Section scan_proofs.
Implicit Types (lists : list (list string)) (res keys : list string).

Lemma scan_shard_spec accept count keys pos res :
  ∃ m, (m ≤ length keys)%nat ∧
    scan_shard accept count keys pos res =
      (res ++ filter (λ k, accept k = true) (take m keys), pos + Z.of_nat m) ∧
    (m = length keys ∨
     count ≤ Z.of_nat (length (res ++ filter (λ k, accept k = true) (take m keys)))) ∧
    (Z.of_nat (length res) < count → keys ≠ [] → (0 < m)%nat).
Proof.
  revert pos res. induction keys as [|key keys IH]; intros pos res; simpl.
  { exists 0%nat. rewrite app_nil_r, Z.add_0_r. split_and!; [lia|done|by left|done]. }
  destruct (Z.ltb_spec (Z.of_nat (length res)) count); last first.
  { exists 0%nat. rewrite take_0, app_nil_r, Z.add_0_r. split_and!; [lia|done|by right|lia]. }
  destruct (IH (pos + 1) (if accept key then res ++ [key] else res)) as (m & Hm & -> & Hstop & _).
  exists (S m). cbn [take]. rewrite filter_cons.
  destruct (accept key) eqn:E.
  - rewrite decide_True by done. rewrite <-app_assoc in *. cbn [app] in *.
    split_and!; [lia|f_equal; lia|destruct Hstop as [-> |?]; [by left|by right]|lia].
  - rewrite decide_False by done.
    split_and!; [lia|f_equal; lia|destruct Hstop as [-> |?]; [by left|by right]|lia].
Qed.

(** The keys a scan still has to visit from position [p] of shard [i] on. *)
Definition remaining lists (i p : nat) : list string :=
  match drop i lists with
  | [] => []
  | s :: rest => drop p s ++ concat rest
  end.

(** How far a scan is from its end. *)
Definition scan_left lists (i p : nat) : nat :=
  (sum_list_with (λ s : list string, S (length s)) (drop i lists) - p)%nat.

Lemma remaining_end lists i p : (length lists ≤ i)%nat → remaining lists i p = [].
Proof. intros H. unfold remaining. by rewrite drop_ge. Qed.

Lemma remaining_shard lists i p s :
  lists !! i = Some s →
  remaining lists i p = drop p s ++ remaining lists (S i) 0 ∧
  scan_left lists i p =
    (S (length s) + scan_left lists (S i) 0 - p)%nat.
Proof.
  intros Hs. unfold remaining, scan_left. rewrite (drop_S _ _ _ Hs). split; [|simpl; lia].
  f_equal. destruct (drop (S i) lists); [done|]. simpl. by rewrite drop_0.
Qed.

(** A position inside the shard it names. *)
Definition scan_valid lists (i p : nat) : Prop :=
  ∀ s, lists !! i = Some s → (p ≤ length s)%nat.

Lemma scan_loop_stop fuel accept count lists i p res :
  Z.of_nat (length lists) ≤ i ∨ count ≤ Z.of_nat (length res) →
  scan_loop fuel accept count lists i p res = Some (res, i, p).
Proof.
  intros H. destruct fuel; cbn [scan_loop];
    destruct (Z.ltb_spec i (Z.of_nat (length lists)));
    destruct (Z.ltb_spec (Z.of_nat (length res)) count); cbn [andb]; (done || lia).
Qed.

(** One call of the outer loop: what it examined, and where it stopped. *)
Record scan_result (accept : string → bool) (count : Z) lists (i p : nat) res
    (examined : list string) (i' p' : nat) : Prop := {
  sr_split : remaining lists i p = examined ++ remaining lists i' p';
  sr_stop : (length lists ≤ i')%nat ∨
    count ≤ Z.of_nat (length (res ++ filter (λ k, accept k = true) examined));
  sr_order : (i ≤ i')%nat;
  sr_valid : scan_valid lists i' p';
  sr_left : (scan_left lists i' p' ≤ scan_left lists i p)%nat;
  sr_progress : (i < length lists)%nat → Z.of_nat (length res) < count →
    (scan_left lists i' p' < scan_left lists i p)%nat ∧ (0 < i' ∨ 0 < p')%nat
}.

Lemma scan_loop_spec fuel accept count lists i p res :
  (length lists - i ≤ fuel)%nat → scan_valid lists i p →
  ∃ examined i' p',
    scan_loop fuel accept count lists (Z.of_nat i) (Z.of_nat p) res =
      Some (res ++ filter (λ k, accept k = true) examined, Z.of_nat i', Z.of_nat p') ∧
    scan_result accept count lists i p res examined i' p'.
Proof.
  revert i p res. induction fuel as [|fuel IH]; intros i p res Hfuel Hv;
    (destruct (decide (Z.of_nat (length lists) ≤ Z.of_nat i ∨ count ≤ Z.of_nat (length res))) as [Hst|Hst];
     [exists [], i, p; rewrite filter_nil, !app_nil_r; split; [by apply scan_loop_stop|];
      split; rewrite ?filter_nil, ?app_nil_r; [done|lia|lia|done|lia|lia]|]); [lia|].
  cbn [scan_loop].
  destruct (Z.ltb_spec (Z.of_nat i) (Z.of_nat (length lists))) as [Hi|Hi]; [|lia].
  destruct (Z.ltb_spec (Z.of_nat (length res)) count) as [Hr|Hr]; [|lia]. cbn [andb].
  destruct (lookup_lt_is_Some_2 lists i) as [s Hs]; [lia|].
  rewrite !Nat2Z.id, Hs. cbn [mbind option_bind].
  destruct (remaining_shard lists i p s Hs) as [Hrem Hleft]. pose proof (Hv s Hs) as Hp.
  destruct (scan_shard_spec accept count (drop p s) (Z.of_nat p) res)
    as (m & Hm & -> & Hstop & Hprog). rewrite length_drop in Hm, Hstop.
  set (ex1 := take m (drop p s)) in *.
  set (res1 := res ++ filter (λ k, accept k = true) ex1) in *.
  rewrite <-Nat2Z.inj_add.
  destruct (Z.leb_spec (Z.of_nat (length s)) (Z.of_nat (p + m))) as [Hend|Hend].
  - destruct (IH (S i) 0%nat res1 ltac:(lia)) as (ex & i' & p' & HL & [H1 H2 H3 H4 H5 _]).
    { intros s' _. lia. }
    replace (Z.of_nat i + 1) with (Z.of_nat (S i)) by lia. change 0 with (Z.of_nat 0). rewrite HL.
    assert (drop p s = ex1) as Hex1
      by (unfold ex1; rewrite take_ge; rewrite ?length_drop; done || lia).
    exists (ex1 ++ ex), i', p'. rewrite filter_app, app_assoc. fold res1. split; [done|].
    split; [by rewrite Hrem, Hex1, H1, app_assoc|by rewrite filter_app, app_assoc|lia|done|lia|].
    intros _ _. lia.
  - destruct Hstop as [->|Hstop]; [lia|]. rewrite scan_loop_stop by by right.
    destruct (remaining_shard lists i (p + m) s Hs) as [Hrem' Hleft'].
    exists ex1, i, (p + m)%nat. split; [done|]. split; [|by right|lia| |lia|].
    + rewrite Hrem, Hrem', app_assoc. f_equal. unfold ex1.
      by rewrite <-drop_drop, take_drop.
    + intros s' Hs'. rewrite Hs in Hs'. injection Hs' as <-. lia.
    + intros _ Hc. assert (0 < m)%nat; [|lia]. apply Hprog; [done|].
      intros E. apply (f_equal length) in E. rewrite length_drop in E. simpl in E. lia.
Qed.

(** *** Cursors *)

Lemma cursor_decode i p :
  0 ≤ i < 2 ^ 32 → 0 ≤ p < 2 ^ 32 →
  let c := Z.lor (u64 (Z.shiftl i 32)) (u64 p) in
  Z.shiftr c 32 = i ∧ Z.land c (Z.ones 32) = p ∧ (c = 0 → i = 0 ∧ p = 0).
Proof.
  intros Hi Hp. rewrite Z.shiftl_mul_pow2 by lia. rewrite !u64_id by (unfold is_u64; lia). cbv zeta.
  assert (Z.shiftr (Z.lor (i * 2 ^ 32) p) 32 = i) as H1.
  { rewrite Z.shiftr_lor, !Z.shiftr_div_pow2, Z.div_mul, (Z.div_small p) by lia. apply Z.lor_0_r. }
  assert (Z.land (Z.lor (i * 2 ^ 32) p) (Z.ones 32) = p) as H2.
  { rewrite Z.land_lor_distr_l, !Z.land_ones, Z.mod_mul, Z.mod_small by lia. done. }
  split_and!; [done|done|]. intros E. rewrite E, Z.shiftr_0_l in H1. rewrite E, Z.land_0_l in H2. lia.
Qed.

(** A client of [scan] that follows the cursors until it is given 0 again. *)
Fixpoint follow (fuel : nat) (scan : Z → option (list string * Z)) (cursor : Z) : option (list string) :=
  match fuel with
  | O => None
  | S fuel' =>
      r ← scan cursor;
      let '(result, next) := r in
      if next =? 0 then Some result
      else rest ← follow fuel' scan next; Some (result ++ rest)
  end.

Definition cursor_of (i p : nat) : Z := Z.lor (u64 (Z.shiftl (Z.of_nat i) 32)) (u64 (Z.of_nat p)).

(** The cursor fields are wide enough. *)
Definition scan_sized lists : Prop :=
  Z.of_nat (length lists) < 2 ^ 32 ∧ Forall (λ s : list string, Z.of_nat (length s) < 2 ^ 32) lists.

Lemma scan_sized_pos lists i p :
  scan_sized lists → scan_valid lists i p → (i < length lists)%nat →
  Z.of_nat i < 2 ^ 32 ∧ Z.of_nat p < 2 ^ 32.
Proof.
  intros [H1 H2] Hv Hi. destruct (lookup_lt_is_Some_2 lists i Hi) as [s Hs].
  pose proof (Hv s Hs). pose proof (Forall_lookup_1 _ _ _ _ H2 Hs). simpl in *. lia.
Qed.

Lemma cursor_scan_spec accept count lists i p :
  scan_sized lists → scan_valid lists i p → (i < length lists)%nat →
  ∃ examined i' p',
    scan_valid lists i' p' ∧
    remaining lists i p = examined ++ remaining lists i' p' ∧
    (scan_left lists i' p' < scan_left lists i p)%nat ∧
    cursor_scan accept count lists (cursor_of i p) =
      Some (filter (λ k, accept k = true) examined,
            if decide (length lists ≤ i')%nat then 0 else cursor_of i' p') ∧
    ((i' < length lists)%nat → cursor_of i' p' ≠ 0).
Proof.
  intros Hsz Hv Hi. destruct (scan_sized_pos _ _ _ Hsz Hv Hi) as [Hi32 Hp32].
  destruct (cursor_decode (Z.of_nat i) (Z.of_nat p)) as (D1 & D2 & _); [lia|lia|].
  unfold cursor_scan. fold (cursor_of i p) in D1, D2. rewrite D1, D2.
  set (count' := if count <=? 0 then 10 else count).
  assert (0 < count') as Hcount by (unfold count'; zcase; lia).
  destruct (scan_loop_spec (S (length lists)) accept count' lists i p [])
    as (ex & i' & p' & -> & [H1 H2 H3 H4 H5 H6]); [lia|done|].
  cbn [mbind option_bind app]. destruct (H6 Hi) as [H7 H8]; [simpl; lia|].
  exists ex, i', p'. split_and!; [done|done|done| |].
  - case_decide; zcase; (done || lia).
  - intros Hi' E. destruct (scan_sized_pos _ _ _ Hsz H4 Hi') as [? ?].
    destruct (cursor_decode (Z.of_nat i') (Z.of_nat p')) as (_ & _ & D); [lia|lia|].
    unfold cursor_of in E. apply D in E. lia.
Qed.

Lemma follow_spec accept count lists fuel i p :
  scan_sized lists → scan_valid lists i p → (i < length lists)%nat →
  (scan_left lists i p < fuel)%nat →
  follow fuel (cursor_scan accept count lists) (cursor_of i p) =
    Some (filter (λ k, accept k = true) (remaining lists i p)).
Proof.
  intros Hsz. revert i p. induction fuel as [|fuel IH]; intros i p Hv Hi Hf; [lia|].
  cbn [follow].
  destruct (cursor_scan_spec accept count lists i p Hsz Hv Hi) as (ex & i' & p' & Hv' & Hr & Hl & -> & Hnz).
  cbn [mbind option_bind]. rewrite Hr, filter_app.
  destruct (decide (length lists ≤ i')%nat) as [Hend|Hend].
  - rewrite remaining_end by done. rewrite Z.eqb_refl, filter_nil, app_nil_r. done.
  - destruct (Z.eqb_spec (cursor_of i' p') 0); [naive_solver lia|].
    rewrite IH by (done || lia). done.
Qed.

Lemma remaining_all lists : remaining lists 0 0 = concat lists.
Proof. destruct lists; [done|]. unfold remaining. by rewrite !drop_0. Qed.

(** Following the cursors from 0 ends, and visits every accepted key in order. *)
Lemma follow_all accept count lists :
  scan_sized lists → lists ≠ [] →
  follow (S (scan_left lists 0 0)) (cursor_scan accept count lists) 0 =
    Some (filter (λ k, accept k = true) (concat lists)).
Proof.
  intros Hsz Hne. rewrite <-remaining_all.
  apply (follow_spec accept count lists _ 0 0); [done| | |lia].
  - intros s _. lia.
  - destruct lists; [done|]. simpl. lia.
Qed.

End scan_proofs.
