(* ===== verification/Wire.v ===== *)
(** * The replication wire format

    [replication/stream.go] frames an operation as a RESP array and
    [replication/replica_conn.go] reads it back with [bufio] and [fmt.Sscanf];
    [protocol/handler.go] joins the arguments of a command into the payload of
    an operation and splits them again on the replica. *)

From S2P Require Import Prelude Strconv.
From stdpp Require Import options.

(** ** [fmt.Sscanf] with the verb [%d] *)

(** The space runes of the [fmt] scanner outside ASCII, in UTF-8. *)
Definition unicode_spaces : list (list byte) :=
  [[xc2; x85]; [xc2; xa0]; [xe1; x9a; x80]]
    ++ ((λ b, [xe2; x80; byte_of_Z b]) <$> seqZ 128 11)
    ++ [[xe2; x80; xa8]; [xe2; x80; xa9]; [xe2; x80; xaf]; [xe2; x81; x9f]; [xe3; x80; x80]].

Definition ascii_space (b : byte) : bool := ((9 <=? Z_of_byte b) && (Z_of_byte b <=? 13)) || (Z_of_byte b =? 32).

(** What follows one space at the front of the input: [None] when the input
    does not start with a space. *)
Definition one_space (bs : list byte) : option (list byte) :=
  match bs with
  | [] => None
  | b :: rest =>
      if ascii_space b then Some rest
      else (λ u, drop (length u) bs) <$> find (λ u, bool_decide (take (length u) bs = u)) unicode_spaces
  end.

(** [SkipSpace] of a scan in which a newline is not a space: [None] is the
    error it reports on a newline. *)
Fixpoint skip_space (fuel : nat) (bs : list byte) : option (list byte) :=
  match fuel, bs with
  | O, _ | _, [] => Some bs
  | S f, b :: rest =>
      if bool_decide (take 2 bs = crlf) then None
      else if bool_decide (b = x0a) then None
      else match one_space bs with Some rest => skip_space f rest | None => Some bs end
  end.

Definition is_digit (b : byte) : bool := (48 <=? Z_of_byte b) && (Z_of_byte b <=? 57).

Fixpoint span_digits (bs : list byte) : list byte :=
  match bs with
  | [] => []
  | b :: rest => if is_digit b then b :: span_digits rest else []
  end.

(** The number at the front of the input, or [None] when the scan reports an
    error and leaves its argument alone. *)
Definition scan_int (bs : list byte) : option Z :=
  rest ← skip_space (length bs) bs;
  let neg := bool_decide (head rest = Some ascii_minus) in
  let digits := span_digits (if neg || bool_decide (head rest = Some ascii_plus) then drop 1 rest else rest) in
  match digits with
  | [] => None
  | _ =>
      n ← parse_digits 0 digits;
      let v := if neg then - n else n in
      if (- 2 ^ 63 <=? v) && (v <? 2 ^ 63) then Some v else None
  end.

Definition scan_uint (bs : list byte) : option Z :=
  rest ← skip_space (length bs) bs;
  match span_digits rest with
  | [] => None
  | digits => n ← parse_digits 0 digits; if n <? 2 ^ 64 then Some n else None
  end.

(** The format is the literal byte and then [%d]; the variable starts at 0. *)
Definition scan_after (lit : byte) (line : list byte) : Z :=
  match line with
  | b :: rest => if bool_decide (b = lit) then default 0 (scan_int rest) else 0
  | [] => 0
  end.

(** ** The operations of the replication log *)

Record Op := mkOp {
  op_Slot : Z;
  op_Epoch : Z;
  op_LSN : Z;
  op_OpType : string;
  op_Key : string;
  op_Payload : list byte;
  op_ExpireAtNs : Z
}.

#[export] Instance Op_eq_dec : EqDecision Op.
Proof. solve_decision. Defined.

Definition op_ok (op : Op) : Prop :=
  is_u16 (op_Slot op) ∧ is_u64 (op_Epoch op) ∧ is_u64 (op_LSN op) ∧ is_i64 (op_ExpireAtNs op).

(** ** The writer *)

Definition bulk (field : list byte) : list byte :=
  [x24] ++ strconv_FormatInt (Z.of_nat (length field)) ++ crlf ++ field ++ crlf.

Definition op_fields (op : Op) : list (list byte) :=
  [StringToBytes "REPLAPPLY"; strconv_FormatInt (op_Slot op); strconv_FormatInt (op_Epoch op);
   strconv_FormatInt (op_LSN op); StringToBytes (op_OpType op); StringToBytes (op_Key op);
   strconv_FormatInt (op_ExpireAtNs op); op_Payload op].

Definition encodeReplicationApplyCommand (op : Op) : list byte :=
  let fields := op_fields op in
  [x2a] ++ strconv_FormatInt (Z.of_nat (length fields)) ++ crlf ++ concat (bulk <$> fields).

(** ** The reader *)

Inductive ReadError := ErrEOF | ErrNotArray | ErrTooFewFields (count : Z).

(** [reader.ReadString('\n')]: the bytes up to and with the first newline. *)
Fixpoint ReadString (bs : list byte) : option (list byte * list byte) :=
  match bs with
  | [] => None
  | b :: rest =>
      if bool_decide (b = x0a) then Some ([b], rest)
      else r ← ReadString rest; let '(line, rest') := r in Some (b :: line, rest')
  end.

(** [None] is a panic of [make] or of the slice expression [data[:blen]]. *)
Definition readField (bs : list byte) : option (ReadError + list byte * list byte) :=
  match ReadString bs with
  | None => Some (inl ErrEOF)
  | Some (lenLine, rest) =>
      let blen := scan_after x24 lenLine in
      let n := i64 (blen + 2) in
      if n <? 0 then None
      else if Z.of_nat (length rest) <? n then Some (inl ErrEOF)
      else if blen <? 0 then None
      else Some (inr (take (Z.to_nat blen) rest, drop (Z.to_nat n) rest))
  end.

Definition set_field (op : Op) (i : Z) (val : list byte) : Op :=
  let 'mkOp slot epoch lsn opType key payload expireAtNs := op in
  if i =? 1 then mkOp (u16 (default 0 (scan_uint val))) epoch lsn opType key payload expireAtNs
  else if i =? 2 then mkOp slot (default 0 (scan_uint val)) lsn opType key payload expireAtNs
  else if i =? 3 then mkOp slot epoch (default 0 (scan_uint val)) opType key payload expireAtNs
  else if i =? 4 then mkOp slot epoch lsn (BytesToString val) key payload expireAtNs
  else if i =? 5 then mkOp slot epoch lsn opType (BytesToString val) payload expireAtNs
  else if i =? 6 then mkOp slot epoch lsn opType key payload (default 0 (scan_int val))
  else if i =? 7 then mkOp slot epoch lsn opType key val expireAtNs
  else op.

(** Every field takes a newline off the input, so one more round than the
    input has bytes is enough. *)
Fixpoint read_fields (fuel : nat) (count i : Z) (op : Op) (bs : list byte) : option (ReadError + Op * list byte) :=
  match fuel with
  | O => None
  | S f =>
      if i <? count then
        match readField bs with
        | None => None
        | Some (inl e) => Some (inl e)
        | Some (inr (val, rest)) => read_fields f count (i + 1) (set_field op i val) rest
        end
      else Some (inr (op, bs))
  end.

Definition emptyOp : Op := mkOp 0 0 0 "" "" [] 0.

Definition readReplicationOp (bs : list byte) : option (ReadError + Op * list byte) :=
  match ReadString bs with
  | None => Some (inl ErrEOF)
  | Some (line, rest) =>
      if negb (bool_decide (head line = Some x2a)) then Some (inl ErrNotArray)
      else
        let count := scan_after x2a line in
        if count <? 8 then Some (inl (ErrTooFewFields count))
        else read_fields (S (length rest)) count 0 emptyOp rest
  end.

(** ** The payload *)

Fixpoint join_nul (args : list (list byte)) : list byte :=
  match args with
  | [] => []
  | [a] => a
  | a :: rest => a ++ x00 :: join_nul rest
  end.

Definition encodeReplicationPayload (args : list (list byte)) : list byte := join_nul args.

(** [bytes.Split(payload, []byte{0})]. *)
Fixpoint split_nul (bs : list byte) : list (list byte) :=
  match bs with
  | [] => [[]]
  | b :: rest =>
      if bool_decide (b = x00) then [] :: split_nul rest
      else match split_nul rest with
           | [] => [[b]]
           | part :: parts => (b :: part) :: parts
           end
  end.

Definition decodeReplicationPayload (payload : list byte) : list string :=
  match payload with
  | [] => []
  | _ => BytesToString <$> split_nul payload
  end.

(** ** Scanning what the writer prints *)

Lemma is_digit_ascii d : 0 ≤ d < 10 → is_digit (ascii_digit d) = true.
Proof. intros Hd. pose proof (digit_value d Hd). unfold is_digit. lia. Qed.

Lemma decimal_digits f n : 0 ≤ n → forallb is_digit (decimal f n) = true.
Proof.
  revert n. induction f as [|f IH]; intros n Hn; [done|]. cbn [decimal].
  destruct (Z.ltb_spec n 10).
  - cbn. by rewrite is_digit_ascii by lia.
  - rewrite forallb_app, IH by (apply Z.div_pos; lia). cbn.
    pose proof (Z.mod_pos_bound n 10). by rewrite is_digit_ascii by lia.
Qed.

Lemma span_digits_app ds rest :
  forallb is_digit ds = true → span_digits (ds ++ rest) = ds ++ span_digits rest.
Proof.
  induction ds as [|b ds IH]; intros H; [done|]. simpl in *. apply andb_true_iff in H as [-> H].
  by rewrite IH.
Qed.

(** A byte that the scanner does not skip. *)
Definition solid (b : byte) : Prop := (48 ≤ Z_of_byte b ≤ 57) ∨ Z_of_byte b = 45.

Lemma skip_solid fuel b rest : solid b → skip_space fuel (b :: rest) = Some (b :: rest).
Proof.
  intros Hb. destruct fuel as [|f]; [done|]. cbn [skip_space].
  assert (b ≠ x0d ∧ b ≠ x0a) as [H1 H2] by (split; intros ->; unfold solid in Hb; cbn in Hb; lia).
  rewrite bool_decide_eq_false_2 by (destruct rest; cbn; unfold crlf; congruence).
  rewrite bool_decide_eq_false_2 by done. cbn [one_space].
  replace (ascii_space b) with false by (unfold ascii_space, solid in *; symmetry; lia).
  destruct (find _ unicode_spaces) as [u|] eqn:E; [|done].
  apply find_some in E as [Hin Hu]. apply bool_decide_eq_true in Hu.
  assert (forallb (λ u, match u with c :: _ => 128 <=? Z_of_byte c | [] => false end) unicode_spaces = true)
    as HF by reflexivity.
  rewrite forallb_forall in HF. specialize (HF u Hin). destruct u as [|c t]; [done|].
  cbn in Hu. injection Hu as -> _. unfold solid in Hb. lia.
Qed.

Lemma decimal_head n : 0 ≤ n < 10 ^ 20 → ∃ d l, 0 ≤ d < 10 ∧ decimal 20 n = ascii_digit d :: l.
Proof. intros. by apply (decimal_first 19). Qed.

Lemma digit_solid d : 0 ≤ d < 10 → solid (ascii_digit d).
Proof. intros Hd. pose proof (digit_value d Hd). left. lia. Qed.

Lemma scan_uint_decimal n rest :
  is_u64 n → span_digits rest = [] → scan_uint (strconv_FormatInt n ++ rest) = Some n.
Proof.
  unfold is_u64. intros Hn Hr. unfold strconv_FormatInt. rewrite (proj2 (Z.ltb_ge n 0)) by lia.
  destruct (decimal_head n) as (d & l & Hd & E); [lia|]. unfold scan_uint.
  rewrite E. cbn [app]. rewrite skip_solid by by apply digit_solid. cbn [mbind option_bind].
  change (ascii_digit d :: l ++ rest) with ((ascii_digit d :: l) ++ rest). rewrite <-E.
  rewrite span_digits_app, Hr, app_nil_r by (apply decimal_digits; lia).
  pose proof (parse_decimal 20 n ltac:(simpl; lia)) as Hp. rewrite E in *. rewrite Hp.
  cbn [mbind option_bind]. by rewrite (proj2 (Z.ltb_lt n _)) by lia.
Qed.

Lemma scan_int_decimal n rest :
  is_i64 n → span_digits rest = [] → scan_int (strconv_FormatInt n ++ rest) = Some n.
Proof.
  unfold is_i64. intros Hn Hr. unfold strconv_FormatInt, scan_int.
  assert (∀ m, 0 ≤ m ≤ 2 ^ 63 → parse_digits 0 (decimal 20 m) = Some m) as Hp
    by (intros m Hm; apply parse_decimal; simpl; lia).
  destruct (Z.ltb_spec n 0) as [H|H].
  - cbn [app]. rewrite skip_solid by (right; reflexivity). cbn [mbind option_bind head].
    rewrite bool_decide_eq_true_2 by done. cbn [orb drop]. rewrite drop_0.
    rewrite span_digits_app, Hr, app_nil_r by (apply decimal_digits; lia). rewrite Hp by lia.
    destruct (decimal_head (- n)) as (d & l & Hd & ->); [lia|]. cbn [mbind option_bind]. cbv zeta.
    destruct ((- 2 ^ 63 <=? - - n) && (- - n <? 2 ^ 63)) eqn:R; [f_equal; lia|lia].
  - destruct (decimal_head n) as (d & l & Hd & E); [lia|].
    destruct (ascii_digit_sign d Hd) as [H1 H2].
    rewrite E. cbn [app]. rewrite skip_solid by by apply digit_solid. cbn [mbind option_bind head].
    rewrite !bool_decide_eq_false_2 by congruence. cbn [orb].
    change (ascii_digit d :: l ++ rest) with ((ascii_digit d :: l) ++ rest). rewrite <-E.
    rewrite span_digits_app, Hr, app_nil_r by (apply decimal_digits; lia). rewrite Hp by lia.
    rewrite E. cbn [mbind option_bind]. cbv zeta.
    destruct ((- 2 ^ 63 <=? n) && (n <? 2 ^ 63)) eqn:R; [done|lia].
Qed.

(** ** Reading back *)

Definition no_newline (b : byte) : bool := negb (bool_decide (b = x0a)).

Lemma decimal_no_newline f n : 0 ≤ n → forallb no_newline (decimal f n) = true.
Proof.
  intros Hn. pose proof (decimal_digits f n Hn) as H. rewrite forallb_forall in *.
  intros b Hb. specialize (H b Hb). unfold no_newline. rewrite bool_decide_eq_false_2; [done|].
  intros ->. done.
Qed.

Lemma ReadString_line l rest :
  forallb no_newline l = true → ReadString (l ++ crlf ++ rest) = Some (l ++ crlf, rest).
Proof.
  induction l as [|b l IH]; intros H; [done|]. simpl in H. apply andb_true_iff in H as [Hb H].
  cbn [app ReadString]. apply negb_true_iff in Hb. rewrite Hb. rewrite IH by done. done.
Qed.

Lemma length_line lit n rest :
  is_i64 n → 0 ≤ n → lit ≠ x0a →
  ReadString ([lit] ++ strconv_FormatInt n ++ crlf ++ rest) = Some ([lit] ++ strconv_FormatInt n ++ crlf, rest) ∧
  scan_after lit ([lit] ++ strconv_FormatInt n ++ crlf) = n.
Proof.
  intros Hi Hn Hl. split.
  - rewrite !app_assoc, <-(app_assoc _ crlf). rewrite ReadString_line; [done|].
    cbn. unfold no_newline at 1. rewrite bool_decide_eq_false_2 by done. cbn.
    unfold strconv_FormatInt. rewrite (proj2 (Z.ltb_ge n 0)) by lia. by apply decimal_no_newline.
  - cbn [app scan_after]. rewrite bool_decide_eq_true_2 by done. by rewrite scan_int_decimal.
Qed.

Lemma readField_bulk field rest :
  Z.of_nat (length field) < 2 ^ 62 → readField (bulk field ++ rest) = Some (inr (field, rest)).
Proof.
  intros Hl. unfold bulk, readField. rewrite <-!app_assoc.
  destruct (length_line x24 (Z.of_nat (length field)) (field ++ crlf ++ rest)) as [-> ->];
    [unfold is_i64; lia|lia|done|].
  rewrite i64_id by (unfold is_i64; lia). rewrite !length_app. change (length crlf) with 2%nat.
  do 3 (rewrite (proj2 (Z.ltb_ge _ _)) by lia). do 3 f_equal.
  - rewrite Nat2Z.id. by rewrite take_app_length.
  - replace (Z.to_nat (Z.of_nat (length field) + 2)) with (length field + 2)%nat by lia.
    by rewrite drop_app_add.
Qed.

Lemma read_fields_bulk fields fuel count i op rest :
  Forall (λ f, Z.of_nat (length f) < 2 ^ 62) fields →
  count = i + Z.of_nat (length fields) → (length fields < fuel)%nat →
  read_fields fuel count i op (concat (bulk <$> fields) ++ rest)
  = Some (inr (foldl (λ op p, set_field op p.1 p.2) op (zip (seqZ i (Z.of_nat (length fields))) fields), rest)).
Proof.
  revert fuel i op. induction fields as [|f fields IH]; intros fuel i op HF -> Hf;
    (destruct fuel as [|fuel]; [simpl in *; lia|]); cbn [read_fields].
  { cbn [length]. rewrite (proj2 (Z.ltb_ge _ _)) by lia. done. }
  apply Forall_cons in HF as [H1 HF]. cbn [length] in *.
  rewrite (proj2 (Z.ltb_lt _ _)) by lia. cbn [fmap list_fmap concat]. rewrite <-app_assoc.
  rewrite readField_bulk by done. rewrite IH; [|done|lia|lia]. do 3 f_equal.
  rewrite (seqZ_cons i) by lia. by replace (Z.pred (Z.of_nat (S (length fields)))) with (Z.of_nat (length fields)) by lia.
Qed.

Lemma length_concat_bulk fields : (length fields ≤ length (concat (bulk <$> fields)))%nat.
Proof.
  induction fields as [|f fields IH]; [done|]. cbn [fmap list_fmap concat length].
  rewrite length_app. unfold bulk at 1. rewrite !length_app. cbn. lia.
Qed.

Lemma length_decimal f n : (length (decimal f n) ≤ f)%nat.
Proof.
  revert n. induction f as [|f IH]; intros n; cbn [decimal]; [done|]. destruct (n <? 10); cbn [length]; [lia|].
  rewrite length_app. specialize (IH (n / 10)). cbn [length]. lia.
Qed.

Lemma length_FormatInt n : (length (strconv_FormatInt n) ≤ 21)%nat.
Proof.
  unfold strconv_FormatInt. pose proof (length_decimal 20 n). pose proof (length_decimal 20 (- n)).
  destruct (n <? 0); cbn [length]; lia.
Qed.

(** C28: The frame of an operation, whatever bytes its key and payload hold, is read
    back as the same operation, and the reader stops exactly at its end: the
    next frame of the stream is read from its first byte. *)
Theorem replication_frame_roundtrip op rest :
  op_ok op → Z.of_nat (length (StringToBytes (op_OpType op))) < 2 ^ 62 →
  Z.of_nat (length (StringToBytes (op_Key op))) < 2 ^ 62 → Z.of_nat (length (op_Payload op)) < 2 ^ 62 →
  readReplicationOp (encodeReplicationApplyCommand op ++ rest) = Some (inr (op, rest)).
Proof.
  intros (Hs & He & Hl & Hx) H1 H2 H3. unfold readReplicationOp, encodeReplicationApplyCommand.
  rewrite <-!app_assoc.
  destruct (length_line x2a (Z.of_nat (length (op_fields op))) (concat (bulk <$> op_fields op) ++ rest))
    as [-> ->]; [unfold is_i64; cbn; lia|lia|done|].
  cbn [app head]. rewrite bool_decide_eq_true_2 by done. cbn [negb].
  change (Z.of_nat (length (op_fields op)) <? 8) with false. cbv iota.
  rewrite read_fields_bulk.
  - destruct op as [slot epoch lsn opType key payload expire]. cbn in *.
    assert (∀ n, is_u64 n → scan_uint (strconv_FormatInt n) = Some n) as U.
    { intros n Hn. rewrite <-(app_nil_r (strconv_FormatInt n)). by apply scan_uint_decimal. }
    assert (scan_int (strconv_FormatInt expire) = Some expire) as S.
    { rewrite <-(app_nil_r (strconv_FormatInt expire)). by apply scan_int_decimal. }
    change (seqZ 0 (Z.of_nat 8)) with [0; 1; 2; 3; 4; 5; 6; 7]. unfold op_fields, emptyOp.
    cbn -[scan_int scan_uint u16 strconv_FormatInt StringToBytes BytesToString].
    rewrite S, !U by (unfold is_u64, is_u16 in *; lia). cbn [default].
    rewrite u16_id by done. by rewrite !BytesToString_StringToBytes.
  - assert (∀ n, Z.of_nat (length (strconv_FormatInt n)) < 2 ^ 62) as HZ
      by (intros n; pose proof (length_FormatInt n); lia).
    unfold op_fields. repeat constructor; try done; apply HZ.
  - done.
  - rewrite length_app. pose proof (length_concat_bulk (op_fields op)). lia.
Qed.

(** ** The payload *)

Definition no_nul (bs : list byte) : Prop := x00 ∉ bs.

Lemma split_nul_prefix a rest :
  no_nul a → split_nul (a ++ x00 :: rest) = a :: split_nul rest.
Proof.
  induction a as [|b a IH]; intros H; [done|]. unfold no_nul in *. rewrite not_elem_of_cons in H. destruct H as [Hb H].
  cbn [app split_nul]. rewrite bool_decide_eq_false_2 by congruence. by rewrite IH.
Qed.

Lemma split_nul_last a : no_nul a → split_nul a = [a].
Proof.
  induction a as [|b a IH]; intros H; [done|]. unfold no_nul in *. rewrite not_elem_of_cons in H. destruct H as [Hb H].
  cbn [split_nul]. rewrite bool_decide_eq_false_2 by congruence. by rewrite IH.
Qed.

Lemma split_join args : args ≠ [] → Forall no_nul args → split_nul (join_nul args) = args.
Proof.
  induction args as [|a args IH]; intros Hne HF; [done|]. apply Forall_cons in HF as [Ha HF].
  destruct args as [|b args]; [by apply split_nul_last|].
  change (join_nul (a :: b :: args)) with (a ++ x00 :: join_nul (b :: args)).
  rewrite split_nul_prefix by done. by rewrite IH.
Qed.

Lemma payload_decodes args :
  args ≠ [[]] → Forall no_nul args →
  decodeReplicationPayload (encodeReplicationPayload args) = BytesToString <$> args.
Proof.
  intros Hne HF. unfold decodeReplicationPayload, encodeReplicationPayload.
  destruct args as [|a args]; [done|].
  destruct (join_nul (a :: args)) as [|b l] eqn:E.
  - destruct args as [|a' args]; cbn in E; [by subst|]. by destruct a.
  - rewrite <-E. by rewrite split_join.
Qed.

(** ** On a concrete operation *)

Lemma replication_frame_roundtrip_witness :
  let op := mkOp 15495 2 7 "SET" "a" (encodeReplicationPayload [[x61]; [x0d; x0a; x24]]) (-1) in
  readReplicationOp (encodeReplicationApplyCommand op ++ [x2a]) = Some (inr (op, [x2a])).
Proof.
  apply (replication_frame_roundtrip
    (mkOp 15495 2 7 "SET" "a" (encodeReplicationPayload [[x61]; [x0d; x0a; x24]]) (-1)) [x2a]);
    [unfold op_ok, is_u16, is_u64, is_i64; cbn; lia|cbn; lia..].
Defined.
