(* ===== verification/RingBuf.v ===== *)
(** * The ring buffer: [internal/engine/memory/ringbuf.go]

    Entries are serialized into one byte array: a 24-byte header, the key and
    the value. The file models the array as a list of bytes of length
    [rb_capacity], the header codec, the eviction walk and the write, update
    and read operations, and proves the codec and write/read round trips, that
    every write stays inside the array and leaves all other bytes alone, that
    the eviction walk terminates, and that a buffer that has not wrapped evicts
    in FIFO order and keeps every survivor readable. *)

From S2P Require Import Prelude.
From stdpp Require Import options.

Definition headerSize : Z := 24.
Definition minRingBufferSize : Z := Z.shiftl 1 20.
Definition defaultRingBufferSize : Z := Z.shiftl 64 20.

Inductive rb_error := ErrBufferFull | ErrInvalidOffset | ErrEntryTooLarge.

#[export] Instance rb_error_eq_dec : EqDecision rb_error.
Proof. solve_decision. Defined.

Record EvictedEntry := mkEvicted { ev_Hash : Z; ev_Offset : Z }.

#[export] Instance EvictedEntry_eq_dec : EqDecision EvictedEntry.
Proof. solve_decision. Defined.

Record EntryHeader := mkHeader {
  eh_ExpireAt : Z;
  eh_Hash64 : Z;
  eh_KeyLen : Z;
  eh_ValLen : Z;
  eh_ValCap : Z;
  eh_Flags : Z
}.

#[export] Instance EntryHeader_eq_dec : EqDecision EntryHeader.
Proof. solve_decision. Defined.

Definition EntryTypeString : Z := 0.

(** The 24 bytes [MarshalTo] stores. *)
Definition header_bytes (h : EntryHeader) : list byte :=
  le_bytes 8 (u64 (eh_ExpireAt h)) ++ le_bytes 8 (eh_Hash64 h) ++
  le_bytes 2 (eh_KeyLen h) ++ le_bytes 2 (eh_ValLen h) ++
  le_bytes 2 (eh_ValCap h) ++ le_bytes 2 (eh_Flags h).

(** [header.MarshalTo(buf[off:])] *)
Definition MarshalTo (h : EntryHeader) (buf : list byte) (off : nat) : list byte :=
  copy_at buf off (header_bytes h).

(** [header.UnmarshalFrom(buf[off:])] *)
Definition UnmarshalFrom (buf : list byte) (off : nat) : EntryHeader :=
  {| eh_ExpireAt := i64 (le_value (slice buf off 8));
     eh_Hash64 := le_value (slice buf (off + 8) 8);
     eh_KeyLen := le_value (slice buf (off + 16) 2);
     eh_ValLen := le_value (slice buf (off + 18) 2);
     eh_ValCap := le_value (slice buf (off + 20) 2);
     eh_Flags := le_value (slice buf (off + 22) 2) |}.

Record RingBuffer := mkRing {
  rb_data : list byte;
  rb_capacity : Z;
  rb_tail : Z;
  rb_head : Z;
  rb_used : Z;
  rb_writeCount : Z;
  rb_evictCount : Z
}.

Definition NewRingBuffer (capacity : Z) : RingBuffer :=
  let capacity := if capacity <? minRingBufferSize then minRingBufferSize else capacity in
  mkRing (replicate (Z.to_nat capacity) x00) capacity 0 0 0 0 0.

Definition headerEntrySize (h : EntryHeader) : Z := headerSize + eh_KeyLen h + eh_ValLen h.

(** [None] is [ErrInvalidOffset]. *)
Definition readHeaderAt (rb : RingBuffer) (offset : Z) : option EntryHeader :=
  if (offset <? 0) || (rb_capacity rb <? offset + headerSize) then None
  else Some (UnmarshalFrom (rb_data rb) (Z.to_nat offset)).

(** [header.MarshalTo(rb.data[offset:]); copy(rb.data[keyStart:], key);
    copy(rb.data[valStart:], value)], shared by the two write operations. *)
Definition put_entry (data : list byte) (offset : Z) (h : EntryHeader) (key value : list byte) : list byte :=
  let keyStart := offset + headerSize in
  let valStart := keyStart + Z.of_nat (length key) in
  copy_at (copy_at (MarshalTo h data (Z.to_nat offset)) (Z.to_nat keyStart) key)
    (Z.to_nat valStart) value.

Definition entry_size (key value : list byte) : Z :=
  headerSize + Z.of_nat (length key) + Z.of_nat (length value).

(** [None] is the panic of slicing the array beyond its end, at the value. *)
Definition UpdateInPlace (rb : RingBuffer) (offset : Z) (h : EntryHeader) (key value : list byte)
    : option (bool * RingBuffer) :=
  let newSize := entry_size key value in
  if (offset <? 0) || (rb_capacity rb <? offset + headerSize) then Some (false, rb)
  else
    let oldSize := headerEntrySize (UnmarshalFrom (rb_data rb) (Z.to_nat offset)) in
    if oldSize <? newSize then Some (false, rb)
    else if rb_capacity rb <? offset + headerSize + Z.of_nat (length key) then None
    else Some (true,
      {| rb_data := put_entry (rb_data rb) offset h key value;
         rb_capacity := rb_capacity rb; rb_tail := rb_tail rb; rb_head := rb_head rb;
         rb_used := rb_used rb; rb_writeCount := rb_writeCount rb + 1;
         rb_evictCount := rb_evictCount rb |}).

(** The local variables of [WriteWithEvict] that its two eviction loops update. *)
Record evict_state := mkEv {
  es_head : Z;
  es_tail : Z;
  es_used : Z;
  es_evicted : list EvictedEntry;
  es_count : Z
}.

(** The reset both loops perform before [break]. *)
Definition evict_reset (s : evict_state) : evict_state :=
  mkEv 0 0 0 [] (es_count s).

(** One iteration of either loop; the boolean is [false] on [break]. *)
Definition evict_step (rb : RingBuffer) (s : evict_state) : evict_state * bool :=
  match readHeaderAt rb (es_head s) with
  | None => (evict_reset s, false)
  | Some h =>
      let itemSize := headerEntrySize h in
      if (itemSize <=? 0) || (rb_capacity rb <? itemSize) then (evict_reset s, false)
      else
        let head := es_head s + itemSize in
        (mkEv (if rb_capacity rb <=? head then 0 else head) (es_tail s)
           (es_used s - itemSize)
           (es_evicted s ++ [mkEvicted (eh_Hash64 h) (es_head s)])
           (es_count s + 1), true)
  end.

(** [for cond { ... }], with the number of iterations bounded by [fuel]. *)
Fixpoint evict_while (fuel : nat) (cond : evict_state → bool) (rb : RingBuffer)
    (s : evict_state) : evict_state :=
  match fuel with
  | O => s
  | S f =>
      if cond s then
        let '(s', continue) := evict_step rb s in
        if continue then evict_while f cond rb s' else s'
      else s
  end.

(** The two loop conditions. *)
Definition need_space (rb : RingBuffer) (entrySize : Z) (s : evict_state) : bool :=
  rb_capacity rb - es_used s <? entrySize.
Definition need_front (entrySize : Z) (s : evict_state) : bool :=
  (0 <? es_used s) && (es_head s <? entrySize).

Definition evict_fuel (s : evict_state) : nat := S (Z.to_nat (es_used s)).

Definition WriteWithEvict (rb : RingBuffer) (h : EntryHeader) (key value : list byte)
    : (rb_error + Z * list EvictedEntry) * RingBuffer :=
  let entrySize := entry_size key value in
  if rb_capacity rb <? entrySize then (inl ErrEntryTooLarge, rb)
  else
    let s0 := mkEv (rb_head rb) (rb_tail rb) (rb_used rb) [] (rb_evictCount rb) in
    let s1 := evict_while (evict_fuel s0) (need_space rb entrySize) rb s0 in
    let s2 :=
      if rb_capacity rb <? es_tail s1 + entrySize then
        let s1' := mkEv (es_head s1) 0 (es_used s1) (es_evicted s1) (es_count s1) in
        evict_while (evict_fuel s1') (need_front entrySize) rb s1'
      else s1 in
    let offset := es_tail s2 in
    (inr (offset, es_evicted s2),
     {| rb_data := put_entry (rb_data rb) offset h key value;
        rb_capacity := rb_capacity rb;
        rb_tail := offset + entrySize;
        rb_head := es_head s2;
        rb_used := es_used s2 + entrySize;
        rb_writeCount := rb_writeCount rb + 1;
        rb_evictCount := es_count s2 |}).

Definition Write (rb : RingBuffer) (h : EntryHeader) (key value : list byte)
    : (rb_error + Z) * RingBuffer :=
  match WriteWithEvict rb h key value with
  | (inl e, rb') => (inl e, rb')
  | (inr (offset, _), rb') => (inr offset, rb')
  end.

Definition ReadAt (rb : RingBuffer) (offset : Z)
    : rb_error + (list byte * list byte * EntryHeader) :=
  if (offset <? 0) || (rb_capacity rb <? offset + headerSize) then inl ErrInvalidOffset
  else
    let h := UnmarshalFrom (rb_data rb) (Z.to_nat offset) in
    let keyStart := offset + headerSize in
    let keyEnd := keyStart + eh_KeyLen h in
    let valEnd := keyEnd + eh_ValLen h in
    if rb_capacity rb <? valEnd then inl ErrInvalidOffset
    else inr (slice (rb_data rb) (Z.to_nat keyStart) (Z.to_nat (eh_KeyLen h)),
              slice (rb_data rb) (Z.to_nat keyEnd) (Z.to_nat (eh_ValLen h)), h).

(** The copies are fresh arrays with the same contents. *)
Definition ReadAtCopy (rb : RingBuffer) (offset : Z)
    : rb_error + (list byte * list byte * EntryHeader) :=
  match ReadAt rb offset with
  | inl e => inl e
  | inr (k, v, h) =>
      inr (copy_at (replicate (length k) x00) 0 k, copy_at (replicate (length v) x00) 0 v, h)
  end.

Definition Ring_Stats (rb : RingBuffer) : Z * Z := (rb_writeCount rb, rb_evictCount rb).

Definition Ring_Reset (rb : RingBuffer) : RingBuffer :=
  mkRing (rb_data rb) (rb_capacity rb) 0 0 0 0 0.

(** ** Well-formedness *)

(** A header whose fields fit their Go types. *)
Definition header_ok (h : EntryHeader) : Prop :=
  is_i64 (eh_ExpireAt h) ∧ is_u64 (eh_Hash64 h) ∧ is_u16 (eh_KeyLen h) ∧
  is_u16 (eh_ValLen h) ∧ is_u16 (eh_ValCap h) ∧ is_u16 (eh_Flags h).

(** The header describes the entry it is written with. *)
Definition header_for (h : EntryHeader) (key value : list byte) : Prop :=
  header_ok h ∧ eh_KeyLen h = Z.of_nat (length key) ∧ eh_ValLen h = Z.of_nat (length value).

Record ring_wf (rb : RingBuffer) : Prop := {
  wf_length : length (rb_data rb) = Z.to_nat (rb_capacity rb);
  wf_capacity : 0 < rb_capacity rb;
  wf_head : 0 ≤ rb_head rb < rb_capacity rb;
  wf_tail : 0 ≤ rb_tail rb ≤ rb_capacity rb;
  wf_used : rb_used rb ≤ rb_capacity rb
}.

Lemma NewRingBuffer_wf c : ring_wf (NewRingBuffer c).
Proof.
  unfold NewRingBuffer. change minRingBufferSize with 1048576.
  zcase; split; cbn [rb_data rb_capacity rb_head rb_tail rb_used];
    rewrite ?length_replicate; lia.
Qed.

Lemma Ring_Reset_wf rb : ring_wf rb → ring_wf (Ring_Reset rb).
Proof. intros []. split; simpl; lia. Qed.

(** ** The header codec *)

Lemma length_header_bytes h : length (header_bytes h) = 24%nat.
Proof. unfold header_bytes. rewrite !length_app, !length_le_bytes. done. Qed.

Lemma UnmarshalFrom_slice buf off :
  UnmarshalFrom buf off = UnmarshalFrom (slice buf off 24) 0.
Proof.
  unfold UnmarshalFrom. rewrite !slice_slice by lia.
  by rewrite Nat.add_0_r.
Qed.

Lemma Unmarshal_header_bytes h : header_ok h → UnmarshalFrom (header_bytes h) 0 = h.
Proof.
  destruct h as [e x k v c f]. intros (He & Hx & Hk & Hv & Hc & Hf); simpl in *.
  unfold UnmarshalFrom, header_bytes; simpl eh_ExpireAt; simpl eh_Hash64; simpl eh_KeyLen;
    simpl eh_ValLen; simpl eh_ValCap; simpl eh_Flags.
  change (0 + 8)%nat with (8 + 0)%nat. change (0 + 16)%nat with (8 + (8 + 0))%nat.
  change (0 + 18)%nat with (8 + (8 + (2 + 0)))%nat.
  change (0 + 20)%nat with (8 + (8 + (2 + (2 + 0))))%nat.
  change (0 + 22)%nat with (8 + (8 + (2 + (2 + (2 + 0)))))%nat.
  rewrite !slice_app_skip by apply length_le_bytes.
  rewrite !slice_app_first by apply length_le_bytes.
  rewrite <-(app_nil_r (le_bytes 2 f)), slice_app_first by apply length_le_bytes.
  rewrite !le_value_bytes.
  change (256 ^ Z.of_nat 8) with (2 ^ 64). change (256 ^ Z.of_nat 2) with (2 ^ 16).
  unfold is_u64, is_u16 in *. rewrite !(Z.mod_small _ (2 ^ 16)), (Z.mod_small x (2 ^ 64)) by done.
  change (u64 e mod 2 ^ 64) with (u64 (u64 e)).
  by rewrite !i64_u64, i64_id.
Qed.

(** The decoded fields always fit their types. *)
Lemma UnmarshalFrom_ok buf off : header_ok (UnmarshalFrom buf off).
Proof.
  assert (∀ o n, 0 ≤ le_value (slice buf o n) < 256 ^ Z.of_nat n) as H.
  { intros o n. pose proof (le_value_range (slice buf o n)) as Hr.
    assert (length (slice buf o n) ≤ n)%nat by (unfold slice; rewrite length_take; lia).
    split; [lia|]. eapply Z.lt_le_trans; [apply Hr|]. apply Z.pow_le_mono_r; lia. }
  repeat split; simpl; try apply i64_range;
    match goal with |- context [slice _ ?o ?n] => pose proof (H o n) end; lia.
Qed.

Lemma headerEntrySize_pos buf off : headerSize ≤ headerEntrySize (UnmarshalFrom buf off).
Proof.
  unfold headerEntrySize. pose proof (UnmarshalFrom_ok buf off) as (_ & _ & Hk & Hv & _).
  unfold is_u16 in *. lia.
Qed.

(** Writing a header into a buffer with room for it and reading it back gives
    the same header. *)
Theorem Marshal_Unmarshal h buf off :
  header_ok h → (off + 24 ≤ length buf)%nat →
  UnmarshalFrom (MarshalTo h buf off) off = h.
Proof.
  intros Hh Hl. rewrite UnmarshalFrom_slice. unfold MarshalTo.
  rewrite <-(length_header_bytes h), slice_copy_same by (rewrite length_header_bytes; lia).
  by apply Unmarshal_header_bytes.
Qed.

Lemma Marshal_Unmarshal_witness :
  UnmarshalFrom (MarshalTo (mkHeader (2^63 - 1) (2^64 - 1) 65535 65535 65535 65535) (replicate 30 x00) 3) 3
  = mkHeader (2^63 - 1) (2^64 - 1) 65535 65535 65535 65535.
Proof.
  apply Marshal_Unmarshal; [|simpl; lia].
  unfold header_ok, is_i64, is_u64, is_u16; simpl; lia.
Defined.

(** ** Placing one entry *)

Lemma put_entry_copy data offset h key value :
  0 ≤ offset →
  put_entry data offset h key value = copy_at data (Z.to_nat offset) (header_bytes h ++ key ++ value).
Proof.
  intros Ho. unfold put_entry, MarshalTo, headerSize.
  rewrite <-!copy_at_app, length_header_bytes. f_equal; [f_equal|]; lia.
Qed.

Lemma length_put_entry data offset h key value :
  length (put_entry data offset h key value) = length data.
Proof. unfold put_entry, MarshalTo. by rewrite !length_copy_at. Qed.

Lemma entry_bytes_length h key value :
  Z.of_nat (length (header_bytes h ++ key ++ value)) = entry_size key value.
Proof. rewrite !length_app, length_header_bytes. unfold entry_size, headerSize. lia. Qed.

(** The bytes outside the entry's range are untouched. *)
Lemma lookup_put_entry_old data offset h key value (i : nat) :
  0 ≤ offset → (Z.of_nat i < offset ∨ offset + entry_size key value ≤ Z.of_nat i) →
  put_entry data offset h key value !! i = data !! i.
Proof.
  intros Ho Hi. rewrite put_entry_copy by done. apply lookup_copy_at_old.
  pose proof (entry_bytes_length h key value). lia.
Qed.

Lemma slice_put_entry_old data offset h key value o n :
  0 ≤ offset → (Z.of_nat (o + n) ≤ offset ∨ offset + entry_size key value ≤ Z.of_nat o) →
  slice (put_entry data offset h key value) o n = slice data o n.
Proof.
  intros Ho Hi. rewrite put_entry_copy by done. apply slice_copy_disjoint.
  pose proof (entry_bytes_length h key value). lia.
Qed.

Lemma slice_put_entry_all data offset h key value :
  0 ≤ offset → offset + entry_size key value ≤ Z.of_nat (length data) →
  slice (put_entry data offset h key value) (Z.to_nat offset) (Z.to_nat (entry_size key value)) =
  header_bytes h ++ key ++ value.
Proof.
  intros Ho Hl. rewrite put_entry_copy by done.
  rewrite <-(entry_bytes_length h), Nat2Z.id. apply slice_copy_same.
  pose proof (entry_bytes_length h key value). lia.
Qed.

(** Reading back an entry whose header may declare fewer value bytes than were
    written: the declared prefix of the value is read. *)
Lemma ReadAt_put_entry_prefix rb offset h key value rb' :
  header_ok h → eh_KeyLen h = Z.of_nat (length key) → eh_ValLen h ≤ Z.of_nat (length value) →
  0 ≤ offset → offset + entry_size key value ≤ rb_capacity rb' →
  length (rb_data rb) = Z.to_nat (rb_capacity rb') →
  rb_data rb' = put_entry (rb_data rb) offset h key value →
  ReadAt rb' offset = inr (key, take (Z.to_nat (eh_ValLen h)) value, h).
Proof.
  intros Hh Hk Hv Ho Hl Hlen Hd.
  assert (∀ a n, (a + n ≤ Z.to_nat (entry_size key value))%nat →
    slice (rb_data rb') (Z.to_nat offset + a) n = slice (header_bytes h ++ key ++ value) a n) as Hsub.
  { intros a n Han. rewrite <-(slice_put_entry_all (rb_data rb) offset h key value) by lia.
    rewrite <-Hd. by rewrite slice_slice. }
  pose proof Hh as (_ & _ & _ & Hv0 & _). unfold entry_size, headerSize, is_u16 in *.
  assert (UnmarshalFrom (rb_data rb') (Z.to_nat offset) = h) as Hu.
  { rewrite UnmarshalFrom_slice, <-(Nat.add_0_r (Z.to_nat offset)), Hsub by lia.
    rewrite slice_app_first by apply length_header_bytes. by apply Unmarshal_header_bytes. }
  unfold ReadAt, headerSize. rewrite Hu, Hk. zcases; simpl; try lia.
  do 3 f_equal; rewrite ?Nat2Z.id.
  - replace (Z.to_nat (offset + 24)) with (Z.to_nat offset + (24 + 0))%nat by lia.
    rewrite Hsub by lia. rewrite slice_app_skip by apply length_header_bytes.
    by apply slice_app_first.
  - replace (Z.to_nat (offset + 24 + Z.of_nat (length key)))
      with (Z.to_nat offset + (24 + (length key + 0)))%nat by lia.
    rewrite Hsub by lia. rewrite slice_app_skip by apply length_header_bytes.
    rewrite slice_app_skip by done. unfold slice. by rewrite drop_0.
Qed.

Lemma ReadAt_put_entry rb offset h key value rb' :
  header_for h key value →
  0 ≤ offset → offset + entry_size key value ≤ rb_capacity rb' →
  length (rb_data rb) = Z.to_nat (rb_capacity rb') →
  rb_data rb' = put_entry (rb_data rb) offset h key value →
  ReadAt rb' offset = inr (key, value, h).
Proof.
  intros (Hh & Hk & Hv) Ho Hl Hlen Hd.
  rewrite (ReadAt_put_entry_prefix rb offset h key value) by (done || lia).
  rewrite Hv, take_ge by lia. done.
Qed.

(** An entry outside the written range reads the same before and after. *)
Lemma ReadAt_frame rb rb' off k v h :
  length (rb_data rb) = Z.to_nat (rb_capacity rb) →
  rb_capacity rb' = rb_capacity rb →
  ReadAt rb off = inr (k, v, h) →
  (∀ o n, off ≤ Z.of_nat o → Z.of_nat (o + n) ≤ off + headerEntrySize h →
     slice (rb_data rb') o n = slice (rb_data rb) o n) →
  ReadAt rb' off = inr (k, v, h).
Proof.
  intros Hl Hc. unfold ReadAt. rewrite Hc. intros HR Hs.
  destruct (_ || _) eqn:Eb; [done|]. apply orb_false_iff in Eb as [E1 E2].
  assert (0 ≤ off ∧ off + headerSize ≤ rb_capacity rb) as [Ho Ho2] by lia.
  set (hd := UnmarshalFrom (rb_data rb) (Z.to_nat off)) in *.
  destruct (rb_capacity rb <? off + headerSize + eh_KeyLen hd + eh_ValLen hd) eqn:E3; [done|].
  assert (hd = h) as Hh by (by injection HR).
  pose proof (UnmarshalFrom_ok (rb_data rb) (Z.to_nat off)) as (_ & _ & Hk & Hv & _).
  fold hd in Hk, Hv. rewrite Hh in Hk, Hv. unfold is_u16, headerEntrySize, headerSize in *.
  assert (UnmarshalFrom (rb_data rb') (Z.to_nat off) = hd) as ->.
  { unfold hd. rewrite UnmarshalFrom_slice, (UnmarshalFrom_slice (rb_data rb)).
    by rewrite Hs by lia. }
  rewrite E3. rewrite <-HR. rewrite Hh. by rewrite !Hs by lia.
Qed.

Lemma ReadAt_header rb off k v h : ReadAt rb off = inr (k, v, h) → readHeaderAt rb off = Some h.
Proof.
  unfold ReadAt, readHeaderAt.
  destruct ((off <? 0) || (rb_capacity rb <? off + headerSize)); [done|].
  set (hd := UnmarshalFrom (rb_data rb) (Z.to_nat off)).
  by destruct (rb_capacity rb <? off + headerSize + eh_KeyLen hd + eh_ValLen hd); [|intros [= _ _ ->]].
Qed.

(** ** The eviction walk *)

Definition cond_ok (cond : evict_state → bool) : Prop :=
  ∀ s, cond s = true → 0 < es_used s.

Lemma need_space_ok rb entrySize : entrySize ≤ rb_capacity rb → cond_ok (need_space rb entrySize).
Proof. unfold cond_ok, need_space. intros. lia. Qed.

Lemma need_front_ok entrySize : cond_ok (need_front entrySize).
Proof. unfold cond_ok, need_front. intros s. lia. Qed.

Lemma evict_step_continue rb s s' :
  evict_step rb s = (s', true) →
  es_used s' ≤ es_used s - headerSize ∧ es_tail s' = es_tail s ∧
  (0 < rb_capacity rb → 0 ≤ es_head s' < rb_capacity rb).
Proof.
  unfold evict_step, readHeaderAt. destruct (_ || _) eqn:E1; [done|].
  pose proof (headerEntrySize_pos (rb_data rb) (Z.to_nat (es_head s))) as Hp.
  set (z := headerEntrySize _) in *.
  destruct ((z <=? 0) || (rb_capacity rb <? z)) eqn:E2; [done|].
  intros [= <-]; simpl. unfold headerSize in *. split_and!; [lia|done|]. zcases; lia.
Qed.

Lemma evict_step_break rb s s' : evict_step rb s = (s', false) → s' = evict_reset s.
Proof.
  unfold evict_step. destruct (readHeaderAt _ _); [|by intros [= <-]].
  destruct (_ || _); by intros [= <-].
Qed.

Lemma cond_ok_reset cond s : cond_ok cond → cond (evict_reset s) = false.
Proof.
  intros H. destruct (cond (evict_reset s)) eqn:E; [|done].
  apply H in E. simpl in E. lia.
Qed.

(** The walk leaves a loop only because its condition is false (or by [break],
    which makes it false). *)
Lemma evict_while_exit cond rb s fuel :
  cond_ok cond → (Z.to_nat (es_used s) < fuel)%nat →
  cond (evict_while fuel cond rb s) = false.
Proof.
  intros Hc. revert s. induction fuel as [|fuel IH]; intros s Hf; [lia|]. simpl.
  destruct (cond s) eqn:E; [|done].
  destruct (evict_step rb s) as [s' [|]] eqn:Es.
  - apply evict_step_continue in Es as (Hu & _). apply Hc in E. unfold headerSize in *.
    apply IH. lia.
  - apply evict_step_break in Es as ->. by apply cond_ok_reset.
Qed.

(** Any fuel above the number of used bytes gives the same result. *)
Lemma evict_while_fuel cond rb s fuel1 fuel2 :
  cond_ok cond → (Z.to_nat (es_used s) < fuel1)%nat → (Z.to_nat (es_used s) < fuel2)%nat →
  evict_while fuel1 cond rb s = evict_while fuel2 cond rb s.
Proof.
  intros Hc. revert s fuel2.
  induction fuel1 as [|f1 IH]; intros s [|f2] H1 H2; try lia. simpl.
  destruct (cond s) eqn:E; [|done].
  destruct (evict_step rb s) as [s' [|]] eqn:Es; [|done].
  apply evict_step_continue in Es as (Hu & _). apply Hc in E. unfold headerSize in *.
  apply IH; lia.
Qed.

Lemma evict_while_invariant cond rb s fuel :
  0 < rb_capacity rb → 0 ≤ es_head s < rb_capacity rb → cond_ok cond →
  let s' := evict_while fuel cond rb s in
  0 ≤ es_head s' < rb_capacity rb ∧ (es_tail s' = es_tail s ∨ es_tail s' = 0) ∧
  es_used s' ≤ Z.max 0 (es_used s).
Proof.
  intros Hcap Hh Hc. revert s Hh. induction fuel as [|fuel IH]; intros s Hh; simpl; [lia|].
  destruct (cond s) eqn:E; [|lia]. apply Hc in E.
  destruct (evict_step rb s) as [s' [|]] eqn:Es.
  - apply evict_step_continue in Es as (Hu & Ht & Hh'). unfold headerSize in *.
    destruct (IH s' (Hh' Hcap)) as (? & ? & ?). rewrite <-Ht. split_and!; (lia || done).
  - apply evict_step_break in Es as ->. simpl. lia.
Qed.

(** ** Writing *)

(** The state in which [WriteWithEvict] places the entry. *)
Definition write_state (rb : RingBuffer) (entrySize : Z) : evict_state :=
  let s0 := mkEv (rb_head rb) (rb_tail rb) (rb_used rb) [] (rb_evictCount rb) in
  let s1 := evict_while (evict_fuel s0) (need_space rb entrySize) rb s0 in
  if rb_capacity rb <? es_tail s1 + entrySize then
    let s1' := mkEv (es_head s1) 0 (es_used s1) (es_evicted s1) (es_count s1) in
    evict_while (evict_fuel s1') (need_front entrySize) rb s1'
  else s1.

Lemma WriteWithEvict_fits rb h key value :
  entry_size key value ≤ rb_capacity rb →
  let s := write_state rb (entry_size key value) in
  WriteWithEvict rb h key value =
  (inr (es_tail s, es_evicted s),
   mkRing (put_entry (rb_data rb) (es_tail s) h key value) (rb_capacity rb)
     (es_tail s + entry_size key value) (es_head s) (es_used s + entry_size key value)
     (rb_writeCount rb + 1) (es_count s)).
Proof. intros Hs. unfold WriteWithEvict. by destruct (Z.ltb_spec (rb_capacity rb) (entry_size key value)); [lia|]. Qed.

Lemma write_state_spec rb entrySize :
  ring_wf rb → 0 ≤ entrySize ≤ rb_capacity rb →
  let s := write_state rb entrySize in
  0 ≤ es_tail s ∧ es_tail s + entrySize ≤ rb_capacity rb ∧
  0 ≤ es_head s < rb_capacity rb ∧ es_used s + entrySize ≤ rb_capacity rb.
Proof.
  intros [Hl Hc Hh Ht Hu] Hs. unfold write_state.
  set (s0 := mkEv _ _ _ _ _). set (s1 := evict_while _ _ rb s0).
  pose proof (need_space_ok rb entrySize ltac:(lia)) as Hn.
  assert (need_space rb entrySize s1 = false) as H1.
  { apply evict_while_exit; [done|]. unfold evict_fuel. lia. }
  destruct (evict_while_invariant (need_space rb entrySize) rb s0 (evict_fuel s0) Hc Hh Hn)
    as (Hh1 & Ht1 & Hu1); fold s1 in Hh1, Ht1, Hu1.
  unfold need_space in H1. simpl in Ht1.
  zcase; [|simpl; lia].
  set (s1' := mkEv _ 0 _ _ _).
  destruct (evict_while_invariant (need_front entrySize) rb s1' (evict_fuel s1') Hc Hh1
    (need_front_ok entrySize)) as (Hh2 & Ht2 & Hu2).
  set (s2 := evict_while _ _ rb s1') in *. cbn [s1' es_tail es_used] in Ht2, Hu2. lia.
Qed.

Lemma entry_size_nonneg key value : 0 ≤ entry_size key value.
Proof. unfold entry_size, headerSize. lia. Qed.

(** Memory safety of a write: the write fails exactly when the entry is larger
    than the buffer, and otherwise the entry lies inside the array, every byte
    outside it keeps its value and the cursors stay well formed. *)
Lemma WriteWithEvict_wf rb h key value :
  ring_wf rb →
  match WriteWithEvict rb h key value with
  | (inl e, rb') =>
      e = ErrEntryTooLarge ∧ rb' = rb ∧ rb_capacity rb < entry_size key value
  | (inr (off, _), rb') =>
      0 ≤ off ∧ off + entry_size key value ≤ rb_capacity rb ∧ ring_wf rb' ∧
      rb_capacity rb' = rb_capacity rb ∧
      ∀ i : nat, (Z.of_nat i < off ∨ off + entry_size key value ≤ Z.of_nat i) →
        rb_data rb' !! i = rb_data rb !! i
  end.
Proof.
  intros Hwf. destruct (Z.ltb_spec (rb_capacity rb) (entry_size key value)) as [Hs|Hs].
  - unfold WriteWithEvict. rewrite (proj2 (Z.ltb_lt _ _) Hs). done.
  - rewrite WriteWithEvict_fits by done.
    pose proof (entry_size_nonneg key value).
    destruct (write_state_spec rb (entry_size key value) Hwf ltac:(lia)) as (H1 & H2 & H3 & H4).
    set (s := write_state _ _) in *. destruct Hwf.
    split_and!; [done|done| |done|].
    + split; simpl; rewrite ?length_put_entry; lia.
    + intros i Hi. by apply lookup_put_entry_old.
Qed.

(** Write/read round trip: the entry a write reports at [off] is the entry
    [ReadAt] finds there. *)
Lemma WriteWithEvict_reads_back rb h key value off ev rb' :
  ring_wf rb → header_for h key value →
  WriteWithEvict rb h key value = (inr (off, ev), rb') →
  ReadAt rb' off = inr (key, value, h).
Proof.
  intros Hwf Hh HW. pose proof (WriteWithEvict_wf rb h key value Hwf) as Hsafe.
  rewrite HW in Hsafe. destruct Hsafe as (Ho & Hs & _ & Hc & _).
  rewrite WriteWithEvict_fits in HW by lia. simplify_eq. destruct Hwf.
  by eapply (ReadAt_put_entry rb).
Qed.

(** The states the operations of the buffer lead to. An update in place is given
    any offset at which it does not panic. *)
Inductive ring_reachable : RingBuffer → Prop :=
  | reach_new c : ring_reachable (NewRingBuffer c)
  | reach_write rb h key value :
      ring_reachable rb → ring_reachable (WriteWithEvict rb h key value).2
  | reach_update rb offset h key value b rb' :
      ring_reachable rb → UpdateInPlace rb offset h key value = Some (b, rb') → ring_reachable rb'
  | reach_reset rb : ring_reachable rb → ring_reachable (Ring_Reset rb).

Lemma UpdateInPlace_wf rb offset h key value b rb' :
  ring_wf rb → UpdateInPlace rb offset h key value = Some (b, rb') → ring_wf rb'.
Proof.
  intros [Hl Hc Hh Ht Hu]. unfold UpdateInPlace.
  destruct ((offset <? 0) || (rb_capacity rb <? offset + headerSize)); [intros [= _ <-]; by split|].
  destruct (headerEntrySize (UnmarshalFrom (rb_data rb) (Z.to_nat offset)) <? entry_size key value);
    [intros [= _ <-]; by split|].
  destruct (rb_capacity rb <? _); [done|]. intros [= _ <-]. split; simpl; rewrite ?length_put_entry; done.
Qed.

Lemma ring_reachable_wf rb : ring_reachable rb → ring_wf rb.
Proof.
  induction 1 as [c|rb h key value _ IH|rb o h key value b rb' _ IH HU|rb _ IH].
  - apply NewRingBuffer_wf.
  - pose proof (WriteWithEvict_wf rb h key value IH) as H.
    destruct (WriteWithEvict rb h key value) as [[e|[off ev]] rb']; simpl; [by destruct H as (_ & -> & _)|].
    apply H.
  - by eapply UpdateInPlace_wf.
  - by apply Ring_Reset_wf.
Qed.

(** C24: In every state the buffer can reach, a write of an entry that is no larger
    than the buffer succeeds inside the array, can be read back at the offset it
    reports, and changes no byte outside that entry. *)
Theorem ring_write_read_back rb h key value :
  ring_reachable rb → header_for h key value → entry_size key value ≤ rb_capacity rb →
  ∃ off ev rb', WriteWithEvict rb h key value = (inr (off, ev), rb') ∧
    0 ≤ off ∧ off + entry_size key value ≤ rb_capacity rb ∧
    ReadAt rb' off = inr (key, value, h) ∧
    ∀ i : nat, (Z.of_nat i < off ∨ off + entry_size key value ≤ Z.of_nat i) →
      rb_data rb' !! i = rb_data rb !! i.
Proof.
  intros Hr%ring_reachable_wf Hh Hs. pose proof (WriteWithEvict_wf rb h key value Hr) as H.
  destruct (WriteWithEvict rb h key value) as [[e|[off ev]] rb'] eqn:HW; [lia|].
  destruct H as (? & ? & ? & ? & ?). exists off, ev, rb'. split_and!; [done..| |done].
  by eapply (WriteWithEvict_reads_back rb h key value off ev rb').  
Qed.

Lemma ring_write_read_back_witness :
  let h := mkHeader 0 7 1 3 0 0 in
  ∃ off ev rb', WriteWithEvict (NewRingBuffer 0) h [x61] [x62; x63; x64] = (inr (off, ev), rb') ∧
    ReadAt rb' off = inr ([x61], [x62; x63; x64], h).
Proof.
  destruct (ring_write_read_back (NewRingBuffer 0) (mkHeader 0 7 1 3 0 0) [x61] [x62; x63; x64])
    as (off & ev & rb' & HW & _ & _ & HR & _).
  - apply reach_new.
  - unfold header_for, header_ok, is_i64, is_u64, is_u16; simpl; lia.
  - unfold NewRingBuffer. change minRingBufferSize with 1048576. simpl. cbv. discriminate.
  - by exists off, ev, rb'.
Defined.

(** Termination of the two eviction loops: with at least as much fuel as there
    are used bytes the walk has stopped for the loop's own reason, and more fuel
    does not change the outcome. *)
Theorem evict_while_terminates rb s cond fuel :
  (∃ n, n ≤ rb_capacity rb ∧ (cond = need_space rb n ∨ cond = need_front n)) →
  (evict_fuel s ≤ fuel)%nat →
  cond (evict_while (evict_fuel s) cond rb s) = false ∧
  evict_while fuel cond rb s = evict_while (evict_fuel s) cond rb s.
Proof.
  intros Hcond Hf.
  assert (cond_ok cond) as Hc.
  { destruct Hcond as (n & Hn & [->| ->]); eauto using need_front_ok, need_space_ok. }
  unfold evict_fuel in *. split.
  - apply evict_while_exit; [done|lia].
  - apply evict_while_fuel; [done|lia..].
Qed.

Lemma evict_while_terminates_witness :
  let rb := mkRing (replicate 64 x00) 64 40 0 40 0 0 in
  let s := mkEv 0 40 40 [] 0 in
  need_space rb 60 (evict_while (evict_fuel s) (need_space rb 60) rb s) = false ∧
  evict_while 1000 (need_space rb 60) rb s = evict_while (evict_fuel s) (need_space rb 60) rb s.
Proof.
  apply evict_while_terminates; [exists 60; simpl; split; [lia|by left]|].
  unfold evict_fuel. simpl. lia.
Defined.

(** ** A buffer that has not wrapped is a FIFO queue of entries *)

Fixpoint chain_size (es : list EntryHeader) : Z :=
  match es with
  | [] => 0
  | h :: es' => headerEntrySize h + chain_size es'
  end.

(** The headers [es] are laid out one after the other from [pos]. *)
Fixpoint chain (rb : RingBuffer) (pos : Z) (es : list EntryHeader) : Prop :=
  match es with
  | [] => True
  | h :: es' =>
      readHeaderAt rb pos = Some h ∧ pos + headerEntrySize h ≤ rb_capacity rb ∧
      chain rb (pos + headerEntrySize h) es'
  end.

Fixpoint chain_evicted (pos : Z) (es : list EntryHeader) : list EvictedEntry :=
  match es with
  | [] => []
  | h :: es' => mkEvicted (eh_Hash64 h) pos :: chain_evicted (pos + headerEntrySize h) es'
  end.

(** Offset of the [j]-th live entry. *)
Definition chain_offset (rb : RingBuffer) (es : list EntryHeader) (j : nat) : Z :=
  rb_head rb + chain_size (take j es).

(** The live entries [es] occupy exactly [rb_head .. rb_tail]. *)
Record unwrapped (rb : RingBuffer) (es : list EntryHeader) : Prop := {
  uw_wf : ring_wf rb;
  uw_chain : chain rb (rb_head rb) es;
  uw_used : rb_used rb = chain_size es;
  uw_tail : rb_tail rb = rb_head rb + chain_size es
}.

Definition norm (cap p : Z) : Z := if cap <=? p then 0 else p.

(** The state of the walk after it has evicted the first [n] entries of [es]. *)
Definition evicted_first (rb : RingBuffer) (s : evict_state) (es : list EntryHeader) (n : nat)
    : evict_state :=
  mkEv (norm (rb_capacity rb) (es_head s + chain_size (take n es))) (es_tail s)
    (es_used s - chain_size (take n es)) (es_evicted s ++ chain_evicted (es_head s) (take n es))
    (es_count s + Z.of_nat (length (take n es))).

Lemma readHeaderAt_Some rb pos h :
  readHeaderAt rb pos = Some h →
  0 ≤ pos ∧ pos + headerSize ≤ rb_capacity rb ∧ headerSize ≤ headerEntrySize h.
Proof.
  unfold readHeaderAt. destruct (_ || _) eqn:E; [done|]. intros [= <-].
  pose proof (headerEntrySize_pos (rb_data rb) (Z.to_nat pos)). unfold headerSize in *. lia.
Qed.

Lemma chain_size_nonneg rb pos es : chain rb pos es → 0 ≤ chain_size es.
Proof.
  revert pos. induction es as [|h es IH]; intros pos; simpl; [lia|].
  intros (Hr & _ & Hc). apply readHeaderAt_Some in Hr. unfold headerSize in *.
  apply IH in Hc. lia.
Qed.

Lemma chain_size_app es1 es2 : chain_size (es1 ++ es2) = chain_size es1 + chain_size es2.
Proof. induction es1; simpl; lia. Qed.

Lemma chain_app rb pos es1 es2 :
  chain rb pos (es1 ++ es2) ↔ chain rb pos es1 ∧ chain rb (pos + chain_size es1) es2.
Proof.
  revert pos. induction es1 as [|h es1 IH]; intros pos; simpl.
  - rewrite Z.add_0_r. tauto.
  - rewrite IH, Z.add_assoc. tauto.
Qed.

Lemma chain_evicted_app pos es1 es2 :
  chain_evicted pos (es1 ++ es2) = chain_evicted pos es1 ++ chain_evicted (pos + chain_size es1) es2.
Proof.
  revert pos. induction es1 as [|h es1 IH]; intros pos; simpl; [by rewrite Z.add_0_r|].
  by rewrite IH, Z.add_assoc.
Qed.

Lemma norm_small cap p : p < cap → norm cap p = p.
Proof. unfold norm. intros. zcases; lia. Qed.

(** Where the walk stands does not matter once nothing is left. *)
Lemma chain_norm rb pos es :
  chain rb pos es → chain rb (norm (rb_capacity rb) pos) es.
Proof.
  destruct es as [|h es]; [done|]. intros Hc. destruct Hc as (Hr & Hrest).
  pose proof (readHeaderAt_Some _ _ _ Hr) as (? & ? & ?). unfold headerSize in *.
  rewrite norm_small by lia. done.
Qed.

Lemma chain_norm_add rb pos es n :
  0 < rb_capacity rb → chain rb pos es →
  norm (rb_capacity rb) (norm (rb_capacity rb) pos + chain_size (take n es)) =
  norm (rb_capacity rb) (pos + chain_size (take n es)).
Proof.
  intros Hcap Hc. destruct es as [|h es].
  - rewrite take_nil. simpl. unfold norm.
    destruct (Z.leb_spec (rb_capacity rb) pos); zcases; lia.
  - destruct Hc as (Hr & _). apply readHeaderAt_Some in Hr. unfold headerSize in *.
    by rewrite (norm_small _ pos) by lia.
Qed.

Lemma chain_evicted_norm rb pos es :
  chain rb pos es → chain_evicted (norm (rb_capacity rb) pos) es = chain_evicted pos es.
Proof.
  destruct es as [|h es]; [done|]. intros (Hr & _).
  apply readHeaderAt_Some in Hr. unfold headerSize in *. by rewrite norm_small by lia.
Qed.

Lemma chain_evicted_norm_take rb pos es n :
  chain rb pos es →
  chain_evicted (norm (rb_capacity rb) pos) (take n es) = chain_evicted pos (take n es).
Proof.
  intros Hc. rewrite <-(take_drop n es), chain_app in Hc.
  destruct Hc as [Hc _]. by apply chain_evicted_norm.
Qed.

Lemma evict_step_chain rb s h es :
  0 < rb_capacity rb → chain rb (es_head s) (h :: es) →
  evict_step rb s = (evicted_first rb s (h :: es) 1, true).
Proof.
  intros Hcap (Hr & Hb & Hc). unfold evict_step. rewrite Hr.
  apply readHeaderAt_Some in Hr. unfold headerSize in *.
  destruct ((headerEntrySize h <=? 0) || (rb_capacity rb <? headerEntrySize h)) eqn:E; [lia|].
  unfold evicted_first, norm. simpl. by rewrite Z.add_0_r.
Qed.

Lemma evicted_first_0 rb s es :
  es_head s < rb_capacity rb → evicted_first rb s es 0 = s.
Proof.
  intros H. unfold evicted_first. rewrite take_0. simpl.
  rewrite !Z.add_0_r, app_nil_r, norm_small, Z.sub_0_r by done. by destruct s.
Qed.

(** Evicting [n] and then [m] more. *)
Lemma evicted_first_add rb s es n m :
  0 < rb_capacity rb → chain rb (es_head s) es →
  evicted_first rb (evicted_first rb s es n) (drop n es) m = evicted_first rb s es (n + m).
Proof.
  intros Hcap Hc.
  assert (take (n + m) es = take n es ++ take m (drop n es)) as Ht.
  { by rewrite take_take_drop. }
  pose proof Hc as Hc'. rewrite <-(take_drop n es), chain_app in Hc'. destruct Hc' as [_ Hc'].
  unfold evicted_first at 1 3. rewrite Ht, chain_size_app, chain_evicted_app, length_app.
  unfold evicted_first. cbn [es_head es_tail es_used es_evicted es_count]. f_equal.
  - by rewrite (chain_norm_add _ _ _ _ Hcap Hc'), Z.add_assoc.
  - lia.
  - by rewrite chain_evicted_norm_take, app_assoc.
  - lia.
Qed.

(** On a chain the walk evicts the shortest prefix that makes room. *)
Lemma evict_while_chain rb cond fuel s es :
  0 < rb_capacity rb → cond_ok cond →
  chain rb (es_head s) es → es_head s < rb_capacity rb →
  es_used s = chain_size es → (length es < fuel)%nat →
  ∃ n, (n ≤ length es)%nat ∧ evict_while fuel cond rb s = evicted_first rb s es n ∧
       cond (evicted_first rb s es n) = false ∧
       ∀ m, (m < n)%nat → cond (evicted_first rb s es m) = true.
Proof.
  intros Hcap Hok. revert fuel s.
  induction es as [|h es IH]; intros [|fuel] s Hc Hh Hu Hf; try (simpl in Hf; lia).
  - exists 0%nat. rewrite evicted_first_0 by done. simpl.
    destruct (cond s) eqn:E; [apply Hok in E; simpl in *; lia|]. split_and!; [lia|done..|lia].
  - cbn [evict_while]. destruct (cond s) eqn:E; last first.
    { exists 0%nat. rewrite evicted_first_0 by done. split_and!; [lia|done..|lia]. }
    rewrite (evict_step_chain rb s h es) by done.
    set (s' := evicted_first rb s (h :: es) 1).
    assert (chain rb (es_head s') es) as Hc'.
    { destruct Hc as (_ & _ & Hc). apply chain_norm in Hc. simpl.
      by rewrite Z.add_0_r. }
    assert (es_head s' < rb_capacity rb) as Hh'.
    { simpl. unfold norm. zcases; lia. }
    assert (es_used s' = chain_size es) as Hu' by (simpl in *; lia).
    destruct (IH fuel s' Hc' Hh' Hu' ltac:(simpl in *; lia)) as (n & Hn & Hw & Hce & Hm).
    assert (∀ k, evicted_first rb s' es k = evicted_first rb s (h :: es) (S k)) as Hk.
    { intros k. apply (evicted_first_add rb s (h :: es) 1 k Hcap Hc). }
    exists (S n). rewrite <-Hk. split_and!; [simpl; lia|done|done|].
    intros [|m] Hlt; [by rewrite evicted_first_0|]. rewrite <-Hk. apply Hm. lia.
Qed.

Lemma chain_length rb pos es :
  chain rb pos es → headerSize * Z.of_nat (length es) ≤ chain_size es.
Proof.
  revert pos. induction es as [|h es IH]; intros pos; [simpl; lia|]. cbn [chain chain_size length].
  intros (Hr & _ & Hc). apply readHeaderAt_Some in Hr. apply IH in Hc.
  unfold headerSize in *. lia.
Qed.

Lemma chain_fuel rb pos es s :
  chain rb pos es → es_used s = chain_size es → (length es < evict_fuel s)%nat.
Proof.
  intros Hc Hu. apply chain_length in Hc. unfold evict_fuel, headerSize in *. lia.
Qed.

Lemma chain_drop rb pos es n :
  chain rb pos es → chain rb (pos + chain_size (take n es)) (drop n es).
Proof. intros Hc. rewrite <-(take_drop n es), chain_app in Hc. apply Hc. Qed.

Lemma chain_size_drop es n : chain_size (drop n es) = chain_size es - chain_size (take n es).
Proof. rewrite <-(take_drop n es) at 2. rewrite chain_size_app. lia. Qed.

Lemma chain_lookup rb pos es j h :
  chain rb pos es → es !! j = Some h →
  readHeaderAt rb (pos + chain_size (take j es)) = Some h ∧
  pos + chain_size (take j es) + headerEntrySize h ≤ pos + chain_size es.
Proof.
  intros Hc Hj. pose proof (chain_drop _ _ _ j Hc) as Hd.
  pose proof (chain_size_drop es j) as Hs.
  rewrite (drop_S _ _ _ Hj) in Hd, Hs. destruct Hd as (Hr & _ & Hd').
  split; [done|]. apply chain_size_nonneg in Hd'. simpl in Hs. lia.
Qed.

Lemma chain_take_mono rb pos es n m :
  chain rb pos es → (n ≤ m)%nat → chain_size (take n es) ≤ chain_size (take m es).
Proof.
  intros Hc Hnm. replace m with (n + (m - n))%nat by lia.
  rewrite <-take_take_drop, chain_size_app.
  pose proof (chain_drop _ _ _ n Hc) as Hd.
  rewrite <-(take_drop (m - n) (drop n es)), chain_app in Hd. destruct Hd as [Hd _].
  apply chain_size_nonneg in Hd. lia.
Qed.

(** In a chain every entry starts before the end of the array. *)
Lemma chain_norm_offset rb es n :
  chain rb (rb_head rb) es → (n < length es)%nat →
  norm (rb_capacity rb) (rb_head rb + chain_size (take n es)) = chain_offset rb es n.
Proof.
  intros Hc Hn. apply lookup_lt_is_Some in Hn as [hk Hhk].
  pose proof (chain_lookup _ _ _ _ _ Hc Hhk) as [Hr _].
  apply readHeaderAt_Some in Hr. unfold headerSize, chain_offset in *.
  apply norm_small. lia.
Qed.

Lemma chain_used_pos rb es n :
  chain rb (rb_head rb) es → (n < length es)%nat → 0 < chain_size es - chain_size (take n es).
Proof.
  intros Hc Hn. apply lookup_lt_is_Some in Hn as [hk Hhk].
  pose proof (chain_lookup _ _ _ _ _ Hc Hhk) as [Hr Hle].
  apply readHeaderAt_Some in Hr. unfold headerSize in Hr. lia.
Qed.

Definition to_front (s : evict_state) : evict_state :=
  mkEv (es_head s) 0 (es_used s) (es_evicted s) (es_count s).

Definition write_start (rb : RingBuffer) : evict_state :=
  mkEv (rb_head rb) (rb_tail rb) (rb_used rb) [] (rb_evictCount rb).

(** The first loop on a buffer that has not wrapped. *)
Lemma space_loop_unwrapped rb es entrySize :
  unwrapped rb es → entrySize ≤ rb_capacity rb →
  ∃ n, (n ≤ length es)%nat ∧
    evict_while (evict_fuel (write_start rb)) (need_space rb entrySize) rb (write_start rb) =
      evicted_first rb (write_start rb) es n ∧
    ∀ m, (m < n)%nat → rb_capacity rb - (rb_used rb - chain_size (take m es)) < entrySize.
Proof.
  intros [Hwf Hc Hu Ht] Hs. pose proof Hwf as [Hl Hcap Hh Htl Hus].
  destruct (evict_while_chain rb (need_space rb entrySize) (evict_fuel (write_start rb))
    (write_start rb) es) as (n & Hn & Hw & Hf & Hm);
    [done|by apply need_space_ok|done|simpl; lia|done|by eapply chain_fuel|].
  exists n. split_and!; [done|done|]. intros m Hlt. specialize (Hm m Hlt).
  unfold need_space in Hm. cbn in Hm. lia.
Qed.

(** The second loop, after the first has evicted [n1] entries and the write
    position has gone back to the front. *)
Lemma front_loop_unwrapped rb es entrySize n1 :
  unwrapped rb es → (n1 ≤ length es)%nat →
  let s1 := to_front (evicted_first rb (write_start rb) es n1) in
  ∃ n, (n1 ≤ n ≤ length es)%nat ∧
    evict_while (evict_fuel s1) (need_front entrySize) rb s1 =
      to_front (evicted_first rb (write_start rb) es n) ∧
    ((n < length es)%nat → entrySize ≤ chain_offset rb es n) ∧
    ∀ m, (n1 ≤ m < n)%nat → chain_offset rb es m < entrySize.
Proof.
  intros [Hwf Hc Hu Ht] Hn1 s1. pose proof Hwf as [Hl Hcap Hh Htl Hus].
  assert (chain rb (es_head s1) (drop n1 es)) as Hc1 by (by apply chain_norm, chain_drop).
  assert (es_used s1 = chain_size (drop n1 es)) as Hu1
    by (unfold s1; cbn; rewrite chain_size_drop; lia).
  destruct (evict_while_chain rb (need_front entrySize) (evict_fuel s1) s1 (drop n1 es)) as
    (n2 & Hn2 & Hw2 & Hf2 & Hm2);
    [done|apply need_front_ok|done|unfold s1; cbn; unfold norm; zcases; lia|done|by eapply chain_fuel|].
  rewrite length_drop in Hn2.
  assert (∀ k, evicted_first rb s1 (drop n1 es) k =
    to_front (evicted_first rb (write_start rb) es (n1 + k))) as Hk.
  { intros k. by rewrite <-evicted_first_add by done. }
  exists (n1 + n2)%nat. split_and!; [lia|lia|by rewrite Hw2, Hk| |].
  - intros Hlt. rewrite Hk in Hf2. unfold need_front in Hf2. cbn in Hf2.
    rewrite chain_norm_offset in Hf2 by done.
    pose proof (chain_used_pos _ _ _ Hc Hlt). lia.
  - intros m Hm. specialize (Hm2 (m - n1)%nat ltac:(lia)).
    rewrite Hk in Hm2. unfold need_front in Hm2. cbn in Hm2.
    rewrite chain_norm_offset in Hm2 by (done || lia).
    replace (n1 + (m - n1))%nat with m in Hm2 by lia. lia.
Qed.

(** The eviction state of a write into a buffer that has not wrapped. *)
Lemma write_state_unwrapped rb es entrySize :
  unwrapped rb es → entrySize ≤ rb_capacity rb →
  ∃ n, (n ≤ length es)%nat ∧
    write_state rb entrySize =
      (if rb_capacity rb <? rb_tail rb + entrySize
       then to_front (evicted_first rb (write_start rb) es n)
       else evicted_first rb (write_start rb) es n) ∧
    (rb_capacity rb < rb_tail rb + entrySize → (n < length es)%nat →
       entrySize ≤ chain_offset rb es n) ∧
    (∀ m, (m < n)%nat →
       rb_capacity rb - (rb_used rb - chain_size (take m es)) < entrySize ∨
       (rb_capacity rb < rb_tail rb + entrySize ∧ chain_offset rb es m < entrySize)).
Proof.
  intros Hun Hs. destruct (space_loop_unwrapped rb es entrySize Hun Hs) as (n1 & Hn1 & Hw1 & Hm1).
  unfold write_state. fold (write_start rb). rewrite Hw1.
  change (es_tail (evicted_first rb (write_start rb) es n1)) with (rb_tail rb).
  destruct (Z.ltb_spec (rb_capacity rb) (rb_tail rb + entrySize)) as [Hwrap|Hwrap].
  - destruct (front_loop_unwrapped rb es entrySize n1 Hun Hn1) as (n & Hn & Hw & Hf & Hm).
    exists n. split_and!; [lia|done|auto|]. intros m Hlt.
    destruct (decide (m < n1)%nat); [left; auto|right; split; [done|]; apply Hm; lia].
  - exists n1. split_and!; [done|done|lia|]. intros m Hlt. left. auto.
Qed.

(** A surviving entry is disjoint from the bytes written. *)
Lemma survivor_readable rb es h key value n off rb' j hj k v :
  unwrapped rb es →
  rb_capacity rb' = rb_capacity rb →
  rb_data rb' = put_entry (rb_data rb) off h key value →
  (off = rb_tail rb ∨ off = 0 ∧ ((n < length es)%nat → entry_size key value ≤ chain_offset rb es n)) →
  (n ≤ j)%nat → es !! j = Some hj →
  ReadAt rb (chain_offset rb es j) = inr (k, v, hj) →
  ReadAt rb' (chain_offset rb es j) = inr (k, v, hj).
Proof.
  intros [Hwf Hc Hu Ht] Hcap Hd Hoff Hnj Hj HR. destruct Hwf as [Hl Hcp Hh Htl Hus].
  pose proof (chain_lookup _ _ _ _ _ Hc Hj) as [_ Hle].
  pose proof (chain_take_mono _ _ _ _ _ Hc Hnj) as Hmono.
  pose proof (lookup_lt_Some _ _ _ Hj) as Hlt.
  eapply (ReadAt_frame rb); [done..|]. intros o m Ho1 Ho2. rewrite Hd.
  unfold chain_offset in *.
  destruct Hoff as [->|[-> Hfront]]; apply slice_put_entry_old; lia.
Qed.

(** FIFO eviction. On a buffer that has not wrapped, a write evicts the [n]
    oldest entries and reports exactly them, evicts none that it need not,
    makes the new entry readable and leaves every survivor readable at its old
    offset. *)
Theorem WriteWithEvict_fifo rb es h key value :
  unwrapped rb es → header_for h key value → entry_size key value ≤ rb_capacity rb →
  ∃ n off rb', (n ≤ length es)%nat ∧
    WriteWithEvict rb h key value = (inr (off, chain_evicted (rb_head rb) (take n es)), rb') ∧
    ReadAt rb' off = inr (key, value, h) ∧
    (∀ j hj k v, (n ≤ j)%nat → es !! j = Some hj →
       ReadAt rb (chain_offset rb es j) = inr (k, v, hj) →
       ReadAt rb' (chain_offset rb es j) = inr (k, v, hj)) ∧
    (∀ m, (m < n)%nat →
       rb_capacity rb - (rb_used rb - chain_size (take m es)) < entry_size key value ∨
       (rb_capacity rb < rb_tail rb + entry_size key value ∧
        chain_offset rb es m < entry_size key value)).
Proof.
  intros Hun Hh Hs.
  destruct (write_state_unwrapped rb es _ Hun Hs) as (n & Hn & Hw & Hfront & Hm).
  pose proof (WriteWithEvict_fits rb h key value Hs) as HW. cbv zeta in HW.
  rewrite Hw in HW. exists n.
  destruct (Z.ltb_spec (rb_capacity rb) (rb_tail rb + entry_size key value)).
  all: eexists _, _; split_and!; [done|exact HW| | |done].
  all: try (eapply WriteWithEvict_reads_back; [apply Hun|done|exact HW]).
  all: intros j hj k v Hnj Hj HR; eapply survivor_readable; [exact Hun|done|done| |done..].
  - right. split; [done|]. intros Hlt. by apply Hfront.
  - by left.
Qed.

Lemma fifo_example_unwrapped :
  let rb := (WriteWithEvict (mkRing (replicate 96 x00) 96 0 0 0 0 0)
               (mkHeader 0 7 1 3 0 0) [x61] [x62; x63; x64]).2 in
  unwrapped rb [mkHeader 0 7 1 3 0 0].
Proof.
  split.
  - vm_compute. split; simpl; lia.
  - vm_compute. split_and!; [reflexivity|discriminate|exact I].
  - reflexivity.
  - reflexivity.
Defined.

Lemma WriteWithEvict_fifo_witness :
  let rb := (WriteWithEvict (mkRing (replicate 96 x00) 96 0 0 0 0 0)
               (mkHeader 0 7 1 3 0 0) [x61] [x62; x63; x64]).2 in
  ∃ n off rb', WriteWithEvict rb (mkHeader 0 9 1 1 0 0) [x65] [x66]
    = (inr (off, chain_evicted (rb_head rb) (take n [mkHeader 0 7 1 3 0 0])), rb') ∧
    ReadAt rb' off = inr ([x65], [x66], mkHeader 0 9 1 1 0 0).
Proof.
  destruct (WriteWithEvict_fifo _ _ (mkHeader 0 9 1 1 0 0) [x65] [x66] fifo_example_unwrapped)
    as (n & off & rb' & _ & HW & HR & _).
  - unfold header_for, header_ok, is_i64, is_u64, is_u16; simpl; lia.
  - vm_compute. discriminate.
  - exists n, off, rb'. split; [exact HW|exact HR].
Defined.

(** Without wrapping, the abstract queue gains the new entry at its end. *)
Lemma readHeaderAt_data rb rb' pos h :
  rb_capacity rb' = rb_capacity rb →
  slice (rb_data rb') (Z.to_nat pos) 24 = slice (rb_data rb) (Z.to_nat pos) 24 →
  readHeaderAt rb pos = Some h → readHeaderAt rb' pos = Some h.
Proof.
  intros Hc Hs. unfold readHeaderAt. rewrite Hc. destruct (_ || _); [done|].
  by rewrite (UnmarshalFrom_slice (rb_data rb')), (UnmarshalFrom_slice (rb_data rb)), Hs.
Qed.

Lemma chain_frame rb rb' pos es :
  rb_capacity rb' = rb_capacity rb →
  (∀ o : nat, pos ≤ Z.of_nat o → Z.of_nat o + headerSize ≤ pos + chain_size es →
     slice (rb_data rb') o 24 = slice (rb_data rb) o 24) →
  chain rb pos es → chain rb' pos es.
Proof.
  intros Hc. revert pos. induction es as [|h es IH]; intros pos Hs; simpl; [done|].
  intros (Hr & Hb & Hch). pose proof (readHeaderAt_Some _ _ _ Hr) as (? & ? & ?).
  pose proof (chain_size_nonneg _ _ _ Hch). unfold headerSize in *. simpl in Hs.
  split_and!; [|by rewrite Hc|].
  - eapply readHeaderAt_data; [done| |done]. apply Hs; lia.
  - apply IH; [|done]. intros o Ho1 Ho2. apply Hs; lia.
Qed.

(** Refinement to a queue: while the write position does not wrap, writing an
    entry takes the queue [es] of live entries to [drop n es ++ [h]]. *)
Theorem WriteWithEvict_queue rb es h key value :
  unwrapped rb es → header_for h key value →
  rb_tail rb + entry_size key value ≤ rb_capacity rb →
  ∃ n off rb', (n ≤ length es)%nat ∧
    WriteWithEvict rb h key value = (inr (off, chain_evicted (rb_head rb) (take n es)), rb') ∧
    unwrapped rb' (drop n es ++ [h]).
Proof.
  intros Hun Hh Hs. pose proof Hun as [Hwf Hc Hu Ht]. pose proof Hwf as [Hl Hcap Hhd Htl Hus].
  assert (entry_size key value ≤ rb_capacity rb) as Hs' by lia.
  destruct (write_state_unwrapped rb es _ Hun Hs') as (n & Hn & Hw & _ & _).
  pose proof (WriteWithEvict_fits rb h key value Hs') as HW. cbv zeta in HW. rewrite Hw in HW.
  pose proof (WriteWithEvict_wf rb h key value Hwf) as Hsafe.
  pose proof (proj2 (Z.ltb_ge _ _) Hs) as Hlt. rewrite Hlt in HW.
  rewrite HW in Hsafe. destruct Hsafe as (_ & _ & Hwf' & _).
  pose proof (WriteWithEvict_reads_back _ _ _ _ _ _ _ Hwf Hh HW) as HR.
  eexists n, _, _. split_and!; [done|exact HW|].
  assert (headerEntrySize h = entry_size key value) as Hsz.
  { destruct Hh as (_ & Hk & Hv). unfold headerEntrySize, entry_size. lia. }
  assert (headerSize ≤ entry_size key value) by (unfold entry_size; lia).
  pose proof (chain_size_drop es n) as Hdrop.
  pose proof (chain_drop _ _ _ n Hc) as Hcd. pose proof (chain_size_nonneg _ _ _ Hcd).
  unfold headerSize in *.
  assert (norm (rb_capacity rb) (rb_head rb + chain_size (take n es)) =
          rb_head rb + chain_size (take n es)) as Hnorm by (apply norm_small; lia).
  assert (0 ≤ chain_size (take n es)).
  { rewrite <-(take_drop n es), chain_app in Hc. destruct Hc as [Hc _]. by eapply chain_size_nonneg. }
  split; [done| | |].
  - simpl. rewrite Hnorm. apply chain_app. split.
    + eapply (chain_frame rb); [done| |done]. intros o Ho1 Ho2.
      simpl. apply slice_put_entry_old; unfold headerSize in *; lia.
    + rewrite Hdrop. simpl.
      replace (rb_head rb + chain_size (take n es) + (chain_size es - chain_size (take n es)))
        with (rb_tail rb) by lia.
      split_and!; [by eapply ReadAt_header|simpl; lia|done].
  - simpl. rewrite chain_size_app, Hdrop. simpl. lia.
  - simpl. rewrite Hnorm, chain_size_app, Hdrop. simpl. lia.
Qed.

Lemma WriteWithEvict_queue_witness :
  let rb := (WriteWithEvict (mkRing (replicate 96 x00) 96 0 0 0 0 0)
               (mkHeader 0 7 1 3 0 0) [x61] [x62; x63; x64]).2 in
  ∃ n rb', (WriteWithEvict rb (mkHeader 0 9 1 1 0 0) [x65] [x66]).2 = rb' ∧
    unwrapped rb' (drop n [mkHeader 0 7 1 3 0 0] ++ [mkHeader 0 9 1 1 0 0]).
Proof.
  destruct (WriteWithEvict_queue _ _ (mkHeader 0 9 1 1 0 0) [x65] [x66] fifo_example_unwrapped)
    as (n & off & rb' & _ & HW & Hun).
  - unfold header_for, header_ok, is_i64, is_u64, is_u16; simpl; lia.
  - vm_compute. discriminate.
  - exists n, rb'. split; [by rewrite HW|exact Hun].
Defined.

(** ** Updating in place *)

(** [UpdateInPlace] of an entry that lies in the array does not panic. It answers
    [true] only when the new entry is no larger than the entry whose header is at
    [offset]; the new entry is then readable there, and
    nothing outside the old entry's bytes and no cursor changes. Otherwise the
    buffer is unchanged. *)
Theorem UpdateInPlace_correct rb offset h key value old :
  length (rb_data rb) = Z.to_nat (rb_capacity rb) →
  header_for h key value →
  readHeaderAt rb offset = Some old →
  offset + headerEntrySize old ≤ rb_capacity rb →
  match UpdateInPlace rb offset h key value with
  | Some (true, rb') =>
      entry_size key value ≤ headerEntrySize old ∧
      ReadAt rb' offset = inr (key, value, h) ∧
      (rb_head rb', rb_tail rb', rb_used rb', rb_capacity rb') =
      (rb_head rb, rb_tail rb, rb_used rb, rb_capacity rb) ∧
      ∀ i : nat, (Z.of_nat i < offset ∨ offset + headerEntrySize old ≤ Z.of_nat i) →
        rb_data rb' !! i = rb_data rb !! i
  | Some (false, rb') => headerEntrySize old < entry_size key value ∧ rb' = rb
  | None => False
  end.
Proof.
  intros Hl Hh Hold Hb. pose proof (readHeaderAt_Some _ _ _ Hold) as (Ho & Ho2 & _).
  unfold UpdateInPlace, readHeaderAt in *.
  destruct ((offset <? 0) || (rb_capacity rb <? offset + headerSize)) eqn:E; [lia|].
  injection Hold as ->.
  destruct (Z.ltb_spec (headerEntrySize old) (entry_size key value)); [done|].
  rewrite (proj2 (Z.ltb_ge _ _)) by (unfold entry_size in *; lia). split_and!; [done| |done|].
  - eapply (ReadAt_put_entry rb); simpl; [done|done|lia|done..].
  - intros i Hi. apply lookup_put_entry_old; lia.
Qed.

Lemma UpdateInPlace_correct_witness :
  let rb := (WriteWithEvict (mkRing (replicate 96 x00) 96 0 0 0 0 0)
               (mkHeader 0 7 1 3 0 0) [x61] [x62; x63; x64]).2 in
  match UpdateInPlace rb 0 (mkHeader 0 7 1 1 0 0) [x61] [x7a] with
  | Some (true, rb') => ReadAt rb' 0 = inr ([x61], [x7a], mkHeader 0 7 1 1 0 0)
  | _ => False
  end.
Proof.
  set (rb := (WriteWithEvict _ _ _ _).2). cbv zeta.
  pose proof (UpdateInPlace_correct rb 0 (mkHeader 0 7 1 1 0 0) [x61] [x7a] (mkHeader 0 7 1 3 0 0)) as H.
  destruct (UpdateInPlace rb 0 (mkHeader 0 7 1 1 0 0) [x61] [x7a]) as [[[|] rb']|] eqn:E.
  - destruct H as (_ & HR & _); [..|exact HR].
    + reflexivity.
    + unfold header_for, header_ok, is_i64, is_u64, is_u16; simpl; lia.
    + reflexivity.
    + vm_compute. discriminate.
  - vm_compute in E. discriminate.
  - vm_compute in E. discriminate.
Defined.

(** ** Wrapping leaves a gap that the accounting forgets *)

(** When the write position goes back to the front, the bytes between the old
    position and the end of the array stay unused, but [used] does not count
    them. So on a wrapped buffer whose free bytes [head - tail] are fewer than the
    entry needs, while [capacity - used] are enough, the write reports no eviction
    and stores its last bytes over the entry at [head]. *)
Theorem WriteWithEvict_gap_overwrites rb h key value :
  ring_wf rb →
  rb_tail rb < rb_head rb →
  rb_used rb + entry_size key value ≤ rb_capacity rb →
  rb_head rb < rb_tail rb + entry_size key value ≤ rb_capacity rb →
  ∃ rb', WriteWithEvict rb h key value = (inr (rb_tail rb, []), rb') ∧
    rb_head rb' = rb_head rb ∧
    slice (rb_data rb') (Z.to_nat (rb_head rb))
      (Z.to_nat (rb_tail rb + entry_size key value - rb_head rb)) =
    drop (Z.to_nat (rb_head rb - rb_tail rb)) (header_bytes h ++ key ++ value).
Proof.
  intros [Hl Hc Hh Ht Hu] Hw Hs Ho. eexists. split.
  - unfold WriteWithEvict, evict_fuel, evict_while, need_space. cbn [es_used es_tail es_evicted es_head].
    destruct (Z.ltb_spec (rb_capacity rb) (entry_size key value)); [lia|].
    destruct (Z.ltb_spec (rb_capacity rb - rb_used rb) (entry_size key value)); [lia|].
    cbn [es_used es_tail es_evicted es_head].
    destruct (Z.ltb_spec (rb_capacity rb) (rb_tail rb + entry_size key value)); [lia|].
    reflexivity.
  - cbn [rb_head rb_data es_tail es_head]. split; [done|].
    pose proof (slice_put_entry_all (rb_data rb) (rb_tail rb) h key value ltac:(lia) ltac:(lia)) as Hall.
    rewrite <-Hall.
    replace (Z.to_nat (rb_head rb)) with (Z.to_nat (rb_tail rb) + Z.to_nat (rb_head rb - rb_tail rb))%nat by lia.
    rewrite <-(slice_slice _ _ (Z.to_nat (entry_size key value))) by lia.
    unfold slice at 1. apply take_ge.
    rewrite length_drop, Hall. pose proof (entry_bytes_length h key value). lia.
Qed.

(** Three writes reach such a state from an empty buffer (scaled down to 128
    bytes); the fourth gives the second entry, written without an expiry, one. *)
Definition gap_ring : RingBuffer :=
  let w rb n := (WriteWithEvict rb (mkHeader 0 n 1 (n - 25) 0 0) [x61] (replicate (Z.to_nat (n - 25)) x62)).2 in
  w (w (w (mkRing (replicate 128 x00) 128 0 0 0 0 0) 60) 60) 30.

Lemma WriteWithEvict_gap_overwrites_witness :
  ReadAt gap_ring 60 = inr ([x61], replicate 35 x62, mkHeader 0 60 1 35 0 0) ∧
  ∃ rb', WriteWithEvict gap_ring (mkHeader 0 34 1 9 0 0) [x61] (replicate 9 x7a) = (inr (30, []), rb') ∧
    ReadAt rb' 60 = inr ([x61], replicate 35 x62, mkHeader 0x7a7a7a7a 60 1 35 0 0).
Proof.
  split; [vm_compute; reflexivity|].
  destruct (WriteWithEvict_gap_overwrites gap_ring (mkHeader 0 34 1 9 0 0) [x61] (replicate 9 x7a))
    as (rb' & HW & _).
  - split; vm_compute; intuition discriminate.
  - vm_compute. reflexivity.
  - vm_compute. discriminate.
  - vm_compute. split; [reflexivity|discriminate].
  - exists rb'. split; [exact HW|]. apply (f_equal snd) in HW. cbn [snd] in HW. rewrite <-HW.
    vm_compute. reflexivity.
Defined.
