(* ===== verification/TinyLfu.v ===== *)
(** * Frequency estimation: [internal/engine/memory/tinylfu.go]

    The count-min sketch of 4-bit counters, the doorkeeper filter in front of it
    and the admission policy. The striped locks serialize the operations and are
    not modelled. Out-of-range indexing is a Go panic and is [None] here. *)

From S2P Require Import Prelude.
From stdpp Require Import options.

Definition cmSketchDepth : nat := 4.
Definition cmSketchDefaultWidth : Z := Z.shiftl 1 16.
Definition counterMax : Z := 15.
Definition resetThreshold : Z := Z.shiftl 1 20.
Definition doorkeeperDefaultWidth : Z := Z.shiftl 1 16.
Definition doorkeeperResetEvery : Z := Z.shiftl 1 20.

Definition nextPowerOf2 (n : Z) : Z :=
  if n <=? 1 then 1
  else
    let n := n - 1 in
    let n := Z.lor n (Z.shiftr n 1) in
    let n := Z.lor n (Z.shiftr n 2) in
    let n := Z.lor n (Z.shiftr n 4) in
    let n := Z.lor n (Z.shiftr n 8) in
    let n := Z.lor n (Z.shiftr n 16) in
    let n := Z.lor n (Z.shiftr n 32) in
    i64 (n + 1).

(** ** Count-min sketch *)

Record CountMinSketch := mkCMS {
  cms_rows : list (list Z);
  cms_seeds : list Z;
  cms_mask : Z;
  cms_additions : Z
}.

Definition NewCountMinSketch (width : Z) : CountMinSketch :=
  let width := if width <=? 0 then cmSketchDefaultWidth else width in
  let width := nextPowerOf2 width in
  let byteSize := width / 2 in
  mkCMS (replicate cmSketchDepth (replicate (Z.to_nat byteSize) 0))
    ((λ i : Z, u64 (u64 (i + 1) * 0xc4ceb9fe1a85ec53)) <$> seqZ 0 (Z.of_nat cmSketchDepth))
    (u64 (width - 1)) 0.

Definition cms_pos (hash seed mask : Z) : Z := Z.land (Z.lxor hash seed) mask.

(** The 4-bit counter at [pos] of a byte: [(b >> ((pos & 1) << 2)) & 0x0F]. *)
Definition nibble (b pos : Z) : Z := Z.land (Z.shiftr b (Z.shiftl (Z.land pos 1) 2)) 0x0F.

(** The body of the loop of [Increment] on one row. *)
Definition row_increment (row : list Z) (pos : Z) : option (list Z) :=
  let idx := Z.to_nat (Z.shiftr pos 1) in
  let shift := Z.shiftl (Z.land pos 1) 2 in
  b ← row !! idx;
  let val := nibble b pos in
  Some (if val <? counterMax then <[idx := u8 (b + Z.shiftl 1 shift)]> row else row).

Fixpoint rows_increment (hash mask : Z) (rows : list (list Z)) (seeds : list Z)
    : option (list (list Z)) :=
  match rows, seeds with
  | row :: rows', seed :: seeds' =>
      row' ← row_increment row (cms_pos hash seed mask);
      rest ← rows_increment hash mask rows' seeds';
      Some (row' :: rest)
  | _, _ => Some rows
  end.

(** [reset]: [c.rows[i][j] = (c.rows[i][j] >> 1) & 0x77]. *)
Definition CountMinSketch_reset (c : CountMinSketch) : CountMinSketch :=
  mkCMS (map (map (λ b, Z.land (Z.shiftr b 1) 0x77)) (cms_rows c)) (cms_seeds c) (cms_mask c) 0.

Definition CountMinSketch_Increment (c : CountMinSketch) (hash : Z) : option CountMinSketch :=
  rows ← rows_increment hash (cms_mask c) (cms_rows c) (cms_seeds c);
  let c' := mkCMS rows (cms_seeds c) (cms_mask c) (cms_additions c + 1) in
  Some (if resetThreshold <=? cms_additions c' then CountMinSketch_reset c' else c').

Fixpoint rows_estimate (hash mask min : Z) (rows : list (list Z)) (seeds : list Z) : option Z :=
  match rows, seeds with
  | row :: rows', seed :: seeds' =>
      let pos := cms_pos hash seed mask in
      b ← row !! Z.to_nat (Z.shiftr pos 1);
      let val := nibble b pos in
      rows_estimate hash mask (if val <? min then val else min) rows' seeds'
  | _, _ => Some min
  end.

Definition CountMinSketch_Estimate (c : CountMinSketch) (hash : Z) : option Z :=
  rows_estimate hash (cms_mask c) counterMax (cms_rows c) (cms_seeds c).

Definition CountMinSketch_Clear (c : CountMinSketch) : CountMinSketch :=
  mkCMS (map (map (λ _, 0)) (cms_rows c)) (cms_seeds c) (cms_mask c) 0.

(** ** Doorkeeper *)

Record Doorkeeper := mkDoor {
  dk_bits : list Z;
  dk_mask : Z;
  dk_additions : Z;
  dk_resetEvery : Z
}.

Definition NewDoorkeeper (width : Z) : Doorkeeper :=
  let width := if width <=? 0 then doorkeeperDefaultWidth else width in
  let width := nextPowerOf2 width in
  let wordCount := Z.shiftr width 6 in
  let wordCount := if wordCount =? 0 then 1 else wordCount in
  mkDoor (replicate (Z.to_nat wordCount) 0) (u64 (width - 1)) 0 doorkeeperResetEvery.

Definition Doorkeeper_reset (d : Doorkeeper) : Doorkeeper :=
  mkDoor (map (λ _, 0) (dk_bits d)) (dk_mask d) 0 (dk_resetEvery d).

Definition dk_pos1 (d : Doorkeeper) (hash : Z) : Z := Z.land hash (dk_mask d).
Definition dk_pos2 (d : Doorkeeper) (hash : Z) : Z :=
  Z.land (Z.lxor (Z.shiftr hash 17) (u64 (hash * 0x9e3779b97f4a7c15))) (dk_mask d).

(** [d.bits[pos >> 6] & (1 << (pos & 63)) != 0] *)
Definition dk_test (bits : list Z) (pos : Z) : option bool :=
  w ← bits !! Z.to_nat (Z.shiftr pos 6);
  Some (negb (Z.land w (Z.shiftl 1 (Z.land pos 63)) =? 0)).

(** [d.bits[pos >> 6] |= 1 << (pos & 63)] *)
Definition dk_set (bits : list Z) (pos : Z) : option (list Z) :=
  w ← bits !! Z.to_nat (Z.shiftr pos 6);
  Some (<[Z.to_nat (Z.shiftr pos 6) := Z.lor w (Z.shiftl 1 (Z.land pos 63))]> bits).

(** The two branches of the source differ only in the locks they take. *)
Definition Doorkeeper_Allow (d : Doorkeeper) (hash : Z) : option (bool * Doorkeeper) :=
  let pos1 := dk_pos1 d hash in
  let pos2 := dk_pos2 d hash in
  s1 ← dk_test (dk_bits d) pos1;
  s2 ← dk_test (dk_bits d) pos2;
  bits1 ← dk_set (dk_bits d) pos1;
  bits2 ← dk_set bits1 pos2;
  let d' := mkDoor bits2 (dk_mask d) (dk_additions d + 1) (dk_resetEvery d) in
  Some (s1 && s2, if dk_resetEvery d' <=? dk_additions d' then Doorkeeper_reset d' else d').

Definition Doorkeeper_Clear (d : Doorkeeper) : Doorkeeper := Doorkeeper_reset d.

(** ** TinyLFU *)

Record TinyLFU := mkLFU { lfu_sketch : CountMinSketch; lfu_door : Doorkeeper }.

Definition NewTinyLFU (counterWidth : Z) : TinyLFU :=
  mkLFU (NewCountMinSketch counterWidth) (NewDoorkeeper counterWidth).

Definition TinyLFU_RecordAccess (t : TinyLFU) (hash : Z) : option TinyLFU :=
  '(seen, door) ← Doorkeeper_Allow (lfu_door t) hash;
  if (seen : bool) then
    sketch ← CountMinSketch_Increment (lfu_sketch t) hash; Some (mkLFU sketch door)
  else Some (mkLFU (lfu_sketch t) door).

Definition TinyLFU_AllowAdmission (t : TinyLFU) (hash : Z) : option (bool * TinyLFU) :=
  '(seen, door) ← Doorkeeper_Allow (lfu_door t) hash; Some (seen, mkLFU (lfu_sketch t) door).

Definition TinyLFU_Admit (t : TinyLFU) (candidateHash victimHash : Z) : option bool :=
  candidateFreq ← CountMinSketch_Estimate (lfu_sketch t) candidateHash;
  victimFreq ← CountMinSketch_Estimate (lfu_sketch t) victimHash;
  Some (victimFreq <=? candidateFreq).

Definition TinyLFU_Frequency (t : TinyLFU) (hash : Z) : option Z :=
  CountMinSketch_Estimate (lfu_sketch t) hash.

Definition TinyLFU_Clear (t : TinyLFU) : TinyLFU :=
  mkLFU (CountMinSketch_Clear (lfu_sketch t)) (Doorkeeper_Clear (lfu_door t)).

(** ** [nextPowerOf2] *)

(** [m] is [n] smeared to the right over [k] positions. *)
Definition smeared (n k m : Z) : Prop :=
  ∀ i, 0 ≤ i → Z.testbit m i = true ↔ ∃ j, 0 ≤ j < k ∧ Z.testbit n (i + j) = true.

Lemma smeared_1 n : smeared n 1 n.
Proof.
  intros i Hi. split; [intros H; exists 0; by rewrite Z.add_0_r|].
  intros (j & Hj & H). replace j with 0 in H by lia. by rewrite Z.add_0_r in H.
Qed.

Lemma smeared_double n k m :
  0 ≤ k → smeared n k m → smeared n (k + k) (Z.lor m (Z.shiftr m k)).
Proof.
  intros Hk Hm i Hi. rewrite Z.lor_spec, Z.shiftr_spec, orb_true_iff by done.
  rewrite (Hm i), (Hm (i + k)) by lia. split.
  - intros [(j & Hj & H)|(j & Hj & H)]; [exists j; split; [lia|done]|].
    exists (k + j). split; [lia|]. by rewrite Z.add_assoc.
  - intros (j & Hj & H). destruct (decide (j < k)); [left; exists j; auto with lia|].
    right. exists (j - k). split; [lia|]. by replace (i + k + (j - k)) with (i + j) by lia.
Qed.

(** Smearing over the whole width fills every bit below the highest one. *)
Lemma smeared_full n m : 0 < n < 2 ^ 64 → 0 ≤ m → smeared n 64 m → m = Z.ones (Z.log2 n + 1).
Proof.
  intros Hn Hm Hs. pose proof (Z.log2_nonneg n).
  assert (Z.log2 n < 64) by (apply Z.log2_lt_pow2; lia).
  apply Z.bits_inj'. intros i Hi.
  destruct (Z.leb_spec i (Z.log2 n)).
  - rewrite Z.ones_spec_low by lia. apply Hs; [done|]. exists (Z.log2 n - i). split; [lia|].
    replace (i + (Z.log2 n - i)) with (Z.log2 n) by lia. apply Z.bit_log2. lia.
  - rewrite Z.ones_spec_high by lia. apply not_true_iff_false. rewrite (Hs i Hi).
    intros (j & Hj & Hb). rewrite Z.bits_above_log2 in Hb by lia. done.
Qed.

(** [nextPowerOf2] returns the smallest power of two that is at least [n], for
    every [n] whose result fits an [int]. *)
Lemma nextPowerOf2_correct n :
  n ≤ 2 ^ 62 → nextPowerOf2 n = 2 ^ Z.log2_up n.
Proof.
  intros Hn. unfold nextPowerOf2. destruct (Z.leb_spec n 1) as [H1|H1].
  { by rewrite Z.log2_up_eqn0. }
  set (m := Z.lor _ (Z.shiftr _ 32)).
  assert (smeared (n - 1) 64 m) as Hm.
  { unfold m. do 6 (apply (smeared_double (n - 1)); [lia|]). apply smeared_1. }
  assert (0 ≤ m) as Hpos.
  { unfold m. repeat (apply Z.lor_nonneg; split; [|apply Z.shiftr_nonneg]); try lia.
    all: repeat (apply Z.lor_nonneg; split; [|apply Z.shiftr_nonneg]); lia. }
  rewrite (smeared_full (n - 1) m) by (done || lia).
  rewrite Z.ones_equiv, Z.log2_up_eqn by lia. unfold Z.pred, Z.succ.
  rewrite Z.sub_1_r.
  replace (2 ^ (Z.log2 (Z.pred n) + 1) + -1 + 1) with (2 ^ (Z.log2 (Z.pred n) + 1)) by lia.
  assert (Z.log2 (Z.pred n) ≤ 61) by (apply Z.lt_succ_r, Z.log2_lt_pow2; lia).
  rewrite i64_id; [done|]. unfold is_i64. pose proof (Z.log2_nonneg (Z.pred n)). split.
  - pose proof (Z.pow_nonneg 2 (Z.log2 (Z.pred n) + 1)). lia.
  - apply Z.pow_lt_mono_r; lia.
Qed.

(** ** The sketch never underestimates *)

Definition byte_ok (b : Z) : Prop := 0 ≤ b < 256.

(** The counter of a row at a position. *)
Definition row_count (row : list Z) (pos : Z) : option Z :=
  b ← row !! Z.to_nat (Z.shiftr pos 1); Some (nibble b pos).

Definition row_ok (mask : Z) (row : list Z) : Prop :=
  mask / 2 < Z.of_nat (length row) ∧ Forall byte_ok row.

Record sketch_wf (c : CountMinSketch) : Prop := {
  sk_len : length (cms_seeds c) = length (cms_rows c);
  sk_mask : 0 ≤ cms_mask c;
  sk_rows : Forall (row_ok (cms_mask c)) (cms_rows c)
}.

Lemma nibble_bit b pos : nibble b pos = nibble b (Z.land pos 1).
Proof. unfold nibble. by rewrite <-Z.land_assoc. Qed.

Lemma land_1_cases pos : Z.land pos 1 = 0 ∨ Z.land pos 1 = 1.
Proof.
  pose proof (Z.land_ones pos 1 ltac:(lia)) as H. change (Z.ones 1) with 1 in H.
  rewrite H. pose proof (Z.mod_pos_bound pos (2 ^ 1)). lia.
Qed.

Lemma nibble_range b pos : 0 ≤ nibble b pos ≤ counterMax.
Proof.
  unfold nibble. change 0x0F with (Z.ones 4). rewrite Z.land_ones by lia. unfold counterMax.
  pose proof (Z.mod_pos_bound (Z.shiftr b (Z.shiftl (Z.land pos 1) 2)) (2 ^ 4)). lia.
Qed.

(** Adding one to a counter below 15 carries into nothing. *)
Lemma nibble_bump b pos q :
  byte_ok b → nibble b pos < counterMax →
  let b' := u8 (b + Z.shiftl 1 (Z.shiftl (Z.land pos 1) 2)) in
  byte_ok b' ∧
  nibble b' q = if Z.land pos 1 =? Z.land q 1 then nibble b q + 1 else nibble b q.
Proof.
  intros Hb Hn b'. unfold byte_ok in *.
  set (test := λ p r b : Z, implb (nibble b p <? counterMax)
    (nibble (u8 (b + Z.shiftl 1 (Z.shiftl p 2))) r =? (if p =? r then nibble b r + 1 else nibble b r))).
  assert (∀ p r, (p = 0 ∨ p = 1) → (r = 0 ∨ r = 1) → test p r b = true) as H.
  { intros p r [-> | ->] [-> | ->]; clear Hn b'; revert b Hb;
      apply forallb_seqZ; vm_compute; reflexivity. }
  split; [apply Z.mod_pos_bound; lia|].
  rewrite (nibble_bit b' q), (nibble_bit b q). rewrite nibble_bit in Hn.
  specialize (H _ _ (land_1_cases pos) (land_1_cases q)). unfold test in H.
  rewrite (proj2 (Z.ltb_lt _ _) Hn) in H. by apply Z.eqb_eq in H.
Qed.

Lemma row_lookup mask row pos :
  row_ok mask row → 0 ≤ pos ≤ mask → ∃ b, row !! Z.to_nat (Z.shiftr pos 1) = Some b ∧ byte_ok b.
Proof.
  intros [Hl Hb] Hp.
  assert (Z.to_nat (Z.shiftr pos 1) < length row)%nat as Hlt.
  { rewrite Z.shiftr_div_pow2 by lia. change (2 ^ 1) with 2.
    assert (0 ≤ pos / 2 ≤ mask / 2) by (split; [apply Z.div_pos|apply Z.div_le_mono]; lia). lia. }
  apply lookup_lt_is_Some in Hlt as [b Hlk]. exists b. split; [done|].
  rewrite Forall_lookup in Hb. eauto.
Qed.

(** Positions are equal exactly when they share the byte and the nibble. *)
Lemma pos_split p q : 0 ≤ p → 0 ≤ q →
  Z.to_nat (Z.shiftr p 1) = Z.to_nat (Z.shiftr q 1) → Z.land p 1 = Z.land q 1 → p = q.
Proof.
  intros Hp Hq He Hl. pose proof (Z.shiftr_nonneg p 1). pose proof (Z.shiftr_nonneg q 1).
  assert (Z.shiftr p 1 = Z.shiftr q 1) as H' by (apply Z2Nat.inj; tauto || lia).
  pose proof (Z.land_ones p 1 ltac:(lia)). pose proof (Z.land_ones q 1 ltac:(lia)).
  change (Z.ones 1) with 1 in *. change (2 ^ 1) with 2 in *.
  rewrite !Z.shiftr_div_pow2 in H' by lia. change (2 ^ 1) with 2 in *.
  rewrite (Z.div_mod p 2), (Z.div_mod q 2) by lia. congruence.
Qed.

Lemma row_increment_spec mask row pos :
  row_ok mask row → 0 ≤ pos ≤ mask →
  ∃ row', row_increment row pos = Some row' ∧ row_ok mask row' ∧
    ∀ q, 0 ≤ q → row_count row' q =
      if q =? pos then (λ c, Z.min counterMax (c + 1)) <$> row_count row q else row_count row q.
Proof.
  intros Hrow Hp. destruct (row_lookup mask row pos Hrow Hp) as (b & Hb & Hbo).
  unfold row_increment. rewrite Hb. cbn [mbind option_bind].
  pose proof (nibble_range b pos) as Hr.
  destruct (Z.ltb_spec (nibble b pos) counterMax) as [Hlt|Hge]; eexists; split; [done| |done|].
  - pose proof (λ q, nibble_bump b pos q Hbo Hlt) as Hbump. cbv zeta in Hbump.
    set (b' := u8 _) in *. destruct Hrow as [Hl Hf]. split.
    + split; [by rewrite length_insert|]. apply Forall_insert; [done|]. apply (Hbump 0).
    + intros q Hq. unfold row_count.
      destruct (decide (Z.to_nat (Z.shiftr q 1) = Z.to_nat (Z.shiftr pos 1))) as [He|Hne].
      * rewrite He, list_lookup_insert_eq, Hb by (by eapply lookup_lt_Some). simpl.
        destruct (Hbump q) as [_ ->]. zcases; subst; try lia; try done.
        -- by rewrite Z.min_r by lia.
        -- exfalso. apply n. by apply pos_split; [lia..| |].
      * rewrite list_lookup_insert_ne by done. zcases; [by subst|done].
  - split; [done|]. intros q Hq. zcases; [subst q|done].
    unfold row_count. rewrite Hb. simpl. f_equal. lia.
Qed.

Lemma cms_pos_range hash seed mask : 0 ≤ mask → 0 ≤ cms_pos hash seed mask ≤ mask.
Proof.
  intros Hm. unfold cms_pos. split; [apply Z.land_nonneg; by right|].
  apply Z.ldiff_le; [done|]. apply Z.bits_inj'. intros n Hn.
  rewrite Z.ldiff_spec, Z.land_spec, Z.testbit_0_l.
  by destruct (Z.testbit _ n), (Z.testbit mask n).
Qed.

(** Every row counts each hash [h] at least [n h] times (up to saturation). *)
Definition counts_at_least (mask : Z) (n : Z → Z) (rows : list (list Z)) (seeds : list Z) : Prop :=
  Forall2 (λ row seed, ∀ h, ∃ c,
    row_count row (cms_pos h seed mask) = Some c ∧ Z.min counterMax (n h) ≤ c) rows seeds.

Definition bump (n : Z → Z) (x h : Z) : Z := if h =? x then n h + 1 else n h.

Lemma rows_increment_counts mask n x rows seeds :
  0 ≤ mask → Forall (row_ok mask) rows → counts_at_least mask n rows seeds →
  ∃ rows', rows_increment x mask rows seeds = Some rows' ∧ Forall (row_ok mask) rows' ∧
    counts_at_least mask (bump n x) rows' seeds.
Proof.
  intros Hm Hok Hc. induction Hc as [|row seed rows seeds Hrow Hc IH]; simpl.
  { exists []. split_and!; [done|done|constructor]. }
  inversion_clear Hok as [|?? Hr Hrs].
  destruct (row_increment_spec mask row (cms_pos x seed mask) Hr) as (row' & -> & Hr' & Hcount);
    [by apply cms_pos_range|].
  destruct (IH Hrs) as (rows' & -> & Hrs' & Hc'). simpl.
  exists (row' :: rows'). split_and!; [done|by constructor|]. constructor; [|done].
  intros h. destruct (Hrow h) as (c & Hch & Hle).
  rewrite Hcount by (by apply cms_pos_range). rewrite Hch. unfold bump.
  zcases; subst; simpl; eexists; (split; [done|]); try lia.
Qed.

Lemma rows_estimate_counts mask n h m rows seeds :
  counts_at_least mask n rows seeds → Z.min counterMax (n h) ≤ m →
  ∃ e, rows_estimate h mask m rows seeds = Some e ∧ Z.min counterMax (n h) ≤ e ≤ m.
Proof.
  intros Hc. revert m. induction Hc as [|row seed rows seeds Hrow Hc IH]; intros m Hm; simpl.
  { exists m. split; [done|lia]. }
  destruct (Hrow h) as (c & Hch & Hle). unfold row_count in Hch.
  destruct (row !! _) as [b|]; [|done]. simpl in *. injection Hch as Hch. rewrite Hch.
  destruct (Z.ltb_spec c m).
  - destruct (IH c Hle) as (e & He & Hb). exists e. split; [done|lia].
  - destruct (IH m Hm) as (e & He & Hb). exists e. split; [done|lia].
Qed.

Lemma counts_at_least_0 mask rows seeds :
  0 ≤ mask → Forall (row_ok mask) rows → length seeds = length rows →
  counts_at_least mask (λ _, 0) rows seeds.
Proof.
  intros Hm Hok Hl. apply Forall2_same_length_lookup_2; [done|].
  intros i row seed Hrow Hseed h. rewrite Forall_lookup in Hok. specialize (Hok _ _ Hrow).
  destruct (row_lookup mask row (cms_pos h seed mask) Hok) as (b & Hb & _);
    [by apply cms_pos_range|].
  exists (nibble b (cms_pos h seed mask)). unfold row_count. rewrite Hb. split; [done|].
  pose proof (nibble_range b (cms_pos h seed mask)). unfold counterMax in *. lia.
Qed.

(** A run of [Increment] calls. *)
Fixpoint increments (c : CountMinSketch) (l : list Z) : option CountMinSketch :=
  match l with
  | [] => Some c
  | h :: l' => c' ← CountMinSketch_Increment c h; increments c' l'
  end.

Definition occurrences (h : Z) (l : list Z) : Z := Z.of_nat (length (filter (λ x, x = h) l)).

Lemma increments_counts c l n :
  sketch_wf c → cms_additions c + Z.of_nat (length l) < resetThreshold →
  counts_at_least (cms_mask c) n (cms_rows c) (cms_seeds c) →
  ∃ c', increments c l = Some c' ∧
    counts_at_least (cms_mask c') (λ h, n h + occurrences h l) (cms_rows c') (cms_seeds c').
Proof.
  revert c n. induction l as [|x l IH]; intros c n [Hl Hm Hr] Ha Hc.
  { exists c. split; [done|]. eapply Forall2_impl; [done|]. intros row seed H h.
    unfold occurrences. simpl. rewrite Z.add_0_r. done. }
  cbn [increments length] in *. unfold CountMinSketch_Increment.
  destruct (rows_increment_counts _ n x _ _ Hm Hr Hc) as (rows' & Heq & Hr' & Hc'). rewrite Heq. simpl.
  destruct (Z.leb_spec resetThreshold (cms_additions c + 1)); [lia|].
  destruct (IH (mkCMS rows' (cms_seeds c) (cms_mask c) (cms_additions c + 1)) (bump n x))
    as (c' & Hinc & Hcc); simpl; [|lia|done|].
  { split; simpl; [|done|done]. rewrite (Forall2_length _ _ _ Hc'). done. }
  exists c'. split; [done|]. eapply Forall2_impl; [exact Hcc|]. intros row seed Hcs h.
  destruct (Hcs h) as (k & Hk & Hle). exists k. split; [done|]. etrans; [|exact Hle].
  unfold bump, occurrences. rewrite filter_cons.
  zcases; case_decide; simpl; subst; try done; lia.
Qed.

(** The count-min guarantee: between two resets the estimate of a hash is at
    least the number of times it was recorded (saturating at 15), and no
    operation indexes outside the sketch. *)
Theorem Estimate_never_underestimates c l h :
  sketch_wf c → cms_additions c + Z.of_nat (length l) < resetThreshold →
  ∃ c' e, increments c l = Some c' ∧ CountMinSketch_Estimate c' h = Some e ∧
    Z.min counterMax (occurrences h l) ≤ e ≤ counterMax.
Proof.
  intros Hwf Ha. pose proof Hwf as [Hl Hm Hr].
  destruct (increments_counts c l (λ _, 0) Hwf Ha) as (c' & Hinc & Hc).
  { by apply counts_at_least_0. }
  destruct (rows_estimate_counts _ _ h counterMax _ _ Hc) as (e & He & Hb); [lia|].
  exists c', e. split_and!; [done|done|lia..].
Qed.

Lemma NewCountMinSketch_wf width :
  2 ≤ width ≤ 2 ^ 62 → sketch_wf (NewCountMinSketch width).
Proof.
  intros Hw. unfold NewCountMinSketch.
  destruct (Z.leb_spec width 0); [lia|]. rewrite nextPowerOf2_correct by lia.
  assert (1 ≤ Z.log2_up width ≤ 62) as Hlog.
  { split; [apply (Z.log2_up_le_mono 2); lia|].
    rewrite <-(Z.log2_up_pow2 62) by lia. apply Z.log2_up_le_mono. lia. }
  set (k := Z.log2_up width) in *.
  assert (2 ≤ 2 ^ k ≤ 2 ^ 62) as Hk by (split; [apply (Z.pow_le_mono_r 2 1)|apply Z.pow_le_mono_r]; lia).
  assert (2 ^ k = 2 * (2 ^ k / 2)) as Hdiv.
  { replace k with (1 + (k - 1)) by lia. rewrite Z.pow_add_r by lia. change (2 ^ 1) with 2.
    rewrite Z.mul_comm, Z.div_mul by lia. lia. }
  split; cbn [cms_rows cms_seeds cms_mask].
  - reflexivity.
  - apply u64_range.
  - rewrite u64_id by (unfold is_u64; lia). apply Forall_replicate.
    split; [|by apply Forall_replicate].
    rewrite length_replicate, Z2Nat.id by lia.
    apply Z.div_lt_upper_bound; lia.
Qed.

Lemma Estimate_never_underestimates_witness :
  ∃ c' e, increments (NewCountMinSketch 8) [5; 9; 5; 5] = Some c' ∧
    CountMinSketch_Estimate c' 5 = Some e ∧ Z.min counterMax (occurrences 5 [5; 9; 5; 5]) ≤ e ≤ counterMax.
Proof.
  apply Estimate_never_underestimates; [apply NewCountMinSketch_wf; lia|vm_compute; reflexivity].
Defined.

(** ** Reset halves the counters *)

Lemma nibble_halve b pos :
  byte_ok b → nibble (Z.land (Z.shiftr b 1) 0x77) pos = nibble b pos / 2.
Proof.
  intros Hb. rewrite nibble_bit, (nibble_bit b). apply Z.eqb_eq.
  assert (∀ p, (p = 0 ∨ p = 1) →
    (nibble (Z.land (Z.shiftr b 1) 0x77) p =? nibble b p / 2) = true) as H; [|apply H, land_1_cases].
  intros p [-> | ->]; unfold byte_ok in Hb; revert b Hb; apply forallb_seqZ; vm_compute; reflexivity.
Qed.

(** [reset] halves every 4-bit counter and nothing leaks between the two
    counters of a byte. *)
Theorem reset_halves c k row pos n :
  sketch_wf c → cms_rows c !! k = Some row → row_count row pos = Some n →
  ∃ row', cms_rows (CountMinSketch_reset c) !! k = Some row' ∧ row_count row' pos = Some (n / 2).
Proof.
  intros [_ _ Hr] Hk Hn. eexists. split; [simpl; by rewrite list_lookup_fmap, Hk|].
  unfold row_count in *. rewrite list_lookup_fmap.
  destruct (row !! _) as [b|] eqn:Eb; [|done]. simpl in *. injection Hn as <-.
  rewrite nibble_halve; [done|].
  rewrite Forall_lookup in Hr. destruct (Hr _ _ Hk) as [_ Hf].
  rewrite Forall_lookup in Hf. eauto.
Qed.

Lemma reset_halves_witness :
  let c := mkCMS [[0xF6]] [0] 1 7 in
  ∃ row', cms_rows (CountMinSketch_reset c) !! 0%nat = Some row' ∧ row_count row' 1 = Some (15 / 2).
Proof.
  apply (reset_halves (mkCMS [[0xF6]] [0] 1 7) 0 [0xF6] 1 15); [|reflexivity|reflexivity].
  split; simpl; [done|lia|]. repeat constructor; simpl; unfold byte_ok; lia.
Defined.

(** ** The doorkeeper has no false negatives *)

Record door_wf (d : Doorkeeper) : Prop := {
  dw_mask : 0 ≤ dk_mask d;
  dw_bits : dk_mask d / 64 < Z.of_nat (length (dk_bits d))
}.

Definition bit_set (bits : list Z) (pos : Z) : Prop := dk_test bits pos = Some true.

Lemma shiftr_6 pos : Z.shiftr pos 6 = pos / 64.
Proof. by rewrite Z.shiftr_div_pow2. Qed.

Lemma dk_index mask (bits : list Z) pos :
  0 ≤ pos ≤ mask → mask / 64 < Z.of_nat (length bits) →
  is_Some (bits !! Z.to_nat (Z.shiftr pos 6)).
Proof.
  intros Hp Hl. apply lookup_lt_is_Some. rewrite shiftr_6.
  assert (0 ≤ pos / 64 ≤ mask / 64) by (split; [apply Z.div_pos|apply Z.div_le_mono]; lia). lia.
Qed.

Lemma dk_test_testbit w p :
  0 ≤ p → negb (Z.land w (Z.shiftl 1 p) =? 0) = Z.testbit w p.
Proof.
  intros Hp. rewrite Z.shiftl_1_l. destruct (Z.testbit w p) eqn:E.
  - zcases; [|done]. exfalso.
    assert (Z.testbit (Z.land w (2 ^ p)) p = true) as H by (rewrite Z.land_spec, E, Z.pow2_bits_true; done).
    rewrite e, Z.testbit_0_l in H. done.
  - zcases; [done|]. exfalso. apply n. apply Z.bits_inj'. intros i Hi.
    rewrite Z.land_spec, Z.testbit_0_l, Z.pow2_bits_eqb by done.
    zcases; subst; rewrite ?E, ?andb_false_r; done.
Qed.

Lemma dk_set_spec (bits : list Z) pos :
  is_Some (bits !! Z.to_nat (Z.shiftr pos 6)) →
  ∃ bits', dk_set bits pos = Some bits' ∧ length bits' = length bits ∧ bit_set bits' pos ∧
    ∀ q, bit_set bits q → bit_set bits' q.
Proof.
  intros [w Hw]. unfold dk_set. rewrite Hw. eexists. split; [done|].
  assert (∀ q, 0 ≤ Z.land q 63) as Hq by (intros; apply Z.land_nonneg; lia).
  split_and!; [by rewrite length_insert| |].
  - unfold bit_set, dk_test. rewrite list_lookup_insert_eq by (by eapply lookup_lt_Some). simpl.
    rewrite dk_test_testbit by done. rewrite Z.lor_spec, Z.shiftl_1_l, Z.pow2_bits_true by done.
    by rewrite orb_true_r.
  - intros q. unfold bit_set, dk_test.
    destruct (decide (Z.to_nat (Z.shiftr q 6) = Z.to_nat (Z.shiftr pos 6))) as [->|Hne].
    + rewrite Hw, list_lookup_insert_eq by (by eapply lookup_lt_Some). simpl.
      rewrite !dk_test_testbit, Z.lor_spec by done. intros [= ->]. done.
    + by rewrite list_lookup_insert_ne by done.
Qed.

Lemma land_mask_range x mask : 0 ≤ mask → 0 ≤ Z.land x mask ≤ mask.
Proof. intros Hm. pose proof (cms_pos_range x 0 mask Hm) as H. unfold cms_pos in H. by rewrite Z.lxor_0_r in H. Qed.

(** [Allow] below the reset threshold sets both bits of the hash, keeps all
    others, and answers whether both were set. *)
Lemma Allow_spec d hash :
  door_wf d → dk_additions d + 1 < dk_resetEvery d →
  ∃ s d', Doorkeeper_Allow d hash = Some (s, d') ∧ door_wf d' ∧ dk_mask d' = dk_mask d ∧
    dk_additions d' = dk_additions d + 1 ∧ dk_resetEvery d' = dk_resetEvery d ∧
    bit_set (dk_bits d') (dk_pos1 d hash) ∧ bit_set (dk_bits d') (dk_pos2 d hash) ∧
    (∀ q, bit_set (dk_bits d) q → bit_set (dk_bits d') q) ∧
    (bit_set (dk_bits d) (dk_pos1 d hash) → bit_set (dk_bits d) (dk_pos2 d hash) → s = true).
Proof.
  intros [Hm Hb] Ha.
  pose proof (land_mask_range hash _ Hm) as Hp1.
  pose proof (land_mask_range (Z.lxor (Z.shiftr hash 17) (u64 (hash * 0x9e3779b97f4a7c15))) _ Hm) as Hp2.
  fold (dk_pos1 d hash) in Hp1. fold (dk_pos2 d hash) in Hp2.
  pose proof (dk_index _ _ _ Hp1 Hb) as Hi1. pose proof (dk_index _ _ _ Hp2 Hb) as Hi2.
  destruct (dk_set_spec _ _ Hi1) as (bits1 & Hs1 & Hl1 & Hset1 & Hmono1).
  assert (is_Some (bits1 !! Z.to_nat (Z.shiftr (dk_pos2 d hash) 6))) as Hi2'.
  { eapply (dk_index (dk_mask d)); [done|]. by rewrite Hl1. }
  destruct (dk_set_spec _ _ Hi2') as (bits2 & Hs2 & Hl2 & Hset2 & Hmono2).
  unfold Doorkeeper_Allow, bit_set in *.
  destruct Hi1 as [w1 Hw1], Hi2 as [w2 Hw2]. unfold dk_test at 1 2. rewrite Hw1, Hw2. simpl.
  rewrite Hs1. simpl. rewrite Hs2. simpl.
  destruct (Z.leb_spec (dk_resetEvery d) (dk_additions d + 1)); [lia|].
  eexists _, _. split; [done|]. split_and!; simpl; auto.
  - split; simpl; [done|]. by rewrite Hl2, Hl1.
  - unfold dk_test. rewrite Hw1, Hw2. simpl. by intros [= ->] [= ->].
Qed.

Fixpoint allows (d : Doorkeeper) (l : list Z) : option Doorkeeper :=
  match l with
  | [] => Some d
  | h :: l' => '(_, d') ← Doorkeeper_Allow d h; allows d' l'
  end.

Lemma allows_spec d l :
  door_wf d → dk_additions d + Z.of_nat (length l) < dk_resetEvery d →
  ∃ d', allows d l = Some d' ∧ door_wf d' ∧ dk_mask d' = dk_mask d ∧
    dk_additions d' = dk_additions d + Z.of_nat (length l) ∧ dk_resetEvery d' = dk_resetEvery d ∧
    ∀ q, bit_set (dk_bits d) q → bit_set (dk_bits d') q.
Proof.
  revert d. induction l as [|h l IH]; intros d Hwf Ha.
  { exists d. simpl. split_and!; [done|done|done|lia|done|done]. }
  cbn [length] in Ha. destruct (Allow_spec d h Hwf) as (s & d1 & HA & Hwf1 & Hm1 & Ha1 & Hr1 & _ & _ & Hmono & _); [lia|].
  destruct (IH d1 Hwf1) as (d2 & HL & Hwf2 & Hm2 & Ha2 & Hr2 & Hmono2); [rewrite Hr1; lia|].
  exists d2. cbn [allows]. rewrite HA. simpl. rewrite HL.
  split_and!; [done|done|congruence|cbn [length]; lia|congruence|auto].
Qed.

(** Between two resets the doorkeeper recognises every hash it has been shown,
    whatever came in between. *)
Theorem Doorkeeper_no_false_negative d h l :
  door_wf d → dk_additions d + Z.of_nat (length l) + 2 < dk_resetEvery d →
  ∃ s d1 d2 d3, Doorkeeper_Allow d h = Some (s, d1) ∧ allows d1 l = Some d2 ∧
    Doorkeeper_Allow d2 h = Some (true, d3).
Proof.
  intros Hwf Ha.
  destruct (Allow_spec d h Hwf) as (s & d1 & HA & Hwf1 & Hm1 & Ha1 & Hr1 & Hb1 & Hb2 & _); [lia|].
  destruct (allows_spec d1 l Hwf1) as (d2 & HL & Hwf2 & Hm2 & Ha2 & Hr2 & Hmono); [rewrite Hr1; lia|].
  destruct (Allow_spec d2 h Hwf2) as (s' & d3 & HA' & _ & _ & _ & _ & _ & _ & _ & Hs); [rewrite Hr2, Hr1; lia|].
  unfold dk_pos1, dk_pos2 in *. rewrite Hm2, Hm1 in Hs.
  rewrite Hs in HA' by auto. eauto 10.
Qed.

Lemma Doorkeeper_no_false_negative_witness :
  ∃ s d1 d2 d3, Doorkeeper_Allow (mkDoor [0] 63 0 1000) 77 = Some (s, d1) ∧ allows d1 [3; 4] = Some d2 ∧
    Doorkeeper_Allow d2 77 = Some (true, d3).
Proof. apply Doorkeeper_no_false_negative; [split; [done|reflexivity]|reflexivity]. Defined.

(** A sketch of width 1 has no counter bytes at all: every access is an
    out-of-range panic. *)
Example width_one_panics hash : CountMinSketch_Estimate (NewCountMinSketch 1) hash = None.
Proof. reflexivity. Qed.
