(* ===== verification/Dict.v ===== *)
(** * The sharded dictionary: [internal/engine/memory/dict.go]

    A [Dict] is an array of Go maps; the shard of a key is its hash modulo the
    number of shards. [maphash.String(d.seed, key)] is a fixed function of the
    key for one dictionary, so the seed is modelled by that function. The
    reader-writer locks make every operation atomic; the instant at which an
    operation reads the clock is its argument [now]. *)

From S2P Require Import Prelude.
From stdpp Require Import options.

Definition defaultShardCount : Z := 256.

(** [*Entry]; the atomic fields are plain fields of the record. *)
Record Entry (V : Type) := mkEntry {
  e_Value : V;
  e_expireAt : Z;
  e_CreatedAt : Z;
  e_UpdatedAt : Z;
  e_lastAccess : Z;
  e_accessFreq : Z
}.
Arguments mkEntry {V}.
Arguments e_Value {V}.
Arguments e_expireAt {V}.
Arguments e_CreatedAt {V}.
Arguments e_UpdatedAt {V}.
Arguments e_lastAccess {V}.
Arguments e_accessFreq {V}.

Record Dict (V : Type) := mkDict {
  d_shards : list (gmap string (Entry V));
  d_shardCount : Z;
  d_seed : string → Z
}.
Arguments mkDict {V}.
Arguments d_shards {V}.
Arguments d_shardCount {V}.
Arguments d_seed {V}.

Section dict_code.
Context {V : Type}.
Implicit Types (d : Dict V) (e : Entry V).

Definition IsExpired (now : Z) (e : Entry V) : bool :=
  if e_expireAt e =? 0 then false else e_expireAt e <? now.

Definition SetExpireAt (e : Entry V) (t : Z) : Entry V :=
  mkEntry (e_Value e) t (e_CreatedAt e) (e_UpdatedAt e) (e_lastAccess e) (e_accessFreq e).

Definition UpdateAccessStats (now : Z) (e : Entry V) : Entry V :=
  mkEntry (e_Value e) (e_expireAt e) (e_CreatedAt e) (e_UpdatedAt e) now (u32 (e_accessFreq e + 1)).

(** Writing through the [*typedValue] an entry points to. *)
Definition SetValue (e : Entry V) (v : V) : Entry V :=
  mkEntry v (e_expireAt e) (e_CreatedAt e) (e_UpdatedAt e) (e_lastAccess e) (e_accessFreq e).

Definition NewDict (shardCount : Z) (seed : string → Z) : Dict V :=
  let shardCount := if shardCount <=? 0 then defaultShardCount else shardCount in
  mkDict (replicate (Z.to_nat shardCount) ∅) (u32 shardCount) seed.

Definition shard_index (d : Dict V) (key : string) : nat :=
  Z.to_nat (d_seed d key mod d_shardCount d).

Definition getShard (d : Dict V) (key : string) : gmap string (Entry V) :=
  default ∅ (d_shards d !! shard_index d key).

(** Replace the items of the shard of [key]. *)
Definition putShard (d : Dict V) (key : string) (items : gmap string (Entry V)) : Dict V :=
  mkDict (<[shard_index d key := items]> (d_shards d)) (d_shardCount d) (d_seed d).

Definition newEntry (now : Z) (value : V) (ttl : Z) : Entry V :=
  mkEntry value (if 0 <? ttl then i64 (now + ttl) else 0) now now now 1.

(** The body of the loop of [Del]. *)
Definition Dict_del1 (d : Dict V) (key : string) : bool * Dict V :=
  match getShard d key !! key with
  | Some _ => (true, putShard d key (delete key (getShard d key)))
  | None => (false, d)
  end.

Fixpoint Dict_Del (d : Dict V) (keys : list string) : Z * Dict V :=
  match keys with
  | [] => (0, d)
  | key :: keys' =>
      let '(deleted, d1) := Dict_del1 d key in
      let '(n, d2) := Dict_Del d1 keys' in
      ((if (deleted : bool) then 1 else 0) + n, d2)
  end.

Definition Dict_Get (now : Z) (d : Dict V) (key : string) : option (Entry V) * Dict V :=
  match getShard d key !! key with
  | None => (None, d)
  | Some entry =>
      if IsExpired now entry then (None, (Dict_Del d [key]).2)
      else
        let entry' := UpdateAccessStats now entry in
        (Some entry', putShard d key (<[key := entry']> (getShard d key)))
  end.

Definition Dict_SetEntry (d : Dict V) (key : string) (e : Entry V) : Dict V :=
  putShard d key (<[key := e]> (getShard d key)).

Definition Dict_Set (now : Z) (d : Dict V) (key : string) (value : V) (ttl : Z) : Dict V :=
  putShard d key (<[key := newEntry now value ttl]> (getShard d key)).

Definition Dict_SetNX (now : Z) (d : Dict V) (key : string) (value : V) (ttl : Z) : bool * Dict V :=
  let set := (true, putShard d key (<[key := newEntry now value ttl]> (getShard d key))) in
  match getShard d key !! key with
  | Some e => if IsExpired now e then set else (false, d)
  | None => set
  end.

Definition Dict_SetXX (now : Z) (d : Dict V) (key : string) (value : V) (ttl : Z) : bool * Dict V :=
  match getShard d key !! key with
  | Some e =>
      if IsExpired now e then (false, d)
      else (true, putShard d key (<[key := newEntry now value ttl]> (getShard d key)))
  | None => (false, d)
  end.

Fixpoint Dict_Exists (now : Z) (d : Dict V) (keys : list string) : Z * Dict V :=
  match keys with
  | [] => (0, d)
  | key :: keys' =>
      let '(o, d1) := Dict_Get now d key in
      let '(n, d2) := Dict_Exists now d1 keys' in
      ((if o then 1 else 0) + n, d2)
  end.

(** [matchPattern]; [path.Match] is the argument [path_match]. *)
Definition matchPattern (path_match : string → string → bool) (pattern key : string) : bool :=
  if bool_decide (pattern = "*") then true else path_match pattern key.

Definition Dict_Keys `{!GoRange string (Entry V)} (path_match : string → string → bool)
    (now : Z) (d : Dict V) (pattern : string) : list string :=
  concat ((λ items, (filter (λ kv, negb (IsExpired now kv.2) && matchPattern path_match pattern kv.1 = true)
                       (go_range items)).*1) <$> d_shards d).

Definition Dict_Len (d : Dict V) : Z :=
  foldr (λ items n, Z.of_nat (size items) + n) 0 (d_shards d).

Definition Dict_Expire (now : Z) (d : Dict V) (key : string) (ttl : Z) : bool * Dict V :=
  match getShard d key !! key with
  | None => (false, d)
  | Some entry =>
      if IsExpired now entry then (false, d)
      else
        let t := if 0 <? ttl then i64 (now + ttl) else 0 in
        (true, putShard d key (<[key := SetExpireAt entry t]> (getShard d key)))
  end.

Definition Dict_TTL (now : Z) (d : Dict V) (key : string) : (Z * bool) * Dict V :=
  match Dict_Get now d key with
  | (None, d') => ((-2, false), d')
  | (Some entry, d') =>
      if e_expireAt entry =? 0 then ((-1, true), d')
      else
        let remaining := i64 (e_expireAt entry - now) in
        if remaining <? 0 then ((-2, false), d') else ((remaining, true), d')
  end.

(** [RandomKeys]: shards in order, stopping as soon as [n] keys are collected. *)
Fixpoint random_keys_loop (result : list string) (n : Z) (keys : list string) : list string * bool :=
  match keys with
  | [] => (result, false)
  | key :: keys' =>
      let result := result ++ [key] in
      if n <=? Z.of_nat (length result) then (result, true) else random_keys_loop result n keys'
  end.

Fixpoint random_keys_shards (result : list string) (n : Z) (shards : list (list string)) : list string :=
  match shards with
  | [] => result
  | keys :: shards' =>
      let '(result, stop) := random_keys_loop result n keys in
      if (stop : bool) then result else random_keys_shards result n shards'
  end.

(** [make([]string, 0, n)] panics on a negative capacity. *)
Definition Dict_RandomKeys `{!GoRange string (Entry V)} (d : Dict V) (n : Z) : option (list string) :=
  if n <? 0 then None
  else Some (random_keys_shards [] n ((λ items, (go_range items).*1) <$> d_shards d)).

(** [ForEach]: the callback [fn] is a function of the state it closes over and
    of one entry; it returns its new state and whether to go on. *)
Fixpoint foreach_items {S} (fn : S → string → Entry V → S * bool) (s : S)
    (items : list (string * Entry V)) : S * bool :=
  match items with
  | [] => (s, true)
  | (key, entry) :: items' =>
      let '(s', go_on) := fn s key entry in
      if (go_on : bool) then foreach_items fn s' items' else (s', false)
  end.

Fixpoint foreach_shards {S} (fn : S → string → Entry V → S * bool) (s : S)
    (shards : list (list (string * Entry V))) : S :=
  match shards with
  | [] => s
  | items :: shards' =>
      let '(s', go_on) := foreach_items fn s items in
      if (go_on : bool) then foreach_shards fn s' shards' else s'
  end.

Definition Dict_ForEach {S} `{!GoRange string (Entry V)} (d : Dict V)
    (fn : S → string → Entry V → S * bool) (s : S) : S :=
  foreach_shards fn s (go_range <$> d_shards d).

Definition Dict_Clear (d : Dict V) : Dict V :=
  mkDict ((λ _, ∅) <$> d_shards d) (d_shardCount d) (d_seed d).

End dict_code.


(** ** The dictionary as one map

    [dict_map] forgets the sharding. The specification of an operation is its
    effect on that map. *)

Section dict_spec.
Context {V : Type}.
Implicit Types (d : Dict V) (e : Entry V) (m : gmap string (Entry V)) (l : list (gmap string (Entry V))).

Record dict_wf (d : Dict V) : Prop := {
  dwf_count : 0 < d_shardCount d;
  dwf_length : length (d_shards d) = Z.to_nat (d_shardCount d);
  dwf_placed i items k :
    d_shards d !! i = Some items → is_Some (items !! k) → i = shard_index d k
}.

Definition dict_map d : gmap string (Entry V) := foldr (∪) ∅ (d_shards d).

(** The entries a client can see at [now]. *)
Definition dict_live (now : Z) m : gmap string (Entry V) :=
  filter (λ kv, IsExpired now kv.2 = false) m.

Inductive dict_req :=
  | RGet (key : string)
  | RSet (key : string) (value : V) (ttl : Z)
  | RSetNX (key : string) (value : V) (ttl : Z)
  | RSetXX (key : string) (value : V) (ttl : Z)
  | RSetEntry (key : string) (entry : Entry V)
  | RDel (keys : list string)
  | RExists (keys : list string)
  | RExpire (key : string) (ttl : Z)
  | RTTL (key : string)
  | RClear
  | RLen.

Inductive dict_resp :=
  | AEntry (e : option (Entry V))
  | ABool (b : bool)
  | ACount (n : Z)
  | ATTL (ttl : Z) (ok : bool)
  | AUnit.

(** One request against the sharded dictionary. *)
Definition dict_step (now : Z) (r : dict_req) (d : Dict V) : dict_resp * Dict V :=
  match r with
  | RGet k => let '(o, d') := Dict_Get now d k in (AEntry o, d')
  | RSet k v ttl => (AUnit, Dict_Set now d k v ttl)
  | RSetNX k v ttl => let '(b, d') := Dict_SetNX now d k v ttl in (ABool b, d')
  | RSetXX k v ttl => let '(b, d') := Dict_SetXX now d k v ttl in (ABool b, d')
  | RSetEntry k e => (AUnit, Dict_SetEntry d k e)
  | RDel ks => let '(n, d') := Dict_Del d ks in (ACount n, d')
  | RExists ks => let '(n, d') := Dict_Exists now d ks in (ACount n, d')
  | RExpire k ttl => let '(b, d') := Dict_Expire now d k ttl in (ABool b, d')
  | RTTL k => let '((t, ok), d') := Dict_TTL now d k in (ATTL t ok, d')
  | RClear => (AUnit, Dict_Clear d)
  | RLen => (ACount (Dict_Len d), d)
  end.

(** What a request promises of one map. A visible entry is one that has not
    expired; reading a key touches its statistics, and removes it when it has
    expired. *)
Definition spec_live (now : Z) m (k : string) : option (Entry V) :=
  e ← m !! k; if IsExpired now e then None else Some e.

Definition spec_read (now : Z) m (k : string) : gmap string (Entry V) :=
  match spec_live now m k with
  | Some e => <[k := UpdateAccessStats now e]> m
  | None => delete k m
  end.

Definition spec_set_if (b : bool) (k : string) (e : Entry V) m : dict_resp * gmap string (Entry V) :=
  (ABool b, if b then <[k := e]> m else m).

Definition spec_ttl (now : Z) (e : Entry V) : dict_resp :=
  if e_expireAt e =? 0 then ATTL (-1) true
  else
    let remaining := i64 (e_expireAt e - now) in
    if remaining <? 0 then ATTL (-2) false else ATTL remaining true.

Definition dict_spec (now : Z) (r : dict_req) m : dict_resp * gmap string (Entry V) :=
  match r with
  | RGet k => (AEntry (UpdateAccessStats now <$> spec_live now m k), spec_read now m k)
  | RSet k v ttl => (AUnit, <[k := newEntry now v ttl]> m)
  | RSetNX k v ttl =>
      spec_set_if (bool_decide (spec_live now m k = None)) k (newEntry now v ttl) m
  | RSetXX k v ttl =>
      spec_set_if (bool_decide (is_Some (spec_live now m k))) k (newEntry now v ttl) m
  | RSetEntry k e => (AUnit, <[k := e]> m)
  | RDel ks =>
      (ACount (Z.of_nat (size (filter (.∈ dom m) (list_to_set ks : gset string)))),
       filter (λ kv, kv.1 ∉ ks) m)
  | RExists ks =>
      (ACount (Z.of_nat (length (filter (λ k, is_Some (spec_live now m k)) ks))),
       foldl (spec_read now) m ks)
  | RExpire k ttl =>
      match spec_live now m k with
      | Some e => spec_set_if true k (SetExpireAt e (if 0 <? ttl then i64 (now + ttl) else 0)) m
      | None => (ABool false, m)
      end
  | RTTL k =>
      (default (ATTL (-2) false) (spec_ttl now <$> spec_live now m k), spec_read now m k)
  | RClear => (AUnit, ∅)
  | RLen => (ACount (Z.of_nat (size m)), m)
  end.

End dict_spec.

Section dict_proofs.
Context {V : Type}.
Implicit Types (d : Dict V) (e : Entry V) (m : gmap string (Entry V)) (l : list (gmap string (Entry V))).

(** *** Unions of maps whose keys are placed by an index function *)

Definition placed (pos : string → nat) (o : nat) l : Prop :=
  ∀ i items k, l !! i = Some items → is_Some (items !! k) → (o + i)%nat = pos k.

Lemma placed_cons pos o m l : placed pos o (m :: l) → placed pos (S o) l.
Proof. intros H i items k Hi Hk. specialize (H (S i) items k Hi Hk). lia. Qed.

Lemma union_all_None pos o l k : placed pos o l → (pos k < o)%nat → foldr (∪) ∅ l !! k = None.
Proof.
  revert o. induction l as [|m l IH]; intros o H Ho; [done|].
  simpl. apply lookup_union_None. split.
  - apply eq_None_not_Some. intros Hk. specialize (H 0%nat m k eq_refl Hk). lia.
  - apply (IH (S o)); [by eapply placed_cons|lia].
Qed.

Lemma union_all_lookup pos o l k :
  placed pos o l → (o ≤ pos k)%nat →
  foldr (∪) ∅ l !! k = l !! (pos k - o)%nat ≫= lookup k.
Proof.
  revert o. induction l as [|m l IH]; intros o H Ho; [done|].
  simpl. destruct (decide (pos k = o)) as [E|E].
  - replace (pos k - o)%nat with 0%nat by lia. simpl.
    rewrite lookup_union, (union_all_None pos (S o) l) by (try lia; by eapply placed_cons).
    by destruct (m !! k).
  - rewrite lookup_union_r.
    + rewrite (IH (S o)) by (try lia; by eapply placed_cons).
      by replace (pos k - o)%nat with (S (pos k - S o)) by lia.
    + apply eq_None_not_Some. intros Hk. specialize (H 0%nat m k eq_refl Hk). lia.
Qed.

Lemma union_all_empty l : Forall (.= ∅) l → foldr (∪) ∅ l = ∅.
Proof. induction 1 as [|m l -> _ IH]; simpl; [done|]. by rewrite IH, (left_id_L ∅ (∪)). Qed.

Lemma size_union_all pos o l :
  placed pos o l → size (foldr (∪) ∅ l) = sum_list_with size l.
Proof.
  revert o. induction l as [|m l IH]; intros o H; [done|].
  simpl. rewrite map_size_disj_union, (IH (S o)); [done|by eapply placed_cons|].
  apply map_disjoint_spec. intros k e e' Hm Hl.
  rewrite (union_all_None pos (S o)) in Hl; [done|by eapply placed_cons|].
  specialize (H 0%nat m k eq_refl (ex_intro _ _ Hm)). lia.
Qed.

(** *** The sharded dictionary against [dict_map] *)

Lemma dict_wf_placed d : dict_wf d → placed (shard_index d) 0 (d_shards d).
Proof. intros Hwf i items k Hi Hk. by eapply dwf_placed. Qed.

Lemma shard_index_lt d k : dict_wf d → (shard_index d k < length (d_shards d))%nat.
Proof.
  intros Hwf. rewrite dwf_length by done. unfold shard_index.
  pose proof (dwf_count _ Hwf). pose proof (Z.mod_pos_bound (d_seed d k) (d_shardCount d)). lia.
Qed.

Lemma dict_map_lookup d k : dict_wf d → dict_map d !! k = getShard d k !! k.
Proof.
  intros Hwf. unfold dict_map, getShard.
  rewrite (union_all_lookup (shard_index d) 0) by (try lia; by apply dict_wf_placed).
  rewrite Nat.sub_0_r.
  destruct (lookup_lt_is_Some_2 (d_shards d) (shard_index d k)) as [items ->];
    [by apply shard_index_lt|done].
Qed.

Lemma getShard_placed d k k' :
  dict_wf d → is_Some (getShard d k !! k') → shard_index d k' = shard_index d k.
Proof.
  unfold getShard. intros Hwf Hk.
  destruct (d_shards d !! shard_index d k) as [items|] eqn:E; simpl in Hk.
  - symmetry. by eapply dwf_placed.
  - rewrite lookup_empty in Hk. by destruct Hk.
Qed.

(** Replacing one shard by [f] of it is [f] on the key, the rest untouched. *)
Lemma putShard_wf d k items :
  dict_wf d → (∀ k', k' ≠ k → items !! k' = getShard d k !! k') → dict_wf (putShard d k items).
Proof.
  intros Hwf Hit. split; simpl.
  - by apply dwf_count.
  - rewrite length_insert. by apply dwf_length.
  - intros i items' k' Hi Hk'. change (shard_index (putShard d k items) k') with (shard_index d k').
    apply list_lookup_insert_Some in Hi as [(<- & -> & _)|[_ Hi]].
    + destruct (decide (k' = k)) as [->|Hne]; [done|].
      rewrite Hit in Hk' by done. symmetry. by apply getShard_placed.
    + by eapply dwf_placed.
Qed.

Lemma putShard_lookup d k items k' :
  dict_wf d → (∀ k', k' ≠ k → items !! k' = getShard d k !! k') →
  dict_map (putShard d k items) !! k' = if decide (k' = k) then items !! k else dict_map d !! k'.
Proof.
  intros Hwf Hit. rewrite dict_map_lookup by by apply putShard_wf.
  unfold getShard. change (shard_index (putShard d k items) k') with (shard_index d k'). simpl.
  destruct (decide (shard_index d k = shard_index d k')) as [E|E].
  - rewrite <-E, list_lookup_insert_eq by by apply shard_index_lt. simpl.
    case_decide as Hk; [by subst|]. rewrite Hit, dict_map_lookup by done.
    unfold getShard. by rewrite E.
  - rewrite list_lookup_insert_ne by done.
    case_decide as Hk; [by subst|]. by rewrite dict_map_lookup by done.
Qed.

Lemma putShard_insert d k e :
  dict_wf d →
  dict_wf (putShard d k (<[k := e]> (getShard d k))) ∧
  dict_map (putShard d k (<[k := e]> (getShard d k))) = <[k := e]> (dict_map d).
Proof.
  intros Hwf. assert (∀ k', k' ≠ k → <[k := e]> (getShard d k) !! k' = getShard d k !! k').
  { intros. by apply lookup_insert_ne. }
  split; [by apply putShard_wf|]. apply map_eq. intros k'. rewrite putShard_lookup by done.
  case_decide; subst; by rewrite ?lookup_insert_eq, ?lookup_insert_ne by done.
Qed.

Lemma putShard_delete d k :
  dict_wf d →
  dict_wf (putShard d k (delete k (getShard d k))) ∧
  dict_map (putShard d k (delete k (getShard d k))) = delete k (dict_map d).
Proof.
  intros Hwf. assert (∀ k', k' ≠ k → delete k (getShard d k) !! k' = getShard d k !! k').
  { intros. by apply lookup_delete_ne. }
  split; [by apply putShard_wf|]. apply map_eq. intros k'. rewrite putShard_lookup by done.
  case_decide; subst; by rewrite ?lookup_delete_eq, ?lookup_delete_ne by done.
Qed.

Lemma Dict_del1_spec d k b d' :
  dict_wf d → Dict_del1 d k = (b, d') →
  dict_wf d' ∧ dict_map d' = delete k (dict_map d) ∧ b = bool_decide (k ∈ dom (dict_map d)).
Proof.
  intros Hwf. unfold Dict_del1. rewrite <-dict_map_lookup by done.
  destruct (dict_map d !! k) as [e|] eqn:E; intros [= <- <-].
  - destruct (putShard_delete d k) as [? ->]; [done|].
    split_and!; [done..|]. symmetry. apply bool_decide_eq_true. apply elem_of_dom_2 in E. done.
  - rewrite delete_id by done. split_and!; [done..|].
    symmetry. apply bool_decide_eq_false. by apply not_elem_of_dom.
Qed.

Lemma size_filter_step (D : gset string) k (ks : gset string) :
  size (filter (.∈ D) ({[k]} ∪ ks)) =
  ((if bool_decide (k ∈ D) then 1 else 0) + size (filter (.∈ D ∖ {[k]}) ks))%nat.
Proof.
  case_bool_decide as Hk.
  - replace (filter (.∈ D) ({[k]} ∪ ks)) with ({[k]} ∪ filter (.∈ D ∖ {[k]}) ks).
    + rewrite size_union.
      * by rewrite size_singleton.
      * intros x. rewrite elem_of_singleton, elem_of_filter, elem_of_difference, elem_of_singleton.
        naive_solver.
    + apply set_eq. intros x.
      rewrite elem_of_union, !elem_of_filter, elem_of_union, elem_of_difference, !elem_of_singleton.
      destruct (decide (x = k)); naive_solver.
  - simpl. f_equal. apply set_eq. intros x.
    rewrite !elem_of_filter, elem_of_union, elem_of_difference, !elem_of_singleton.
    destruct (decide (x = k)); naive_solver.
Qed.

Lemma Dict_Del_spec d ks n d' :
  dict_wf d → Dict_Del d ks = (n, d') →
  dict_wf d' ∧ dict_map d' = filter (λ kv, kv.1 ∉ ks) (dict_map d) ∧
  n = Z.of_nat (size (filter (.∈ dom (dict_map d)) (list_to_set ks : gset string))).
Proof.
  revert d n d'. induction ks as [|k ks IH]; intros d n d' Hwf Hd; simplify_eq/=.
  { split_and!; [done| |].
    - symmetry. apply map_filter_id. intros. simpl. apply not_elem_of_nil.
    - by replace (filter _ ∅ : gset string) with (∅ : gset string) by set_solver. }
  destruct (Dict_del1 d k) as [b d1] eqn:E1. apply Dict_del1_spec in E1 as (Hwf1 & Hm1 & ->); [|done].
  destruct (Dict_Del d1 ks) as [n2 d2] eqn:E2. simplify_eq/=.
  apply IH in E2 as (Hwf2 & Hm2 & ->); [|done]. split_and!; [done| |].
  - rewrite Hm2, Hm1. apply map_eq. intros k'. apply option_eq. intros e.
    rewrite !map_lookup_filter_Some, lookup_delete_Some, not_elem_of_cons. simpl. naive_solver.
  - rewrite Hm1, dom_delete_L, size_filter_step. case_bool_decide; lia.
Qed.

Lemma Dict_Get_spec now d k o d' :
  dict_wf d → Dict_Get now d k = (o, d') →
  dict_wf d' ∧ dict_map d' = spec_read now (dict_map d) k ∧
  o = UpdateAccessStats now <$> spec_live now (dict_map d) k.
Proof.
  intros Hwf. unfold Dict_Get, spec_read, spec_live. rewrite <-dict_map_lookup by done.
  destruct (dict_map d !! k) as [e|] eqn:E; simpl.
  - destruct (IsExpired now e); simpl; intros [= <- <-].
    + destruct (Dict_del1 d k) as [b d1] eqn:E1. simpl.
      by apply Dict_del1_spec in E1 as (? & ? & _).
    + by destruct (putShard_insert d k (UpdateAccessStats now e)) as [? ->].
  - intros [= <- <-]. by rewrite delete_id.
Qed.

Lemma spec_live_read now m k k' :
  is_Some (spec_live now (spec_read now m k) k') ↔ is_Some (spec_live now m k').
Proof.
  unfold spec_read. destruct (decide (k' = k)) as [->|Hne].
  - destruct (spec_live now m k) as [e|] eqn:E; unfold spec_live in *.
    + rewrite lookup_insert_eq. simpl. destruct (m !! k) as [e'|]; simpl in E; [|done].
      destruct (IsExpired now e') eqn:E'; simplify_eq. unfold IsExpired in *. simpl.
      rewrite E'. by split; eauto.
    + rewrite lookup_delete_eq. simpl. done.
  - destruct (spec_live now m k) as [e|]; unfold spec_live;
      by rewrite ?lookup_insert_ne, ?lookup_delete_ne by done.
Qed.

Lemma Dict_Exists_spec now d ks n d' :
  dict_wf d → Dict_Exists now d ks = (n, d') →
  dict_wf d' ∧ dict_map d' = foldl (spec_read now) (dict_map d) ks ∧
  n = Z.of_nat (length (filter (λ k, is_Some (spec_live now (dict_map d) k)) ks)).
Proof.
  revert d n d'. induction ks as [|k ks IH]; intros d n d' Hwf Hd; simplify_eq/=; [done|].
  destruct (Dict_Get now d k) as [o d1] eqn:E1.
  apply Dict_Get_spec in E1 as (Hwf1 & Hm1 & ->); [|done].
  destruct (Dict_Exists now d1 ks) as [n2 d2] eqn:E2. simplify_eq/=.
  apply IH in E2 as (Hwf2 & Hm2 & ->); [|done]. split_and!; [done|by rewrite Hm2, Hm1|].
  rewrite Hm1. rewrite (list_filter_iff _ (λ k', is_Some (spec_live now (dict_map d) k'))).
  2: { intros x. apply spec_live_read. }
  destruct (spec_live now (dict_map d) k) as [e|] eqn:E; simpl.
  - rewrite filter_cons_True by (rewrite E; eauto). simpl. lia.
  - rewrite filter_cons_False by (rewrite E; by apply is_Some_None). lia.
Qed.

Lemma Dict_Clear_spec d : dict_wf d → dict_wf (Dict_Clear d) ∧ dict_map (Dict_Clear d) = ∅.
Proof.
  intros Hwf. split.
  - split; simpl; [by apply dwf_count|by rewrite length_fmap, dwf_length|].
    intros i items k. rewrite list_lookup_fmap_Some. intros (? & -> & _) [e He].
    by rewrite lookup_empty in He.
  - apply union_all_empty, Forall_forall. intros m (? & -> & _)%list_elem_of_fmap. done.
Qed.

Lemma Dict_Len_spec d : dict_wf d → Dict_Len d = Z.of_nat (size (dict_map d)).
Proof.
  intros Hwf. unfold dict_map, Dict_Len.
  rewrite (size_union_all (shard_index d) 0) by by apply dict_wf_placed.
  induction (d_shards d) as [|m l IH]; simpl; [done|]. rewrite IH. lia.
Qed.

Lemma NewDict_wf n seed : n < 2 ^ 32 → dict_wf (NewDict (V:=V) n seed) ∧ dict_map (NewDict (V:=V) n seed) = ∅.
Proof.
  intros Hn. unfold NewDict. set (c := if n <=? 0 then _ else _).
  assert (0 < c < 2 ^ 32) as Hc by (unfold c, defaultShardCount; zcases; lia).
  unfold u32. rewrite Z.mod_small by lia. split.
  - split; simpl; [lia|by rewrite length_replicate|].
    intros i items k [-> _]%lookup_replicate [e He]. by rewrite lookup_empty in He.
  - by apply union_all_empty, Forall_replicate.
Qed.

(** Every request of the sharded dictionary is the request of one map. *)
Lemma dict_step_simulates now r d resp d' :
  dict_wf d → dict_step now r d = (resp, d') →
  dict_wf d' ∧ dict_spec now r (dict_map d) = (resp, dict_map d').
Proof.
  intros Hwf. destruct r as [k|k v ttl|k v ttl|k v ttl|k e|ks|ks|k ttl|k| |]; simpl;
    unfold Dict_Set, Dict_SetNX, Dict_SetXX, Dict_SetEntry, Dict_Expire, Dict_TTL, spec_set_if, spec_live;
    rewrite <-?dict_map_lookup by done.
  - destruct (Dict_Get now d k) as [o d1] eqn:E. intros [= <- <-].
    by apply Dict_Get_spec in E as (? & -> & ->).
  - intros [= <- <-]. by destruct (putShard_insert d k (newEntry now v ttl)) as [? ->].
  - destruct (putShard_insert d k (newEntry now v ttl)) as [? E]; [done|].
    destruct (dict_map d !! k) as [e|]; simpl; [destruct (IsExpired now e)|];
      intros [= <- <-]; by rewrite ?E.
  - destruct (putShard_insert d k (newEntry now v ttl)) as [? E]; [done|].
    destruct (dict_map d !! k) as [e|]; simpl; [destruct (IsExpired now e)|];
      intros [= <- <-]; by rewrite ?E.
  - intros [= <- <-]. by destruct (putShard_insert d k e) as [? ->].
  - destruct (Dict_Del d ks) as [n d1] eqn:E. intros [= <- <-].
    by apply Dict_Del_spec in E as (? & -> & ->).
  - destruct (Dict_Exists now d ks) as [n d1] eqn:E. intros [= <- <-].
    by apply Dict_Exists_spec in E as (? & -> & ->).
  - destruct (dict_map d !! k) as [e|]; simpl; [destruct (IsExpired now e)|];
      intros [= <- <-]; try done.
    by destruct (putShard_insert d k (SetExpireAt e (if 0 <? ttl then i64 (now + ttl) else 0))) as [? ->].
  - destruct (Dict_Get now d k) as [o d1] eqn:E. apply Dict_Get_spec in E as (Hwf1 & Hm & ->); [|done].
    change (e ← dict_map d !! k; _) with (spec_live now (dict_map d) k). rewrite <-Hm.
    destruct (spec_live now (dict_map d) k) as [e|]; simpl; [|by intros [= <- <-]].
    unfold spec_ttl. zcases; by intros [= <- <-].
  - intros [= <- <-]. by destruct (Dict_Clear_spec d) as [? ->].
  - intros [= <- <-]. by rewrite Dict_Len_spec.
Qed.

(** Sequences of timed requests. *)
Fixpoint dict_run (trace : list (Z * dict_req)) d : list dict_resp * Dict V :=
  match trace with
  | [] => ([], d)
  | (now, r) :: trace' =>
      let '(resp, d1) := dict_step now r d in
      let '(resps, d2) := dict_run trace' d1 in
      (resp :: resps, d2)
  end.

Fixpoint spec_run (trace : list (Z * dict_req)) m : list dict_resp * gmap string (Entry V) :=
  match trace with
  | [] => ([], m)
  | (now, r) :: trace' =>
      let '(resp, m1) := dict_spec now r m in
      let '(resps, m2) := spec_run trace' m1 in
      (resp :: resps, m2)
  end.

Lemma dict_run_simulates trace d resps d' :
  dict_wf d → dict_run trace d = (resps, d') →
  dict_wf d' ∧ spec_run trace (dict_map d) = (resps, dict_map d').
Proof.
  revert d resps. induction trace as [|[now r] trace IH]; intros d resps Hwf H; simplify_eq/=; [done|].
  destruct (dict_step now r d) as [resp d1] eqn:E1.
  apply dict_step_simulates in E1 as [Hwf1 ->]; [|done].
  destruct (dict_run trace d1) as [resps1 d2] eqn:E2. simplify_eq.
  by apply IH in E2 as [? ->].
Qed.

(** C25: The sharded dictionary answers every sequence of requests exactly as one
    map does, whatever the hash function and the number of shards. *)
Theorem Dict_refines_map n seed trace resps d' :
  n < 2 ^ 32 →
  dict_run trace (NewDict n seed) = (resps, d') →
  dict_wf d' ∧ spec_run trace ∅ = (resps, dict_map d').
Proof.
  intros Hn H. destruct (NewDict_wf n seed Hn) as [Hwf Hm].
  rewrite <-Hm. by apply dict_run_simulates.
Qed.

Lemma newEntry_IsExpired now now' (v : V) ttl :
  0 < now → is_i64 (now + Z.max ttl 0) →
  IsExpired now' (newEntry now v ttl) = bool_decide (0 < ttl ∧ now + ttl < now').
Proof.
  intros Hn Hr. unfold IsExpired, newEntry, is_i64 in *. simpl.
  symmetry. destruct (Z.ltb_spec 0 ttl).
  - rewrite i64_id by (unfold is_i64; lia). zcases;
      first [lia | apply bool_decide_eq_true; lia | apply bool_decide_eq_false; lia].
  - simpl. apply bool_decide_eq_false. lia.
Qed.

(** A value that was set is read back until its deadline has passed, and never
    afterwards: reading at [now'] what was set at [now]. *)
Theorem Dict_Set_Get d k (v : V) ttl now now' :
  dict_wf d → 0 < now → is_i64 (now + Z.max ttl 0) →
  e_Value <$> (Dict_Get now' (Dict_Set now d k v ttl) k).1 =
    if bool_decide (0 < ttl ∧ now + ttl < now') then None else Some v.
Proof.
  intros Hwf Hn Hr. unfold Dict_Set.
  destruct (putShard_insert d k (newEntry now v ttl)) as [Hwf' Hm]; [done|].
  destruct (Dict_Get now' _ k) as [o d'] eqn:E. apply Dict_Get_spec in E as (_ & _ & ->); [|done].
  rewrite Hm. unfold spec_live. rewrite lookup_insert_eq. simpl.
  rewrite newEntry_IsExpired by done. by case_bool_decide.
Qed.

Lemma elem_of_Dict_Keys `{!GoRange string (Entry V)} pm now d pat k :
  dict_wf d →
  k ∈ Dict_Keys pm now d pat ↔
    k ∈ dom (dict_live now (dict_map d)) ∧ matchPattern pm pat k = true.
Proof.
  intros Hwf. unfold Dict_Keys, dict_live. rewrite list_elem_of_concat, elem_of_dom. split.
  - intros (ks & Hk & (items & -> & [i Hi]%list_elem_of_lookup)%list_elem_of_fmap).
    apply list_elem_of_fmap in Hk as ([k' e] & -> & Hk).
    apply list_elem_of_filter in Hk as [[Hx Hp]%andb_true_iff Hk]. simpl in *.
    apply elem_of_go_range in Hk. split; [|done]. exists e.
    apply map_lookup_filter_Some. split; [|by apply negb_true_iff in Hx].
    rewrite dict_map_lookup by done. unfold getShard.
    rewrite <-(dwf_placed _ Hwf i items k') by eauto. by rewrite Hi.
  - intros [[e [He Hx]%map_lookup_filter_Some] Hp]. rewrite dict_map_lookup in He by done.
    unfold getShard in He. destruct (d_shards d !! shard_index d k) as [items|] eqn:Hi; [|done].
    eexists. split; [|apply list_elem_of_fmap; exists items; split; [done|by eapply list_elem_of_lookup_2]].
    apply list_elem_of_fmap. exists (k, e). split; [done|]. apply list_elem_of_filter. simpl in *.
    rewrite Hx, Hp. split; [done|]. by apply elem_of_go_range.
Qed.

Lemma NoDup_placed pos o (ls : list (list string)) :
  (∀ ks, ks ∈ ls → NoDup ks) →
  (∀ i (ks : list string) k, ls !! i = Some ks → k ∈ ks → (o + i)%nat = pos k) →
  NoDup (concat ls).
Proof.
  revert o. induction ls as [|l ls IH]; intros o Hnd Hp; simpl; [constructor|].
  apply NoDup_app. split_and!; [apply Hnd; left| |].
  - intros k Hk (l' & Hk' & [i Hi]%list_elem_of_lookup)%list_elem_of_concat.
    pose proof (Hp 0%nat l k eq_refl Hk). pose proof (Hp (S i) l' k Hi Hk'). lia.
  - apply (IH (S o)); [intros; apply Hnd; by right|].
    intros i l' k Hi Hk. specialize (Hp (S i) l' k Hi Hk). lia.
Qed.

(** [Keys] lists exactly the unexpired keys that match, each once. *)
Theorem Dict_Keys_exact `{!GoRange string (Entry V)} pm now d pat :
  dict_wf d →
  NoDup (Dict_Keys pm now d pat) ∧
  ∀ k, k ∈ Dict_Keys pm now d pat ↔
       k ∈ dom (dict_live now (dict_map d)) ∧ matchPattern pm pat k = true.
Proof.
  intros Hwf. split; [|intros; by apply elem_of_Dict_Keys].
  apply (NoDup_placed (shard_index d) 0).
  - intros l (items & -> & _)%list_elem_of_fmap.
    eapply sublist_NoDup; [apply NoDup_go_range_keys|]. apply (fmap_sublist fst), sublist_filter.
  - intros i l k Hi Hk. apply list_lookup_fmap_Some in Hi as (items & -> & Hi).
    apply list_elem_of_fmap in Hk as ([k' e] & -> & Hk).
    apply list_elem_of_filter in Hk as [_ Hk]. apply elem_of_go_range in Hk.
    by eapply (dwf_placed _ Hwf); eauto.
Qed.

Lemma random_keys_loop_spec res n keys :
  Z.of_nat (length res) < Z.max 1 n →
  let '(r, stop) := random_keys_loop res n keys in
  r = take (Z.to_nat (Z.max 1 n)) (res ++ keys) ∧
  (if stop then Z.of_nat (length r) = Z.max 1 n
   else r = res ++ keys ∧ Z.of_nat (length r) < Z.max 1 n).
Proof.
  revert res. induction keys as [|k keys IH]; intros res Hr; simpl.
  - rewrite app_nil_r, take_ge by lia. done.
  - zcase.
    + rewrite length_app in *. simpl in *. split; [|lia].
      replace (res ++ k :: keys) with ((res ++ [k]) ++ keys) by by rewrite <-app_assoc.
      rewrite take_app_length'; [done|].
      rewrite length_app. simpl. lia.
    + rewrite length_app in *. simpl in *.
      specialize (IH (res ++ [k])). rewrite length_app in IH. simpl in IH.
      rewrite <-app_assoc in IH. simpl in IH. apply IH. lia.
Qed.

Lemma random_keys_shards_spec res n shards :
  Z.of_nat (length res) < Z.max 1 n →
  random_keys_shards res n shards = take (Z.to_nat (Z.max 1 n)) (res ++ concat shards).
Proof.
  revert res. induction shards as [|keys shards IH]; intros res Hr; simpl.
  - rewrite app_nil_r, take_ge by lia. done.
  - pose proof (random_keys_loop_spec res n keys Hr) as H.
    destruct (random_keys_loop res n keys) as [r [|]]; destruct H as [H1 H2].
    + rewrite app_assoc, H1 in *. rewrite (take_app_le _ (concat shards)); [done|].
      rewrite length_take in H2. lia.
    + destruct H2 as [-> H2]. rewrite IH by done. by rewrite app_assoc.
Qed.

Lemma Dict_all_keys `{!GoRange string (Entry V)} d :
  dict_wf d →
  let all := concat ((λ items, (go_range items).*1) <$> d_shards d) in
  NoDup all ∧ (∀ k, k ∈ all → k ∈ dom (dict_map d)) ∧ Z.of_nat (length all) = Dict_Len d.
Proof.
  intros Hwf all. split_and!.
  - apply (NoDup_placed (shard_index d) 0).
    + intros l (items & -> & _)%list_elem_of_fmap. apply NoDup_go_range_keys.
    + intros i l k Hi Hk. apply list_lookup_fmap_Some in Hi as (items & -> & Hi).
      apply list_elem_of_fmap in Hk as ([k' e] & -> & Hk%elem_of_go_range).
      by eapply (dwf_placed _ Hwf); eauto.
  - intros k (ks & Hk & (items & -> & [i Hi]%list_elem_of_lookup)%list_elem_of_fmap)%list_elem_of_concat.
    apply list_elem_of_fmap in Hk as ([k' e] & -> & Hk%elem_of_go_range).
    apply elem_of_dom. exists e. simpl. rewrite dict_map_lookup by done. unfold getShard.
    rewrite <-(dwf_placed _ Hwf i items k') by eauto. by rewrite Hi.
  - unfold all, Dict_Len. clear. induction (d_shards d) as [|items l IH]; simpl; [done|].
    rewrite length_app, length_fmap, length_go_range, Nat2Z.inj_add. f_equal. exact IH.
Qed.

(** [RandomKeys] returns at most [max 1 n] keys, without repetition, all of
    them present, and as many as it can. *)
Theorem Dict_RandomKeys_sample `{!GoRange string (Entry V)} d n ks :
  dict_wf d → Dict_RandomKeys d n = Some ks →
  NoDup ks ∧ (∀ k, k ∈ ks → k ∈ dom (dict_map d)) ∧
  Z.of_nat (length ks) = Z.min (Z.max 1 n) (Dict_Len d).
Proof.
  intros Hwf. unfold Dict_RandomKeys. zcase; [done|]. intros [= <-].
  rewrite random_keys_shards_spec by (simpl; lia). simpl.
  destruct (Dict_all_keys d Hwf) as (Hnd & Hin & Hlen). split_and!.
  - eapply sublist_NoDup; [apply Hnd|]. apply sublist_take.
  - intros k Hk. apply Hin. eapply elem_of_sublist; [done|]. apply sublist_take.
  - rewrite length_take. lia.
Qed.

End dict_proofs.

(** ** Concrete runs *)

Definition two_shards : Dict Z := NewDict 2 (λ s, Z.of_nat (String.length s)).

Lemma two_shards_wf : dict_wf two_shards.
Proof. apply NewDict_wf. lia. Qed.

Definition sample_trace : list (Z * dict_req (V:=Z)) :=
  [(10, RSet "a" 1 5); (11, RSetNX "a" 2 0); (16, RSetNX "a" 3 0); (17, RGet "a");
   (18, RDel ["a"; "b"; "a"]); (19, RExists ["a"])].

Definition responses_of (resps : list (dict_resp (V:=Z))) : list Z :=
  (λ r, match r with
        | AEntry (Some e) => e_Value e | AEntry None => -1
        | ABool b => if b then 1 else 0 | ACount n => n | ATTL t _ => t | AUnit => 0 end) <$> resps.

Lemma Dict_refines_map_witness :
  2 < 2 ^ 32 ∧
  responses_of (dict_run sample_trace two_shards).1 = [0; 0; 1; 3; 1; 0] ∧
  spec_run sample_trace ∅ =
    ((dict_run sample_trace two_shards).1, dict_map (dict_run sample_trace two_shards).2).
Proof.
  split_and!; [lia|by vm_compute|].
  apply (Dict_refines_map 2 (λ s, Z.of_nat (String.length s)) sample_trace); [lia|].
  symmetry. apply surjective_pairing.
Defined.

Lemma Dict_Set_Get_witness :
  e_Value <$> (Dict_Get 15 (Dict_Set 10 two_shards "a" 1 5) "a").1 = Some 1 ∧
  e_Value <$> (Dict_Get 16 (Dict_Set 10 two_shards "a" 1 5) "a").1 = None.
Proof.
  split.
  - apply (Dict_Set_Get two_shards "a" 1 5 10 15); [apply two_shards_wf|lia|unfold is_i64; lia].
  - apply (Dict_Set_Get two_shards "a" 1 5 10 16); [apply two_shards_wf|lia|unfold is_i64; lia].
Defined.

Definition sample_dict : Dict Z := (dict_run [(10, RSet "a" 1 5); (10, RSet "bb" 2 0)] two_shards).2.

Lemma sample_dict_wf : dict_wf sample_dict.
Proof.
  apply (dict_run_simulates [(10, RSet "a" 1 5); (10, RSet "bb" 2 0)] two_shards
           (dict_run [(10, RSet "a" 1 5); (10, RSet "bb" 2 0)] two_shards).1).
  - apply two_shards_wf.
  - apply surjective_pairing.
Qed.

Lemma Dict_Keys_exact_witness :
  let _ := listed_range : GoRange string (Entry Z) in
  NoDup (Dict_Keys (λ _ _, false) 16 sample_dict "*") ∧
  Dict_Keys (λ _ _, false) 16 sample_dict "*" = ["bb"].
Proof.
  intros R. split; [|by vm_compute].
  apply (Dict_Keys_exact (λ _ _, false) 16 sample_dict "*"). apply sample_dict_wf.
Defined.

Lemma Dict_RandomKeys_sample_witness :
  let _ := listed_range : GoRange string (Entry Z) in
  ∃ ks, Dict_RandomKeys sample_dict 5 = Some ks ∧ NoDup ks ∧ length ks = 2%nat.
Proof.
  intros R. eexists. split; [reflexivity|].
  destruct (Dict_RandomKeys_sample sample_dict 5 _ sample_dict_wf eq_refl) as (H1 & _ & H2).
  split; [done|]. vm_compute in H2. by vm_compute.
Defined.
