(* ===== verification/Cache.v ===== *)
(** * The zero-GC sharded cache: [internal/engine/memory/shard.go]

    A shard maps the 64-bit hash of a key to an offset of its ring buffer, or to
    an integer kept inline in the index (bit 63 set). [maphash.String] is the
    function [sc_seed]; every operation is atomic (it holds its shard's lock) at
    the instant [now]. [None] is a run that does not return: a run-time panic or
    the unbounded recursion of [recordAccess]. *)

From S2P Require Import Prelude Strconv Scan RingBuf TinyLfu Dict.
From stdpp Require Import options.

Definition defaultShardedDictShards : Z := 4096.
Definition defaultRingSize : Z := Z.shiftl 4 20.
Definition defaultLFUWidth : Z := Z.shiftl 1 16.

Record ZeroGCShard := mkShard {
  zs_index : gmap Z Z;
  zs_ring : RingBuffer;
  zs_lfu : TinyLFU
}.

Record ShardedCache := mkCache {
  sc_shards : list ZeroGCShard;
  sc_shardCount : Z;
  sc_seed : string → Z;
  sc_sampleSize : Z;
  sc_skipLFU : bool;
  sc_slotIndex : gmap Z (gmap string unit);
  sc_slotFunc : option (string → Z)
}.

Record ShardedCacheConfig := mkCacheConfig {
  cfg_ShardCount : Z;
  cfg_RingSize : Z;
  cfg_LFUWidth : Z;
  cfg_SampledEvict : Z;
  cfg_SkipLFU : bool
}.

(** [recordAccess] calls itself with the same arguments; the fuel is the depth
    of the call stack. *)
Fixpoint recordAccess (fuel : nat) (sc : ShardedCache) (hash : Z) : option unit :=
  if sc_skipLFU sc then Some tt
  else
    match fuel with
    | O => None
    | S fuel' => recordAccess fuel' sc hash
    end.

(** The stack depth the operations below are run with; [recordAccess_diverges]
    shows that no depth changes the outcome. *)
Definition call_depth : nat := 8.

#[global] Arguments recordAccess : simpl never.

Definition DefaultShardedCacheConfig : ShardedCacheConfig :=
  mkCacheConfig defaultShardedDictShards defaultRingSize defaultLFUWidth 5 false.

Definition NewShardedCache (cfg : ShardedCacheConfig) (seed : string → Z) : ShardedCache :=
  let shardCount := if cfg_ShardCount cfg <=? 0 then defaultShardedDictShards else cfg_ShardCount cfg in
  let ringSize := if cfg_RingSize cfg <=? 0 then defaultRingSize else cfg_RingSize cfg in
  let lfuWidth := if cfg_LFUWidth cfg <=? 0 then defaultLFUWidth else cfg_LFUWidth cfg in
  let sampled := if cfg_SampledEvict cfg <=? 0 then 5 else cfg_SampledEvict cfg in
  mkCache
    (replicate (Z.to_nat shardCount)
       (mkShard ∅ (NewRingBuffer ringSize) (NewTinyLFU (Z.quot lfuWidth shardCount))))
    (u64 shardCount) seed sampled (cfg_SkipLFU cfg) ∅ None.

Definition SetSlotFunc (sc : ShardedCache) (fn : string → Z) : ShardedCache :=
  mkCache (sc_shards sc) (sc_shardCount sc) (sc_seed sc) (sc_sampleSize sc) (sc_skipLFU sc)
    (sc_slotIndex sc) (Some fn).

Definition cache_hash (sc : ShardedCache) (key : string) : Z := u64 (sc_seed sc key).

Definition cache_shard_index (sc : ShardedCache) (hash : Z) : nat :=
  Z.to_nat (hash mod sc_shardCount sc).

Definition cache_getShard (sc : ShardedCache) (hash : Z) : option ZeroGCShard :=
  sc_shards sc !! cache_shard_index sc hash.

(** A shard is updated in place through its pointer. *)
Definition put_shard (sc : ShardedCache) (hash : Z) (s : ZeroGCShard) : ShardedCache :=
  mkCache (<[cache_shard_index sc hash := s]> (sc_shards sc)) (sc_shardCount sc) (sc_seed sc)
    (sc_sampleSize sc) (sc_skipLFU sc) (sc_slotIndex sc) (sc_slotFunc sc).

Definition put_slots (sc : ShardedCache) (slots : gmap Z (gmap string unit)) : ShardedCache :=
  mkCache (sc_shards sc) (sc_shardCount sc) (sc_seed sc) (sc_sampleSize sc) (sc_skipLFU sc)
    slots (sc_slotFunc sc).

Definition put_index (s : ZeroGCShard) (index : gmap Z Z) : ZeroGCShard :=
  mkShard index (zs_ring s) (zs_lfu s).

(** ** Inline integers *)

Definition inlineFlag : Z := Z.shiftl 1 63.
Definition inlineMask : Z := Z.ones 63.

Definition encodeInlineInt (v : Z) : Z := Z.lor inlineFlag (Z.land (u64 v) inlineMask).
Definition decodeInlineInt (v : Z) : Z := i64 (Z.land v inlineMask).
Definition isInlineInt (v : Z) : bool := negb (Z.land v inlineFlag =? 0).

(** ** Lookups *)

(** [header.ExpireAt > 0 && time.Now().UnixNano() > header.ExpireAt] *)
Definition header_expired (now : Z) (h : EntryHeader) : bool :=
  (0 <? eh_ExpireAt h) && (eh_ExpireAt h <? now).

Definition key_eq (storedKey : list byte) (key : string) : bool :=
  bool_decide (BytesToString storedKey = key).

(** The common body of [Get] and [GetCopy]; they differ in the reader. *)
Definition cache_get_with
    (read : RingBuffer → Z → rb_error + (list byte * list byte * EntryHeader))
    (now : Z) (sc : ShardedCache) (key : string) : option (option (list byte) * ShardedCache) :=
  let hash := cache_hash sc key in
  shard ← cache_getShard sc hash;
  match zs_index shard !! hash with
  | None => Some (None, sc)
  | Some raw =>
      if isInlineInt raw then
        _ ← recordAccess call_depth sc hash;
        Some (Some (strconv_FormatInt (decodeInlineInt raw)), sc)
      else
        match read (zs_ring shard) (i64 raw) with
        | inl _ => Some (None, sc)
        | inr (storedKey, value, header) =>
            if negb (key_eq storedKey key) then Some (None, sc)
            else if header_expired now header then
              Some (None, put_shard sc hash (put_index shard (delete hash (zs_index shard))))
            else
              _ ← recordAccess call_depth sc hash;
              Some (Some value, sc)
        end
  end.

Definition ShardedCache_Get := cache_get_with ReadAt.
Definition ShardedCache_GetCopy := cache_get_with ReadAtCopy.

(** ** Writes *)

Definition expire_at (now ttl : Z) : Z := if 0 <? ttl then i64 (now + ttl) else 0.

Definition cache_header (expireAt hash : Z) (keyBytes value : list byte) : EntryHeader :=
  {| eh_ExpireAt := expireAt; eh_Hash64 := hash; eh_KeyLen := u16 (Z.of_nat (length keyBytes));
     eh_ValLen := u16 (Z.of_nat (length value)); eh_ValCap := 0; eh_Flags := EntryTypeString |}.

(** The loop that drops the index entries of what a write evicted. *)
Fixpoint drop_evicted (index : gmap Z Z) (evicted : list EvictedEntry) : gmap Z Z :=
  match evicted with
  | [] => index
  | ev :: evicted' =>
      let index' :=
        match index !! ev_Hash ev with
        | Some existing => if existing =? u64 (ev_Offset ev) then delete (ev_Hash ev) index else index
        | None => index
        end in
      drop_evicted index' evicted'
  end.

(** [WriteWithEvict] on a shard and the index updates that follow it. *)
Definition write_entry (s : ZeroGCShard) (hash : Z) (header : EntryHeader) (keyBytes value : list byte)
    : rb_error + ZeroGCShard :=
  match WriteWithEvict (zs_ring s) header keyBytes value with
  | (inl err, _) => inl err
  | (inr (offset, evicted), ring) =>
      inr (mkShard (<[hash := u64 offset]> (drop_evicted (zs_index s) evicted)) ring (zs_lfu s))
  end.

(** The slot index. *)
Definition slot_add (sc : ShardedCache) (key : string) : ShardedCache :=
  match sc_slotFunc sc with
  | None => sc
  | Some slotFunc =>
      let slot := slotFunc key in
      put_slots sc (<[slot := <[key := tt]> (default ∅ (sc_slotIndex sc !! slot))]> (sc_slotIndex sc))
  end.

(** [delete(ks, k)] for each key, then [delete(slotIndex, slot)] once it is empty. *)
Definition slot_remove_keys (sc : ShardedCache) (slot : Z) (stale : list string) : ShardedCache :=
  match sc_slotIndex sc !! slot with
  | None => sc
  | Some keys =>
      let keys' := foldl (λ ks k, delete k ks) keys stale in
      if bool_decide (size keys' = 0%nat) then put_slots sc (delete slot (sc_slotIndex sc))
      else put_slots sc (<[slot := keys']> (sc_slotIndex sc))
  end.

Definition slot_remove (sc : ShardedCache) (key : string) : ShardedCache :=
  match sc_slotFunc sc with
  | None => sc
  | Some slotFunc => slot_remove_keys sc (slotFunc key) [key]
  end.

Definition ShardedCache_Set (now : Z) (sc : ShardedCache) (key : string) (value : list byte) (ttl : Z)
    : option (option rb_error * ShardedCache) :=
  let hash := cache_hash sc key in
  shard ← cache_getShard sc hash;
  let keyBytes := StringToBytes key in
  let header := cache_header (expire_at now ttl) hash keyBytes value in
  let write (s : ZeroGCShard) :=
    match write_entry s hash header keyBytes value with
    | inl err => Some (Some err, put_shard sc hash s)
    | inr s' =>
        let sc' := slot_add (put_shard sc hash s') key in
        _ ← recordAccess call_depth sc' hash;
        Some (None, sc')
    end in
  match zs_index shard !! hash with
  | Some raw =>
      if isInlineInt raw then write (put_index shard (delete hash (zs_index shard)))
      else
        match UpdateInPlace (zs_ring shard) (i64 raw) header keyBytes value with
        | None => None
        | Some (true, ring) =>
            let sc' := put_shard sc hash (mkShard (zs_index shard) ring (zs_lfu shard)) in
            _ ← recordAccess call_depth sc' hash;
            Some (None, sc')
        | Some (false, _) => write shard
        end
  | None => write shard
  end.

(** [(value, ok, err)] of [IncrBy]; its only error is [CacheErrNotInteger]. *)
Inductive incr_result := IncrOk (v : Z) | CacheErrNotInteger.

Definition ShardedCache_IncrBy (now : Z) (sc : ShardedCache) (key : string) (delta : Z)
    : option (incr_result * ShardedCache) :=
  let hash := cache_hash sc key in
  shard ← cache_getShard sc hash;
  let store (v : Z) (sc : ShardedCache) :=
    let sc' := put_shard sc hash (put_index shard (<[hash := encodeInlineInt v]> (zs_index shard))) in
    _ ← recordAccess call_depth sc' hash;
    Some (IncrOk v, sc') in
  match zs_index shard !! hash with
  | None =>
      r ← store delta sc;
      let '(res, sc') := r in Some (res, slot_add sc' key)
  | Some raw =>
      if isInlineInt raw then store (i64 (decodeInlineInt raw + delta)) sc
      else
        match ReadAt (zs_ring shard) (i64 raw) with
        | inl _ => store delta sc
        | inr (storedKey, value, header) =>
            if negb (key_eq storedKey key) then store delta sc
            else if header_expired now header then store delta sc
            else
              match strconv_ParseInt value with
              | None => Some (CacheErrNotInteger, sc)
              | Some currentVal => store (i64 (currentVal + delta)) sc
              end
        end
  end.

(** [SetNX] answers [false] exactly when this test holds of the indexed entry. *)
Definition setnx_blocked (now : Z) (shard : ZeroGCShard) (hash : Z) (key : string) : bool :=
  match zs_index shard !! hash with
  | None => false
  | Some raw =>
      match ReadAt (zs_ring shard) (i64 raw) with
      | inl _ => false
      | inr (storedKey, _, header) =>
          key_eq storedKey key && ((eh_ExpireAt header =? 0) || (now <=? eh_ExpireAt header))
      end
  end.

Definition ShardedCache_SetNX (now : Z) (sc : ShardedCache) (key : string) (value : list byte) (ttl : Z)
    : option ((rb_error + bool) * ShardedCache) :=
  let hash := cache_hash sc key in
  shard ← cache_getShard sc hash;
  if setnx_blocked now shard hash key then Some (inr false, sc)
  else
    let keyBytes := StringToBytes key in
    let header := cache_header (expire_at now ttl) hash keyBytes value in
    match write_entry shard hash header keyBytes value with
    | inl err => Some (inl err, sc)
    | inr s' =>
        let sc' := put_shard sc hash s' in
        _ ← recordAccess call_depth sc' hash;
        Some (inr true, slot_add sc' key)
    end.

Definition ShardedCache_Delete (sc : ShardedCache) (key : string) : option (bool * ShardedCache) :=
  let hash := cache_hash sc key in
  shard ← cache_getShard sc hash;
  match zs_index shard !! hash with
  | Some _ =>
      let sc' := put_shard sc hash (put_index shard (delete hash (zs_index shard))) in
      Some (true, slot_remove sc' key)
  | None => Some (false, sc)
  end.

(** The entry of [key] that [SetXX] and [Expire] accept. *)
Definition live_entry (now : Z) (shard : ZeroGCShard) (hash : Z) (key : string)
    : option (Z * EntryHeader) :=
  match zs_index shard !! hash with
  | None => None
  | Some raw =>
      match ReadAt (zs_ring shard) (i64 raw) with
      | inl _ => None
      | inr (storedKey, _, header) =>
          if negb (key_eq storedKey key) then None
          else if header_expired now header then None
          else Some (i64 raw, header)
      end
  end.

Definition ShardedCache_SetXX (now : Z) (sc : ShardedCache) (key : string) (value : list byte) (ttl : Z)
    : option ((rb_error + bool) * ShardedCache) :=
  let hash := cache_hash sc key in
  shard ← cache_getShard sc hash;
  match live_entry now shard hash key with
  | None => Some (inr false, sc)
  | Some _ =>
      let keyBytes := StringToBytes key in
      let header := cache_header (expire_at now ttl) hash keyBytes value in
      match write_entry shard hash header keyBytes value with
      | inl err => Some (inl err, sc)
      | inr s' =>
          let sc' := put_shard sc hash s' in
          _ ← recordAccess call_depth sc' hash;
          Some (inr true, sc')
      end
  end.

Definition valueForOffset (shard : ZeroGCShard) (offset : Z) : option (list byte) :=
  match ReadAtCopy (zs_ring shard) offset with
  | inl _ => None
  | inr (_, value, _) => Some value
  end.

Definition keyForOffset (now : Z) (shard : ZeroGCShard) (offset : Z) : option string :=
  match ReadAt (zs_ring shard) offset with
  | inl _ => None
  | inr (key, _, header) =>
      if header_expired now header then None else Some (BytesToString key)
  end.

Definition ShardedCache_Expire (now : Z) (sc : ShardedCache) (key : string) (ttl : Z)
    : option (bool * ShardedCache) :=
  let hash := cache_hash sc key in
  shard ← cache_getShard sc hash;
  match live_entry now shard hash key with
  | None => Some (false, sc)
  | Some (offset, header) =>
      let keyBytes := StringToBytes key in
      match valueForOffset shard offset with
      | None => Some (false, sc)
      | Some value =>
          let header' :=
            {| eh_ExpireAt := expire_at now ttl; eh_Hash64 := eh_Hash64 header;
               eh_KeyLen := u16 (Z.of_nat (length keyBytes));
               eh_ValLen := u16 (Z.of_nat (length value));
               eh_ValCap := eh_ValCap header; eh_Flags := eh_Flags header |} in
          match write_entry shard hash header' keyBytes value with
          | inl _ => Some (false, sc)
          | inr s' => Some (true, put_shard sc hash s')
          end
      end
  end.

Definition nanosPerSecond : Z := 1000000000.

Definition ShardedCache_TTL (now : Z) (sc : ShardedCache) (key : string) : option (Z * bool) :=
  let hash := cache_hash sc key in
  shard ← cache_getShard sc hash;
  match zs_index shard !! hash with
  | None => Some (-2 * nanosPerSecond, false)
  | Some raw =>
      if isInlineInt raw then Some (-1, true)
      else
        match ReadAt (zs_ring shard) (i64 raw) with
        | inl _ => Some (-2 * nanosPerSecond, false)
        | inr (_, _, header) =>
            if eh_ExpireAt header =? 0 then Some (-1, true)
            else
              let remaining := i64 (eh_ExpireAt header - now) in
              if remaining <? 0 then Some (-2 * nanosPerSecond, false) else Some (remaining, true)
        end
  end.

Definition ShardedCache_Exists (now : Z) (sc : ShardedCache) (key : string)
    : option (bool * ShardedCache) :=
  r ← ShardedCache_Get now sc key;
  let '(o, sc') := r in Some (bool_decide (is_Some o), sc').

Definition ShardedCache_Len (sc : ShardedCache) : Z :=
  foldr (λ s n, Z.of_nat (size (zs_index s)) + n) 0 (sc_shards sc).

Definition ShardedCache_Clear (sc : ShardedCache) : ShardedCache :=
  mkCache ((λ s, mkShard ∅ (Ring_Reset (zs_ring s)) (TinyLFU_Clear (zs_lfu s))) <$> sc_shards sc)
    (sc_shardCount sc) (sc_seed sc) (sc_sampleSize sc) (sc_skipLFU sc) ∅ (sc_slotFunc sc).

Record CacheStats := mkCacheStats {
  cs_KeyCount : Z;
  cs_TotalWrites : Z;
  cs_TotalEvicts : Z
}.

Definition ShardedCache_Stats (sc : ShardedCache) : CacheStats :=
  foldl (λ st s,
    let '(writes, evicts) := Ring_Stats (zs_ring s) in
    mkCacheStats (cs_KeyCount st + Z.of_nat (size (zs_index s)))
      (cs_TotalWrites st + writes) (cs_TotalEvicts st + evicts))
    (mkCacheStats 0 0 0) (sc_shards sc).

Definition ShardedCache_Frequency (sc : ShardedCache) (key : string) : option Z :=
  let hash := cache_hash sc key in
  shard ← cache_getShard sc hash;
  TinyLFU_Frequency (zs_lfu shard) hash.

(** ** Listing keys

    Ranging over the index of a shard yields its offsets in some order. *)

Section listing.
Context `{!GoRange Z Z}.

(** The offsets of the shard's index, in the order of the range. *)
Definition shard_offsets (s : ZeroGCShard) : list Z := i64 <$> (go_range (zs_index s)).*2.

Fixpoint random_keys_shard (now : Z) (s : ZeroGCShard) (result : list string) (n : Z)
    (offsets : list Z) : list string * bool :=
  match offsets with
  | [] => (result, false)
  | offset :: offsets' =>
      if n <=? Z.of_nat (length result) then (result, true)
      else
        match keyForOffset now s offset with
        | None => random_keys_shard now s result n offsets'
        | Some key => random_keys_shard now s (result ++ [key]) n offsets'
        end
  end.

Fixpoint cache_random_keys (now : Z) (shards : list ZeroGCShard) (result : list string) (n : Z)
    : list string :=
  match shards with
  | [] => result
  | s :: shards' =>
      let '(result, stop) := random_keys_shard now s result n (shard_offsets s) in
      if (stop : bool) then result
      else if n <=? Z.of_nat (length result) then result
      else cache_random_keys now shards' result n
  end.

Definition ShardedCache_RandomKeys (now : Z) (sc : ShardedCache) (n : Z) : list string :=
  if n <=? 0 then [] else cache_random_keys now (sc_shards sc) [] n.

(** The keys of a shard that can be read. *)
Definition shard_keys (now : Z) (s : ZeroGCShard) : list string :=
  omap (keyForOffset now s) (shard_offsets s).

Definition scan_match (path_match : string → string → bool) (pattern key : string) : bool :=
  bool_decide (pattern = "") || matchPattern path_match pattern key.

Definition ShardedCache_Keys (path_match : string → string → bool) (now : Z) (sc : ShardedCache)
    (pattern : string) : list string :=
  let pattern := if bool_decide (pattern = "*") then "" else pattern in
  concat ((λ s, filter (λ key, scan_match path_match pattern key = true) (shard_keys now s))
            <$> sc_shards sc).

(** *** Sampled eviction *)

Record victim := mkVictim { vi_hash : Z; vi_freq : Z; vi_count : Z; vi_has : bool }.

Definition maxInt : Z := 2 ^ 63 - 1.

(** The loop over the sampled index; entries found expired are deleted. *)
Fixpoint sample_loop (now : Z) (s : ZeroGCShard) (sampleSize : Z) (needVolatile : bool)
    (entries : list (Z * Z)) (index : gmap Z Z) (v : victim) : option (gmap Z Z * victim) :=
  match entries with
  | [] => Some (index, v)
  | (h, offset) :: entries' =>
      let continue := sample_loop now s sampleSize needVolatile entries' in
      match ReadAt (zs_ring s) (i64 offset) with
      | inl _ => continue index v
      | inr (storedKey, _, header) =>
          if bool_decide (BytesToString storedKey = "") then continue index v
          else if header_expired now header then continue (delete h index) v
          else if needVolatile && (eh_ExpireAt header =? 0) then continue index v
          else
            freq ← TinyLFU_Frequency (zs_lfu s) h;
            let v' :=
              if negb (vi_has v) || (freq <? vi_freq v)
              then mkVictim h freq (vi_count v + 1) true
              else mkVictim (vi_hash v) (vi_freq v) (vi_count v + 1) (vi_has v) in
            if sampleSize <=? vi_count v' then Some (index, v') else continue index v'
      end
  end.

Definition sampledEvictLocked (now : Z) (sampleSize : Z) (s : ZeroGCShard) (needVolatile : bool)
    : option (bool * ZeroGCShard) :=
  if bool_decide (size (zs_index s) = 0%nat) then Some (false, s)
  else
    r ← sample_loop now s sampleSize needVolatile (go_range (zs_index s)) (zs_index s)
          (mkVictim 0 maxInt 0 false);
    let '(index, v) := r in
    if negb (vi_has v) then Some (false, put_index s index)
    else Some (true, put_index s (delete (vi_hash v) index)).

Definition sampled_evict (now : Z) (sc : ShardedCache) (hash : Z) (needVolatile : bool)
    : option (bool * ShardedCache) :=
  shard ← cache_getShard sc hash;
  r ← sampledEvictLocked now (sc_sampleSize sc) shard needVolatile;
  let '(b, s') := r in Some (b, put_shard sc hash s').

Definition ShardedCache_SampledEvict (now : Z) (sc : ShardedCache) (hash : Z) :=
  sampled_evict now sc hash false.
Definition ShardedCache_SampledEvictVolatile (now : Z) (sc : ShardedCache) (hash : Z) :=
  sampled_evict now sc hash true.

(** *** Keys of a slot *)

Context `{!GoRange string unit}.

(** The candidates found, those found gone, and the cache after the lookups
    (which delete what they find expired). *)
Fixpoint slot_loop (now : Z) (count : Z) (candidates : list string)
    (result stale : list string) (sc : ShardedCache)
    : option (list string * list string * ShardedCache) :=
  match candidates with
  | [] => Some (result, stale, sc)
  | key :: candidates' =>
      if (0 <? count) && (count <=? Z.of_nat (length result)) then Some (result, stale, sc)
      else
        r ← ShardedCache_Exists now sc key;
        let '(b, sc') := r in
        if (b : bool) then slot_loop now count candidates' (result ++ [key]) stale sc'
        else slot_loop now count candidates' result (stale ++ [key]) sc'
  end.

Definition slot_cleanup (sc : ShardedCache) (slot : Z) (stale : list string) : ShardedCache :=
  match stale with
  | [] => sc
  | _ => slot_remove_keys sc slot stale
  end.

Definition ShardedCache_KeysInSlot (now : Z) (sc : ShardedCache) (slot count : Z)
    : option (list string * ShardedCache) :=
  match sc_slotIndex sc !! slot with
  | None => Some ([], sc)
  | Some keySet =>
      if bool_decide (size keySet = 0%nat) then Some ([], sc)
      else
        r ← slot_loop now count (go_range keySet).*1 [] [] sc;
        let '(result, stale, sc') := r in Some (result, slot_cleanup sc' slot stale)
  end.

Definition ShardedCache_CountKeysInSlot (now : Z) (sc : ShardedCache) (slot : Z)
    : option (Z * ShardedCache) :=
  match sc_slotIndex sc !! slot with
  | None => Some (0, sc)
  | Some keySet =>
      r ← slot_loop now 0 (go_range keySet).*1 [] [] sc;
      let '(result, stale, sc') := r in
      Some (Z.of_nat (length result), slot_cleanup sc' slot stale)
  end.

(** *** Scanning *)

Definition ShardedCache_Scan (path_match : string → string → bool) (now : Z) (sc : ShardedCache)
    (cursor : Z) (pattern : string) (count : Z) : option (list string * Z) :=
  let pattern := if bool_decide (pattern = "*") then "" else pattern in
  cursor_scan (scan_match path_match pattern) count
    ((λ s, sort_strings (shard_keys now s)) <$> sc_shards sc) cursor.

End listing.

(** ** Inline integers *)

Lemma testbit_63 v : is_u64 v → Z.testbit v 63 = (2 ^ 63 <=? v).
Proof.
  unfold is_u64. intros Hv. rewrite Z.testbit_eqb by lia.
  destruct (Z.leb_spec (2 ^ 63) v).
  - replace v with (1 * 2 ^ 63 + (v - 2 ^ 63)) by lia. rewrite Z.div_add_l by lia.
    rewrite (Z.div_small (v - 2 ^ 63)) by lia. done.
  - rewrite Z.div_small by lia. done.
Qed.

Lemma isInlineInt_spec v : is_u64 v → isInlineInt v = (2 ^ 63 <=? v).
Proof.
  intros Hv. rewrite <-testbit_63 by done. unfold isInlineInt, inlineFlag.
  destruct (Z.testbit v 63) eqn:E.
  - apply negb_true_iff, Z.eqb_neq. intros H0.
    assert (Z.testbit (Z.land v (Z.shiftl 1 63)) 63 = true) as H1.
    { rewrite Z.land_spec, E. done. }
    rewrite H0, Z.bits_0 in H1. done.
  - apply negb_false_iff, Z.eqb_eq. apply Z.bits_inj_0. intros n. rewrite Z.land_spec.
    destruct (decide (n = 63)) as [->|Hn]; [by rewrite E|].
    replace (Z.shiftl 1 63) with (2 ^ 63) by done.
    rewrite Z.pow2_bits_false by lia. by rewrite andb_false_r.
Qed.

Lemma land_inlineMask v : Z.land v inlineMask = v mod 2 ^ 63.
Proof. apply Z.land_ones. lia. Qed.

Lemma land_inlineFlag_small v : 0 ≤ v < 2 ^ 63 → Z.land inlineFlag v = 0.
Proof.
  intros Hv. rewrite Z.land_comm. apply Z.eqb_eq, negb_false_iff.
  change (isInlineInt v = false). rewrite isInlineInt_spec by (unfold is_u64; lia).
  apply Z.leb_gt. lia.
Qed.

Lemma encodeInlineInt_spec v : encodeInlineInt v = 2 ^ 63 + v mod 2 ^ 63.
Proof.
  unfold encodeInlineInt, u64. rewrite land_inlineMask.
  replace ((v mod 2 ^ 64) mod 2 ^ 63) with (v mod 2 ^ 63)
    by (symmetry; apply Z.mod_mod_divide; by exists 2).
  rewrite <-Z.lxor_lor, <-Z.add_nocarry_lxor by (apply land_inlineFlag_small, Z.mod_pos_bound; lia).
  done.
Qed.

Lemma encodeInlineInt_u64 v : is_u64 (encodeInlineInt v).
Proof. rewrite encodeInlineInt_spec. unfold is_u64. pose proof (Z.mod_pos_bound v (2 ^ 63)). lia. Qed.

Lemma isInlineInt_encode v : isInlineInt (encodeInlineInt v) = true.
Proof.
  rewrite isInlineInt_spec by apply encodeInlineInt_u64. rewrite encodeInlineInt_spec.
  pose proof (Z.mod_pos_bound v (2 ^ 63)). apply Z.leb_le. lia.
Qed.

Lemma decode_encode v : decodeInlineInt (encodeInlineInt v) = v mod 2 ^ 63.
Proof.
  unfold decodeInlineInt. rewrite land_inlineMask, encodeInlineInt_spec.
  pose proof (Z.mod_pos_bound v (2 ^ 63)).
  rewrite <-Z.add_mod_idemp_l, Z.mod_same, Z.add_0_l, Z.mod_mod by lia.
  apply i64_id. unfold is_i64. lia.
Qed.

(** ** [recordAccess] *)

Lemma recordAccess_skip fuel sc h : sc_skipLFU sc = true → recordAccess fuel sc h = Some tt.
Proof. intros H. by destruct fuel; unfold recordAccess; rewrite H. Qed.

Lemma recordAccess_loops fuel sc h : sc_skipLFU sc = false → recordAccess fuel sc h = None.
Proof. intros H. induction fuel as [|f IH]; unfold recordAccess; rewrite H; [done|]. exact IH. Qed.

(** ** The cells of the index

    What the index holds for a hash: an integer, or the entry it points at. *)

Inductive cell :=
  | CInt (v : Z)
  | CEntry (key : string) (value : list byte) (expireAt : Z).

Definition shard_cell (s : ZeroGCShard) (h : Z) : option cell :=
  raw ← zs_index s !! h;
  if isInlineInt raw then Some (CInt (decodeInlineInt raw))
  else
    match ReadAt (zs_ring s) (i64 raw) with
    | inl _ => None
    | inr (k, v, hd) => Some (CEntry (BytesToString k) v (eh_ExpireAt hd))
    end.

Definition cache_cell (sc : ShardedCache) (h : Z) : option cell :=
  s ← cache_getShard sc h; shard_cell s h.

(** A shard whose ring buffer has not wrapped yet: every indexed entry is
    readable below the write position, and no two of them share a byte. *)
Definition entry_below (rb : RingBuffer) (raw : Z) : Prop :=
  ∃ k v hd, ReadAt rb raw = inr (k, v, hd) ∧ raw + headerEntrySize hd ≤ rb_tail rb.

Definition entries_disjoint (rb : RingBuffer) (r1 r2 : Z) : Prop :=
  ∀ k1 v1 hd1 k2 v2 hd2,
    ReadAt rb r1 = inr (k1, v1, hd1) → ReadAt rb r2 = inr (k2, v2, hd2) →
    r1 + headerEntrySize hd1 ≤ r2 ∨ r2 + headerEntrySize hd2 ≤ r1.

Record shard_fresh (s : ZeroGCShard) : Prop := {
  sf_ring : ring_wf (zs_ring s);
  sf_capacity : rb_capacity (zs_ring s) < 2 ^ 63;
  sf_used : rb_used (zs_ring s) ≤ rb_tail (zs_ring s);
  sf_raw h raw : zs_index s !! h = Some raw → is_u64 raw;
  sf_entry h raw :
    zs_index s !! h = Some raw → isInlineInt raw = false → entry_below (zs_ring s) raw;
  sf_disjoint h1 h2 r1 r2 :
    h1 ≠ h2 → zs_index s !! h1 = Some r1 → zs_index s !! h2 = Some r2 →
    isInlineInt r1 = false → isInlineInt r2 = false → entries_disjoint (zs_ring s) r1 r2
}.

Lemma raw_i64 s h raw :
  shard_fresh s → zs_index s !! h = Some raw → isInlineInt raw = false → i64 raw = raw.
Proof.
  intros Hf Hr Hi. pose proof (sf_raw _ Hf _ _ Hr) as Hu.
  rewrite isInlineInt_spec in Hi by done. unfold is_u64 in Hu.
  apply i64_id. unfold is_i64. lia.
Qed.

Lemma ReadAt_bounds rb off k v hd :
  ReadAt rb off = inr (k, v, hd) →
  0 ≤ off ∧ off + headerEntrySize hd ≤ rb_capacity rb ∧ headerSize ≤ headerEntrySize hd.
Proof.
  intros H. pose proof (ReadAt_header _ _ _ _ _ H) as Hh.
  apply readHeaderAt_Some in Hh as (? & ? & ?). split_and!; [done| |done].
  unfold ReadAt in H.
  destruct ((off <? 0) || (rb_capacity rb <? off + headerSize)); [done|].
  set (h := UnmarshalFrom (rb_data rb) (Z.to_nat off)) in *.
  destruct (Z.ltb_spec (rb_capacity rb) (off + headerSize + eh_KeyLen h + eh_ValLen h)); [done|].
  assert (h = hd) as <- by congruence. unfold headerEntrySize. lia.
Qed.

(** A ring update that writes one entry at [o] within [o, o + n). *)
Record ring_put (rb rb' : RingBuffer) (o n : Z) (k v : list byte) (hd : EntryHeader) : Prop := {
  rp_wf : ring_wf rb';
  rp_capacity : rb_capacity rb' = rb_capacity rb;
  rp_used : rb_used rb' ≤ rb_tail rb';
  rp_tail : rb_tail rb ≤ rb_tail rb';
  rp_read : ReadAt rb' o = inr (k, v, hd);
  rp_size : headerEntrySize hd ≤ n;
  rp_bound : o + n ≤ rb_tail rb';
  rp_frame p m : Z.of_nat (p + m) ≤ o ∨ o + n ≤ Z.of_nat p →
    slice (rb_data rb') p m = slice (rb_data rb) p m
}.

Section ring_put.
Context (s : ZeroGCShard) (rb' : RingBuffer) (h o n : Z) (k v : list byte) (hd : EntryHeader).
Context (Hf : shard_fresh s) (Hput : ring_put (zs_ring s) rb' o n k v hd).
Context (Hapart : ∀ h' raw k' v' hd',
  h' ≠ h → zs_index s !! h' = Some raw → isInlineInt raw = false →
  ReadAt (zs_ring s) raw = inr (k', v', hd') → raw + headerEntrySize hd' ≤ o ∨ o + n ≤ raw).

#[local] Set Default Proof Using "All".

Local Definition put_result : ZeroGCShard := mkShard (<[h := o]> (zs_index s)) rb' (zs_lfu s).

Lemma ring_put_other h' raw k' v' hd' :
  h' ≠ h → zs_index s !! h' = Some raw → isInlineInt raw = false →
  ReadAt (zs_ring s) raw = inr (k', v', hd') → ReadAt rb' raw = inr (k', v', hd').
Proof.
  intros Hne Hr Hi HR. pose proof (Hapart _ _ _ _ _ Hne Hr Hi HR).
  apply (ReadAt_frame (zs_ring s)); [apply Hf|apply Hput|done|].
  intros p m Hp Hm. apply (rp_frame _ _ _ _ _ _ _ Hput). lia.
Qed.

Lemma ring_put_o : 0 ≤ o < 2 ^ 63.
Proof.
  pose proof (ReadAt_bounds _ _ _ _ _ (rp_read _ _ _ _ _ _ _ Hput)) as (? & ? & ?).
  pose proof (sf_capacity _ Hf). rewrite (rp_capacity _ _ _ _ _ _ _ Hput) in *.
  unfold headerSize in *. lia.
Qed.

Lemma ring_put_inline : isInlineInt o = false.
Proof.
  pose proof ring_put_o. rewrite isInlineInt_spec by (unfold is_u64; lia). apply Z.leb_gt. lia.
Qed.

Lemma ring_put_fresh : shard_fresh put_result.
Proof.
  pose proof ring_put_o as Ho. split; simpl.
  - apply Hput.
  - rewrite (rp_capacity _ _ _ _ _ _ _ Hput). apply Hf.
  - apply Hput.
  - intros h' raw [[<- <-]|[Hne Hr]]%lookup_insert_Some; [unfold is_u64; lia|].
    by eapply sf_raw.
  - intros h' raw [[<- <-]|[Hne Hr]]%lookup_insert_Some Hi.
    + exists k, v, hd. split; [apply Hput|].
      pose proof (rp_size _ _ _ _ _ _ _ Hput). pose proof (rp_bound _ _ _ _ _ _ _ Hput). lia.
    + destruct (sf_entry _ Hf _ _ Hr Hi) as (k' & v' & hd' & HR & Hb).
      exists k', v', hd'. split; [by eapply ring_put_other|].
      pose proof (rp_tail _ _ _ _ _ _ _ Hput). lia.
  - intros h1 h2 r1 r2 Hne H1 H2 Hi1 Hi2. intros k1 v1 hd1 k2 v2 hd2 R1 R2.
    pose proof (rp_read _ _ _ _ _ _ _ Hput) as Ro. pose proof (rp_size _ _ _ _ _ _ _ Hput).
    apply lookup_insert_Some in H1 as [[<- <-]|[Hn1 H1]], H2 as [[<- <-]|[Hn2 H2]]; [done|..].
    + rewrite R1 in Ro. injection Ro as -> -> ->.
      destruct (sf_entry _ Hf _ _ H2 Hi2) as (k' & v' & hd' & HR & Hb).
      rewrite (ring_put_other _ _ _ _ _ (not_eq_sym Hne) H2 Hi2 HR) in R2. injection R2 as -> -> ->.
      pose proof (Hapart _ _ _ _ _ (not_eq_sym Hne) H2 Hi2 HR). lia.
    + rewrite R2 in Ro. injection Ro as -> -> ->.
      destruct (sf_entry _ Hf _ _ H1 Hi1) as (k' & v' & hd' & HR & Hb).
      rewrite (ring_put_other _ _ _ _ _ Hne H1 Hi1 HR) in R1. injection R1 as -> -> ->.
      pose proof (Hapart _ _ _ _ _ Hne H1 Hi1 HR). lia.
    + destruct (sf_entry _ Hf _ _ H1 Hi1) as (k1' & v1' & hd1' & HR1 & _).
      destruct (sf_entry _ Hf _ _ H2 Hi2) as (k2' & v2' & hd2' & HR2 & _).
      rewrite (ring_put_other _ _ _ _ _ (not_eq_sym Hn1) H1 Hi1 HR1) in R1.
      rewrite (ring_put_other _ _ _ _ _ (not_eq_sym Hn2) H2 Hi2 HR2) in R2.
      simplify_eq. by eapply (sf_disjoint _ Hf h1 h2).
Qed.

Lemma ring_put_cell h' :
  shard_cell put_result h' =
  if decide (h' = h) then Some (CEntry (BytesToString k) v (eh_ExpireAt hd)) else shard_cell s h'.
Proof.
  unfold shard_cell. simpl. case_decide as Hh.
  - subst h'. rewrite lookup_insert_eq. simpl. rewrite ring_put_inline.
    rewrite i64_id by (unfold is_i64; pose proof ring_put_o; lia).
    by rewrite (rp_read _ _ _ _ _ _ _ Hput).
  - rewrite lookup_insert_ne by done. destruct (zs_index s !! h') as [raw|] eqn:Hr; simpl; [|done].
    destruct (isInlineInt raw) eqn:Hi; [done|]. rewrite (raw_i64 s h' raw) by done.
    destruct (sf_entry _ Hf _ _ Hr Hi) as (k' & v' & hd' & HR & _).
    rewrite HR. by rewrite (ring_put_other _ _ _ _ _ Hh Hr Hi HR).
Qed.
End ring_put.

(** ** Requests on one key

    The cell of a key's hash determines what a request on that key answers and
    what it leaves; [cell_step] is that specification. *)

Inductive cache_req :=
  | QGet
  | QExists
  | QTTL
  | QSet (value : list byte) (ttl : Z)
  | QSetNX (value : list byte) (ttl : Z)
  | QSetXX (value : list byte) (ttl : Z)
  | QExpire (ttl : Z)
  | QIncrBy (delta : Z)
  | QDelete.

Inductive cache_resp :=
  | PValue (v : option (list byte))
  | PBool (b : bool)
  | PTTL (ttl : Z) (ok : bool)
  | PErr (e : rb_error)
  | PIncr (r : incr_result)
  | POk.

Definition write_resp (r : rb_error + bool) : cache_resp :=
  match r with inl e => PErr e | inr b => PBool b end.

Definition cache_step (now : Z) (key : string) (r : cache_req) (sc : ShardedCache)
    : option (cache_resp * ShardedCache) :=
  match r with
  | QGet => prod_map PValue id <$> ShardedCache_Get now sc key
  | QExists => prod_map PBool id <$> ShardedCache_Exists now sc key
  | QTTL => (λ '(t, ok), (PTTL t ok, sc)) <$> ShardedCache_TTL now sc key
  | QSet v ttl =>
      (λ '(e, sc'), (match e with None => POk | Some e => PErr e end, sc'))
        <$> ShardedCache_Set now sc key v ttl
  | QSetNX v ttl => prod_map write_resp id <$> ShardedCache_SetNX now sc key v ttl
  | QSetXX v ttl => prod_map write_resp id <$> ShardedCache_SetXX now sc key v ttl
  | QExpire ttl => prod_map PBool id <$> ShardedCache_Expire now sc key ttl
  | QIncrBy delta => prod_map PIncr id <$> ShardedCache_IncrBy now sc key delta
  | QDelete => prod_map PBool id <$> ShardedCache_Delete sc key
  end.

Definition expired (now e : Z) : bool := (0 <? e) && (e <? now).

(** The string entry of [key] in the cell, when it has not expired. *)
Definition cell_entry (now : Z) (key : string) (c : option cell) : option (list byte * Z) :=
  match c with
  | Some (CEntry k v e) =>
      if bool_decide (k = key) && negb (expired now e) then Some (v, e) else None
  | _ => None
  end.

Definition cell_read (now : Z) (key : string) (c : option cell) : option (list byte) * option cell :=
  match c with
  | Some (CInt n) => (Some (strconv_FormatInt n), c)
  | Some (CEntry k v e) =>
      if negb (bool_decide (k = key)) then (None, c)
      else if expired now e then (None, None) else (Some v, c)
  | None => (None, None)
  end.

Definition cell_ttl (now : Z) (c : option cell) : Z * bool :=
  match c with
  | Some (CInt _) => (-1, true)
  | Some (CEntry _ _ e) =>
      if e =? 0 then (-1, true)
      else if i64 (e - now) <? 0 then (-2 * nanosPerSecond, false) else (i64 (e - now), true)
  | None => (-2 * nanosPerSecond, false)
  end.

(** The integer an increment starts from; [None] is a value that is no integer. *)
Definition cell_int (now : Z) (key : string) (c : option cell) : option Z :=
  match c with
  | Some (CInt n) => Some n
  | _ =>
      match cell_entry now key c with
      | Some (v, _) => strconv_ParseInt v
      | None => Some 0
      end
  end.

Definition cell_step (now : Z) (key : string) (r : cache_req) (c : option cell)
    : cache_resp * option cell :=
  match r with
  | QGet => let '(v, c') := cell_read now key c in (PValue v, c')
  | QExists => let '(v, c') := cell_read now key c in (PBool (bool_decide (is_Some v)), c')
  | QTTL => let '(t, ok) := cell_ttl now c in (PTTL t ok, c)
  | QSet v ttl => (POk, Some (CEntry key v (expire_at now ttl)))
  | QSetNX v ttl =>
      match c with
      | Some (CEntry k _ e) =>
          if bool_decide (k = key) && ((e =? 0) || (now <=? e)) then (PBool false, c)
          else (PBool true, Some (CEntry key v (expire_at now ttl)))
      | _ => (PBool true, Some (CEntry key v (expire_at now ttl)))
      end
  | QSetXX v ttl =>
      match cell_entry now key c with
      | Some _ => (PBool true, Some (CEntry key v (expire_at now ttl)))
      | None => (PBool false, c)
      end
  | QExpire ttl =>
      match cell_entry now key c with
      | Some (v, _) => (PBool true, Some (CEntry key v (expire_at now ttl)))
      | None => (PBool false, c)
      end
  | QIncrBy delta =>
      match cell_int now key c with
      | Some n => (PIncr (IncrOk (i64 (n + delta))), Some (CInt (i64 (n + delta) mod 2 ^ 63)))
      | None => (PIncr CacheErrNotInteger, c)
      end
  | QDelete => (PBool (bool_decide (is_Some c)), None)
  end.

(** The value a request may write. *)
Definition req_value (now : Z) (key : string) (r : cache_req) (c : option cell) : option (list byte) :=
  match r with
  | QSet v _ | QSetNX v _ | QSetXX v _ => Some v
  | QExpire _ => fst <$> cell_entry now key c
  | _ => None
  end.

(** ** The cache before its ring buffers wrap *)

Record cache_fresh (sc : ShardedCache) : Prop := {
  cf_skip : sc_skipLFU sc = true;
  cf_count : 0 < sc_shardCount sc;
  cf_length : length (sc_shards sc) = Z.to_nat (sc_shardCount sc);
  cf_shards : Forall shard_fresh (sc_shards sc)
}.

(** There is room for the entry in the shard of the key, and its lengths fit the
    16-bit fields of a header. *)
Definition has_room (sc : ShardedCache) (key : string) (value : list byte) : Prop :=
  Z.of_nat (length (StringToBytes key)) < 2 ^ 16 ∧ Z.of_nat (length value) < 2 ^ 16 ∧
  ∀ s, cache_getShard sc (cache_hash sc key) = Some s →
    rb_tail (zs_ring s) + entry_size (StringToBytes key) value ≤ rb_capacity (zs_ring s).

Definition req_fits (now : Z) (sc : ShardedCache) (key : string) (r : cache_req) : Prop :=
  match req_value now key r (cache_cell sc (cache_hash sc key)) with
  | Some v => has_room sc key v
  | None => True
  end.

(** [sc'] is [sc] with the cell of [h] replaced by [c]. *)
Record cell_updated (sc sc' : ShardedCache) (h : Z) (c : option cell) : Prop := {
  cu_fresh : cache_fresh sc';
  cu_seed : sc_seed sc' = sc_seed sc;
  cu_cells h' : cache_cell sc' h' = if decide (h' = h) then c else cache_cell sc h'
}.

Lemma cache_getShard_Some sc h :
  cache_fresh sc → ∃ s, cache_getShard sc h = Some s ∧ shard_fresh s.
Proof.
  intros Hf. unfold cache_getShard.
  destruct (lookup_lt_is_Some_2 (sc_shards sc) (cache_shard_index sc h)) as [s Hs].
  { rewrite cf_length by done. unfold cache_shard_index. pose proof (cf_count _ Hf).
    pose proof (Z.mod_pos_bound h (sc_shardCount sc)). lia. }
  exists s. split; [done|]. eapply Forall_lookup_1; [apply Hf|done].
Qed.

Lemma put_shard_updated sc h s s' c :
  cache_fresh sc → cache_getShard sc h = Some s → shard_fresh s' →
  (∀ h', shard_cell s' h' = if decide (h' = h) then c else shard_cell s h') →
  cell_updated sc (put_shard sc h s') h c.
Proof.
  intros Hf Hs Hs' Hc. split; [split| |]; simpl; try apply Hf.
  - rewrite length_insert. apply Hf.
  - apply Forall_insert; [apply Hf|done].
  - done.
  - intros h'. unfold cache_cell, cache_getShard in *.
    change (cache_shard_index (put_shard sc h s') h') with (cache_shard_index sc h'). simpl.
    destruct (decide (cache_shard_index sc h' = cache_shard_index sc h)) as [E|E].
    + rewrite E, Hs, list_lookup_insert_eq by by eapply lookup_lt_Some. simpl. apply Hc.
    + rewrite list_lookup_insert_ne by done. rewrite decide_False by congruence. done.
Qed.

Lemma cell_updated_slots sc sc' h c slots :
  cell_updated sc sc' h c → cell_updated sc (put_slots sc' slots) h c.
Proof. intros [[] ? ?]. split; [by split|done|done]. Qed.

Lemma cell_updated_slot_add sc sc' h c key :
  cell_updated sc sc' h c → cell_updated sc (slot_add sc' key) h c.
Proof. unfold slot_add. destruct (sc_slotFunc sc'); eauto using cell_updated_slots. Qed.

Lemma cell_updated_slot_remove sc sc' h c key :
  cell_updated sc sc' h c → cell_updated sc (slot_remove sc' key) h c.
Proof.
  unfold slot_remove, slot_remove_keys. intros. destruct (sc_slotFunc sc'); [|done].
  destruct (sc_slotIndex sc' !! _); [|done]. case_bool_decide; eauto using cell_updated_slots.
Qed.

Lemma cell_updated_refl sc h c : cache_fresh sc → c = cache_cell sc h → cell_updated sc sc h c.
Proof. intros Hf ->. split; [done..|]. intros h'. by case_decide; subst. Qed.

Lemma cell_updated_skip sc sc' h c : cell_updated sc sc' h c → sc_skipLFU sc' = true.
Proof. intros []. by apply cf_skip. Qed.

(** *** Changes of the index alone *)

Lemma shard_fresh_index s index :
  shard_fresh s →
  (∀ h raw, index !! h = Some raw → zs_index s !! h = Some raw ∨ is_u64 raw ∧ isInlineInt raw = true) →
  shard_fresh (put_index s index).
Proof.
  intros Hf Hi. split; simpl; try apply Hf.
  - intros h raw Hr. destruct (Hi _ _ Hr) as [?|[? _]]; [by eapply sf_raw|done].
  - intros h raw Hr Hn. destruct (Hi _ _ Hr) as [?|[_ ?]]; [by eapply sf_entry|congruence].
  - intros h1 h2 r1 r2 Hne H1 H2 Hn1 Hn2.
    destruct (Hi _ _ H1) as [?|[_ ?]]; [|congruence].
    destruct (Hi _ _ H2) as [?|[_ ?]]; [|congruence]. by eapply (sf_disjoint _ Hf h1 h2).
Qed.

Lemma delete_cell s h h' :
  shard_cell (put_index s (delete h (zs_index s))) h' =
  if decide (h' = h) then None else shard_cell s h'.
Proof.
  unfold shard_cell. simpl. case_decide; subst.
  - by rewrite lookup_delete_eq.
  - by rewrite lookup_delete_ne by done.
Qed.

Lemma delete_fresh s h : shard_fresh s → shard_fresh (put_index s (delete h (zs_index s))).
Proof.
  intros Hf. apply shard_fresh_index; [done|]. intros h' raw [_ Hr]%lookup_delete_Some. by left.
Qed.

Lemma inline_cell s h v h' :
  shard_cell (put_index s (<[h := encodeInlineInt v]> (zs_index s))) h' =
  if decide (h' = h) then Some (CInt (v mod 2 ^ 63)) else shard_cell s h'.
Proof.
  unfold shard_cell. simpl. case_decide; subst.
  - rewrite lookup_insert_eq. simpl. by rewrite isInlineInt_encode, decode_encode.
  - by rewrite lookup_insert_ne by done.
Qed.

Lemma inline_fresh s h v :
  shard_fresh s → shard_fresh (put_index s (<[h := encodeInlineInt v]> (zs_index s))).
Proof.
  intros Hf. apply shard_fresh_index; [done|].
  intros h' raw [[_ <-]|[_ Hr]]%lookup_insert_Some; [right|by left].
  split; [apply encodeInlineInt_u64|apply isInlineInt_encode].
Qed.

(** *** Writes into the ring *)

(** A write that fits between the write position and the end of the array
    goes there and evicts nothing. *)
Lemma WriteWithEvict_at_tail rb hd k v :
  rb_used rb ≤ rb_tail rb → 0 ≤ rb_tail rb → rb_tail rb + entry_size k v ≤ rb_capacity rb →
  ∃ rb', WriteWithEvict rb hd k v = (inr (rb_tail rb, []), rb') ∧
    rb_data rb' = put_entry (rb_data rb) (rb_tail rb) hd k v ∧
    rb_capacity rb' = rb_capacity rb ∧
    rb_tail rb' = rb_tail rb + entry_size k v ∧ rb_used rb' = rb_used rb + entry_size k v.
Proof.
  intros Hu Ht Hr.
  assert (write_state rb (entry_size k v) =
          mkEv (rb_head rb) (rb_tail rb) (rb_used rb) [] (rb_evictCount rb)) as Hs.
  { unfold write_state. cbn [evict_fuel evict_while]. unfold need_space. cbn [es_used].
    destruct (Z.ltb_spec (rb_capacity rb - rb_used rb) (entry_size k v)); [lia|]. cbn [es_tail].
    destruct (Z.ltb_spec (rb_capacity rb) (rb_tail rb + entry_size k v)); [lia|done]. }
  pose proof (WriteWithEvict_fits rb hd k v ltac:(lia)) as HW. cbv zeta in HW. rewrite Hs in HW.
  eexists. split; [exact HW|]. by split_and!.
Qed.

Lemma WriteWithEvict_append rb hd k v :
  ring_wf rb → rb_used rb ≤ rb_tail rb → header_for hd k v →
  rb_tail rb + entry_size k v ≤ rb_capacity rb →
  ∃ rb', WriteWithEvict rb hd k v = (inr (rb_tail rb, []), rb') ∧
    ring_put rb rb' (rb_tail rb) (entry_size k v) k v hd.
Proof.
  intros Hwf Hu Hh Hr. pose proof Hwf as [Hl Hc Hhd Ht _].
  pose proof (entry_size_nonneg k v).
  destruct (WriteWithEvict_at_tail rb hd k v) as (rb' & HW & Hd & Hc' & Ht' & Hu'); [lia..|].
  exists rb'. split; [exact HW|].
  pose proof (WriteWithEvict_wf rb hd k v Hwf) as Hsafe. rewrite HW in Hsafe.
  destruct Hsafe as (_ & _ & Hwf' & _).
  split; try lia; try done.
  - by eapply (WriteWithEvict_reads_back rb).
  - destruct Hh as (_ & Hk & Hv). unfold headerEntrySize, entry_size. lia.
  - intros p m Hp. rewrite Hd. by apply slice_put_entry_old; [lia|].
Qed.

Lemma UpdateInPlace_put rb raw hd k v k0 v0 hd0 :
  ring_wf rb → rb_used rb ≤ rb_tail rb → header_for hd k v →
  ReadAt rb raw = inr (k0, v0, hd0) → raw + headerEntrySize hd0 ≤ rb_tail rb →
  match UpdateInPlace rb raw hd k v with
  | Some (true, rb') => ring_put rb rb' raw (headerEntrySize hd0) k v hd ∧ entry_size k v ≤ headerEntrySize hd0
  | Some (false, rb') => rb' = rb
  | None => False
  end.
Proof.
  intros Hwf Hu Hh HR Ht. pose proof (ReadAt_bounds _ _ _ _ _ HR) as (Ho & Hb & _).
  pose proof (ReadAt_header _ _ _ _ _ HR) as Hr. pose proof Hwf as [Hl _ _ _ _].
  pose proof (readHeaderAt_Some _ _ _ Hr) as (_ & Hs & _).
  pose proof (λ b rb', UpdateInPlace_wf rb raw hd k v b rb' Hwf) as Hwf'. pose proof (entry_size_nonneg k v).
  unfold UpdateInPlace, readHeaderAt in *.
  destruct ((raw <? 0) || (rb_capacity rb <? raw + headerSize)); [done|].
  injection Hr as Hr. rewrite Hr in *.
  destruct (Z.ltb_spec (headerEntrySize hd0) (entry_size k v)); [done|].
  rewrite (proj2 (Z.ltb_ge _ (raw + headerSize + Z.of_nat (length k)))) in * by (unfold entry_size in *; lia).
  specialize (Hwf' _ _ eq_refl). split; [|done]. split; cbn [rb_capacity rb_used rb_tail rb_data]; try lia; try done.
  - eapply (ReadAt_put_entry rb); simpl; [done|done|lia|done..].
  - destruct Hh as (_ & Hk & Hv). unfold headerEntrySize, entry_size in *. lia.
  - intros p m Hp. apply slice_put_entry_old; [lia|]. lia.
Qed.

Lemma write_entry_append s h hd key v :
  shard_fresh s → header_for hd (StringToBytes key) v →
  rb_tail (zs_ring s) + entry_size (StringToBytes key) v ≤ rb_capacity (zs_ring s) →
  ∃ s', write_entry s h hd (StringToBytes key) v = inr s' ∧ shard_fresh s' ∧
    ∀ h', shard_cell s' h' =
      if decide (h' = h) then Some (CEntry key v (eh_ExpireAt hd)) else shard_cell s h'.
Proof.
  intros Hf Hh Hr.
  destruct (WriteWithEvict_append (zs_ring s) hd (StringToBytes key) v) as (rb' & HW & Hput);
    [apply Hf|apply Hf|done|done|].
  unfold write_entry. rewrite HW. simpl.
  assert (∀ h' raw k' v' hd', h' ≠ h → zs_index s !! h' = Some raw → isInlineInt raw = false →
    ReadAt (zs_ring s) raw = inr (k', v', hd') →
    raw + headerEntrySize hd' ≤ rb_tail (zs_ring s) ∨
    rb_tail (zs_ring s) + entry_size (StringToBytes key) v ≤ raw) as Hap.
  { intros h' raw k' v' hd' _ Hraw Hi HR. left.
    destruct (sf_entry _ Hf _ _ Hraw Hi) as (? & ? & ? & HR' & Hb).
    rewrite HR in HR'. by injection HR' as -> -> ->. }
  pose proof (ring_put_o _ _ h _ _ _ _ _ Hf Hput Hap) as Ho.
  rewrite u64_id by (unfold is_u64; lia).
  eexists. split; [reflexivity|]. split; [by eapply ring_put_fresh|].
  intros h'. etrans; [by eapply ring_put_cell|]. by rewrite BytesToString_StringToBytes.
Qed.

(** *** The index entry of a key, by cases *)

Inductive cell_view (s : ZeroGCShard) (h : Z) : option cell → Prop :=
  | view_none : zs_index s !! h = None → cell_view s h None
  | view_int raw :
      zs_index s !! h = Some raw → isInlineInt raw = true →
      (∀ rb, ReadAt rb (i64 raw) = inl ErrInvalidOffset) →
      cell_view s h (Some (CInt (decodeInlineInt raw)))
  | view_entry raw k v hd :
      zs_index s !! h = Some raw → isInlineInt raw = false → i64 raw = raw →
      ReadAt (zs_ring s) raw = inr (k, v, hd) →
      raw + headerEntrySize hd ≤ rb_tail (zs_ring s) →
      cell_view s h (Some (CEntry (BytesToString k) v (eh_ExpireAt hd))).

Lemma inline_ReadAt raw rb :
  is_u64 raw → isInlineInt raw = true → ReadAt rb (i64 raw) = inl ErrInvalidOffset.
Proof.
  intros Hu Hi. rewrite isInlineInt_spec in Hi by done. unfold is_u64 in Hu.
  assert (i64 raw < 0) as Hneg.
  { unfold i64. replace (raw + 2 ^ 63) with (raw - 2 ^ 63 + 1 * 2 ^ 64) by lia.
    rewrite Z.mod_add, Z.mod_small by lia. lia. }
  unfold ReadAt. by rewrite (proj2 (Z.ltb_lt _ _) Hneg).
Qed.

Lemma shard_cell_view s h : shard_fresh s → cell_view s h (shard_cell s h).
Proof.
  intros Hf. unfold shard_cell. destruct (zs_index s !! h) as [raw|] eqn:Hr; simpl.
  - destruct (isInlineInt raw) eqn:Hi.
    + eapply view_int; [done|done|]. intros rb. apply inline_ReadAt; [by eapply sf_raw|done].
    + destruct (sf_entry _ Hf _ _ Hr Hi) as (k & v & hd & HR & Hb).
      pose proof (raw_i64 _ _ _ Hf Hr Hi) as Hraw. rewrite Hraw, HR. by eapply view_entry.
  - by apply view_none.
Qed.

Lemma cache_header_for now ttl h key v :
  is_u64 h → Z.of_nat (length (StringToBytes key)) < 2 ^ 16 → Z.of_nat (length v) < 2 ^ 16 →
  header_for (cache_header (expire_at now ttl) h (StringToBytes key) v) (StringToBytes key) v.
Proof.
  intros Hh Hk Hv. unfold header_for, header_ok, cache_header, EntryTypeString. simpl.
  assert (is_i64 (expire_at now ttl)).
  { unfold expire_at. zcase; [apply i64_range|]. unfold is_i64. lia. }
  rewrite !u16_id by (unfold is_u16; lia). unfold is_u16, is_u64 in *. split_and!; (done || lia).
Qed.

Lemma cache_hash_u64 sc key : is_u64 (cache_hash sc key).
Proof. apply u64_range. Qed.

Lemma live_entry_spec now s h key :
  shard_fresh s →
  match cell_entry now key (shard_cell s h) with
  | None => live_entry now s h key = None
  | Some (v, e) => ∃ raw k hd, live_entry now s h key = Some (raw, hd) ∧
      ReadAt (zs_ring s) raw = inr (k, v, hd) ∧ eh_ExpireAt hd = e ∧ BytesToString k = key
  end.
Proof.
  intros Hf. unfold live_entry.
  destruct (shard_cell_view s h Hf) as [Hr|raw Hr Hi HR|raw k v hd Hr Hi Hraw HR _]; rewrite Hr; simpl.
  - done.
  - by rewrite HR.
  - rewrite Hraw, HR. unfold key_eq, header_expired, expired.
    case_bool_decide; simpl; [|done].
    destruct ((0 <? eh_ExpireAt hd) && (eh_ExpireAt hd <? now)); simpl; [done|].
    by exists raw, k, hd.
Qed.

Lemma copy_to_fresh (l : list byte) : copy_at (replicate (length l) x00) 0 l = l.
Proof. induction l as [|b l IH]; simpl; [done|]. by rewrite IH. Qed.

Lemma ReadAtCopy_ReadAt rb off : ReadAtCopy rb off = ReadAt rb off.
Proof.
  unfold ReadAtCopy. destruct (ReadAt rb off) as [|[[k v] hd]]; [done|]. by rewrite !copy_to_fresh.
Qed.

Lemma live_entry_value now s h key v e raw hd :
  shard_fresh s → cell_entry now key (shard_cell s h) = Some (v, e) →
  live_entry now s h key = Some (raw, hd) → valueForOffset s raw = Some v ∧ header_ok hd.
Proof.
  intros Hf Hc Hl. pose proof (live_entry_spec now s h key Hf) as H. rewrite Hc in H.
  destruct H as (raw' & k & hd' & Hl' & HR & _). rewrite Hl in Hl'. injection Hl' as <- <-.
  unfold valueForOffset. rewrite ReadAtCopy_ReadAt, HR. split; [done|].
  apply ReadAt_header in HR. unfold readHeaderAt in HR.
  destruct ((raw <? 0) || (rb_capacity (zs_ring s) <? raw + headerSize)); [done|].
  injection HR as <-. apply UnmarshalFrom_ok.
Qed.

(** *** Every request implements its cell specification *)

Section requests.
Context (now : Z) (sc : ShardedCache) (key : string) (s : ZeroGCShard).
Context (Hfresh : cache_fresh sc) (Hs : cache_getShard sc (cache_hash sc key) = Some s).
Context (Hsf : shard_fresh s).

#[local] Set Default Proof Using "All".

#[local] Abbreviation h := (cache_hash sc key).

Lemma cell_here : cache_cell sc h = shard_cell s h.
Proof. unfold cache_cell. by rewrite Hs. Qed.

Lemma record_now sc' c hash : cell_updated sc sc' h c → recordAccess call_depth sc' hash = Some tt.
Proof. intros H. apply recordAccess_skip. by eapply cell_updated_skip. Qed.

Lemma record_same hash : recordAccess call_depth sc hash = Some tt.
Proof. apply recordAccess_skip, Hfresh. Qed.

Lemma delete_updated : cell_updated sc (put_shard sc h (put_index s (delete h (zs_index s)))) h None.
Proof.
  eapply put_shard_updated; [done|exact Hs|by apply delete_fresh|]. intros h'. apply delete_cell.
Qed.

Lemma Get_spec :
  let '(v, c) := cell_read now key (cache_cell sc h) in
  ∃ sc', ShardedCache_Get now sc key = Some (v, sc') ∧ cell_updated sc sc' h c.
Proof.
  rewrite cell_here. unfold ShardedCache_Get, cache_get_with. rewrite Hs. simpl.
  pose proof cell_here as Hc. revert Hc.
  destruct (shard_cell_view s h Hsf) as [Hr|raw Hr Hi HR|raw k v hd Hr Hi Hraw HR _];
    rewrite Hr; simpl; intros Hc.
  - exists sc. split; [done|]. by apply cell_updated_refl.
  - rewrite Hi, record_same. simpl. exists sc. split; [done|]. by apply cell_updated_refl.
  - rewrite Hi, Hraw, HR. unfold key_eq, header_expired, expired.
    case_bool_decide; simpl.
    + destruct ((0 <? eh_ExpireAt hd) && (eh_ExpireAt hd <? now)); simpl.
      * eexists. split; [done|]. apply delete_updated.
      * rewrite record_same. simpl. exists sc. split; [done|]. by apply cell_updated_refl.
    + exists sc. split; [done|]. by apply cell_updated_refl.
Qed.

Lemma TTL_spec : ShardedCache_TTL now sc key = Some (cell_ttl now (cache_cell sc h)).
Proof.
  rewrite cell_here. unfold ShardedCache_TTL. rewrite Hs. simpl.
  destruct (shard_cell_view s h Hsf) as [Hr|raw Hr Hi HR|raw k v hd Hr Hi Hraw HR _];
    rewrite Hr; simpl; [done|by rewrite Hi|].
  rewrite Hi, Hraw, HR. zcases; done.
Qed.

Lemma write_updated sc0 s0 v ttl :
  has_room sc key v → sc0 = sc → shard_fresh s0 → zs_ring s0 = zs_ring s →
  (∀ h', h' ≠ h → shard_cell s0 h' = shard_cell s h') →
  ∃ s', write_entry s0 h (cache_header (expire_at now ttl) h (StringToBytes key) v)
          (StringToBytes key) v = inr s' ∧
    cell_updated sc (put_shard sc0 h s') h (Some (CEntry key v (expire_at now ttl))).
Proof.
  intros (Hk & Hv & Hroom) -> Hf0 Hring Hcells.
  destruct (write_entry_append s0 h (cache_header (expire_at now ttl) h (StringToBytes key) v) key v)
    as (s' & Hw & Hf' & Hc'); [done| |rewrite Hring; by apply Hroom|].
  { apply cache_header_for; [apply cache_hash_u64|done|done]. }
  exists s'. split; [done|]. eapply put_shard_updated; [done|exact Hs|done|].
  intros h'. rewrite Hc'. by case_decide; [|apply Hcells].
Qed.

Lemma update_updated v ttl raw k v0 hd rb' :
  has_room sc key v → zs_index s !! h = Some raw → isInlineInt raw = false →
  ReadAt (zs_ring s) raw = inr (k, v0, hd) → raw + headerEntrySize hd ≤ rb_tail (zs_ring s) →
  UpdateInPlace (zs_ring s) raw (cache_header (expire_at now ttl) h (StringToBytes key) v)
    (StringToBytes key) v = Some (true, rb') →
  cell_updated sc (put_shard sc h (mkShard (zs_index s) rb' (zs_lfu s))) h
    (Some (CEntry key v (expire_at now ttl))).
Proof.
  intros (Hk & Hv & Hroom) Hr Hi HR Hb HU.
  pose proof (UpdateInPlace_put (zs_ring s) raw
    (cache_header (expire_at now ttl) h (StringToBytes key) v) (StringToBytes key) v k v0 hd) as Hup.
  rewrite HU in Hup. destruct Hup as [Hput _];
    [apply Hsf|apply Hsf|by apply cache_header_for; [apply cache_hash_u64|..]|done|done|].
  assert (∀ h' raw' k' v' hd', h' ≠ h → zs_index s !! h' = Some raw' → isInlineInt raw' = false →
    ReadAt (zs_ring s) raw' = inr (k', v', hd') →
    raw' + headerEntrySize hd' ≤ raw ∨ raw + headerEntrySize hd ≤ raw') as Hap.
  { intros h' raw' k' v' hd' Hne Hr' Hi' HR'.
    by apply (sf_disjoint _ Hsf h' h raw' raw Hne Hr' Hr Hi' Hi k' v' hd' k v0 hd). }
  pose proof (ring_put_fresh _ _ h _ _ _ _ _ Hsf Hput Hap) as Hf'.
  unfold put_result in Hf'. rewrite (insert_id (zs_index s)) in Hf' by done.
  eapply put_shard_updated; [done|exact Hs|exact Hf'|]. intros h'.
  pose proof (ring_put_cell _ _ h _ _ _ _ _ Hsf Hput Hap h') as Hc.
  unfold put_result in Hc. rewrite insert_id in Hc by done. rewrite Hc.
  by rewrite BytesToString_StringToBytes.
Qed.

Lemma Set_spec v ttl :
  has_room sc key v →
  ∃ sc', ShardedCache_Set now sc key v ttl = Some (None, sc') ∧
    cell_updated sc sc' h (Some (CEntry key v (expire_at now ttl))).
Proof.
  intros Hroom. unfold ShardedCache_Set. rewrite Hs. cbn [mbind option_bind].
  set (hdr := cache_header _ _ _ _).
  assert (∀ s0, shard_fresh s0 → zs_ring s0 = zs_ring s →
    (∀ h', h' ≠ h → shard_cell s0 h' = shard_cell s h') →
    ∃ sc', match write_entry s0 h hdr (StringToBytes key) v with
           | inl err => Some (Some err, put_shard sc h s0)
           | inr s' => _ ← recordAccess call_depth (slot_add (put_shard sc h s') key) h;
                       Some (None, slot_add (put_shard sc h s') key)
           end = Some (None, sc') ∧
      cell_updated sc sc' h (Some (CEntry key v (expire_at now ttl)))) as Hwrite.
  { intros s0 Hf0 Hr0 Hc0. destruct (write_updated sc s0 v ttl Hroom eq_refl Hf0 Hr0 Hc0) as (s' & Hw & Hu).
    unfold hdr. rewrite Hw. apply (cell_updated_slot_add _ _ _ _ key) in Hu.
    rewrite (record_now _ _ _ Hu). simpl. by eexists. }
  destruct (shard_cell_view s h Hsf) as [Hr|raw Hr Hi HR|raw k v0 hd Hr Hi Hraw HR Hb]; rewrite Hr.
  - by apply Hwrite.
  - rewrite Hi. apply Hwrite; [by apply delete_fresh|done|].
    intros h' Hne. rewrite delete_cell. by rewrite decide_False.
  - rewrite Hi, Hraw.
    destruct (UpdateInPlace (zs_ring s) raw hdr (StringToBytes key) v) as [[[|] rb']|] eqn:HU;
      [|by apply Hwrite|].
    2:{ exfalso. pose proof (UpdateInPlace_put (zs_ring s) raw hdr (StringToBytes key) v k v0 hd) as Hup. rewrite HU in Hup.
        destruct Hroom as (? & ? & _). apply Hup; [apply Hsf|apply Hsf|by apply cache_header_for; [apply cache_hash_u64|..]|done|done]. }
    pose proof (update_updated v ttl raw k v0 hd rb' Hroom Hr Hi HR Hb HU) as Hu.
    rewrite (record_now _ _ _ Hu). simpl. by eexists.
Qed.

Lemma SetNX_spec v ttl :
  has_room sc key v →
  ∃ b sc' c, ShardedCache_SetNX now sc key v ttl = Some (inr b, sc') ∧
    cell_step now key (QSetNX v ttl) (cache_cell sc h) = (PBool b, c) ∧ cell_updated sc sc' h c.
Proof.
  intros Hroom. rewrite cell_here. unfold ShardedCache_SetNX. rewrite Hs. cbn [mbind option_bind].
  destruct (write_updated sc s v ttl Hroom eq_refl Hsf eq_refl ltac:(done)) as (s' & Hw & Hu).
  rewrite Hw, (record_now _ _ _ Hu). apply (cell_updated_slot_add _ _ _ _ key) in Hu.
  unfold setnx_blocked. pose proof cell_here as Hc. revert Hc.
  destruct (shard_cell_view s h Hsf) as [Hr|raw Hr Hi HR|raw k v0 hd Hr Hi Hraw HR _];
    rewrite Hr; simpl; intros Hc.
  - by eexists _, _, _.
  - rewrite HR. by eexists _, _, _.
  - rewrite Hraw, HR. unfold key_eq.
    destruct (bool_decide (BytesToString k = key) &&
              ((eh_ExpireAt hd =? 0) || (now <=? eh_ExpireAt hd))); eexists _, _, _.
    + split_and!; [done|done|]. by apply cell_updated_refl.
    + by split_and!.
Qed.

Lemma SetXX_spec v ttl :
  has_room sc key v →
  ∃ b sc' c, ShardedCache_SetXX now sc key v ttl = Some (inr b, sc') ∧
    cell_step now key (QSetXX v ttl) (cache_cell sc h) = (PBool b, c) ∧ cell_updated sc sc' h c.
Proof.
  intros Hroom. unfold ShardedCache_SetXX. rewrite Hs. cbn [mbind option_bind cell_step].
  destruct (write_updated sc s v ttl Hroom eq_refl Hsf eq_refl ltac:(done)) as (s' & Hw & Hu).
  pose proof (live_entry_spec now s h key Hsf) as Hl. rewrite <-cell_here in Hl.
  destruct (cell_entry now key (cache_cell sc h)) as [[v0 e]|].
  - destruct Hl as (raw & k & hd & -> & _). rewrite Hw, (record_now _ _ _ Hu). by eexists _, _, _.
  - rewrite Hl. eexists _, _, _. split_and!; [done|done|]. by apply cell_updated_refl.
Qed.

Lemma Expire_spec ttl :
  req_fits now sc key (QExpire ttl) →
  ∃ b sc' c, ShardedCache_Expire now sc key ttl = Some (b, sc') ∧
    cell_step now key (QExpire ttl) (cache_cell sc h) = (PBool b, c) ∧ cell_updated sc sc' h c.
Proof.
  unfold req_fits, req_value. intros Hroom.
  unfold ShardedCache_Expire. rewrite Hs. cbn [mbind option_bind cell_step].
  pose proof (live_entry_spec now s h key Hsf) as Hl. rewrite <-cell_here in Hl.
  destruct (cell_entry now key (cache_cell sc h)) as [[v e]|] eqn:Hc; simpl in Hroom; last first.
  { rewrite Hl. eexists _, _, _. split_and!; [done|done|]. by apply cell_updated_refl. }
  destruct Hl as (raw & k & hd & Hl & _). rewrite Hl. rewrite cell_here in Hc.
  destruct (live_entry_value _ _ _ _ _ _ _ _ Hsf Hc Hl) as [-> Hok].
  destruct Hroom as (Hk & Hv & Hroom).
  match goal with |- context [write_entry s h ?hdr _ _] =>
    destruct (write_entry_append s h hdr key v) as (s' & -> & Hf' & Hc')
  end; [done| |by apply Hroom|].
  - destruct Hok as (_ & H2 & H3 & H4 & H5 & H6). unfold header_for, header_ok. simpl.
    assert (is_i64 (expire_at now ttl)).
    { unfold expire_at. zcase; [apply i64_range|]. unfold is_i64. lia. }
    rewrite !u16_id by (unfold is_u16; lia). unfold is_u16 in *. split_and!; (done || lia).
  - eexists _, _, _. split_and!; [done|done|]. by eapply put_shard_updated.
Qed.

Lemma IncrBy_spec delta :
  is_i64 delta →
  ∃ r sc' c, ShardedCache_IncrBy now sc key delta = Some (r, sc') ∧
    cell_step now key (QIncrBy delta) (cache_cell sc h) = (PIncr r, c) ∧ cell_updated sc sc' h c.
Proof.
  intros Hd. unfold ShardedCache_IncrBy. rewrite Hs. cbn [mbind option_bind cell_step].
  assert (∀ n, cell_updated sc
    (put_shard sc h (put_index s (<[h := encodeInlineInt n]> (zs_index s)))) h
    (Some (CInt (n mod 2 ^ 63)))) as Hstore.
  { intros n. eapply put_shard_updated; [done|exact Hs|by apply inline_fresh|].
    intros h'. apply inline_cell. }
  assert (H0 : i64 (0 + delta) = delta) by by apply i64_id.
  rewrite cell_here. unfold cell_int. pose proof cell_here as Hc. revert Hc.
  destruct (shard_cell_view s h Hsf) as [Hr|raw Hr Hi HR|raw k v hd Hr Hi Hraw HR _];
    rewrite Hr; cbn [cell_entry]; intros Hc.
  - rewrite (record_now _ _ _ (Hstore delta)), H0. eexists _, _, _. split_and!; [done|done|]. by apply cell_updated_slot_add.
  - rewrite Hi. rewrite (record_now _ _ _ (Hstore _)). by eexists _, _, _.
  - rewrite Hi, Hraw, HR. unfold key_eq, header_expired, expired.
    case_bool_decide; cbn [negb andb]; [|rewrite (record_now _ _ _ (Hstore delta)), H0; by eexists _, _, _].
    destruct ((0 <? eh_ExpireAt hd) && (eh_ExpireAt hd <? now)); cbn [negb].
    + rewrite (record_now _ _ _ (Hstore delta)), H0. by eexists _, _, _.
    + destruct (strconv_ParseInt v) as [n|].
      * rewrite (record_now _ _ _ (Hstore _)). by eexists _, _, _.
      * eexists _, _, _. split_and!; [done|done|]. by apply cell_updated_refl.
Qed.

Lemma Delete_spec :
  ∃ b sc', ShardedCache_Delete sc key = Some (b, sc') ∧
    cell_step now key QDelete (cache_cell sc h) = (PBool b, None) ∧ cell_updated sc sc' h None.
Proof.
  unfold ShardedCache_Delete. rewrite Hs. cbn [mbind option_bind cell_step].
  rewrite cell_here. pose proof cell_here as Hc. revert Hc.
  destruct (shard_cell_view s h Hsf) as [Hr|raw Hr Hi HR|raw k v hd Hr Hi Hraw HR _];
    rewrite Hr; intros Hc; eexists _, _; split_and!; try done.
  - by apply cell_updated_refl.
  - by apply cell_updated_slot_remove, delete_updated.
  - by apply cell_updated_slot_remove, delete_updated.
Qed.
End requests.

Lemma cache_step_cell now sc key r :
  cache_fresh sc → req_fits now sc key r → (∀ d, r = QIncrBy d → is_i64 d) →
  let h := cache_hash sc key in
  ∃ resp sc' c, cache_step now key r sc = Some (resp, sc') ∧
    cell_step now key r (cache_cell sc h) = (resp, c) ∧ cell_updated sc sc' h c.
Proof.
  intros Hf Hfit Hd h. destruct (cache_getShard_Some sc h Hf) as (s & Hs & Hsf).
  destruct r as [| | |v ttl|v ttl|v ttl|ttl|delta|]; cbn [cache_step].
  - pose proof (Get_spec now sc key s Hf Hs Hsf) as H. simpl.
    destruct (cell_read now key (cache_cell sc h)) as [v c] eqn:E. unfold h in E. rewrite E in H.
    destruct H as (sc' & -> & Hu). by eexists _, _, _.
  - pose proof (Get_spec now sc key s Hf Hs Hsf) as H. simpl. unfold ShardedCache_Exists.
    destruct (cell_read now key (cache_cell sc h)) as [v c] eqn:E. unfold h in E. rewrite E in H.
    destruct H as (sc' & -> & Hu). by eexists _, _, _.
  - rewrite (TTL_spec now sc key s Hf Hs Hsf). simpl.
    destruct (cell_ttl now (cache_cell sc (cache_hash sc key))) as [t ok] eqn:E. unfold h. rewrite E.
    eexists _, _, _. split_and!; [done|done|]. by apply cell_updated_refl.
  - destruct (Set_spec now sc key s Hf Hs Hsf v ttl Hfit) as (sc' & -> & Hu). by eexists _, _, _.
  - destruct (SetNX_spec now sc key s Hf Hs Hsf v ttl Hfit) as (b & sc' & c & -> & Hc & Hu).
    by eexists _, _, _.
  - destruct (SetXX_spec now sc key s Hf Hs Hsf v ttl Hfit) as (b & sc' & c & -> & Hc & Hu).
    by eexists _, _, _.
  - destruct (Expire_spec now sc key s Hf Hs Hsf ttl Hfit) as (b & sc' & c & -> & Hc & Hu).
    by eexists _, _, _.
  - destruct (IncrBy_spec now sc key s Hf Hs Hsf delta (Hd _ eq_refl)) as (b & sc' & c & -> & Hc & Hu).
    by eexists _, _, _.
  - destruct (Delete_spec now sc key s Hf Hs Hsf) as (b & sc' & -> & Hc & Hu). by eexists _, _, _.
Qed.

(** ** Sequences of requests *)

Definition request : Type := Z * string * cache_req.

Fixpoint cache_run (trace : list request) (sc : ShardedCache) : option (list cache_resp * ShardedCache) :=
  match trace with
  | [] => Some ([], sc)
  | (now, key, r) :: trace' =>
      p ← cache_step now key r sc;
      let '(resp, sc1) := p in
      q ← cache_run trace' sc1;
      let '(resps, sc2) := q in Some (resp :: resps, sc2)
  end.

(** The specification: one cell per hash. *)
Fixpoint cells_run (hash : string → Z) (trace : list request) (m : Z → option cell)
    : list cache_resp * (Z → option cell) :=
  match trace with
  | [] => ([], m)
  | (now, key, r) :: trace' =>
      let '(resp, c) := cell_step now key r (m (hash key)) in
      let '(resps, m') := cells_run hash trace' (λ h, if decide (h = hash key) then c else m h) in
      (resp :: resps, m')
  end.

(** Every entry of the run is written before its ring buffer wraps. *)
Fixpoint run_fits (trace : list request) (sc : ShardedCache) : Prop :=
  match trace with
  | [] => True
  | (now, key, r) :: trace' =>
      req_fits now sc key r ∧ (∀ d, r = QIncrBy d → is_i64 d) ∧
      ∀ resp sc', cache_step now key r sc = Some (resp, sc') → run_fits trace' sc'
  end.

Lemma cells_run_ext hash trace m1 m2 :
  (∀ h, m1 h = m2 h) →
  (cells_run hash trace m1).1 = (cells_run hash trace m2).1 ∧
  ∀ h, (cells_run hash trace m1).2 h = (cells_run hash trace m2).2 h.
Proof.
  revert m1 m2. induction trace as [|[[now key] r] trace IH]; intros m1 m2 Hm; [done|].
  simpl. rewrite Hm. destruct (cell_step now key r (m2 (hash key))) as [resp c].
  set (m1' := λ h, if decide (h = hash key) then c else m1 h).
  set (m2' := λ h, if decide (h = hash key) then c else m2 h).
  destruct (IH m1' m2') as [H1 H2].
  { intros h. unfold m1', m2'. by case_decide. }
  destruct (cells_run hash trace m1') as [l1 f1], (cells_run hash trace m2') as [l2 f2].
  simpl in *. by rewrite H1.
Qed.

Lemma cache_run_cells trace sc :
  cache_fresh sc → run_fits trace sc →
  ∃ resps sc', cache_run trace sc = Some (resps, sc') ∧ cache_fresh sc' ∧
    resps = (cells_run (cache_hash sc) trace (cache_cell sc)).1 ∧
    ∀ h, cache_cell sc' h = (cells_run (cache_hash sc) trace (cache_cell sc)).2 h.
Proof.
  revert sc. induction trace as [|[[now key] r] trace IH]; intros sc Hf Hfits.
  { by exists [], sc. }
  destruct Hfits as (Hfit & Hd & Hrest). simpl.
  destruct (cache_step_cell now sc key r Hf Hfit Hd) as (resp & sc1 & c & Hstep & Hcell & [Hf1 Hseed Hcells]).
  rewrite Hstep, Hcell. simpl.
  destruct (IH sc1 Hf1 (Hrest _ _ Hstep)) as (resps & sc2 & Hrun & Hf2 & Hresps & Hc2).
  assert (cache_hash sc1 = cache_hash sc) as Hhash by (unfold cache_hash; by rewrite Hseed).
  rewrite Hhash in Hresps, Hc2. rewrite Hrun. simpl.
  destruct (cells_run_ext (cache_hash sc) trace (cache_cell sc1)
    (λ h, if decide (h = cache_hash sc key) then c else cache_cell sc h) Hcells) as [E1 E2].
  destruct (cells_run (cache_hash sc) trace (λ h, if decide (h = cache_hash sc key) then c else cache_cell sc h))
    as [l m]. simpl in *.
  exists (resp :: resps), sc2. split_and!; [done|done|by rewrite Hresps, E1|].
  intros h. by rewrite Hc2, E2.
Qed.

Lemma NewRingBuffer_empty n :
  n < 2 ^ 63 → ring_wf (NewRingBuffer n) ∧ rb_capacity (NewRingBuffer n) < 2 ^ 63 ∧
  rb_used (NewRingBuffer n) = 0 ∧ rb_tail (NewRingBuffer n) = 0.
Proof.
  intros Hn. split; [apply NewRingBuffer_wf|]. unfold NewRingBuffer.
  change minRingBufferSize with 1048576.
  zcase; cbn [rb_capacity rb_used rb_tail]; lia.
Qed.

Lemma NewShardedCache_fresh cfg seed :
  cfg_SkipLFU cfg = true → cfg_ShardCount cfg < 2 ^ 64 → cfg_RingSize cfg < 2 ^ 63 →
  cache_fresh (NewShardedCache cfg seed) ∧ ∀ h, cache_cell (NewShardedCache cfg seed) h = None.
Proof.
  intros Hskip Hc Hr. unfold NewShardedCache.
  set (count := if cfg_ShardCount cfg <=? 0 then _ else _).
  set (ring := if cfg_RingSize cfg <=? 0 then _ else _).
  set (sh := mkShard _ _ _).
  assert (0 < count < 2 ^ 64) as Hcount by (unfold count, defaultShardedDictShards; zcase; lia).
  assert (ring < 2 ^ 63) as Hring by (unfold ring; zcase; [vm_compute; reflexivity|lia]).
  destruct (NewRingBuffer_empty ring Hring) as (Hwf & Hcap & Hu & Ht).
  assert (shard_fresh sh) as Hsh.
  { split; simpl; [done|done|lia|..]; intros *; rewrite lookup_empty; done. }
  unfold u64. rewrite Z.mod_small by lia. split.
  - split; simpl; [done|lia|by rewrite length_replicate|by apply Forall_replicate].
  - intros h. unfold cache_cell, cache_getShard. simpl.
    destruct (replicate (Z.to_nat count) sh !! _) as [s|] eqn:E; [|done].
    apply lookup_replicate in E as [-> _]. done.
Qed.

(** C1: The cache implements one cell per 64-bit hash. From a new cache that does not
    record accesses ([SkipLFU], which the store sets without a memory limit or with
    noeviction; otherwise [recordAccess] never ends, see [recordAccess_diverges]), every request of a run returns, and answers what the
    cell specification says, as long as keys and values are shorter than 64 KB, so
    that their lengths fit the header, and every entry is written before its ring
    buffer wraps. Keys with the same hash share a cell. *)
Theorem cache_refines_cells cfg seed trace :
  cfg_SkipLFU cfg = true → cfg_ShardCount cfg < 2 ^ 64 → cfg_RingSize cfg < 2 ^ 63 →
  let sc := NewShardedCache cfg seed in
  run_fits trace sc →
  ∃ sc', cache_run trace sc = Some ((cells_run (λ k, u64 (seed k)) trace (λ _, None)).1, sc') ∧
    ∀ h, cache_cell sc' h = (cells_run (λ k, u64 (seed k)) trace (λ _, None)).2 h.
Proof.
  intros Hskip Hc Hr sc Hfits. destruct (NewShardedCache_fresh cfg seed Hskip Hc Hr) as [Hf Hnone].
  destruct (cache_run_cells trace sc Hf Hfits) as (resps & sc' & Hrun & _ & Hresps & Hcells).
  destruct (cells_run_ext (cache_hash sc) trace (cache_cell sc) (λ _, None) Hnone) as [E1 E2].
  exists sc'. change (λ k, u64 (seed k)) with (cache_hash sc).
  split; [by rewrite Hrun, Hresps, E1|]. intros h. by rewrite Hcells, E2.
Qed.

Definition tiny_config : ShardedCacheConfig := mkCacheConfig 1 0 16 0 true.
Definition tiny_cache : ShardedCache := NewShardedCache tiny_config (λ s, Z.of_nat (String.length s)).

Lemma tiny_cache_fresh : cache_fresh tiny_cache.
Proof. apply NewShardedCache_fresh; [done|simpl; lia|simpl; lia]. Qed.

Lemma tiny_cache_room key v :
  Z.of_nat (length (StringToBytes key)) < 2 ^ 16 → Z.of_nat (length v) < 2 ^ 16 →
  has_room tiny_cache key v.
Proof.
  intros Hk Hv. split_and!; [done|done|]. intros s. unfold cache_getShard. simpl.
  intros [-> _]%(lookup_replicate 1). cbn [zs_ring].
  assert (rb_capacity (NewRingBuffer defaultRingSize) = 4194304) as -> by reflexivity.
  change (rb_tail (NewRingBuffer defaultRingSize)) with 0.
  unfold entry_size, headerSize. lia.
Qed.

Lemma cache_refines_cells_witness :
  let trace := [(5, "a", QSet [x31; x32] 10); (6, "a", QGet)] in
  (cells_run (λ k, u64 (Z.of_nat (String.length k))) trace (λ _, None)).1
    = [POk; PValue (Some [x31; x32])] ∧
  ∃ sc', cache_run trace tiny_cache = Some ([POk; PValue (Some [x31; x32])], sc').
Proof.
  split; [reflexivity|].
  destruct (cache_refines_cells tiny_config (λ s, Z.of_nat (String.length s))
    [(5, "a", QSet [x31; x32] 10); (6, "a", QGet)]) as (sc' & H & _); [done|simpl; lia|simpl; lia| |].
  - split_and!; [apply tiny_cache_room; simpl; lia|done|].
    intros resp sc' _. split_and!; done.
  - exists sc'. exact H.
Defined.

(** ** Consequences for clients *)

(** Set then get: whatever was there before, the value is read back until its
    deadline has passed, and every key with another hash keeps its cell. *)
Theorem cache_set_get sc key v ttl now now' :
  cache_fresh sc → has_room sc key v → 0 < now → is_i64 (now + Z.max ttl 0) →
  ∃ sc', ShardedCache_Set now sc key v ttl = Some (None, sc') ∧
    (∃ sc'', ShardedCache_Get now' sc' key =
       Some (if bool_decide (0 < ttl ∧ now + ttl < now') then None else Some v, sc'')) ∧
    ∀ h, h ≠ cache_hash sc key → cache_cell sc' h = cache_cell sc h.
Proof.
  intros Hf Hroom Hn Hr. destruct (cache_getShard_Some sc (cache_hash sc key) Hf) as (s & Hs & Hsf).
  destruct (Set_spec now sc key s Hf Hs Hsf v ttl Hroom) as (sc' & HS & [Hf' Hseed Hcells]).
  exists sc'. split; [done|]. split.
  - assert (cache_hash sc' key = cache_hash sc key) as Hh by (unfold cache_hash; by rewrite Hseed).
    destruct (cache_getShard_Some sc' (cache_hash sc' key) Hf') as (s' & Hs' & Hsf').
    pose proof (Get_spec now' sc' key s' Hf' Hs' Hsf') as HG.
    rewrite Hcells, decide_True in HG by done. simpl in HG.
    rewrite bool_decide_eq_true_2 in HG by done. simpl in HG. unfold is_i64 in Hr.
    assert (expired now' (expire_at now ttl) = bool_decide (0 < ttl ∧ now + ttl < now')) as He.
    { unfold expired, expire_at. symmetry. destruct (Z.ltb_spec 0 ttl).
      - rewrite i64_id by (unfold is_i64; lia).
        zcases; first [lia | apply bool_decide_eq_true; lia | apply bool_decide_eq_false; lia].
      - apply bool_decide_eq_false. lia. }
    rewrite <-He. destruct (expired now' (expire_at now ttl)); destruct HG as (sc'' & -> & _); by exists sc''.
  - intros h Hh. rewrite Hcells. by rewrite decide_False.
Qed.

Lemma cache_set_get_witness :
  ∃ sc', ShardedCache_Set 5 tiny_cache "a" [x31; x32] 10 = Some (None, sc') ∧
    (∃ sc'', ShardedCache_Get 16 sc' "a" = Some (None, sc'')) ∧
    ∀ h, h ≠ cache_hash tiny_cache "a" → cache_cell sc' h = cache_cell tiny_cache h.
Proof.
  apply (cache_set_get tiny_cache "a" [x31; x32] 10 5 16).
  - apply tiny_cache_fresh.
  - apply tiny_cache_room; simpl; lia.
  - lia.
  - unfold is_i64. lia.
Defined.

(** A counter loses its sign: the first increment of an absent key by a negative
    delta answers [delta], but the index keeps its lowest 63 bits only, so the
    key then reads as [2^63 + delta] and the next increment starts from there. *)
Theorem negative_counter_corrupted now now' sc key delta :
  cache_fresh sc → cache_cell sc (cache_hash sc key) = None → - 2 ^ 63 ≤ delta < 0 →
  ∃ sc', ShardedCache_IncrBy now sc key delta = Some (IncrOk delta, sc') ∧
    (∃ sc'', ShardedCache_Get now' sc' key = Some (Some (strconv_FormatInt (2 ^ 63 + delta)), sc'')) ∧
    ∃ sc'', ShardedCache_IncrBy now' sc' key 0 = Some (IncrOk (2 ^ 63 + delta), sc'').
Proof.
  intros Hf Hc Hd. assert (is_i64 delta) as Hi by (unfold is_i64; lia).
  destruct (cache_getShard_Some sc (cache_hash sc key) Hf) as (s & Hs & Hsf).
  destruct (IncrBy_spec now sc key s Hf Hs Hsf delta Hi) as (r & sc' & c & HI & Hstep & [Hf' Hseed Hcells]).
  rewrite Hc in Hstep. unfold cell_step, cell_int, cell_entry in Hstep.
  rewrite Z.add_0_l, i64_id in Hstep by done. injection Hstep as <- <-.
  assert (delta mod 2 ^ 63 = 2 ^ 63 + delta) as Hmod.
  { symmetry. apply (Z.mod_unique _ _ (-1)); lia. }
  assert (cache_hash sc' key = cache_hash sc key) as Hh by (unfold cache_hash; by rewrite Hseed).
  assert (cache_cell sc' (cache_hash sc' key) = Some (CInt (2 ^ 63 + delta))) as Hc'.
  { by rewrite Hcells, decide_True, Hmod by done. }
  destruct (cache_getShard_Some sc' (cache_hash sc' key) Hf') as (s' & Hs' & Hsf').
  exists sc'. split; [done|]. split.
  - pose proof (Get_spec now' sc' key s' Hf' Hs' Hsf') as HG. rewrite Hc' in HG. cbn [cell_read] in HG.
    destruct HG as (sc'' & -> & _). by exists sc''.
  - destruct (IncrBy_spec now' sc' key s' Hf' Hs' Hsf' 0 ltac:(done)) as (r & sc'' & c & HI' & Hstep & _).
    rewrite Hc' in Hstep. unfold cell_step, cell_int in Hstep.
    rewrite Z.add_0_r, i64_id in Hstep by (unfold is_i64; lia). injection Hstep as <- _. by exists sc''.
Qed.

Lemma negative_counter_corrupted_witness :
  ∃ sc', ShardedCache_IncrBy 1 tiny_cache "a" (-1) = Some (IncrOk (-1), sc') ∧
    (∃ sc'', ShardedCache_Get 2 sc' "a" = Some (Some (StringToBytes "9223372036854775807"), sc'')) ∧
    ∃ sc'', ShardedCache_IncrBy 2 sc' "a" 0 = Some (IncrOk 9223372036854775807, sc'').
Proof.
  apply (negative_counter_corrupted 1 2 tiny_cache "a" (-1)).
  - apply tiny_cache_fresh.
  - apply NewShardedCache_fresh; [done|simpl; lia|simpl; lia].
  - lia.
Defined.

(** [SetNX] takes a key that holds a counter for absent: it answers [true] and
    replaces the counter, which [Get] and [Exists] do see. *)
Theorem SetNX_overwrites_counter now sc key n v ttl :
  cache_fresh sc → has_room sc key v → cache_cell sc (cache_hash sc key) = Some (CInt n) →
  (∃ sc', ShardedCache_Exists now sc key = Some (true, sc')) ∧
  ∃ sc', ShardedCache_SetNX now sc key v ttl = Some (inr true, sc') ∧
    cache_cell sc' (cache_hash sc key) = Some (CEntry key v (expire_at now ttl)).
Proof.
  intros Hf Hroom Hc. destruct (cache_getShard_Some sc (cache_hash sc key) Hf) as (s & Hs & Hsf). split.
  - pose proof (Get_spec now sc key s Hf Hs Hsf) as HG. rewrite Hc in HG.
    destruct HG as (sc' & HG & _). unfold ShardedCache_Exists. rewrite HG. by exists sc'.
  - destruct (SetNX_spec now sc key s Hf Hs Hsf v ttl Hroom) as (b & sc' & c & HS & Hstep & [_ _ Hcells]).
    rewrite Hc in Hstep. injection Hstep as <- <-. exists sc'. split; [done|].
    by rewrite Hcells, decide_True by done.
Qed.

Definition small_shard (index : gmap Z Z) : ZeroGCShard :=
  mkShard index (mkRing (replicate 64 x00) 64 0 0 0 0 0) (NewTinyLFU 16).

Definition counter_cache : ShardedCache :=
  mkCache [small_shard {[1 := encodeInlineInt 7]}] 1 (λ s, Z.of_nat (String.length s)) 5 true ∅ None.

Lemma counter_cache_cell :
  cache_fresh counter_cache ∧ has_room counter_cache "a" [x78] ∧
  cache_cell counter_cache (cache_hash counter_cache "a") = Some (CInt 7).
Proof.
  split_and!; [|split_and!|].
  - split; [done|done|done|]. apply Forall_singleton.
    apply (inline_fresh (small_shard ∅) 1 7).
    split; simpl; [split; simpl; lia|lia|lia|..]; intros *; rewrite lookup_empty; done.
  - simpl. lia.
  - simpl. lia.
  - intros s Hs. assert (s = small_shard {[1 := encodeInlineInt 7]}) as -> by (by injection Hs).
    simpl. unfold entry_size, headerSize. simpl. lia.
  - reflexivity.
Qed.

Lemma SetNX_overwrites_counter_witness :
  (∃ sc', ShardedCache_Exists 5 counter_cache "a" = Some (true, sc')) ∧
  ∃ sc', ShardedCache_SetNX 5 counter_cache "a" [x78] 0 = Some (inr true, sc') ∧
    cache_cell sc' (cache_hash counter_cache "a") = Some (CEntry "a" [x78] 0).
Proof.
  apply (SetNX_overwrites_counter 5 counter_cache "a" 7 [x78] 0); apply counter_cache_cell.
Defined.

(** With an eviction policy the cache records accesses, and [recordAccess] never
    returns: no [Set] succeeds and no [Get] finds a value, whatever the depth of
    the stack. *)
Theorem recordAccess_diverges now sc key :
  sc_skipLFU sc = false →
  (∀ fuel hash, recordAccess fuel sc hash = None) ∧
  (∀ v ttl sc', ShardedCache_Set now sc key v ttl ≠ Some (None, sc')) ∧
  (∀ v sc', ShardedCache_Get now sc key ≠ Some (Some v, sc')).
Proof.
  intros Hskip. split_and!; [intros; by apply recordAccess_loops| |].
  - intros v ttl sc'. unfold ShardedCache_Set.
    destruct (cache_getShard sc (cache_hash sc key)) as [s|]; [|done]. cbn [mbind option_bind].
    assert (∀ s' h, recordAccess call_depth (slot_add (put_shard sc h s') key) h = None) as Hadd.
    { intros s' h. apply recordAccess_loops. unfold slot_add. simpl. by destruct (sc_slotFunc sc). }
    assert (∀ s' h, recordAccess call_depth (put_shard sc h s') h = None) as Hput.
    { intros s' h. by apply recordAccess_loops. }
    destruct (zs_index s !! _) as [raw|]; [destruct (isInlineInt raw); [|destruct (UpdateInPlace _ _ _ _ _) as [[[|] ?]|]]|];
      rewrite ?Hput; try done; destruct (write_entry _ _ _ _ _); by rewrite ?Hadd.
  - intros v sc'. unfold ShardedCache_Get, cache_get_with.
    destruct (cache_getShard sc (cache_hash sc key)) as [s|]; [|done]. cbn [mbind option_bind].
    rewrite (recordAccess_loops _ sc _ Hskip).
    destruct (zs_index s !! _) as [raw|]; [|done]. destruct (isInlineInt raw); [done|].
    destruct (ReadAt _ _) as [|[[k v'] hd]]; [done|]. destruct (negb _); [done|].
    by destruct (header_expired now hd).
Qed.

Lemma recordAccess_diverges_witness :
  let sc := NewShardedCache (mkCacheConfig 1 0 16 0 false) (λ _, 0) in
  ¬ ∃ sc', ShardedCache_Set 1 sc "a" ["b"%byte] 0 = Some (None, sc').
Proof.
  intros sc [sc' H]. revert H. apply (recordAccess_diverges 1 (NewShardedCache (mkCacheConfig 1 0 16 0 false) (λ _, 0)) "a").
  reflexivity.
Defined.

(** ** A full scan visits every key *)

(** A client that starts at cursor 0 and follows the cursors of an unchanging
    cache is given 0 again after finitely many calls, and has then been given
    the keys that [Keys] lists for the pattern, each as often as [Keys] does. *)
Theorem Scan_complete `{!GoRange Z Z} pm now sc pattern count :
  scan_sized ((λ s, sort_strings (shard_keys now s)) <$> sc_shards sc) → sc_shards sc ≠ [] →
  ∃ fuel keys,
    follow fuel (λ cursor, ShardedCache_Scan pm now sc cursor pattern count) 0 = Some keys ∧
    keys ≡ₚ ShardedCache_Keys pm now sc pattern.
Proof.
  intros Hsz Hne.
  assert ((λ s, sort_strings (shard_keys now s)) <$> sc_shards sc ≠ []) as Hne'
    by by destruct (sc_shards sc).
  pose proof (follow_all (scan_match pm (if bool_decide (pattern = "*") then "" else pattern))
    count _ Hsz Hne') as Hall.
  eexists _, _. split; [exact Hall|].
  unfold ShardedCache_Keys.
  set (P := λ k, scan_match pm _ k = true). clear. induction (sc_shards sc) as [|s shards IH]; [done|].
  cbn [fmap list_fmap concat]. rewrite filter_app. apply Permutation_app; [|exact IH].
  by rewrite sort_strings_perm.
Qed.

Definition empty_small : ShardedCache :=
  mkCache [mkShard ∅ (mkRing (replicate 128 x00) 128 0 0 0 0 0) (NewTinyLFU 16)] 1
    (λ s, Z.of_nat (String.length s)) 5 true ∅ None.

Definition two_keys : ShardedCache :=
  default empty_small
    (snd <$> cache_run [(1, "bb", QSet [x31] 0); (1, "a", QSet [x32] 0); (2, "ccc", QIncrBy 1)] empty_small).

Lemma Scan_complete_witness :
  let _ := listed_range : GoRange Z Z in
  ∃ fuel keys, follow fuel (λ c, ShardedCache_Scan (λ _ _, false) 3 two_keys c "*" 1) 0 = Some keys ∧
    keys ≡ₚ ["a"; "bb"].
Proof.
  intros R.
  assert ((λ s, sort_strings (shard_keys 3 s)) <$> sc_shards two_keys = [["a"; "bb"]]) as E by by vm_compute.
  destruct (Scan_complete (λ _ _, false) 3 two_keys "*" 1) as (fuel & keys & H1 & H2).
  - rewrite E. split; [simpl; lia|]. repeat constructor.
  - intros H. apply (f_equal (fmap (λ s, sort_strings (shard_keys 3 s)))) in H. rewrite E in H. discriminate H.
  - exists fuel, keys. split; [exact H1|]. etransitivity; [exact H2|]. vm_compute. apply (Permutation_swap "a" "bb" []).
Defined.

(** ** Values that do not fit the header *)

Lemma Set_absent sc key v ttl now s :
  cache_fresh sc → cache_getShard sc (cache_hash sc key) = Some s →
  zs_index s !! cache_hash sc key = None →
  rb_tail (zs_ring s) + entry_size (StringToBytes key) v ≤ rb_capacity (zs_ring s) →
  let h := cache_hash sc key in
  let hd := cache_header (expire_at now ttl) h (StringToBytes key) v in
  ∃ sc' s', ShardedCache_Set now sc key v ttl = Some (None, sc') ∧ sc_skipLFU sc' = true ∧
    cache_hash sc' key = h ∧ cache_getShard sc' h = Some s' ∧
    zs_index s' !! h = Some (rb_tail (zs_ring s)) ∧
    rb_data (zs_ring s') = put_entry (rb_data (zs_ring s)) (rb_tail (zs_ring s)) hd (StringToBytes key) v ∧
    rb_capacity (zs_ring s') = rb_capacity (zs_ring s).
Proof.
  intros Hf Hs Hn Hroom h hd. unfold ShardedCache_Set. rewrite Hs. cbn [mbind option_bind].
  pose proof (Forall_lookup_1 _ _ _ _ (cf_shards _ Hf) Hs) as Hsf. rewrite Hn. fold h hd.
  pose proof (sf_ring _ Hsf) as [_ _ _ Ht _]. pose proof (sf_used _ Hsf). pose proof (sf_capacity _ Hsf).
  pose proof (entry_size_nonneg (StringToBytes key) v).
  destruct (WriteWithEvict_at_tail (zs_ring s) hd (StringToBytes key) v) as (rb' & HW & Hd & Hc & _); [lia..|].
  unfold write_entry. rewrite HW. cbn [drop_evicted]. rewrite u64_id by (unfold is_u64; lia).
  set (s' := mkShard _ rb' _). set (sc' := slot_add (put_shard sc h s') key).
  assert (sc_skipLFU sc' = true ∧ cache_hash sc' key = h ∧ cache_getShard sc' h = Some s') as (Hsk & Hha & Hge).
  { assert (cache_getShard (put_shard sc h s') h = Some s') as Hput.
    { unfold cache_getShard. apply list_lookup_insert_eq. by eapply lookup_lt_Some. }
    unfold sc', slot_add. simpl. destruct (sc_slotFunc sc); split_and!; (done || apply Hf). }
  rewrite recordAccess_skip by done. exists sc', s'. split_and!; try done. apply lookup_insert_eq.
Qed.

Lemma Get_indexed sc key now s raw k v hd :
  sc_skipLFU sc = true → cache_getShard sc (cache_hash sc key) = Some s →
  zs_index s !! cache_hash sc key = Some raw → 0 ≤ raw < 2 ^ 63 →
  ReadAt (zs_ring s) raw = inr (k, v, hd) → BytesToString k = key → header_expired now hd = false →
  ShardedCache_Get now sc key = Some (Some v, sc).
Proof.
  intros Hskip Hs Hr Hraw HR Hk He. unfold ShardedCache_Get, cache_get_with. rewrite Hs. simpl. rewrite Hr.
  rewrite isInlineInt_spec, (proj2 (Z.leb_gt _ _)) by (unfold is_u64; lia).
  rewrite i64_id by (unfold is_i64; lia). rewrite HR. unfold key_eq.
  rewrite bool_decide_eq_true_2, He by done. simpl. by rewrite recordAccess_skip.
Qed.

(** A value of 65536 bytes or more is accepted, but its length is stored modulo
    65536: reading it back gives the truncated value. *)
Theorem long_value_truncated sc key v now now' s :
  cache_fresh sc → cache_getShard sc (cache_hash sc key) = Some s →
  zs_index s !! cache_hash sc key = None →
  Z.of_nat (length (StringToBytes key)) < 2 ^ 16 →
  rb_tail (zs_ring s) + entry_size (StringToBytes key) v ≤ rb_capacity (zs_ring s) →
  2 ^ 16 ≤ Z.of_nat (length v) →
  ∃ sc', ShardedCache_Set now sc key v 0 = Some (None, sc') ∧
    ShardedCache_Get now' sc' key =
      Some (Some (take (Z.to_nat (Z.of_nat (length v) mod 2 ^ 16)) v), sc').
Proof.
  intros Hf Hs Hn Hk Hroom Hv.
  pose proof (Forall_lookup_1 _ _ _ _ (cf_shards _ Hf) Hs) as Hsf.
  pose proof (sf_ring _ Hsf) as [Hl _ _ Ht _]. pose proof (sf_capacity _ Hsf).
  destruct (Set_absent sc key v 0 now s Hf Hs Hn Hroom) as (sc' & s' & HS & Hskip & Hh & Hs' & Hi & Hd & Hc).
  exists sc'. split; [done|].
  eapply Get_indexed; rewrite ?Hh; [done|exact Hs'|exact Hi| | |apply BytesToString_StringToBytes|].
  - unfold entry_size, headerSize in Hroom. lia.
  - apply (ReadAt_put_entry_prefix (zs_ring s) (rb_tail (zs_ring s))
      (cache_header (expire_at now 0) (cache_hash sc key) (StringToBytes key) v) (StringToBytes key) v);
      [..|exact Hd]; rewrite ?Hc; [|..|done|done].
    + unfold header_ok. simpl. split_and!; [done|apply u64_range|apply u16_range|apply u16_range|done|done].
    + simpl. apply u16_id. unfold is_u16. lia.
    + simpl. unfold u16. pose proof (Z.mod_pos_bound (Z.of_nat (length v)) (2 ^ 16)). lia.
    + lia.
  - done.
Qed.

Lemma long_value_truncated_witness :
  ∃ sc', ShardedCache_Set 1 tiny_cache "a" (replicate (Z.to_nat 65537) x7a) 0 = Some (None, sc') ∧
    ShardedCache_Get 2 sc' "a" = Some (Some [x7a], sc').
Proof.
  assert (Hlen : Z.of_nat (length (replicate (Z.to_nat 65537) x7a)) = 65537) by (rewrite length_replicate, Z2Nat.id; lia).
  destruct (cache_getShard_Some tiny_cache (cache_hash tiny_cache "a") tiny_cache_fresh) as (s & Hs & Hsf).
  assert (s = mkShard ∅ (NewRingBuffer defaultRingSize) (NewTinyLFU 16)) as Es
    by (by apply (lookup_replicate 1) in Hs as [-> _]).
  destruct (long_value_truncated tiny_cache "a" (replicate (Z.to_nat 65537) x7a) 1 2 s) as (sc' & HS & HG).
  - apply tiny_cache_fresh.
  - exact Hs.
  - by rewrite Es.
  - simpl. lia.
  - rewrite Es. cbn [zs_ring].
    assert (rb_capacity (NewRingBuffer defaultRingSize) = 4194304) as -> by reflexivity.
    change (rb_tail (NewRingBuffer defaultRingSize)) with 0.
    unfold entry_size, headerSize. rewrite Hlen. simpl. lia.
  - rewrite Hlen. lia.
  - exists sc'. split; [exact HS|]. rewrite Hlen in HG. exact HG.
Defined.
