(* ===== verification/Store.v ===== *)
(** * The store: [store.go], [eviction.go], [expiry.go], [entry_codec.go]

    A [Store] keeps strings and counters in the [ShardedCache] and the other
    types in the [Dict] of typed values. Its methods are written in a state
    monad whose [None] is a run that does not return (a panic, or the recursion
    of [recordAccess]); Go's [(value, error)] results are sums. Each operation is
    atomic at the instant of its [Env], which also carries the allocated memory
    that [runtime.ReadMemStats] reports. *)

From S2P Require Import Prelude Strconv Scan RingBuf TinyLfu Dict Cache.
From Corelib Require Export Floats.SpecFloat.
From stdpp Require Import options.

(** ** Data *)

(** [engine.ValueType]; [TypeUnknown] is any other value of the Go [int]. *)
Inductive ValueType :=
  | TypeString
  | TypeList
  | TypeSet
  | TypeZSet
  | TypeHash
  | TypeUnknown (n : Z).

#[export] Instance ValueType_eq_dec : EqDecision ValueType.
Proof. solve_decision. Defined.

(** A [float64]. *)
Definition float64 : Type := spec_float.

(** The dynamic values an [any] of the store holds; [VNil] is a slice or map of
    the type of the entry that is nil. *)
Inductive GoValue :=
  | VString (s : string)
  | VBytes (b : list byte)
  | VList (l : list string)
  | VSet (m : gmap string unit)
  | VZSet (m : gmap string float64)
  | VHash (m : gmap string string)
  | VNil.

Record typedValue := mkTyped { tv_Type : ValueType; tv_Value : GoValue }.

(** An [interface{}] argument: a string, or something else with the text that
    [fmt.Sprint] prints for it. *)
Inductive GoAny := AStr (s : string) | AOther (printed : string).

Definition Sprint (a : GoAny) : string := match a with AStr s => s | AOther s => s end.

Inductive GoError :=
  | ErrWrongType
  | ErrKeyNotFound
  | ErrInvalidArgs
  | ErrNotInteger
  | ErrNotSupported
  | ErrRing (e : rb_error)
  | ErrMessage (s : string).

#[export] Instance rb_error_eq_dec : EqDecision rb_error.
Proof. solve_decision. Defined.

#[export] Instance GoError_eq_dec : EqDecision GoError.
Proof. solve_decision. Defined.

Record Stats := mkStats {
  ss_Hits : Z;
  ss_Misses : Z;
  ss_SetOps : Z;
  ss_GetOps : Z;
  ss_DelOps : Z;
  ss_ExpiredKeys : Z;
  ss_EvictedKeys : Z
}.

Record Evictor := mkEvictor { evi_maxMemory : Z; evi_policy : string }.

Record Store := mkStore {
  st_cache : ShardedCache;
  st_objects : Dict typedValue;
  st_evictor : option Evictor;
  st_maxMemory : Z;
  st_evictPolicy : string;
  st_stats : Stats
}.

Record Config := mkConfig { sg_ShardCount : Z; sg_MaxMemory : Z; sg_EvictPolicy : string }.

Definition DefaultConfig : Config := mkConfig 1024 0 "noeviction".

Definition NewEvictor (maxMemory : Z) (policy : string) : Evictor := mkEvictor maxMemory policy.

(** The two hash seeds are the functions [seed1] and [seed2]. *)
Definition NewStore (cfg : option Config) (seed1 seed2 : string → Z) : Store :=
  let cfg := default DefaultConfig cfg in
  let skip := (sg_MaxMemory cfg <=? 0) || bool_decide (sg_EvictPolicy cfg = "noeviction") in
  mkStore
    (NewShardedCache (mkCacheConfig (sg_ShardCount cfg) 0 0 0 skip) seed1)
    (NewDict (sg_ShardCount cfg) seed2)
    (if (0 <? sg_MaxMemory cfg) && negb (bool_decide (sg_EvictPolicy cfg = "noeviction"))
     then Some (NewEvictor (sg_MaxMemory cfg) (sg_EvictPolicy cfg)) else None)
    (sg_MaxMemory cfg) (sg_EvictPolicy cfg) (mkStats 0 0 0 0 0 0 0).

(** The environment of one operation. *)
Record Env := mkEnv { env_now : Z; env_alloc : Z }.

(** ** The monad of the store's methods *)

Definition SM (A : Type) : Type := Store → option (A * Store).

Definition sret {A} (a : A) : SM A := λ s, Some (a, s).

Definition sbind {A B} (m : SM A) (k : A → SM B) : SM B :=
  λ s, match m s with None => None | Some (a, s') => k a s' end.

Definition spanic {A} : SM A := λ _, None.

Notation "'let!' x := m 'in' k" := (sbind m (λ x, k))
  (at level 200, x name, m at level 200, k at level 200) : go_scope.
Notation "'let!' ' p := m 'in' k" := (sbind m (λ x, match x with p => k end))
  (at level 200, p pattern, m at level 200, k at level 200, only parsing) : go_scope.

(** Run [m] when the condition holds. *)
Definition swhen (b : bool) (m : SM unit) : SM unit := if b then m else sret tt.

Definition on_cache {A} (f : ShardedCache → option (A * ShardedCache)) : SM A :=
  λ s, match f (st_cache s) with
       | None => None
       | Some (a, c) => Some (a, mkStore c (st_objects s) (st_evictor s) (st_maxMemory s)
                                   (st_evictPolicy s) (st_stats s))
       end.

Definition on_objects {A} (f : Dict typedValue → A * Dict typedValue) : SM A :=
  λ s, let '(a, d) := f (st_objects s) in
       Some (a, mkStore (st_cache s) d (st_evictor s) (st_maxMemory s) (st_evictPolicy s) (st_stats s)).

Definition on_stats (f : Stats → Stats) : SM unit :=
  λ s, Some (tt, mkStore (st_cache s) (st_objects s) (st_evictor s) (st_maxMemory s)
                   (st_evictPolicy s) (f (st_stats s))).

(** Read the cache without changing it. *)
Definition peek_cache {A} (f : ShardedCache → option A) : SM A :=
  λ s, match f (st_cache s) with None => None | Some a => Some (a, s) end.

Definition add_GetOps (s : Stats) : Stats :=
  mkStats (ss_Hits s) (ss_Misses s) (ss_SetOps s) (ss_GetOps s + 1) (ss_DelOps s) (ss_ExpiredKeys s) (ss_EvictedKeys s).
Definition add_Hits (s : Stats) : Stats :=
  mkStats (ss_Hits s + 1) (ss_Misses s) (ss_SetOps s) (ss_GetOps s) (ss_DelOps s) (ss_ExpiredKeys s) (ss_EvictedKeys s).
Definition add_Misses (s : Stats) : Stats :=
  mkStats (ss_Hits s) (ss_Misses s + 1) (ss_SetOps s) (ss_GetOps s) (ss_DelOps s) (ss_ExpiredKeys s) (ss_EvictedKeys s).
Definition add_SetOps (s : Stats) : Stats :=
  mkStats (ss_Hits s) (ss_Misses s) (ss_SetOps s + 1) (ss_GetOps s) (ss_DelOps s) (ss_ExpiredKeys s) (ss_EvictedKeys s).
Definition add_DelOps (s : Stats) : Stats :=
  mkStats (ss_Hits s) (ss_Misses s) (ss_SetOps s) (ss_GetOps s) (ss_DelOps s + 1) (ss_ExpiredKeys s) (ss_EvictedKeys s).

(** ** The slot index and the object keys *)

Definition Store_trackKey (key : string) : SM unit := on_cache (λ c, Some (tt, slot_add c key)).
Definition Store_untrackKey (key : string) : SM unit := on_cache (λ c, Some (tt, slot_remove c key)).

(** Every entry of the dictionary holds a [*typedValue], so the assertion of
    [getObjectValue] succeeds. *)
Definition getObjectValue (env : Env) (key : string) : SM (option (typedValue * Entry typedValue)) :=
  on_objects (λ d, let '(o, d') := Dict_Get (env_now env) d key in
                   ((λ e, (e_Value e, e)) <$> o, d')).

Definition hasObjectKey (env : Env) (key : string) : SM bool :=
  let! o := getObjectValue env key in sret (bool_decide (is_Some o)).

Definition deleteObjectKey (key : string) : SM bool :=
  let! n := on_objects (λ d, Dict_Del d [key]) in
  if 0 <? n then let! _ := Store_untrackKey key in sret true else sret false.

Definition removeObjectKey (key : string) : SM unit := let! _ := deleteObjectKey key in sret tt.

(** Assigning through the [*typedValue] of a key. *)
Definition Dict_assign (d : Dict typedValue) (key : string) (v : typedValue) : Dict typedValue :=
  match getShard d key !! key with
  | Some e => putShard d key (<[key := SetValue e v]> (getShard d key))
  | None => d
  end.

Definition assignObject (key : string) (v : typedValue) : SM unit :=
  on_objects (λ d, (tt, Dict_assign d key v)).

(** ** Eviction: [eviction.go] *)

Definition evictSampleCount : Z := 5.

Section eviction.
Context `{!GoRange Z Z}.

Definition evictLRU (env : Env) (volatileOnly : bool) : SM bool :=
  let h := u64 (env_now env) in
  if volatileOnly then on_cache (λ c, ShardedCache_SampledEvictVolatile (env_now env) c h)
  else on_cache (λ c, ShardedCache_SampledEvict (env_now env) c h).

Definition evictLFU (env : Env) (volatileOnly : bool) : SM bool :=
  let h := u64 (env_now env) in
  if volatileOnly then on_cache (λ c, ShardedCache_SampledEvictVolatile (env_now env) c h)
  else on_cache (λ c, ShardedCache_SampledEvict (env_now env) c h).

Definition evictRandom (env : Env) (volatileOnly : bool) : SM bool :=
  let! keys := peek_cache (λ c, Some (ShardedCache_RandomKeys (env_now env) c 1)) in
  match keys with
  | [] => sret false
  | key :: _ =>
      let! skip :=
        if volatileOnly then
          let! '(ttl, ok) := peek_cache (λ c, ShardedCache_TTL (env_now env) c key) in
          sret (negb ok || (ttl =? -1))
        else sret false in
      if (skip : bool) then sret false
      else let! _ := on_cache (λ c, ShardedCache_Delete c key) in sret true
  end.

(** The key with the nearest deadline among the sample; [""] stands for none. *)
Fixpoint evictTTL_loop (env : Env) (keys : list string) (bestKey : string) (bestExpire : Z) : SM string :=
  match keys with
  | [] => sret bestKey
  | key :: keys' =>
      let! '(ttl, ok) := peek_cache (λ c, ShardedCache_TTL (env_now env) c key) in
      if negb ok || (ttl =? -1) then evictTTL_loop env keys' bestKey bestExpire
      else
        let expireAt := i64 (env_now env + ttl) in
        if expireAt <? bestExpire then evictTTL_loop env keys' key expireAt
        else evictTTL_loop env keys' bestKey bestExpire
  end.

Definition evictTTL (env : Env) : SM bool :=
  let! keys := peek_cache (λ c, Some (ShardedCache_RandomKeys (env_now env) c evictSampleCount)) in
  match keys with
  | [] => sret false
  | _ =>
      let! bestKey := evictTTL_loop env keys "" maxInt in
      if bool_decide (bestKey = "") then sret false
      else let! _ := on_cache (λ c, ShardedCache_Delete c bestKey) in sret true
  end.

Definition Evictor_evict (env : Env) (e : Evictor) : SM bool :=
  if bool_decide (evi_policy e = "allkeys-lru") then evictLRU env false
  else if bool_decide (evi_policy e = "volatile-lru") then evictLRU env true
  else if bool_decide (evi_policy e = "allkeys-lfu") then evictLFU env false
  else if bool_decide (evi_policy e = "volatile-lfu") then evictLFU env true
  else if bool_decide (evi_policy e = "allkeys-random") then evictRandom env false
  else if bool_decide (evi_policy e = "volatile-ttl") then evictTTL env
  else sret false.

Definition TryEvict (env : Env) (e : Evictor) : SM bool :=
  if evi_maxMemory e <=? 0 then sret false
  else if i64 (env_alloc env) <? evi_maxMemory e then sret false
  else Evictor_evict env e.

(** [if s.evictor != nil { s.evictor.TryEvict() }] *)
Definition try_evict (env : Env) : SM unit :=
  λ s, match st_evictor s with
       | None => Some (tt, s)
       | Some e => (let! _ := TryEvict env e in sret tt) s
       end.
End eviction.

(** ** Strings and keys: [store.go] *)

Section store.
Context `{!GoRange Z Z} `{!GoRange string unit} `{!GoRange string (Entry typedValue)}.
Context (path_match : string → string → bool).
Implicit Types (env : Env) (key : string).

(** [return s.cache.Set(key, value, ttl)] *)
Definition cache_set env key (value : list byte) (ttl : Z) : SM (GoError + unit) :=
  let! e := on_cache (λ c, ShardedCache_Set (env_now env) c key value ttl) in
  sret (match e with None => inr tt | Some e => inl (ErrRing e) end).

Definition Store_Get env key : SM (GoError + string) :=
  let! _ := on_stats add_GetOps in
  let! v := on_cache (λ c, ShardedCache_GetCopy (env_now env) c key) in
  match v with
  | None =>
      let! has := hasObjectKey env key in
      if (has : bool) then sret (inl ErrWrongType)
      else let! _ := on_stats add_Misses in sret (inl ErrKeyNotFound)
  | Some value => let! _ := on_stats add_Hits in sret (inr (BytesToString value))
  end.

Definition Store_GetBytes env key : SM (GoError + list byte) :=
  let! _ := on_stats add_GetOps in
  let! v := on_cache (λ c, ShardedCache_Get (env_now env) c key) in
  match v with
  | None =>
      let! has := hasObjectKey env key in
      if (has : bool) then sret (inl ErrWrongType)
      else let! _ := on_stats add_Misses in sret (inl ErrKeyNotFound)
  | Some value => let! _ := on_stats add_Hits in sret (inr value)
  end.

Definition Store_Set env key (value : string) (ttl : Z) : SM (GoError + unit) :=
  let! _ := on_stats add_SetOps in
  let! _ := try_evict env in
  cache_set env key (StringToBytes value) ttl.

Definition bool_result (r : rb_error + bool) : GoError + bool :=
  match r with inl e => inl (ErrRing e) | inr b => inr b end.

Definition Store_SetNX env key (value : string) (ttl : Z) : SM (GoError + bool) :=
  let! has := hasObjectKey env key in
  if (has : bool) then sret (inr false)
  else
    let! r := on_cache (λ c, ShardedCache_SetNX (env_now env) c key (StringToBytes value) ttl) in
    sret (bool_result r).

(** Go returns the pair [(true, err)] when the write of an object's
    replacement fails; the error is what a caller looks at. *)
Definition Store_SetXX env key (value : string) (ttl : Z) : SM (GoError + bool) :=
  let! has := hasObjectKey env key in
  if (has : bool) then
    let! _ := removeObjectKey key in
    let! _ := try_evict env in
    let! r := cache_set env key (StringToBytes value) ttl in
    sret (match r with inl e => inl e | inr _ => inr true end)
  else
    let! r := on_cache (λ c, ShardedCache_SetXX (env_now env) c key (StringToBytes value) ttl) in
    sret (bool_result r).

Definition Store_GetSet env key (value : string) : SM (GoError + string) :=
  let! cur := on_cache (λ c, ShardedCache_GetCopy (env_now env) c key) in
  let finish (old : string) :=
    let! _ := removeObjectKey key in
    let! _ := try_evict env in
    let! r := cache_set env key (StringToBytes value) 0 in
    sret (match r with inl e => inl e | inr _ => inr old end) in
  match cur with
  | Some current => finish (BytesToString current)
  | None =>
      let! has := hasObjectKey env key in
      if (has : bool) then sret (inl ErrWrongType) else finish ""
  end.

Definition Store_IncrBy env key (delta : Z) : SM (GoError + Z) :=
  let! r := on_cache (λ c, ShardedCache_IncrBy (env_now env) c key delta) in
  sret (match r with CacheErrNotInteger => inl ErrNotInteger | IncrOk v => inr v end).

Definition Store_Incr env key : SM (GoError + Z) := Store_IncrBy env key 1.
Definition Store_Decr env key : SM (GoError + Z) := Store_IncrBy env key (-1).
Definition Store_DecrBy env key (delta : Z) : SM (GoError + Z) := Store_IncrBy env key (i64 (- delta)).

Definition Store_Append env key (value : string) : SM (GoError + Z) :=
  let! cur := on_cache (λ c, ShardedCache_GetCopy (env_now env) c key) in
  let finish (str : list byte) :=
    let str := str ++ StringToBytes value in
    let! _ := removeObjectKey key in
    let! _ := try_evict env in
    let! r := cache_set env key str 0 in
    sret (match r with inl e => inl e | inr _ => inr (Z.of_nat (length str)) end) in
  match cur with
  | Some current => finish current
  | None =>
      let! has := hasObjectKey env key in
      if (has : bool) then sret (inl ErrWrongType) else finish []
  end.

Definition Store_Strlen env key : SM (GoError + Z) :=
  let! v := on_cache (λ c, ShardedCache_GetCopy (env_now env) c key) in
  match v with
  | None =>
      let! has := hasObjectKey env key in
      sret (if (has : bool) then inl ErrWrongType else inr 0)
  | Some value => sret (inr (Z.of_nat (length value)))
  end.

Fixpoint Store_MGet env (keys : list string) : SM (list (option string)) :=
  match keys with
  | [] => sret []
  | key :: keys' =>
      let! r := Store_Get env key in
      let! rest := Store_MGet env keys' in
      sret (match r with inr v => Some v | inl _ => None end :: rest)
  end.

Fixpoint Store_MGetBytes env (keys : list string) : SM (list (option (list byte))) :=
  match keys with
  | [] => sret []
  | key :: keys' =>
      let! r := Store_GetBytes env key in
      let! rest := Store_MGetBytes env keys' in
      sret (match r with inr v => Some v | inl _ => None end :: rest)
  end.

Fixpoint mset_loop env (pairs : list GoAny) : SM (GoError + unit) :=
  match pairs with
  | AStr key :: v :: pairs' =>
      let! r := Store_Set env key (Sprint v) 0 in
      match r with
      | inl e => sret (inl e)
      | inr _ => mset_loop env pairs'
      end
  | AOther _ :: _ => sret (inl (ErrMessage "invalid key type"))
  | _ => sret (inr tt)
  end.

Definition Store_MSet env (pairs : list GoAny) : SM (GoError + unit) :=
  if Z.of_nat (length pairs) mod 2 =? 0 then mset_loop env pairs
  else sret (inl (ErrMessage "wrong number of arguments")).

(** [deleted] of [Del] and [ExpireAt]: both stores are asked. *)
Definition delete_everywhere key : SM bool :=
  let! d1 := on_cache (λ c, ShardedCache_Delete c key) in
  let! d2 := deleteObjectKey key in
  sret (d1 || d2).

Fixpoint del_loop (keys : list string) : SM Z :=
  match keys with
  | [] => sret 0
  | key :: keys' =>
      let! deleted := delete_everywhere key in
      let! n := del_loop keys' in
      sret ((if (deleted : bool) then 1 else 0) + n)
  end.

Definition Store_Del (keys : list string) : SM Z :=
  let! _ := on_stats add_DelOps in del_loop keys.

(** [s.cache.Exists(key) || s.hasObjectKey(key)] *)
Definition exists_anywhere env key : SM bool :=
  let! b := on_cache (λ c, ShardedCache_Exists (env_now env) c key) in
  if (b : bool) then sret true else hasObjectKey env key.

Fixpoint Store_Exists env (keys : list string) : SM Z :=
  match keys with
  | [] => sret 0
  | key :: keys' =>
      let! b := exists_anywhere env key in
      let! n := Store_Exists env keys' in
      sret ((if (b : bool) then 1 else 0) + n)
  end.

Definition containsKey (keys : list string) (target : string) : bool :=
  existsb (λ key, bool_decide (key = target)) keys.

Definition Store_Keys env (pattern : string) : SM (list string) :=
  λ s, let keys := ShardedCache_Keys path_match (env_now env) (st_cache s) pattern in
       let objects := Dict_Keys path_match (env_now env) (st_objects s) pattern in
       Some (foldl (λ ks k, if containsKey ks k then ks else ks ++ [k]) keys objects, s).

(** [engine.Entry]: key, value, type and deadline ([None]: the zero time). *)
Record EngineEntry := mkEngineEntry {
  ee_Key : string;
  ee_Value : GoValue;
  ee_Type : ValueType;
  ee_ExpireAt : option Z
}.

Definition Store_GetEntry env key : SM (GoError + EngineEntry) :=
  let! v := on_cache (λ c, ShardedCache_GetCopy (env_now env) c key) in
  match v with
  | Some value =>
      let! '(ttl, ok) := peek_cache (λ c, ShardedCache_TTL (env_now env) c key) in
      sret (inr (mkEngineEntry key (VBytes value) TypeString
                   (if ok && (0 <? ttl) then Some (env_now env + ttl) else None)))
  | None =>
      let! o := getObjectValue env key in
      match o with
      | None => sret (inl ErrKeyNotFound)
      | Some (tv, entry) =>
          sret (inr (mkEngineEntry key (tv_Value tv) (tv_Type tv)
                       (if 0 <? e_expireAt entry then Some (e_expireAt entry) else None)))
      end
  end.

(** [DecodeSerializedValue] is the argument [decode]: see [Codec]. *)
Definition Store_RestoreEntry (decode : ValueType → list byte → GoError + GoValue) env key
    (valueType : ValueType) (payload : list byte) (ttl : Z) : SM (GoError + unit) :=
  match decode valueType payload with
  | inl e => sret (inl e)
  | inr decoded =>
      let! _ := on_cache (λ c, ShardedCache_Delete c key) in
      let! _ := deleteObjectKey key in
      if bool_decide (valueType = TypeString) then
        match decoded with
        | VString value =>
            let! _ := removeObjectKey key in
            let! _ := try_evict env in
            cache_set env key (StringToBytes value) ttl
        | _ => sret (inl (ErrMessage "decoded string payload has another type"))
        end
      else
        let! _ := on_objects (λ d, (tt, Dict_Set (env_now env) d key (mkTyped valueType decoded) ttl)) in
        let! _ := Store_trackKey key in
        sret (inr tt)
  end.

Definition Store_Type env key : SM string :=
  let! v := on_cache (λ c, ShardedCache_Get (env_now env) c key) in
  match v with
  | Some _ => sret "string"
  | None =>
      let! o := getObjectValue env key in
      sret (match o with
            | None => "none"
            | Some (tv, _) =>
                match tv_Type tv with
                | TypeHash => "hash"
                | TypeList => "list"
                | TypeSet => "set"
                | TypeZSet => "zset"
                | _ => "none"
                end
            end)
  end.

Definition Store_TTL env key : SM Z :=
  let! '(ttl, ok) := peek_cache (λ c, ShardedCache_TTL (env_now env) c key) in
  if (ok : bool) then sret ttl
  else
    let! '(ttl, ok) := on_objects (λ d, Dict_TTL (env_now env) d key) in
    if (ok : bool) then sret ttl else sret (-2 * nanosPerSecond).

Definition ttlOrZero env key : SM Z :=
  let! ttl := Store_TTL env key in sret (if ttl <? 0 then 0 else ttl).

Definition Store_Rename env key (newkey : string) : SM (GoError + unit) :=
  let! v := on_cache (λ c, ShardedCache_GetCopy (env_now env) c key) in
  match v with
  | Some value =>
      let! ttl := ttlOrZero env key in
      let! _ := on_cache (λ c, ShardedCache_Delete c key) in
      let! _ := deleteObjectKey newkey in
      cache_set env newkey value ttl
  | None =>
      let! o := getObjectValue env key in
      match o with
      | None => sret (inl ErrKeyNotFound)
      | Some (_, entry) =>
          let! _ := deleteObjectKey key in
          let! _ := on_cache (λ c, ShardedCache_Delete c newkey) in
          let! _ := on_objects (λ d, (tt, Dict_SetEntry d newkey entry)) in
          let! _ := Store_trackKey newkey in
          sret (inr tt)
      end
  end.

Definition Store_Expire env key (ttl : Z) : SM bool :=
  let! b := on_cache (λ c, ShardedCache_Expire (env_now env) c key ttl) in
  if (b : bool) then sret true else on_objects (λ d, Dict_Expire (env_now env) d key ttl).

(** [time.Until] saturates at the range of a [Duration]. *)
Definition time_Until (now t : Z) : Z := Z.max (- 2 ^ 63) (Z.min maxInt (t - now)).

Definition Store_ExpireAt env key (t : Z) : SM bool :=
  let ttl := time_Until (env_now env) t in
  if ttl <? 0 then delete_everywhere key else Store_Expire env key ttl.

Definition Store_Persist env key : SM bool := Store_Expire env key 0.

Definition Store_DBSize : SM Z :=
  λ s, Some (ShardedCache_Len (st_cache s) + Dict_Len (st_objects s), s).

Definition Store_FlushDB : SM unit :=
  let! _ := on_cache (λ c, Some (tt, ShardedCache_Clear c)) in
  on_objects (λ d, (tt, Dict_Clear d)).

(** *** Scanning both stores *)

Definition scanPhaseFlag : Z := Z.shiftl 1 63.

Definition scanDictKeys env (d : Dict typedValue) (pattern : string) (count cursor : Z)
    : option (list string * Z) :=
  cursor_scan (scan_match path_match pattern) count
    ((λ items, sort_strings ((filter (λ kv, negb (IsExpired (env_now env) kv.2) = true)
                                (go_range items)).*1)) <$> d_shards d) cursor.

Definition Store_Scan env (s : Store) (cursor : Z) (pattern : string) (count : Z)
    : option (list string * Z) :=
  let count := if count <=? 0 then 10 else count in
  let pattern := if bool_decide (pattern = "*") then "" else pattern in
  let inDictPhase := negb (Z.land cursor scanPhaseFlag =? 0) in
  let innerCursor := Z.land cursor (Z.ones 63) in
  let flagged (next : Z) := if next =? 0 then 0 else Z.lor next scanPhaseFlag in
  if negb inDictPhase then
    r ← ShardedCache_Scan path_match (env_now env) (st_cache s) innerCursor pattern count;
    let '(keys, nextInner) := r in
    if count <=? Z.of_nat (length keys) then
      Some (keys, nextInner)
    else if negb (nextInner =? 0) then Some (keys, nextInner)
    else
      r ← scanDictKeys env (st_objects s) pattern (count - Z.of_nat (length keys)) 0;
      let '(dictKeys, nextDict) := r in
      Some (keys ++ dictKeys, flagged nextDict)
  else
    let pattern := if bool_decide (pattern = "") then "*" else pattern in
    r ← scanDictKeys env (st_objects s) pattern count innerCursor;
    let '(dictKeys, nextInner) := r in
    Some (dictKeys, flagged nextInner).

(** *** Keys of a slot *)

Definition Store_SetSlotFunc (fn : string → Z) : SM unit :=
  on_cache (λ c, Some (tt, SetSlotFunc c fn)).

Fixpoint keys_in_slot_loop env (count : Z) (keys result : list string) : SM (list string) :=
  match keys with
  | [] => sret result
  | key :: keys' =>
      if (0 <? count) && (count <=? Z.of_nat (length result)) then sret result
      else
        let! b := exists_anywhere env key in
        keys_in_slot_loop env count keys' (if (b : bool) then result ++ [key] else result)
  end.

Definition Store_KeysInSlot env (slot count : Z) : SM (list string) :=
  λ s,
    match sc_slotIndex (st_cache s) !! slot with
    | None => Some ([], s)
    | Some keySet =>
        if bool_decide (size keySet = 0%nat) then Some ([], s)
        else keys_in_slot_loop env count (sort_strings (go_range keySet).*1) [] s
    end.

Definition Store_CountKeysInSlot env (slot : Z) : SM Z :=
  let! keys := Store_KeysInSlot env slot 0 in sret (Z.of_nat (length keys)).

(** ** Active expiry: [expiry.go]

    One cycle of the background loop. Each round samples keys and deletes those
    whose time is up, and a further round follows when a quarter of the sample
    was. [float64(expired)/float64(len(keys)) < 0.25] compares small integers,
    for which the division is exact enough to be [4 * expired < len(keys)]. *)

Definition expireScanCount : Z := 20.

Definition below_threshold (expired total : Z) : bool := 4 * expired <? total.

Fixpoint expire_cache_keys env (keys : list string) : SM Z :=
  match keys with
  | [] => sret 0
  | key :: keys' =>
      let! '(ttl, ok) := peek_cache (λ c, ShardedCache_TTL (env_now env) c key) in
      if negb ok || (ttl =? -1) then expire_cache_keys env keys'
      else if ttl <=? 0 then
        let! _ := on_cache (λ c, ShardedCache_Delete c key) in
        let! n := expire_cache_keys env keys' in sret (n + 1)
      else expire_cache_keys env keys'
  end.

Fixpoint expire_object_keys env (keys : list string) : SM Z :=
  match keys with
  | [] => sret 0
  | key :: keys' =>
      let! '(ttl, ok) := on_objects (λ d, Dict_TTL (env_now env) d key) in
      if negb ok || (ttl =? -1) then expire_object_keys env keys'
      else if ttl <=? 0 then
        let! n := on_objects (λ d, Dict_Del d [key]) in
        if 0 <? n then
          let! _ := Store_untrackKey key in
          let! m := expire_object_keys env keys' in sret (m + 1)
        else expire_object_keys env keys'
      else expire_object_keys env keys'
  end.

(** The two loops; the fuel bounds their rounds. *)
Fixpoint expire_cache_rounds (fuel : nat) env : SM unit :=
  match fuel with
  | O => spanic
  | S fuel' =>
      let! keys := peek_cache (λ c, Some (ShardedCache_RandomKeys (env_now env) c expireScanCount)) in
      match keys with
      | [] => sret tt
      | _ =>
          let! expired := expire_cache_keys env keys in
          if below_threshold expired (Z.of_nat (length keys)) then sret tt
          else expire_cache_rounds fuel' env
      end
  end.

Fixpoint expire_object_rounds (fuel : nat) env : SM unit :=
  match fuel with
  | O => spanic
  | S fuel' =>
      let! keys := on_objects (λ d, (default [] (Dict_RandomKeys d expireScanCount), d)) in
      match keys with
      | [] => sret tt
      | _ =>
          let! expired := expire_object_keys env keys in
          if below_threshold expired (Z.of_nat (length keys)) then sret tt
          else expire_object_rounds fuel' env
      end
  end.

Definition activeExpireCycle (fuel : nat) env : SM unit :=
  let! _ := expire_cache_rounds fuel env in expire_object_rounds fuel env.

End store.
