(* ===== verification/Objects.v ===== *)
(** * Lists, hashes, sets and sorted sets: [list.go], [hash.go], [set.go], [zset.go]

    Objects live in the dictionary of the store as typed values. The Go maps of
    hashes, sets and sorted sets are reference values: what an operation wrote
    before it returned an error stays, and the definitions keep it. *)

From S2P Require Import Prelude Strconv Scan RingBuf TinyLfu Dict Cache Store.
From stdpp Require Import options.

(** [engine.ZMember] *)
Record ZMember := mkZMember { zm_Score : float64; zm_Member : string }.

(** ** Indices *)

Definition normalizeIndex (length index : Z) : option Z :=
  if length =? 0 then None
  else
    let index := if index <? 0 then i64 (length + index) else index in
    if (index <? 0) || (length <=? index) then None else Some index.

Definition normalizeRange (length start stop : Z) : option (Z * Z) :=
  if length =? 0 then None
  else
    let start := if start <? 0 then i64 (length + start) else start in
    let stop := if stop <? 0 then i64 (length + stop) else stop in
    let start := if start <? 0 then 0 else start in
    let stop := if length <=? stop then length - 1 else stop in
    if (stop <? start) || (length <=? start) then None else Some (start, stop).

(** [l[start : stop+1]]; slice bounds out of range panic. *)
Definition sub_list {A} (l : list A) (start stop : Z) : option (list A) :=
  if (0 <=? start) && (start <=? stop + 1) && (stop + 1 <=? Z.of_nat (length l))
  then Some (slice l (Z.to_nat start) (Z.to_nat (stop + 1 - start))) else None.

Definition of_option {A} (o : option A) : SM A := match o with Some a => sret a | None => spanic end.

Section objects.
Context `{!GoRange string unit} `{!GoRange string string} `{!GoRange string float64}.
Implicit Types (env : Env) (key : string).

Definition cacheExists env key : SM bool :=
  on_cache (λ c, ShardedCache_Exists (env_now env) c key).

(** [s.objects.Set(key, &typedValue{...}, 0)] and [s.trackKey(key)] *)
Definition newObject env key (tv : typedValue) : SM unit :=
  let! _ := on_objects (λ d, (tt, Dict_Set (env_now env) d key tv 0)) in
  Store_trackKey key.

(** The value of a key that must have type [t]; [proj] is the type assertion. *)
Definition getTyped {A} (t : ValueType) (proj : GoValue → option A) env key : SM (GoError + A) :=
  let! b := cacheExists env key in
  if (b : bool) then sret (inl ErrWrongType)
  else
    let! o := getObjectValue env key in
    sret (match o with
          | None => inl ErrKeyNotFound
          | Some (tv, _) =>
              if bool_decide (tv_Type tv = t) then
                match proj (tv_Value tv) with Some a => inr a | None => inl ErrWrongType end
              else inl ErrWrongType
          end).

Definition as_list (v : GoValue) : option (list string) := match v with VList l => Some l | VNil => Some [] | _ => None end.
Definition as_set (v : GoValue) : option (gmap string unit) := match v with VSet m => Some m | _ => None end.
Definition as_zset (v : GoValue) : option (gmap string float64) := match v with VZSet m => Some m | _ => None end.

(** ** Lists *)

Definition getListValue := getTyped TypeList as_list.
Definition getMutableListValue := getTyped TypeList as_list.

(** [tv.Value = list] *)
Definition putList key (l : list string) : SM unit := assignObject key (mkTyped TypeList (VList l)).

Definition strings_of (values : list GoAny) : option (list string) :=
  mapM (λ v, match v with AStr s => Some s | AOther _ => None end) values.

Definition pushList env key (left : bool) (values : list GoAny) : SM (GoError + Z) :=
  match values with
  | [] => sret (inl ErrInvalidArgs)
  | _ =>
      let! r := getMutableListValue env key in
      let push (list : list string) :=
        match strings_of values with
        | None => sret (inl ErrInvalidArgs)
        | Some items =>
            let list := if left then foldl (λ l item, item :: l) list items else list ++ items in
            let! _ := putList key list in
            sret (inr (Z.of_nat (length list)))
        end in
      match r with
      | inr list => push list
      | inl ErrKeyNotFound =>
          let! _ := newObject env key (mkTyped TypeList (VList [])) in push []
      | inl e => sret (inl e)
      end
  end.

Definition Store_LPush env key (values : list GoAny) := pushList env key true values.
Definition Store_RPush env key (values : list GoAny) := pushList env key false values.

Definition popList env key (left : bool) : SM (GoError + string) :=
  let! r := getMutableListValue env key in
  match r with
  | inl e => sret (inl e)
  | inr [] => sret (inl ErrKeyNotFound)
  | inr (x :: l) =>
      let '(value, rest) :=
        if left then (x, l) else (List.last (x :: l) x, removelast (x :: l)) in
      let! _ :=
        match rest with
        | [] => removeObjectKey key
        | _ => putList key rest
        end in
      sret (inr value)
  end.

Definition Store_LPop env key := popList env key true.
Definition Store_RPop env key := popList env key false.

Definition Store_LRange env key (start stop : Z) : SM (GoError + list string) :=
  let! r := getListValue env key in
  match r with
  | inl ErrKeyNotFound => sret (inr [])
  | inl e => sret (inl e)
  | inr list =>
      match normalizeRange (Z.of_nat (length list)) start stop with
      | None => sret (inr [])
      | Some (startIdx, stopIdx) =>
          let! result := of_option (sub_list list startIdx stopIdx) in sret (inr result)
      end
  end.

Definition Store_LLen env key : SM (GoError + Z) :=
  let! r := getListValue env key in
  sret (match r with
        | inl ErrKeyNotFound => inr 0
        | inl e => inl e
        | inr list => inr (Z.of_nat (length list))
        end).

Definition Store_LIndex env key (index : Z) : SM (GoError + string) :=
  let! r := getListValue env key in
  match r with
  | inl e => sret (inl e)
  | inr list =>
      match normalizeIndex (Z.of_nat (length list)) index with
      | None => sret (inl ErrKeyNotFound)
      | Some idx => let! v := of_option (list !! Z.to_nat idx) in sret (inr v)
      end
  end.

Definition Store_LSet env key (index : Z) (value : string) : SM (GoError + unit) :=
  let! r := getMutableListValue env key in
  match r with
  | inl e => sret (inl e)
  | inr list =>
      match normalizeIndex (Z.of_nat (length list)) index with
      | None => sret (inl ErrKeyNotFound)
      | Some idx =>
          let! _ := of_option (list !! Z.to_nat idx) in
          let! _ := putList key (<[Z.to_nat idx := value]> list) in sret (inr tt)
      end
  end.

Definition Store_LTrim env key (start stop : Z) : SM (GoError + unit) :=
  let! r := getMutableListValue env key in
  match r with
  | inl ErrKeyNotFound => sret (inr tt)
  | inl e => sret (inl e)
  | inr list =>
      match normalizeRange (Z.of_nat (length list)) start stop with
      | None => let! _ := deleteObjectKey key in sret (inr tt)
      | Some (startIdx, stopIdx) =>
          let! trimmed := of_option (sub_list list startIdx stopIdx) in
          let! _ := putList key trimmed in sret (inr tt)
      end
  end.

(** ** Hashes *)

(** The guard the hash methods share: [inl] an early answer, [inr] the map. The
    type assertion [value.Value.(map[string]string)] panics on another type. *)
Inductive hash_lookup := HWrong | HMissing | HFound (m : gmap string string) | HNil.

Definition getHash env key : SM hash_lookup :=
  let! b := cacheExists env key in
  if (b : bool) then sret HWrong
  else
    let! o := getObjectValue env key in
    match o with
    | None => sret HMissing
    | Some (tv, _) =>
        if bool_decide (tv_Type tv = TypeHash) then
          match tv_Value tv with
          | VHash m => sret (HFound m)
          | VNil => sret HNil
          | _ => spanic
          end
        else sret HWrong
    end.

Definition putHash key (m : gmap string string) : SM unit := assignObject key (mkTyped TypeHash (VHash m)).

(** The loop of [HSet]: the error it returned with, the map and the count. (On a
    nil map the first assignment panics.) *)
Fixpoint hset_loop (pairs : list GoAny) (hash : gmap string string) (added : Z)
    : (GoError + Z) * gmap string string :=
  match pairs with
  | AStr field :: AStr val :: pairs' =>
      let added := match hash !! field with Some _ => added | None => added + 1 end in
      hset_loop pairs' (<[field := val]> hash) added
  | [] => (inr added, hash)
  | _ => (inl ErrInvalidArgs, hash)
  end.

Definition Store_HSet env key (pairs : list GoAny) : SM (GoError + Z) :=
  if bool_decide (pairs = []) || negb (Z.of_nat (length pairs) mod 2 =? 0) then sret (inl ErrInvalidArgs)
  else
    let! h := getHash env key in
    let run (hash : gmap string string) :=
      let '(res, hash') := hset_loop pairs hash 0 in
      let! _ := putHash key hash' in sret res in
    match h with
    | HWrong => sret (inl ErrWrongType)
    | HFound hash => run hash
    | HMissing =>
        let! _ := newObject env key (mkTyped TypeHash (VHash ∅)) in run ∅
    | HNil => match pairs with AStr _ :: AStr _ :: _ => spanic | _ => sret (inl ErrInvalidArgs) end
    end.

Definition Store_HGet env key (field : string) : SM (GoError + string) :=
  let! h := getHash env key in
  sret (match h with
        | HWrong => inl ErrWrongType
        | HMissing => inl ErrKeyNotFound
        | HFound hash => match hash !! field with Some v => inr v | None => inl ErrKeyNotFound end
        | HNil => inl ErrKeyNotFound
        end).

(** The loop of [HDel] and [ZRem]: delete the members that exist, counting them. *)
Fixpoint delete_members {A} (fields : list string) (m : gmap string A) (deleted : Z)
    : Z * gmap string A :=
  match fields with
  | [] => (deleted, m)
  | field :: fields' =>
      match m !! field with
      | Some _ => delete_members fields' (delete field m) (deleted + 1)
      | None => delete_members fields' m deleted
      end
  end.

Definition Store_HDel env key (fields : list string) : SM (GoError + Z) :=
  let! h := getHash env key in
  match h with
  | HWrong => sret (inl ErrWrongType)
  | HMissing => sret (inr 0)
  | HFound hash =>
      let '(deleted, hash') := delete_members fields hash 0 in
      let! _ := putHash key hash' in
      let! _ := if bool_decide (size hash' = 0%nat) then removeObjectKey key else sret tt in
      sret (inr deleted)
  | HNil => let! _ := removeObjectKey key in sret (inr 0)
  end.

Definition Store_HExists env key (field : string) : SM (GoError + bool) :=
  let! h := getHash env key in
  sret (match h with
        | HWrong => inl ErrWrongType
        | HMissing => inr false
        | HFound hash => inr (bool_decide (is_Some (hash !! field)))
        | HNil => inr false
        end).

(** The result is a copy of the map. *)
Definition Store_HGetAll env key : SM (GoError + gmap string string) :=
  let! h := getHash env key in
  sret (match h with
        | HWrong => inl ErrWrongType
        | HMissing => inr ∅
        | HFound hash => inr (list_to_map (go_range hash))
        | HNil => inr ∅
        end).

Definition Store_HKeys env key : SM (GoError + list string) :=
  let! r := Store_HGetAll env key in
  sret (match r with inl e => inl e | inr values => inr (sort_strings (go_range values).*1) end).

Definition Store_HVals env key : SM (GoError + list string) :=
  let! r := Store_HGetAll env key in
  sret (match r with
        | inl e => inl e
        | inr values => inr ((λ f, default "" (values !! f)) <$> sort_strings (go_range values).*1)
        end).

Definition Store_HLen env key : SM (GoError + Z) :=
  let! h := getHash env key in
  sret (match h with
        | HWrong => inl ErrWrongType
        | HMissing => inr 0
        | HFound hash => inr (Z.of_nat (size hash))
        | HNil => inr 0
        end).

(** ** Sets *)

Definition getSetValue := getTyped TypeSet as_set.
Definition getMutableSetValue := getTyped TypeSet as_set.
Definition putSet key (m : gmap string unit) : SM unit := assignObject key (mkTyped TypeSet (VSet m)).

Fixpoint sadd_loop (members : list GoAny) (set : gmap string unit) (added : Z)
    : (GoError + Z) * gmap string unit :=
  match members with
  | [] => (inr added, set)
  | AOther _ :: _ => (inl ErrInvalidArgs, set)
  | AStr value :: members' =>
      match set !! value with
      | Some _ => sadd_loop members' set added
      | None => sadd_loop members' (<[value := tt]> set) (added + 1)
      end
  end.

Definition Store_SAdd env key (members : list GoAny) : SM (GoError + Z) :=
  match members with
  | [] => sret (inl ErrInvalidArgs)
  | _ =>
      let! r := getMutableSetValue env key in
      let run (set : gmap string unit) :=
        let '(res, set') := sadd_loop members set 0 in
        let! _ := putSet key set' in sret res in
      match r with
      | inr set => run set
      | inl ErrKeyNotFound => let! _ := newObject env key (mkTyped TypeSet (VSet ∅)) in run ∅
      | inl e => sret (inl e)
      end
  end.

Fixpoint srem_loop (members : list GoAny) (set : gmap string unit) (removed : Z)
    : (GoError + Z) * gmap string unit :=
  match members with
  | [] => (inr removed, set)
  | AOther _ :: _ => (inl ErrInvalidArgs, set)
  | AStr value :: members' =>
      match set !! value with
      | Some _ => srem_loop members' (delete value set) (removed + 1)
      | None => srem_loop members' set removed
      end
  end.

Definition Store_SRem env key (members : list GoAny) : SM (GoError + Z) :=
  let! r := getMutableSetValue env key in
  match r with
  | inl ErrKeyNotFound => sret (inr 0)
  | inl e => sret (inl e)
  | inr set =>
      let '(res, set') := srem_loop members set 0 in
      let! _ := putSet key set' in
      match res with
      | inl e => sret (inl e)
      | inr removed =>
          let! _ := if bool_decide (size set' = 0%nat) then removeObjectKey key else sret tt in
          sret (inr removed)
      end
  end.

Definition Store_SMembers env key : SM (GoError + list string) :=
  let! r := getSetValue env key in
  sret (match r with
        | inl ErrKeyNotFound => inr []
        | inl e => inl e
        | inr set => inr (sort_strings (go_range set).*1)
        end).

Definition Store_SIsMember env key (member : string) : SM (GoError + bool) :=
  let! r := getSetValue env key in
  sret (match r with
        | inl ErrKeyNotFound => inr false
        | inl e => inl e
        | inr set => inr (bool_decide (is_Some (set !! member)))
        end).

Definition Store_SCard env key : SM (GoError + Z) :=
  let! r := getSetValue env key in
  sret (match r with
        | inl ErrKeyNotFound => inr 0
        | inl e => inl e
        | inr set => inr (Z.of_nat (size set))
        end).

(** Not implemented in the memory engine. *)
Definition Store_SPop env key : SM (GoError + string) := sret (inl ErrKeyNotFound).
Definition Store_SRandMember env key (count : Z) : SM (GoError + list string) := sret (inl ErrNotSupported).
Definition Store_SUnion env (keys : list string) : SM (GoError + list string) := sret (inl ErrNotSupported).
Definition Store_SInter env (keys : list string) : SM (GoError + list string) := sret (inl ErrNotSupported).
Definition Store_SDiff env (keys : list string) : SM (GoError + list string) := sret (inl ErrNotSupported).

(** ** Sorted sets *)

Definition getZSetValue := getTyped TypeZSet as_zset.
Definition getMutableZSetValue := getTyped TypeZSet as_zset.
Definition putZSet key (m : gmap string float64) : SM unit := assignObject key (mkTyped TypeZSet (VZSet m)).

(** The [less] function of the [sort.Slice] call. *)
Definition zless (a b : ZMember) : bool :=
  if SFeqb (zm_Score a) (zm_Score b) then negb (String.leb (zm_Member b) (zm_Member a))
  else SFltb (zm_Score a) (zm_Score b).

(** [sort.Slice]: an order in which no element is less than an earlier one. *)
Definition zle (a b : ZMember) : Prop := zless b a = false.
#[global] Instance zle_dec a b : Decision (zle a b) := decide (zless b a = false).

Definition zset_entries (m : gmap string float64) : list ZMember :=
  merge_sort zle ((λ '(member, score), mkZMember score member) <$> go_range m).

Definition sortedZMembers env key : SM (GoError + list ZMember) :=
  let! r := getZSetValue env key in
  sret (match r with inl e => inl e | inr zset => inr (zset_entries zset) end).

Fixpoint zadd_loop (members : list ZMember) (zset : gmap string float64) (added : Z)
    : Z * gmap string float64 :=
  match members with
  | [] => (added, zset)
  | m :: members' =>
      let added := match zset !! zm_Member m with Some _ => added | None => added + 1 end in
      zadd_loop members' (<[zm_Member m := zm_Score m]> zset) added
  end.

Definition Store_ZAdd env key (members : list ZMember) : SM (GoError + Z) :=
  match members with
  | [] => sret (inl ErrInvalidArgs)
  | _ =>
      let! r := getMutableZSetValue env key in
      let run (zset : gmap string float64) :=
        let '(added, zset') := zadd_loop members zset 0 in
        let! _ := putZSet key zset' in sret (inr added) in
      match r with
      | inr zset => run zset
      | inl ErrKeyNotFound => let! _ := newObject env key (mkTyped TypeZSet (VZSet ∅)) in run ∅
      | inl e => sret (inl e)
      end
  end.

Definition Store_ZRem env key (members : list string) : SM (GoError + Z) :=
  let! r := getMutableZSetValue env key in
  match r with
  | inl ErrKeyNotFound => sret (inr 0)
  | inl e => sret (inl e)
  | inr zset =>
      let '(removed, zset') := delete_members members zset 0 in
      let! _ := putZSet key zset' in
      let! _ := if bool_decide (size zset' = 0%nat) then removeObjectKey key else sret tt in
      sret (inr removed)
  end.

(** The entries of a sorted list that an index range selects. *)
Definition zrange_of (entries : list ZMember) (start stop : Z) : SM (GoError + list ZMember) :=
  match normalizeRange (Z.of_nat (length entries)) start stop with
  | None => sret (inr [])
  | Some (startIdx, stopIdx) =>
      let! result := of_option (sub_list entries startIdx stopIdx) in sret (inr result)
  end.

Definition Store_ZRangeWithScores env key (start stop : Z) : SM (GoError + list ZMember) :=
  let! r := sortedZMembers env key in
  match r with
  | inl ErrKeyNotFound => sret (inr [])
  | inl e => sret (inl e)
  | inr entries => zrange_of entries start stop
  end.

Definition members_of (r : GoError + list ZMember) : GoError + list string :=
  match r with inl e => inl e | inr l => inr (zm_Member <$> l) end.

Definition Store_ZRange env key (start stop : Z) : SM (GoError + list string) :=
  let! r := sortedZMembers env key in
  match r with
  | inl ErrKeyNotFound => sret (inr [])
  | inl e => sret (inl e)
  | inr entries => let! l := zrange_of entries start stop in sret (members_of l)
  end.

(** The in-place swap loop of [ZRevRange] over positions [i < j]. *)
Fixpoint swap_loop {A} (fuel : nat) (i j : nat) (l : list A) : list A :=
  match fuel with
  | O => l
  | S fuel' =>
      if decide (i < j)%nat then
        match l !! i, l !! j with
        | Some x, Some y => swap_loop fuel' (S i) (Nat.pred j) (<[j := x]> (<[i := y]> l))
        | _, _ => l
        end
      else l
  end.

Definition reverse_in_place {A} (l : list A) : list A :=
  swap_loop (length l) 0 (Nat.pred (length l)) l.

Definition Store_ZRevRange env key (start stop : Z) : SM (GoError + list string) :=
  let! r := Store_ZRangeWithScores env key 0 (-1) in
  match r with
  | inl e => sret (inl e)
  | inr entries =>
      let! l := zrange_of (reverse_in_place entries) start stop in sret (members_of l)
  end.

Definition Store_ZScore env key (member : string) : SM (GoError + float64) :=
  let! r := getZSetValue env key in
  sret (match r with
        | inl e => inl e
        | inr zset => match zset !! member with Some score => inr score | None => inl ErrKeyNotFound end
        end).

(** The index of the first entry of [member]. *)
Fixpoint zrank_loop (idx : Z) (entries : list ZMember) (member : string) : option Z :=
  match entries with
  | [] => None
  | e :: entries' =>
      if bool_decide (zm_Member e = member) then Some idx else zrank_loop (idx + 1) entries' member
  end.

Definition Store_ZRank env key (member : string) : SM (GoError + Z) :=
  let! r := sortedZMembers env key in
  sret (match r with
        | inl e => inl e
        | inr entries => match zrank_loop 0 entries member with Some i => inr i | None => inl ErrKeyNotFound end
        end).

Definition Store_ZCard env key : SM (GoError + Z) :=
  let! r := getZSetValue env key in
  sret (match r with
        | inl ErrKeyNotFound => inr 0
        | inl e => inl e
        | inr zset => inr (Z.of_nat (size zset))
        end).

Definition Store_ZCount env key (min max : float64) : SM (GoError + Z) :=
  let! r := getZSetValue env key in
  sret (match r with
        | inl ErrKeyNotFound => inr 0
        | inl e => inl e
        | inr zset =>
            inr (Z.of_nat (length (filter (λ kv, SFleb min kv.2 && SFleb kv.2 max = true) (go_range zset))))
        end).

(** [zset[member] += delta]: an absent member counts as 0. *)
Definition float_add (x y : float64) : float64 := SFadd 53 1024 x y.

Definition Store_ZIncrBy env key (member : string) (delta : float64) : SM (GoError + float64) :=
  let! r := getMutableZSetValue env key in
  let run (zset : gmap string float64) :=
    let score := float_add (default (S754_zero false) (zset !! member)) delta in
    let! _ := putZSet key (<[member := score]> zset) in sret (inr score) in
  match r with
  | inr zset => run zset
  | inl ErrKeyNotFound => let! _ := newObject env key (mkTyped TypeZSet (VZSet ∅)) in run ∅
  | inl e => sret (inl e)
  end.

End objects.
