(* ===== verification/Codec.v ===== *)
(** * The value codec: [internal/engine/memory/entry_codec.go]

    A typed value is serialized as one byte for its type and, except for strings,
    a JSON text. The part of [encoding/json] that the codec uses is modelled
    first: UTF-8, the encoder of strings, the grammar, and decoding into the three
    types the codec asks for. *)

From S2P Require Import Prelude Strconv Dict Store Objects.
From stdpp Require Import options.

(** ** UTF-8 *)

Definition within (lo hi : Z) (b : byte) : bool := (lo <=? Z_of_byte b) && (Z_of_byte b <=? hi).

Definition continuation : byte → bool := within 0x80 0xBF.

(** The bounds of the second byte, which exclude overlong forms, surrogates and
    runes above U+10FFFF. *)
Definition second_ok (b0 b1 : byte) : bool :=
  let z := Z_of_byte b0 in
  if z =? 0xE0 then within 0xA0 0xBF b1
  else if z =? 0xED then within 0x80 0x9F b1
  else if z =? 0xF0 then within 0x90 0xBF b1
  else if z =? 0xF4 then within 0x80 0x8F b1
  else continuation b1.

(** The number of bytes of the rune at the head of [s], 0 when they are not valid
    UTF-8 ([utf8.DecodeRune] then answers U+FFFD of size 1). *)
Definition rune_size (s : list byte) : nat :=
  match s with
  | [] => 0
  | b0 :: s1 =>
      if within 0 0x7F b0 then 1
      else match s1 with
           | [] => 0
           | b1 :: s2 =>
               if within 0xC2 0xDF b0 then (if continuation b1 then 2 else 0)
               else match s2 with
                    | [] => 0
                    | b2 :: s3 =>
                        if within 0xE0 0xEF b0 then (if second_ok b0 b1 && continuation b2 then 3 else 0)
                        else match s3 with
                             | [] => 0
                             | b3 :: _ =>
                                 if within 0xF0 0xF4 b0
                                 then (if second_ok b0 b1 && continuation b2 && continuation b3 then 4 else 0)
                                 else 0
                             end
                    end
           end
  end%nat.

(** The bytes of U+FFFD. *)
Definition replacement : list byte := [xef; xbf; xbd].

(** [utf8.EncodeRune]. *)
Definition EncodeRune (r : Z) : list byte :=
  if r <? 0x80 then [byte_of_Z r]
  else if r <? 0x800 then [byte_of_Z (0xC0 + r / 64); byte_of_Z (0x80 + r mod 64)]
  else if ((0xD800 <=? r) && (r <=? 0xDFFF)) || (0x10FFFF <? r) then replacement
  else if r <? 0x10000 then [byte_of_Z (0xE0 + r / 4096); byte_of_Z (0x80 + r / 64 mod 64); byte_of_Z (0x80 + r mod 64)]
  else [byte_of_Z (0xF0 + r / 262144); byte_of_Z (0x80 + r / 4096 mod 64); byte_of_Z (0x80 + r / 64 mod 64);
        byte_of_Z (0x80 + r mod 64)].

(** A text as runes: valid ones with their bytes, and single invalid bytes. *)
Inductive rune := Rune (bs : list byte) | BadByte (b : byte).

Fixpoint runes_of (fuel : nat) (s : list byte) : list rune :=
  match fuel, s with
  | S f, b :: s' =>
      match rune_size s with
      | O => BadByte b :: runes_of f s'
      | n => Rune (take n s) :: runes_of f (drop n s)
      end
  | _, _ => []
  end.

Definition runes (s : list byte) : list rune := runes_of (length s) s.

(** ** Encoding *)

Definition hex_digit (d : Z) : byte := if d <? 10 then byte_of_Z (48 + d) else byte_of_Z (87 + d).

Definition ascii_quote : byte := x22.
Definition ascii_backslash : byte := x5c.

(** The escapes of the encoder: quotes and backslashes, control characters, and
    the characters that [json.Marshal] escapes for HTML. *)
Definition encode_ascii (b : byte) : list byte :=
  if bool_decide (b = ascii_quote ∨ b = ascii_backslash) then [ascii_backslash; b]
  else if bool_decide (b = x08) then [ascii_backslash; x62]
  else if bool_decide (b = x0c) then [ascii_backslash; x66]
  else if bool_decide (b = x0a) then [ascii_backslash; x6e]
  else if bool_decide (b = x0d) then [ascii_backslash; x72]
  else if bool_decide (b = x09) then [ascii_backslash; x74]
  else if within 0 0x1F b || bool_decide (b ∈ [x3c; x3e; x26]) then
    [ascii_backslash; x75; x30; x30; hex_digit (Z_of_byte b / 16); hex_digit (Z_of_byte b mod 16)]
  else [b].

(** U+2028 and U+2029 are escaped too. *)
Definition encode_rune (r : rune) : list byte :=
  match r with
  | BadByte _ => [ascii_backslash; x75; x66; x66; x66; x64]
  | Rune [b] => encode_ascii b
  | Rune bs =>
      if bool_decide (bs = [xe2; x80; xa8]) then [ascii_backslash; x75; x32; x30; x32; x38]
      else if bool_decide (bs = [xe2; x80; xa9]) then [ascii_backslash; x75; x32; x30; x32; x39]
      else bs
  end.

Definition encode_string (s : list byte) : list byte :=
  [ascii_quote] ++ concat (encode_rune <$> runes s) ++ [ascii_quote].

Fixpoint join_comma (parts : list (list byte)) : list byte :=
  match parts with
  | [] => []
  | [p] => p
  | p :: parts' => p ++ [x2c] ++ join_comma parts'
  end.

Definition json_null : list byte := [x6e; x75; x6c; x6c].

Definition encode_array (elems : list (list byte)) : list byte := [x5b] ++ join_comma elems ++ [x5d].
Definition encode_object (members : list (list byte * list byte)) : list byte :=
  [x7b] ++ join_comma ((λ kv, encode_string kv.1 ++ [x3a] ++ kv.2) <$> members) ++ [x7d].

(** ** Parsing *)

Inductive json :=
  | JNull
  | JBool (b : bool)
  | JNumber (literal : list byte)
  | JString (s : list byte)
  | JArray (l : list json)
  | JObject (l : list (list byte * json)).

Definition is_space (b : byte) : bool := bool_decide (b ∈ [x20; x09; x0d; x0a]).

Fixpoint skip_space (s : list byte) : list byte :=
  match s with b :: s' => if is_space b then skip_space s' else s | [] => [] end.

Definition hex_value (b : byte) : option Z :=
  if within 48 57 b then Some (Z_of_byte b - 48)
  else if within 97 102 b then Some (Z_of_byte b - 87)
  else if within 65 70 b then Some (Z_of_byte b - 55)
  else None.

(** Four hexadecimal digits. *)
Definition get_u4 (s : list byte) : option (Z * list byte) :=
  match s with
  | a :: b :: c :: d :: s' =>
      a ← hex_value a; b ← hex_value b; c ← hex_value c; d ← hex_value d;
      Some (((a * 16 + b) * 16 + c) * 16 + d, s')
  | _ => None
  end.

Definition surrogate (r : Z) : bool := (0xD800 <=? r) && (r <=? 0xDFFF).

(** [\uXXXX], whose digits are [r]: a surrogate takes the next escape with it when
    the two make a pair and is U+FFFD otherwise. *)
Definition unicode_escape (r : Z) (s : list byte) : list byte * list byte :=
  if surrogate r then
    match s with
    | x5c :: x75 :: s' =>
        match get_u4 s' with
        | Some (r2, s2) =>
            if (r <? 0xDC00) && (0xDC00 <=? r2) && (r2 <? 0xE000)
            then (EncodeRune ((r - 0xD800) * 1024 + (r2 - 0xDC00) + 0x10000), s2)
            else (replacement, s)
        | None => (replacement, s)
        end
    | _ => (replacement, s)
    end
  else (EncodeRune r, s).

Definition simple_escape (b : byte) : option byte :=
  match b with
  | x22 => Some x22 | x5c => Some x5c | x2f => Some x2f
  | x62 => Some x08 | x66 => Some x0c | x6e => Some x0a | x72 => Some x0d | x74 => Some x09
  | _ => None
  end.

(** The string after its opening quote, unquoted, and what follows it. *)
Fixpoint parse_string (fuel : nat) (s : list byte) : option (list byte * list byte) :=
  match fuel, s with
  | S f, b :: s' =>
      if bool_decide (b = ascii_quote) then Some ([], s')
      else if bool_decide (b = ascii_backslash) then
        match s' with
        | [] => None
        | e :: s2 =>
            if bool_decide (e = x75) then
              u ← get_u4 s2;
              let '(bs, rest) := unicode_escape u.1 u.2 in
              r ← parse_string f rest; Some (bs ++ r.1, r.2)
            else
              c ← simple_escape e; r ← parse_string f s2; Some (c :: r.1, r.2)
        end
      else if within 0 0x1F b then None
      else
        match rune_size s with
        | O => r ← parse_string f s'; Some (replacement ++ r.1, r.2)
        | n => r ← parse_string f (drop n s); Some (take n s ++ r.1, r.2)
        end
  | _, _ => None
  end.

Fixpoint digits_of (s : list byte) : list byte * list byte :=
  match s with
  | b :: s' => if within 48 57 b then let '(d, r) := digits_of s' in (b :: d, r) else ([], s)
  | [] => ([], [])
  end.

(** At least one digit. *)
Definition some_digits (s : list byte) : option (list byte * list byte) :=
  match digits_of s with ([], _) => None | r => Some r end.

(** An optional byte of [cs]. *)
Definition optional (cs : list byte) (s : list byte) : list byte * list byte :=
  match s with b :: s' => if bool_decide (b ∈ cs) then ([b], s') else ([], s) | [] => ([], []) end.

Definition number_int (s : list byte) : option (list byte * list byte) :=
  match optional [x30] s with ([], _) => some_digits s | r => Some r end.

Definition number_frac (s : list byte) : option (list byte * list byte) :=
  match optional [x2e] s with ([], _) => Some ([], s) | (dot, s') => d ← some_digits s'; Some (dot ++ d.1, d.2) end.

Definition number_exp (s : list byte) : option (list byte * list byte) :=
  match optional [x65; x45] s with
  | ([], _) => Some ([], s)
  | (e, s') => let '(sign, s2) := optional [x2b; x2d] s' in d ← some_digits s2; Some (e ++ sign ++ d.1, d.2)
  end.

(** The literal of a number and what follows it. *)
Definition parse_number (s : list byte) : option (list byte * list byte) :=
  let '(sign, s1) := optional [x2d] s in
  i ← number_int s1; f ← number_frac i.2; e ← number_exp f.2;
  Some (sign ++ i.1 ++ f.1 ++ e.1, e.2).

Definition maxNestingDepth : nat := N.to_nat 10000.

(** [parse_elems] and [parse_members] read what follows an opening bracket, the
    first element included, or a comma. *)
Fixpoint parse_value (fuel depth : nat) (s : list byte) {struct fuel} : option (json * list byte) :=
  match fuel with
  | O => None
  | S f =>
      match skip_space s with
      | [] => None
      | b :: s' =>
          if bool_decide (b = x22) then r ← parse_string (length s') s'; Some (JString r.1, r.2)
          else if bool_decide (b = x5b) then
            match depth with
            | O => None
            | S depth' =>
                match skip_space s' with
                | x5d :: r => Some (JArray [], r)
                | _ => r ← parse_elems f depth' s'; Some (JArray r.1, r.2)
                end
            end
          else if bool_decide (b = x7b) then
            match depth with
            | O => None
            | S depth' =>
                match skip_space s' with
                | x7d :: r => Some (JObject [], r)
                | _ => r ← parse_members f depth' s'; Some (JObject r.1, r.2)
                end
            end
          else if bool_decide (b = x6e) then
            match s' with x75 :: x6c :: x6c :: r => Some (JNull, r) | _ => None end
          else if bool_decide (b = x74) then
            match s' with x72 :: x75 :: x65 :: r => Some (JBool true, r) | _ => None end
          else if bool_decide (b = x66) then
            match s' with x61 :: x6c :: x73 :: x65 :: r => Some (JBool false, r) | _ => None end
          else r ← parse_number (b :: s'); Some (JNumber r.1, r.2)
      end
  end
with parse_elems (fuel depth : nat) (s : list byte) {struct fuel} : option (list json * list byte) :=
  match fuel with
  | O => None
  | S f =>
      v ← parse_value f depth s;
      match skip_space v.2 with
      | x2c :: s' => r ← parse_elems f depth s'; Some (v.1 :: r.1, r.2)
      | x5d :: s' => Some ([v.1], s')
      | _ => None
      end
  end
with parse_members (fuel depth : nat) (s : list byte) {struct fuel} : option (list (list byte * json) * list byte) :=
  match fuel with
  | O => None
  | S f =>
      match skip_space s with
      | x22 :: s1 =>
          k ← parse_string (length s1) s1;
          match skip_space k.2 with
          | x3a :: s2 =>
              v ← parse_value f depth s2;
              match skip_space v.2 with
              | x2c :: s' => r ← parse_members f depth s'; Some ((k.1, v.1) :: r.1, r.2)
              | x7d :: s' => Some ([(k.1, v.1)], s')
              | _ => None
              end
          | _ => None
          end
      | _ => None
      end
  end.

(** Every call below [parse_value] either consumes a byte or is followed by one
    that does, so twice the length of the text bounds the depth of the calls. *)
Definition parse_json (s : list byte) : option json :=
  r ← parse_value (S (S (2 * length s))) maxNestingDepth s;
  match skip_space r.2 with [] => Some r.1 | _ => None end.

(** ** Decoding *)

(** A string field or element: null leaves the empty string. *)
Definition string_value (v : json) : option string :=
  match v with JString s => Some (BytesToString s) | JNull => Some "" | _ => None end.

(** Folding of field names: ASCII case, and the long s that folds to S. *)
Fixpoint fold_name (s : list byte) : list byte :=
  match s with
  | xc5 :: xbf :: s' => x53 :: fold_name s'
  | b :: s' => (if within 97 122 b then byte_of_Z (Z_of_byte b - 32) else b) :: fold_name s'
  | [] => []
  end.

Section codec.
Context `{!GoRange string unit} `{!GoRange string string} `{!GoRange string float64}.

(** [strconv.ParseFloat] on a literal, the encoder of finite floats, and the text
    of the errors of [encoding/json]. *)
Context (parse_float : list byte → option float64) (json_float : float64 → list byte) (json_error : list byte → string).

Definition zmember_field (m : ZMember) (kv : list byte * json) : option ZMember :=
  let name := fold_name kv.1 in
  if bool_decide (name = StringToBytes "SCORE") then
    match kv.2 with
    | JNumber lit => x ← parse_float lit; Some (mkZMember x (zm_Member m))
    | JNull => Some m
    | _ => None
    end
  else if bool_decide (name = StringToBytes "MEMBER") then
    match kv.2 with
    | JString s => Some (mkZMember (zm_Score m) (BytesToString s))
    | JNull => Some m
    | _ => None
    end
  else Some m.

Definition zero_member : ZMember := mkZMember (S754_zero false) "".

Definition zmember_value (v : json) : option ZMember :=
  match v with
  | JNull => Some zero_member
  | JObject fields => foldl (λ m kv, m ← m; zmember_field m kv) (Some zero_member) fields
  | _ => None
  end.

(** [json.Unmarshal] into [[]string], [map[string]string] and [[]ZMember]; [inr
    None] is nil. *)
Definition unmarshal_list {A} (elem : json → option A) (payload : list byte) : GoError + option (list A) :=
  match parse_json payload with
  | Some JNull => inr None
  | Some (JArray l) => match mapM elem l with Some vs => inr (Some vs) | None => inl (ErrMessage (json_error payload)) end
  | _ => inl (ErrMessage (json_error payload))
  end.

Definition unmarshal_map (payload : list byte) : GoError + option (list (string * string)) :=
  match parse_json payload with
  | Some JNull => inr None
  | Some (JObject l) =>
      match mapM (λ kv, v ← string_value kv.2; Some (BytesToString kv.1, v)) l with
      | Some kvs => inr (Some kvs)
      | None => inl (ErrMessage (json_error payload))
      end
  | _ => inl (ErrMessage (json_error payload))
  end.

(** Later entries replace earlier ones. *)
Definition map_of {A} (kvs : list (string * A)) : gmap string A := foldl (λ m kv, <[kv.1 := kv.2]> m) ∅ kvs.

Definition type_number (t : ValueType) : Z :=
  match t with
  | TypeString => 0 | TypeList => 1 | TypeSet => 2 | TypeZSet => 3 | TypeHash => 4 | TypeUnknown n => n
  end.

Definition DecodeSerializedValue (valueType : ValueType) (payload : list byte) : GoError + GoValue :=
  match valueType with
  | TypeString => inr (VString (BytesToString payload))
  | TypeHash =>
      match unmarshal_map payload with
      | inl e => inl e
      | inr value => inr (match value with Some kvs => VHash (map_of kvs) | None => VNil end)
      end
  | TypeList =>
      match unmarshal_list string_value payload with
      | inl e => inl e
      | inr value => inr (match value with Some l => VList l | None => VNil end)
      end
  | TypeSet =>
      match unmarshal_list string_value payload with
      | inl e => inl e
      | inr members => inr (VSet (map_of ((λ m, (m, tt)) <$> default [] members)))
      end
  | TypeZSet =>
      match unmarshal_list zmember_value payload with
      | inl e => inl e
      | inr members => inr (VZSet (map_of ((λ m, (zm_Member m, zm_Score m)) <$> default [] members)))
      end
  | TypeUnknown n => inl (ErrMessage ("unsupported value type " +:+ BytesToString (strconv_FormatInt n)))
  end.

(** The name that [%T] prints; nil has the type of the entry that holds it. *)
Definition type_name (t : ValueType) (v : GoValue) : string :=
  match v with
  | VString _ => "string" | VBytes _ => "[]uint8" | VList _ => "[]string" | VSet _ => "map[string]struct {}"
  | VZSet _ => "map[string]float64" | VHash _ => "map[string]string"
  | VNil => if bool_decide (t = TypeHash) then "map[string]string" else "[]string"
  end.

Definition marshal_strings (l : list string) : list byte := encode_array ((λ s, encode_string (StringToBytes s)) <$> l).

(** The encoder sorts the keys of a map. *)
Definition marshal_map (m : gmap string string) : list byte :=
  encode_object ((λ k, (StringToBytes k, encode_string (StringToBytes (default "" (m !! k))))) <$> sort_strings (go_range m).*1).

Definition finite (x : float64) : bool := match x with S754_infinity _ | S754_nan => false | _ => true end.

Definition marshal_zmember (m : ZMember) : list byte :=
  encode_object [(StringToBytes "Score", json_float (zm_Score m)); (StringToBytes "Member", encode_string (StringToBytes (zm_Member m)))].

Definition marshal_zset (m : gmap string float64) : GoError + list byte :=
  let members := zset_entries m in
  if forallb (λ m, finite (zm_Score m)) members then inr (encode_array (marshal_zmember <$> members))
  else inl (ErrMessage (json_error [])).

Definition payload_of (entry : EngineEntry) : GoError + list byte :=
  let unsupported kind := inl (ErrMessage ("unsupported " +:+ kind +:+ " value type " +:+ type_name (ee_Type entry) (ee_Value entry))) in
  match ee_Type entry with
  | TypeString =>
      match ee_Value entry with VBytes b => inr b | VString s => inr (StringToBytes s) | _ => unsupported "string" end
  | TypeHash => match ee_Value entry with VHash m => inr (marshal_map m) | VNil => inr json_null | _ => unsupported "hash" end
  | TypeList => match ee_Value entry with VList l => inr (marshal_strings l) | VNil => inr json_null | _ => unsupported "list" end
  | TypeSet =>
      match ee_Value entry with
      | VSet m => inr (marshal_strings (sort_strings (go_range m).*1))
      | VList l => inr (marshal_strings (sort_strings l))
      | VNil => inr json_null
      | _ => unsupported "set"
      end
  | TypeZSet => match ee_Value entry with VZSet m => marshal_zset m | _ => unsupported "zset" end
  | TypeUnknown n => inl (ErrMessage ("unsupported value type " +:+ BytesToString (strconv_FormatInt n)))
  end.

Definition SerializeEntryValue (entry : EngineEntry) : GoError + list byte :=
  match payload_of entry with
  | inl e => inl e
  | inr payload => inr (byte_of_Z (type_number (ee_Type entry)) :: payload)
  end.
End codec.
