(* ===== verification/CodecSpec.v ===== *)
(** * The value codec: what is serialized is read back

    Parsing is the inverse of encoding up to one thing: a byte that is not part
    of valid UTF-8 comes back as U+FFFD. [clean] is that replacement;
    [codec_roundtrip] states the round trip for every type of value. *)

From S2P Require Import Prelude Strconv Dict Store Objects Codec.
From stdpp Require Import options.

(** ** Runes *)

Definition cleaned (r : rune) : list byte := match r with Rune bs => bs | BadByte _ => replacement end.

(** The bytes with every invalid one replaced. *)
Definition clean (s : list byte) : list byte := concat (cleaned <$> runes s).

Definition is_rune (r : rune) : bool := match r with Rune _ => true | BadByte _ => false end.

Definition valid_utf8 (s : list byte) : bool := forallb is_rune (runes s).

Definition rune_ok (r : rune) : Prop :=
  match r with
  | Rune bs => rune_size bs = length bs ∧ bs ≠ []
  | BadByte _ => True
  end.

Lemma rune_size_take s n : rune_size s = S n →
  (S n ≤ length s)%nat ∧ ∀ rest, rune_size (take (S n) s ++ rest) = S n.
Proof.
  unfold rune_size. intros H.
  destruct s as [|b0 [|b1 [|b2 [|b3 s]]]]; repeat case_match; simplify_eq; cbn [length take app];
    (split; [lia|]); intros rest; repeat (case_match; simplify_eq; try congruence); try done.
Qed.

Lemma runes_of_ok f s : Forall rune_ok (runes_of f s).
Proof.
  revert s. induction f as [|f IH]; intros [|b s]; cbn [runes_of]; try constructor.
  destruct (rune_size (b :: s)) as [|n] eqn:E; [by constructor|].
  destruct (rune_size_take _ _ E) as [Hl Ht]. constructor; [|apply IH]. split; [|done].
  specialize (Ht []). rewrite app_nil_r in Ht. rewrite Ht, length_take. lia.
Qed.

Lemma runes_valid f s : (length s ≤ f)%nat → forallb is_rune (runes_of f s) = true → concat (cleaned <$> runes_of f s) = s.
Proof.
  revert s. induction f as [|f IH]; intros [|b s] Hf; cbn [runes_of]; try done; [simpl in Hf; lia|].
  destruct (rune_size (b :: s)) as [|n] eqn:E; [done|]. intros Hv. cbn [forallb is_rune andb] in Hv.
  cbn [fmap list_fmap concat cleaned]. rewrite IH; [by rewrite take_drop| |done].
  rewrite length_drop. simpl in *. lia.
Qed.

Lemma clean_valid s : valid_utf8 s = true → clean s = s.
Proof. by apply runes_valid. Qed.

(** ** Strings *)

Lemma parse_string_ascii f b rest : within 0 0x7F b = true →
  parse_string (S f) (encode_ascii b ++ rest) = (r ← parse_string f rest; Some (b :: r.1, r.2)).
Proof. intros H. destruct b; first [discriminate H | reflexivity]. Qed.

(** A byte above the ASCII range is neither a quote, a backslash nor a control
    character. *)
Lemma parse_string_high f b s : within 0 0x7F b = false →
  parse_string (S f) (b :: s) =
  match rune_size (b :: s) with
  | O => r ← parse_string f s; Some (replacement ++ r.1, r.2)
  | n => r ← parse_string f (drop n (b :: s)); Some (take n (b :: s) ++ r.1, r.2)
  end.
Proof. intros H. destruct b; first [discriminate H | reflexivity]. Qed.

Lemma parse_string_rune f r rest : rune_ok r →
  parse_string (S f) (encode_rune r ++ rest) = (x ← parse_string f rest; Some (cleaned r ++ x.1, x.2)).
Proof.
  destruct r as [bs|b]; [|done]. intros [Hs Hne].
  destruct bs as [|b [|b1 bs]]; [done| |].
  - cbn [rune_size] in Hs. cbn [encode_rune cleaned]. destruct (within 0 127 b) eqn:Hb; [|done].
    by apply parse_string_ascii.
  - cbn [encode_rune cleaned]. case_bool_decide as E1; [by rewrite E1|]. case_bool_decide as E2; [by rewrite E2|].
    destruct (rune_size_take (b :: b1 :: bs) (S (length bs)) Hs) as [_ Ht]. specialize (Ht rest).
    rewrite take_ge in Ht by (simpl; lia). cbn [app]. rewrite parse_string_high.
    + cbn [app] in Ht. rewrite Ht. cbn [length]. rewrite app_comm_cons, app_comm_cons.
      by rewrite (drop_app_length' (b :: b1 :: bs)), (take_app_length' (b :: b1 :: bs)).
    + cbn [rune_size length] in Hs. destruct (within 0 127 b); [discriminate Hs|done].
Qed.

Lemma parse_string_runes f rs rest : Forall rune_ok rs → (length rs < f)%nat →
  parse_string f (concat (encode_rune <$> rs) ++ ascii_quote :: rest) = Some (concat (cleaned <$> rs), rest).
Proof.
  intros Hrs. revert f. induction Hrs as [|r rs Hr Hrs IH]; intros [|f] Hf; simpl in Hf; try lia; [done|].
  cbn [fmap list_fmap concat]. rewrite <-app_assoc, parse_string_rune by done.
  rewrite (IH f) by lia. done.
Qed.

Lemma encode_rune_length r : rune_ok r → (1 ≤ length (encode_rune r))%nat.
Proof.
  destruct r as [[|b [|b1 bs]]|b]; cbn [encode_rune rune_ok]; try (simpl; lia); [by intros [_ ?]| |].
  - intros _. unfold encode_ascii. repeat case_match; simpl; lia.
  - intros _. repeat case_match; simpl; lia.
Qed.

Lemma runes_encoded_length rs : Forall rune_ok rs → (length rs ≤ length (concat (encode_rune <$> rs)))%nat.
Proof.
  induction 1 as [|r rs Hr _ IH]; [done|]. cbn [fmap list_fmap concat length]. rewrite length_app.
  pose proof (encode_rune_length r Hr). lia.
Qed.

Lemma parse_string_encoded s rest :
  let body := concat (encode_rune <$> runes s) ++ ascii_quote :: rest in
  parse_string (length body) body = Some (clean s, rest).
Proof.
  cbn zeta. apply parse_string_runes; [apply runes_of_ok|].
  rewrite length_app. pose proof (runes_encoded_length (runes s) (runes_of_ok _ _)). simpl. lia.
Qed.

Lemma encode_string_app s rest :
  encode_string s ++ rest = ascii_quote :: (concat (encode_rune <$> runes s) ++ ascii_quote :: rest).
Proof. unfold encode_string. by rewrite <-!app_assoc. Qed.

Lemma parse_value_string f depth s rest : parse_value (S f) depth (encode_string s ++ rest) = Some (JString (clean s), rest).
Proof.
  rewrite encode_string_app. cbn [parse_value skip_space]. unfold ascii_quote at 1.
  change (is_space x22) with false. cbv iota. rewrite bool_decide_eq_true_2 by done.
  rewrite parse_string_encoded. done.
Qed.

(** ** Arrays and objects *)

(** What may follow a value inside an array or object. *)
Definition follows (rest : list byte) : Prop := ∃ b r, rest = b :: r ∧ b ∈ [x2c; x5d; x7d].

(** The text [e] is read as [v] with [need] of fuel. *)
Definition parses (depth need : nat) (e : list byte) (v : json) : Prop :=
  ∀ f rest, (need ≤ f)%nat → follows rest → parse_value f depth (e ++ rest) = Some (v, rest).

(** The text of an element: it begins with a quote or a brace. *)
Definition opens (e : list byte) : Prop := ∃ b e', e = b :: e' ∧ b ∈ [x22; x7b].

Lemma follows_comma r : follows (x2c :: r).
Proof. exists x2c, r. split; [done|set_solver]. Qed.
Lemma follows_bracket r : follows (x5d :: r).
Proof. exists x5d, r. split; [done|set_solver]. Qed.
Lemma follows_brace r : follows (x7d :: r).
Proof. exists x7d, r. split; [done|set_solver]. Qed.
#[local] Hint Resolve follows_comma follows_bracket follows_brace : core.

Lemma parses_string depth s : parses depth 1 (encode_string s) (JString (clean s)).
Proof. intros [|f] rest Hf _; [lia|]. apply parse_value_string. Qed.

Lemma opens_string s : opens (encode_string s).
Proof. eexists _, _. split; [reflexivity|]. set_solver. Qed.

Lemma opens_object kvs : opens (encode_object kvs).
Proof. eexists _, _. split; [reflexivity|]. set_solver. Qed.

Lemma skip_space_opens e rest : opens e → skip_space (e ++ rest) = e ++ rest ∧ ∀ r, e ++ rest ≠ x5d :: r.
Proof. intros (b & e' & -> & Hb). rewrite !elem_of_cons in Hb. destruct Hb as [->|[->|[]%not_elem_of_nil]]; done. Qed.

Lemma parse_elems_join depth need es vs f rest :
  Forall2 (parses depth need) es vs → es ≠ [] → (need + length es ≤ f)%nat →
  parse_elems f depth (join_comma es ++ x5d :: rest) = Some (vs, rest).
Proof.
  intros H. revert f. induction H as [|e v es vs He Hes IH]; intros f Hne Hf; [done|].
  destruct f as [|f]; simpl in Hf; [lia|]. destruct es as [|e' es].
  - inversion Hes; subst. cbn [join_comma parse_elems]. rewrite He by (auto; simpl in *; lia). done.
  - change (join_comma (e :: e' :: es)) with (e ++ [x2c] ++ join_comma (e' :: es)).
    rewrite <-!app_assoc. cbn [app parse_elems]. rewrite He by (auto; simpl in *; lia). cbn [mbind option_bind fst snd skip_space].
    change (is_space x2c) with false. cbv iota. rewrite IH by (simpl in *; first [done|lia]). done.
Qed.

Lemma join_comma_opens es : es ≠ [] → Forall opens es → opens (join_comma es).
Proof.
  destruct es as [|e [|e' es]]; intros Hne H; [done| |]; apply Forall_cons_1 in H as [(b & e1 & -> & Hb) _];
    eexists _, _; (split; [reflexivity|done]).
Qed.

Lemma parse_array depth need es vs f rest :
  Forall2 (parses depth need) es vs → Forall opens es → (S (need + length es) ≤ f)%nat →
  parse_value f (S depth) (encode_array es ++ rest) = Some (JArray vs, rest).
Proof.
  intros H Ho Hf. destruct f as [|f]; [lia|]. unfold encode_array. rewrite <-!app_assoc. cbn [app parse_value skip_space].
  change (is_space x5b) with false. cbv iota.
  change (bool_decide (x5b = x22)) with false. change (bool_decide (x5b = x5b)) with true. cbv iota.
  destruct es as [|e es]; [inversion H; by subst|].
  destruct (skip_space_opens (join_comma (e :: es)) (x5d :: rest)) as [Hs Hn]; [by apply join_comma_opens|].
  rewrite Hs, (parse_elems_join depth need _ vs) by (done || lia).
  destruct (join_comma (e :: es) ++ x5d :: rest) as [|b r] eqn:E; [by destruct (join_comma (e :: es))|].
  destruct b; try done. by destruct (Hn r).
Qed.

(** A member of an object: its name and its value. *)
Definition member_text (kv : list byte * list byte) : list byte := encode_string kv.1 ++ [x3a] ++ kv.2.

Lemma parse_members_join depth need kvs vs f rest :
  Forall2 (λ kv v, parses depth need kv.2 v) kvs vs → kvs ≠ [] → (need + length kvs ≤ f)%nat →
  parse_members f depth (join_comma (member_text <$> kvs) ++ x7d :: rest) = Some (zip (clean <$> kvs.*1) vs, rest).
Proof.
  intros H. revert f. induction H as [|[k e] v kvs vs He Hes IH]; intros f Hne Hf; [done|].
  destruct f as [|f]; simpl in Hf; [lia|].
  assert (∀ tail, parse_members (S f) depth (member_text (k, e) ++ tail) =
    (v ← parse_value f depth (e ++ tail);
     match skip_space v.2 with
     | x2c :: s' => r ← parse_members f depth s'; Some ((clean k, v.1) :: r.1, r.2)
     | x7d :: s' => Some ([(clean k, v.1)], s')
     | _ => None
     end)) as Hm.
  { intros tail. unfold member_text. cbn [fst snd]. rewrite <-!app_assoc, encode_string_app. cbn [parse_members skip_space].
    unfold ascii_quote at 1. change (is_space x22) with false. cbv iota. unfold ascii_quote at 1. cbv iota.
    rewrite parse_string_encoded. done. }
  destruct kvs as [|kv' kvs].
  - inversion Hes; subst. cbn [fmap list_fmap join_comma]. rewrite Hm, He by (auto; simpl in *; lia). done.
  - cbn [fmap list_fmap].
    change (join_comma (member_text (k, e) :: member_text kv' :: (member_text <$> kvs)))
      with (member_text (k, e) ++ [x2c] ++ join_comma (member_text <$> kv' :: kvs)).
    rewrite <-!app_assoc, Hm. cbn [app]. rewrite He by (auto; simpl in *; lia). cbn [mbind option_bind fst snd skip_space].
    change (is_space x2c) with false. cbv iota. rewrite IH by (simpl in *; first [done|lia]). done.
Qed.

Lemma parse_object depth need kvs vs f rest :
  Forall2 (λ kv v, parses depth need kv.2 v) kvs vs → (S (need + length kvs) ≤ f)%nat →
  parse_value f (S depth) (encode_object kvs ++ rest) = Some (JObject (zip (clean <$> kvs.*1) vs), rest).
Proof.
  intros H Hf. destruct f as [|f]; [lia|]. unfold encode_object. fold member_text.
  change (λ kv : list byte * list byte, encode_string kv.1 ++ [x3a] ++ kv.2) with member_text.
  rewrite <-!app_assoc. cbn [app parse_value skip_space]. change (is_space x7b) with false. cbv iota.
  change (bool_decide (x7b = x22)) with false. change (bool_decide (x7b = x5b)) with false.
  change (bool_decide (x7b = x7b)) with true. cbv iota.
  destruct kvs as [|kv kvs]; [inversion H; by subst|].
  rewrite (parse_members_join depth need _ vs) by (done || lia).
  assert (opens (join_comma (member_text <$> kv :: kvs))) as (b & r & E & Hb).
  { apply join_comma_opens; [done|]. apply Forall_fmap, Forall_true. intros x. eexists _, _. split; [reflexivity|set_solver]. }
  rewrite E. rewrite !elem_of_cons in Hb. destruct Hb as [->|[->|[]%not_elem_of_nil]]; done.
Qed.

(** ** Numbers *)

(** The text of a number, all of it. *)
Definition number_literal (lit : list byte) : Prop := parse_number lit = Some (lit, []).

Lemma digits_of_app s rest : follows rest → digits_of (s ++ rest) = ((digits_of s).1, (digits_of s).2 ++ rest).
Proof.
  intros (b & r & -> & Hb). induction s as [|c s IH]; cbn [digits_of app fst snd].
  - rewrite !elem_of_cons in Hb. destruct Hb as [->|[->|[->|[]%not_elem_of_nil]]]; done.
  - destruct (within 48 57 c); [|done]. rewrite IH. by destruct (digits_of s).
Qed.

Lemma some_digits_app s a b rest : follows rest → some_digits s = Some (a, b) → some_digits (s ++ rest) = Some (a, b ++ rest).
Proof.
  intros Hf. unfold some_digits. rewrite digits_of_app by done. destruct (digits_of s) as [[|? ?] ?]; [done|].
  cbn [fst snd]. by intros [= <- <-].
Qed.

(** None of the bytes that [optional] is asked for may follow a value. *)
Lemma optional_app cs s rest : follows rest → (∀ b, b ∈ cs → b ∉ [x2c; x5d; x7d]) →
  optional cs (s ++ rest) = ((optional cs s).1, (optional cs s).2 ++ rest).
Proof.
  intros (b & r & -> & Hb) Hcs. destruct s as [|c s]; cbn [app optional].
  - rewrite bool_decide_eq_false_2; [done|]. intros Hin. by apply (Hcs b).
  - by case_bool_decide.
Qed.

Lemma disjoint_check (cs : list byte) : forallb (λ b, bool_decide (b ∉ [x2c; x5d; x7d])) cs = true →
  ∀ b, b ∈ cs → b ∉ [x2c; x5d; x7d].
Proof. rewrite forallb_forall. intros H b Hb. apply list_elem_of_In, H, bool_decide_eq_true in Hb. done. Qed.

Ltac optional_tac := rewrite optional_app by (done || by apply disjoint_check).

Lemma number_int_app s a b rest : follows rest → number_int s = Some (a, b) → number_int (s ++ rest) = Some (a, b ++ rest).
Proof.
  intros Hf. unfold number_int. optional_tac. destruct (optional _ s) as [[|? ?] ?]; cbn [fst snd].
  - by apply some_digits_app.
  - by intros [= <- <-].
Qed.

Lemma number_frac_app s a b rest : follows rest → number_frac s = Some (a, b) → number_frac (s ++ rest) = Some (a, b ++ rest).
Proof.
  intros Hf. unfold number_frac. optional_tac. destruct (optional _ s) as [[|? ?] s']; cbn [fst snd]; [by intros [= <- <-]|].
  destruct (some_digits s') as [[d r]|] eqn:E; [|done]. rewrite (some_digits_app _ _ _ _ Hf E). by intros [= <- <-].
Qed.

Lemma number_exp_app s a b rest : follows rest → number_exp s = Some (a, b) → number_exp (s ++ rest) = Some (a, b ++ rest).
Proof.
  intros Hf. unfold number_exp. optional_tac. destruct (optional _ s) as [[|? ?] s']; cbn [fst snd]; [by intros [= <- <-]|].
  optional_tac. destruct (optional _ s') as [sign s2]. cbn [fst snd].
  destruct (some_digits s2) as [[d r]|] eqn:E; [|done]. rewrite (some_digits_app _ _ _ _ Hf E). by intros [= <- <-].
Qed.

Lemma parse_number_app lit rest : number_literal lit → follows rest → parse_number (lit ++ rest) = Some (lit, rest).
Proof.
  intros Hl Hf. unfold number_literal, parse_number in *. optional_tac. destruct (optional _ lit) as [sign s1]. cbn [fst snd].
  destruct (number_int s1) as [[i1 i2]|] eqn:Ei; [|done]. rewrite (number_int_app _ _ _ _ Hf Ei). cbn [mbind option_bind fst snd] in *.
  destruct (number_frac i2) as [[f1 f2]|] eqn:Ef; [|done]. rewrite (number_frac_app _ _ _ _ Hf Ef). cbn [mbind option_bind fst snd] in *.
  destruct (number_exp f2) as [[e1 e2]|] eqn:Ee; [|done]. rewrite (number_exp_app _ _ _ _ Hf Ee). cbn [mbind option_bind fst snd] in *.
  by injection Hl as <- ->.
Qed.

(** A number begins with a minus or a digit. *)
Lemma number_first b lit : number_literal (b :: lit) → b = x2d ∨ within 48 57 b = true.
Proof.
  unfold number_literal, parse_number, optional. case_bool_decide as Eb; [left; set_solver|].
  unfold number_int, optional. case_bool_decide as E0.
  - right. apply list_elem_of_singleton in E0 as ->. done.
  - unfold some_digits. cbn [digits_of]. by destruct (within 48 57 b); [right|].
Qed.

Lemma parses_number depth lit : number_literal lit → parses depth 1 lit (JNumber lit).
Proof.
  intros Hl [|f] rest Hf Hr; [lia|]. pose proof (parse_number_app lit rest Hl Hr) as Hp.
  destruct lit as [|b lit]; [done|]. pose proof (number_first b lit Hl) as Hb.
  change ((b :: lit) ++ rest) with (b :: (lit ++ rest)) in *.
  assert (parse_value (S f) depth (b :: (lit ++ rest)) = (r ← parse_number (b :: (lit ++ rest)); Some (JNumber r.1, r.2))) as ->.
  { cbn [parse_value skip_space].
    destruct Hb as [->|Hb]; [done|]. destruct b; first [discriminate Hb | reflexivity]. }
  by rewrite Hp.
Qed.

(** ** Whole texts *)

Lemma length_join_comma es : Forall opens es → (length es ≤ length (join_comma es))%nat.
Proof.
  induction 1 as [|e es (b & e' & -> & _) _ IH]; [done|].
  destruct es as [|e2 es]; [simpl; lia|].
  change (join_comma ((b :: e') :: e2 :: es)) with ((b :: e') ++ [x2c] ++ join_comma (e2 :: es)).
  rewrite !length_app. simpl in *. lia.
Qed.

Lemma parse_json_array need es vs :
  Forall2 (parses (N.to_nat 9999) need) es vs → Forall opens es → (need ≤ 5)%nat →
  parse_json (encode_array es) = Some (JArray vs).
Proof.
  intros H Ho Hn. unfold parse_json. replace maxNestingDepth with (S (N.to_nat 9999)) by (unfold maxNestingDepth; lia).
  pose proof (length_join_comma es Ho) as Hl.
  pose proof (parse_array _ need es vs (S (S (2 * length (encode_array es)))) [] H Ho) as Hp. rewrite app_nil_r in Hp.
  rewrite Hp; [done|]. unfold encode_array. rewrite !length_app. simpl. lia.
Qed.

Lemma parse_json_object need kvs vs :
  Forall2 (λ kv v, parses (N.to_nat 9999) need kv.2 v) kvs vs → (need ≤ 5)%nat →
  parse_json (encode_object kvs) = Some (JObject (zip (clean <$> kvs.*1) vs)).
Proof.
  intros H Hn. unfold parse_json. replace maxNestingDepth with (S (N.to_nat 9999)) by (unfold maxNestingDepth; lia).
  assert (length kvs ≤ length (join_comma (member_text <$> kvs)))%nat as Hl.
  { rewrite <-(length_fmap member_text kvs) at 1. apply length_join_comma.
    apply Forall_fmap, Forall_true. intros x. eexists _, _. split; [reflexivity|set_solver]. }
  pose proof (parse_object _ need kvs vs (S (S (2 * length (encode_object kvs)))) [] H) as Hp. rewrite app_nil_r in Hp.
  rewrite Hp; [done|]. unfold encode_object. change (λ kv : list byte * list byte, encode_string kv.1 ++ [x3a] ++ kv.2) with member_text.
  rewrite !length_app. simpl. lia.
Qed.

(** ** Values *)

Definition clean_string (s : string) : string := BytesToString (clean (StringToBytes s)).

Definition utf8_string (s : string) : Prop := valid_utf8 (StringToBytes s) = true.

Lemma clean_string_valid s : utf8_string s → clean_string s = s.
Proof. intros H. unfold clean_string. by rewrite clean_valid, BytesToString_StringToBytes. Qed.

(** Entries with distinct keys make the map they come from. *)
Lemma map_of_lookup {A} (kvs : list (string * A)) k : NoDup kvs.*1 →
  ∀ x, (k, x) ∈ kvs → map_of kvs !! k = Some x.
Proof.
  unfold map_of. generalize (∅ : gmap string A). induction kvs as [|[k' x'] kvs IH]; intros m Hnd x Hx; [by apply not_elem_of_nil in Hx|].
  cbn [foldl]. apply NoDup_cons in Hnd as [Hk Hnd]. apply elem_of_cons in Hx as [[= <- <-]|Hx]; [|by apply IH].
  clear IH. assert (∀ m : gmap string A, m !! k = Some x → foldl (λ m kv, <[kv.1:=kv.2]> m) m kvs !! k = Some x) as H.
  { clear Hnd. induction kvs as [|[k' x'] kvs IH]; intros m' Hm; [done|]. cbn [foldl]. cbn [fmap list_fmap fst] in Hk.
    apply not_elem_of_cons in Hk as [Hk1 Hk2]. apply IH; [done|]. cbn [fst snd]. by rewrite lookup_insert_ne. }
  apply H. cbn [fst snd]. by rewrite lookup_insert_eq.
Qed.

Lemma map_of_absent {A} (kvs : list (string * A)) k : k ∉ kvs.*1 → map_of kvs !! k = None.
Proof.
  unfold map_of. assert ((∅ : gmap string A) !! k = None) as Hm by done. revert Hm. generalize (∅ : gmap string A).
  induction kvs as [|[k' x'] kvs IH]; intros m Hm Hk; [done|]. cbn [foldl]. cbn [fmap list_fmap fst] in Hk.
  apply not_elem_of_cons in Hk as [Hk1 Hk2]. apply IH; [|done]. cbn [fst snd]. by rewrite lookup_insert_ne.
Qed.

Lemma map_of_entries {A} (kvs : list (string * A)) (m : gmap string A) : NoDup kvs.*1 →
  (∀ k x, (k, x) ∈ kvs ↔ m !! k = Some x) → map_of kvs = m.
Proof.
  intros Hnd Hm. apply map_eq. intros k. destruct (m !! k) as [x|] eqn:E.
  - apply map_of_lookup; [done|]. by apply Hm.
  - apply map_of_absent. intros ([k' x] & -> & Hx)%list_elem_of_fmap. apply Hm in Hx. cbn [fst] in E. congruence.
Qed.

Section roundtrip.
Context `{!GoRange string unit} `{!GoRange string string} `{!GoRange string float64}.
Context (parse_float : list byte → option float64) (json_float : float64 → list byte) (json_error : list byte → string).

(** The keys of a map in the order in which they are written. *)
Definition sorted_keys {A} `{!GoRange string A} (m : gmap string A) : list string := sort_strings (go_range m).*1.

Lemma elem_of_sorted_keys {A} `{!GoRange string A} (m : gmap string A) k : k ∈ sorted_keys m ↔ is_Some (m !! k).
Proof.
  unfold sorted_keys. rewrite sort_strings_perm, list_elem_of_fmap. split.
  - intros ([k' x] & -> & H%elem_of_go_range). by exists x.
  - intros [x H]. exists (k, x). split; [done|]. by apply elem_of_go_range.
Qed.

Lemma NoDup_sorted_keys {A} `{!GoRange string A} (m : gmap string A) : NoDup (sorted_keys m).
Proof. unfold sorted_keys. rewrite sort_strings_perm. apply NoDup_go_range_keys. Qed.

(** The value that is read back. *)
Definition restored (v : GoValue) : GoValue :=
  match v with
  | VBytes b => VString (BytesToString b)
  | VString s => VString s
  | VList l => VList (clean_string <$> l)
  | VSet m => VSet (map_of ((λ k, (clean_string k, tt)) <$> sorted_keys m))
  | VZSet m => VZSet (map_of ((λ z, (clean_string (zm_Member z), zm_Score z)) <$> zset_entries m))
  | VHash m => VHash (map_of ((λ k, (clean_string k, clean_string (default "" (m !! k)))) <$> sorted_keys m))
  | VNil => VNil
  end.

(** Every string in the value is valid UTF-8. *)
Definition utf8_value (v : GoValue) : Prop :=
  match v with
  | VList l => Forall utf8_string l
  | VSet m => ∀ k, is_Some (m !! k) → utf8_string k
  | VZSet m => ∀ k, is_Some (m !! k) → utf8_string k
  | VHash m => ∀ k x, m !! k = Some x → utf8_string k ∧ utf8_string x
  | _ => True
  end.

(** The score is finite, is printed as a JSON number and is parsed back. *)
Definition score_ok (x : float64) : Prop :=
  finite x = true ∧ number_literal (json_float x) ∧ parse_float (json_float x) = Some x.

(** A value of the type of its entry, with finite scores. *)
Definition well_typed (t : ValueType) (v : GoValue) : Prop :=
  match t, v with
  | TypeString, (VBytes _ | VString _) => True
  | TypeList, (VList _ | VNil) => True
  | TypeSet, VSet _ => True
  | TypeZSet, VZSet m => ∀ k x, m !! k = Some x → score_ok x
  | TypeHash, (VHash _ | VNil) => True
  | _, _ => False
  end.

Lemma unmarshal_strings l : unmarshal_list json_error string_value (marshal_strings l) = inr (Some (clean_string <$> l)).
Proof.
  unfold unmarshal_list, marshal_strings.
  rewrite (parse_json_array 1 _ ((λ s, JString (clean (StringToBytes s))) <$> l)); [| | |lia].
  - assert (mapM string_value ((λ s, JString (clean (StringToBytes s))) <$> l) = Some (clean_string <$> l)) as ->; [|done].
    induction l as [|s l IH]; [done|]. cbn [fmap list_fmap mapM]. cbn [string_value mbind option_bind].
    change (list_fmap ?A ?B ?f l) with (f <$> l). by rewrite IH.
  - apply Forall2_fmap, Forall_Forall2_diag, Forall_true. intros s. apply parses_string.
  - apply Forall_fmap, Forall_true. intros s. apply opens_string.
Qed.

Lemma unmarshal_marshal_map m :
  unmarshal_map json_error (marshal_map m) =
  inr (Some ((λ k, (clean_string k, clean_string (default "" (m !! k)))) <$> sorted_keys m)).
Proof.
  unfold unmarshal_map, marshal_map. fold (sorted_keys m).
  rewrite (parse_json_object 1 _ ((λ k, JString (clean (StringToBytes (default "" (m !! k))))) <$> sorted_keys m)); [| |lia].
  - generalize (sorted_keys m) as ks. intros ks.
    assert (mapM (λ kv, v ← string_value kv.2; Some (BytesToString kv.1, v))
      (zip (clean <$> ((λ k, (StringToBytes k, encode_string (StringToBytes (default "" (m !! k))))) <$> ks).*1)
         ((λ k, JString (clean (StringToBytes (default "" (m !! k))))) <$> ks)) =
      Some ((λ k, (clean_string k, clean_string (default "" (m !! k)))) <$> ks)) as ->; [|done].
    induction ks as [|k ks IH]; [done|]. cbn [fmap list_fmap zip zip_with mapM fst snd]. cbn [string_value mbind option_bind].
    cbn [fmap list_fmap] in IH. by rewrite IH.
  - apply Forall2_fmap, Forall_Forall2_diag, Forall_true. intros k. apply parses_string.
Qed.

Lemma zmember_roundtrip z : score_ok (zm_Score z) →
  parses (N.to_nat 9999) 4 (marshal_zmember json_float z)
    (JObject [(StringToBytes "Score", JNumber (json_float (zm_Score z)));
              (StringToBytes "Member", JString (clean (StringToBytes (zm_Member z))))]) ∧
  zmember_value parse_float (JObject [(StringToBytes "Score", JNumber (json_float (zm_Score z)));
              (StringToBytes "Member", JString (clean (StringToBytes (zm_Member z))))]) =
  Some (mkZMember (zm_Score z) (clean_string (zm_Member z))).
Proof.
  intros (_ & Hl & Hp). split.
  - intros f rest Hf Hr. replace (N.to_nat 9999) with (S (N.to_nat 9998)) by lia. unfold marshal_zmember.
    rewrite (parse_object _ 1 _ [JNumber (json_float (zm_Score z)); JString (clean (StringToBytes (zm_Member z)))]); [done| |done].
    constructor; [by apply parses_number|]. constructor; [apply parses_string|constructor].
  - cbn [zmember_value foldl]. unfold zmember_field at 2. cbn [mbind option_bind fst snd].
    rewrite bool_decide_eq_true_2 by (vm_compute; reflexivity). rewrite Hp. cbn [mbind option_bind].
    unfold zmember_field. cbn [fst snd]. rewrite bool_decide_eq_false_2, bool_decide_eq_true_2 by (vm_compute; done). done.
Qed.

Lemma elem_of_zset_entries (m : gmap string float64) z : z ∈ zset_entries m ↔ m !! zm_Member z = Some (zm_Score z).
Proof.
  unfold zset_entries. rewrite merge_sort_Permutation, list_elem_of_fmap. split.
  - intros ([k x] & -> & H%elem_of_go_range). done.
  - intros H. exists (zm_Member z, zm_Score z). split; [by destruct z|]. by apply elem_of_go_range.
Qed.

Lemma unmarshal_marshal_zset m payload :
  (∀ k x, m !! k = Some x → score_ok x) → marshal_zset json_float json_error m = inr payload →
  unmarshal_list json_error (zmember_value parse_float) payload =
  inr (Some ((λ z, mkZMember (zm_Score z) (clean_string (zm_Member z))) <$> zset_entries m)).
Proof.
  intros Hm. unfold marshal_zset. destruct (forallb _ _); [|done]. intros [= <-].
  assert (Forall (λ z, score_ok (zm_Score z)) (zset_entries m)) as Hs.
  { apply Forall_forall. intros z Hz%elem_of_zset_entries. by apply (Hm (zm_Member z)). }
  clear Hm. revert Hs. generalize (zset_entries m) as zs. intros zs Hs. unfold unmarshal_list.
  rewrite (parse_json_array 4 _ ((λ z, JObject [(StringToBytes "Score", JNumber (json_float (zm_Score z)));
              (StringToBytes "Member", JString (clean (StringToBytes (zm_Member z))))]) <$> zs)); [| | |lia].
  - match goal with |- context [mapM ?g ?l] => assert (mapM g l =
      Some ((λ z, mkZMember (zm_Score z) (clean_string (zm_Member z))) <$> zs)) as ->; [|done] end.
    induction Hs as [|z zs Hz _ IH]; [done|]. destruct (zmember_roundtrip z Hz) as [_ Hv].
    cbn [fmap list_fmap mapM]. rewrite Hv. cbn [mbind option_bind]. cbn [fmap list_fmap] in IH. by rewrite IH.
  - apply Forall2_fmap, Forall_Forall2_diag. apply (Forall_impl _ _ _ Hs). intros z Hz. by apply zmember_roundtrip.
  - apply Forall_fmap, Forall_true. intros z. apply opens_object.
Qed.

Lemma marshal_zset_ok m : (∀ k x, m !! k = Some x → score_ok x) → ∃ payload, marshal_zset json_float json_error m = inr payload.
Proof.
  intros Hm. unfold marshal_zset.
  assert (forallb (λ z, finite (zm_Score z)) (zset_entries m) = true) as ->; [|by eexists].
  apply forallb_forall. intros z Hz%list_elem_of_In%elem_of_zset_entries. by apply (Hm (zm_Member z)).
Qed.

Lemma restored_valid v : utf8_value v → match v with VBytes _ => True | _ => restored v = v end.
Proof.
  destruct v as [s|b|l|m|m|m|]; cbn [utf8_value restored]; intros H; try done; f_equal.
  - induction H as [|s l Hs _ IH]; [done|]. cbn [fmap list_fmap]. by rewrite clean_string_valid, IH.
  - assert ((λ k, (clean_string k, tt)) <$> sorted_keys m = (λ k, (k, tt)) <$> sorted_keys m) as ->.
    { apply list_fmap_ext. intros i k Hk%list_elem_of_lookup_2. by rewrite clean_string_valid by by apply H, elem_of_sorted_keys. }
    apply map_of_entries; [rewrite <-list_fmap_compose, list_fmap_id; apply NoDup_sorted_keys|].
    intros k []. rewrite list_elem_of_fmap. split.
    + intros (k' & [= ->] & [[] Hx]%elem_of_sorted_keys). done.
    + intros Hx. exists k. split; [done|]. apply elem_of_sorted_keys. by rewrite Hx.
  - assert ((λ z, (clean_string (zm_Member z), zm_Score z)) <$> zset_entries m = (λ z, (zm_Member z, zm_Score z)) <$> zset_entries m) as ->.
    { apply list_fmap_ext. intros i z Hz%list_elem_of_lookup_2. rewrite clean_string_valid; [done|].
      apply elem_of_zset_entries in Hz. apply H. by rewrite Hz. }
    apply map_of_entries.
    + rewrite <-list_fmap_compose. unfold zset_entries. rewrite merge_sort_Permutation, <-list_fmap_compose.
      erewrite list_fmap_ext; [apply (NoDup_go_range_keys m)|]. by intros i [k x] _.
    + intros k x. rewrite list_elem_of_fmap. split.
      * intros (z & [= -> ->] & Hz%elem_of_zset_entries). done.
      * intros Hx. exists (mkZMember x k). split; [done|]. by apply elem_of_zset_entries.
  - assert ((λ k, (clean_string k, clean_string (default "" (m !! k)))) <$> sorted_keys m =
      (λ k, (k, default "" (m !! k))) <$> sorted_keys m) as ->.
    { apply list_fmap_ext. intros i k Hk%list_elem_of_lookup_2. apply elem_of_sorted_keys in Hk as [x Hx].
      destruct (H k x Hx). by rewrite Hx, !clean_string_valid. }
    apply map_of_entries; [rewrite <-list_fmap_compose, list_fmap_id; apply NoDup_sorted_keys|].
    intros k x. rewrite list_elem_of_fmap. split.
    + intros (k' & [= -> ->] & [y Hy]%elem_of_sorted_keys). by rewrite Hy.
    + intros Hx. exists k. rewrite Hx. split; [done|]. apply elem_of_sorted_keys. by rewrite Hx.
Qed.

Lemma serialized_decodes entry : well_typed (ee_Type entry) (ee_Value entry) →
  ∃ payload,
    SerializeEntryValue json_float json_error entry = inr (byte_of_Z (type_number (ee_Type entry)) :: payload) ∧
    DecodeSerializedValue parse_float json_error (ee_Type entry) payload = inr (restored (ee_Value entry)).
Proof.
  destruct entry as [key v t e]. cbn [ee_Type ee_Value]. intros Ht.
  enough (∃ payload, payload_of json_float json_error (mkEngineEntry key v t e) = inr payload ∧
    DecodeSerializedValue parse_float json_error t payload = inr (restored v)) as (payload & Hp & Hd).
  { exists payload. unfold SerializeEntryValue. rewrite Hp. done. }
  unfold payload_of. cbn [ee_Type ee_Value]. destruct t, v; try done.
  6: { destruct (marshal_zset_ok m Ht) as [payload Hp]. exists payload. split; [done|]. unfold DecodeSerializedValue.
       rewrite (unmarshal_marshal_zset m payload Ht Hp). cbn [from_option id]. by rewrite <-list_fmap_compose. }
  all: eexists; (split; [reflexivity|]); unfold DecodeSerializedValue; cbn [restored]; try done.
  - by rewrite BytesToString_StringToBytes.
  - by rewrite unmarshal_strings.
  - rewrite unmarshal_strings. cbn [from_option id]. by rewrite <-list_fmap_compose.
  - by rewrite unmarshal_marshal_map.
Qed.

(** C33: The value codec round-trips: a value of the type of its entry is serialized
    to a byte that names the type and a payload that decodes to the value
    [restored], in which every byte of a list element, set member or hash field
    that is not valid UTF-8 has become U+FFFD (so that different keys may become
    equal, and the last then wins). Strings come back byte for byte, and so does
    every value whose texts are valid UTF-8. *)
Theorem codec_roundtrip entry : well_typed (ee_Type entry) (ee_Value entry) →
  ∃ payload,
    SerializeEntryValue json_float json_error entry = inr (byte_of_Z (type_number (ee_Type entry)) :: payload) ∧
    DecodeSerializedValue parse_float json_error (ee_Type entry) payload = inr (restored (ee_Value entry)) ∧
    (utf8_value (ee_Value entry) →
     match ee_Value entry with VBytes _ => True | _ => restored (ee_Value entry) = ee_Value entry end).
Proof.
  intros Ht. destruct (serialized_decodes entry Ht) as (payload & Hp & Hd). exists payload.
  split_and!; [done|done|apply restored_valid].
Qed.
End roundtrip.

Section witnesses.
#[local] Instance ranges {K A} `{Countable K} : GoRange K A := listed_range.

Definition one : float64 := S754_finite false 4503599627370496 (-52).

Definition parse_one (lit : list byte) : option float64 := if bool_decide (lit = [x31]) then Some one else None.

(** A sorted set with one member, which ends in a byte that is not UTF-8. *)
Definition bad_member : string := BytesToString [x61; xff].

Lemma codec_roundtrip_witness :
  ∃ payload,
    SerializeEntryValue (λ _, [x31]) (λ _, "") (mkEngineEntry "k" (VZSet {[bad_member := one]}) TypeZSet None) = inr (x03 :: payload) ∧
    DecodeSerializedValue parse_one (λ _, "") TypeZSet payload = inr (VZSet {[BytesToString [x61; xef; xbf; xbd] := one]}).
Proof.
  destruct (codec_roundtrip parse_one (λ _, [x31]) (λ _, "") (mkEngineEntry "k" (VZSet {[bad_member := one]}) TypeZSet None))
    as (payload & H1 & H2 & _).
  - intros k x H. apply lookup_singleton_Some in H as [_ <-]. repeat split.
  - exists payload. split; [exact H1|]. etransitivity; [exact H2|]. vm_compute. reflexivity.
Defined.
End witnesses.
