(* ===== verification/StoreView.v ===== *)
(** * What a client sees of a store

    The view of a store at an instant is, for every key, the string it holds in
    the cache (if any) and the typed value it holds in the dictionary (if any),
    expired entries counting as absent. Looking a key up may delete an expired
    entry and updates statistics; neither changes the view. The lemmas here give
    the effect of the store's building blocks on the view; the theorems about
    the commands are proved from them. *)

From S2P Require Import Prelude Strconv Scan RingBuf TinyLfu Dict Cache Store Objects.
From stdpp Require Import options.

Record store_wf (s : Store) : Prop := {
  sw_cache : cache_fresh (st_cache s);
  sw_objects : dict_wf (st_objects s)
}.

Definition string_at (env : Env) (s : Store) (key : string) : option (list byte) :=
  (cell_read (env_now env) key (cache_cell (st_cache s) (cache_hash (st_cache s) key))).1.

Definition object_at (env : Env) (s : Store) (key : string) : option typedValue :=
  e_Value <$> spec_live (env_now env) (dict_map (st_objects s)) key.

(** [s'] is a well-formed store with the view of [s], except that the object of
    [key] is [o]. *)
Record object_updated (env : Env) (s s' : Store) (key : string) (o : option typedValue) : Prop := {
  ou_wf : store_wf s';
  ou_strings k : string_at env s' k = string_at env s k;
  ou_objects k : object_at env s' k = if decide (k = key) then o else object_at env s k
}.

Lemma object_updated_refl env s key o :
  store_wf s → o = object_at env s key → object_updated env s s key o.
Proof. intros Hwf ->. split; [done|done|]. intros k. by case_decide; subst. Qed.

Lemma object_updated_trans env s1 s2 s3 key o1 o2 :
  object_updated env s1 s2 key o1 → object_updated env s2 s3 key o2 → object_updated env s1 s3 key o2.
Proof.
  intros [_ S1 O1] [W S2 O2]. split; [done| |].
  - intros k. by rewrite S2, S1.
  - intros k. rewrite O2. case_decide as E; [done|]. rewrite O1. by rewrite decide_False.
Qed.

Section view.
Implicit Types (env : Env) (s : Store) (key k : string).

(** ** Lookups in the cache *)

Lemma cell_read_again now key c : (cell_read now key (cell_read now key c).2).1 = (cell_read now key c).1.
Proof.
  destruct c as [[n|k v e]|]; simpl; [done| |done].
  case_bool_decide; simpl; [|by rewrite bool_decide_eq_false_2].
  destruct (expired now e) eqn:E; simpl; [done|]. by rewrite bool_decide_eq_true_2, E by done.
Qed.

(** A lookup of [key] is not seen through another key of the same hash. *)
Lemma cell_read_other now key k c :
  (cell_read now k (cell_read now key c).2).1 = (cell_read now k c).1.
Proof.
  destruct (decide (k = key)) as [->|Hne]; [apply cell_read_again|].
  destruct c as [[n|k0 v e]|]; simpl; [done| |done].
  destruct (decide (k0 = key)) as [->|H0].
  - rewrite (bool_decide_eq_true_2 (key = key)) by done. simpl.
    destruct (expired now e) eqn:E; simpl; [|by rewrite E]. by rewrite bool_decide_eq_false_2 by congruence.
  - by rewrite (bool_decide_eq_false_2 (k0 = key)).
Qed.

Definition with_cache s c : Store :=
  mkStore c (st_objects s) (st_evictor s) (st_maxMemory s) (st_evictPolicy s) (st_stats s).
Definition with_objects s d : Store :=
  mkStore (st_cache s) d (st_evictor s) (st_maxMemory s) (st_evictPolicy s) (st_stats s).
Definition with_stats s st : Store :=
  mkStore (st_cache s) (st_objects s) (st_evictor s) (st_maxMemory s) (st_evictPolicy s) st.

Lemma cache_get_view env s key :
  store_wf s →
  ∃ c, ShardedCache_Get (env_now env) (st_cache s) key = Some (string_at env s key, c) ∧
    object_updated env s (with_cache s c) key (object_at env s key).
Proof.
  intros [Hf Hd]. set (h := cache_hash (st_cache s) key).
  destruct (cache_getShard_Some (st_cache s) h Hf) as (sh & Hs & Hsf).
  pose proof (Get_spec (env_now env) (st_cache s) key sh Hf Hs Hsf) as HG. fold h in HG.
  unfold string_at. fold h. destruct (cell_read _ _ _) as [v c'] eqn:Er.
  destruct HG as (c & HG & [Hf' Hseed Hcells]). exists c. split; [done|].
  assert (Hh : ∀ k, cache_hash c k = cache_hash (st_cache s) k) by (intros; unfold cache_hash; by rewrite Hseed).
  split; [by split| |].
  - intros k. unfold string_at. simpl. rewrite Hh, Hcells. case_decide as E; [|done].
    rewrite E. replace c' with (cell_read (env_now env) key (cache_cell (st_cache s) h)).2 by by rewrite Er.
    apply cell_read_other.
  - intros k. unfold object_at. simpl. by case_decide; subst.
Qed.

Lemma cache_getcopy_view env s key :
  store_wf s →
  ∃ c, ShardedCache_GetCopy (env_now env) (st_cache s) key = Some (string_at env s key, c) ∧
    object_updated env s (with_cache s c) key (object_at env s key).
Proof.
  intros Hwf. destruct (cache_get_view env s key Hwf) as (c & HG & Hu). exists c. split; [|done].
  rewrite <-HG. unfold ShardedCache_GetCopy, ShardedCache_Get, cache_get_with.
  destruct (cache_getShard _ _) as [sh|]; [|done]. cbn [mbind option_bind].
  destruct (zs_index sh !! _) as [raw|]; [|done]. by rewrite ReadAtCopy_ReadAt.
Qed.

Lemma cacheExists_view env s key :
  store_wf s →
  ∃ s', cacheExists env key s = Some (bool_decide (is_Some (string_at env s key)), s') ∧
    object_updated env s s' key (object_at env s key).
Proof.
  intros Hwf. destruct (cache_get_view env s key Hwf) as (c & HG & Hu).
  exists (with_cache s c). split; [|done]. unfold cacheExists, on_cache, ShardedCache_Exists.
  by rewrite HG.
Qed.

(** ** The dictionary *)

(** A change of the dictionary that replaces the visible entry of [key]. *)
Lemma with_objects_view env s d' key o :
  store_wf s → dict_wf d' →
  (∀ k, e_Value <$> spec_live (env_now env) (dict_map d') k =
        if decide (k = key) then o else object_at env s k) →
  object_updated env s (with_objects s d') key o.
Proof. intros [Hf Hd] Hd' Ho. split; [by split|done|]. intros k. apply Ho. Qed.

Lemma spec_live_insert (now : Z) (m : gmap string (Entry typedValue)) key e k :
  spec_live now (<[key := e]> m) k =
  if decide (k = key) then (if IsExpired now e then None else Some e) else spec_live now m k.
Proof.
  unfold spec_live. case_decide; subst.
  - by rewrite lookup_insert_eq.
  - by rewrite lookup_insert_ne.
Qed.

Lemma spec_live_delete (now : Z) (m : gmap string (Entry typedValue)) key k :
  spec_live now (delete key m) k = if decide (k = key) then None else spec_live now m k.
Proof.
  unfold spec_live. case_decide; subst.
  - by rewrite lookup_delete_eq.
  - by rewrite lookup_delete_ne.
Qed.

Lemma IsExpired_stats now e : IsExpired now (UpdateAccessStats now e) = IsExpired (V:=typedValue) now e.
Proof. done. Qed.

Lemma spec_live_not_expired now (m : gmap string (Entry typedValue)) key e :
  spec_live now m key = Some e → m !! key = Some e ∧ IsExpired now e = false.
Proof.
  unfold spec_live. destruct (m !! key) as [e'|]; simpl; [|done].
  destruct (IsExpired now e') eqn:E; [done|]. by intros [= <-].
Qed.

Lemma spec_live_read_value now (m : gmap string (Entry typedValue)) key k :
  e_Value <$> spec_live now (spec_read now m key) k = e_Value <$> spec_live now m k.
Proof.
  unfold spec_read. destruct (spec_live now m key) as [e|] eqn:E.
  - apply spec_live_not_expired in E as [Em Ee]. rewrite spec_live_insert, IsExpired_stats, Ee.
    case_decide; [|done]. subst. unfold spec_live. rewrite Em. simpl. by rewrite Ee.
  - rewrite spec_live_delete. case_decide; [|done]. subst. by rewrite E.
Qed.

Lemma getObjectValue_view env s key :
  store_wf s →
  ∃ s' o, getObjectValue env key s = Some (o, s') ∧ fst <$> o = object_at env s key ∧
    object_updated env s s' key (object_at env s key) ∧ st_cache s' = st_cache s ∧
    (∀ tv e, o = Some (tv, e) → IsExpired (env_now env) e = false ∧ e_Value e = tv ∧
       dict_map (st_objects s') !! key = Some e).
Proof.
  intros Hwf. unfold getObjectValue, on_objects.
  destruct (Dict_Get (env_now env) (st_objects s) key) as [o d'] eqn:E.
  apply Dict_Get_spec in E as (Hd' & Hm & ->); [|apply Hwf].
  eexists _, _. split; [done|]. split_and!.
  - unfold object_at. by destruct (spec_live (env_now env) (dict_map (st_objects s)) key).
  - apply with_objects_view; [done|done|]. intros k. rewrite Hm, spec_live_read_value.
    unfold object_at. by case_decide; subst.
  - done.
  - intros tv e He. simpl. rewrite Hm. unfold spec_read.
    destruct (spec_live (env_now env) (dict_map (st_objects s)) key) as [e0|] eqn:El; simplify_eq/=.
    apply spec_live_not_expired in El as [_ El]. by rewrite lookup_insert_eq.
Qed.

Lemma hasObjectKey_view env s key :
  store_wf s →
  ∃ s', hasObjectKey env key s = Some (bool_decide (is_Some (object_at env s key)), s') ∧
    object_updated env s s' key (object_at env s key).
Proof.
  intros Hwf. destruct (getObjectValue_view env s key Hwf) as (s' & o & HG & Ho & Hu & _).
  exists s'. split; [|done]. unfold hasObjectKey, sbind. rewrite HG. unfold sret. rewrite <-Ho.
  by destruct o.
Qed.

(** ** Writes to the dictionary *)

Lemma with_cache_slots env s c key o :
  object_updated env s (with_cache s c) key o → c = st_cache s →
  ∀ slots, object_updated env s (with_cache s (put_slots c slots)) key o.
Proof.
  intros [[Hf Hd] S O] Hc slots. split; [split; [|done]|done|done].
  destruct Hf. by split.
Qed.

Lemma slot_add_view env s key k :
  store_wf s → object_updated env s (with_cache s (slot_add (st_cache s) k)) key (object_at env s key).
Proof.
  intros Hwf. assert (object_updated env s (with_cache s (st_cache s)) key (object_at env s key)) as H.
  { replace (with_cache s (st_cache s)) with s by by destruct s. by apply object_updated_refl. }
  unfold slot_add. destruct (sc_slotFunc (st_cache s)); [|done]. by apply with_cache_slots.
Qed.

Lemma slot_remove_view env s key k :
  store_wf s → object_updated env s (with_cache s (slot_remove (st_cache s) k)) key (object_at env s key).
Proof.
  intros Hwf. assert (object_updated env s (with_cache s (st_cache s)) key (object_at env s key)) as H.
  { replace (with_cache s (st_cache s)) with s by by destruct s. by apply object_updated_refl. }
  unfold slot_remove, slot_remove_keys. destruct (sc_slotFunc (st_cache s)); [|done].
  destruct (sc_slotIndex (st_cache s) !! _); [|done]. case_bool_decide; by apply with_cache_slots.
Qed.

Lemma newEntry_never_expires now now' (v : typedValue) : IsExpired now' (newEntry now v 0) = false.
Proof. done. Qed.

Lemma newObject_view env s key tv :
  store_wf s → ∃ s', newObject env key tv s = Some (tt, s') ∧ object_updated env s s' key (Some tv).
Proof.
  intros Hwf. unfold newObject, sbind, on_objects, Store_trackKey, on_cache.
  eexists. split; [done|]. set (d' := Dict_Set _ _ _ _ _).
  destruct (putShard_insert (st_objects s) key (newEntry (env_now env) tv 0)) as [Hd' Hm]; [apply Hwf|].
  assert (object_updated env s (with_objects s d') key (Some tv)) as H1.
  { apply with_objects_view; [done|done|]. intros k. unfold d', Dict_Set. rewrite Hm, spec_live_insert.
    case_decide; [by rewrite newEntry_never_expires|done]. }
  eapply object_updated_trans; [exact H1|].
  replace (Some tv) with (object_at env (with_objects s d') key).
  - apply slot_add_view. apply H1.
  - rewrite (ou_objects _ _ _ _ _ H1). by rewrite decide_True.
Qed.

Lemma assignObject_view env s key tv :
  store_wf s → is_Some (object_at env s key) →
  ∃ s', assignObject key tv s = Some (tt, s') ∧ object_updated env s s' key (Some tv).
Proof.
  intros Hwf [tv0 Hs]. unfold assignObject, on_objects. eexists. split; [done|].
  unfold object_at in Hs. apply fmap_Some in Hs as (e & Hl & ->).
  apply spec_live_not_expired in Hl as [Hm He]. unfold Dict_assign.
  rewrite <-dict_map_lookup, Hm by apply Hwf.
  destruct (putShard_insert (st_objects s) key (SetValue e tv)) as [Hd' Hm']; [apply Hwf|].
  apply with_objects_view; [done|done|]. intros k. rewrite Hm', spec_live_insert.
  case_decide; [|done]. change (IsExpired (env_now env) (SetValue e tv)) with (IsExpired (env_now env) e).
  by rewrite He.
Qed.

Lemma deleteObjectKey_view env s key :
  store_wf s →
  ∃ s' b, deleteObjectKey key s = Some (b, s') ∧ object_updated env s s' key None ∧
    (is_Some (object_at env s key) → b = true).
Proof.
  intros Hwf. unfold deleteObjectKey, sbind, on_objects.
  destruct (Dict_Del (st_objects s) [key]) as [n d'] eqn:E.
  apply Dict_Del_spec in E as (Hd' & Hm & Hn); [|apply Hwf].
  assert (object_updated env s (with_objects s d') key None) as H1.
  { apply with_objects_view; [done|done|]. intros k.
    assert (dict_map d' = delete key (dict_map (st_objects s))) as ->.
    { rewrite Hm. apply map_eq. intros i. apply option_eq. intros x.
      rewrite map_lookup_filter_Some, lookup_delete_Some. simpl. rewrite not_elem_of_cons.
      split; [intros [? [? _]]; by split|]. intros [? ?]. split_and!; try done. apply not_elem_of_nil. }
    rewrite spec_live_delete. by case_decide. }
  destruct (Z.ltb_spec 0 n) as [Hpos|Hz].
  - unfold Store_untrackKey, on_cache, sret. eexists _, true. split; [done|]. split; [|done].
    eapply object_updated_trans; [exact H1|].
    replace (None : option typedValue) with (object_at env (with_objects s d') key).
    + apply slot_remove_view. apply H1.
    + rewrite (ou_objects _ _ _ _ _ H1). by rewrite decide_True.
  - unfold sret. eexists _, false. split; [done|]. split; [exact H1|]. intros [tv Ho]. exfalso.
    unfold object_at in Ho. apply fmap_Some in Ho as (e & Hl & _).
    apply spec_live_not_expired in Hl as [Hl _]. apply elem_of_dom_2 in Hl.
    assert (key ∈ filter (.∈ dom (dict_map (st_objects s))) (list_to_set [key] : gset string)) as Hin.
    { apply elem_of_filter. split; [done|]. set_solver. }
    assert (size (filter (.∈ dom (dict_map (st_objects s))) (list_to_set [key] : gset string)) ≠ 0%nat) as Hsz.
    { intros H0. apply size_empty_inv in H0. set_solver. }
    lia.
Qed.

Lemma removeObjectKey_view env s key :
  store_wf s → ∃ s', removeObjectKey key s = Some (tt, s') ∧ object_updated env s s' key None.
Proof.
  intros Hwf. destruct (deleteObjectKey_view env s key Hwf) as (s' & b & HD & Hu & _).
  exists s'. split; [|done]. unfold removeObjectKey, sbind. by rewrite HD.
Qed.

(** ** The typed lookups *)

Definition typed_result {A} (t : ValueType) (proj : GoValue → option A) (str : option (list byte))
    (o : option typedValue) : GoError + A :=
  match str, o with
  | Some _, _ => inl ErrWrongType
  | None, None => inl ErrKeyNotFound
  | None, Some tv =>
      if bool_decide (tv_Type tv = t) then
        match proj (tv_Value tv) with Some a => inr a | None => inl ErrWrongType end
      else inl ErrWrongType
  end.

Lemma getTyped_view {A} t (proj : GoValue → option A) env s key :
  store_wf s →
  ∃ s', getTyped t proj env key s =
      Some (typed_result t proj (string_at env s key) (object_at env s key), s') ∧
    object_updated env s s' key (object_at env s key).
Proof.
  intros Hwf. unfold getTyped, sbind. destruct (cacheExists_view env s key Hwf) as (s1 & -> & Hu1).
  destruct (string_at env s key) as [v|] eqn:Es.
  - rewrite bool_decide_eq_true_2 by eauto. by exists s1.
  - rewrite bool_decide_eq_false_2 by by intros [].
    destruct (getObjectValue_view env s1 key) as (s2 & o & -> & Ho & Hu2 & _ & _); [apply Hu1|].
    assert (object_at env s1 key = object_at env s key) as E.
    { rewrite (ou_objects _ _ _ _ _ Hu1). by rewrite decide_True. }
    rewrite E in Ho, Hu2. exists s2. split; [|by eapply object_updated_trans].
    unfold sret. rewrite <-Ho. by destruct o as [[tv e]|].
Qed.
End view.

(** ** A small store

    One shard with a ring of 128 bytes and one dictionary shard, for evaluating
    the commands. *)

Lemma empty_small_fresh : cache_fresh empty_small.
Proof.
  split; [done|done|done|]. apply Forall_singleton.
  split; simpl; [split; simpl; lia|lia|lia|..]; intros *; rewrite lookup_empty; done.
Qed.

Definition small_store (objects : Dict typedValue) : Store :=
  mkStore empty_small objects None 0 "noeviction" (mkStats 0 0 0 0 0 0 0).

Definition empty_dict : Dict typedValue := NewDict 1 (λ s, Z.of_nat (String.length s)).

(** A store with one object. *)
Definition one_object (key : string) (tv : typedValue) : Store :=
  small_store (Dict_Set 1 empty_dict key tv 0).

Lemma one_object_wf key tv : store_wf (one_object key tv).
Proof.
  split; [apply empty_small_fresh|]. apply (putShard_insert empty_dict key). apply NewDict_wf. lia.
Qed.
