(* ===== verification/ObjectSpec.v ===== *)
(** * The object commands implement lists, sets, hashes and sorted sets

    Each theorem relates the commands of [Objects] on a key to the mathematical
    structure the key holds: a list of strings, a finite set, a finite map. An
    absent key is the empty structure, and no command leaves an empty one behind.
    All other keys keep their view. *)

From S2P Require Import Prelude Strconv Scan RingBuf TinyLfu Dict Cache Store Objects StoreView.
From stdpp Require Import options.

(** Run one more step of a method with the lemma that describes it. *)
Lemma sbind_run {A B} (m : SM A) (k : A → SM B) s a s' : m s = Some (a, s') → sbind m k s = k a s'.
Proof. intros H. unfold sbind. by rewrite H. Qed.

Ltac sstep H := rewrite (sbind_run _ _ _ _ _ H); cbv beta iota.

Section spec.
Context `{!GoRange string unit} `{!GoRange string string} `{!GoRange string float64}.
Implicit Types (env : Env) (s : Store) (key : string) (l items : list string).

(** ** Typed lookups of a key that holds no string *)

Lemma getTyped_found {A} t (proj : GoValue → option A) env s key v a :
  store_wf s → string_at env s key = None → object_at env s key = Some (mkTyped t v) → proj v = Some a →
  ∃ s', getTyped t proj env key s = Some (inr a, s') ∧ object_updated env s s' key (Some (mkTyped t v)).
Proof.
  intros Hwf Hs Ho Hp. destruct (getTyped_view t proj env s key Hwf) as (s' & HG & Hu).
  exists s'. rewrite HG, Hs, Ho. simpl. rewrite bool_decide_eq_true_2, Hp by done.
  split; [done|]. by rewrite <-Ho.
Qed.

Lemma getTyped_missing {A} t (proj : GoValue → option A) env s key :
  store_wf s → string_at env s key = None → object_at env s key = None →
  ∃ s', getTyped t proj env key s = Some (inl ErrKeyNotFound, s') ∧ object_updated env s s' key None.
Proof.
  intros Hwf Hs Ho. destruct (getTyped_view t proj env s key Hwf) as (s' & HG & Hu).
  exists s'. rewrite HG, Hs, Ho. split; [done|]. by rewrite <-Ho.
Qed.

(** What remains true of the key after an update. *)
Lemma updated_here env s s' key o :
  object_updated env s s' key o →
  store_wf s' ∧ string_at env s' key = string_at env s key ∧ object_at env s' key = o.
Proof. intros [W S O]. split_and!; [done|done|]. rewrite O. by rewrite decide_True. Qed.

(** ** Lists *)

Definition list_object l : option typedValue :=
  match l with [] => None | _ => Some (mkTyped TypeList (VList l)) end.

(** The key holds the list [l]; the empty list is an absent key. *)
Record list_holds env s key l : Prop := {
  lh_wf : store_wf s;
  lh_string : string_at env s key = None;
  lh_object : object_at env s key = list_object l
}.

Inductive list_req :=
  | LPUSH items
  | RPUSH items
  | LPOP
  | RPOP
  | LRANGE (start stop : Z)
  | LLEN
  | LINDEX (index : Z)
  | LSET (index : Z) (value : string)
  | LTRIM (start stop : Z).

Inductive list_resp :=
  | LErr (e : GoError)
  | LInt (n : Z)
  | LStr (v : string)
  | LStrs l
  | LDone.

Definition list_answer {A} (f : A → list_resp) (r : GoError + A) : list_resp :=
  match r with inl e => LErr e | inr a => f a end.

Definition smap {A B} (f : A → B) (m : SM A) : SM B := let! a := m in sret (f a).

Definition list_step env key (r : list_req) : SM list_resp :=
  match r with
  | LPUSH items => smap (list_answer LInt) (Store_LPush env key (AStr <$> items))
  | RPUSH items => smap (list_answer LInt) (Store_RPush env key (AStr <$> items))
  | LPOP => smap (list_answer LStr) (Store_LPop env key)
  | RPOP => smap (list_answer LStr) (Store_RPop env key)
  | LRANGE a b => smap (list_answer LStrs) (Store_LRange env key a b)
  | LLEN => smap (list_answer LInt) (Store_LLen env key)
  | LINDEX i => smap (list_answer LStr) (Store_LIndex env key i)
  | LSET i v => smap (list_answer (λ _, LDone)) (Store_LSet env key i v)
  | LTRIM a b => smap (list_answer (λ _, LDone)) (Store_LTrim env key a b)
  end.

(** Positions count from the end when they are negative. *)
Definition from_end (n i : Z) : Z := if i <? 0 then n + i else i.

(** The elements from position [start] to position [stop], both included. *)
Definition list_range {A} (x : list A) (start stop : Z) : list A :=
  let n := Z.of_nat (length x) in
  let lo := Z.max 0 (from_end n start) in
  slice x (Z.to_nat lo) (Z.to_nat (from_end n stop + 1 - lo)).

Definition list_nth (x : list string) (i : Z) : option string :=
  let i := from_end (Z.of_nat (length x)) i in
  if i <? 0 then None else x !! Z.to_nat i.

Definition or_missing {A} (f : A → list_resp) (o : option A) : list_resp :=
  match o with Some a => f a | None => LErr ErrKeyNotFound end.

Definition list_spec (r : list_req) l : list_resp * list string :=
  match r with
  | LPUSH items => (LInt (Z.of_nat (length l + length items)), reverse items ++ l)
  | RPUSH items => (LInt (Z.of_nat (length l + length items)), l ++ items)
  | LPOP => (or_missing LStr (head l), tail l)
  | RPOP => (or_missing LStr (last l), take (Nat.pred (length l)) l)
  | LRANGE a b => (LStrs (list_range l a b), l)
  | LLEN => (LInt (Z.of_nat (length l)), l)
  | LINDEX i => (or_missing LStr (list_nth l i), l)
  | LSET i v =>
      (or_missing (λ _, LDone) (list_nth l i),
       match list_nth l i with
       | Some _ => <[Z.to_nat (from_end (Z.of_nat (length l)) i) := v]> l
       | None => l
       end)
  | LTRIM a b => (LDone, list_range l a b)
  end.

(** Requests a client can send: something to push, [int64] positions. *)
Definition list_req_ok (r : list_req) : Prop :=
  match r with
  | LPUSH items | RPUSH items => items ≠ []
  | LRANGE a b | LTRIM a b => is_i64 a ∧ is_i64 b
  | LINDEX i | LSET i _ => is_i64 i
  | _ => True
  end.

Lemma from_end_i64 n i : 0 ≤ n < 2 ^ 63 → is_i64 i → i < 0 → i64 (n + i) = n + i.
Proof. unfold is_i64. intros. apply i64_id. unfold is_i64. lia. Qed.

Lemma normalizeIndex_spec l i :
  Z.of_nat (length l) < 2 ^ 63 → is_i64 i →
  match normalizeIndex (Z.of_nat (length l)) i with
  | None => list_nth l i = None
  | Some idx => idx = from_end (Z.of_nat (length l)) i ∧ is_Some (l !! Z.to_nat idx) ∧
                list_nth l i = l !! Z.to_nat idx
  end.
Proof.
  intros Hl Hi. set (n := Z.of_nat (length l)) in *. unfold normalizeIndex, list_nth, from_end.
  fold n. destruct (Z.eqb_spec n 0) as [H0|H0].
  { assert (l = []) as -> by (destruct l; [done|unfold n in H0; simpl in H0; lia]).
    by destruct ((if i <? 0 then n + i else i) <? 0). }
  assert ((if i <? 0 then i64 (n + i) else i) = (if i <? 0 then n + i else i)) as ->.
  { destruct (Z.ltb_spec i 0); [|done]. apply from_end_i64; [lia|done|done]. }
  set (j := if i <? 0 then n + i else i). destruct (Z.ltb_spec j 0); simpl; [done|].
  destruct (Z.leb_spec n j).
  - apply lookup_ge_None. lia.
  - split_and!; [done| |done]. apply lookup_lt_is_Some. lia.
Qed.

Lemma normalizeRange_spec {A} (x : list A) a b :
  Z.of_nat (length x) < 2 ^ 63 → is_i64 a → is_i64 b →
  match normalizeRange (Z.of_nat (length x)) a b with
  | None => list_range x a b = []
  | Some (i, j) => sub_list x i j = Some (list_range x a b) ∧ list_range x a b ≠ []
  end.
Proof.
  intros Hl Ha Hb. unfold normalizeRange, list_range, from_end. set (n := Z.of_nat (length x)) in *.
  destruct (Z.eqb_spec n 0) as [H0|H0].
  { assert (x = []) as -> by (destruct x; [done|unfold n in H0; simpl in H0; lia]).
    unfold slice. by rewrite drop_nil, take_nil. }
  assert ((if a <? 0 then i64 (n + a) else a) = (if a <? 0 then n + a else a)) as ->.
  { destruct (Z.ltb_spec a 0); [|done]. apply from_end_i64; [lia|done|done]. }
  assert ((if b <? 0 then i64 (n + b) else b) = (if b <? 0 then n + b else b)) as ->.
  { destruct (Z.ltb_spec b 0); [|done]. apply from_end_i64; [lia|done|done]. }
  set (a' := if a <? 0 then n + a else a). set (b' := if b <? 0 then n + b else b).
  replace (if a' <? 0 then 0 else a') with (Z.max 0 a') by (zcase; lia).
  set (lo := Z.max 0 a'). set (hi := if n <=? b' then n - 1 else b').
  destruct ((hi <? lo) || (n <=? lo)) eqn:E.
  - apply orb_true_iff in E. unfold slice. destruct E as [E|E].
    + assert (Z.to_nat (b' + 1 - lo) = 0%nat ∨ n ≤ lo) as [->|Hn] by (unfold hi in E; destruct (Z.leb_spec n b'); lia); [done|].
      rewrite drop_ge by lia. apply take_nil.
    + rewrite drop_ge by lia. apply take_nil.
  - apply orb_false_iff in E as [E1 E2].
    assert (0 ≤ lo ∧ lo ≤ hi ∧ hi + 1 ≤ n ∧ hi ≤ b') as (H1 & H2 & H3 & H4) by (unfold hi in *; destruct (Z.leb_spec n b'); lia).
    unfold sub_list. fold n.
    rewrite (proj2 (Z.leb_le 0 lo)), (proj2 (Z.leb_le lo (hi + 1))), (proj2 (Z.leb_le (hi + 1) n)) by lia.
    assert (slice x (Z.to_nat lo) (Z.to_nat (b' + 1 - lo)) = slice x (Z.to_nat lo) (Z.to_nat (hi + 1 - lo))) as ->.
    { unfold hi. destruct (Z.leb_spec n b'); [|done]. unfold slice.
      rewrite !take_ge; [done|rewrite length_drop; lia..]. }
    split; [done|]. intros E. apply (f_equal length) in E. rewrite length_slice in E by lia. simpl in E. lia.
Qed.

Lemma list_lookup env s key l :
  list_holds env s key l →
  ∃ s', getTyped TypeList as_list env key s =
      Some (match l with [] => inl ErrKeyNotFound | _ => inr l end, s') ∧
    object_updated env s s' key (list_object l).
Proof.
  intros [Hwf Hs Ho]. destruct l as [|x l]; simpl in Ho.
  - by apply getTyped_missing.
  - by apply (getTyped_found TypeList as_list env s key (VList (x :: l))).
Qed.

Lemma putList_view env s key l o :
  store_wf s → object_at env s key = Some o → l ≠ [] →
  ∃ s', putList key l s = Some (tt, s') ∧ object_updated env s s' key (list_object l).
Proof.
  intros Hwf Ho Hl. destruct (assignObject_view env s key (mkTyped TypeList (VList l)) Hwf) as (s' & H1 & H2);
    [eauto|]. exists s'. split; [done|]. by destruct l.
Qed.

Lemma strings_of_AStr items : strings_of (AStr <$> items) = Some items.
Proof. apply mapM_Some_2, Forall2_fmap_l. by induction items; constructor. Qed.

Lemma foldl_push items l : foldl (λ l item, item :: l) l items = reverse items ++ l.
Proof.
  revert l. induction items as [|x items IH]; intros l; simpl; [done|].
  by rewrite IH, reverse_cons, <-app_assoc.
Qed.

Lemma pushList_view env s key l (left : bool) items :
  list_holds env s key l → items ≠ [] →
  let l' := if left then reverse items ++ l else l ++ items in
  ∃ s', pushList env key left (AStr <$> items) s =
      Some (inr (Z.of_nat (length l + length items)), s') ∧
    object_updated env s s' key (list_object l').
Proof.
  intros Hh Hi l'. assert (l' ≠ []) as Hl'.
  { unfold l'. destruct left; intros E; apply (f_equal length) in E;
      rewrite length_app, ?length_reverse in E; destruct items; simpl in *; (done || lia). }
  assert (Hlen : length l' = (length l + length items)%nat).
  { unfold l'. destruct left; rewrite length_app, ?length_reverse; lia. }
  destruct (list_lookup env s key l Hh) as (s1 & H1 & U1). unfold pushList.
  destruct (AStr <$> items) as [|v0 vals] eqn:Ev; [by destruct items|]. rewrite <-Ev.
  unfold getMutableListValue. sstep H1. rewrite strings_of_AStr.
  destruct (updated_here _ _ _ _ _ U1) as (W1 & S1 & O1).
  destruct l as [|x l]; cbv beta iota; rewrite foldl_push; fold l'.
  - destruct (newObject_view env s1 key (mkTyped TypeList (VList []))) as (s2 & H2 & U2); [done|].
    sstep H2. destruct (updated_here _ _ _ _ _ U2) as (W2 & S2 & O2).
    destruct (putList_view env s2 key l' _ W2 O2 Hl') as (s3 & H3 & U3). sstep H3.
    exists s3. unfold sret. rewrite Hlen. split; [done|]. exact (object_updated_trans _ _ _ _ _ _ _ U1 (object_updated_trans _ _ _ _ _ _ _ U2 U3)).
  - destruct (putList_view env s1 key l' _ W1 O1 Hl') as (s3 & H3 & U3). sstep H3.
    exists s3. unfold sret. rewrite Hlen. split; [done|]. by eapply object_updated_trans.
Qed.

Lemma exists_last_list (x : string) l : ∃ l0 y, x :: l = l0 ++ [y].
Proof. destruct (exists_last (l := x :: l)) as (l0 & y & E); [done|]. by exists l0, y. Qed.

Lemma popList_view env s key l (left : bool) :
  list_holds env s key l →
  let '(o, l') := if left then (head l, tail l) else (last l, take (Nat.pred (length l)) l) in
  ∃ s', popList env key left s = Some (match o with Some v => inr v | None => inl ErrKeyNotFound end, s') ∧
    object_updated env s s' key (list_object l').
Proof.
  intros Hh. destruct (list_lookup env s key l Hh) as (s1 & H1 & U1). unfold popList, getMutableListValue.
  sstep H1. destruct l as [|x l]; [by destruct left; exists s1|].
  destruct (updated_here _ _ _ _ _ U1) as (W1 & S1 & O1).
  assert (∀ value rest, ∃ s', (let! _ := match rest with [] => removeObjectKey key | _ => putList key rest end in
      sret (inr value : GoError + string)) s1 = Some (inr value, s') ∧
    object_updated env s s' key (list_object rest)) as Hrun.
  { intros value rest. destruct rest as [|y rest].
    - destruct (removeObjectKey_view env s1 key W1) as (s2 & H2 & U2). sstep H2. exists s2.
      split; [done|]. by eapply object_updated_trans.
    - destruct (putList_view env s1 key (y :: rest) _ W1 O1 ltac:(done)) as (s2 & H2 & U2). sstep H2. exists s2.
      split; [done|]. by eapply object_updated_trans. }
  destruct left; [apply Hrun|].
  destruct (exists_last_list x l) as (l0 & y & ->). rewrite last_snoc, last_last, removelast_last, length_app.
  simpl. rewrite Nat.add_comm. simpl. rewrite take_app_length. apply Hrun.
Qed.

Lemma smap_run {A B} (f : A → B) (m : SM A) s a s' : m s = Some (a, s') → smap f m s = Some (f a, s').
Proof. intros H. unfold smap. by rewrite (sbind_run _ _ _ _ _ H). Qed.

(** The commands that only read a list. *)
Lemma list_read_view env s key l r :
  list_holds env s key l → list_req_ok r → Z.of_nat (length l) < 2 ^ 63 →
  match r with LRANGE _ _ | LLEN | LINDEX _ => True | _ => False end →
  ∃ s', list_step env key r s = Some ((list_spec r l).1, s') ∧
    object_updated env s s' key (list_object l).
Proof.
  intros Hh Hok Hlen Hr. destruct (list_lookup env s key l Hh) as (s1 & H1 & U1).
  destruct r as [| | | |a b| |i| |]; try done; cbn [list_step list_spec fst]; exists s1; (split; [|done]).
  - destruct Hok as [Ha Hb]. pose proof (normalizeRange_spec l a b Hlen Ha Hb) as Hn.
    assert (Store_LRange env key a b s = Some (inr (list_range l a b), s1)) as H.
    { unfold Store_LRange, getListValue. sstep H1. destruct l as [|x l].
      - unfold list_range, slice. by rewrite drop_nil, take_nil.
      - destruct (normalizeRange _ a b) as [[i j]|]; [|by rewrite Hn].
        destruct Hn as [Hn _]. by rewrite Hn. }
    by rewrite (smap_run _ _ _ _ _ H).
  - assert (Store_LLen env key s = Some (inr (Z.of_nat (length l)), s1)) as H.
    { unfold Store_LLen, getListValue. sstep H1. by destruct l. }
    by rewrite (smap_run _ _ _ _ _ H).
  - pose proof (normalizeIndex_spec l i Hlen Hok) as Hn.
    assert (Store_LIndex env key i s =
      Some (match list_nth l i with Some v => inr v | None => inl ErrKeyNotFound end, s1)) as H.
    { unfold Store_LIndex, getListValue. sstep H1. destruct l as [|x l].
      - unfold list_nth, from_end. by destruct ((if i <? 0 then _ else _) <? 0).
      - destruct (normalizeIndex _ i) as [idx|]; [|by rewrite Hn].
        destruct Hn as (_ & [v Hv] & ->). by rewrite Hv. }
    rewrite (smap_run _ _ _ _ _ H). by destruct (list_nth l i).
Qed.

Lemma LSet_view env s key l i v :
  list_holds env s key l → is_i64 i → Z.of_nat (length l) < 2 ^ 63 →
  ∃ s', Store_LSet env key i v s =
      Some (match list_nth l i with Some _ => inr tt | None => inl ErrKeyNotFound end, s') ∧
    object_updated env s s' key (list_object (list_spec (LSET i v) l).2).
Proof.
  intros Hh Hi Hlen. destruct (list_lookup env s key l Hh) as (s1 & H1 & U1).
  pose proof (normalizeIndex_spec l i Hlen Hi) as Hn. unfold Store_LSet, getMutableListValue. sstep H1.
  destruct (updated_here _ _ _ _ _ U1) as (W1 & S1 & O1). cbn [list_spec snd].
  destruct l as [|x l].
  { assert (list_nth [] i = None) as ->
      by (unfold list_nth, from_end; by destruct ((if i <? 0 then _ else _) <? 0)).
    by exists s1. }
  destruct (normalizeIndex _ i) as [idx|]; [|rewrite Hn; by exists s1].
  destruct Hn as (-> & [w Hw] & Hl). rewrite Hw in Hl |- *. rewrite Hl. cbn [of_option].
  assert (<[Z.to_nat (from_end (Z.of_nat (length (x :: l))) i) := v]> (x :: l) ≠ []) as Hne.
  { intros E. apply (f_equal length) in E. by rewrite length_insert in E. }
  destruct (putList_view env s1 key _ _ W1 O1 Hne) as (s2 & H2 & U2).
  rewrite (sbind_run _ _ s1 w s1) by done. sstep H2. exists s2. split; [done|].
  by eapply object_updated_trans.
Qed.

Lemma LTrim_view env s key l a b :
  list_holds env s key l → is_i64 a → is_i64 b → Z.of_nat (length l) < 2 ^ 63 →
  ∃ s', Store_LTrim env key a b s = Some (inr tt, s') ∧
    object_updated env s s' key (list_object (list_range l a b)).
Proof.
  intros Hh Ha Hb Hlen. destruct (list_lookup env s key l Hh) as (s1 & H1 & U1).
  pose proof (normalizeRange_spec l a b Hlen Ha Hb) as Hn. unfold Store_LTrim, getMutableListValue. sstep H1.
  destruct (updated_here _ _ _ _ _ U1) as (W1 & S1 & O1). destruct l as [|x l].
  { exists s1. split; [done|]. unfold list_range, slice. by rewrite drop_nil, take_nil. }
  destruct (normalizeRange _ a b) as [[i j]|].
  - destruct Hn as [Hsub Hne]. rewrite Hsub. cbn [of_option].
    destruct (putList_view env s1 key _ _ W1 O1 Hne) as (s2 & H2 & U2).
    rewrite (sbind_run _ _ s1 _ s1) by done. sstep H2. exists s2. split; [done|].
    by eapply object_updated_trans.
  - rewrite Hn. destruct (deleteObjectKey_view env s1 key W1) as (s2 & bb & H2 & U2 & _). sstep H2.
    exists s2. split; [done|]. by eapply object_updated_trans.
Qed.

(** C3: The list commands implement a double-ended list: on a key that holds the
    list [l] (absent when empty), every command answers and leaves what the
    specification says, never an empty list object, and no other key changes. *)
Theorem list_commands_refine env s key l r :
  list_holds env s key l → list_req_ok r → Z.of_nat (length l) < 2 ^ 63 →
  let '(resp, l') := list_spec r l in
  ∃ s', list_step env key r s = Some (resp, s') ∧ list_holds env s' key l' ∧
    ∀ k, k ≠ key → string_at env s' k = string_at env s k ∧ object_at env s' k = object_at env s k.
Proof.
  intros Hh Hok Hlen.
  assert (∃ s', list_step env key r s = Some ((list_spec r l).1, s') ∧
    object_updated env s s' key (list_object (list_spec r l).2)) as (s' & H & U).
  { destruct r as [items|items| | |a b| |i|i v|a b]; try (by apply (list_read_view env s key l));
      cbn [list_step list_spec fst snd].
    - destruct (pushList_view env s key l true items Hh Hok) as (s' & H & U).
      exists s'. by rewrite (smap_run _ _ _ _ _ H).
    - destruct (pushList_view env s key l false items Hh Hok) as (s' & H & U).
      exists s'. by rewrite (smap_run _ _ _ _ _ H).
    - destruct (popList_view env s key l true Hh) as (s' & H & U).
      exists s'. rewrite (smap_run _ _ _ _ _ H). split; [by destruct (head l)|done].
    - destruct (popList_view env s key l false Hh) as (s' & H & U).
      exists s'. rewrite (smap_run _ _ _ _ _ H). split; [by destruct (last l)|done].
    - destruct (LSet_view env s key l i v Hh Hok Hlen) as (s' & H & U).
      exists s'. rewrite (smap_run _ _ _ _ _ H). split; [by destruct (list_nth l i)|done].
    - destruct Hok as [Ha Hb]. destruct (LTrim_view env s key l a b Hh Ha Hb Hlen) as (s' & H & U).
      exists s'. by rewrite (smap_run _ _ _ _ _ H). }
  destruct (list_spec r l) as [resp l']. exists s'. split; [done|].
  destruct (updated_here _ _ _ _ _ U) as (W & S & O). split.
  - split; [done|by rewrite S; apply Hh|done].
  - intros k Hk. split; [apply U|]. rewrite (ou_objects _ _ _ _ _ U). by rewrite decide_False.
Qed.

(** ** Finite maps under a key

    Sets, hashes and sorted sets are stored as Go maps; [mk] is the constructor
    of the value, [proj] its type assertion. *)

Section maps.
Context {A : Type} (t : ValueType) (mk : gmap string A → GoValue) (proj : GoValue → option (gmap string A)).
Context (proj_mk : ∀ m, proj (mk m) = Some m).

Definition map_object (m : gmap string A) : option typedValue :=
  if decide (m = ∅) then None else Some (mkTyped t (mk m)).

Record map_holds env s key (m : gmap string A) : Prop := {
  mh_wf : store_wf s;
  mh_string : string_at env s key = None;
  mh_object : object_at env s key = map_object m
}.

Lemma map_lookup env s key m :
  map_holds env s key m →
  ∃ s', getTyped t proj env key s =
      Some (if decide (m = ∅) then inl ErrKeyNotFound else inr m, s') ∧
    object_updated env s s' key (map_object m).
Proof using proj_mk.
  intros [Hwf Hs Ho]. unfold map_object in *. case_decide.
  - by apply getTyped_missing.
  - by apply (getTyped_found t proj env s key (mk m)).
Qed.

Lemma map_holds_updated env s s' key m m' :
  map_holds env s key m → object_updated env s s' key (map_object m') → map_holds env s' key m'.
Proof.
  intros [Hwf Hs Ho] U. destruct (updated_here _ _ _ _ _ U) as (W & S & O).
  split; [done|by rewrite S|done].
Qed.

(** [tv.Value = m] on a key that holds an object. *)
Lemma map_assign env s key m o :
  store_wf s → object_at env s key = Some o → m ≠ ∅ →
  ∃ s', assignObject key (mkTyped t (mk m)) s = Some (tt, s') ∧ object_updated env s s' key (map_object m).
Proof.
  intros Hwf Ho Hm. destruct (assignObject_view env s key (mkTyped t (mk m)) Hwf) as (s' & H1 & H2); [eauto|].
  exists s'. split; [done|]. unfold map_object. by rewrite decide_False.
Qed.

(** Create the map when it is missing, then store what the loop made of it. *)
Lemma map_create_assign {B} env s key m m' (res : B) :
  map_holds env s key m → m' ≠ ∅ →
  ∃ s', (if decide (m = ∅)
         then let! _ := newObject env key (mkTyped t (mk ∅)) in
              let! _ := assignObject key (mkTyped t (mk m')) in sret res
         else let! _ := assignObject key (mkTyped t (mk m')) in sret res) s = Some (res, s') ∧
    object_updated env s s' key (map_object m').
Proof.
  intros [W S O] Hm'. unfold map_object in O. case_decide.
  - destruct (newObject_view env s key (mkTyped t (mk ∅)) W) as (s2 & H2 & U2).
    destruct (updated_here _ _ _ _ _ U2) as (W2 & S2 & O2).
    destruct (map_assign env s2 key m' _ W2 O2 Hm') as (s3 & H3 & U3).
    exists s3. sstep H2. sstep H3. split; [done|]. by eapply object_updated_trans.
  - destruct (map_assign env s key m' _ W O Hm') as (s3 & H3 & U3).
    exists s3. sstep H3. done.
Qed.

(** Store what a deleting loop left, and drop the key when nothing is. *)
Lemma map_shrink {B} env s key m' o (res : B) :
  store_wf s → object_at env s key = Some o →
  ∃ s', (let! _ := assignObject key (mkTyped t (mk m')) in
         let! _ := if bool_decide (size m' = 0%nat) then removeObjectKey key else sret tt in
         sret res) s = Some (res, s') ∧
    object_updated env s s' key (map_object m').
Proof.
  intros Hwf Ho. destruct (assignObject_view env s key (mkTyped t (mk m')) Hwf) as (s1 & H1 & U1); [eauto|].
  sstep H1. destruct (updated_here _ _ _ _ _ U1) as (W1 & S1 & O1). unfold map_object.
  case_bool_decide as Hsz.
  - apply map_size_empty_iff in Hsz as ->. rewrite decide_True by done.
    destruct (removeObjectKey_view env s1 key W1) as (s2 & H2 & U2). sstep H2. exists s2.
    split; [done|]. by eapply object_updated_trans.
  - rewrite decide_False by (by rewrite <-map_size_empty_iff). exists s1. split; [done|]. exact U1.
Qed.
End maps.

Lemma delete_members_spec {A} fields (m : gmap string A) n :
  delete_members fields m n =
  (n + Z.of_nat (size (list_to_set fields ∩ dom m : gset string)), filter (λ kv, kv.1 ∉ fields) m).
Proof.
  revert m n. induction fields as [|f fields IH]; intros m n; cbn [delete_members list_to_set].
  { rewrite (left_absorb_L ∅ (∩)), size_empty, Z.add_0_r. f_equal. symmetry. apply map_filter_id.
    intros. simpl. apply not_elem_of_nil. }
  assert (∀ i, filter (λ kv : string * A, kv.1 ∉ f :: fields) m !! i =
               filter (λ kv : string * A, kv.1 ∉ fields) (delete f m) !! i) as Hf.
  { intros i. apply option_eq. intros x. rewrite !map_lookup_filter_Some, lookup_delete_Some.
    simpl. rewrite not_elem_of_cons. naive_solver. }
  apply map_eq in Hf. rewrite Hf. destruct (m !! f) as [x|] eqn:E.
  - rewrite IH. f_equal. assert (f ∈ dom m) as Hd by by apply elem_of_dom.
    replace (({[f]} ∪ list_to_set fields) ∩ dom m)
      with ({[f]} ∪ (list_to_set fields ∩ dom (delete f m)) : gset string)
      by (rewrite dom_delete_L; apply set_eq; intros y; destruct (decide (y = f)); set_solver).
    rewrite size_add by (rewrite dom_delete_L; set_solver). lia.
  - assert (f ∉ dom m) as Hd by by apply not_elem_of_dom.
    rewrite (delete_id m f E), IH.
    by replace (({[f]} ∪ list_to_set fields) ∩ dom m) with (list_to_set fields ∩ dom m : gset string) by set_solver.
Qed.

(** ** Sets *)

Inductive set_req :=
  | SADD items
  | SREM items
  | SMEMBERS
  | SISMEMBER (member : string)
  | SCARD.

Inductive set_resp := SErr (e : GoError) | SInt (n : Z) | SStrs l | SBool (b : bool).

Definition set_answer {B} (f : B → set_resp) (r : GoError + B) : set_resp :=
  match r with inl e => SErr e | inr a => f a end.

Definition set_step env key (r : set_req) : SM set_resp :=
  match r with
  | SADD items => smap (set_answer SInt) (Store_SAdd env key (AStr <$> items))
  | SREM items => smap (set_answer SInt) (Store_SRem env key (AStr <$> items))
  | SMEMBERS => smap (set_answer SStrs) (Store_SMembers env key)
  | SISMEMBER m => smap (set_answer SBool) (Store_SIsMember env key m)
  | SCARD => smap (set_answer SInt) (Store_SCard env key)
  end.

Definition set_spec (r : set_req) (X : gset string) : set_resp * gset string :=
  match r with
  | SADD items => (SInt (Z.of_nat (size (list_to_set items ∖ X))), X ∪ list_to_set items)
  | SREM items => (SInt (Z.of_nat (size (list_to_set items ∩ X))), X ∖ list_to_set items)
  | SMEMBERS => (SStrs (sort_strings (elements X)), X)
  | SISMEMBER m => (SBool (bool_decide (m ∈ X)), X)
  | SCARD => (SInt (Z.of_nat (size X)), X)
  end.

Definition set_map (X : gset string) : gmap string unit := gset_to_gmap tt X.

Definition set_holds env s key (X : gset string) : Prop := map_holds TypeSet VSet env s key (set_map X).

Lemma set_map_empty X : set_map X = ∅ ↔ X = ∅.
Proof.
  split; [|by intros ->]. intros H. apply (f_equal dom) in H. unfold set_map in H.
  rewrite dom_gset_to_gmap, dom_empty_L in H. done.
Qed.

Lemma set_map_lookup X x : set_map X !! x = if decide (x ∈ X) then Some tt else None.
Proof.
  unfold set_map. case_decide.
  - by apply lookup_gset_to_gmap_Some.
  - by apply lookup_gset_to_gmap_None.
Qed.

Lemma set_map_insert X x : <[x := tt]> (set_map X) = set_map (X ∪ {[x]}).
Proof. unfold set_map. rewrite (union_comm_L X). symmetry. apply gset_to_gmap_union_singleton. Qed.

Lemma sadd_loop_spec items X n :
  sadd_loop (AStr <$> items) (set_map X) n =
  (inr (n + Z.of_nat (size (list_to_set items ∖ X : gset string))), set_map (X ∪ list_to_set items)).
Proof.
  revert X n. induction items as [|x items IH]; intros X n; cbn [fmap list_fmap sadd_loop list_to_set].
  { rewrite (right_id_L ∅ (∪)). replace (∅ ∖ X) with (∅ : gset string) by set_solver.
    by rewrite size_empty, Z.add_0_r. }
  rewrite set_map_lookup. case_decide as Hx.
  - fold (AStr <$> items). rewrite IH.
    replace (({[x]} ∪ list_to_set items) ∖ X) with (list_to_set items ∖ X : gset string) by set_solver.
    by replace (X ∪ ({[x]} ∪ list_to_set items)) with (X ∪ list_to_set items : gset string) by set_solver.
  - rewrite set_map_insert. fold (AStr <$> items). rewrite IH.
    replace (({[x]} ∪ list_to_set items) ∖ X) with ({[x]} ∪ (list_to_set items ∖ (X ∪ {[x]})) : gset string)
      by (apply set_eq; intros y; destruct (decide (y = x)); set_solver).
    rewrite size_add by set_solver. f_equal; [f_equal; lia|].
    by replace (X ∪ ({[x]} ∪ list_to_set items)) with (X ∪ {[x]} ∪ list_to_set items : gset string) by set_solver.
Qed.

Lemma srem_loop_spec items X n :
  srem_loop (AStr <$> items) (set_map X) n =
  (inr (n + Z.of_nat (size (list_to_set items ∩ X : gset string))), set_map (X ∖ list_to_set items)).
Proof.
  revert X n. induction items as [|x items IH]; intros X n; cbn [fmap list_fmap srem_loop list_to_set].
  { rewrite (left_absorb_L ∅ (∩)), size_empty, Z.add_0_r, difference_empty_L. done. }
  fold (AStr <$> items). rewrite set_map_lookup. case_decide as Hx.
  - assert (delete x (set_map X) = set_map (X ∖ {[x]})) as ->.
    { apply map_eq. intros i. destruct (decide (i = x)) as [->|Hi].
      - rewrite lookup_delete_eq, set_map_lookup. rewrite decide_False by set_solver. done.
      - rewrite lookup_delete_ne, !set_map_lookup by done. repeat case_decide; set_solver. }
    rewrite IH.
    replace (({[x]} ∪ list_to_set items) ∩ X) with ({[x]} ∪ (list_to_set items ∩ (X ∖ {[x]})) : gset string)
      by (apply set_eq; intros y; destruct (decide (y = x)); set_solver).
    rewrite size_add by set_solver. f_equal; [f_equal; lia|].
    by replace (X ∖ ({[x]} ∪ list_to_set items)) with (X ∖ {[x]} ∖ list_to_set items : gset string) by set_solver.
  - rewrite IH.
    replace (({[x]} ∪ list_to_set items) ∩ X) with (list_to_set items ∩ X : gset string) by set_solver.
    by replace (X ∖ ({[x]} ∪ list_to_set items)) with (X ∖ list_to_set items : gset string) by set_solver.
Qed.

Lemma set_map_dom X : dom (set_map X) = X.
Proof. apply dom_gset_to_gmap. Qed.

Lemma size_set_map X : size (set_map X) = size X.
Proof. by rewrite <-size_dom, set_map_dom. Qed.

(** Ranging over the map and sorting gives the sorted members. *)
Lemma sort_range_keys {A} `{!GoRange string A} (m : gmap string A) :
  sort_strings (go_range m).*1 = sort_strings (elements (dom m)).
Proof.
  apply sort_strings_unique. apply NoDup_Permutation.
  - apply NoDup_go_range_keys.
  - apply NoDup_elements.
  - intros k. rewrite list_elem_of_fmap, elem_of_elements, elem_of_dom. split.
    + intros ([k' x] & -> & H%elem_of_go_range). by eexists.
    + intros [x H]. exists (k, x). split; [done|]. by apply elem_of_go_range.
Qed.

Definition set_req_ok (r : set_req) : Prop :=
  match r with SADD items => items ≠ [] | _ => True end.

Lemma SAdd_view env s key X items :
  set_holds env s key X → items ≠ [] →
  ∃ s', Store_SAdd env key (AStr <$> items) s =
      Some (inr (Z.of_nat (size (list_to_set items ∖ X : gset string))), s') ∧
    object_updated env s s' key (map_object TypeSet VSet (set_map (X ∪ list_to_set items))).
Proof.
  intros Hh Hi. assert (set_map (X ∪ list_to_set items) ≠ ∅) as Hne.
  { rewrite set_map_empty. destruct items; [done|]. set_solver. }
  destruct (map_lookup TypeSet VSet as_set ltac:(done) env s key _ Hh) as (s1 & H1 & U1).
  pose proof (map_holds_updated _ _ _ _ _ _ _ _ Hh U1) as Hh1.
  destruct (map_create_assign TypeSet VSet env s1 key (set_map X) _
    (inr (Z.of_nat (size (list_to_set items ∖ X : gset string))) : GoError + Z) Hh1 Hne) as (s2 & H2 & U2).
  exists s2. split; [|by eapply object_updated_trans].
  unfold Store_SAdd, getMutableSetValue. destruct (AStr <$> items) as [|v0 vals] eqn:Ev; [by destruct items|].
  sstep H1. rewrite <-Ev. rewrite <-H2.
  assert (sadd_loop (AStr <$> items) (set_map X) 0 = (inr (Z.of_nat (size (list_to_set items ∖ X : gset string))),
    set_map (X ∪ list_to_set items))) as Hl by apply sadd_loop_spec.
  case_decide as Hm; cbv beta iota; [|by rewrite Hl].
  rewrite Hm in Hl. by rewrite Hl.
Qed.

Lemma SRem_view env s key X items :
  set_holds env s key X →
  ∃ s', Store_SRem env key (AStr <$> items) s =
      Some (inr (Z.of_nat (size (list_to_set items ∩ X : gset string))), s') ∧
    object_updated env s s' key (map_object TypeSet VSet (set_map (X ∖ list_to_set items))).
Proof.
  intros Hh. destruct (map_lookup TypeSet VSet as_set ltac:(done) env s key _ Hh) as (s1 & H1 & U1).
  unfold Store_SRem, getMutableSetValue. sstep H1. destruct (updated_here _ _ _ _ _ U1) as (W1 & S1 & O1).
  unfold map_object in O1. case_decide as Hm.
  - apply set_map_empty in Hm as ->. exists s1. rewrite (right_absorb_L ∅ (∩)), size_empty. split; [done|].
    by replace (∅ ∖ list_to_set items) with (∅ : gset string) by set_solver.
  - rewrite srem_loop_spec. cbv beta iota.
    destruct (map_shrink TypeSet VSet env s1 key (set_map (X ∖ list_to_set items)) _
      (inr (0 + Z.of_nat (size (list_to_set items ∩ X : gset string))) : GoError + Z) W1 O1) as (s2 & H2 & U2).
    exists s2. split; [exact H2|]. by eapply object_updated_trans.
Qed.

Lemma set_read_view env s key X r :
  set_holds env s key X → match r with SMEMBERS | SISMEMBER _ | SCARD => True | _ => False end →
  ∃ s', set_step env key r s = Some ((set_spec r X).1, s') ∧
    object_updated env s s' key (map_object TypeSet VSet (set_map X)).
Proof.
  intros Hh Hr. destruct (map_lookup TypeSet VSet as_set ltac:(done) env s key _ Hh) as (s1 & H1 & U1).
  exists s1. split; [|done]. destruct r as [| | |m|]; try done; cbn [set_step set_spec fst]; unfold smap, sbind.
  - unfold Store_SMembers, getSetValue. sstep H1. unfold sret.
    case_decide as Hm; [by apply set_map_empty in Hm as ->|]. by rewrite sort_range_keys, set_map_dom.
  - unfold Store_SIsMember, getSetValue. sstep H1. unfold sret.
    case_decide as Hm; [by apply set_map_empty in Hm as ->|]. simpl. rewrite set_map_lookup.
    by destruct (decide (m ∈ X)) as [Hx|Hx]; [rewrite !bool_decide_eq_true_2 by eauto|
      rewrite !bool_decide_eq_false_2 by (done || by intros [])].
  - unfold Store_SCard, getSetValue. sstep H1. unfold sret.
    case_decide as Hm; [by apply set_map_empty in Hm as ->|]. by rewrite size_set_map.
Qed.

(** C5: SADD, SREM, SMEMBERS, SISMEMBER and SCARD implement a finite set of strings:
    [SADD] and [SREM] count what they really add and remove, [SMEMBERS] is sorted
    whatever the order of the Go map, and the key of an empty set disappears. SPOP,
    SRANDMEMBER and the commands on several sets are not implemented by the memory
    engine: they answer an error. *)
Theorem set_commands_refine env s key X r :
  set_holds env s key X → set_req_ok r →
  let '(resp, X') := set_spec r X in
  ∃ s', set_step env key r s = Some (resp, s') ∧ set_holds env s' key X' ∧
    ∀ k, k ≠ key → string_at env s' k = string_at env s k ∧ object_at env s' k = object_at env s k.
Proof.
  intros Hh Hok.
  assert (∃ s', set_step env key r s = Some ((set_spec r X).1, s') ∧
    object_updated env s s' key (map_object TypeSet VSet (set_map (set_spec r X).2))) as (s' & H & U).
  { destruct r as [items|items| |m|]; try (by apply (set_read_view env s key X)); cbn [set_step set_spec fst snd].
    - destruct (SAdd_view env s key X items Hh Hok) as (s' & H & U).
      exists s'. by rewrite (smap_run _ _ _ _ _ H).
    - destruct (SRem_view env s key X items Hh) as (s' & H & U).
      exists s'. by rewrite (smap_run _ _ _ _ _ H). }
  destruct (set_spec r X) as [resp X']. exists s'. split; [done|]. split.
  - by eapply map_holds_updated.
  - intros k Hk. split; [apply U|]. rewrite (ou_objects _ _ _ _ _ U). by rewrite decide_False.
Qed.

(** ** Hashes *)

Inductive hash_req :=
  | HSET (pairs : list (string * string))
  | HGET (field : string)
  | HDEL (fields : list string)
  | HEXISTS (field : string)
  | HGETALL
  | HKEYS
  | HVALS
  | HLEN.

Inductive hash_resp :=
  | HErr (e : GoError)
  | HInt (n : Z)
  | HStr (v : string)
  | HBool (b : bool)
  | HMap (m : gmap string string)
  | HStrs l.

Definition hash_answer {B} (f : B → hash_resp) (r : GoError + B) : hash_resp :=
  match r with inl e => HErr e | inr a => f a end.

(** The argument list of [HSet]. *)
Definition flat_pairs (pairs : list (string * string)) : list GoAny :=
  concat ((λ '(f, v), [AStr f; AStr v]) <$> pairs).

Definition hash_step env key (r : hash_req) : SM hash_resp :=
  match r with
  | HSET pairs => smap (hash_answer HInt) (Store_HSet env key (flat_pairs pairs))
  | HGET f => smap (hash_answer HStr) (Store_HGet env key f)
  | HDEL fields => smap (hash_answer HInt) (Store_HDel env key fields)
  | HEXISTS f => smap (hash_answer HBool) (Store_HExists env key f)
  | HGETALL => smap (hash_answer HMap) (Store_HGetAll env key)
  | HKEYS => smap (hash_answer HStrs) (Store_HKeys env key)
  | HVALS => smap (hash_answer HStrs) (Store_HVals env key)
  | HLEN => smap (hash_answer HInt) (Store_HLen env key)
  end.

(** Later pairs win. *)
Definition put_pairs {A} (pairs : list (string * A)) (m : gmap string A) : gmap string A :=
  list_to_map (reverse pairs) ∪ m.

Definition sorted_dom {A} (m : gmap string A) : list string := sort_strings (elements (dom m)).

Definition hash_spec (r : hash_req) (m : gmap string string) : hash_resp * gmap string string :=
  match r with
  | HSET pairs =>
      (HInt (Z.of_nat (size (list_to_set pairs.*1 ∖ dom m : gset string))), put_pairs pairs m)
  | HGET f => (match m !! f with Some v => HStr v | None => HErr ErrKeyNotFound end, m)
  | HDEL fields =>
      (HInt (Z.of_nat (size (list_to_set fields ∩ dom m : gset string))), filter (λ kv, kv.1 ∉ fields) m)
  | HEXISTS f => (HBool (bool_decide (f ∈ dom m)), m)
  | HGETALL => (HMap m, m)
  | HKEYS => (HStrs (sorted_dom m), m)
  | HVALS => (HStrs (omap (λ f, m !! f) (sorted_dom m)), m)
  | HLEN => (HInt (Z.of_nat (size m)), m)
  end.

Definition hash_holds env s key (m : gmap string string) : Prop := map_holds TypeHash VHash env s key m.

Lemma getHash_view env s key m :
  hash_holds env s key m →
  ∃ s', getHash env key s = Some (if decide (m = ∅) then HMissing else HFound m, s') ∧
    object_updated env s s' key (map_object TypeHash VHash m).
Proof.
  intros [Hwf Hs Ho]. destruct (cacheExists_view env s key Hwf) as (s1 & H1 & U1).
  destruct (updated_here _ _ _ _ _ U1) as (W1 & S1 & O1). rewrite Ho in O1, U1.
  destruct (getObjectValue_view env s1 key W1) as (s2 & o & H2 & Ho2 & U2 & _).
  rewrite O1 in Ho2, U2. exists s2. unfold getHash. sstep H1.
  rewrite Hs, bool_decide_eq_false_2 by by intros []. sstep H2.
  split; [|by eapply object_updated_trans].
  unfold map_object in Ho2. destruct (decide (m = ∅)) as [Hm|Hm]; destruct o as [[tv ent]|];
    simpl in Ho2; simplify_eq; first [by rewrite decide_True | by rewrite decide_False].
Qed.

Lemma put_pairs_cons {A} f (v : A) pairs m : put_pairs ((f, v) :: pairs) m = put_pairs pairs (<[f := v]> m).
Proof.
  unfold put_pairs. rewrite reverse_cons, list_to_map_app. rewrite <-(assoc_L (∪)). f_equal.
  simpl. by rewrite insert_empty, <-insert_union_singleton_l.
Qed.

Lemma put_pairs_nonempty {A} (pairs : list (string * A)) m : pairs ≠ [] → put_pairs pairs m ≠ ∅.
Proof.
  destruct pairs as [|[f v] pairs]; [done|]. intros _. rewrite put_pairs_cons. unfold put_pairs. intros E.
  apply (f_equal (lookup f)) in E. rewrite lookup_empty, lookup_union_None in E.
  destruct E as [_ E]. by rewrite lookup_insert_eq in E.
Qed.

(** One more field is new when the map does not have it. *)
Lemma count_new {A} f (fs : gset string) (m : gmap string A) n :
  (match m !! f with Some _ => n | None => n + 1 end) + Z.of_nat (size (fs ∖ ({[f]} ∪ dom m))) =
  n + Z.of_nat (size (({[f]} ∪ fs) ∖ dom m)).
Proof.
  destruct (m !! f) as [w|] eqn:E.
  - apply elem_of_dom_2 in E. by replace (({[f]} ∪ fs) ∖ dom m) with (fs ∖ ({[f]} ∪ dom m)) by set_solver.
  - apply not_elem_of_dom in E. replace (({[f]} ∪ fs) ∖ dom m) with ({[f]} ∪ (fs ∖ ({[f]} ∪ dom m)))
      by (apply set_eq; intros y; destruct (decide (y = f)); set_solver).
    rewrite size_add by set_solver. lia.
Qed.

Lemma hset_loop_spec pairs m n :
  hset_loop (flat_pairs pairs) m n =
  (inr (n + Z.of_nat (size (list_to_set pairs.*1 ∖ dom m : gset string))), put_pairs pairs m).
Proof.
  revert m n. induction pairs as [|[f v] pairs IH]; intros m n.
  { unfold put_pairs. simpl. rewrite (left_id_L (∅ : gmap string string) (∪)).
    replace (∅ ∖ dom m) with (∅ : gset string) by set_solver. by rewrite size_empty, Z.add_0_r. }
  cbn [flat_pairs fmap list_fmap concat app hset_loop]. fold (flat_pairs pairs).
  rewrite IH, put_pairs_cons, dom_insert_L. f_equal. f_equal. cbn [fmap list_fmap list_to_set fst].
  apply count_new.
Qed.

Definition hash_req_ok (r : hash_req) : Prop :=
  match r with HSET pairs => pairs ≠ [] | _ => True end.

Lemma length_flat_pairs pairs : Z.of_nat (length (flat_pairs pairs)) mod 2 = 0.
Proof.
  assert (length (flat_pairs pairs) = (2 * length pairs)%nat) as ->.
  { induction pairs as [|[f v] pairs IH]; [done|]. cbn [flat_pairs fmap list_fmap concat app length].
    fold (flat_pairs pairs). rewrite IH. lia. }
  rewrite Nat2Z.inj_mul. change (Z.of_nat 2) with 2. rewrite Z.mul_comm. apply Z.mod_mul. lia.
Qed.

Lemma HSet_view env s key m pairs :
  hash_holds env s key m → pairs ≠ [] →
  ∃ s', Store_HSet env key (flat_pairs pairs) s =
      Some (inr (Z.of_nat (size (list_to_set pairs.*1 ∖ dom m : gset string))), s') ∧
    object_updated env s s' key (map_object TypeHash VHash (put_pairs pairs m)).
Proof.
  intros Hh Hp. assert (put_pairs pairs m ≠ ∅) as Hne.
  { by apply put_pairs_nonempty. }
  destruct (getHash_view env s key m Hh) as (s1 & H1 & U1).
  pose proof (map_holds_updated _ _ _ _ _ _ _ _ Hh U1) as Hh1.
  destruct (map_create_assign TypeHash VHash env s1 key m _
    (inr (Z.of_nat (size (list_to_set pairs.*1 ∖ dom m : gset string))) : GoError + Z) Hh1 Hne) as (s2 & H2 & U2).
  exists s2. split; [|by eapply object_updated_trans]. unfold Store_HSet.
  rewrite bool_decide_eq_false_2 by (by destruct pairs as [|[] ?]).
  rewrite length_flat_pairs. cbn [Z.eqb negb orb]. sstep H1. rewrite <-H2.
  pose proof (hset_loop_spec pairs m 0) as Hl. repeat case_decide; try done; cbv beta iota; [|by rewrite Hl].
  subst m. by rewrite Hl.
Qed.

Lemma HDel_view env s key m fields :
  hash_holds env s key m →
  ∃ s', Store_HDel env key fields s =
      Some (inr (Z.of_nat (size (list_to_set fields ∩ dom m : gset string))), s') ∧
    object_updated env s s' key (map_object TypeHash VHash (filter (λ kv, kv.1 ∉ fields) m)).
Proof.
  intros Hh. destruct (getHash_view env s key m Hh) as (s1 & H1 & U1).
  unfold Store_HDel. sstep H1. destruct (updated_here _ _ _ _ _ U1) as (W1 & S1 & O1).
  unfold map_object in O1. repeat case_decide; try done.
  - subst m. exists s1. rewrite dom_empty_L, (right_absorb_L (∅ : gset string) (∩)), size_empty. split; [done|].
    by rewrite map_filter_empty.
  - rewrite delete_members_spec.
    destruct (map_shrink TypeHash VHash env s1 key (filter (λ kv, kv.1 ∉ fields) m) _
      (inr (0 + Z.of_nat (size (list_to_set fields ∩ dom m : gset string))) : GoError + Z) W1 O1) as (s2 & H2 & U2).
    exists s2. split; [exact H2|]. by eapply object_updated_trans.
Qed.

Lemma go_range_copy (m : gmap string string) : list_to_map (go_range m) = m.
Proof.
  rewrite (list_to_map_proper _ (map_to_list m)); [apply list_to_map_to_list| |apply go_range_perm].
  apply NoDup_go_range_keys.
Qed.

Lemma hash_vals (m : gmap string string) :
  (λ f, default "" (m !! f)) <$> sorted_dom m = omap (λ f, m !! f) (sorted_dom m).
Proof.
  assert (∀ l, (∀ f, f ∈ l → f ∈ dom m) → (λ f, default "" (m !! f)) <$> l = omap (λ f, m !! f) l) as H.
  { induction l as [|f l IH]; intros Hl; [done|]. cbn. destruct (m !! f) as [v|] eqn:E.
    - simpl. f_equal. apply IH. intros g Hg. apply Hl. by right.
    - apply not_elem_of_dom in E. destruct E. apply Hl. by left. }
  apply H. intros f. unfold sorted_dom. by rewrite sort_strings_perm, elem_of_elements.
Qed.

Lemma hash_read_view env s key m r :
  hash_holds env s key m → match r with HSET _ | HDEL _ => False | _ => True end →
  ∃ s', hash_step env key r s = Some ((hash_spec r m).1, s') ∧
    object_updated env s s' key (map_object TypeHash VHash m).
Proof.
  intros Hh Hr. destruct (getHash_view env s key m Hh) as (s1 & H1 & U1).
  exists s1. split; [|done].
  assert (Store_HGetAll env key s = Some (inr m, s1)) as HA.
  { unfold Store_HGetAll. sstep H1. unfold sret. case_decide; [by subst|]. by rewrite go_range_copy. }
  destruct r as [|f| |f| | | |]; try done; cbn [hash_step hash_spec fst]; unfold smap, sbind.
  - unfold Store_HGet. sstep H1. unfold sret. case_decide; [by subst|]. by destruct (m !! f).
  - unfold Store_HExists. sstep H1. unfold sret. case_decide; [by subst|]. simpl.
    do 3 f_equal. apply bool_decide_ext. by rewrite elem_of_dom.
  - by rewrite HA.
  - unfold Store_HKeys. sstep HA. unfold sret. by rewrite sort_range_keys.
  - unfold Store_HVals. sstep HA. unfold sret. rewrite sort_range_keys. simpl.
    fold (sorted_dom m). by rewrite hash_vals.
  - unfold Store_HLen. sstep H1. unfold sret. case_decide; [by subst|]. done.
Qed.

(** C4: The hash commands implement a finite map: [HSET] counts the new fields and
    the last value given for a field wins, [HDEL] counts what it removes and the
    key of an empty hash disappears, [HKEYS] and [HVALS] are in field order. *)
Theorem hash_commands_refine env s key m r :
  hash_holds env s key m → hash_req_ok r →
  let '(resp, m') := hash_spec r m in
  ∃ s', hash_step env key r s = Some (resp, s') ∧ hash_holds env s' key m' ∧
    ∀ k, k ≠ key → string_at env s' k = string_at env s k ∧ object_at env s' k = object_at env s k.
Proof.
  intros Hh Hok.
  assert (∃ s', hash_step env key r s = Some ((hash_spec r m).1, s') ∧
    object_updated env s s' key (map_object TypeHash VHash (hash_spec r m).2)) as (s' & H & U).
  { destruct r as [pairs|f|fields|f| | | |]; try (by apply (hash_read_view env s key m));
      cbn [hash_step hash_spec fst snd].
    - destruct (HSet_view env s key m pairs Hh Hok) as (s' & H & U).
      exists s'. by rewrite (smap_run _ _ _ _ _ H).
    - destruct (HDel_view env s key m fields Hh) as (s' & H & U).
      exists s'. by rewrite (smap_run _ _ _ _ _ H). }
  destruct (hash_spec r m) as [resp m']. exists s'. split; [done|]. split.
  - by eapply map_holds_updated.
  - intros k Hk. split; [apply U|]. rewrite (ou_objects _ _ _ _ _ U). by rewrite decide_False.
Qed.
End spec.

(** ** The commands on concrete stores *)

Section witnesses.
#[local] Instance ranges {A} : GoRange string A := listed_range.

Definition at_5 : Env := mkEnv 5 0.

Definition abc : Store := one_object "k" (mkTyped TypeList (VList ["a"; "b"; "c"])).

Lemma list_commands_refine_witness :
  list_spec (LRANGE (-2) 7) ["a"; "b"; "c"] = (LStrs ["b"; "c"], ["a"; "b"; "c"]) ∧
  ∃ s', list_step at_5 "k" (LRANGE (-2) 7) abc = Some (LStrs ["b"; "c"], s') ∧
    list_holds at_5 s' "k" ["a"; "b"; "c"].
Proof.
  split; [by vm_compute|].
  destruct (list_commands_refine at_5 abc "k" ["a"; "b"; "c"] (LRANGE (-2) 7)) as (s' & H1 & H2 & _).
  - split; [apply one_object_wf|by vm_compute|by vm_compute].
  - split; unfold is_i64; lia.
  - simpl. lia.
  - by exists s'.
Defined.

Lemma set_commands_refine_witness :
  ∃ s', set_step at_5 "k" (SADD ["b"; "c"; "c"]) (one_object "k" (mkTyped TypeSet (VSet {["b" := tt]}))) =
      Some (SInt 1, s') ∧ set_holds at_5 s' "k" {["b"; "c"]}.
Proof.
  destruct (set_commands_refine at_5 (one_object "k" (mkTyped TypeSet (VSet {["b" := tt]}))) "k" {["b"]}
    (SADD ["b"; "c"; "c"])) as (s' & H1 & H2 & _).
  - split; [apply one_object_wf|by vm_compute|by vm_compute].
  - done.
  - exists s'. split; [by vm_compute in H1 |- *|].
    by replace ({["b"; "c"]} : gset string) with ({["b"]} ∪ list_to_set ["b"; "c"; "c"] : gset string) by set_solver.
Defined.

Lemma hash_commands_refine_witness :
  ∃ s', hash_step at_5 "k" (HSET [("f", "1"); ("g", "2"); ("g", "3")])
          (one_object "k" (mkTyped TypeHash (VHash {["f" := "0"]}))) = Some (HInt 1, s') ∧
    hash_holds at_5 s' "k" {["f" := "1"; "g" := "3"]}.
Proof.
  destruct (hash_commands_refine at_5 (one_object "k" (mkTyped TypeHash (VHash {["f" := "0"]}))) "k"
    {["f" := "0"]} (HSET [("f", "1"); ("g", "2"); ("g", "3")])) as (s' & H1 & H2 & _).
  - split; [apply one_object_wf|by vm_compute|by vm_compute].
  - done.
  - exists s'. split; [by vm_compute in H1 |- *|].
    by replace {["f" := "1"; "g" := "3"]} with
      (put_pairs [("f", "1"); ("g", "2"); ("g", "3")] ({["f" := "0"]} : gmap string string)) by by vm_compute.
Defined.
End witnesses.
