(* ===== verification/ZSetSpec.v ===== *)
(** * The sorted-set commands

    A sorted set is a finite map from members to scores together with its
    ranking: the members in increasing order of score, ties in bytewise order of
    the member. The ranking exists and is unique when no score is a NaN, so the
    order in which the Go map is iterated and the sorting algorithm do not
    matter, and the commands are determined by the map. *)

From S2P Require Import Prelude Strconv Scan RingBuf TinyLfu Dict Cache Store Objects StoreView ObjectSpec.
From Stdlib Require Import Floats.SpecFloat.
From stdpp Require Import options.

(** ** The order of the scores *)

#[global] Instance float64_eq_dec : EqDecision float64.
Proof. unfold float64. solve_decision. Defined.

Definition not_nan (x : float64) : Prop := x ≠ S754_nan.

(** A position on the line of the floating-point numbers: the class of the
    number, its signed exponent, its signed mantissa. *)
Definition frank (x : float64) : Z * Z * Z :=
  match x with
  | S754_infinity true => (-2, 0, 0)
  | S754_finite true m e => (-1, - e, Z.neg m)
  | S754_zero _ | S754_nan => (0, 0, 0)
  | S754_finite false m e => (1, e, Z.pos m)
  | S754_infinity false => (2, 0, 0)
  end.

Definition rank_lt (x y : Z * Z * Z) : Prop :=
  let '(a, b, c) := x in let '(a', b', c') := y in
  a < a' ∨ (a = a' ∧ (b < b' ∨ (b = b' ∧ c < c'))).

Lemma SFcompare_rank x y :
  not_nan x → not_nan y →
  match SFcompare x y with
  | Some Lt => rank_lt (frank x) (frank y)
  | Some Eq => frank x = frank y
  | Some Gt => rank_lt (frank y) (frank x)
  | None => False
  end.
Proof.
  unfold not_nan, rank_lt. intros Hx Hy.
  destruct x as [sx|sx| |sx mx ex], y as [sy|sy| |sy my ey]; try done;
    destruct sx; try destruct sy; cbn; try lia; try done;
    change (Pos.compare_cont Eq mx my) with (Pos.compare mx my);
    (destruct (Z.compare_spec ex ey) as [->| |]; [destruct (Pos.compare_spec mx my) as [->| |]|..]; cbn; lia || done).
Qed.

Lemma SFltb_rank x y : not_nan x → not_nan y → SFltb x y = true ↔ rank_lt (frank x) (frank y).
Proof.
  intros Hx Hy. pose proof (SFcompare_rank x y Hx Hy) as H. unfold SFltb.
  destruct (SFcompare x y) as [[]|]; [|done| |done]; (split; [done|]); unfold rank_lt in *;
    destruct (frank x) as [[??]?], (frank y) as [[??]?]; [simplify_eq|]; lia.
Qed.

Lemma SFeqb_rank x y : not_nan x → not_nan y → SFeqb x y = true ↔ frank x = frank y.
Proof.
  intros Hx Hy. pose proof (SFcompare_rank x y Hx Hy) as H. unfold SFeqb.
  destruct (SFcompare x y) as [[]|]; [done| | |done]; (split; [done|]); unfold rank_lt in *;
    destruct (frank x) as [[??]?], (frank y) as [[??]?]; intros; simplify_eq; lia.
Qed.

Lemma rank_lt_trans x y z : rank_lt x y → rank_lt y z → rank_lt x z.
Proof. unfold rank_lt. destruct x as [[??]?], y as [[??]?], z as [[??]?]. lia. Qed.

Lemma rank_lt_irrefl x : ¬ rank_lt x x.
Proof. unfold rank_lt. destruct x as [[??]?]. lia. Qed.

(** ** The order of the members *)

(** The order [zless] decides, on scores that are not NaN. *)
Definition zbefore (a b : ZMember) : Prop :=
  rank_lt (frank (zm_Score a)) (frank (zm_Score b)) ∨
  (frank (zm_Score a) = frank (zm_Score b) ∧ ¬ String.le (zm_Member b) (zm_Member a)).

Definition zm_ok (a : ZMember) : Prop := not_nan (zm_Score a).

Lemma zless_spec a b : zm_ok a → zm_ok b → zless a b = true ↔ zbefore a b.
Proof.
  intros Ha Hb. unfold zless, zbefore. pose proof (SFeqb_rank _ _ Ha Hb) as He.
  pose proof (SFltb_rank _ _ Ha Hb) as Hl. destruct (SFeqb _ _) eqn:E.
  - assert (frank (zm_Score a) = frank (zm_Score b)) as -> by by apply He.
    split; [intros H; right; split; [done|]|intros [H|[_ H]]].
    + unfold String.le. destruct (String.leb _ _); [done|]. by intros [].
    + by apply rank_lt_irrefl in H.
    + unfold String.le in H. destruct (String.leb _ _); [|done]. by destruct H.
  - assert (frank (zm_Score a) ≠ frank (zm_Score b)) by (intros H; apply He in H; done).
    rewrite Hl. tauto.
Qed.

Lemma rank_total x y : rank_lt x y ∨ x = y ∨ rank_lt y x.
Proof.
  unfold rank_lt. destruct x as [[a b] c], y as [[a' b'] c'].
  destruct (Z.lt_trichotomy a a') as [?|[->|?]]; [lia| |lia].
  destruct (Z.lt_trichotomy b b') as [?|[->|?]]; [lia| |lia].
  destruct (Z.lt_trichotomy c c') as [?|[->|?]]; [lia| |lia]. auto.
Qed.

Lemma string_nle x y : ¬ String.le y x → String.le x y.
Proof. intros H. destruct (total String.le x y); [done|by destruct H]. Qed.

Lemma zbefore_trans a b c : zbefore a b → zbefore b c → zbefore a c.
Proof.
  intros [H1|[E1 H1]] [H2|[E2 H2]]; unfold zbefore.
  - left. by eapply rank_lt_trans.
  - left. by rewrite <-E2.
  - left. by rewrite E1.
  - right. split; [congruence|]. intros H. apply H2.
    transitivity (zm_Member a); [done|]. by apply string_nle.
Qed.

Lemma zbefore_asymm a b : zbefore a b → ¬ zbefore b a.
Proof.
  intros [H1|[E1 H1]] [H2|[E2 H2]].
  - by apply (rank_lt_irrefl (frank (zm_Score a))), (rank_lt_trans _ (frank (zm_Score b))).
  - rewrite E2 in H1. by apply rank_lt_irrefl in H1.
  - rewrite E1 in H2. by apply rank_lt_irrefl in H2.
  - apply H2. by apply string_nle.
Qed.

Lemma zbefore_total a b : zm_Member a ≠ zm_Member b → zbefore a b ∨ zbefore b a.
Proof.
  intros Hne. unfold zbefore. destruct (rank_total (frank (zm_Score a)) (frank (zm_Score b))) as [?|[E|?]];
    [auto| |auto]. rewrite E.
  destruct (decide (String.le (zm_Member b) (zm_Member a))) as [H|H]; [|auto].
  right. right. split; [done|]. intros H'. apply Hne. by apply (anti_symm String.le).
Qed.

(** Not after: an earlier score, or the same score and no later a member. *)
Lemma not_zbefore a b :
  ¬ zbefore b a →
  rank_lt (frank (zm_Score a)) (frank (zm_Score b)) ∨
  (frank (zm_Score a) = frank (zm_Score b) ∧ String.le (zm_Member a) (zm_Member b)).
Proof.
  intros H. unfold zbefore in H. destruct (rank_total (frank (zm_Score a)) (frank (zm_Score b))) as [?|[E|?]];
    [auto| |by destruct H; left]. right. split; [done|]. apply dec_stable. intros Hn. apply H. by right.
Qed.

Lemma not_zbefore_trans a b c :
  (rank_lt (frank (zm_Score a)) (frank (zm_Score b)) ∨
   (frank (zm_Score a) = frank (zm_Score b) ∧ String.le (zm_Member a) (zm_Member b))) →
  (rank_lt (frank (zm_Score b)) (frank (zm_Score c)) ∨
   (frank (zm_Score b) = frank (zm_Score c) ∧ String.le (zm_Member b) (zm_Member c))) →
  ¬ zbefore c a.
Proof.
  intros H1 H2 H3.
  assert (rank_lt (frank (zm_Score a)) (frank (zm_Score c)) ∨
    (frank (zm_Score a) = frank (zm_Score c) ∧ String.le (zm_Member a) (zm_Member c))) as H.
  { destruct H1 as [H1|[E1 H1]], H2 as [H2|[E2 H2]].
    - left. by eapply rank_lt_trans.
    - left. by rewrite <-E2.
    - left. by rewrite E1.
    - right. split; [congruence|]. by transitivity (zm_Member b). }
  destruct H as [H|[E H]], H3 as [H3|[E3 H3]]; [|rewrite E3 in H|rewrite E in H3|by apply H3];
    [|by apply rank_lt_irrefl in H|by apply rank_lt_irrefl in H3].
  by apply (rank_lt_irrefl (frank (zm_Score a))), (rank_lt_trans _ (frank (zm_Score c))).
Qed.

(** [sort.Slice] never meets two members that are both less than each other. *)
#[global] Instance zle_total : Total zle.
Proof.
  intros a b. unfold zle.
  destruct (zless b a) eqn:E1; [|auto]. destruct (zless a b) eqn:E2; [|auto]. exfalso.
  destruct (decide (zm_Score a = S754_nan)) as [Ha|Ha].
  { unfold zless in E2. rewrite Ha in E2. by destruct (zm_Score b). }
  destruct (decide (zm_Score b = S754_nan)) as [Hb|Hb].
  { unfold zless in E1. rewrite Hb in E1. by destruct (zm_Score a). }
  apply (zless_spec b a Hb Ha) in E1. apply (zless_spec a b Ha Hb) in E2. by apply (zbefore_asymm a b).
Qed.

(** ** The ranking *)

Definition zmembers (m : gmap string float64) : list ZMember :=
  (λ '(member, score), mkZMember score member) <$> map_to_list m.

Definition scores_ok (m : gmap string float64) : Prop := map_Forall (λ _ x, not_nan x) m.

Record ranking (m : gmap string float64) (entries : list ZMember) : Prop := {
  rk_sorted : StronglySorted zbefore entries;
  rk_perm : entries ≡ₚ zmembers m
}.

Lemma zmembers_names m : zm_Member <$> zmembers m = (map_to_list m).*1.
Proof. unfold zmembers. rewrite <-list_fmap_compose. apply list_fmap_ext. by intros ? []. Qed.

Lemma elem_of_zmembers m e : e ∈ zmembers m ↔ m !! zm_Member e = Some (zm_Score e).
Proof.
  unfold zmembers. rewrite list_elem_of_fmap. split.
  - intros ([k x] & -> & H). by apply elem_of_map_to_list in H.
  - intros H. exists (zm_Member e, zm_Score e). split; [by destruct e|by apply elem_of_map_to_list].
Qed.

(** Transitivity is only needed on the elements of the list. *)
Lemma Sorted_StronglySorted_on {A} (P : A → Prop) (R : relation A) l :
  (∀ x y z, P x → P y → P z → R x y → R y z → R x z) → Forall P l → Sorted R l → StronglySorted R l.
Proof.
  intros Htr. induction 1 as [|x l Hx Hl IH]; intros Hs; [constructor|].
  apply Sorted_inv in Hs as [Hs Hd]. specialize (IH Hs). constructor; [done|].
  destruct Hd as [|y l Hxy]; constructor; [done|].
  apply StronglySorted_inv in IH as [_ IH]. apply Forall_cons in Hl as [Hy Hl].
  rewrite Forall_forall in IH, Hl |- *. intros z Hz. by apply (Htr x y z); auto.
Qed.

Lemma StronglySorted_mono {A} (R R' : relation A) l :
  StronglySorted R l → (∀ i j x y, (i < j)%nat → l !! i = Some x → l !! j = Some y → R x y → R' x y) →
  StronglySorted R' l.
Proof.
  induction 1 as [|x l Hs IH Hall]; intros H; constructor.
  - apply IH. intros i j y z Hij Hi Hj. apply (H (S i) (S j)); [lia|done|done].
  - rewrite Forall_lookup in Hall |- *. intros j y Hj. apply (H 0%nat (S j)); [lia|done|done|by eapply Hall].
Qed.

Section zset.
Context `{!GoRange string unit} `{!GoRange string string} `{!GoRange string float64}.
Implicit Types (env : Env) (s : Store) (key : string) (m : gmap string float64).

Lemma zset_entries_perm m : zset_entries m ≡ₚ zmembers m.
Proof.
  unfold zset_entries, zmembers. rewrite merge_sort_Permutation. by rewrite go_range_perm.
Qed.

Lemma zset_entries_ranking m : scores_ok m → ranking m (zset_entries m).
Proof.
  intros Hok. pose proof (zset_entries_perm m) as Hp. split; [|done].
  assert (Forall zm_ok (zset_entries m)) as Hall.
  { rewrite Hp. apply Forall_forall. intros e He%elem_of_zmembers. by apply (Hok _ _ He). }
  assert (NoDup (zm_Member <$> zset_entries m)) as Hnd.
  { rewrite Hp, zmembers_names. apply NoDup_fst_map_to_list. }
  apply (StronglySorted_mono zle).
  - apply (Sorted_StronglySorted_on zm_ok); [|done|apply Sorted_merge_sort; apply _].
    intros x y z Hx Hy Hz Hxy Hyz. unfold zle in *. apply not_true_iff_false in Hxy, Hyz.
    apply not_true_iff_false. rewrite zless_spec in Hxy, Hyz |- * by done.
    intros Hzx. apply not_zbefore in Hxy, Hyz. by apply (not_zbefore_trans x y z Hxy Hyz).
  - intros i j x y Hij Hi Hj Hxy.
    assert (zm_Member x ≠ zm_Member y) as Hne.
    { intros E. assert (i = j); [|lia]. apply (NoDup_lookup _ i j (zm_Member x) Hnd);
        rewrite list_lookup_fmap; [by rewrite Hi|rewrite Hj; simpl; by rewrite E]. }
    assert (zm_ok x ∧ zm_ok y) as [Hx Hy].
    { rewrite Forall_lookup in Hall. split; by eapply Hall. }
    destruct (zbefore_total x y Hne) as [|Hb]; [done|].
    unfold zle in Hxy. apply (zless_spec y x Hy Hx) in Hb. congruence.
Qed.

Lemma ranking_unique m l1 l2 : ranking m l1 → ranking m l2 → l1 = l2.
Proof.
  intros [S1 P1] [S2 P2]. apply (StronglySorted_unique_strong zbefore); [|done|done|by rewrite P1, P2].
  intros x y _ _ H1 H2. by destruct (zbefore_asymm x y).
Qed.

Lemma zset_entries_unique m entries : scores_ok m → ranking m entries → zset_entries m = entries.
Proof. intros Hok Hr. by eapply ranking_unique, Hr; apply zset_entries_ranking. Qed.

(** ** The swap loop of [ZRevRange] *)

Lemma lookup_app_add {A} (a l : list A) i : (a ++ l) !! (length a + i)%nat = l !! i.
Proof. rewrite lookup_app_r by lia. f_equal. lia. Qed.

Lemma swap_ends {A} (a mid b : list A) x z :
  <[(length a + S (length mid))%nat := x]> (<[length a := z]> (a ++ x :: mid ++ z :: b)) =
  a ++ z :: mid ++ x :: b.
Proof.
  rewrite <-(Nat.add_0_r (length a)) at 2. rewrite !insert_app_r. cbn [insert list_insert]. do 2 f_equal.
  rewrite <-(Nat.add_0_r (length mid)). exact (insert_app_r mid (z :: b) 0 x).
Qed.

Lemma swap_loop_reverse {A} (mid a b : list A) fuel :
  (length mid ≤ fuel)%nat →
  swap_loop fuel (length a) (Nat.pred (length a + length mid)) (a ++ mid ++ b) = a ++ reverse mid ++ b.
Proof.
  revert mid a b. induction fuel as [|fuel IH]; intros mid a b Hf.
  { destruct mid; [done|simpl in Hf; lia]. }
  destruct mid as [|x mid]; cbn [swap_loop].
  { rewrite decide_False by (simpl; lia). done. }
  destruct mid as [|z mid _] using rev_ind.
  { rewrite decide_False by (simpl; lia). done. }
  rewrite decide_True by (simpl; rewrite length_app; simpl; lia).
  replace (Nat.pred (length a + length (x :: mid ++ [z]))) with (length a + S (length mid))%nat
    by (simpl; rewrite length_app; simpl; lia).
  replace (a ++ (x :: mid ++ [z]) ++ b) with (a ++ x :: mid ++ z :: b) by (simpl; by rewrite <-app_assoc).
  rewrite list_lookup_middle by done.
  rewrite lookup_app_add, (lookup_cons_ne_0 _ _ (S (length mid))) by lia. cbn [Nat.pred].
  rewrite list_lookup_middle by done.
  rewrite swap_ends. specialize (IH mid (a ++ [z]) ([x] ++ b)). rewrite length_app in IH.
  rewrite reverse_cons, reverse_app. simpl in *. rewrite <-!app_assoc in *. simpl in *.
  replace (Nat.pred (length a + 1 + length mid)) with (length a + length mid)%nat in IH by lia.
  replace (Nat.pred (length a + S (length mid))) with (length a + length mid)%nat by lia.
  rewrite Nat.add_1_r in IH. apply IH. rewrite length_app in Hf. simpl in Hf. lia.
Qed.

Lemma reverse_in_place_correct {A} (l : list A) : reverse_in_place l = reverse l.
Proof.
  unfold reverse_in_place. pose proof (swap_loop_reverse l [] [] (length l)) as H.
  simpl in H. rewrite !app_nil_r in H. by apply H.
Qed.

(** ** The commands *)

Inductive zset_req :=
  | ZADD (members : list ZMember)
  | ZREM (members : list string)
  | ZSCORE (member : string)
  | ZINCRBY (member : string) (delta : float64)
  | ZRANGE (start stop : Z)
  | ZRANGE_WITHSCORES (start stop : Z)
  | ZREVRANGE (start stop : Z)
  | ZRANK (member : string)
  | ZCARD
  | ZCOUNT (min max : float64).

Inductive zset_resp :=
  | ZErr (e : GoError)
  | ZInt (n : Z)
  | ZFloat (x : float64)
  | ZNames (l : list string)
  | ZMembers (l : list ZMember).

Definition zset_answer {B} (f : B → zset_resp) (r : GoError + B) : zset_resp :=
  match r with inl e => ZErr e | inr a => f a end.

Definition zset_step env key (r : zset_req) : SM zset_resp :=
  match r with
  | ZADD members => smap (zset_answer ZInt) (Store_ZAdd env key members)
  | ZREM members => smap (zset_answer ZInt) (Store_ZRem env key members)
  | ZSCORE member => smap (zset_answer ZFloat) (Store_ZScore env key member)
  | ZINCRBY member delta => smap (zset_answer ZFloat) (Store_ZIncrBy env key member delta)
  | ZRANGE a b => smap (zset_answer ZNames) (Store_ZRange env key a b)
  | ZRANGE_WITHSCORES a b => smap (zset_answer ZMembers) (Store_ZRangeWithScores env key a b)
  | ZREVRANGE a b => smap (zset_answer ZNames) (Store_ZRevRange env key a b)
  | ZRANK member => smap (zset_answer ZInt) (Store_ZRank env key member)
  | ZCARD => smap (zset_answer ZInt) (Store_ZCard env key)
  | ZCOUNT lo hi => smap (zset_answer ZInt) (Store_ZCount env key lo hi)
  end.

Definition or_absent {A} (f : A → zset_resp) (o : option A) : zset_resp :=
  match o with Some a => f a | None => ZErr ErrKeyNotFound end.

Definition zpairs (members : list ZMember) : list (string * float64) :=
  (λ e, (zm_Member e, zm_Score e)) <$> members.

(** The answer and the new map, from the map and its ranking. *)
Definition zset_spec (r : zset_req) m (entries : list ZMember) : zset_resp * gmap string float64 :=
  match r with
  | ZADD members =>
      (ZInt (Z.of_nat (size (list_to_set (zm_Member <$> members) ∖ dom m : gset string))),
       put_pairs (zpairs members) m)
  | ZREM members =>
      (ZInt (Z.of_nat (size (list_to_set members ∩ dom m : gset string))), filter (λ kv, kv.1 ∉ members) m)
  | ZSCORE member => (or_absent ZFloat (m !! member), m)
  | ZINCRBY member delta =>
      let score := float_add (default (S754_zero false) (m !! member)) delta in
      (ZFloat score, <[member := score]> m)
  | ZRANGE a b => (ZNames (zm_Member <$> list_range entries a b), m)
  | ZRANGE_WITHSCORES a b => (ZMembers (list_range entries a b), m)
  | ZREVRANGE a b => (ZNames (zm_Member <$> list_range (reverse entries) a b), m)
  | ZRANK member => (or_absent (λ '(i, _), ZInt (Z.of_nat i)) (list_find (λ e, zm_Member e = member) entries), m)
  | ZCARD => (ZInt (Z.of_nat (length entries)), m)
  | ZCOUNT lo hi =>
      (ZInt (Z.of_nat (length (filter (λ e, SFleb lo (zm_Score e) && SFleb (zm_Score e) hi = true) entries))), m)
  end.

Definition zset_req_ok (r : zset_req) : Prop :=
  match r with
  | ZADD members => members ≠ []
  | ZRANGE a b | ZRANGE_WITHSCORES a b | ZREVRANGE a b => is_i64 a ∧ is_i64 b
  | _ => True
  end.

Definition zset_holds env s key m : Prop := map_holds TypeZSet VZSet env s key m.

Lemma zset_lookup env s key m :
  zset_holds env s key m →
  ∃ s', getTyped TypeZSet as_zset env key s =
      Some (if decide (m = ∅) then inl ErrKeyNotFound else inr m, s') ∧
    object_updated env s s' key (map_object TypeZSet VZSet m).
Proof.
  intros Hh. destruct (map_lookup TypeZSet VZSet as_zset ltac:(done) env s key m Hh) as (s' & H & U).
  exists s'. split; [|done]. rewrite H. by repeat case_decide.
Qed.

Lemma zadd_loop_spec members m n :
  zadd_loop members m n =
  (n + Z.of_nat (size (list_to_set (zm_Member <$> members) ∖ dom m : gset string)), put_pairs (zpairs members) m).
Proof.
  revert m n. induction members as [|[x f] members IH]; intros m n.
  { unfold put_pairs. simpl. rewrite (left_id_L (∅ : gmap string float64) (∪)).
    replace (∅ ∖ dom m) with (∅ : gset string) by set_solver. by rewrite size_empty, Z.add_0_r. }
  cbn [zadd_loop]. rewrite IH. cbn [zm_Member zm_Score zpairs fmap list_fmap list_to_set]. fold (zpairs members).
  rewrite put_pairs_cons, dom_insert_L. f_equal. apply count_new.
Qed.

(** Create the sorted set when it is missing, then store the new map. *)
Lemma zset_store {B} env s key m m' (res : B) :
  zset_holds env s key m → m' ≠ ∅ →
  ∃ s', (if decide (m = ∅)
         then let! _ := newObject env key (mkTyped TypeZSet (VZSet ∅)) in
              let! _ := putZSet key m' in sret res
         else let! _ := putZSet key m' in sret res) s = Some (res, s') ∧
    object_updated env s s' key (map_object TypeZSet VZSet m').
Proof.
  intros Hh Hm. destruct (map_create_assign TypeZSet VZSet env s key m m' res Hh Hm) as (s' & H & U).
  exists s'. split; [|done]. rewrite <-H. by repeat case_decide.
Qed.

Lemma ZAdd_view env s key m members :
  zset_holds env s key m → members ≠ [] →
  ∃ s', Store_ZAdd env key members s =
      Some (inr (Z.of_nat (size (list_to_set (zm_Member <$> members) ∖ dom m : gset string))), s') ∧
    object_updated env s s' key (map_object TypeZSet VZSet (put_pairs (zpairs members) m)).
Proof.
  intros Hh Hm. destruct (zset_lookup env s key m Hh) as (s1 & H1 & U1).
  pose proof (map_holds_updated _ _ _ _ _ _ _ _ Hh U1) as Hh1.
  assert (put_pairs (zpairs members) m ≠ ∅) as Hne by (apply put_pairs_nonempty; by destruct members).
  destruct (zset_store env s1 key m _
    (inr (Z.of_nat (size (list_to_set (zm_Member <$> members) ∖ dom m : gset string))) : GoError + Z) Hh1 Hne)
    as (s2 & H2 & U2).
  exists s2. split; [|by eapply object_updated_trans]. unfold Store_ZAdd, getMutableZSetValue.
  destruct members as [|e members]; [done|]. sstep H1. rewrite <-H2.
  pose proof (zadd_loop_spec (e :: members) m 0) as Hl.
  case_decide as Hm0; cbv beta iota; [|by rewrite Hl]. subst m. by rewrite Hl.
Qed.

Lemma ZIncrBy_view env s key m member delta :
  zset_holds env s key m →
  let score := float_add (default (S754_zero false) (m !! member)) delta in
  ∃ s', Store_ZIncrBy env key member delta s = Some (inr score, s') ∧
    object_updated env s s' key (map_object TypeZSet VZSet (<[member := score]> m)).
Proof.
  intros Hh score. destruct (zset_lookup env s key m Hh) as (s1 & H1 & U1).
  pose proof (map_holds_updated _ _ _ _ _ _ _ _ Hh U1) as Hh1.
  destruct (zset_store env s1 key m (<[member := score]> m) (inr score : GoError + float64) Hh1
    (insert_non_empty _ _ _)) as (s2 & H2 & U2).
  exists s2. split; [|by eapply object_updated_trans]. unfold Store_ZIncrBy, getMutableZSetValue.
  sstep H1. rewrite <-H2. case_decide as Hm0; cbv beta iota; [|done]. by subst m.
Qed.

Lemma ZRem_view env s key m members :
  zset_holds env s key m →
  ∃ s', Store_ZRem env key members s =
      Some (inr (Z.of_nat (size (list_to_set members ∩ dom m : gset string))), s') ∧
    object_updated env s s' key (map_object TypeZSet VZSet (filter (λ kv, kv.1 ∉ members) m)).
Proof.
  intros Hh. destruct (zset_lookup env s key m Hh) as (s1 & H1 & U1).
  unfold Store_ZRem, getMutableZSetValue. sstep H1. destruct (updated_here _ _ _ _ _ U1) as (W1 & S1 & O1).
  unfold map_object in O1. repeat case_decide; try done.
  - subst m. exists s1. rewrite dom_empty_L, (right_absorb_L (∅ : gset string) (∩)), size_empty. split; [done|].
    by rewrite map_filter_empty.
  - rewrite delete_members_spec.
    destruct (map_shrink TypeZSet VZSet env s1 key (filter (λ kv, kv.1 ∉ members) m) _
      (inr (0 + Z.of_nat (size (list_to_set members ∩ dom m : gset string))) : GoError + Z) W1 O1) as (s2 & H2 & U2).
    exists s2. split; [exact H2|]. by eapply object_updated_trans.
Qed.

Lemma zrange_of_spec entries a b s :
  Z.of_nat (length entries) < 2 ^ 63 → is_i64 a → is_i64 b →
  zrange_of entries a b s = Some (inr (list_range entries a b), s).
Proof.
  intros Hl Ha Hb. unfold zrange_of. pose proof (normalizeRange_spec entries a b Hl Ha Hb) as Hn.
  destruct (normalizeRange _ a b) as [[i j]|]; [|by rewrite Hn].
  destruct Hn as [Hn _]. by rewrite Hn.
Qed.

Lemma zrank_loop_spec (entries : list ZMember) member i :
  zrank_loop i entries member =
  (λ '(j, _), i + Z.of_nat j) <$> list_find (λ e, zm_Member e = member) entries.
Proof.
  revert i. induction entries as [|e entries IH]; intros i; [done|]. cbn [zrank_loop list_find].
  case_bool_decide as E; case_decide; try done; simpl; [by rewrite Z.add_0_r|].
  rewrite IH. destruct (list_find _ entries) as [[j x]|]; simpl; [|done]. f_equal. lia.
Qed.

Lemma list_range_nil {A} a b : list_range ([] : list A) a b = [].
Proof. unfold list_range, slice. by rewrite drop_nil, take_nil. Qed.

Lemma list_range_all {A} (l : list A) : list_range l 0 (-1) = l.
Proof.
  unfold list_range, from_end, slice. simpl.
  replace (Z.to_nat _) with (length l) by lia. rewrite drop_0. by apply take_ge.
Qed.

Lemma ranking_empty entries : ranking ∅ entries → entries = [].
Proof. intros [_ H]. unfold zmembers in H. rewrite map_to_list_empty in H. by apply Permutation_nil_r. Qed.

(** Counting over the Go map and over the ranking. *)
Lemma zcount_ranking m entries (P : float64 → Prop) `{!∀ x, Decision (P x)} :
  ranking m entries →
  length (filter (λ kv, P kv.2) (go_range m)) = length (filter (λ e, P (zm_Score e)) entries).
Proof.
  intros [_ Hp]. rewrite Hp. unfold zmembers. rewrite go_range_perm.
  induction (map_to_list m) as [|[k x] l IH]; [done|]. cbn [fmap list_fmap].
  rewrite !filter_cons. simpl. case_decide; simpl; by rewrite IH.
Qed.

Lemma ranking_size m entries : ranking m entries → length entries = size m.
Proof. intros [_ ->]. unfold zmembers. rewrite length_fmap. apply length_map_to_list. Qed.

(** The sorted view of a key, as [sortedZMembers] and the lookups return it. *)
Lemma sorted_view env s key m entries :
  zset_holds env s key m → scores_ok m → ranking m entries →
  ∃ s1, getTyped TypeZSet as_zset env key s =
      Some (if decide (m = ∅) then inl ErrKeyNotFound else inr m, s1) ∧
    sortedZMembers env key s =
      Some (if decide (m = ∅) then inl ErrKeyNotFound else inr entries, s1) ∧
    object_updated env s s1 key (map_object TypeZSet VZSet m).
Proof.
  intros Hh Hok Hr. destruct (zset_lookup env s key m Hh) as (s1 & H1 & U1). exists s1.
  split_and!; [done| |done]. unfold sortedZMembers, getZSetValue. sstep H1. unfold sret.
  by case_decide; [|rewrite (zset_entries_unique m entries)].
Qed.

Lemma zset_read_view env s key m entries r :
  zset_holds env s key m → scores_ok m → ranking m entries → zset_req_ok r →
  Z.of_nat (length entries) < 2 ^ 63 →
  match r with ZADD _ | ZREM _ | ZINCRBY _ _ => False | _ => True end →
  ∃ s', zset_step env key r s = Some ((zset_spec r m entries).1, s') ∧
    object_updated env s s' key (map_object TypeZSet VZSet m).
Proof.
  intros Hh Hok Hr Hreq Hlen Hrd. destruct (sorted_view env s key m entries Hh Hok Hr) as (s1 & H1 & H2 & U1).
  exists s1. split; [|done].
  assert (∀ a b, is_i64 a → is_i64 b →
    Store_ZRangeWithScores env key a b s = Some (inr (list_range entries a b), s1)) as HW.
  { intros a b Ha Hb. unfold Store_ZRangeWithScores. sstep H2. case_decide as Hm; [|by apply zrange_of_spec].
    subst m. by rewrite (ranking_empty _ Hr), list_range_nil. }
  assert (m = ∅ → entries = []) as He by (intros ->; by apply ranking_empty).
  destruct r as [| |x| |a b|a b|a b|x| |lo hi]; try done; cbn [zset_step zset_spec fst]; unfold smap, sbind.
  - unfold Store_ZScore, getZSetValue. sstep H1. unfold sret. case_decide; [by subst|]. by destruct (m !! x).
  - destruct Hreq. unfold Store_ZRange. sstep H2. case_decide as Hm; [by rewrite (He Hm), list_range_nil|].
    unfold sbind. by rewrite zrange_of_spec.
  - destruct Hreq. by rewrite HW.
  - destruct Hreq. unfold Store_ZRevRange, sbind. rewrite HW by (unfold is_i64; lia).
    rewrite list_range_all, reverse_in_place_correct, zrange_of_spec by (rewrite ?length_reverse; done). done.
  - unfold Store_ZRank. sstep H2. unfold sret. case_decide as Hm; [by rewrite (He Hm)|].
    rewrite zrank_loop_spec. by destruct (list_find _ _) as [[]|].
  - unfold Store_ZCard, getZSetValue. sstep H1. unfold sret. case_decide as Hm; [by rewrite (He Hm)|].
    by rewrite (ranking_size m).
  - unfold Store_ZCount, getZSetValue. sstep H1. unfold sret. case_decide as Hm; [by rewrite (He Hm)|].
    cbn [zset_answer]. do 4 f_equal. exact (zcount_ranking m entries (λ x, SFleb lo x && SFleb x hi = true) Hr).
Qed.

(** A sorted set whose scores are numbers has exactly one ranking, and the
    list [sortedZMembers] builds from the Go map is it, whatever the order in
    which the map was iterated. *)
Theorem zset_entries_is_the_ranking m :
  scores_ok m →
  ranking m (zset_entries m) ∧ ∀ entries, ranking m entries → zset_entries m = entries.
Proof. intros Hok. split; [by apply zset_entries_ranking|]. intros. by apply zset_entries_unique. Qed.

(** C6: The sorted-set commands implement a finite map from members to scores with
    its ranking: positions, ranges (forwards and backwards) and ranks are those
    of the ranking, counts are exact, and no other key changes. *)
Theorem zset_commands_refine env s key m entries r :
  zset_holds env s key m → scores_ok m → ranking m entries → zset_req_ok r →
  Z.of_nat (length entries) < 2 ^ 63 →
  let '(resp, m') := zset_spec r m entries in
  ∃ s', zset_step env key r s = Some (resp, s') ∧ zset_holds env s' key m' ∧
    ∀ k, k ≠ key → string_at env s' k = string_at env s k ∧ object_at env s' k = object_at env s k.
Proof.
  intros Hh Hok Hr Hreq Hlen.
  assert (∃ s', zset_step env key r s = Some ((zset_spec r m entries).1, s') ∧
    object_updated env s s' key (map_object TypeZSet VZSet (zset_spec r m entries).2)) as (s' & H & U).
  { destruct r; try (by apply (zset_read_view env s key m entries)); cbn [zset_step zset_spec fst snd].
    - destruct (ZAdd_view env s key m members Hh Hreq) as (s' & H & U).
      exists s'. by rewrite (smap_run _ _ _ _ _ H).
    - destruct (ZRem_view env s key m members Hh) as (s' & H & U).
      exists s'. by rewrite (smap_run _ _ _ _ _ H).
    - destruct (ZIncrBy_view env s key m member delta Hh) as (s' & H & U).
      exists s'. by rewrite (smap_run _ _ _ _ _ H). }
  destruct (zset_spec r m entries) as [resp m']. exists s'. split; [done|]. split.
  - by eapply map_holds_updated.
  - intros k Hk. split; [apply U|]. rewrite (ou_objects _ _ _ _ _ U). by rewrite decide_False.
Qed.
End zset.

(** ** The commands on a concrete sorted set *)

Section witnesses.
#[local] Instance ranges {A} : GoRange string A := listed_range.

(** 1.5, 0 and -2. *)
Definition scores : gmap string float64 :=
  {["x" := S754_finite false 6755399441055744 (-52); "y" := S754_zero true; "w" := S754_zero false;
    "z" := S754_finite true 4503599627370496 (-51)]}.

Lemma scores_are_ok : scores_ok scores.
Proof.
  unfold scores_ok, scores. repeat apply map_Forall_insert_2; try done.
Qed.

Lemma zset_entries_is_the_ranking_witness :
  ranking scores (zset_entries scores) ∧ zm_Member <$> zset_entries scores = ["z"; "w"; "y"; "x"].
Proof.
  split; [|by vm_compute]. destruct (zset_entries_is_the_ranking scores scores_are_ok) as [H _]. exact H.
Defined.

Lemma zset_commands_refine_witness :
  ∃ s', zset_step at_5 "k" (ZREVRANGE 0 1) (one_object "k" (mkTyped TypeZSet (VZSet scores))) =
      Some (ZNames ["x"; "y"], s') ∧ zset_holds at_5 s' "k" scores.
Proof.
  destruct (zset_commands_refine at_5 (one_object "k" (mkTyped TypeZSet (VZSet scores))) "k" scores
    (zset_entries scores) (ZREVRANGE 0 1)) as (s' & H1 & H2 & _).
  - split; [apply one_object_wf|by vm_compute|by vm_compute].
  - apply scores_are_ok.
  - apply zset_entries_ranking, scores_are_ok.
  - split; unfold is_i64; lia.
  - by vm_compute.
  - exists s'. split; [by vm_compute in H1 |- *|done].
Defined.
End witnesses.
