(* ===== verification/StringSpec.v ===== *)
(** * The string and key commands

    Under every key a store holds a cell of the cache (by hash) and an object of
    the dictionary. The theorem here gives, for every string command, the answer
    and the new cell and object as a function of the old ones: a command touches
    no cell of another hash and no object of another key. It is proved for a
    store without an evictor whose ring buffer has room for what is written. *)

From S2P Require Import Prelude Strconv Scan RingBuf TinyLfu Dict Cache Store Objects StoreView ObjectSpec.
From stdpp Require Import options.

Definition key_hash (s : Store) (key : string) : Z := cache_hash (st_cache s) key.
Definition key_cell (s : Store) (key : string) : option cell := cache_cell (st_cache s) (key_hash s key).

(** [s'] is [s] with the cell and the object of [key] replaced. *)
Record key_updated (env : Env) (s s' : Store) (key : string) (c : option cell) (o : option typedValue)
    : Prop := {
  ku_wf : store_wf s';
  ku_seed : sc_seed (st_cache s') = sc_seed (st_cache s);
  ku_evictor : st_evictor s' = st_evictor s;
  ku_cells h : cache_cell (st_cache s') h = if decide (h = key_hash s key) then c else cache_cell (st_cache s) h;
  ku_objects k : object_at env s' k = if decide (k = key) then o else object_at env s k
}.

(** [s'] has room for every entry [s] has room for. *)
Definition same_room (s s' : Store) : Prop :=
  ∀ k v, has_room (st_cache s) k v → has_room (st_cache s') k v.

Section strings.
Context `{!GoRange Z Z} `{!GoRange string unit} `{!GoRange string (Entry typedValue)}.
Implicit Types (env : Env) (s : Store) (key : string).

Lemma key_updated_refl env s key :
  store_wf s → key_updated env s s key (key_cell s key) (object_at env s key).
Proof. intros Hwf. split; try done; intros k; by case_decide; subst. Qed.

Lemma key_updated_trans env s1 s2 s3 key c1 c2 o1 o2 :
  key_updated env s1 s2 key c1 o1 → key_updated env s2 s3 key c2 o2 → key_updated env s1 s3 key c2 o2.
Proof.
  intros [W1 S1 E1 C1 O1] [W2 S2 E2 C2 O2].
  assert (key_hash s2 key = key_hash s1 key) as Hh by (unfold key_hash, cache_hash; by rewrite S1).
  split; [done|congruence|congruence| |].
  - intros h. rewrite C2, Hh. case_decide as E; [done|]. rewrite C1. by rewrite decide_False.
  - intros k. rewrite O2. case_decide as E; [done|]. rewrite O1. by rewrite decide_False.
Qed.

Lemma key_updated_here env s s' key c o :
  key_updated env s s' key c o → store_wf s' ∧ key_cell s' key = c ∧ object_at env s' key = o.
Proof.
  intros [W S E C O]. split_and!; [done| |].
  - unfold key_cell. replace (key_hash s' key) with (key_hash s key)
      by (unfold key_hash, cache_hash; by rewrite S). rewrite C. by rewrite decide_True.
  - rewrite O. by rewrite decide_True.
Qed.

(** ** Building blocks *)

(** An operation of the cache that replaces the cell of the key. *)
Lemma on_cache_updated {A} env s key (f : ShardedCache → option (A * ShardedCache)) a sc c :
  store_wf s → f (st_cache s) = Some (a, sc) → cell_updated (st_cache s) sc (key_hash s key) c →
  on_cache f s = Some (a, with_cache s sc) ∧
  key_updated env s (with_cache s sc) key c (object_at env s key).
Proof.
  intros [Hf Hd] E [Hf' Hs Hc]. unfold on_cache. rewrite E. split; [done|].
  split; [by split|done|done|done|]. intros k. unfold object_at. simpl. by case_decide; subst.
Qed.

Lemma shard_of s key :
  store_wf s → ∃ sh, cache_getShard (st_cache s) (key_hash s key) = Some sh ∧ shard_fresh sh.
Proof. intros Hwf. apply cache_getShard_Some, Hwf. Qed.

(** Reading keeps the ring buffers. *)
Lemma Get_room now sc key v sc' k w :
  ShardedCache_Get now sc key = Some (v, sc') → has_room sc k w → has_room sc' k w.
Proof.
  unfold ShardedCache_Get, cache_get_with. intros H Hroom.
  destruct (cache_getShard sc (cache_hash sc key)) as [sh|] eqn:Es; [|done]. simpl in H.
  destruct (zs_index sh !! cache_hash sc key) as [raw|]; [|by injection H as <- <-].
  destruct (isInlineInt raw).
  { destruct (recordAccess _ _ _); [|done]. by injection H as <- <-. }
  destruct (ReadAt _ _) as [|[[sk value] hd]]; [by injection H as <- <-|].
  destruct (key_eq sk key); cbn [negb] in H; [|by injection H as <- <-].
  destruct (header_expired now hd); [|destruct (recordAccess _ _ _); [|done]; by injection H as <- <-].
  injection H as <- <-. destruct Hroom as (H1 & H2 & H3). split_and!; [done|done|].
  intros s' Hs'. unfold cache_getShard in Hs', Es. change (cache_hash (put_shard _ _ _) k) with (cache_hash sc k) in Hs'.
  change (cache_shard_index (put_shard sc _ _) ?x) with (cache_shard_index sc x) in Hs'.
  cbn [put_shard sc_shards] in Hs'. apply list_lookup_insert_Some in Hs' as [(E & <- & _)|[_ Hs']].
  - simpl. apply H3. unfold cache_getShard. by rewrite <-E.
  - by apply H3.
Qed.

Lemma GetCopy_Get now sc key : ShardedCache_GetCopy now sc key = ShardedCache_Get now sc key.
Proof.
  unfold ShardedCache_GetCopy, ShardedCache_Get, cache_get_with.
  destruct (cache_getShard _ _) as [sh|]; [|done]. cbn [mbind option_bind].
  destruct (zs_index sh !! _) as [raw|]; [|done]. by rewrite ReadAtCopy_ReadAt.
Qed.

Lemma get_key env s key :
  store_wf s →
  let '(v, c) := cell_read (env_now env) key (key_cell s key) in
  ∃ s', on_cache (λ sc, ShardedCache_Get (env_now env) sc key) s = Some (v, s') ∧
    key_updated env s s' key c (object_at env s key) ∧ same_room s s'.
Proof.
  intros Hwf. destruct (shard_of s key Hwf) as (sh & Hs & Hsf).
  pose proof (Get_spec (env_now env) (st_cache s) key sh (sw_cache _ Hwf) Hs Hsf) as HG.
  fold (key_hash s key) in HG. fold (key_cell s key) in HG.
  destruct (cell_read _ _ _) as [v c]. destruct HG as (sc & HG & HU).
  destruct (on_cache_updated env s key (λ sc, ShardedCache_Get (env_now env) sc key) v sc c Hwf HG HU) as [H1 H2].
  exists (with_cache s sc). split_and!; [done|done|]. intros k w. by eapply Get_room.
Qed.

Lemma getcopy_key env s key :
  on_cache (λ sc, ShardedCache_GetCopy (env_now env) sc key) s =
  on_cache (λ sc, ShardedCache_Get (env_now env) sc key) s.
Proof. unfold on_cache. by rewrite GetCopy_Get. Qed.

Lemma on_stats_key env s key f :
  store_wf s →
  on_stats f s = Some (tt, with_stats s (f (st_stats s))) ∧
  key_updated env s (with_stats s (f (st_stats s))) key (key_cell s key) (object_at env s key) ∧
  same_room s (with_stats s (f (st_stats s))).
Proof.
  intros [Hf Hd]. split_and!; [done| |by intros k v].
  split; try done; intros k; unfold object_at; simpl; by case_decide; subst.
Qed.

(** A change of the view that keeps the cache up to the slot index. *)
Lemma updated_same_cache env s s' key o :
  object_updated env s s' key o → st_evictor s' = st_evictor s →
  (∀ h, cache_cell (st_cache s') h = cache_cell (st_cache s) h) →
  sc_seed (st_cache s') = sc_seed (st_cache s) →
  key_updated env s s' key (key_cell s key) o.
Proof.
  intros [W _ O] He Hc Hs. split; try done. intros h. rewrite Hc. by case_decide; subst.
Qed.

Lemma getObjectValue_key env s key :
  store_wf s →
  ∃ s' o, getObjectValue env key s = Some (o, s') ∧ fst <$> o = object_at env s key ∧
    key_updated env s s' key (key_cell s key) (object_at env s key) ∧ same_room s s'.
Proof.
  intros Hwf. destruct (getObjectValue_view env s key Hwf) as (s' & o & H & Ho & U & Hc & _).
  exists s', o. split_and!; [done|done| |].
  - apply updated_same_cache; [done| |by rewrite Hc|by rewrite Hc].
    unfold getObjectValue, on_objects in H. destruct (Dict_Get _ _ _). by injection H as _ <-.
  - intros k v. by rewrite Hc.
Qed.

Lemma hasObjectKey_key env s key :
  store_wf s →
  ∃ s', hasObjectKey env key s = Some (bool_decide (is_Some (object_at env s key)), s') ∧
    key_updated env s s' key (key_cell s key) (object_at env s key) ∧ same_room s s'.
Proof.
  intros Hwf. destruct (getObjectValue_key env s key Hwf) as (s' & o & H & Ho & U & R).
  exists s'. split_and!; [|done|done]. unfold hasObjectKey. sstep H. unfold sret. rewrite <-Ho.
  by destruct o.
Qed.

Lemma slot_remove_same sc key :
  sc_seed (slot_remove sc key) = sc_seed sc ∧ sc_shards (slot_remove sc key) = sc_shards sc ∧
  sc_shardCount (slot_remove sc key) = sc_shardCount sc.
Proof.
  unfold slot_remove, slot_remove_keys. destruct (sc_slotFunc sc); [|done].
  destruct (sc_slotIndex sc !! _); [|done]. by case_bool_decide.
Qed.

Lemma removeObjectKey_key env s key :
  store_wf s →
  ∃ s', removeObjectKey key s = Some (tt, s') ∧ key_updated env s s' key (key_cell s key) None ∧ same_room s s'.
Proof.
  intros Hwf. destruct (removeObjectKey_view env s key Hwf) as (s' & H & U). exists s'.
  assert (st_evictor s' = st_evictor s ∧ sc_seed (st_cache s') = sc_seed (st_cache s) ∧
    sc_shards (st_cache s') = sc_shards (st_cache s) ∧
    sc_shardCount (st_cache s') = sc_shardCount (st_cache s)) as (E1 & E2 & E3 & E4).
  { unfold removeObjectKey, deleteObjectKey, sbind, on_objects in H. destruct (Dict_Del _ _) as [n d].
    destruct (0 <? n); injection H as <-; simpl; [|done]. split; [done|]. apply slot_remove_same. }
  assert (∀ h, cache_getShard (st_cache s') h = cache_getShard (st_cache s) h) as Hg.
  { intros h. unfold cache_getShard, cache_shard_index. by rewrite E3, E4. }
  split_and!; [done| |].
  - apply updated_same_cache; [done|done| |done]. intros h. unfold cache_cell. by rewrite Hg.
  - intros k v (H1 & H2 & H3). split_and!; [done|done|]. unfold cache_hash. rewrite E2, Hg. apply H3.
Qed.

Lemma try_evict_none env s : st_evictor s = None → try_evict env s = Some (tt, s).
Proof. intros H. unfold try_evict. by rewrite H. Qed.

Lemma cache_set_key env s key v ttl :
  store_wf s → has_room (st_cache s) key v →
  ∃ s', cache_set env key v ttl s = Some (inr tt, s') ∧
    key_updated env s s' key (Some (CEntry key v (expire_at (env_now env) ttl))) (object_at env s key).
Proof.
  intros Hwf Hroom. destruct (shard_of s key Hwf) as (sh & Hs & Hsf).
  destruct (Set_spec (env_now env) (st_cache s) key sh (sw_cache _ Hwf) Hs Hsf v ttl Hroom) as (sc & HS & HU).
  destruct (on_cache_updated env s key (λ c, ShardedCache_Set (env_now env) c key v ttl) None sc _ Hwf HS HU)
    as [H1 H2].
  exists (with_cache s sc). split; [|done]. unfold cache_set. by sstep H1.
Qed.

(** [removeObjectKey], [TryEvict], [cache.Set]: how the read-modify-write commands end. *)
Lemma replace_key {B} env s key v ttl (k : GoError + unit → B) :
  store_wf s → st_evictor s = None → has_room (st_cache s) key v →
  ∃ s', (let! _ := removeObjectKey key in let! _ := try_evict env in
         let! r := cache_set env key v ttl in sret (k r)) s = Some (k (inr tt), s') ∧
    key_updated env s s' key (Some (CEntry key v (expire_at (env_now env) ttl))) None.
Proof.
  intros Hwf He Hroom. destruct (removeObjectKey_key env s key Hwf) as (s1 & H1 & U1 & R1).
  sstep H1. rewrite (sbind_run _ _ _ _ _ (try_evict_none env s1 ltac:(rewrite (ku_evictor _ _ _ _ _ _ U1); done))).
  destruct (cache_set_key env s1 key v ttl) as (s2 & H2 & U2); [apply U1|by apply R1|]. sstep H2.
  exists s2. split; [done|]. eapply key_updated_trans; [exact U1|].
  destruct (key_updated_here _ _ _ _ _ _ U1) as (_ & _ & <-). done.
Qed.

(** ** The commands *)

Inductive str_req :=
  | GET
  | STRLEN
  | TYPE
  | EXISTS
  | SET (value : string) (ttl : Z)
  | SETNX (value : string) (ttl : Z)
  | SETXX (value : string) (ttl : Z)
  | GETSET (value : string)
  | APPEND (value : string)
  | INCRBY (delta : Z).

Inductive str_resp :=
  | RErr (e : GoError)
  | ROk
  | RStr (v : string)
  | RInt (n : Z)
  | RBool (b : bool).

Definition str_answer {B} (f : B → str_resp) (r : GoError + B) : str_resp :=
  match r with inl e => RErr e | inr a => f a end.

Definition str_step env key (r : str_req) : SM str_resp :=
  match r with
  | GET => smap (str_answer RStr) (Store_Get env key)
  | STRLEN => smap (str_answer RInt) (Store_Strlen env key)
  | TYPE => smap RStr (Store_Type env key)
  | EXISTS => smap RInt (Store_Exists env [key])
  | SET v ttl => smap (str_answer (λ _, ROk)) (Store_Set env key v ttl)
  | SETNX v ttl => smap (str_answer RBool) (Store_SetNX env key v ttl)
  | SETXX v ttl => smap (str_answer RBool) (Store_SetXX env key v ttl)
  | GETSET v => smap (str_answer RStr) (Store_GetSet env key v)
  | APPEND v => smap (str_answer RInt) (Store_Append env key v)
  | INCRBY delta => smap (str_answer RInt) (Store_IncrBy env key delta)
  end.

Definition type_name (o : option typedValue) : string :=
  match tv_Type <$> o with
  | Some TypeHash => "hash"
  | Some TypeList => "list"
  | Some TypeSet => "set"
  | Some TypeZSet => "zset"
  | _ => "none"
  end.

(** What a request on a cell of the cache answers, as a string response. *)
Definition of_cell (r : cache_resp * option cell) : str_resp * option cell :=
  (match r.1 with
   | PBool b => RBool b
   | PIncr (IncrOk n) => RInt n
   | PIncr CacheErrNotInteger => RErr ErrNotInteger
   | _ => ROk
   end, r.2).

(** The answer, the new cell and the new object. An object under the key makes
    the reading commands fail, is replaced by [SETXX], and blocks [SETNX]; [SET]
    and [INCRBY] leave it where it is. *)
Definition str_spec (now : Z) (key : string) (r : str_req) (c : option cell) (o : option typedValue)
    : str_resp * option cell * option typedValue :=
  let '(cur, c') := cell_read now key c in
  let entry v ttl := Some (CEntry key v (expire_at now ttl)) in
  match r with
  | GET =>
      (match cur, o with
       | Some v, _ => RStr (BytesToString v)
       | None, Some _ => RErr ErrWrongType
       | None, None => RErr ErrKeyNotFound
       end, c', o)
  | STRLEN =>
      (match cur, o with
       | Some v, _ => RInt (Z.of_nat (length v))
       | None, Some _ => RErr ErrWrongType
       | None, None => RInt 0
       end, c', o)
  | TYPE => (RStr (match cur with Some _ => "string" | None => type_name o end), c', o)
  | EXISTS => (RInt (match cur, o with None, None => 0 | _, _ => 1 end), c', o)
  | SET v ttl => (ROk, entry (StringToBytes v) ttl, o)
  | SETNX v ttl =>
      match o with
      | Some _ => (RBool false, c, o)
      | None => (of_cell (cell_step now key (QSetNX (StringToBytes v) ttl) c), None)
      end
  | SETXX v ttl =>
      match o with
      | Some _ => (RBool true, entry (StringToBytes v) ttl, None)
      | None => (of_cell (cell_step now key (QSetXX (StringToBytes v) ttl) c), None)
      end
  | GETSET v =>
      match cur, o with
      | Some w, _ => (RStr (BytesToString w), entry (StringToBytes v) 0, None)
      | None, Some _ => (RErr ErrWrongType, c', o)
      | None, None => (RStr "", entry (StringToBytes v) 0, None)
      end
  | APPEND v =>
      match cur, o with
      | None, Some _ => (RErr ErrWrongType, c', o)
      | _, _ => let w := default [] cur ++ StringToBytes v in
                (RInt (Z.of_nat (length w)), entry w 0, None)
      end
  | INCRBY delta => (of_cell (cell_step now key (QIncrBy delta) c), o)
  end.

(** The value a command writes fits the ring buffer and the header. *)
Definition str_fits env s key (r : str_req) : Prop :=
  match r with
  | SET v _ | SETNX v _ | SETXX v _ | GETSET v => has_room (st_cache s) key (StringToBytes v)
  | APPEND v =>
      has_room (st_cache s) key
        (default [] (cell_read (env_now env) key (key_cell s key)).1 ++ StringToBytes v)
  | INCRBY delta => is_i64 delta
  | _ => True
  end.

(** The answer and the update a command makes, as one statement. *)
Definition str_refines env s key (r : str_req) : Prop :=
  ∃ s', str_step env key r s = Some ((str_spec (env_now env) key r (key_cell s key) (object_at env s key)).1.1, s') ∧
    key_updated env s s' key
      (str_spec (env_now env) key r (key_cell s key) (object_at env s key)).1.2
      (str_spec (env_now env) key r (key_cell s key) (object_at env s key)).2.

Lemma cache_write_refines {A} env s key (f : ShardedCache → option (A * ShardedCache)) g a sc c r :
  store_wf s → f (st_cache s) = Some (a, sc) → cell_updated (st_cache s) sc (key_hash s key) c →
  str_step env key r s = smap g (on_cache f) s →
  str_spec (env_now env) key r (key_cell s key) (object_at env s key) = (g a, c, object_at env s key) →
  str_refines env s key r.
Proof.
  intros Hwf Hf Hu Hr Hspec.
  destruct (on_cache_updated env s key f a sc c Hwf Hf Hu) as [H1 H2].
  exists (with_cache s sc). rewrite Hr, Hspec. split; [|done]. by rewrite (smap_run _ _ _ _ _ H1).
Qed.

(** Read the key, and the dictionary when the cache has no string for it. *)
Lemma read_key env s key :
  store_wf s →
  let '(cur, c) := cell_read (env_now env) key (key_cell s key) in
  ∃ s1, on_cache (λ sc, ShardedCache_Get (env_now env) sc key) s = Some (cur, s1) ∧
    store_wf s1 ∧ st_evictor s1 = st_evictor s ∧ object_at env s1 key = object_at env s key ∧
    key_updated env s s1 key c (object_at env s key) ∧ same_room s s1 ∧
    ∃ s2, hasObjectKey env key s1 = Some (bool_decide (is_Some (object_at env s key)), s2) ∧
      key_updated env s s2 key c (object_at env s key) ∧ same_room s s2.
Proof.
  intros Hwf. pose proof (get_key env s key Hwf) as HG. destruct (cell_read _ _ _) as [cur c].
  destruct HG as (s1 & H1 & U1 & R1). destruct (key_updated_here _ _ _ _ _ _ U1) as (W1 & C1 & O1).
  exists s1. split_and!; [done|done|apply U1|done|done|done|].
  destruct (hasObjectKey_key env s1 key W1) as (s2 & H2 & U2 & R2). rewrite O1 in H2, U2. rewrite C1 in U2.
  exists s2. split_and!; [done|by eapply key_updated_trans|]. intros k v Hr. by apply R2, R1.
Qed.

(** Counting an operation first changes nothing else. *)
Lemma after_stats {A} env s key f (m : SM A) a c o :
  store_wf s →
  (∀ s0, store_wf s0 → key_cell s0 key = key_cell s key → object_at env s0 key = object_at env s key →
     st_evictor s0 = st_evictor s → same_room s s0 →
     ∃ s', m s0 = Some (a, s') ∧ key_updated env s0 s' key c o) →
  ∃ s', (let! _ := on_stats f in m) s = Some (a, s') ∧ key_updated env s s' key c o.
Proof.
  intros Hwf Hm. destruct (on_stats_key env s key f Hwf) as (H & U & R). sstep H.
  destruct (Hm (with_stats s (f (st_stats s)))) as (s' & H' & U'); try done.
  - apply U.
  - exists s'. split; [done|]. by eapply key_updated_trans.
Qed.

Lemma then_stats {A} env s s1 key f (a : A) c o :
  key_updated env s s1 key c o →
  ∃ s', (let! _ := on_stats f in sret a) s1 = Some (a, s') ∧ key_updated env s s' key c o.
Proof.
  intros U. destruct (key_updated_here _ _ _ _ _ _ U) as (W & C & O).
  destruct (on_stats_key env s1 key f W) as (H & U' & _). sstep H. eexists. split; [done|].
  rewrite C, O in U'. by eapply key_updated_trans.
Qed.

Lemma Store_Get_run env s key :
  store_wf s →
  ∃ s', Store_Get env key s = Some
      (match (cell_read (env_now env) key (key_cell s key)).1, object_at env s key with
       | Some v, _ => inr (BytesToString v)
       | None, Some _ => inl ErrWrongType
       | None, None => inl ErrKeyNotFound
       end, s') ∧
    key_updated env s s' key (cell_read (env_now env) key (key_cell s key)).2 (object_at env s key).
Proof.
  intros Hwf. apply after_stats; [done|]. intros s0 W0 C0 O0 _ _. rewrite <-C0, <-O0.
  pose proof (read_key env s0 key W0) as HG. destruct (cell_read _ _ _) as [cur c].
  destruct HG as (s1 & H1 & _ & _ & _ & U1 & _ & s2 & H2 & U2 & _).
  unfold sbind at 1. rewrite getcopy_key, H1. cbn [fst snd].
  destruct cur as [v|]; [by apply (then_stats env s0 s1)|].
  sstep H2. destruct (object_at env s0 key); [by exists s2|]. by apply (then_stats env s0 s2).
Qed.

Lemma Get_refines env s key : store_wf s → str_refines env s key GET.
Proof.
  intros Hwf. unfold str_refines. cbn [str_step str_spec]. destruct (Store_Get_run env s key Hwf) as (s' & H & U).
  exists s'. rewrite (smap_run _ _ _ _ _ H). unfold str_spec. destruct (cell_read _ _ _) as [cur c]. split; [|done].
  simpl. by destruct cur, (object_at env s key).
Qed.

Lemma read_refines env s key r :
  store_wf s → match r with STRLEN | TYPE | EXISTS => True | _ => False end → str_refines env s key r.
Proof.
  intros Hwf Hr. unfold str_refines. pose proof (read_key env s key Hwf) as HG. unfold str_spec.
  destruct (cell_read _ _ _) as [cur c].
  destruct HG as (s1 & H1 & W1 & _ & O1 & U1 & _ & s2 & H2 & U2 & _).
  destruct (getObjectValue_key env s1 key W1) as (s3 & o & H3 & Ho & U3 & _).
  destruct (key_updated_here _ _ _ _ _ _ U1) as (_ & C1 & _). rewrite O1 in Ho, U3. rewrite C1 in U3.
  pose proof (key_updated_trans _ _ _ _ _ _ _ _ _ U1 U3) as U13.
  destruct r; try done; cbn [str_step fst snd]; unfold smap.
  - unfold Store_Strlen, sbind. rewrite getcopy_key, H1. destruct cur as [v|]; [by exists s1|].
    rewrite H2. exists s2. split; [|done]. by destruct (object_at env s key).
  - unfold Store_Type, sbind. rewrite H1. destruct cur as [v|]; [by exists s1|].
    rewrite H3. exists s3. split; [|done]. unfold sret, type_name. rewrite <-Ho.
    by destruct o as [[[[] ?] ?]|].
  - unfold Store_Exists, exists_anywhere, sbind, on_cache, ShardedCache_Exists in *.
    destruct (ShardedCache_Get (env_now env) (st_cache s) key) as [[cur' sc]|] eqn:E; [|done].
    injection H1 as -> Hs1. simpl. destruct cur as [v|].
    + rewrite bool_decide_eq_true_2 by eauto. exists s1. split; [|done]. by rewrite Hs1.
    + rewrite bool_decide_eq_false_2 by by intros []. unfold with_cache in Hs1. rewrite Hs1, H2.
      exists s2. split; [|done]. by destruct (object_at env s key).
Qed.

Lemma Store_Set_run env s key v ttl :
  store_wf s → st_evictor s = None → has_room (st_cache s) key (StringToBytes v) →
  ∃ s', Store_Set env key v ttl s = Some (inr tt, s') ∧
    key_updated env s s' key (Some (CEntry key (StringToBytes v) (expire_at (env_now env) ttl))) (object_at env s key).
Proof.
  intros Hwf He Hroom. apply after_stats; [done|]. intros s0 W0 C0 O0 E0 R0. rewrite He in E0.
  rewrite (sbind_run _ _ _ _ _ (try_evict_none env s0 E0)), <-O0. apply cache_set_key; [done|by apply R0].
Qed.

Lemma Set_refines env s key v ttl :
  store_wf s → st_evictor s = None → str_fits env s key (SET v ttl) → str_refines env s key (SET v ttl).
Proof.
  intros Hwf He Hroom. unfold str_refines, str_spec. destruct (cell_read _ _ _) as [cur c0].
  cbn [str_step fst snd str_fits] in *. destruct (Store_Set_run env s key v ttl Hwf He Hroom) as (s' & H & U).
  exists s'. by rewrite (smap_run _ _ _ _ _ H).
Qed.

(** The conditional writes when the key holds no object: a request on its cell. *)
Lemma conditional_write env s s1 key (f : ShardedCache → option ((rb_error + bool) * ShardedCache)) req :
  key_updated env s s1 key (key_cell s key) None →
  (∃ b sc c, f (st_cache s1) = Some (inr b, sc) ∧
     cell_step (env_now env) key req (key_cell s1 key) = (PBool b, c) ∧
     cell_updated (st_cache s1) sc (key_hash s1 key) c) →
  ∃ s', (let! r := (let! r := on_cache f in sret (bool_result r)) in sret (str_answer RBool r)) s1 =
      Some ((of_cell (cell_step (env_now env) key req (key_cell s key))).1, s') ∧
    key_updated env s s' key (of_cell (cell_step (env_now env) key req (key_cell s key))).2 None.
Proof.
  intros U (b & sc & c & Hf & Hs & Hu). destruct (key_updated_here _ _ _ _ _ _ U) as (W & C & O).
  rewrite C in Hs. destruct (on_cache_updated env s1 key f (inr b) sc c W Hf Hu) as [H1 U1].
  exists (with_cache s1 sc). rewrite Hs. unfold sbind at 1. sstep H1. split; [done|]. rewrite O in U1.
  by eapply key_updated_trans.
Qed.

Lemma SetNX_refines env s key v ttl :
  store_wf s → str_fits env s key (SETNX v ttl) → str_refines env s key (SETNX v ttl).
Proof.
  intros Hwf Hroom. unfold str_refines, str_spec. destruct (cell_read _ _ _) as [cur c0].
  cbn [str_step str_fits] in *. unfold smap, Store_SetNX.
  destruct (hasObjectKey_key env s key Hwf) as (s1 & H1 & U1 & R1).
  unfold sbind at 1. sstep H1. destruct (object_at env s key) as [tv|].
  - rewrite bool_decide_eq_true_2 by eauto. by exists s1.
  - rewrite bool_decide_eq_false_2 by by intros [].
    destruct (conditional_write env s s1 key (λ c, ShardedCache_SetNX (env_now env) c key (StringToBytes v) ttl)
      (QSetNX (StringToBytes v) ttl) U1) as (s2 & H2 & U2).
    + destruct (key_updated_here _ _ _ _ _ _ U1) as (W1 & _). destruct (shard_of s1 key W1) as (sh & Hs & Hsf).
      exact (SetNX_spec (env_now env) (st_cache s1) key sh (sw_cache _ W1) Hs Hsf (StringToBytes v) ttl (R1 _ _ Hroom)).
    + exists s2. split; [exact H2|]. exact U2.
Qed.

Lemma SetXX_refines env s key v ttl :
  store_wf s → st_evictor s = None → str_fits env s key (SETXX v ttl) → str_refines env s key (SETXX v ttl).
Proof.
  intros Hwf He Hroom. unfold str_refines, str_spec. destruct (cell_read _ _ _) as [cur c0].
  cbn [str_step str_fits] in *. unfold smap, Store_SetXX.
  destruct (hasObjectKey_key env s key Hwf) as (s1 & H1 & U1 & R1).
  destruct (key_updated_here _ _ _ _ _ _ U1) as (W1 & _).
  unfold sbind at 1. sstep H1. destruct (object_at env s key) as [tv|].
  - rewrite bool_decide_eq_true_2 by eauto.
    destruct (replace_key env s1 key (StringToBytes v) ttl
      (λ r, match r with inl e => inl e | inr _ => inr true end)) as (s2 & H2 & U2);
      [done|by rewrite (ku_evictor _ _ _ _ _ _ U1)|by apply R1|].
    rewrite H2. exists s2. split; [done|]. exact (key_updated_trans _ _ _ _ _ _ _ _ _ U1 U2).
  - rewrite bool_decide_eq_false_2 by by intros [].
    destruct (conditional_write env s s1 key (λ c, ShardedCache_SetXX (env_now env) c key (StringToBytes v) ttl)
      (QSetXX (StringToBytes v) ttl) U1) as (s2 & H2 & U2).
    + destruct (shard_of s1 key W1) as (sh & Hs & Hsf).
      exact (SetXX_spec (env_now env) (st_cache s1) key sh (sw_cache _ W1) Hs Hsf (StringToBytes v) ttl (R1 _ _ Hroom)).
    + exists s2. split; [exact H2|]. exact U2.
Qed.

Lemma GetSet_refines env s key v :
  store_wf s → st_evictor s = None → str_fits env s key (GETSET v) → str_refines env s key (GETSET v).
Proof.
  intros Hwf He Hroom. unfold str_refines, str_spec. pose proof (read_key env s key Hwf) as HG.
  cbn [str_step str_fits] in *. unfold smap, Store_GetSet.
  destruct (cell_read _ _ _) as [cur c].
  destruct HG as (s1 & H1 & W1 & E1 & O1 & U1 & R1 & s2 & H2 & U2 & R2).
  unfold sbind at 1. rewrite <-getcopy_key in H1. sstep H1. destruct cur as [w|].
  - destruct (replace_key env s1 key (StringToBytes v) 0
      (λ r, match r with inl e => inl e | inr _ => inr (BytesToString w) end)) as (s3 & H3 & U3);
      [done|congruence|by apply R1|]. rewrite H3. exists s3. split; [done|]. exact (key_updated_trans _ _ _ _ _ _ _ _ _ U1 U3).
  - sstep H2. destruct (object_at env s key) as [tv|]; [by exists s2|].
    destruct (replace_key env s2 key (StringToBytes v) 0
      (λ r, match r with inl e => inl e | inr _ => inr "" end)) as (s3 & H3 & U3);
      [apply U2|rewrite (ku_evictor _ _ _ _ _ _ U2); done|by apply R2|].
    rewrite bool_decide_eq_false_2 by by intros []. rewrite H3. exists s3. split; [done|]. exact (key_updated_trans _ _ _ _ _ _ _ _ _ U2 U3).
Qed.

Lemma Append_refines env s key v :
  store_wf s → st_evictor s = None → str_fits env s key (APPEND v) → str_refines env s key (APPEND v).
Proof.
  intros Hwf He Hroom. unfold str_refines, str_spec. pose proof (read_key env s key Hwf) as HG.
  cbn [str_step str_fits] in *. unfold smap, Store_Append.
  destruct (cell_read _ _ _) as [cur c]. cbn [fst] in Hroom.
  destruct HG as (s1 & H1 & W1 & E1 & O1 & U1 & R1 & s2 & H2 & U2 & R2).
  unfold sbind at 1. rewrite <-getcopy_key in H1. sstep H1. destruct cur as [w|]; cbn [default] in *.
  - destruct (replace_key env s1 key (w ++ StringToBytes v) 0
      (λ r, match r with inl e => inl e | inr _ => inr (Z.of_nat (length (w ++ StringToBytes v))) end))
      as (s3 & H3 & U3); [done|congruence|by apply R1|].
    rewrite H3. exists s3. split; [done|]. exact (key_updated_trans _ _ _ _ _ _ _ _ _ U1 U3).
  - sstep H2. destruct (object_at env s key) as [tv|]; [by exists s2|].
    destruct (replace_key env s2 key ([] ++ StringToBytes v) 0
      (λ r, match r with inl e => inl e | inr _ => inr (Z.of_nat (length ([] ++ StringToBytes v))) end))
      as (s3 & H3 & U3);
      [apply U2|rewrite (ku_evictor _ _ _ _ _ _ U2); done|by apply R2|].
    rewrite bool_decide_eq_false_2 by by intros []. rewrite H3. exists s3. split; [done|]. exact (key_updated_trans _ _ _ _ _ _ _ _ _ U2 U3).
Qed.

Lemma IncrBy_refines env s key delta :
  store_wf s → is_i64 delta → str_refines env s key (INCRBY delta).
Proof.
  intros Hwf Hd. destruct (shard_of s key Hwf) as (sh & Hs & Hsf).
  destruct (IncrBy_spec (env_now env) (st_cache s) key sh (sw_cache _ Hwf) Hs Hsf delta Hd)
    as (r & sc & c & H & Hc & HU).
  eapply (cache_write_refines env s key (λ c, ShardedCache_IncrBy (env_now env) c key delta)
    (λ r, match r with CacheErrNotInteger => RErr ErrNotInteger | IncrOk v => RInt v end) r sc c); try done.
  - cbn [str_step]. unfold smap, Store_IncrBy, sbind. destruct (on_cache (λ c, ShardedCache_IncrBy (env_now env) c key delta) s) as [[r' s']|]; [|done].
    by destruct r'.
  - unfold str_spec. destruct (cell_read _ _ _). unfold key_cell, key_hash. rewrite Hc. by destruct r.
Qed.

(** C2: On a store without evictor (no memory limit) whose ring buffers have not
    wrapped, every string command, when the value it writes is shorter than 64 KB
    and fits into the rest of its ring buffer, answers, and changes the cell and
    the object of its key, as [str_spec] says. It leaves every cell of another
    hash and every object of another key alone; a key with the same hash shares
    the cell. *)
Theorem string_commands_refine env s key r :
  store_wf s → st_evictor s = None → str_fits env s key r →
  let '(resp, c', o') := str_spec (env_now env) key r (key_cell s key) (object_at env s key) in
  ∃ s', str_step env key r s = Some (resp, s') ∧
    store_wf s' ∧ key_cell s' key = c' ∧ object_at env s' key = o' ∧
    (∀ h, h ≠ key_hash s key → cache_cell (st_cache s') h = cache_cell (st_cache s) h) ∧
    (∀ k, k ≠ key → object_at env s' k = object_at env s k).
Proof.
  intros Hwf He Hfit. assert (str_refines env s key r) as (s' & H & U).
  { destruct r; cbn [str_fits] in Hfit.
    - by apply Get_refines.
    - by apply read_refines.
    - by apply read_refines.
    - by apply read_refines.
    - by apply Set_refines.
    - by apply SetNX_refines.
    - by apply SetXX_refines.
    - by apply GetSet_refines.
    - by apply Append_refines.
    - by apply IncrBy_refines. }
  destruct (str_spec _ _ _ _ _) as [[resp c'] o']. exists s'. split; [done|].
  destruct (key_updated_here _ _ _ _ _ _ U) as (W & C & O). split_and!; [done|done|done| |].
  - intros h Hh. rewrite (ku_cells _ _ _ _ _ _ U). by rewrite decide_False.
  - intros k Hk. rewrite (ku_objects _ _ _ _ _ _ U). by rewrite decide_False.
Qed.
End strings.

(** ** The commands on a concrete store *)

Section witnesses.
#[local] Instance ranges {K A} `{Countable K} : GoRange K A := listed_range.

Definition empty_store : Store := small_store empty_dict.

Lemma small_room objects key v :
  length (StringToBytes key) = 1%nat → (length v ≤ 60)%nat → has_room (st_cache (small_store objects)) key v.
Proof.
  intros Hk Hv. split_and!; [rewrite Hk; lia|lia|]. intros sh Hs.
  assert (rb_tail (zs_ring sh) = 0 ∧ rb_capacity (zs_ring sh) = 128) as [-> ->].
  { unfold cache_getShard in Hs. apply list_elem_of_lookup_2, list_elem_of_singleton in Hs. by subst. }
  unfold entry_size, headerSize. lia.
Qed.

Lemma empty_store_wf : store_wf empty_store.
Proof. split; [apply empty_small_fresh|]. apply NewDict_wf. lia. Qed.

Lemma string_commands_refine_witness :
  ∃ s', str_step at_5 "k" (APPEND "ab") empty_store = Some (RInt 2, s') ∧
    key_cell s' "k" = Some (CEntry "k" (StringToBytes "ab") 0) ∧ object_at at_5 s' "k" = None.
Proof.
  destruct (string_commands_refine at_5 empty_store "k" (APPEND "ab")) as (s' & H & _ & C & O & _).
  - apply empty_store_wf.
  - done.
  - apply small_room; vm_compute; lia.
  - by exists s'.
Defined.
End witnesses.
