(* ===== verification/KeySpec.v ===== *)
(** * Properties of keys across the two stores of an engine

    A key may hold a string in the cache and an object in the dictionary. The
    collection commands reject keys that hold something else; deleting a key
    clears both; the commands that forget the other store are shown by the
    theorems about [SET], [INCRBY], [SCAN] and active expiry. *)

From S2P Require Import Prelude Strconv Scan RingBuf TinyLfu Dict Cache Store Objects StoreView ObjectSpec ZSetSpec StringSpec.
From stdpp Require Import options.

Section keys.
Context `{!GoRange Z Z} `{!GoRange string unit} `{!GoRange string (Entry typedValue)}.
Context `{!GoRange string string} `{!GoRange string float64}.
Implicit Types (env : Env) (s : Store) (key : string).

(** ** Wrong types *)

Inductive obj_req :=
  | OList (r : list_req)
  | OSet (r : set_req)
  | OHash (r : hash_req)
  | OZSet (r : zset_req).

Inductive obj_resp :=
  | YList (r : list_resp)
  | YSet (r : set_resp)
  | YHash (r : hash_resp)
  | YZSet (r : zset_resp).

Definition obj_type (r : obj_req) : ValueType :=
  match r with OList _ => TypeList | OSet _ => TypeSet | OHash _ => TypeHash | OZSet _ => TypeZSet end.

Definition obj_step env key (r : obj_req) : SM obj_resp :=
  match r with
  | OList r => smap YList (list_step env key r)
  | OSet r => smap YSet (set_step env key r)
  | OHash r => smap YHash (hash_step env key r)
  | OZSet r => smap YZSet (zset_step env key r)
  end.

Definition obj_req_ok (r : obj_req) : Prop :=
  match r with
  | OList r => list_req_ok r
  | OSet r => set_req_ok r
  | OHash r => hash_req_ok r
  | OZSet r => zset_req_ok r
  end.

Definition wrong_type (r : obj_req) : obj_resp :=
  match r with
  | OList _ => YList (LErr ErrWrongType)
  | OSet _ => YSet (SErr ErrWrongType)
  | OHash _ => YHash (HErr ErrWrongType)
  | OZSet _ => YZSet (ZErr ErrWrongType)
  end.

(** The key holds a string, or an object of another type than [t]. *)
Definition holds_other env s key (t : ValueType) : Prop :=
  is_Some (string_at env s key) ∨ ∃ tv, object_at env s key = Some tv ∧ tv_Type tv ≠ t.

Lemma getTyped_wrong {A} t (proj : GoValue → option A) env s key :
  store_wf s → holds_other env s key t →
  ∃ s', getTyped t proj env key s = Some (inl ErrWrongType, s') ∧
    object_updated env s s' key (object_at env s key).
Proof.
  intros Hwf Ho. destruct (getTyped_view t proj env s key Hwf) as (s' & H & U). exists s'.
  split; [|done]. rewrite H. unfold typed_result. destruct Ho as [[v ->]|(tv & -> & Ht)]; [done|].
  destruct (string_at env s key); [done|]. by rewrite bool_decide_eq_false_2.
Qed.

Lemma getHash_wrong env s key :
  store_wf s → holds_other env s key TypeHash →
  ∃ s', getHash env key s = Some (HWrong, s') ∧ object_updated env s s' key (object_at env s key).
Proof.
  intros Hwf Ho. destruct (cacheExists_view env s key Hwf) as (s1 & H1 & U1). unfold getHash. sstep H1.
  destruct (updated_here _ _ _ _ _ U1) as (W1 & _ & O1).
  destruct (getObjectValue_view env s1 key W1) as (s2 & o & H2 & Ho2 & U2 & _). rewrite O1 in Ho2, U2.
  destruct (string_at env s key) as [v|] eqn:Es.
  { rewrite bool_decide_eq_true_2 by eauto. by exists s1. }
  rewrite bool_decide_eq_false_2 by by intros []. sstep H2. exists s2.
  destruct Ho as [[v E]|(tv & E & Ht)]; [congruence|]. rewrite E in Ho2.
  destruct o as [[tv' ent]|]; [|done]. injection Ho2 as ->. rewrite bool_decide_eq_false_2 by done.
  split; [done|]. by eapply object_updated_trans.
Qed.

(** Run a command whose first step is the lookup described by [H]. *)
Ltac run_wrong H :=
  unfold smap, sbind; cbv [list_step set_step hash_step zset_step];
  unfold smap, Store_LPush, Store_RPush, Store_LPop, Store_RPop, Store_LRange, Store_LLen, Store_LIndex,
    Store_LSet, Store_LTrim, pushList, popList, getListValue, getMutableListValue,
    Store_SAdd, Store_SRem, Store_SMembers, Store_SIsMember, Store_SCard, getSetValue, getMutableSetValue,
    Store_HGet, Store_HDel, Store_HExists, Store_HKeys, Store_HVals, Store_HGetAll, Store_HLen,
    Store_ZAdd, Store_ZRem, Store_ZScore, Store_ZIncrBy, Store_ZRange, Store_ZRangeWithScores,
    Store_ZRevRange, Store_ZRangeWithScores, Store_ZRank, Store_ZCard, Store_ZCount, sortedZMembers,
    getZSetValue, getMutableZSetValue, sbind;
  cbn [fmap list_fmap]; cbv beta iota; rewrite ?H; reflexivity.

Lemma list_wrong env s s' key r :
  getTyped TypeList as_list env key s = Some (inl ErrWrongType, s') → list_req_ok r →
  smap YList (list_step env key r) s = Some (YList (LErr ErrWrongType), s').
Proof.
  intros H Hok. destruct r as [[|x items]|[|x items]| | | | | | |]; cbn [list_req_ok] in Hok; try done;
    run_wrong H.
Qed.

Lemma set_wrong env s s' key r :
  getTyped TypeSet as_set env key s = Some (inl ErrWrongType, s') → set_req_ok r →
  smap YSet (set_step env key r) s = Some (YSet (SErr ErrWrongType), s').
Proof.
  intros H Hok. destruct r as [[|x items]| | | |]; cbn [set_req_ok] in Hok; try done;
    run_wrong H.
Qed.

Lemma hash_wrong env s s' key r :
  getHash env key s = Some (HWrong, s') → hash_req_ok r →
  smap YHash (hash_step env key r) s = Some (YHash (HErr ErrWrongType), s').
Proof.
  intros H Hok. destruct r as [pairs| | | | | | |]; [|run_wrong H..].
  unfold smap, sbind, hash_step, smap, Store_HSet. cbn [hash_req_ok] in Hok.
  rewrite bool_decide_eq_false_2 by (by destruct pairs as [|[] ?]). rewrite length_flat_pairs.
  cbn [Z.eqb negb orb]. unfold sbind. by rewrite H.
Qed.

Lemma zset_wrong env s s' key r :
  getTyped TypeZSet as_zset env key s = Some (inl ErrWrongType, s') → zset_req_ok r →
  smap YZSet (zset_step env key r) s = Some (YZSet (ZErr ErrWrongType), s').
Proof.
  intros H Hok. destruct r as [[|x items]| | | | | | | | |]; cbn [zset_req_ok] in Hok; try done; run_wrong H.
Qed.

(** A collection command on a key that holds a string or a collection of
    another type answers WRONGTYPE and changes nothing a client can see. *)
Theorem wrong_type_rejected env s key r :
  store_wf s → holds_other env s key (obj_type r) → obj_req_ok r →
  ∃ s', obj_step env key r s = Some (wrong_type r, s') ∧
    (∀ k, string_at env s' k = string_at env s k) ∧ ∀ k, object_at env s' k = object_at env s k.
Proof.
  intros Hwf Ho Hok.
  assert (∃ s', obj_step env key r s = Some (wrong_type r, s') ∧
    object_updated env s s' key (object_at env s key)) as (s' & H & U).
  { destruct r as [r|r|r|r]; cbn [obj_type obj_req_ok obj_step wrong_type] in *.
    - destruct (getTyped_wrong TypeList as_list env s key Hwf Ho) as (s' & H & U).
      exists s'. by rewrite (list_wrong env s s').
    - destruct (getTyped_wrong TypeSet as_set env s key Hwf Ho) as (s' & H & U).
      exists s'. by rewrite (set_wrong env s s').
    - destruct (getHash_wrong env s key Hwf Ho) as (s' & H & U). exists s'. by rewrite (hash_wrong env s s').
    - destruct (getTyped_wrong TypeZSet as_zset env s key Hwf Ho) as (s' & H & U).
      exists s'. by rewrite (zset_wrong env s s'). }
  exists s'. split_and!; [done|apply U|]. intros k. rewrite (ou_objects _ _ _ _ _ U). by case_decide; subst.
Qed.

(** ** Deleting *)

Lemma delete_key env s key :
  store_wf s → ∃ b s', delete_everywhere key s = Some (b, s') ∧ key_updated env s s' key None None.
Proof.
  intros Hwf. destruct (shard_of s key Hwf) as (sh & Hs & Hsf).
  destruct (Delete_spec (env_now env) (st_cache s) key sh (sw_cache _ Hwf) Hs Hsf) as (b & sc & HD & _ & HU).
  destruct (on_cache_updated env s key (λ c, ShardedCache_Delete c key) b sc None Hwf HD HU) as [H1 U1].
  destruct (key_updated_here _ _ _ _ _ _ U1) as (W1 & C1 & O1).
  destruct (removeObjectKey_key env (with_cache s sc) key W1) as (s2 & H2 & U2 & _).
  unfold removeObjectKey, sbind in H2.
  destruct (deleteObjectKey key (with_cache s sc)) as [[b2 s2']|] eqn:E; [|done]. injection H2 as ->.
  exists (b || b2), s2. unfold delete_everywhere. sstep H1. sstep E. split; [done|].
  rewrite C1 in U2. by eapply key_updated_trans.
Qed.

Lemma del_loop_view env keys s :
  store_wf s →
  ∃ n s', del_loop keys s = Some (n, s') ∧ 0 ≤ n ≤ Z.of_nat (length keys) ∧ store_wf s' ∧
    (∀ h, cache_cell (st_cache s') h =
       if decide (h ∈ key_hash s <$> keys) then None else cache_cell (st_cache s) h) ∧
    (∀ k, object_at env s' k = if decide (k ∈ keys) then None else object_at env s k) ∧
    ∀ k, key_hash s' k = key_hash s k.
Proof.
  revert s. induction keys as [|key keys IH]; intros s Hwf.
  { exists 0, s. split_and!; try done. }
  destruct (delete_key env s key Hwf) as (b & s1 & H1 & U1).
  destruct (IH s1) as (n & s2 & H2 & Hn & W2 & C2 & O2 & K2); [apply U1|].
  assert (∀ k, key_hash s1 k = key_hash s k) as Hk.
  { intros k. unfold key_hash, cache_hash. by rewrite (ku_seed _ _ _ _ _ _ U1). }
  assert (key_hash s1 <$> keys = key_hash s <$> keys) as Hks by (apply list_fmap_ext; intros; apply Hk).
  eexists _, s2. cbn [del_loop]. sstep H1. sstep H2. split_and!; [done|destruct b; simpl; lia..|done| | |].
  - intros h. rewrite C2, Hks, (ku_cells _ _ _ _ _ _ U1). cbn [fmap list_fmap].
    destruct (decide (h ∈ key_hash s <$> keys)) as [Hin|Hin].
    + rewrite decide_True; [done|by right].
    + destruct (decide (h = key_hash s key)) as [->|Hne]; [rewrite decide_True; [done|by left]|].
      rewrite decide_False; [done|]. rewrite not_elem_of_cons. done.
  - intros k. rewrite O2, (ku_objects _ _ _ _ _ _ U1).
    destruct (decide (k ∈ keys)) as [Hin|Hin].
    + rewrite decide_True; [done|by right].
    + destruct (decide (k = key)) as [->|Hne]; [rewrite decide_True; [done|by left]|].
      rewrite decide_False; [done|]. rewrite not_elem_of_cons. done.
  - intros k. by rewrite K2.
Qed.

(** [DEL] answers, leaves neither a string nor an object under any of its keys,
    and touches no cell of another hash and no other object. *)
Theorem Del_removes env s keys :
  store_wf s →
  ∃ n s', Store_Del keys s = Some (n, s') ∧ 0 ≤ n ≤ Z.of_nat (length keys) ∧ store_wf s' ∧
    (∀ k, k ∈ keys → string_at env s' k = None ∧ object_at env s' k = None) ∧
    (∀ k, k ∉ keys → object_at env s' k = object_at env s k) ∧
    (∀ k, key_hash s k ∉ key_hash s <$> keys → string_at env s' k = string_at env s k).
Proof.
  intros Hwf. unfold Store_Del. destruct (on_stats_key env s "" add_DelOps Hwf) as (H0 & U0 & _). sstep H0.
  destruct (del_loop_view env keys _ (ku_wf _ _ _ _ _ _ U0)) as (n & s' & H & Hn & W & C & O & K).
  set (s0 := with_stats s _) in *.
  exists n, s'. split_and!; [done|apply Hn..|done| | |].
  - intros k Hk. split; [|rewrite O; by rewrite decide_True].
    unfold string_at. change (cache_hash (st_cache s') k) with (key_hash s' k).
    rewrite C, decide_True; [done|]. rewrite K. by apply list_elem_of_fmap_2.
  - intros k Hk. rewrite O. by rewrite decide_False.
  - intros k Hk. unfold string_at. change (cache_hash (st_cache s') k) with (key_hash s' k).
    rewrite C, K, decide_False; done.
Qed.

(** ** Commands that forget the other store *)

Lemma Set_objects env s key v ttl r s' :
  st_evictor s = None → Store_Set env key v ttl s = Some (r, s') → st_objects s' = st_objects s.
Proof.
  intros He H. unfold Store_Set, sbind, on_stats, try_evict in H. simpl in H. rewrite He in H.
  unfold cache_set, sbind, on_cache in H. simpl in H.
  destruct (ShardedCache_Set _ _ _ _ _) as [[e c]|]; [|done]. by injection H as _ <-.
Qed.

(** [SET] does not remove the object of its key: when the string's time to live
    has run out, the collection that was overwritten is back. *)
Theorem Set_resurrects_object env env' s key v ttl tv :
  store_wf s → st_evictor s = None → has_room (st_cache s) key (StringToBytes v) →
  0 < ttl → 0 < env_now env → is_i64 (env_now env + ttl) → env_now env + ttl < env_now env' →
  object_at env' s key = Some tv →
  ∃ s1, Store_Set env key v ttl s = Some (inr tt, s1) ∧
    (∃ s2, Store_Type env key s1 = Some ("string", s2)) ∧
    object_at env' s1 key = Some tv ∧ ∃ s2, Store_Get env' key s1 = Some (inl ErrWrongType, s2).
Proof.
  intros Hwf He Hroom Httl Hnow Hi Hlate Ho.
  destruct (Set_refines env s key v ttl Hwf He Hroom) as (s1 & H1 & U1).
  unfold str_spec in H1, U1. destruct (cell_read _ _ _) as [cur c0]. cbn [fst snd] in H1, U1.
  cbn [str_step] in H1. unfold smap, sbind in H1.
  destruct (Store_Set env key v ttl s) as [[r s1']|] eqn:HS; [|done]. injection H1 as Hr ->.
  destruct r as [|[]]; [done|]. exists s1. split; [done|].
  assert (object_at env' s1 key = Some tv) as Ho1.
  { rewrite <-Ho. unfold object_at. by rewrite (Set_objects _ _ _ _ _ _ _ He HS). }
  destruct (key_updated_here _ _ _ _ _ _ U1) as (W1 & C1 & _). split_and!; [|done|].
  - destruct (read_refines env s1 key TYPE W1 I) as (s2 & H2 & _). unfold str_spec in H2.
    rewrite C1 in H2. simpl in H2. rewrite bool_decide_eq_true_2 in H2 by done. simpl in H2.
    assert (expired (env_now env) (expire_at (env_now env) ttl) = false) as E.
    { unfold expired, expire_at. rewrite (proj2 (Z.ltb_lt 0 ttl)), i64_id by done. zcases; lia. }
    rewrite E in H2. unfold smap, sbind in H2. destruct (Store_Type env key s1) as [[n s2']|]; [|done].
    injection H2 as -> ->. by exists s2.
  - destruct (Get_refines env' s1 key W1) as (s2 & H2 & _). unfold str_spec in H2.
    rewrite C1, Ho1 in H2. simpl in H2. rewrite bool_decide_eq_true_2 in H2 by done. simpl in H2.
    assert (expired (env_now env') (expire_at (env_now env) ttl) = true) as E.
    { unfold expired, expire_at. rewrite (proj2 (Z.ltb_lt 0 ttl)), i64_id by done. zcases; lia. }
    rewrite E in H2. unfold smap, sbind in H2. destruct (Store_Get env' key s1) as [[n s2']|]; [|done].
    destruct n as [e|]; [|done]. injection H2 as -> ->. by exists s2.
Qed.

(** [INCRBY] does not look at the object of its key: it answers the increment and
    makes a counter beside the collection. *)
Theorem IncrBy_ignores_object env s key delta tv :
  store_wf s → is_i64 delta → key_cell s key = None → object_at env s key = Some tv →
  ∃ s', Store_IncrBy env key delta s = Some (inr delta, s') ∧ object_at env s' key = Some tv ∧
    key_cell s' key = Some (CInt (delta mod 2 ^ 63)).
Proof using GoRange0.
  intros Hwf Hd Hc Ho. destruct (IncrBy_refines env s key delta Hwf Hd) as (s' & H & U).
  unfold str_spec in H, U. rewrite Hc, Ho in H, U. cbn in H, U. rewrite i64_id in H, U by done.
  unfold smap, sbind in H. destruct (Store_IncrBy env key delta s) as [[r s1]|]; [|done].
  destruct r as [|n]; [done|]. injection H as -> ->. exists s'.
  destruct (key_updated_here _ _ _ _ _ _ U) as (_ & C & O). done.
Qed.

(** [SCAN] ends too early: when the strings fill the first reply exactly and no
    string is left, following the cursors gives the strings alone, whatever
    objects the dictionary holds. *)
Theorem Scan_misses_objects pm env s pattern count keys :
  0 < count → count ≤ Z.of_nat (length keys) →
  ShardedCache_Scan pm (env_now env) (st_cache s) 0
    (if bool_decide (pattern = "*") then "" else pattern) count = Some (keys, 0) →
  follow 1 (λ cursor, Store_Scan pm env s cursor pattern count) 0 = Some keys.
Proof.
  intros Hc Hk HS. cbn [follow]. unfold Store_Scan. rewrite (proj2 (Z.leb_gt count 0)) by lia.
  change (Z.land 0 scanPhaseFlag =? 0) with true. change (Z.land 0 (Z.ones 63)) with 0. cbn [negb].
  rewrite HS. cbn [mbind option_bind]. rewrite (proj2 (Z.leb_le count _)) by done. by rewrite ?app_nil_r.
Qed.
End keys.

(** ** On concrete stores *)

Section witnesses.
#[local] Instance ranges {K A} `{Countable K} : GoRange K A := listed_range.

Definition with_list : Store := one_object "k" (mkTyped TypeList (VList ["a"])).

Lemma wrong_type_rejected_witness :
  holds_other at_5 with_list "k" TypeZSet ∧
  ∃ s', obj_step at_5 "k" (OZSet ZCARD) with_list = Some (YZSet (ZErr ErrWrongType), s') ∧
    object_at at_5 s' "k" = Some (mkTyped TypeList (VList ["a"])).
Proof.
  assert (holds_other at_5 with_list "k" TypeZSet) as Ho.
  { right. exists (mkTyped TypeList (VList ["a"])). by split; [vm_compute|]. }
  split; [done|].
  destruct (wrong_type_rejected at_5 with_list "k" (OZSet ZCARD)) as (s' & H & _ & O); [apply one_object_wf|done|done|].
  exists s'. split; [done|]. rewrite O. by vm_compute.
Defined.

Lemma Del_removes_witness :
  ∃ n s', Store_Del ["k"; "x"] with_list = Some (n, s') ∧ object_at at_5 s' "k" = None.
Proof.
  destruct (Del_removes at_5 with_list ["k"; "x"] (one_object_wf _ _)) as (n & s' & H & _ & _ & D & _).
  exists n, s'. split; [done|]. apply D. by left.
Defined.

Lemma Set_resurrects_object_witness :
  ∃ s1, Store_Set at_5 "k" "v" 10 with_list = Some (inr tt, s1) ∧
    (∃ s2, Store_Type at_5 "k" s1 = Some ("string", s2)) ∧
    object_at (mkEnv 20 0) s1 "k" = Some (mkTyped TypeList (VList ["a"])) ∧
    ∃ s2, Store_Get (mkEnv 20 0) "k" s1 = Some (inl ErrWrongType, s2).
Proof.
  apply (Set_resurrects_object at_5 (mkEnv 20 0) with_list "k" "v" 10).
  - apply one_object_wf.
  - done.
  - apply small_room; vm_compute; lia.
  - lia.
  - simpl. lia.
  - unfold is_i64. simpl. lia.
  - simpl. lia.
  - by vm_compute.
Defined.

Lemma IncrBy_ignores_object_witness :
  ∃ s', Store_IncrBy at_5 "k" 3 with_list = Some (inr 3, s') ∧
    object_at at_5 s' "k" = Some (mkTyped TypeList (VList ["a"])) ∧ key_cell s' "k" = Some (CInt 3).
Proof.
  apply (IncrBy_ignores_object at_5 with_list "k" 3); [apply one_object_wf|unfold is_i64; lia|by vm_compute..].
Defined.

(** One string and one list: [SCAN 0 COUNT 1] ends without the list. *)
Definition scan_store : Store :=
  match Store_Set at_5 "s" "v" 0 (one_object "l" (mkTyped TypeList (VList ["a"]))) with
  | Some (_, s) => s
  | None => empty_store
  end.

Lemma Scan_misses_objects_witness :
  is_Some (object_at at_5 scan_store "l") ∧
  follow 1 (λ cursor, Store_Scan (λ _ _, true) at_5 scan_store cursor "*" 1) 0 = Some ["s"].
Proof.
  split; [eexists; by vm_compute|].
  apply (Scan_misses_objects (λ _ _, true) at_5 scan_store "*" 1 ["s"]); [lia|simpl; lia|by vm_compute].
Defined.
End witnesses.
