(* ===== verification/ExpirySpec.v ===== *)
(** * Active expiry

    One cycle of the expiry manager returns, whatever the store holds, and the
    only strings it deletes are those whose deadline is the very instant of the
    cycle: a string whose deadline has passed is filtered out of the sample and
    stays in memory until it is read. Objects past their deadline do go, as a
    side effect of looking up their time to live. *)

From S2P Require Import Prelude Strconv Scan RingBuf TinyLfu Dict Cache Store Objects StoreView ObjectSpec StringSpec.
From stdpp Require Import options.

Section expiry.
Context `{!GoRange Z Z} `{!GoRange string unit} `{!GoRange string (Entry typedValue)}.
Implicit Types (env : Env) (s : Store) (key : string).

(** ** The number of entries *)

Lemma Len_put_shard sc h sh sh' :
  cache_getShard sc h = Some sh →
  ShardedCache_Len (put_shard sc h sh') =
  ShardedCache_Len sc - Z.of_nat (size (zs_index sh)) + Z.of_nat (size (zs_index sh')).
Proof.
  unfold cache_getShard, ShardedCache_Len. cbn [put_shard sc_shards].
  generalize (cache_shard_index sc h) (sc_shards sc). intros i l. revert i.
  induction l as [|x l IH]; intros [|i] H; simplify_eq/=; [lia|]. rewrite (IH i H). lia.
Qed.

Lemma Delete_Len sc key b sc' :
  is_Some (cache_cell sc (cache_hash sc key)) → ShardedCache_Delete sc key = Some (b, sc') →
  ShardedCache_Len sc' = ShardedCache_Len sc - 1.
Proof.
  intros [c Hc]. unfold cache_cell in Hc. unfold ShardedCache_Delete.
  destruct (cache_getShard sc (cache_hash sc key)) as [sh|] eqn:Es; [|done]. simpl in Hc |- *.
  unfold shard_cell in Hc. destruct (zs_index sh !! cache_hash sc key) as [raw|] eqn:Er; [|done].
  intros [= <- <-]. unfold ShardedCache_Len. rewrite (proj1 (proj2 (slot_remove_same _ key))).
  fold (ShardedCache_Len (put_shard sc (cache_hash sc key) (put_index sh (delete (cache_hash sc key) (zs_index sh))))).
  rewrite (Len_put_shard _ _ sh) by done. cbn [put_index zs_index]. rewrite map_size_delete, Er.
  pose proof (map_size_ne_0_lookup_2 (zs_index sh) (cache_hash sc key) ltac:(eauto)). unfold ShardedCache_Len. lia.
Qed.

Lemma Len_nonneg sc : 0 ≤ ShardedCache_Len sc.
Proof. unfold ShardedCache_Len. induction (sc_shards sc); simpl; lia. Qed.

Lemma cell_deadline sc h k v e :
  cache_fresh sc → cache_cell sc h = Some (CEntry k v e) → is_i64 e.
Proof.
  intros Hf Hc. destruct (cache_getShard_Some sc h Hf) as (sh & Hs & Hsf). unfold cache_cell in Hc.
  rewrite Hs in Hc. cbn [mbind option_bind] in Hc. revert Hc. unfold shard_cell.
  destruct (zs_index sh !! h) as [raw|]; simpl; [|done]. destruct (isInlineInt raw); [done|].
  destruct (ReadAt _ _) as [|[[k' v'] hd]] eqn:HR; [done|]. intros [= _ _ <-].
  apply ReadAt_header in HR. unfold readHeaderAt in HR.
  destruct ((i64 raw <? 0) || _); [done|]. injection HR as <-. apply UnmarshalFrom_ok.
Qed.

(** ** Strings *)

(** The cells of [s'] are those of [s], less some whose deadline is [now]. *)
Definition expired_now (now : Z) (s s' : Store) : Prop :=
  ∀ h, cache_cell (st_cache s') h = cache_cell (st_cache s) h ∨
    ∃ k v, cache_cell (st_cache s) h = Some (CEntry k v now) ∧ cache_cell (st_cache s') h = None.

Lemma expired_now_refl now s : expired_now now s s.
Proof. intros h. by left. Qed.

Lemma expired_now_trans now s1 s2 s3 : expired_now now s1 s2 → expired_now now s2 s3 → expired_now now s1 s3.
Proof.
  intros H1 H2 h. destruct (H1 h) as [E1|(k & v & E1 & N1)], (H2 h) as [E2|(k' & v' & E2 & N2)].
  - left. congruence.
  - right. exists k', v'. split; congruence.
  - right. exists k, v. split; congruence.
  - congruence.
Qed.

(** What a round does to the cache: [n] entries fewer. *)
Record expiry_step (now : Z) (s s' : Store) (n : Z) : Prop := {
  es_wf : store_wf s';
  es_objects : st_objects s' = st_objects s;
  es_cells : expired_now now s s';
  es_count : 0 ≤ n ≤ ShardedCache_Len (st_cache s) - ShardedCache_Len (st_cache s')
}.

Lemma delete_due env s key :
  store_wf s → is_i64 (env_now env) →
  let '(ttl, ok) := cell_ttl (env_now env) (key_cell s key) in
  ok = true → ttl ≠ -1 → ttl ≤ 0 →
  ∃ s' b, on_cache (λ c, ShardedCache_Delete c key) s = Some (b, s') ∧ expiry_step (env_now env) s s' 1.
Proof.
  intros Hwf Hn. destruct (cell_ttl _ _) as [ttl ok] eqn:Et. intros -> Hne Hle.
  destruct (key_cell s key) as [[i|k v e]|] eqn:Ec; simpl in Et; [by simplify_eq| |by simplify_eq].
  assert (e = env_now env) as ->.
  { pose proof (cell_deadline _ _ _ _ _ (sw_cache _ Hwf) Ec) as Hi. unfold is_i64 in *.
    destruct (Z.eqb_spec e 0); [by simplify_eq|]. destruct (Z.ltb_spec (i64 (e - env_now env)) 0); simplify_eq.
    assert (i64 (e - env_now env) = 0) as E by lia. unfold i64 in E. Z.to_euclidean_division_equations. lia. }
  destruct (shard_of s key Hwf) as (sh & Hs & Hsf).
  destruct (Delete_spec (env_now env) (st_cache s) key sh (sw_cache _ Hwf) Hs Hsf) as (b & sc & HD & _ & HU).
  exists (with_cache s sc), b. unfold on_cache. rewrite HD. split; [done|]. split.
  - split; [apply HU|apply Hwf].
  - done.
  - intros h. cbn [with_cache st_cache]. rewrite (cu_cells _ _ _ _ HU). case_decide as E; [|by left].
    right. exists k, v. split; [|done]. by rewrite E.
  - cbn [with_cache st_cache].
    rewrite (Delete_Len (st_cache s) key b sc); [|by eexists|done]. lia.
Qed.

Lemma expiry_step_trans now s1 s2 s3 n m :
  expiry_step now s1 s2 n → expiry_step now s2 s3 m → expiry_step now s1 s3 (m + n).
Proof.
  intros [W1 O1 C1 N1] [W2 O2 C2 N2]. split; [done|congruence|by eapply expired_now_trans|lia].
Qed.

Lemma expire_cache_keys_step env keys s :
  store_wf s → is_i64 (env_now env) →
  ∃ n s', expire_cache_keys env keys s = Some (n, s') ∧ expiry_step (env_now env) s s' n.
Proof.
  intros Hwf Hn. revert s Hwf. induction keys as [|key keys IH]; intros s Hwf.
  { exists 0, s. split; [done|]. split; [done|done|apply expired_now_refl|lia]. }
  cbn [expire_cache_keys]. unfold sbind at 1, peek_cache.
  destruct (shard_of s key Hwf) as (sh & Hs & Hsf).
  rewrite (TTL_spec (env_now env) (st_cache s) key sh (sw_cache _ Hwf) Hs Hsf).
  pose proof (delete_due env s key Hwf Hn) as Hdue. fold (key_hash s key). fold (key_cell s key).
  destruct (cell_ttl _ _) as [ttl ok].
  destruct ok; simpl; [|by apply IH]. destruct (Z.eqb_spec ttl (-1)) as [->|Hne]; [by apply IH|].
  destruct (Z.leb_spec ttl 0) as [Hle|Hgt]; [|by apply IH].
  destruct Hdue as (s1 & b & H1 & E1); [done|done|done|]. sstep H1.
  destruct (IH s1) as (n & s2 & H2 & E2); [apply E1|]. sstep H2.
  exists (n + 1), s2. split; [done|]. by eapply expiry_step_trans.
Qed.

Lemma expire_cache_rounds_end env s fuel :
  store_wf s → is_i64 (env_now env) → ShardedCache_Len (st_cache s) < Z.of_nat fuel →
  ∃ n s', expire_cache_rounds fuel env s = Some (tt, s') ∧ expiry_step (env_now env) s s' n.
Proof.
  intros Hwf Hn. revert s Hwf. induction fuel as [|fuel IH]; intros s Hwf Hf;
    pose proof (Len_nonneg (st_cache s)); [lia|].
  cbn [expire_cache_rounds]. unfold sbind at 1, peek_cache.
  destruct (ShardedCache_RandomKeys _ _ _) as [|key keys].
  { exists 0, s. split; [done|]. split; [done|done|apply expired_now_refl|lia]. }
  destruct (expire_cache_keys_step env (key :: keys) s Hwf Hn) as (n & s1 & H1 & E1). sstep H1.
  unfold below_threshold. destruct (Z.ltb_spec (4 * n) (Z.of_nat (length (key :: keys)))) as [Hb|Hb].
  { by exists n, s1. }
  pose proof (es_count _ _ _ _ E1). simpl in Hb.
  destruct (IH s1) as (m & s2 & H2 & E2); [apply E1|lia|].
  exists (m + n), s2. split; [done|]. by eapply expiry_step_trans.
Qed.

(** ** Objects *)

(** The visible objects of [s'] are those of [s], less some with no time left. *)
Definition objects_due env (s s' : Store) : Prop :=
  ∀ k, object_at env s' k = object_at env s k ∨
    ∃ e, spec_live (env_now env) (dict_map (st_objects s)) k = Some e ∧
      i64 (e_expireAt e - env_now env) = 0 ∧ object_at env s' k = None.

Definition object_count s : Z := Z.of_nat (size (dict_map (st_objects s))).

Record object_step env (s s' : Store) (n : Z) : Prop := {
  os_wf : store_wf s';
  os_cells h : cache_cell (st_cache s') h = cache_cell (st_cache s) h;
  os_deadlines k :
    e_expireAt <$> spec_live (env_now env) (dict_map (st_objects s')) k =
      e_expireAt <$> spec_live (env_now env) (dict_map (st_objects s)) k ∨
    spec_live (env_now env) (dict_map (st_objects s')) k = None;
  os_objects : objects_due env s s';
  os_count : 0 ≤ n ≤ object_count s - object_count s'
}.

Lemma object_step_refl env s : store_wf s → object_step env s s 0.
Proof.
  intros Hwf. split; try done.
  - intros k. by left.
  - intros k. by left.
  - lia.
Qed.

Lemma object_step_trans env s1 s2 s3 n m :
  object_step env s1 s2 n → object_step env s2 s3 m → object_step env s1 s3 (m + n).
Proof.
  intros [W1 C1 D1 O1 N1] [W2 C2 D2 O2 N2]. split; [done|intros; by rewrite C2| | |lia].
  - intros k. destruct (D2 k) as [E|E]; [|by right].
    destruct (D1 k) as [E'|E']; [left; congruence|]. right. rewrite E' in E.
    by destruct (spec_live (env_now env) (dict_map (st_objects s3)) k).
  - intros k. destruct (O1 k) as [E1|(e & L1 & T1 & E1)], (O2 k) as [E2|(e' & L2 & T2 & E2)].
    + left. congruence.
    + right. destruct (D1 k) as [D|D]; [|congruence]. rewrite L2 in D. simpl in D.
      destruct (spec_live (env_now env) (dict_map (st_objects s1)) k) as [e|]; [|done].
      exists e. injection D as D. split_and!; [done|congruence|done].
    + right. exists e. split_and!; [done|done|congruence].
    + right. by exists e.
Qed.

Lemma size_spec_read now (m : gmap string (Entry typedValue)) k : (size (spec_read now m k) ≤ size m)%nat.
Proof.
  unfold spec_read. destruct (spec_live now m k) as [e|] eqn:E.
  - apply spec_live_not_expired in E as [E _]. by rewrite map_size_insert, E.
  - destruct (m !! k) eqn:Ek; [rewrite map_size_delete_Some by eauto; lia|by rewrite delete_id].
Qed.

Lemma spec_deadline_read now (m : gmap string (Entry typedValue)) key k :
  e_expireAt <$> spec_live now (spec_read now m key) k = e_expireAt <$> spec_live now m k.
Proof.
  unfold spec_read. destruct (spec_live now m key) as [e|] eqn:E.
  - apply spec_live_not_expired in E as [Em Ee]. rewrite spec_live_insert, IsExpired_stats, Ee.
    case_decide; [|done]. subst. unfold spec_live. rewrite Em. simpl. by rewrite Ee.
  - rewrite spec_live_delete. case_decide; [|done]. subst. by rewrite E.
Qed.

(** Looking up the time to live. *)
Lemma ttl_step env s key :
  store_wf s →
  ∃ ttl ok s', on_objects (λ d, Dict_TTL (env_now env) d key) s = Some ((ttl, ok), s') ∧
    object_step env s s' 0 ∧
    (ok = true → ttl ≠ -1 → ttl ≤ 0 →
     ∃ e, spec_live (env_now env) (dict_map (st_objects s')) key = Some e ∧
       i64 (e_expireAt e - env_now env) = 0).
Proof.
  intros Hwf. unfold on_objects, Dict_TTL.
  destruct (Dict_Get (env_now env) (st_objects s) key) as [o d'] eqn:E.
  apply Dict_Get_spec in E as (Hd' & Hm & ->); [|apply Hwf].
  assert (object_step env s (with_objects s d') 0) as Hstep.
  { split; [by split; [apply Hwf|]|done| | |].
    - intros k. left. cbn [with_objects st_objects]. rewrite Hm. apply spec_deadline_read.
    - intros k. left. unfold object_at. cbn [with_objects st_objects]. rewrite Hm. apply spec_live_read_value.
    - unfold object_count. cbn [with_objects st_objects]. rewrite Hm.
      pose proof (size_spec_read (env_now env) (dict_map (st_objects s)) key). lia. }
  destruct (spec_live _ _ key) as [e|] eqn:El; simpl; [|by eexists _, _, _].
  destruct (Z.eqb_spec (e_expireAt e) 0); [by eexists _, _, _|].
  destruct (Z.ltb_spec (i64 (e_expireAt e - env_now env)) 0); eexists _, _, _; (split; [done|]); (split; [done|]).
  - done.
  - intros _ _ Hle. exists (UpdateAccessStats (env_now env) e). split; [|simpl; lia].
    cbn [with_objects st_objects]. rewrite Hm. unfold spec_read. rewrite El, spec_live_insert, decide_True by done.
    apply spec_live_not_expired in El as [_ El]. by rewrite IsExpired_stats, El.
Qed.

(** Deleting an object that has no time left. *)
Lemma del_step env s key e :
  store_wf s → spec_live (env_now env) (dict_map (st_objects s)) key = Some e →
  i64 (e_expireAt e - env_now env) = 0 →
  ∃ n d, on_objects (λ d, Dict_Del d [key]) s = Some (n, with_objects s d) ∧ 0 < n ∧
    ∃ s', Store_untrackKey key (with_objects s d) = Some (tt, s') ∧ object_step env s s' 1.
Proof.
  intros Hwf Hl Ht. unfold on_objects. destruct (Dict_Del (st_objects s) [key]) as [n d'] eqn:E.
  apply Dict_Del_spec in E as (Hd' & Hm & Hn); [|apply Hwf].
  pose proof (spec_live_not_expired _ _ _ _ Hl) as [Hk _].
  assert (dict_map d' = delete key (dict_map (st_objects s))) as Hdel.
  { rewrite Hm. apply map_eq. intros i. apply option_eq. intros x.
    rewrite map_lookup_filter_Some, lookup_delete_Some. simpl. rewrite list_elem_of_singleton. naive_solver. }
  exists n, d'. split; [done|]. split.
  { rewrite Hn. apply elem_of_dom_2 in Hk.
    assert (size (filter (.∈ dom (dict_map (st_objects s))) (list_to_set [key] : gset string)) ≠ 0%nat); [|lia].
    intros H0. apply size_empty_inv in H0. set_solver. }
  eexists. split; [done|]. destruct (slot_remove_same (st_cache s) key) as (E1 & E2 & E3). split; simpl.
  - split; simpl; [|done]. destruct Hwf as [[F1 F2 F3 F4] _]. split; rewrite ?E2, ?E3; try done.
    rewrite <-F1. unfold slot_remove, slot_remove_keys. destruct (sc_slotFunc _); [|done].
    destruct (sc_slotIndex _ !! _); [|done]. by case_bool_decide.
  - intros h. unfold cache_cell, cache_getShard, cache_shard_index. by rewrite E2, E3.
  - intros k. rewrite Hdel, spec_live_delete. case_decide; [by right|by left].
  - intros k. unfold object_at. simpl. rewrite Hdel, spec_live_delete.
    case_decide; [subst|by left]. right. by exists e.
  - unfold object_count. simpl. rewrite Hdel, map_size_delete, Hk.
    pose proof (map_size_ne_0_lookup_2 (dict_map (st_objects s)) key ltac:(eauto)). lia.
Qed.

Lemma expire_object_keys_step env keys s :
  store_wf s → ∃ n s', expire_object_keys env keys s = Some (n, s') ∧ object_step env s s' n.
Proof.
  revert s. induction keys as [|key keys IH]; intros s Hwf.
  { exists 0, s. split; [done|by apply object_step_refl]. }
  cbn [expire_object_keys]. destruct (ttl_step env s key Hwf) as (ttl & ok & s1 & H1 & E1 & Hdue). sstep H1.
  assert (∃ n s', expire_object_keys env keys s1 = Some (n, s') ∧ object_step env s s' n) as Hskip.
  { destruct (IH s1) as (n & s2 & H2 & E2); [apply E1|]. exists n, s2. split; [done|].
    rewrite <-(Z.add_0_r n). by eapply object_step_trans. }
  destruct ok; [|done]. simpl. destruct (Z.eqb_spec ttl (-1)) as [|Hne]; [done|].
  destruct (Z.leb_spec ttl 0) as [Hle|]; [|done].
  destruct Hdue as (e & Hl & Ht); [done|done|done|].
  destruct (del_step env s1 key e) as (n & d & H2 & Hn & s2 & H3 & E2); [apply E1|done|done|]. sstep H2.
  rewrite (proj2 (Z.ltb_lt 0 n)) by done. sstep H3.
  destruct (IH s2) as (m & s3 & H4 & E3); [apply E2|]. sstep H4.
  exists (m + 1), s3. split; [done|]. rewrite <-(Z.add_0_r (m + 1)).
  eapply object_step_trans; [exact E1|]. by eapply object_step_trans.
Qed.

Lemma expire_object_rounds_end env s fuel :
  store_wf s → object_count s < Z.of_nat fuel →
  ∃ n s', expire_object_rounds fuel env s = Some (tt, s') ∧ object_step env s s' n.
Proof.
  revert s. induction fuel as [|fuel IH]; intros s Hwf Hf; unfold object_count in *; [lia|].
  cbn [expire_object_rounds]. unfold sbind at 1, on_objects. fold (with_objects s (st_objects s)).
  replace (with_objects s (st_objects s)) with s by by destruct s.
  destruct (default [] (Dict_RandomKeys _ _)) as [|key keys].
  { exists 0, s. split; [done|by apply object_step_refl]. }
  destruct (expire_object_keys_step env (key :: keys) s Hwf) as (n & s1 & H1 & E1). sstep H1.
  unfold below_threshold. destruct (Z.ltb_spec (4 * n) (Z.of_nat (length (key :: keys)))) as [Hb|Hb].
  { by exists n, s1. }
  pose proof (os_count _ _ _ _ E1) as Hc. unfold object_count in Hc. simpl in Hb.
  destruct (IH s1) as (m & s2 & H2 & E2); [apply E1|lia|].
  exists (m + n), s2. split; [done|]. by eapply object_step_trans.
Qed.

Lemma activeExpireCycle_effect env s fuel :
  store_wf s → is_i64 (env_now env) →
  ShardedCache_Len (st_cache s) < Z.of_nat fuel → Dict_Len (st_objects s) < Z.of_nat fuel →
  ∃ s', activeExpireCycle fuel env s = Some (tt, s') ∧ store_wf s' ∧
    expired_now (env_now env) s s' ∧ objects_due env s s'.
Proof.
  intros Hwf Hn Hc Ho. rewrite Dict_Len_spec in Ho by apply Hwf.
  destruct (expire_cache_rounds_end env s fuel Hwf Hn Hc) as (n & s1 & H1 & [W1 O1 C1 _]).
  destruct (expire_object_rounds_end env s1 fuel W1) as (m & s2 & H2 & [W2 C2 _ O2 _]).
  { unfold object_count. by rewrite O1. }
  exists s2. unfold activeExpireCycle. sstep H1. split_and!; [done|done| |].
  - intros h. rewrite C2. apply C1.
  - intros k. unfold objects_due, object_at in *. rewrite <-O1. apply O2.
Qed.

(** C32: A cycle of the expiry manager ends within as many rounds as there are
    entries, keeps the store well formed, and removes from sight nothing but
    entries whose remaining time is zero: no live key is lost. *)
Theorem activeExpireCycle_terminates env s fuel :
  store_wf s → is_i64 (env_now env) →
  ShardedCache_Len (st_cache s) < Z.of_nat fuel → Dict_Len (st_objects s) < Z.of_nat fuel →
  ∃ s', activeExpireCycle fuel env s = Some (tt, s') ∧ store_wf s' ∧
    expired_now (env_now env) s s' ∧ objects_due env s s'.
Proof. apply activeExpireCycle_effect. Qed.

(** Active expiry never frees an expired string: its cell is still there after
    the cycle. *)
Theorem active_expiry_keeps_expired_strings env s fuel h k v e :
  store_wf s → is_i64 (env_now env) →
  ShardedCache_Len (st_cache s) < Z.of_nat fuel → Dict_Len (st_objects s) < Z.of_nat fuel →
  cache_cell (st_cache s) h = Some (CEntry k v e) → e < env_now env →
  ∃ s', activeExpireCycle fuel env s = Some (tt, s') ∧ cache_cell (st_cache s') h = Some (CEntry k v e).
Proof.
  intros Hwf Hn Hc Ho Hcell He. destruct (activeExpireCycle_effect env s fuel Hwf Hn Hc Ho) as (s' & H & _ & C & _).
  exists s'. split; [done|]. destruct (C h) as [->|(k' & v' & E & _)]; [done|]. rewrite Hcell in E. simplify_eq. lia.
Qed.
End expiry.

Section witnesses.
#[local] Instance ranges {K A} `{Countable K} : GoRange K A := listed_range.

(** A string that expired at 15, looked at at 20. *)
Definition due_store : Store :=
  match Store_Set at_5 "s" "v" 10 (one_object "l" (mkTyped TypeList (VList ["a"]))) with
  | Some (_, s) => s
  | None => empty_store
  end.

Lemma due_store_wf : store_wf due_store.
Proof.
  destruct (Set_refines at_5 (one_object "l" (mkTyped TypeList (VList ["a"]))) "s" "v" 10) as (s' & H & U);
    [apply one_object_wf|done|apply small_room; vm_compute; lia|].
  unfold due_store. cbn [str_step] in H. unfold smap, sbind in H.
  destruct (Store_Set _ _ _ _ _) as [[r s1]|]; [|done]. injection H as _ ->. apply U.
Qed.

Lemma activeExpireCycle_terminates_witness :
  ∃ s', activeExpireCycle 5 (mkEnv 20 0) due_store = Some (tt, s') ∧ store_wf s'.
Proof.
  destruct (activeExpireCycle_terminates (mkEnv 20 0) due_store 5) as (s' & H & W & _).
  - apply due_store_wf.
  - unfold is_i64. simpl. lia.
  - by vm_compute.
  - by vm_compute.
  - by exists s'.
Defined.

Lemma active_expiry_keeps_expired_strings_witness :
  string_at (mkEnv 20 0) due_store "s" = None ∧
  ∃ s', activeExpireCycle 5 (mkEnv 20 0) due_store = Some (tt, s') ∧
    cache_cell (st_cache s') (key_hash due_store "s") = Some (CEntry "s" [x76] 15).
Proof.
  split; [by vm_compute|].
  apply (active_expiry_keeps_expired_strings (mkEnv 20 0) due_store 5 (key_hash due_store "s") "s" [x76] 15).
  - apply due_store_wf.
  - unfold is_i64. simpl. lia.
  - by vm_compute.
  - by vm_compute.
  - by vm_compute.
  - simpl. lia.
Defined.
End witnesses.
