(* ===== verification/Slots.v ===== *)
(** * The slot table of a cluster node: [internal/cluster/slots.go]

    Every node keeps, for each of the 16384 slots, its owner, its replication
    state and its migration state, and an index from nodes to the slots they own.
    An operation that indexes the array out of range panics ([None]); errors are
    the left values of a sum. *)

From S2P Require Import Prelude Hash.
From stdpp Require Import options.

(** ** State *)

Inductive SlotState := SlotStateNormal | SlotStateImporting | SlotStateExporting.

#[global] Instance SlotState_eq_dec : EqDecision SlotState.
Proof. solve_decision. Defined.

Record SlotReplica := mkReplica { sr_NodeID : string; sr_MatchLSN : Z; sr_Healthy : bool }.

#[global] Instance SlotReplica_eq_dec : EqDecision SlotReplica.
Proof. solve_decision. Defined.

Record SlotInfo := mkSlot {
  si_State : SlotState;
  si_NodeID : string;
  si_PrimaryID : string;
  si_Replicas : list SlotReplica;
  si_ConfigEpoch : Z;
  si_NextLSN : Z;
  si_Importing : string;
  si_Exporting : string
}.

(** [stateManager] is nil, or carries its dirty flag. *)
Record SlotManager := mkSlots {
  sm_slots : list SlotInfo;
  sm_nodeSlots : gmap string (list Z);
  sm_stateManager : option bool
}.

Inductive SlotError :=
  | ErrInvalidSlot (slot : Z)
  | ErrSlotNotAssigned (slot : Z)
  | ErrReplicaNotFound (nodeID : string) (slot : Z)
  | ErrInvalidIDs.

Definition freshSlot : SlotInfo := mkSlot SlotStateNormal "" "" [] 0 0 "" "".

Definition NewSlotManager : SlotManager := mkSlots (replicate (Z.to_nat SlotCount) freshSlot) ∅ None.

Definition SetStateManager (sm : SlotManager) : SlotManager :=
  mkSlots (sm_slots sm) (sm_nodeSlots sm) (Some false).

Definition markDirty (sm : SlotManager) : SlotManager :=
  mkSlots (sm_slots sm) (sm_nodeSlots sm) ((λ _, true) <$> sm_stateManager sm).

(** [sm.slots[slot]] *)
Definition slot_at (sm : SlotManager) (slot : Z) : option SlotInfo := sm_slots sm !! Z.to_nat slot.

Definition put_slot (sm : SlotManager) (slot : Z) (info : SlotInfo) : SlotManager :=
  mkSlots (<[Z.to_nat slot := info]> (sm_slots sm)) (sm_nodeSlots sm) (sm_stateManager sm).

Definition put_nodeSlots (sm : SlotManager) (m : gmap string (list Z)) : SlotManager :=
  mkSlots (sm_slots sm) m (sm_stateManager sm).

(** [sm.nodeSlots[nodeID]]: nil when absent. *)
Definition node_slots (sm : SlotManager) (nodeID : string) : list Z :=
  default [] (sm_nodeSlots sm !! nodeID).

(** ** The index *)

(** Remove the first occurrence. *)
Fixpoint remove_first (slot : Z) (slots : list Z) : list Z :=
  match slots with
  | [] => []
  | s :: slots' => if s =? slot then slots' else s :: remove_first slot slots'
  end.

(** The map is assigned only when the slot is found. *)
Definition removeSlotFromNode (sm : SlotManager) (nodeID : string) (slot : Z) : SlotManager :=
  let slots := node_slots sm nodeID in
  if bool_decide (slot ∈ slots)
  then put_nodeSlots sm (<[nodeID := remove_first slot slots]> (sm_nodeSlots sm))
  else sm.

Definition append_slot (sm : SlotManager) (nodeID : string) (slot : Z) : SlotManager :=
  put_nodeSlots sm (<[nodeID := node_slots sm nodeID ++ [slot]]> (sm_nodeSlots sm)).

Definition set_NodeID (nodeID : string) (i : SlotInfo) : SlotInfo :=
  mkSlot (si_State i) nodeID (si_PrimaryID i) (si_Replicas i) (si_ConfigEpoch i) (si_NextLSN i)
    (si_Importing i) (si_Exporting i).

Definition setOwnerLocked (sm : SlotManager) (slot : Z) (nodeID : string) : option SlotManager :=
  info ← slot_at sm slot;
  let oldNodeID := si_NodeID info in
  let sm := if negb (bool_decide (oldNodeID = "")) && negb (bool_decide (oldNodeID = nodeID))
            then removeSlotFromNode sm oldNodeID slot else sm in
  let sm := put_slot sm slot (set_NodeID nodeID info) in
  if bool_decide (nodeID = "") then Some sm
  else if bool_decide (slot ∈ node_slots sm nodeID) then Some sm
  else Some (append_slot sm nodeID slot).

(** ** Ownership *)

Definition AssignSlot (sm : SlotManager) (slot : Z) (nodeID : string) : option ((SlotError + unit) * SlotManager) :=
  if SlotCount <=? slot then Some (inl (ErrInvalidSlot slot), sm)
  else
    info ← slot_at sm slot;
    let oldNodeID := si_NodeID info in
    let sm := if negb (bool_decide (oldNodeID = "")) then removeSlotFromNode sm oldNodeID slot else sm in
    let sm := put_slot sm slot
      (mkSlot SlotStateNormal nodeID nodeID [] (si_ConfigEpoch info) (si_NextLSN info)
         (si_Importing info) (si_Exporting info)) in
    Some (inr tt, markDirty (append_slot sm nodeID slot)).

(** [for slot := start; slot <= end; slot++] over [uint16]; the fuel bounds the
    iterations. *)
Fixpoint assign_loop (fuel : nat) (sm : SlotManager) (slot last : Z) (nodeID : string)
    : option ((SlotError + unit) * SlotManager) :=
  match fuel with
  | O => None
  | S fuel' =>
      if slot <=? last then
        r ← AssignSlot sm slot nodeID;
        match r with
        | (inl e, sm') => Some (inl e, sm')
        | (inr _, sm') => assign_loop fuel' sm' (u16 (slot + 1)) last nodeID
        end
      else Some (inr tt, sm)
  end.

Definition AssignSlotRange (sm : SlotManager) (start last : Z) (nodeID : string)
    : option ((SlotError + unit) * SlotManager) :=
  assign_loop (Z.to_nat SlotCount + 1) sm start last nodeID.

Definition set_ConfigEpoch (epoch : Z) (i : SlotInfo) : SlotInfo :=
  mkSlot (si_State i) (si_NodeID i) (si_PrimaryID i) (si_Replicas i) epoch (si_NextLSN i)
    (si_Importing i) (si_Exporting i).

Definition SetSlotConfigEpoch (sm : SlotManager) (slot epoch : Z) : SlotManager :=
  markDirty (match slot_at sm slot with
             | Some info => put_slot sm slot (set_ConfigEpoch epoch info)
             | None => sm
             end).

Definition GetSlotInfo (sm : SlotManager) (slot : Z) : option SlotInfo :=
  if SlotCount <=? slot then None else slot_at sm slot.

Definition GetSlotNode (sm : SlotManager) (slot : Z) : string :=
  match GetSlotInfo sm slot with Some info => si_NodeID info | None => "" end.

Definition GetSlotConfigEpoch (sm : SlotManager) (slot : Z) : Z :=
  match GetSlotInfo sm slot with Some info => si_ConfigEpoch info | None => 0 end.

Definition GetKeyNode (sm : SlotManager) (key : string) : string :=
  GetSlotNode sm (KeySlot key).

Definition GetNodeSlots (sm : SlotManager) (nodeID : string) : list Z := node_slots sm nodeID.

(** ** Replication *)

Definition set_Replicas (replicas : list SlotReplica) (i : SlotInfo) : SlotInfo :=
  mkSlot (si_State i) (si_NodeID i) (si_PrimaryID i) replicas (si_ConfigEpoch i) (si_NextLSN i)
    (si_Importing i) (si_Exporting i).

Definition ConfigureReplication (sm : SlotManager) (slot : Z) (primaryID : string)
    (replicaIDs : list string) (epoch : Z) : option ((SlotError + unit) * SlotManager) :=
  if SlotCount <=? slot then Some (inl (ErrInvalidSlot slot), sm)
  else
    sm ← setOwnerLocked sm slot primaryID;
    info ← slot_at sm slot;
    let ids := filter (λ id, id ≠ "" ∧ id ≠ primaryID) replicaIDs in
    Some (inr tt, markDirty (put_slot sm slot
      (mkSlot (si_State info) (si_NodeID info) primaryID ((λ id, mkReplica id 0 true) <$> ids) epoch
         (si_NextLSN info) (si_Importing info) (si_Exporting info)))).

(** The slot has [replicaID] among its replicas. *)
Definition has_replica (info : SlotInfo) (replicaID : string) : bool :=
  existsb (λ r, bool_decide (sr_NodeID r = replicaID)) (si_Replicas info).

Definition AddSlotReplica (sm : SlotManager) (slot : Z) (replicaID : string) : option SlotManager :=
  if (SlotCount <=? slot) || bool_decide (replicaID = "") then Some sm
  else
    info ← slot_at sm slot;
    if bool_decide (si_NodeID info = "") then Some sm
    else if has_replica info replicaID then Some sm
    else Some (markDirty (put_slot sm slot
           (set_Replicas (si_Replicas info ++ [mkReplica replicaID 0 true]) info))).

(** The body of the loop of [AddReplicaToMaster] for a slot the master owns.
    [r.Healthy = true] assigns to the loop's copy of the replica. *)
Definition add_replica (masterID replicaID : string) (epoch : Z) (info : SlotInfo) : SlotInfo :=
  mkSlot (si_State info) (si_NodeID info) masterID
    (if has_replica info replicaID then si_Replicas info
     else si_Replicas info ++ [mkReplica replicaID 0 true])
    epoch (si_NextLSN info) (si_Importing info) (si_Exporting info).

Definition owned_by (nodeID : string) (info : SlotInfo) : Prop := si_NodeID info = nodeID.
#[global] Instance owned_by_dec nodeID info : Decision (owned_by nodeID info) := decide (si_NodeID info = nodeID).

Definition AddReplicaToMaster (sm : SlotManager) (masterID replicaID : string) (epoch : Z)
    : (SlotError + Z) * SlotManager :=
  if bool_decide (masterID = "") || bool_decide (replicaID = "") || bool_decide (masterID = replicaID)
  then (inl ErrInvalidIDs, sm)
  else
    let slots := (λ info, if decide (owned_by masterID info) then add_replica masterID replicaID epoch info
                          else info) <$> sm_slots sm in
    let count := Z.of_nat (length (filter (owned_by masterID) (sm_slots sm))) in
    let sm' := mkSlots slots (sm_nodeSlots sm) (sm_stateManager sm) in
    (inr count, if 0 <? count then markDirty sm' else sm').

Definition set_NextLSN (lsn : Z) (i : SlotInfo) : SlotInfo :=
  mkSlot (si_State i) (si_NodeID i) (si_PrimaryID i) (si_Replicas i) (si_ConfigEpoch i) lsn
    (si_Importing i) (si_Exporting i).

Definition AllocateLSN (sm : SlotManager) (slot : Z) : option ((SlotError + Z * Z) * SlotManager) :=
  if SlotCount <=? slot then Some (inl (ErrInvalidSlot slot), sm)
  else
    info ← slot_at sm slot;
    if bool_decide (si_NodeID info = "") then Some (inl (ErrSlotNotAssigned slot), sm)
    else
      let lsn := u64 (si_NextLSN info + 1) in
      Some (inr (si_ConfigEpoch info, lsn), markDirty (put_slot sm slot (set_NextLSN lsn info))).

(** Raise the LSN of the first replica with this id and mark it healthy. *)
Fixpoint update_replica (nodeID : string) (lsn : Z) (replicas : list SlotReplica) : option (list SlotReplica) :=
  match replicas with
  | [] => None
  | r :: replicas' =>
      if bool_decide (sr_NodeID r = nodeID)
      then Some (mkReplica nodeID (if sr_MatchLSN r <? lsn then lsn else sr_MatchLSN r) true :: replicas')
      else (λ l, r :: l) <$> update_replica nodeID lsn replicas'
  end.

Definition UpdateReplicaLSN (sm : SlotManager) (slot : Z) (nodeID : string) (lsn : Z)
    : option ((SlotError + unit) * SlotManager) :=
  if SlotCount <=? slot then Some (inl (ErrInvalidSlot slot), sm)
  else
    info ← slot_at sm slot;
    match update_replica nodeID lsn (si_Replicas info) with
    | Some replicas => Some (inr tt, markDirty (put_slot sm slot (set_Replicas replicas info)))
    | None => Some (inl (ErrReplicaNotFound nodeID slot), sm)
    end.

Definition PromoteReplica (sm : SlotManager) (slot : Z) (nodeID : string)
    : option ((SlotError + unit) * SlotManager) :=
  if SlotCount <=? slot then Some (inl (ErrInvalidSlot slot), sm)
  else
    info ← slot_at sm slot;
    let remaining := filter (λ r, sr_NodeID r ≠ nodeID) (si_Replicas info) in
    match last (filter (λ r, sr_NodeID r = nodeID) (si_Replicas info)) with
    | None => Some (inl (ErrReplicaNotFound nodeID slot), sm)
    | Some promoted =>
        let oldPrimary := if bool_decide (si_PrimaryID info = "") then si_NodeID info else si_PrimaryID info in
        let remaining :=
          if negb (bool_decide (oldPrimary = "")) && negb (bool_decide (oldPrimary = nodeID))
          then remaining ++ [mkReplica oldPrimary 0 true] else remaining in
        sm ← setOwnerLocked sm slot nodeID;
        info ← slot_at sm slot;
        Some (inr tt, markDirty (put_slot sm slot
          (mkSlot (si_State info) (si_NodeID info) nodeID remaining (u64 (si_ConfigEpoch info + 1))
             (if si_NextLSN info <? sr_MatchLSN promoted then sr_MatchLSN promoted else si_NextLSN info)
             (si_Importing info) (si_Exporting info))))
    end.

(** ** Migration *)

Definition SetImporting (sm : SlotManager) (slot : Z) (fromNodeID : string) : option SlotManager :=
  i ← slot_at sm slot;
  Some (markDirty (put_slot sm slot (mkSlot SlotStateImporting (si_NodeID i) (si_PrimaryID i) (si_Replicas i)
          (si_ConfigEpoch i) (si_NextLSN i) fromNodeID (si_Exporting i)))).

Definition SetExporting (sm : SlotManager) (slot : Z) (toNodeID : string) : option SlotManager :=
  i ← slot_at sm slot;
  Some (markDirty (put_slot sm slot (mkSlot SlotStateExporting (si_NodeID i) (si_PrimaryID i) (si_Replicas i)
          (si_ConfigEpoch i) (si_NextLSN i) (si_Importing i) toNodeID))).

Definition SetStable (sm : SlotManager) (slot : Z) : option SlotManager :=
  i ← slot_at sm slot;
  let primary := if bool_decide (si_PrimaryID i = "") then si_NodeID i else si_PrimaryID i in
  Some (markDirty (put_slot sm slot (mkSlot SlotStateNormal (si_NodeID i) primary (si_Replicas i)
          (si_ConfigEpoch i) (si_NextLSN i) "" ""))).

Definition FinishMigration (sm : SlotManager) (slot : Z) (newNodeID : string) : option SlotManager :=
  sm ← setOwnerLocked sm slot newNodeID;
  i ← slot_at sm slot;
  Some (markDirty (put_slot sm slot (mkSlot SlotStateNormal (si_NodeID i) newNodeID (si_Replicas i)
          (si_ConfigEpoch i) (si_NextLSN i) "" ""))).

(** ** Views *)

Record SlotRange := mkRange { rg_Start : Z; rg_End : Z; rg_NodeID : string }.

Fixpoint cluster_slots_loop (i : Z) (slots : list SlotInfo) (ranges : list SlotRange)
    (current : option SlotRange) : list SlotRange :=
  match slots with
  | [] => ranges ++ option_list current
  | info :: slots' =>
      let nodeID := si_NodeID info in
      if bool_decide (nodeID = "") then cluster_slots_loop (i + 1) slots' (ranges ++ option_list current) None
      else
        match current with
        | Some c =>
            if bool_decide (rg_NodeID c = nodeID)
            then cluster_slots_loop (i + 1) slots' ranges (Some (mkRange (rg_Start c) i nodeID))
            else cluster_slots_loop (i + 1) slots' (ranges ++ [c]) (Some (mkRange i i nodeID))
        | None => cluster_slots_loop (i + 1) slots' ranges (Some (mkRange i i nodeID))
        end
  end.

Definition GetClusterSlots (sm : SlotManager) : list SlotRange := cluster_slots_loop 0 (sm_slots sm) [] None.

Definition CountAssigned (sm : SlotManager) : Z :=
  Z.of_nat (length (filter (λ info, si_NodeID info ≠ "") (sm_slots sm))).

Definition GetSlotMapSnapshot (sm : SlotManager) : list string := si_NodeID <$> sm_slots sm.

Record MigrationState := mkMigration { mg_Source : string; mg_Target : string; mg_State : string }.

Record SlotReplicaSet := mkReplicaSet {
  rs_PrimaryID : string;
  rs_Replicas : list SlotReplica;
  rs_ConfigEpoch : Z;
  rs_NextLSN : Z
}.

(** The entries of a map keyed by slot number. *)
Definition slot_map {A} (f : SlotInfo → option A) (slots : list SlotInfo) : gmap Z A :=
  list_to_map (omap (λ '(i, info), (λ a, (Z.of_nat i, a)) <$> f info) (imap pair slots)).

Definition migration_of (info : SlotInfo) : option MigrationState :=
  match si_State info with
  | SlotStateImporting => Some (mkMigration (si_Importing info) (si_NodeID info) "importing")
  | SlotStateExporting => Some (mkMigration (si_NodeID info) (si_Exporting info) "exporting")
  | SlotStateNormal => None
  end.

Definition GetMigratingSlots (sm : SlotManager) : gmap Z MigrationState := slot_map migration_of (sm_slots sm).

Definition replication_of (info : SlotInfo) : option SlotReplicaSet :=
  if bool_decide (si_PrimaryID info = "") && bool_decide (si_Replicas info = []) &&
     (si_ConfigEpoch info =? 0) && (si_NextLSN info =? 0) then None
  else Some (mkReplicaSet (si_PrimaryID info) (si_Replicas info) (si_ConfigEpoch info) (si_NextLSN info)).

Definition GetSlotReplicationState (sm : SlotManager) : gmap Z SlotReplicaSet :=
  slot_map replication_of (sm_slots sm).

(** ** Restoring a saved state *)

Section restore.
Context `{!GoRange Z MigrationState} `{!GoRange Z SlotReplicaSet}.

Definition restore_owner (sm : SlotManager) (entry : nat * string) : SlotManager :=
  let '(i, nodeID) := entry in
  if bool_decide (nodeID = "") then sm
  else append_slot (put_slot sm (Z.of_nat i) (mkSlot SlotStateNormal nodeID nodeID [] 0 0 "" "")) nodeID (Z.of_nat i).

Definition restore_replicas (sm : SlotManager) (entry : Z * SlotReplicaSet) : option SlotManager :=
  let '(slot, rs) := entry in
  if SlotCount <=? slot then Some sm
  else
    sm ← (if bool_decide (rs_PrimaryID rs = "") then Some sm
          else sm ← setOwnerLocked sm slot (rs_PrimaryID rs);
               info ← slot_at sm slot;
               Some (put_slot sm slot (mkSlot (si_State info) (si_NodeID info) (rs_PrimaryID rs) (si_Replicas info)
                 (si_ConfigEpoch info) (si_NextLSN info) (si_Importing info) (si_Exporting info))));
    info ← slot_at sm slot;
    Some (put_slot sm slot (mkSlot (si_State info) (si_NodeID info) (si_PrimaryID info) (rs_Replicas rs)
      (rs_ConfigEpoch rs) (rs_NextLSN rs) (si_Importing info) (si_Exporting info))).

Definition restore_migration (sm : SlotManager) (entry : Z * MigrationState) : option SlotManager :=
  let '(slot, mg) := entry in
  if bool_decide (mg_State mg = "importing") then
    i ← slot_at sm slot;
    Some (put_slot sm slot (mkSlot SlotStateImporting (si_NodeID i) (si_PrimaryID i) (si_Replicas i)
      (si_ConfigEpoch i) (si_NextLSN i) (mg_Source mg) (si_Exporting i)))
  else if bool_decide (mg_State mg = "exporting") then
    i ← slot_at sm slot;
    Some (put_slot sm slot (mkSlot SlotStateExporting (si_NodeID i) (si_PrimaryID i) (si_Replicas i)
      (si_ConfigEpoch i) (si_NextLSN i) (si_Importing i) (mg_Target mg)))
  else Some sm.

(** A loop whose body may panic. *)
Fixpoint loop {S A} (body : S → A → option S) (s : S) (l : list A) : option S :=
  match l with
  | [] => Some s
  | a :: l' => s' ← body s a; loop body s' l'
  end.

Definition RestoreFromState (sm : SlotManager) (slotMap : list string)
    (migrations : gmap Z MigrationState) (replicas : gmap Z SlotReplicaSet) : option SlotManager :=
  let sm := mkSlots (replicate (Z.to_nat SlotCount) freshSlot) ∅ (sm_stateManager sm) in
  let sm := foldl restore_owner sm (imap pair slotMap) in
  sm ← loop restore_replicas sm (go_range replicas);
  loop restore_migration sm (go_range migrations).
End restore.

(** ** Failover: [internal/cluster/failover/manager.go] *)

(** The scan for the healthy replica with the highest LSN; [""] is none yet. *)
Fixpoint best_replica (replicas : list SlotReplica) (bestNode : string) (bestLSN : Z) : string :=
  match replicas with
  | [] => bestNode
  | r :: replicas' =>
      if negb (sr_Healthy r) then best_replica replicas' bestNode bestLSN
      else if bool_decide (bestNode = "") || (bestLSN <? sr_MatchLSN r)
      then best_replica replicas' (sr_NodeID r) (sr_MatchLSN r)
      else best_replica replicas' bestNode bestLSN
  end.

Inductive FailoverError := ErrSlotNotFound (slot : Z) | ErrNoHealthyReplica (slot : Z) | ErrSlots (e : SlotError).

Definition SelectBestReplica (sm : SlotManager) (slot : Z) : FailoverError + string :=
  match GetSlotInfo sm slot with
  | None => inl (ErrSlotNotFound slot)
  | Some info =>
      let best := best_replica (si_Replicas info) "" 0 in
      if bool_decide (best = "") then inl (ErrNoHealthyReplica slot) else inr best
  end.

(** The primary of a slot: [PrimaryID], or the owner when it is empty. *)
Definition primary_of (info : SlotInfo) : string :=
  if bool_decide (si_PrimaryID info = "") then si_NodeID info else si_PrimaryID info.

(** What the hooks are called with: the new primary and the stale one. *)
Inductive failover_event := Broadcast (slot : Z) (newPrimary : string) | FailClosed (slot : Z) (stalePrimary : string).

Definition PromoteBestReplica (sm : SlotManager) (slot : Z)
    : option ((FailoverError + string) * SlotManager * list failover_event) :=
  match SelectBestReplica sm slot with
  | inl e => Some (inl e, sm, [])
  | inr best =>
      let stalePrimary := match GetSlotInfo sm slot with Some info => primary_of info | None => "" end in
      r ← PromoteReplica sm slot best;
      match r with
      | (inl e, sm') => Some (inl (ErrSlots e), sm', [])
      | (inr _, sm') =>
          Some (inr best, sm',
            Broadcast slot best ::
            if negb (bool_decide (stalePrimary = "")) && negb (bool_decide (stalePrimary = best))
            then [FailClosed slot stalePrimary] else [])
      end
  end.

Definition CanNodeServeWrites (sm : SlotManager) (slot : Z) (nodeID : string) : bool :=
  match GetSlotInfo sm slot with
  | None => false
  | Some info => negb (bool_decide (primary_of info = "")) && bool_decide (primary_of info = nodeID)
  end.
