(* ===== verification/SlotsSpec.v ===== *)
(** * The slot table keeps its two views consistent

    The array of slots and the index from nodes to slots always agree; the
    operations never lose this, and a saved state restores to the table it was
    taken from. *)

From S2P Require Import Prelude Hash Slots.
From stdpp Require Import options.

Definition valid_slot (slot : Z) : Prop := 0 ≤ slot < SlotCount.

(** The node [n] owns [slot]. *)
Definition owns (sm : SlotManager) (n : string) (slot : Z) : Prop :=
  0 ≤ slot ∧ si_NodeID <$> slot_at sm slot = Some n.

(** The index of every node lists exactly the slots it owns, each once. *)
Record index_ok (sm : SlotManager) : Prop := {
  ix_length : length (sm_slots sm) = Z.to_nat SlotCount;
  ix_owns n slot : n ≠ "" → slot ∈ node_slots sm n ↔ owns sm n slot;
  ix_nodup n : n ≠ "" → NoDup (node_slots sm n)
}.

(** Moreover the primary of every slot is its owner. *)
Record slots_wf (sm : SlotManager) : Prop := {
  sl_index : index_ok sm;
  sl_primary slot info : 0 ≤ slot → slot_at sm slot = Some info → si_PrimaryID info = si_NodeID info
}.

(** ** Lookups *)

Lemma slot_at_Some sm slot : index_ok sm → valid_slot slot → is_Some (slot_at sm slot).
Proof. intros Hi [H0 H1]. apply lookup_lt_is_Some. rewrite (ix_length _ Hi). lia. Qed.

Lemma slot_at_put sm slot info slot' :
  index_ok sm → valid_slot slot → 0 ≤ slot' →
  slot_at (put_slot sm slot info) slot' = if decide (slot' = slot) then Some info else slot_at sm slot'.
Proof.
  intros Hi [H0 H1] Hs. unfold slot_at, put_slot. simpl. case_decide as E.
  - subst. apply list_lookup_insert_eq. rewrite (ix_length _ Hi). lia.
  - apply list_lookup_insert_ne. lia.
Qed.

Lemma slot_at_valid sm slot info : index_ok sm → 0 ≤ slot → slot_at sm slot = Some info → valid_slot slot.
Proof.
  intros Hi H0 Hs. apply lookup_lt_Some in Hs. rewrite (ix_length _ Hi) in Hs.
  unfold valid_slot, SlotCount in *. lia.
Qed.

Lemma owns_put sm slot info n slot' :
  index_ok sm → valid_slot slot →
  owns (put_slot sm slot info) n slot' ↔
  if decide (slot' = slot) then si_NodeID info = n else owns sm n slot'.
Proof.
  intros Hi Hv. unfold owns. destruct (decide (0 ≤ slot')) as [H0|H0].
  - rewrite slot_at_put by done. case_decide; subst; simpl; [|done]. destruct Hv. split; [by intros [_ [= <-]]|].
    intros <-. done.
  - case_decide; [destruct Hv; lia|]. split; by intros [].
Qed.

Lemma node_slots_markDirty sm n : node_slots (markDirty sm) n = node_slots sm n.
Proof. done. Qed.

Lemma slot_at_markDirty sm slot : slot_at (markDirty sm) slot = slot_at sm slot.
Proof. done. Qed.

Lemma index_ok_dirty sm : index_ok sm → index_ok (markDirty sm).
Proof. intros []. by split. Qed.

Lemma slots_wf_dirty sm : slots_wf sm → slots_wf (markDirty sm).
Proof. intros []. split; [by apply index_ok_dirty|done]. Qed.

Create HintDb slots.
#[export] Hint Resolve index_ok_dirty slots_wf_dirty : slots.

(** Replacing a slot without moving it. *)
Lemma put_same_owner sm slot info info' :
  index_ok sm → valid_slot slot → slot_at sm slot = Some info → si_NodeID info' = si_NodeID info →
  index_ok (put_slot sm slot info').
Proof.
  intros Hi Hv Hs Hn. split.
  - simpl. by rewrite length_insert, (ix_length _ Hi).
  - intros n slot' Hne. change (node_slots (put_slot sm slot info') n) with (node_slots sm n).
    rewrite (ix_owns _ Hi) by done. rewrite owns_put by done. case_decide; [subst|done].
    unfold owns. rewrite Hs, Hn. simpl. destruct Hv. naive_solver.
  - apply Hi.
Qed.

Lemma put_same_wf sm slot info info' :
  slots_wf sm → valid_slot slot → slot_at sm slot = Some info →
  si_NodeID info' = si_NodeID info → si_PrimaryID info' = si_PrimaryID info →
  slots_wf (put_slot sm slot info').
Proof.
  intros [Hi Hp] Hv Hs Hn Hpr. split; [by eapply put_same_owner|]. intros slot' i H0.
  rewrite slot_at_put by done. case_decide; [|by apply Hp]. intros [= <-]. rewrite Hpr, Hn.
  apply (Hp slot); [apply Hv|done].
Qed.

(** ** The index operations *)

Lemma elem_of_remove_first x y l : NoDup l → x ∈ remove_first y l ↔ x ≠ y ∧ x ∈ l.
Proof.
  induction 1 as [|z l Hz Hnd IH]; simpl; [split; [by intros ?%not_elem_of_nil|by intros [_ ?%not_elem_of_nil]]|].
  destruct (Z.eqb_spec z y) as [->|Hne].
  - rewrite elem_of_cons. split; [|naive_solver]. intros Hx. split; [|by right]. by intros ->.
  - rewrite !elem_of_cons, IH. naive_solver.
Qed.

Lemma NoDup_remove_first y l : NoDup l → NoDup (remove_first y l).
Proof.
  induction 1 as [|z l Hz Hnd IH]; simpl; [constructor|].
  destruct (Z.eqb_spec z y); [done|]. constructor; [|done]. rewrite elem_of_remove_first by done. naive_solver.
Qed.

Lemma node_slots_put sm n l n' :
  node_slots (put_nodeSlots sm (<[n := l]> (sm_nodeSlots sm))) n' = if decide (n' = n) then l else node_slots sm n'.
Proof.
  unfold node_slots, put_nodeSlots. simpl. case_decide; subst.
  - by rewrite lookup_insert_eq.
  - by rewrite lookup_insert_ne.
Qed.

Lemma node_slots_remove sm n slot n' :
  NoDup (node_slots sm n) →
  (∀ x, x ∈ node_slots (removeSlotFromNode sm n slot) n' ↔
        x ∈ node_slots sm n' ∧ (n' = n → x ≠ slot)) ∧
  (NoDup (node_slots sm n') → NoDup (node_slots (removeSlotFromNode sm n slot) n')).
Proof.
  intros Hnd. unfold removeSlotFromNode. case_bool_decide as Hin.
  - split.
    + intros x. rewrite node_slots_put. case_decide; subst; [rewrite elem_of_remove_first by done|]; naive_solver.
    + intros H. rewrite node_slots_put. case_decide; subst; [by apply NoDup_remove_first|done].
  - split; [|done]. intros x. naive_solver.
Qed.

(** Moving a slot: the array gets the new entry, the index follows. *)
Lemma move_slot sm slot info info' n sm1 :
  index_ok sm → valid_slot slot → slot_at sm slot = Some info → si_NodeID info' = n →
  sm_slots sm1 = <[Z.to_nat slot := info']> (sm_slots sm) →
  (∀ n' x, n' ≠ "" → x ∈ node_slots sm1 n' ↔
     (if decide (x = slot) then n' = n else x ∈ node_slots sm n')) →
  (∀ n', n' ≠ "" → NoDup (node_slots sm1 n')) →
  index_ok sm1.
Proof.
  intros Hi Hv Hs Hn Hslots Hin Hnd. split; [by rewrite Hslots, length_insert, (ix_length _ Hi)| |done].
  intros n' x Hne. rewrite Hin by done.
  assert (owns sm1 n' x ↔ owns (put_slot sm slot info') n' x) as ->
    by (unfold owns, slot_at; by rewrite Hslots).
  rewrite owns_put by done. case_decide; [rewrite Hn; naive_solver|]. by apply Hi.
Qed.

Lemma remove_others sm slot info :
  index_ok sm → valid_slot slot → slot_at sm slot = Some info → si_NodeID info ≠ "" →
  ∀ n' x, n' ≠ "" →
    x ∈ node_slots (removeSlotFromNode sm (si_NodeID info) slot) n' ↔ x ∈ node_slots sm n' ∧ x ≠ slot.
Proof.
  intros Hi [H0 H1] Hs Hne n' x Hn'.
  rewrite (proj1 (node_slots_remove sm (si_NodeID info) slot n' (ix_nodup _ Hi _ Hne))).
  split; [|naive_solver]. intros [Hx Hxs]. split; [done|]. intros ->.
  apply (ix_owns _ Hi) in Hx as [_ Hx]; [|done]. rewrite Hs in Hx. simpl in Hx. naive_solver.
Qed.

Lemma setOwnerLocked_spec sm slot info n :
  index_ok sm → valid_slot slot → slot_at sm slot = Some info →
  ∃ sm', setOwnerLocked sm slot n = Some sm' ∧ index_ok sm' ∧
    sm_slots sm' = <[Z.to_nat slot := set_NodeID n info]> (sm_slots sm).
Proof.
  intros Hi Hv Hs. unfold setOwnerLocked. rewrite Hs. cbn [mbind option_bind].
  set (sm1 := if negb (bool_decide (si_NodeID info = "")) && negb (bool_decide (si_NodeID info = n))
              then removeSlotFromNode sm (si_NodeID info) slot else sm).
  assert (sm_slots sm1 = sm_slots sm) as Hs1.
  { unfold sm1, removeSlotFromNode. destruct (negb _ && negb _); [|done]. by case_bool_decide. }
  assert (∀ n' x, n' ≠ "" → x ∈ node_slots sm1 n' ↔
    x ∈ node_slots sm n' ∧ (x = slot → n' = n)) as Hin.
  { intros n' x Hn'. unfold sm1. case_bool_decide as E1; simpl; [|case_bool_decide as E2; simpl].
    - split; [|naive_solver]. intros Hx. split; [done|]. intros ->.
      apply (ix_owns _ Hi) in Hx as [_ Hx]; [|done]. rewrite Hs in Hx. simpl in Hx. congruence.
    - split; [|naive_solver]. intros Hx. split; [done|]. intros ->.
      apply (ix_owns _ Hi) in Hx as [_ Hx]; [|done]. rewrite Hs in Hx. simpl in Hx. congruence.
    - rewrite remove_others by done. split; [naive_solver|]. intros [Hx Hxs]. split; [done|]. intros ->.
      apply (ix_owns _ Hi) in Hx as [_ Hx]; [|done]. rewrite Hs in Hx. simpl in Hx. naive_solver. }
  assert (∀ n', n' ≠ "" → NoDup (node_slots sm1 n')) as Hnd.
  { intros n' Hn'. unfold sm1. destruct (bool_decide (si_NodeID info = "")) eqn:E1; simpl; [by apply Hi|].
    apply bool_decide_eq_false in E1. case_bool_decide; simpl; [by apply Hi|].
    apply node_slots_remove; by apply Hi. }
  set (sm2 := put_slot sm1 slot (set_NodeID n info)).
  assert (sm_slots sm2 = <[Z.to_nat slot := set_NodeID n info]> (sm_slots sm)) as Hs2
    by (unfold sm2; simpl; by rewrite Hs1).
  change (node_slots sm2 n) with (node_slots sm1 n).
  case_bool_decide as En; [|case_bool_decide as Em]; eexists; (split; [done|]); (split; [|done]);
    eapply (move_slot sm slot info (set_NodeID n info) n); try done.
  - intros n' x Hn'. change (node_slots sm2 n') with (node_slots sm1 n'). rewrite Hin by done.
    case_decide; naive_solver.
  - intros n' x Hn'. change (node_slots sm2 n') with (node_slots sm1 n'). rewrite Hin by done.
    rewrite Hin in Em by done. case_decide; naive_solver.
  - intros n' x Hn'. unfold append_slot. rewrite node_slots_put.
    change (node_slots sm2 ?k) with (node_slots sm1 k). case_decide; [subst n'|].
    + rewrite elem_of_app, list_elem_of_singleton, Hin by done. case_decide; naive_solver.
    + rewrite Hin by done. case_decide; naive_solver.
  - intros n' Hn'. unfold append_slot. rewrite node_slots_put. change (node_slots sm2 ?k) with (node_slots sm1 k).
    case_decide; [|by apply Hnd]. subst n'. apply NoDup_app. split_and!; [by apply Hnd| |apply NoDup_singleton].
    intros x Hx Hx'. apply list_elem_of_singleton in Hx'. by subst.
Qed.

Lemma AssignSlot_spec sm slot n :
  index_ok sm → valid_slot slot →
  ∃ info sm', slot_at sm slot = Some info ∧ AssignSlot sm slot n = Some (inr tt, sm') ∧ index_ok sm' ∧
    sm_slots sm' = <[Z.to_nat slot := mkSlot SlotStateNormal n n [] (si_ConfigEpoch info) (si_NextLSN info)
                       (si_Importing info) (si_Exporting info)]> (sm_slots sm).
Proof.
  intros Hi Hv. destruct (slot_at_Some sm slot Hi Hv) as [info Hs]. exists info. unfold AssignSlot.
  rewrite (proj2 (Z.leb_gt SlotCount slot)) by apply Hv. rewrite Hs. cbn [mbind option_bind].
  set (sm1 := if negb (bool_decide (si_NodeID info = "")) then removeSlotFromNode sm (si_NodeID info) slot else sm).
  assert (sm_slots sm1 = sm_slots sm) as Hs1.
  { unfold sm1, removeSlotFromNode. destruct (negb _); [|done]. by case_bool_decide. }
  assert (∀ n' x, n' ≠ "" → x ∈ node_slots sm1 n' ↔ x ∈ node_slots sm n' ∧ x ≠ slot) as Hin.
  { intros n' x Hn'. unfold sm1. case_bool_decide as E1; simpl; [|by rewrite remove_others].
    split; [|naive_solver]. intros Hx. split; [done|]. intros ->.
    apply (ix_owns _ Hi) in Hx as [_ Hx]; [|done]. rewrite Hs in Hx. simpl in Hx. congruence. }
  assert (∀ n', n' ≠ "" → NoDup (node_slots sm1 n')) as Hnd.
  { intros n' Hn'. unfold sm1. destruct (bool_decide (si_NodeID info = "")) eqn:E1; simpl; [by apply Hi|].
    apply bool_decide_eq_false in E1. apply node_slots_remove; by apply Hi. }
  eexists. split; [done|]. split; [done|]. split; [|simpl; by rewrite Hs1].
  set (info' := mkSlot _ n n _ _ _ _ _).
  apply index_ok_dirty, (move_slot sm slot info info' n); try done.
  - simpl. by rewrite Hs1.
  - intros n' x Hn'. unfold append_slot. rewrite node_slots_put.
    change (node_slots (put_slot sm1 slot info') ?k) with (node_slots sm1 k). case_decide; [subst n'|].
    + rewrite elem_of_app, list_elem_of_singleton, Hin by done. case_decide; naive_solver.
    + rewrite Hin by done. case_decide; naive_solver.
  - intros n' Hn'. unfold append_slot. rewrite node_slots_put.
    change (node_slots (put_slot sm1 slot info') ?k) with (node_slots sm1 k).
    case_decide; [|by apply Hnd]. subst n'. apply NoDup_app. split_and!; [by apply Hnd| |apply NoDup_singleton].
    intros x Hx Hx'. apply list_elem_of_singleton in Hx'. subst. apply Hin in Hx; [|done]. naive_solver.
Qed.

(** ** Every operation keeps the table well formed *)

(** The primary of a slot that was just given both. *)
Lemma put_wf sm slot info sm' :
  slots_wf sm → valid_slot slot → index_ok sm' →
  sm_slots sm' = <[Z.to_nat slot := info]> (sm_slots sm) → si_PrimaryID info = si_NodeID info →
  slots_wf sm'.
Proof.
  intros [Hi Hp] Hv Hi' Hs Hpr. split; [done|]. intros slot' i H0.
  assert (slot_at sm' slot' = slot_at (put_slot sm slot info) slot') as -> by (unfold slot_at; by rewrite Hs).
  rewrite slot_at_put by done. case_decide; [by intros [= <-]|by apply Hp].
Qed.

(** Set the owner, then store an entry with that owner. *)
Lemma owner_then_put sm slot info n f :
  slots_wf sm → valid_slot slot → slot_at sm slot = Some info →
  (∀ i, si_NodeID (f i) = si_NodeID i) → (∀ i, si_PrimaryID (f i) = n) →
  ∃ sm', (sm ← setOwnerLocked sm slot n; i ← slot_at sm slot; Some (markDirty (put_slot sm slot (f i)))) =
      Some sm' ∧ slots_wf sm' ∧ sm_slots sm' = <[Z.to_nat slot := f (set_NodeID n info)]> (sm_slots sm).
Proof.
  intros Hwf Hv Hs Hf1 Hf2. pose proof (sl_index _ Hwf) as Hi.
  destruct (setOwnerLocked_spec sm slot info n Hi Hv Hs) as (sm1 & -> & Hi1 & Hs1).
  assert (slot_at sm1 slot = Some (set_NodeID n info)) as Hat.
  { unfold slot_at. rewrite Hs1. apply list_lookup_insert_eq. rewrite (ix_length _ Hi). destruct Hv. lia. }
  cbn [mbind option_bind]. rewrite Hat. cbn [mbind option_bind]. eexists. split; [done|].
  assert (sm_slots (put_slot sm1 slot (f (set_NodeID n info))) =
    <[Z.to_nat slot := f (set_NodeID n info)]> (sm_slots sm)) as E.
  { simpl. by rewrite Hs1, list_insert_insert_eq. }
  split; [|done]. apply slots_wf_dirty. eapply put_wf; [done|done| |exact E|].
  - by eapply put_same_owner.
  - rewrite Hf2, Hf1. done.
Qed.

(** A change of the table: well formed, and no slot's LSN goes back (unless the
    64-bit counter wraps). *)
Definition lsn_kept (sm sm' : SlotManager) : Prop :=
  ∀ slot i, 0 ≤ slot → slot_at sm slot = Some i → 0 ≤ si_NextLSN i < 2 ^ 64 - 1 →
    ∃ i', slot_at sm' slot = Some i' ∧ si_NextLSN i ≤ si_NextLSN i'.

Lemma lsn_kept_refl sm : lsn_kept sm sm.
Proof. intros slot i _ Hs _. by exists i. Qed.

Lemma lsn_kept_put sm sm' slot info info' :
  index_ok sm → valid_slot slot → slot_at sm slot = Some info →
  sm_slots sm' = <[Z.to_nat slot := info']> (sm_slots sm) →
  (0 ≤ si_NextLSN info < 2 ^ 64 - 1 → si_NextLSN info ≤ si_NextLSN info') → lsn_kept sm sm'.
Proof.
  intros Hi Hv Hs Hsl Hl slot' i H0 Hi' Hb.
  assert (slot_at sm' slot' = slot_at (put_slot sm slot info') slot') as -> by (unfold slot_at; by rewrite Hsl).
  rewrite slot_at_put by done. case_decide; [|by exists i]. subst. exists info'. split; [done|].
  rewrite Hs in Hi'. injection Hi' as <-. by apply Hl.
Qed.

(** Set a slot that keeps its owner and primary. *)
Lemma keep_put sm slot info info' :
  slots_wf sm → valid_slot slot → slot_at sm slot = Some info →
  si_NodeID info' = si_NodeID info → si_PrimaryID info' = si_PrimaryID info →
  (0 ≤ si_NextLSN info < 2 ^ 64 - 1 → si_NextLSN info ≤ si_NextLSN info') →
  slots_wf (markDirty (put_slot sm slot info')) ∧ lsn_kept sm (markDirty (put_slot sm slot info')).
Proof.
  intros Hwf Hv Hs Hn Hp Hl. split.
  - apply slots_wf_dirty. by eapply put_same_wf.
  - eapply lsn_kept_put; [apply Hwf|done|done|done|done].
Qed.

Inductive slot_op (sm : SlotManager) : SlotManager → Prop :=
  | op_assign slot n r sm' : is_u16 slot → AssignSlot sm slot n = Some (r, sm') → slot_op sm sm'
  | op_epoch slot epoch : is_u16 slot → slot_op sm (SetSlotConfigEpoch sm slot epoch)
  | op_configure slot p rs e r sm' :
      is_u16 slot → ConfigureReplication sm slot p rs e = Some (r, sm') → slot_op sm sm'
  | op_add_replica slot n sm' : is_u16 slot → AddSlotReplica sm slot n = Some sm' → slot_op sm sm'
  | op_add_to_master m n e r sm' : AddReplicaToMaster sm m n e = (r, sm') → slot_op sm sm'
  | op_allocate slot r sm' : is_u16 slot → AllocateLSN sm slot = Some (r, sm') → slot_op sm sm'
  | op_update slot n lsn r sm' : is_u16 slot → UpdateReplicaLSN sm slot n lsn = Some (r, sm') → slot_op sm sm'
  | op_promote slot n r sm' : is_u16 slot → PromoteReplica sm slot n = Some (r, sm') → slot_op sm sm'
  | op_importing slot n sm' : is_u16 slot → SetImporting sm slot n = Some sm' → slot_op sm sm'
  | op_exporting slot n sm' : is_u16 slot → SetExporting sm slot n = Some sm' → slot_op sm sm'
  | op_stable slot sm' : is_u16 slot → SetStable sm slot = Some sm' → slot_op sm sm'
  | op_finish slot n sm' : is_u16 slot → FinishMigration sm slot n = Some sm' → slot_op sm sm'.

(** The slot of an operation that got past its range check or its array access. *)
Lemma in_range slot : is_u16 slot → (SlotCount <=? slot) = false → valid_slot slot.
Proof. unfold is_u16. intros [H0 _] H%Z.leb_gt. by split. Qed.

Lemma replace_slot sm slot info sm' f :
  slots_wf sm → valid_slot slot → slot_at sm slot = Some info →
  (i ← slot_at sm slot; Some (markDirty (put_slot sm slot (f i)))) = Some sm' →
  si_NodeID (f info) = si_NodeID info → si_PrimaryID (f info) = si_PrimaryID info →
  si_NextLSN (f info) = si_NextLSN info →
  slots_wf sm' ∧ lsn_kept sm sm'.
Proof.
  intros Hwf Hv Hs E Hn Hp Hl. rewrite Hs in E. injection E as <-. apply (keep_put sm slot info); try done. lia.
Qed.

Lemma AddReplicaToMaster_keeps sm m n e r sm' :
  slots_wf sm → AddReplicaToMaster sm m n e = (r, sm') → slots_wf sm' ∧ lsn_kept sm sm'.
Proof.
  intros Hwf. unfold AddReplicaToMaster. destruct (_ || _); [intros [= <- <-]; by split; [|apply lsn_kept_refl]|].
  set (g := λ info, if decide (owned_by m info) then add_replica m n e info else info).
  set (sm1 := mkSlots (g <$> sm_slots sm) (sm_nodeSlots sm) (sm_stateManager sm)).
  assert (∀ slot, slot_at sm1 slot = g <$> slot_at sm slot) as Hat by (intros; apply list_lookup_fmap).
  assert (∀ i, si_NodeID (g i) = si_NodeID i ∧ si_NextLSN (g i) = si_NextLSN i) as Hg
    by (intros i; unfold g; by case_decide).
  assert (slots_wf sm1 ∧ lsn_kept sm sm1) as [H1 H2].
  { split; [split; [split|]|].
    - simpl. rewrite length_fmap. apply Hwf.
    - intros n' slot Hn'. change (node_slots sm1 n') with (node_slots sm n'). rewrite (ix_owns _ (sl_index _ Hwf)) by done.
      unfold owns. rewrite Hat. destruct (slot_at sm slot) as [i|]; simpl; [|done]. by rewrite (proj1 (Hg i)).
    - apply Hwf.
    - intros slot i' H0. rewrite Hat. destruct (slot_at sm slot) as [i|] eqn:Ei; simpl; [|done]. intros [= <-].
      pose proof (sl_primary _ Hwf _ _ H0 Ei) as Hp. unfold g, owned_by. case_decide as E; [|done]. by simpl.
    - intros slot i H0 Hs _. rewrite Hat, Hs. eexists. split; [done|]. by rewrite (proj2 (Hg i)). }
  intros [= <- <-]. destruct (0 <? _); [|done]. split; [by apply slots_wf_dirty|done].
Qed.

Lemma AssignSlot_keeps sm slot n r sm' :
  slots_wf sm → is_u16 slot → AssignSlot sm slot n = Some (r, sm') → slots_wf sm' ∧ lsn_kept sm sm'.
Proof.
  intros Hwf Hu E. destruct (SlotCount <=? slot) eqn:El.
  { unfold AssignSlot in E. rewrite El in E. injection E as <- <-. by split; [|apply lsn_kept_refl]. }
  pose proof (in_range slot Hu El) as Hv.
  destruct (AssignSlot_spec sm slot n (sl_index _ Hwf) Hv) as (info & sm1 & Hs & E1 & Hi1 & Hs1).
  rewrite E in E1. injection E1 as -> ->. split; [by eapply put_wf|].
  eapply lsn_kept_put; [apply Hwf|done|done|exact Hs1|]. simpl. lia.
Qed.

(** The operations that end with [setOwnerLocked] and a new entry. *)
Lemma owner_op sm slot n f sm' info :
  slots_wf sm → valid_slot slot → slot_at sm slot = Some info →
  (∀ i, si_NodeID (f i) = si_NodeID i) → (∀ i, si_PrimaryID (f i) = n) →
  (∀ i, si_NextLSN i ≤ si_NextLSN (f i)) →
  (sm ← setOwnerLocked sm slot n; i ← slot_at sm slot; Some (markDirty (put_slot sm slot (f i)))) = Some sm' →
  slots_wf sm' ∧ lsn_kept sm sm'.
Proof.
  intros Hwf Hv Hs H1 H2 H3 E. destruct (owner_then_put sm slot info n f Hwf Hv Hs H1 H2) as (sm1 & E1 & W1 & S1).
  rewrite E in E1. injection E1 as ->. split; [done|].
  eapply lsn_kept_put; [apply Hwf|done|done|exact S1|]. intros _. exact (H3 (set_NodeID n info)).
Qed.

(** A computation that returns a pair is its second half. *)
Lemma bind_pair {A} (o1 : option SlotManager) (g : SlotManager → option SlotInfo)
    (h : SlotManager → SlotInfo → SlotManager) (a : A) r sm' :
  (sm ← o1; i ← g sm; Some (a, h sm i)) = Some (r, sm') → (sm ← o1; i ← g sm; Some (h sm i)) = Some sm'.
Proof. destruct o1 as [sm|]; [|done]. simpl. destruct (g sm); [|done]. simpl. by intros [= _ ->]. Qed.

Lemma ConfigureReplication_keeps sm slot p rs e r sm' :
  slots_wf sm → is_u16 slot → ConfigureReplication sm slot p rs e = Some (r, sm') →
  slots_wf sm' ∧ lsn_kept sm sm'.
Proof.
  intros Hwf Hu E. unfold ConfigureReplication in E. destruct (SlotCount <=? slot) eqn:El.
  { injection E as <- <-. by split; [|apply lsn_kept_refl]. }
  pose proof (in_range slot Hu El) as Hv. destruct (slot_at_Some sm slot (sl_index _ Hwf) Hv) as [info Hs].
  apply bind_pair in E. eapply (owner_op sm slot p (λ i, mkSlot (si_State i) (si_NodeID i) p _ e
    (si_NextLSN i) (si_Importing i) (si_Exporting i)) sm' info); try done.
Qed.

Lemma PromoteReplica_keeps sm slot n r sm' :
  slots_wf sm → is_u16 slot → PromoteReplica sm slot n = Some (r, sm') → slots_wf sm' ∧ lsn_kept sm sm'.
Proof.
  intros Hwf Hu E. unfold PromoteReplica in E. destruct (SlotCount <=? slot) eqn:El.
  { injection E as <- <-. by split; [|apply lsn_kept_refl]. }
  pose proof (in_range slot Hu El) as Hv. destruct (slot_at_Some sm slot (sl_index _ Hwf) Hv) as [info Hs].
  rewrite Hs in E. cbn [mbind option_bind] in E.
  destruct (last _) as [promoted|]; [|injection E as <- <-; by split; [|apply lsn_kept_refl]].
  apply bind_pair in E. eapply (owner_op sm slot n (λ i, mkSlot (si_State i) (si_NodeID i) n _ (u64 (si_ConfigEpoch i + 1))
    (if si_NextLSN i <? sr_MatchLSN promoted then sr_MatchLSN promoted else si_NextLSN i)
    (si_Importing i) (si_Exporting i)) sm' info); try done.
  intros i. simpl. destruct (Z.ltb_spec (si_NextLSN i) (sr_MatchLSN promoted)); lia.
Qed.

Lemma AllocateLSN_keeps sm slot r sm' :
  slots_wf sm → is_u16 slot → AllocateLSN sm slot = Some (r, sm') → slots_wf sm' ∧ lsn_kept sm sm'.
Proof.
  intros Hwf Hu E. unfold AllocateLSN in E. destruct (SlotCount <=? slot) eqn:El.
  { injection E as <- <-. by split; [|apply lsn_kept_refl]. }
  pose proof (in_range slot Hu El) as Hv. destruct (slot_at sm slot) as [info|] eqn:Hs; [|done].
  cbn [mbind option_bind] in E. case_bool_decide; [injection E as <- <-; by split; [|apply lsn_kept_refl]|].
  injection E as <- <-. apply (keep_put sm slot info); try done. simpl. intros Hb.
  rewrite u64_id by (unfold is_u64; lia). lia.
Qed.

Lemma update_keeps sm slot n lsn r sm' :
  slots_wf sm → is_u16 slot → UpdateReplicaLSN sm slot n lsn = Some (r, sm') → slots_wf sm' ∧ lsn_kept sm sm'.
Proof.
  intros Hwf Hu E. unfold UpdateReplicaLSN in E. destruct (SlotCount <=? slot) eqn:El.
  { injection E as <- <-. by split; [|apply lsn_kept_refl]. }
  pose proof (in_range slot Hu El) as Hv. destruct (slot_at sm slot) as [info|] eqn:Hs; [|done].
  cbn [mbind option_bind] in E.
  destruct (update_replica _ _ _); injection E as <- <-; [|by split; [|apply lsn_kept_refl]].
  apply (keep_put sm slot info); done.
Qed.

(** The slot of an operation without a range check. *)
Lemma accessed sm slot info : slots_wf sm → is_u16 slot → slot_at sm slot = Some info → valid_slot slot.
Proof. intros Hwf [H0 _] Hs. eapply slot_at_valid; [apply Hwf|done|done]. Qed.

(** Every operation keeps the table well formed and every LSN counter. *)
Lemma slot_op_keeps sm sm' : slots_wf sm → slot_op sm sm' → slots_wf sm' ∧ lsn_kept sm sm'.
Proof.
  intros Hwf Hop. destruct Hop as [slot n r sm' Hu E|slot e Hu|slot p rs e r sm' Hu E|slot n sm' Hu E|m n e r sm' E
    |slot r sm' Hu E|slot n lsn r sm' Hu E|slot n r sm' Hu E|slot n sm' Hu E|slot n sm' Hu E|slot sm' Hu E|slot n sm' Hu E].
  - by eapply AssignSlot_keeps.
  - unfold SetSlotConfigEpoch. destruct (slot_at sm slot) as [info|] eqn:Hs.
    + apply (keep_put sm slot info); try done. by eapply accessed.
    + split; [by apply slots_wf_dirty|exact (lsn_kept_refl sm)].
  - by eapply ConfigureReplication_keeps.
  - unfold AddSlotReplica in E. destruct (_ || _); [injection E as <-; by split; [|apply lsn_kept_refl]|].
    destruct (slot_at sm slot) as [info|] eqn:Hs; [|done]. cbn [mbind option_bind] in E.
    case_bool_decide; [injection E as <-; by split; [|apply lsn_kept_refl]|].
    destruct (has_replica info n); injection E as <-; [by split; [|apply lsn_kept_refl]|].
    apply (keep_put sm slot info); try done. by eapply accessed.
  - by eapply AddReplicaToMaster_keeps.
  - by eapply AllocateLSN_keeps.
  - by eapply update_keeps.
  - by eapply PromoteReplica_keeps.
  - unfold SetImporting in E. destruct (slot_at sm slot) as [info|] eqn:Hs; [|done]. injection E as <-.
    apply (keep_put sm slot info); try done. by eapply accessed.
  - unfold SetExporting in E. destruct (slot_at sm slot) as [info|] eqn:Hs; [|done]. injection E as <-.
    apply (keep_put sm slot info); try done. by eapply accessed.
  - unfold SetStable in E. destruct (slot_at sm slot) as [info|] eqn:Hs; [|done]. injection E as <-.
    apply (keep_put sm slot info); try done; [by eapply accessed|]. simpl.
    pose proof (sl_primary _ Hwf slot info ltac:(apply Hu) Hs). case_bool_decide; congruence.
  - unfold FinishMigration in E. destruct (slot_at sm slot) as [info|] eqn:Hs.
    + eapply (owner_op sm slot n (λ i, mkSlot SlotStateNormal (si_NodeID i) n (si_Replicas i) (si_ConfigEpoch i)
        (si_NextLSN i) "" "") sm' info); try done. by eapply accessed.
    + unfold setOwnerLocked in E. by rewrite Hs in E.
Qed.

(** ** Restoring *)

Lemma NewSlotManager_wf sm0 : slots_wf (mkSlots (replicate (Z.to_nat SlotCount) freshSlot) ∅ sm0).
Proof.
  assert (∀ slot i, slot_at (mkSlots (replicate (Z.to_nat SlotCount) freshSlot) ∅ sm0) slot = Some i → i = freshSlot)
    as Hf by (intros slot i [-> _]%lookup_replicate; done).
  split; [split|].
  - apply length_replicate.
  - intros n slot Hn. split.
    + unfold node_slots. simpl. rewrite lookup_empty. by intros ?%not_elem_of_nil.
    + intros [_ (i & Hat & Hi)%fmap_Some]. apply Hf in Hat as ->. by subst.
  - intros n _. unfold node_slots. simpl. rewrite lookup_empty. constructor.
  - intros slot i _ ->%Hf. done.
Qed.

(** The first loop: from slot [k] on, no slot has an owner yet. *)
Lemma restore_owners_spec (l : list string) k sm :
  slots_wf sm → (k + length l = Z.to_nat SlotCount)%nat →
  (∀ j, (k ≤ j)%nat → (j < Z.to_nat SlotCount)%nat → sm_slots sm !! j = Some freshSlot) →
  slots_wf (foldl restore_owner sm (imap (λ i n, ((k + i)%nat, n)) l)) ∧
  ∀ j, sm_slots (foldl restore_owner sm (imap (λ i n, ((k + i)%nat, n)) l)) !! j =
    if decide (k ≤ j)%nat then (λ n, mkSlot SlotStateNormal n n [] 0 0 "" "") <$> l !! (j - k)%nat
    else sm_slots sm !! j.
Proof.
  revert k sm. induction l as [|n l IH]; intros k sm Hwf Hk Hfresh.
  { split; [done|]. intros j. simpl. case_decide; [|done]. apply lookup_ge_None.
    rewrite (ix_length _ (sl_index _ Hwf)). simpl in Hk. lia. }
  simpl in Hk. set (info := mkSlot SlotStateNormal n n [] 0 0 "" "").
  assert (restore_owner sm ((k + 0)%nat, n) = restore_owner sm (k, n)) as E0 by by rewrite Nat.add_0_r.
  assert (slots_wf (restore_owner sm (k, n)) ∧
    ∀ j, sm_slots (restore_owner sm (k, n)) !! j = if decide (j = k) then Some info else sm_slots sm !! j) as [Hwf1 Hj1].
  { pose proof (Hfresh k ltac:(lia) ltac:(lia)) as Hkf. unfold restore_owner. case_bool_decide as En.
    - split; [done|]. intros j. case_decide; [subst|done]. by rewrite Hkf.
    - assert (valid_slot (Z.of_nat k)) as Hv by (split; [lia|]; unfold SlotCount in *; lia).
      assert (slot_at sm (Z.of_nat k) = Some freshSlot) as Hat by (unfold slot_at; by rewrite Nat2Z.id).
      destruct (AssignSlot_spec sm (Z.of_nat k) n (sl_index _ Hwf) Hv) as (i0 & sm' & Hs' & HA & Hi' & Hsl).
      rewrite Hat in Hs'. injection Hs' as <-.
      assert (markDirty (append_slot (put_slot sm (Z.of_nat k) info) n (Z.of_nat k)) = sm') as <-.
      { unfold AssignSlot in HA. rewrite (proj2 (Z.leb_gt SlotCount (Z.of_nat k))), Hat in HA by apply Hv.
        by injection HA. }
      split.
      + assert (slots_wf (markDirty (append_slot (put_slot sm (Z.of_nat k) info) n (Z.of_nat k)))) as [[] ]
          by (by eapply put_wf). by split; [split|].
      + intros j. simpl. rewrite Nat2Z.id. case_decide; subst.
        * apply list_lookup_insert_eq. rewrite (ix_length _ (sl_index _ Hwf)). lia.
        * by apply list_lookup_insert_ne. }
  cbn [imap foldl]. rewrite E0. rewrite (imap_ext _ (λ i n, ((S k + i)%nat, n))).
  - destruct (IH (S k) (restore_owner sm (k, n)) Hwf1) as [Hwf2 Hj2]; [simpl; lia| |].
    { intros j Hj Hj'. rewrite Hj1, decide_False by lia. apply Hfresh; lia. }
    split; [done|]. intros j. rewrite Hj2. destruct (decide (S k ≤ j)%nat) as [Hle|Hle].
    + rewrite decide_True by lia. replace (j - k)%nat with (S (j - S k)) by lia. done.
    + rewrite Hj1. destruct (decide (j = k)) as [->|Hne]; [|by rewrite decide_False by lia].
      rewrite decide_True by lia. by rewrite Nat.sub_diag.
  - intros i x _. simpl. f_equal. lia.
Qed.

(** A loop whose body replaces the slot of each entry: a slot ends up changed by
    its own entry, if it has one. *)
Lemma loop_slots {A} (body : SlotManager → Z * A → option SlotManager) (f : A → SlotInfo → SlotInfo)
    (entries : list (Z * A)) sm :
  (∀ sm slot a info, slots_wf sm → valid_slot slot → slot_at sm slot = Some info →
     ∃ sm', body sm (slot, a) = Some sm' ∧ slots_wf sm' ∧
       sm_slots sm' = <[Z.to_nat slot := f a info]> (sm_slots sm)) →
  slots_wf sm → NoDup entries.*1 → Forall (λ e, valid_slot e.1) entries →
  ∃ sm', loop body sm entries = Some sm' ∧ slots_wf sm' ∧
    ∀ slot, 0 ≤ slot → slot_at sm' slot =
      (match list_to_map (M := gmap Z A) entries !! slot with Some a => f a | None => id end) <$> slot_at sm slot.
Proof.
  intros Hbody. revert sm. induction entries as [|[slot a] entries IH]; intros sm Hwf Hnd Hall.
  { exists sm. split_and!; [done|done|]. intros slot _. simpl. rewrite lookup_empty. by destruct (slot_at sm slot). }
  apply NoDup_cons in Hnd as [Hn Hnd]. apply Forall_cons in Hall as [Hv Hall]. simpl in Hv.
  destruct (slot_at_Some sm slot (sl_index _ Hwf) Hv) as [info Hs].
  destruct (Hbody sm slot a info Hwf Hv Hs) as (sm1 & E1 & W1 & S1).
  destruct (IH sm1 W1 Hnd Hall) as (sm2 & E2 & W2 & S2). exists sm2. cbn [loop]. rewrite E1. split_and!; [done|done|].
  intros slot' H0. rewrite S2 by done.
  assert (slot_at sm1 slot' = if decide (slot' = slot) then Some (f a info) else slot_at sm slot') as ->.
  { assert (slot_at sm1 slot' = slot_at (put_slot sm slot (f a info)) slot') as -> by (unfold slot_at; by rewrite S1).
    by rewrite slot_at_put by (done || apply Hwf). }
  simpl. case_decide as E.
  - subst. rewrite lookup_insert_eq, not_elem_of_list_to_map_1 by done. simpl. by rewrite Hs.
  - by rewrite lookup_insert_ne.
Qed.

Lemma restore_replicas_spec sm slot rs info :
  slots_wf sm → valid_slot slot → slot_at sm slot = Some info →
  let owner := if bool_decide (rs_PrimaryID rs = "") then si_NodeID info else rs_PrimaryID rs in
  ∃ sm', restore_replicas sm (slot, rs) = Some sm' ∧ slots_wf sm' ∧
    sm_slots sm' = <[Z.to_nat slot := mkSlot (si_State info) owner owner (rs_Replicas rs) (rs_ConfigEpoch rs)
      (rs_NextLSN rs) (si_Importing info) (si_Exporting info)]> (sm_slots sm).
Proof.
  intros Hwf Hv Hs owner. unfold restore_replicas. rewrite (proj2 (Z.leb_gt SlotCount slot)) by apply Hv.
  unfold owner. case_bool_decide as Ep.
  - cbn [mbind option_bind]. rewrite Hs. cbn [mbind option_bind]. eexists. split; [done|].
    pose proof (sl_primary _ Hwf slot info ltac:(apply Hv) Hs) as Hp. split.
    + by eapply put_same_wf.
    + simpl. by rewrite Hp.
  - set (g := λ i, mkSlot (si_State i) (si_NodeID i) (rs_PrimaryID rs) (si_Replicas i)
                 (si_ConfigEpoch i) (si_NextLSN i) (si_Importing i) (si_Exporting i)).
    destruct (owner_then_put sm slot info (rs_PrimaryID rs) g Hwf Hv Hs ltac:(done) ltac:(done)) as (sm1 & E1 & W1 & S1).
    destruct (setOwnerLocked sm slot (rs_PrimaryID rs)) as [sm0|]; [|done]. cbn [mbind option_bind] in E1 |- *.
    destruct (slot_at sm0 slot) as [i0|]; [|done]. cbn [mbind option_bind] in E1 |- *. injection E1 as <-.
    change (sm_slots (markDirty (put_slot sm0 slot (g i0)))) with (sm_slots (put_slot sm0 slot (g i0))) in S1.
    assert (slots_wf (put_slot sm0 slot (g i0))) as W0 by (destruct W1 as [[] ]; by split; [split|]).
    fold (g i0).
    assert (slot_at (put_slot sm0 slot (g i0)) slot = Some (g (set_NodeID (rs_PrimaryID rs) info))) as Hat.
    { unfold slot_at. rewrite S1. apply list_lookup_insert_eq. rewrite (ix_length _ (sl_index _ Hwf)).
      destruct Hv. lia. }
    rewrite Hat. cbn [mbind option_bind]. eexists. split; [done|]. split.
    + by eapply put_same_wf.
    + cbn [put_slot sm_slots]. cbn [put_slot sm_slots] in S1. by rewrite S1, list_insert_insert_eq.
Qed.

Definition migrate (mg : MigrationState) (i : SlotInfo) : SlotInfo :=
  if bool_decide (mg_State mg = "importing") then
    mkSlot SlotStateImporting (si_NodeID i) (si_PrimaryID i) (si_Replicas i) (si_ConfigEpoch i) (si_NextLSN i)
      (mg_Source mg) (si_Exporting i)
  else if bool_decide (mg_State mg = "exporting") then
    mkSlot SlotStateExporting (si_NodeID i) (si_PrimaryID i) (si_Replicas i) (si_ConfigEpoch i) (si_NextLSN i)
      (si_Importing i) (mg_Target mg)
  else i.

Lemma restore_migration_spec sm slot mg info :
  slots_wf sm → valid_slot slot → slot_at sm slot = Some info →
  ∃ sm', restore_migration sm (slot, mg) = Some sm' ∧ slots_wf sm' ∧
    sm_slots sm' = <[Z.to_nat slot := migrate mg info]> (sm_slots sm).
Proof.
  intros Hwf Hv Hs. unfold restore_migration, migrate. rewrite Hs. cbn [mbind option_bind].
  case_bool_decide; [|case_bool_decide]; eexists; (split; [done|]); (split; [|done || by rewrite list_insert_id]);
    [by eapply put_same_wf|by eapply put_same_wf|done].
Qed.

Section restore.
Context `{!GoRange Z MigrationState} `{!GoRange Z SlotReplicaSet}.

Definition replicate_state (rs : SlotReplicaSet) (info : SlotInfo) : SlotInfo :=
  let owner := if bool_decide (rs_PrimaryID rs = "") then si_NodeID info else rs_PrimaryID rs in
  mkSlot (si_State info) owner owner (rs_Replicas rs) (rs_ConfigEpoch rs) (rs_NextLSN rs)
    (si_Importing info) (si_Exporting info).

Definition apply_opt {A} (f : A → SlotInfo → SlotInfo) (o : option A) (i : SlotInfo) : SlotInfo :=
  match o with Some a => f a i | None => i end.

Lemma go_range_lookup {A} `{!GoRange Z A} (m : gmap Z A) k :
  list_to_map (M := gmap Z A) (go_range m) !! k = m !! k.
Proof.
  rewrite (list_to_map_proper _ (map_to_list m)); [by rewrite list_to_map_to_list| |apply go_range_perm].
  apply NoDup_go_range_keys.
Qed.

Lemma go_range_valid {A} `{!GoRange Z A} (m : gmap Z A) :
  map_Forall (λ k _, valid_slot k) m → Forall (λ e, valid_slot e.1) (go_range m).
Proof. intros H. apply Forall_forall. intros [k a] Hin%elem_of_go_range. by apply (H k a). Qed.

Lemma RestoreFromState_spec sm0 slotMap mgs rss :
  length slotMap = Z.to_nat SlotCount →
  map_Forall (λ k _, valid_slot k) mgs → map_Forall (λ k _, valid_slot k) rss →
  ∃ sm', RestoreFromState sm0 slotMap mgs rss = Some sm' ∧ slots_wf sm' ∧
    ∀ slot, valid_slot slot → slot_at sm' slot =
      (λ n, apply_opt migrate (mgs !! slot) (apply_opt replicate_state (rss !! slot)
              (mkSlot SlotStateNormal n n [] 0 0 "" ""))) <$> slotMap !! Z.to_nat slot.
Proof.
  intros Hlen Hm Hr. unfold RestoreFromState. set (base := mkSlots _ _ _).
  destruct (restore_owners_spec slotMap 0 base) as [W0 S0].
  { apply NewSlotManager_wf. }
  { lia. }
  { intros j _ Hj. apply lookup_replicate. done. }
  change (imap pair slotMap) with (imap (λ i n, ((0 + i)%nat, n)) slotMap).
  set (sm1 := foldl _ _ _) in *.
  destruct (loop_slots restore_replicas replicate_state (go_range rss) sm1) as (sm2 & E2 & W2 & S2).
  { intros sm slot a info Hw Hv Hs. apply restore_replicas_spec; done. }
  { done. }
  { apply NoDup_go_range_keys. }
  { by apply go_range_valid. }
  rewrite E2. cbn [mbind option_bind].
  destruct (loop_slots restore_migration migrate (go_range mgs) sm2) as (sm3 & E3 & W3 & S3).
  { intros sm slot a info Hw Hv Hs. by apply restore_migration_spec. }
  { done. }
  { apply NoDup_go_range_keys. }
  { by apply go_range_valid. }
  exists sm3. split_and!; [done|done|]. intros slot Hv. rewrite S3, S2 by apply Hv. rewrite !go_range_lookup.
  unfold slot_at at 1. rewrite S0, decide_True by lia. rewrite Nat.sub_0_r. rewrite <-!option_fmap_compose.
  destruct (slotMap !! Z.to_nat slot); simpl; [|done]. f_equal. unfold apply_opt. by destruct (mgs !! slot), (rss !! slot).
Qed.

(** ** Saving and restoring *)

Lemma slot_map_lookup {A} (f : SlotInfo → option A) slots slot :
  0 ≤ slot → slot_map f slots !! slot = slots !! Z.to_nat slot ≫= f.
Proof.
  intros H0. unfold slot_map.
  set (l := omap _ (imap pair slots)).
  assert (∀ k a, (k, a) ∈ l ↔ 0 ≤ k ∧ slots !! Z.to_nat k ≫= f = Some a) as Hl.
  { intros k a. unfold l. rewrite list_elem_of_omap. split.
    - intros ([i info] & Hin & E). apply elem_of_lookup_imap in Hin as (i' & x & [= <- <-] & Hx).
      destruct (f info) as [a'|] eqn:Ef; simplify_eq/=. rewrite Nat2Z.id, Hx. simpl. split; [lia|done].
    - intros [Hk E]. destruct (slots !! Z.to_nat k) as [info|] eqn:Es; [|done]. simpl in E.
      exists (Z.to_nat k, info). split; [by apply elem_of_lookup_imap_2 with (f := pair)|].
      rewrite E. simpl. by rewrite Z2Nat.id. }
  assert (NoDup l.*1) as Hnd.
  { unfold l. clear Hl. generalize slots. intros sl.
    assert (∀ k0, NoDup (omap (λ '(i, info), (λ a, (Z.of_nat i, a)) <$> f info) (imap (λ i x, ((k0 + i)%nat, x)) sl)).*1 ∧
      ∀ k, k ∈ (omap (λ '(i, info), (λ a, (Z.of_nat i, a)) <$> f info) (imap (λ i x, ((k0 + i)%nat, x)) sl)).*1 →
        Z.of_nat k0 ≤ k) as H; [|apply (H 0%nat)].
    induction sl as [|info sl IH]; intros k0; [split; [constructor|by intros k ?%not_elem_of_nil]|].
    destruct (IH (S k0)) as [IH1 IH2].
    cbn [imap omap list_omap]. rewrite (imap_ext _ (λ i x, ((S k0 + i)%nat, x))) by (intros; simpl; f_equal; lia).
    rewrite Nat.add_0_r. destruct (f info) as [a|]; simpl.
    - split.
      + constructor; [|done]. intros Hin%IH2. lia.
      + intros k [->|Hin%IH2]%elem_of_cons; lia.
    - split; [done|]. intros k Hin%IH2. lia. }
  apply option_eq. intros a. rewrite <-elem_of_list_to_map by done. rewrite Hl. naive_solver.
Qed.

(** What the saved state keeps of a slot: the field of the other direction of a
    migration, and both fields of a stable slot, are not saved. *)
Definition saved (i : SlotInfo) : SlotInfo :=
  mkSlot (si_State i) (si_NodeID i) (si_PrimaryID i) (si_Replicas i) (si_ConfigEpoch i) (si_NextLSN i)
    (match si_State i with SlotStateImporting => si_Importing i | _ => "" end)
    (match si_State i with SlotStateExporting => si_Exporting i | _ => "" end).

Lemma slot_map_valid {A} (f : SlotInfo → option A) sm :
  index_ok sm → map_Forall (λ k _, valid_slot k) (slot_map f (sm_slots sm)).
Proof.
  intros Hi k a Hk. assert (0 ≤ k) as H0.
  { unfold slot_map in Hk. apply elem_of_list_to_map_2 in Hk. apply list_elem_of_omap in Hk as ([i info] & _ & E).
    destruct (f info); simplify_eq/=. lia. }
  rewrite slot_map_lookup in Hk by done. destruct (sm_slots sm !! Z.to_nat k) as [info|] eqn:E; [|done].
  by eapply slot_at_valid.
Qed.

(** The saved form of a slot is what its three saved parts rebuild. *)
Lemma rebuild_slot info :
  si_PrimaryID info = si_NodeID info →
  apply_opt migrate (migration_of info) (apply_opt replicate_state (replication_of info)
    (mkSlot SlotStateNormal (si_NodeID info) (si_NodeID info) [] 0 0 "" "")) = saved info.
Proof.
  destruct info as [st n p rs e l im ex]. unfold saved, migration_of, replication_of. simpl. intros ->.
  destruct (bool_decide (n = "") && bool_decide (rs = []) && (e =? 0) && (l =? 0)) eqn:E.
  - repeat (apply andb_true_iff in E as [E ?]). repeat match goal with H : bool_decide _ = true |- _ =>
      apply bool_decide_eq_true in H end. subst.
    replace e with 0 by lia. replace l with 0 by lia. by destruct st.
  - simpl. unfold replicate_state. simpl. destruct st; simpl; unfold migrate; simpl; by case_bool_decide; subst.
Qed.

Lemma RestoreFromState_saved sm0 sm :
  slots_wf sm →
  ∃ sm', RestoreFromState sm0 (GetSlotMapSnapshot sm) (GetMigratingSlots sm) (GetSlotReplicationState sm) = Some sm' ∧
    slots_wf sm' ∧ ∀ slot, valid_slot slot → slot_at sm' slot = saved <$> slot_at sm slot.
Proof.
  intros [Hi Hp].
  destruct (RestoreFromState_spec sm0 (GetSlotMapSnapshot sm) (GetMigratingSlots sm) (GetSlotReplicationState sm))
    as (sm' & H & W & S).
  - unfold GetSlotMapSnapshot. by rewrite length_fmap, (ix_length _ Hi).
  - by apply slot_map_valid.
  - by apply slot_map_valid.
  - exists sm'. split_and!; [done|done|]. intros slot Hv. rewrite S by done. unfold GetSlotMapSnapshot.
    unfold GetMigratingSlots, GetSlotReplicationState. rewrite !slot_map_lookup by apply Hv.
    rewrite list_lookup_fmap. change (sm_slots sm !! Z.to_nat slot) with (slot_at sm slot).
    destruct (slot_at sm slot) as [info|] eqn:E; simpl; [|done]. f_equal. apply rebuild_slot.
    by eapply Hp; [apply Hv|].
Qed.

(** Saving the table and restoring it gives every slot back as it was saved,
    with the index of the nodes rebuilt, whatever order the saved maps are
    iterated in. *)
Theorem restore_saved_state sm0 sm :
  slots_wf sm →
  ∃ sm', RestoreFromState sm0 (GetSlotMapSnapshot sm) (GetMigratingSlots sm) (GetSlotReplicationState sm) = Some sm' ∧
    slots_wf sm' ∧ ∀ slot, valid_slot slot → slot_at sm' slot = saved <$> slot_at sm slot.
Proof. apply RestoreFromState_saved. Qed.

(** ** Reachable tables *)

Inductive slot_step (sm : SlotManager) : SlotManager → Prop :=
  | step_op sm' : slot_op sm sm' → slot_step sm sm'
  | step_restore slotMap mgs rss sm' :
      length slotMap = Z.to_nat SlotCount →
      map_Forall (λ k _, valid_slot k) mgs → map_Forall (λ k _, valid_slot k) rss →
      RestoreFromState sm slotMap mgs rss = Some sm' → slot_step sm sm'.

(** C7: In every reachable table, a node's index lists exactly the slots whose owner
    it is, each once, and the primary of a slot is its owner. *)
Theorem slots_always_consistent sm : rtc slot_step NewSlotManager sm → slots_wf sm.
Proof.
  apply (rtc_ind_r (λ sm, slots_wf sm)); [apply NewSlotManager_wf|].
  intros sm1 sm2 _ [sm' Hop|slotMap mgs rss sm' Hl Hm Hr E] IH.
  - by apply (slot_op_keeps sm1).
  - destruct (RestoreFromState_spec sm1 slotMap mgs rss Hl Hm Hr) as (sm3 & E3 & W & _). congruence.
Qed.

End restore.

(** ** Sequence numbers *)

(** An operation in a table whose counters are not about to wrap. *)
Definition lsn_op (sm sm' : SlotManager) : Prop :=
  slot_op sm sm' ∧ ∀ slot i, 0 ≤ slot → slot_at sm slot = Some i → 0 ≤ si_NextLSN i < 2 ^ 64 - 1.

Lemma lsn_ops_keep sm sm' :
  slots_wf sm → rtc lsn_op sm sm' →
  slots_wf sm' ∧ ∀ slot i i', 0 ≤ slot → slot_at sm slot = Some i → slot_at sm' slot = Some i' →
    si_NextLSN i ≤ si_NextLSN i'.
Proof.
  intros Hwf H. revert Hwf. induction H as [sm|sm1 sm2 sm3 [Hop Hb] H IH]; intros Hwf.
  { split; [done|]. intros slot i i' _ H1 H2. rewrite H1 in H2. by simplify_eq. }
  destruct (slot_op_keeps _ _ Hwf Hop) as [W2 K2]. destruct (IH W2) as [W3 K3]. split; [done|].
  intros slot i i' H0 Hi Hi'. destruct (K2 slot i H0 Hi (Hb _ _ H0 Hi)) as (i2 & E2 & L2).
  specialize (K3 slot i2 i' H0 E2 Hi'). lia.
Qed.

(** Log sequence numbers of a slot are allocated in strictly increasing order,
    whatever happens to the table in between: reassignment, migration,
    promotion of a replica. *)
Theorem lsn_strictly_increases sm sm1 sm2 sm3 slot e1 l1 e2 l2 :
  slots_wf sm → valid_slot slot →
  AllocateLSN sm slot = Some (inr (e1, l1), sm1) →
  rtc lsn_op sm1 sm2 →
  (∀ i, slot_at sm2 slot = Some i → si_NextLSN i < 2 ^ 64 - 1) →
  (∀ i, slot_at sm slot = Some i → 0 ≤ si_NextLSN i < 2 ^ 64 - 1) →
  AllocateLSN sm2 slot = Some (inr (e2, l2), sm3) →
  l1 < l2.
Proof.
  intros Hwf Hv E1 Hops Hb2 Hb1 E2.
  assert (is_u16 slot) as Hu by (destruct Hv; unfold is_u16, SlotCount in *; lia).
  destruct (AllocateLSN_keeps _ _ _ _ Hwf Hu E1) as [W1 _].
  destruct (lsn_ops_keep _ _ W1 Hops) as [W2 K2].
  unfold AllocateLSN in E1, E2. rewrite (proj2 (Z.leb_gt SlotCount slot)) in E1, E2 by apply Hv.
  destruct (slot_at sm slot) as [i|] eqn:Hi; [|done]. destruct (slot_at sm2 slot) as [i2|] eqn:Hi2; [|done].
  cbn [mbind option_bind] in E1, E2. case_bool_decide; [done|]. case_bool_decide; [done|].
  injection E1 as _ <- <-. injection E2 as _ <- _.
  assert (slot_at (markDirty (put_slot sm slot (set_NextLSN (u64 (si_NextLSN i + 1)) i))) slot =
    Some (set_NextLSN (u64 (si_NextLSN i + 1)) i)) as Hat.
  { rewrite slot_at_markDirty, slot_at_put by (apply Hwf || apply Hv || done). by rewrite decide_True. }
  specialize (K2 slot _ i2 ltac:(apply Hv) Hat Hi2). cbn [set_NextLSN si_NextLSN] in K2.
  specialize (Hb1 i eq_refl). specialize (Hb2 i2 eq_refl).
  rewrite u64_id in K2 |- * by (unfold is_u64; lia). rewrite u64_id by (unfold is_u64; lia). lia.
Qed.

(** ** The ranges of [CLUSTER SLOTS] *)

Definition covers (ranges : list SlotRange) (slot : Z) (n : string) : Prop :=
  ∃ r, r ∈ ranges ∧ rg_Start r ≤ slot ≤ rg_End r ∧ rg_NodeID r = n.

Lemma covers_app l1 l2 slot n : covers (l1 ++ l2) slot n ↔ covers l1 slot n ∨ covers l2 slot n.
Proof. unfold covers. setoid_rewrite elem_of_app. naive_solver. Qed.

Lemma covers_one r slot n : covers [r] slot n ↔ rg_Start r ≤ slot ≤ rg_End r ∧ rg_NodeID r = n.
Proof. unfold covers. setoid_rewrite list_elem_of_singleton. naive_solver. Qed.

Lemma covers_nil slot n : ¬ covers [] slot n.
Proof. intros (r & ?%not_elem_of_nil & _). done. Qed.

(** The open range ends just before [i]. *)
Definition open_at (i : Z) (current : option SlotRange) : Prop :=
  match current with Some c => rg_Start c ≤ rg_End c ∧ rg_End c = i - 1 | None => True end.

Lemma covers_cons_slot i j (info : SlotInfo) slots n :
  (i ≤ j ∧ n ≠ "" ∧ si_NodeID <$> (info :: slots) !! Z.to_nat (j - i) = Some n) ↔
  (j = i ∧ n ≠ "" ∧ si_NodeID info = n) ∨
  (i + 1 ≤ j ∧ n ≠ "" ∧ si_NodeID <$> slots !! Z.to_nat (j - (i + 1)) = Some n).
Proof.
  destruct (Z.eq_dec j i) as [->|Hne].
  - rewrite Z.sub_diag. simpl. split; [intros (_ & ? & [= ?]); naive_solver|].
    intros [(_ & ? & ->)|[? _]]; [naive_solver lia|lia].
  - destruct (Z.le_gt_cases i j); [|split; [lia|intros [[]|[]]; lia]].
    replace (Z.to_nat (j - i)) with (S (Z.to_nat (j - (i + 1)))) by lia. simpl. split; [naive_solver lia|].
    intros [[]|(_ & ? & ?)]; [lia|]. split_and!; [lia|done|done].
Qed.

Lemma cluster_slots_cover slots i ranges current j n :
  open_at i current →
  covers (cluster_slots_loop i slots ranges current) j n ↔
  covers (ranges ++ option_list current) j n ∨
  (i ≤ j ∧ n ≠ "" ∧ si_NodeID <$> slots !! Z.to_nat (j - i) = Some n).
Proof.
  revert i ranges current. induction slots as [|info slots IH]; intros i ranges current Ho.
  { simpl. naive_solver. }
  rewrite covers_cons_slot. cbn [cluster_slots_loop]. case_bool_decide as En.
  - rewrite IH by done. rewrite app_nil_r. naive_solver.
  - destruct current as [c|]; [case_bool_decide as Ec|]; simpl in Ho.
    + rewrite IH by (simpl; lia). rewrite !covers_app. simpl. rewrite !covers_one. simpl. subst.
      assert ((rg_Start c ≤ j ≤ i ∧ si_NodeID info = n) ↔
        (rg_Start c ≤ j ≤ rg_End c ∧ si_NodeID info = n) ∨ (j = i ∧ n ≠ "" ∧ si_NodeID info = n)) as E.
      { split; [|naive_solver lia]. intros [? <-]. destruct (Z.eq_dec j i); [by right|]. left. split; [lia|done]. }
      rewrite E, Ec. tauto.
    + rewrite IH by (simpl; lia). rewrite !covers_app. simpl. rewrite !covers_one. simpl.
      assert ((i ≤ j ≤ i ∧ si_NodeID info = n) ↔ (j = i ∧ n ≠ "" ∧ si_NodeID info = n)) as -> by naive_solver lia.
      tauto.
    + rewrite IH by (simpl; lia). rewrite !covers_app. simpl. rewrite !covers_one. simpl.
      assert ((i ≤ j ≤ i ∧ si_NodeID info = n) ↔ (j = i ∧ n ≠ "" ∧ si_NodeID info = n)) as -> by naive_solver lia.
      pose proof (covers_nil j n). tauto.
Qed.

(** Ranges in order: each ends before the next starts, and two that touch belong
    to different nodes. *)
Definition range_before (r1 r2 : SlotRange) : Prop :=
  rg_End r1 < rg_Start r2 ∧ (rg_End r1 + 1 = rg_Start r2 → rg_NodeID r1 ≠ rg_NodeID r2).

Lemma sorted_snoc (l : list SlotRange) r :
  StronglySorted range_before l → Forall (λ x, range_before x r) l → StronglySorted range_before (l ++ [r]).
Proof.
  induction 1 as [|x l Hs IH Hall]; intros H; simpl; [by repeat constructor|].
  apply Forall_cons in H as [Hx Hl]. constructor; [by apply IH|]. apply Forall_app. by split; [|constructor].
Qed.

Lemma sorted_snoc_inv (l : list SlotRange) r :
  StronglySorted range_before (l ++ [r]) → StronglySorted range_before l ∧ Forall (λ x, range_before x r) l.
Proof.
  induction l as [|x l IH]; simpl; intros H; [by repeat constructor|].
  apply StronglySorted_inv in H as [H Hx]. apply Forall_app in Hx as [Hx Hr]. apply Forall_cons in Hr as [Hr _].
  destruct (IH H) as [H1 H2]. by split; constructor.
Qed.

Lemma cluster_slots_sorted slots i ranges current :
  open_at i current → StronglySorted range_before (ranges ++ option_list current) →
  Forall (λ r, match current with None => rg_End r < i - 1 | Some _ => rg_End r < i end) ranges →
  StronglySorted range_before (cluster_slots_loop i slots ranges current).
Proof.
  revert i ranges current. induction slots as [|info slots IH]; intros i ranges current Ho Hs Hb; [done|].
  cbn [cluster_slots_loop]. case_bool_decide as En; [|destruct current as [c|]; [case_bool_decide as Ec|]]; simpl in *.
  - apply IH; simpl; rewrite ?app_nil_r; try done. apply Forall_app. split.
    + eapply Forall_impl; [exact Hb|]. intros r. simpl. destruct current; lia.
    + destruct current; simpl in *; repeat constructor; lia.
  - apply sorted_snoc_inv in Hs as [Hs Hc]. apply IH; simpl; [lia| |].
    + apply sorted_snoc; [done|]. eapply Forall_impl; [exact Hc|]. unfold range_before. simpl. intros r. by rewrite Ec.
    + eapply Forall_impl; [exact Hb|]. simpl. lia.
  - pose proof (sorted_snoc_inv _ _ Hs) as [_ Hc]. apply IH; simpl; [lia| |].
    + apply sorted_snoc; [done|]. apply Forall_app. split.
      * eapply Forall_impl; [exact Hc|]. unfold range_before. simpl. intros r. lia.
      * repeat constructor; simpl; [lia|]. done.
    + apply Forall_app. split; [eapply Forall_impl; [exact Hb|]; simpl; lia|]. repeat constructor. lia.
  - rewrite app_nil_r in Hs. apply IH; simpl; [lia| |].
    + apply sorted_snoc; [done|]. eapply Forall_impl; [exact Hb|]. unfold range_before. simpl. lia.
    + eapply Forall_impl; [exact Hb|]. simpl. lia.
Qed.

(** The ranges of [GetClusterSlots] are in increasing order without overlap,
    adjacent ones of different nodes, and a slot lies in a range of a node
    exactly when the node owns it. *)
Theorem GetClusterSlots_exact sm :
  StronglySorted range_before (GetClusterSlots sm) ∧
  ∀ slot n, 0 ≤ slot → n ≠ "" →
    covers (GetClusterSlots sm) slot n ↔ si_NodeID <$> slot_at sm slot = Some n.
Proof.
  split.
  - apply cluster_slots_sorted; simpl; [done|constructor|constructor].
  - intros slot n H0 Hn. unfold GetClusterSlots. rewrite cluster_slots_cover by done. simpl.
    rewrite Z.sub_0_r. pose proof (covers_nil slot n). unfold slot_at. tauto.
Qed.

(** ** Failover *)

Lemma best_replica_spec replicas bestNode bestLSN :
  (bestNode = "" → bestLSN = 0) → Forall (λ r, sr_NodeID r ≠ "" ∧ 0 ≤ sr_MatchLSN r) replicas →
  let best := best_replica replicas bestNode bestLSN in
  (best = bestNode ∧ (bestNode ≠ "" → Forall (λ r, sr_Healthy r = true → sr_MatchLSN r ≤ bestLSN) replicas) ∧
     (bestNode = "" → Forall (λ r, sr_Healthy r = false) replicas)) ∨
  (∃ r, r ∈ replicas ∧ sr_Healthy r = true ∧ sr_NodeID r = best ∧ bestLSN ≤ sr_MatchLSN r ∧
     Forall (λ r', sr_Healthy r' = true → sr_MatchLSN r' ≤ sr_MatchLSN r) replicas).
Proof.
  revert bestNode bestLSN. induction replicas as [|r replicas IH]; intros bestNode bestLSN H0 Hids; [by left|].
  apply Forall_cons in Hids as [[Hid Hlsn] Hids]. cbn [best_replica].
  destruct (sr_Healthy r) eqn:Hh; cbn [negb].
  - destruct (bool_decide (bestNode = "") || (bestLSN <? sr_MatchLSN r)) eqn:E.
    + assert (bestLSN ≤ sr_MatchLSN r) as Hle.
      { apply orb_true_iff in E as [E|E]; [apply bool_decide_eq_true in E; specialize (H0 E)|]; lia. }
      right. destruct (IH (sr_NodeID r) (sr_MatchLSN r) ltac:(done) Hids) as [(-> & Hall & _)|(r' & H1 & H2 & H3 & H4 & H5)].
      * exists r. split_and!; [by left|done|done|done|]. constructor; [done|]. by apply Hall.
      * exists r'. split_and!; [by right|done|done|lia|]. by constructor.
    + apply orb_false_iff in E as [E1%bool_decide_eq_false E2]. apply Z.ltb_ge in E2.
      destruct (IH bestNode bestLSN H0 Hids) as [(E & Hall & _)|(r' & H1 & H2 & H3 & H4 & H5)].
      * left. split_and!; [done| |done]. intros _. constructor; [done|]. by apply Hall.
      * right. exists r'. split_and!; [by right|done|done|lia|]. constructor; [lia|done].
  - destruct (IH bestNode bestLSN H0 Hids) as [(E & Hall & Hnone)|(r' & H1 & H2 & H3 & H4 & H5)].
    + left. split_and!; [done| |].
      * intros Hb. constructor; [congruence|by apply Hall].
      * intros Hb. constructor; [done|by apply Hnone].
    + right. exists r'. split_and!; [by right|done|done|lia|]. constructor; [congruence|done].
Qed.

(** Replicas with proper, distinct ids. *)
Definition replicas_ok (info : SlotInfo) : Prop :=
  Forall (λ r, sr_NodeID r ≠ "" ∧ 0 ≤ sr_MatchLSN r) (si_Replicas info) ∧ NoDup (sr_NodeID <$> si_Replicas info).

Lemma none_selected {A} (P : A → Prop) `{!∀ x, Decision (P x)} l : (∀ x, x ∈ l → ¬ P x) → filter P l = [].
Proof.
  induction l as [|x l IH]; intros Hn; [done|]. rewrite filter_cons, decide_False by (apply Hn; by left).
  apply IH. intros y Hy. apply Hn. by right.
Qed.

Lemma last_with_id replicas r :
  NoDup (sr_NodeID <$> replicas) → r ∈ replicas →
  last (filter (λ x, sr_NodeID x = sr_NodeID r) replicas) = Some r.
Proof.
  intros Hnd Hr. assert (filter (λ x, sr_NodeID x = sr_NodeID r) replicas = [r]) as ->; [|done].
  induction replicas as [|x replicas IH]; [by apply not_elem_of_nil in Hr|].
  apply NoDup_cons in Hnd as [Hx Hnd]. rewrite filter_cons. apply elem_of_cons in Hr as [->|Hr].
  - rewrite decide_True by done. f_equal. apply none_selected. intros y Hy E.
    apply Hx. rewrite <-E. by apply list_elem_of_fmap_2.
  - rewrite decide_False; [by apply IH|]. intros E. apply Hx. rewrite E. by apply list_elem_of_fmap_2.
Qed.

Lemma PromoteReplica_spec sm slot info r :
  slots_wf sm → valid_slot slot → slot_at sm slot = Some info → NoDup (sr_NodeID <$> si_Replicas info) →
  r ∈ si_Replicas info →
  ∃ info' sm', PromoteReplica sm slot (sr_NodeID r) = Some (inr tt, sm') ∧ slots_wf sm' ∧
    sm_slots sm' = <[Z.to_nat slot := info']> (sm_slots sm) ∧
    si_NodeID info' = sr_NodeID r ∧ si_PrimaryID info' = sr_NodeID r ∧
    si_NextLSN info' = Z.max (si_NextLSN info) (sr_MatchLSN r) ∧
    si_ConfigEpoch info' = u64 (si_ConfigEpoch info + 1) ∧
    si_Replicas info' = filter (λ x, sr_NodeID x ≠ sr_NodeID r) (si_Replicas info) ++
      (if negb (bool_decide (primary_of info = "")) && negb (bool_decide (primary_of info = sr_NodeID r))
       then [mkReplica (primary_of info) 0 true] else []).
Proof.
  intros Hwf Hv Hs Hnd Hr. unfold PromoteReplica. rewrite (proj2 (Z.leb_gt SlotCount slot)) by apply Hv.
  rewrite Hs. cbn [mbind option_bind]. rewrite (last_with_id _ r) by done. fold (primary_of info).
  set (remaining := if negb _ && _ then _ else _).
  set (f := λ i, mkSlot (si_State i) (si_NodeID i) (sr_NodeID r) remaining (u64 (si_ConfigEpoch i + 1))
    (if si_NextLSN i <? sr_MatchLSN r then sr_MatchLSN r else si_NextLSN i) (si_Importing i) (si_Exporting i)).
  destruct (owner_then_put sm slot info (sr_NodeID r) f Hwf Hv Hs ltac:(done) ltac:(done)) as (sm' & E & W & S).
  exists (f (set_NodeID (sr_NodeID r) info)), sm'. split_and!; try done.
  - destruct (setOwnerLocked sm slot (sr_NodeID r)) as [sm1|]; [|done]. cbn [mbind option_bind] in E |- *.
    destruct (slot_at sm1 slot) as [i1|]; [|done]. cbn [mbind option_bind] in E |- *. by injection E as <-.
  - simpl. destruct (Z.ltb_spec (si_NextLSN info) (sr_MatchLSN r)); lia.
  - simpl. unfold remaining. by destruct (negb _ && _); rewrite ?app_nil_r.
Qed.

(** C27: Failover promotes the healthy replica that has applied the most: it becomes
    owner and primary, it alone may serve writes, the slot's counter is at least
    what it had applied, the old primary becomes a replica and is the one asked
    to stop; without a healthy replica nothing changes. *)
Theorem PromoteBestReplica_correct sm slot info :
  slots_wf sm → valid_slot slot → slot_at sm slot = Some info → replicas_ok info →
  (Forall (λ r, sr_Healthy r = false) (si_Replicas info) ∧
   PromoteBestReplica sm slot = Some (inl (ErrNoHealthyReplica slot), sm, [])) ∨
  (∃ r sm' info' evs, r ∈ si_Replicas info ∧ sr_Healthy r = true ∧
     Forall (λ r', sr_Healthy r' = true → sr_MatchLSN r' ≤ sr_MatchLSN r) (si_Replicas info) ∧
     PromoteBestReplica sm slot = Some (inr (sr_NodeID r), sm', evs) ∧
     slots_wf sm' ∧ owns sm' (sr_NodeID r) slot ∧ slot_at sm' slot = Some info' ∧
     (∀ n, CanNodeServeWrites sm' slot n = true ↔ n = sr_NodeID r) ∧
     sr_MatchLSN r ≤ si_NextLSN info' ∧ si_NextLSN info ≤ si_NextLSN info' ∧
     (primary_of info ≠ "" → primary_of info ≠ sr_NodeID r →
        FailClosed slot (primary_of info) ∈ evs ∧ mkReplica (primary_of info) 0 true ∈ si_Replicas info')).
Proof.
  intros Hwf Hv Hs [Hids Hnd]. unfold PromoteBestReplica, SelectBestReplica, GetSlotInfo.
  rewrite (proj2 (Z.leb_gt SlotCount slot)) by apply Hv. rewrite Hs.
  destruct (best_replica_spec (si_Replicas info) "" 0 ltac:(done) Hids) as [(-> & _ & Hnone)|(r & H1 & H2 & <- & H4 & H5)].
  { left. split; [by apply Hnone|]. done. }
  right. assert (sr_NodeID r ≠ "") as Hne by (rewrite Forall_forall in Hids; by apply Hids).
  rewrite bool_decide_eq_false_2 by done.
  destruct (PromoteReplica_spec sm slot info r Hwf Hv Hs Hnd H1)
    as (info' & sm' & HP & W & S & N & P & L & _ & R).
  rewrite HP. cbn [mbind option_bind].
  assert (slot_at sm' slot = Some info') as Hat.
  { unfold slot_at. rewrite S. apply list_lookup_insert_eq. rewrite (ix_length _ (sl_index _ Hwf)). destruct Hv. lia. }
  eexists r, sm', info', _. split_and!; try done.
  - split; [apply Hv|]. rewrite Hat. simpl. by rewrite N.
  - intros n. unfold CanNodeServeWrites, GetSlotInfo. rewrite (proj2 (Z.leb_gt SlotCount slot)) by apply Hv.
    rewrite Hat. unfold primary_of. rewrite P, (bool_decide_eq_false_2 (sr_NodeID r = "")) by done.
    rewrite (bool_decide_eq_false_2 (sr_NodeID r = "")) by done. simpl. rewrite bool_decide_eq_true. naive_solver.
  - lia.
  - lia.
  - intros Hp Hp'. rewrite (bool_decide_eq_false_2 (primary_of info = "")),
      (bool_decide_eq_false_2 (primary_of info = sr_NodeID r)) in * by done. simpl in R |- *. split.
    + right. by left.
    + rewrite R. apply elem_of_app. right. by left.
Qed.

(** ** A concrete table *)

Section witnesses.
#[local] Instance ranges {K A} `{Countable K} : GoRange K A := listed_range.

Definition demo1 : SlotManager := default NewSlotManager (snd <$> AssignSlot NewSlotManager 7 "a").
Definition demo2 : SlotManager :=
  default NewSlotManager (snd <$> ConfigureReplication demo1 7 "a" ["b"; "c"; "a"] 3).
Definition demo3 : SlotManager := default NewSlotManager (snd <$> UpdateReplicaLSN demo2 7 "c" 9).
Definition demo4 : SlotManager := default NewSlotManager (snd <$> AllocateLSN demo3 7).

Lemma demo_steps :
  AssignSlot NewSlotManager 7 "a" = Some (inr tt, demo1) ∧
  ConfigureReplication demo1 7 "a" ["b"; "c"; "a"] 3 = Some (inr tt, demo2) ∧
  UpdateReplicaLSN demo2 7 "c" 9 = Some (inr tt, demo3) ∧
  AllocateLSN demo3 7 = Some (inr (3, 1), demo4) ∧
  slot_at demo3 7 = Some (mkSlot SlotStateNormal "a" "a" [mkReplica "b" 0 true; mkReplica "c" 9 true] 3 0 "" "").
Proof. split_and!; vm_compute; reflexivity. Qed.

Lemma demo4_slot :
  slot_at demo4 7 = Some (mkSlot SlotStateNormal "a" "a" [mkReplica "b" 0 true; mkReplica "c" 9 true] 3 1 "" "").
Proof. vm_compute. reflexivity. Qed.

Lemma demo_ops : slot_op NewSlotManager demo1 ∧ slot_op demo1 demo2 ∧ slot_op demo2 demo3 ∧ slot_op demo3 demo4.
Proof.
  destruct demo_steps as (H1 & H2 & H3 & H4 & _). assert (is_u16 7) by (unfold is_u16; lia).
  split_and!; [by eapply op_assign|by eapply op_configure|by eapply op_update|by eapply op_allocate].
Qed.

Lemma demo3_wf : slots_wf demo3.
Proof.
  destruct demo_ops as (H1 & H2 & H3 & _).
  apply (slot_op_keeps demo2); [|done]. apply (slot_op_keeps demo1); [|done].
  apply (slot_op_keeps NewSlotManager); [|done]. apply NewSlotManager_wf.
Qed.

Lemma valid_7 : valid_slot 7.
Proof. split; [lia|]. unfold SlotCount. lia. Qed.

Lemma slots_always_consistent_witness : slots_wf demo3 ∧ node_slots demo3 "a" = [7].
Proof.
  split; [|by vm_compute]. destruct demo_ops as (H1 & H2 & H3 & _).
  apply (slots_always_consistent demo3).
  eapply rtc_l; [by apply step_op, H1|]. eapply rtc_l; [by apply step_op, H2|].
  eapply rtc_l; [by apply step_op, H3|]. apply rtc_refl.
Defined.

Lemma restore_saved_state_witness :
  ∃ sm', RestoreFromState NewSlotManager (GetSlotMapSnapshot demo3) (GetMigratingSlots demo3)
      (GetSlotReplicationState demo3) = Some sm' ∧
    slot_at sm' 7 = Some (mkSlot SlotStateNormal "a" "a" [mkReplica "b" 0 true; mkReplica "c" 9 true] 3 0 "" "").
Proof.
  destruct (restore_saved_state NewSlotManager demo3 demo3_wf) as (sm' & H & _ & S).
  exists sm'. split; [exact H|]. rewrite (S 7 valid_7). destruct demo_steps as (_ & _ & _ & _ & ->). reflexivity.
Defined.

Lemma lsn_strictly_increases_witness :
  AllocateLSN demo3 7 = Some (inr (3, 1), demo4) ∧ 1 < 2.
Proof.
  destruct demo_steps as (_ & _ & _ & H4 & H5). split; [exact H4|].
  eapply (lsn_strictly_increases demo3 demo4 demo4 _ 7 3 1 3 2).
  - apply demo3_wf.
  - apply valid_7.
  - exact H4.
  - apply rtc_refl.
  - intros i. rewrite demo4_slot. intros [= <-]. simpl. lia.
  - intros i. rewrite H5. intros [= <-]. simpl. lia.
  - vm_compute. reflexivity.
Defined.

Lemma GetClusterSlots_exact_witness :
  GetClusterSlots demo3 = [mkRange 7 7 "a"] ∧ covers (GetClusterSlots demo3) 7 "a".
Proof.
  split; [by vm_compute|]. destruct (GetClusterSlots_exact demo3) as [_ H]. apply (H 7 "a"); [lia|done|].
  destruct demo_steps as (_ & _ & _ & _ & ->). reflexivity.
Defined.

Lemma PromoteBestReplica_correct_witness :
  ∃ sm' evs, PromoteBestReplica demo3 7 = Some (inr "c", sm', evs) ∧ CanNodeServeWrites sm' 7 "c" = true.
Proof.
  destruct demo_steps as (_ & _ & _ & _ & H5).
  destruct (PromoteBestReplica_correct demo3 7 _ demo3_wf valid_7 H5)
    as [[Hn _]|(r & sm' & info' & evs & Hr & Hh & Hmax & HP & _ & _ & _ & HC & _)].
  - split; simpl; [repeat constructor; simpl; (done || lia)|].
    repeat constructor; set_solver.
  - simpl in Hn. apply Forall_cons in Hn as [Hn _]. done.
  - exists sm', evs. assert (sr_NodeID r = "c") as E.
    { simpl in Hr, Hmax. rewrite !elem_of_cons in Hr. destruct Hr as [->|[->|Hr]]; [|done|by apply not_elem_of_nil in Hr].
      apply Forall_cons in Hmax as [_ Hmax]. apply Forall_cons in Hmax as [Hmax _]. simpl in Hmax.
      specialize (Hmax eq_refl). lia. }
    rewrite <-E. split; [exact HP|]. by apply HC.
Defined.
End witnesses.
