(* ===== verification/Gossip.v ===== *)
(** * The gossip protocol: [internal/cluster/gossip]

    A node's view of the cluster: the nodes it knows, their failure states and
    the reports about them, and the epochs under which it has learnt who owns
    which slot. Messages change the view; a timer looks for failed nodes. The
    clock is an argument in milliseconds, random choices are arguments, and
    goroutines that only notify other nodes or the cluster are events. The
    encoding of messages by [encoding/gob] is not modelled, the length frame
    around it is. *)

From S2P Require Import Prelude Hash Strconv Slots.
From stdpp Require Import options.

(** ** Nodes *)

Inductive NodeState := NodeStateUnknown | NodeStateHandshake | NodeStateConnected | NodeStatePFail | NodeStateFail.
Inductive NodeRole := NodeRoleMaster | NodeRoleReplica.

#[export] Instance NodeState_eq_dec : EqDecision NodeState.
Proof. solve_decision. Defined.
#[export] Instance NodeRole_eq_dec : EqDecision NodeRole.
Proof. solve_decision. Defined.

Record HotSlotGossip := mkHotSlot { hs_Slot : Z; hs_QPS : Z }.

Record NodeLoadInfo := mkLoad { nl_TotalQPS : Z; nl_HotSlotCount : Z; nl_HotSlots : list HotSlotGossip }.

Record GossipNode := mkNode {
  gn_ID : string;
  gn_IP : string;
  gn_Port : Z;
  gn_ClusterPort : Z;
  gn_Role : NodeRole;
  gn_MasterID : string;
  gn_State : NodeState;
  gn_PingSent : Z;
  gn_PongReceived : Z;
  gn_FailReports : gmap string Z;
  gn_Load : NodeLoadInfo
}.

(** [fmt.Sprintf("%s:%d", ip, port)]. *)
Definition host_port (ip : string) (port : Z) : string :=
  (ip +:+ ":" +:+ BytesToString (strconv_FormatInt port))%string.

Definition Addr (n : GossipNode) : string := host_port (gn_IP n) (gn_Port n).
Definition ClusterAddr (n : GossipNode) : string := host_port (gn_IP n) (gn_ClusterPort n).

Definition set_state (s : NodeState) (n : GossipNode) : GossipNode :=
  mkNode (gn_ID n) (gn_IP n) (gn_Port n) (gn_ClusterPort n) (gn_Role n) (gn_MasterID n) s (gn_PingSent n)
    (gn_PongReceived n) (gn_FailReports n) (gn_Load n).

Definition set_role (r : NodeRole) (masterID : string) (n : GossipNode) : GossipNode :=
  mkNode (gn_ID n) (gn_IP n) (gn_Port n) (gn_ClusterPort n) r masterID (gn_State n) (gn_PingSent n)
    (gn_PongReceived n) (gn_FailReports n) (gn_Load n).

Definition set_load (qps hot : Z) (n : GossipNode) : GossipNode :=
  mkNode (gn_ID n) (gn_IP n) (gn_Port n) (gn_ClusterPort n) (gn_Role n) (gn_MasterID n) (gn_State n) (gn_PingSent n)
    (gn_PongReceived n) (gn_FailReports n) (mkLoad qps hot (nl_HotSlots (gn_Load n))).

Definition set_ping (t : Z) (n : GossipNode) : GossipNode :=
  mkNode (gn_ID n) (gn_IP n) (gn_Port n) (gn_ClusterPort n) (gn_Role n) (gn_MasterID n) (gn_State n) t
    (gn_PongReceived n) (gn_FailReports n) (gn_Load n).

Definition UpdatePong (now : Z) (n : GossipNode) : GossipNode :=
  mkNode (gn_ID n) (gn_IP n) (gn_Port n) (gn_ClusterPort n) (gn_Role n) (gn_MasterID n) NodeStateConnected
    (gn_PingSent n) now (gn_FailReports n) (gn_Load n).

Definition MarkPFail (n : GossipNode) : GossipNode :=
  if bool_decide (gn_State n = NodeStateConnected) then set_state NodeStatePFail n else n.

Definition MarkFail (n : GossipNode) : GossipNode := set_state NodeStateFail n.

Definition AddFailReport (now : Z) (reporterID : string) (n : GossipNode) : GossipNode :=
  mkNode (gn_ID n) (gn_IP n) (gn_Port n) (gn_ClusterPort n) (gn_Role n) (gn_MasterID n) (gn_State n) (gn_PingSent n)
    (gn_PongReceived n) (<[reporterID := now]> (gn_FailReports n)) (gn_Load n).

Definition CountFailReports (now validity : Z) (n : GossipNode) : Z :=
  Z.of_nat (size (filter (λ p, now - p.2 < validity) (gn_FailReports n))).

(** ** Messages: [message.go] *)

Inductive MessageType := MsgPing | MsgPong | MsgMeet | MsgFail | MsgPublish | MsgUpdate.

Definition NodeFlagMaster : Z := 1.
Definition NodeFlagReplica : Z := 2.
Definition NodeFlagPFail : Z := 4.
Definition NodeFlagFail : Z := 8.

Record NodeInfo := mkInfo {
  ni_ID : string;
  ni_IP : string;
  ni_Port : Z;
  ni_ClusterPort : Z;
  ni_Flags : Z;
  ni_MasterID : string;
  ni_PingSent : Z;
  ni_PongRecv : Z;
  ni_ConfigEpoch : Z;
  ni_Slots : list byte;
  ni_Load : NodeLoadInfo;
  ni_ReporterID : string
}.

#[export] Instance HotSlotGossip_eq_dec : EqDecision HotSlotGossip.
Proof. solve_decision. Defined.
#[export] Instance NodeLoadInfo_eq_dec : EqDecision NodeLoadInfo.
Proof. solve_decision. Defined.
#[export] Instance NodeInfo_eq_dec : EqDecision NodeInfo.
Proof. solve_decision. Defined.

Record Message := mkMessage {
  ms_Type : MessageType;
  ms_Sender : string;
  ms_NodeInfo : option NodeInfo;
  ms_GossipNodes : list NodeInfo;
  ms_FailNodeID : string
}.

Definition NewPingMessage (senderID : string) (nodeInfo : NodeInfo) (gossipNodes : list NodeInfo) : Message :=
  mkMessage MsgPing senderID (Some nodeInfo) gossipNodes "".
Definition NewPongMessage (senderID : string) (nodeInfo : NodeInfo) (gossipNodes : list NodeInfo) : Message :=
  mkMessage MsgPong senderID (Some nodeInfo) gossipNodes "".
Definition NewMeetMessage (senderID : string) (nodeInfo : NodeInfo) : Message :=
  mkMessage MsgMeet senderID (Some nodeInfo) [] "".
Definition NewFailMessage (senderID failNodeID : string) : Message :=
  mkMessage MsgFail senderID None [] failNodeID.

(** A bitmap of 16384 bits; a slot outside of it is an index out of range. *)
Definition set_bit (bitmap : list byte) (slot : Z) : option (list byte) :=
  b ← bitmap !! Z.to_nat (slot / 8);
  Some (<[Z.to_nat (slot / 8) := byte_of_Z (Z.lor (Z_of_byte b) (Z.shiftl 1 (slot mod 8)))]> bitmap).

Definition SlotsToBytes (slots : list Z) : option (list byte) :=
  loop set_bit (replicate 2048 x00) slots.

Definition bit_set (bitmap : list byte) (i : Z) : bool :=
  match bitmap !! Z.to_nat (i / 8) with
  | Some b => negb (Z.land (Z_of_byte b) (Z.shiftl 1 (i mod 8)) =? 0)
  | None => false
  end.

Definition BytesToSlots (bitmap : list byte) : list Z :=
  List.filter (bit_set bitmap) (seqZ 0 (Z.min (8 * Z.of_nat (length bitmap)) 16384)).

(** The frame of a message on a connection: its length, big-endian. *)
Definition writeMessage (data : list byte) : list byte :=
  let length := u32 (Z.of_nat (length data)) in
  ((λ k, byte_of_Z (Z.shiftr length k)) <$> [24; 16; 8; 0]) ++ data.

Inductive FrameError := ErrFrameEOF | ErrTooLarge (length : Z).

Definition readMessage (bs : list byte) : FrameError + list byte * list byte :=
  match bs with
  | b0 :: b1 :: b2 :: b3 :: rest =>
      let length := Z.lor (Z.lor (Z.shiftl (Z_of_byte b0) 24) (Z.shiftl (Z_of_byte b1) 16))
                      (Z.lor (Z.shiftl (Z_of_byte b2) 8) (Z_of_byte b3)) in
      if 1024 * 1024 <? length then inl (ErrTooLarge length)
      else if Z.of_nat (List.length rest) <? length then inl ErrFrameEOF
      else inr (take (Z.to_nat length) rest, drop (Z.to_nat length) rest)
  | _ => inl ErrFrameEOF
  end.

(** ** The view of a node: [gossip.go] *)

Definition ClusterNodeTimeout : Z := 15000.
Definition ClusterPingInterval : Z := 1000.
Definition ClusterFailReportValidity : Z := 30000.
Definition GossipCount : Z := 3.

(** [self] is the entry of [g_nodes] under [g_self]: in the source the map and
    the field share the node. *)
Record Gossip := mkGossip {
  g_self : string;
  g_nodes : gmap string GossipNode;
  g_slotEpochs : gmap Z Z;
  g_currentEpoch : Z
}.

Definition NewGossip (self : GossipNode) : Gossip := mkGossip (gn_ID self) {[gn_ID self := self]} ∅ 0.

Definition put_nodes (g : Gossip) (nodes : gmap string GossipNode) : Gossip :=
  mkGossip (g_self g) nodes (g_slotEpochs g) (g_currentEpoch g).

Definition SetCurrentEpoch (g : Gossip) (epoch : Z) : Gossip :=
  mkGossip (g_self g) (g_nodes g) (g_slotEpochs g) epoch.

Inductive gossip_event :=
  | NodeJoin (id : string)
  | NodeLeave (id : string)
  | SlotChange (slot : Z) (id : string)
  | BroadcastFail (id : string).

Definition slot_epoch (g : Gossip) (slot : Z) : Z := default 0 (g_slotEpochs g !! slot).

Definition recordSlotEpoch (g : Gossip) (slot epoch : Z) : Gossip :=
  if slot_epoch g slot <=? epoch
  then mkGossip (g_self g) (g_nodes g) (<[slot := epoch]> (g_slotEpochs g)) (g_currentEpoch g)
  else g.

Definition canApplySlotOwnership (g : Gossip) (sm : SlotManager) (slot incomingEpoch : Z) : bool :=
  let seenEpoch := slot_epoch g slot in
  let assignedEpoch := GetSlotConfigEpoch sm slot in
  let seenEpoch := if seenEpoch <? assignedEpoch then assignedEpoch else seenEpoch in
  if incomingEpoch =? 0 then seenEpoch =? 0 else seenEpoch <? incomingEpoch.

Definition slotEpoch (g : Gossip) (sm : SlotManager) (slot : Z) : Z * Gossip :=
  let epoch := GetSlotConfigEpoch sm slot in
  if 0 <? epoch then (epoch, recordSlotEpoch g slot epoch) else (g_currentEpoch g, g).

(** One slot of an ownership report; [None] is a panic. *)
Definition apply_slot (nodeID : string) (epoch : Z) (st : Gossip * SlotManager * list gossip_event) (slot : Z)
    : option (Gossip * SlotManager * list gossip_event) :=
  let '(g, sm, events) := st in
  if negb (canApplySlotOwnership g sm slot epoch) then Some st
  else if bool_decide (GetSlotNode sm slot = nodeID) then Some (recordSlotEpoch g slot epoch, sm, events)
  else
    r ← AssignSlot sm slot nodeID;
    match r with
    | (inl _, sm) => Some (g, sm, events)
    | (inr _, sm) => Some (recordSlotEpoch g slot epoch, sm, events ++ [SlotChange slot nodeID])
    end.

Definition has_flag (flags flag : Z) : bool := negb (Z.land flags flag =? 0).

(** The entry of a node that was not known. *)
Definition discovered (info : NodeInfo) : GossipNode :=
  mkNode (ni_ID info) (ni_IP info) (ni_Port info) (ni_ClusterPort info) NodeRoleMaster "" NodeStateConnected 0 0 ∅
    (mkLoad 0 0 []).

Definition update_node (now : Z) (info : NodeInfo) (direct : bool) (node : GossipNode) : GossipNode :=
  let node :=
    if direct then
      if has_flag (ni_Flags info) NodeFlagMaster then set_role NodeRoleMaster "" node
      else if has_flag (ni_Flags info) NodeFlagReplica then set_role NodeRoleReplica (ni_MasterID info) node
      else node
    else node in
  let node := set_load (nl_TotalQPS (ni_Load info)) (nl_HotSlotCount (ni_Load info)) node in
  if has_flag (ni_Flags info) NodeFlagPFail && negb (bool_decide (ni_ReporterID info = ""))
  then AddFailReport now (ni_ReporterID info) node else node.

Definition processNodeInfo (now : Z) (g : Gossip) (sm : SlotManager) (info : NodeInfo) (direct : bool)
    : option (Gossip * SlotManager * list gossip_event) :=
  let '(node, events) :=
    match g_nodes g !! ni_ID info with
    | Some node => (node, [])
    | None => (discovered info, [NodeJoin (ni_ID info)])
    end in
  let node := update_node now info direct node in
  let g := put_nodes g (<[ni_ID info := node]> (g_nodes g)) in
  (* the replica is registered for the slots of its master, here or elsewhere *)
  sm ← (if direct && negb (bool_decide (ni_MasterID info = ""))
        then loop (λ sm slot, AddSlotReplica sm slot (ni_ID info)) sm (GetNodeSlots sm (ni_MasterID info))
        else Some sm);
  if negb (bool_decide (ni_Slots info = [])) && bool_decide (gn_Role node = NodeRoleMaster)
  then loop (apply_slot (gn_ID node) (ni_ConfigEpoch info)) (g, sm, events) (BytesToSlots (ni_Slots info))
  else Some (g, sm, events).

Definition set_reporter (id : string) (info : NodeInfo) : NodeInfo :=
  mkInfo (ni_ID info) (ni_IP info) (ni_Port info) (ni_ClusterPort info) (ni_Flags info) (ni_MasterID info)
    (ni_PingSent info) (ni_PongRecv info) (ni_ConfigEpoch info) (ni_Slots info) (ni_Load info) id.

Definition process_with (now : Z) (direct : bool) (st : Gossip * SlotManager * list gossip_event) (info : NodeInfo)
    : option (Gossip * SlotManager * list gossip_event) :=
  let '(g, sm, events) := st in
  r ← processNodeInfo now g sm info direct;
  let '(g, sm, events') := r in Some (g, sm, events ++ events').

(** What [handlePing] and [handlePong] do with the nodes a message carries. *)
Definition process_message (now : Z) (g : Gossip) (sm : SlotManager) (msg : Message)
    : option (Gossip * SlotManager * list gossip_event) :=
  st ← loop (process_with now true) (g, sm, []) (option_list (ms_NodeInfo msg));
  loop (process_with now false) st (set_reporter (ms_Sender msg) <$> ms_GossipNodes msg).

Definition handlePong (now : Z) (g : Gossip) (sm : SlotManager) (msg : Message)
    : option (Gossip * SlotManager * list gossip_event) :=
  let g := match g_nodes g !! ms_Sender msg with
           | Some node => put_nodes g (<[ms_Sender msg := UpdatePong now node]> (g_nodes g))
           | None => g
           end in
  process_message now g sm msg.

Definition handleFail (g : Gossip) (msg : Message) : Gossip * list gossip_event :=
  match g_nodes g !! ms_FailNodeID msg with
  | Some node => (put_nodes g (<[ms_FailNodeID msg := MarkFail node]> (g_nodes g)), [NodeLeave (gn_ID node)])
  | None => (g, [])
  end.

Definition role_flag (r : NodeRole) : Z := match r with NodeRoleMaster => NodeFlagMaster | NodeRoleReplica => NodeFlagReplica end.

(** [load] is what the hotspot detector reports, if there is one. [None] when
    [self] is not in its own map or owns a slot that is out of range. *)
Definition selfNodeInfo (g : Gossip) (sm : SlotManager) (load : NodeLoadInfo) : option NodeInfo :=
  self ← g_nodes g !! g_self g;
  slots ← SlotsToBytes (GetNodeSlots sm (gn_ID self));
  Some (mkInfo (gn_ID self) (gn_IP self) (gn_Port self) (gn_ClusterPort self) (role_flag (gn_Role self))
          (gn_MasterID self) 0 0 (g_currentEpoch g) slots load "").

Definition gossip_info (g : Gossip) (sm : SlotManager) (node : GossipNode) : option NodeInfo :=
  let flags := Z.lor (role_flag (gn_Role node))
    (match gn_State node with NodeStatePFail => NodeFlagPFail | NodeStateFail => NodeFlagFail | _ => 0 end) in
  slots ← SlotsToBytes (GetNodeSlots sm (gn_ID node));
  Some (mkInfo (gn_ID node) (gn_IP node) (gn_Port node) (gn_ClusterPort node) flags (gn_MasterID node)
          (gn_PingSent node) (gn_PongReceived node) (g_currentEpoch g) slots (mkLoad 0 0 []) "").

Section views.
Context `{!GoRange string GossipNode}.

Definition GetNodes (g : Gossip) : list GossipNode := (go_range (g_nodes g)).*2.

Definition others (g : Gossip) : list GossipNode :=
  filter (λ n, gn_ID n ≠ g_self g) (GetNodes g).

(** [shuffle] is [rand.Shuffle]. *)
Definition randomGossipNodes (shuffle : list NodeInfo → list NodeInfo) (g : Gossip) (sm : SlotManager)
    : option (list NodeInfo) :=
  nodes ← mapM (gossip_info g sm) (others g);
  Some (if GossipCount <? Z.of_nat (length nodes) then take (Z.to_nat GossipCount) (shuffle nodes) else nodes).

(** The state change of [handlePing], and the answer it sends. *)
Definition handlePing shuffle load (now : Z) (g : Gossip) (sm : SlotManager) (msg : Message)
    : option (Message * Gossip * SlotManager * list gossip_event) :=
  st ← process_message now g sm msg;
  let '(g, sm, events) := st in
  info ← selfNodeInfo g sm load;
  nodes ← randomGossipNodes shuffle g sm;
  Some (NewPongMessage (g_self g) info nodes, g, sm, events).

(** The nodes that [pingRandomNode] chooses from. *)
Definition ping_candidates (now : Z) (g : Gossip) : list GossipNode :=
  filter (λ n, ClusterPingInterval < now - gn_PingSent n) (others g).

Definition countMasters (g : Gossip) : Z :=
  Z.of_nat (length (filter (λ n, gn_Role n = NodeRoleMaster ∧ gn_State n = NodeStateConnected) (GetNodes g))).

(** The nodes that [broadcastFail] and [broadcastNodeInfo] send to. *)
Definition broadcast_targets (g : Gossip) : list GossipNode :=
  filter (λ n, gn_State n = NodeStateConnected) (others g).

(** A connected node that has not answered for too long is suspected. *)
Definition suspect (now : Z) (node : GossipNode) : GossipNode :=
  if bool_decide (gn_State node = NodeStateConnected) && (ClusterNodeTimeout <? now - gn_PongReceived node)
  then MarkPFail node else node.

(** One node of [checkNodeFailures]. *)
Definition check_node (now : Z) (st : Gossip * list gossip_event) (id : string) : Gossip * list gossip_event :=
  let '(g, events) := st in
  match g_nodes g !! id with
  | None => st
  | Some node =>
      if bool_decide (gn_ID node = g_self g) then st
      else
        let node := suspect now node in
        let g := put_nodes g (<[id := node]> (g_nodes g)) in
        if bool_decide (gn_State node = NodeStatePFail)
           && (countMasters g / 2 + 1 <=? CountFailReports now ClusterFailReportValidity node)
        then (put_nodes g (<[id := MarkFail node]> (g_nodes g)), events ++ [BroadcastFail (gn_ID node); NodeLeave (gn_ID node)])
        else (g, events)
  end.

Definition checkNodeFailures (now : Z) (g : Gossip) : Gossip * list gossip_event :=
  foldl (check_node now) (g, []) (go_range (g_nodes g)).*1.
End views.

Definition GetNode (g : Gossip) (id : string) : option GossipNode := g_nodes g !! id.

Definition hasSlot (slots : list Z) (target : Z) : bool := bool_decide (target ∈ slots).

(** The report [BroadcastSlotOwnership] sends; [None] is an unknown owner (an
    error of the call) or a slot out of range. *)
Definition ownership_info (g : Gossip) (sm : SlotManager) (slot : Z) (ownerID : string) : option (NodeInfo * Gossip) :=
  owner ← g_nodes g !! ownerID;
  let '(epoch, g) := slotEpoch g sm slot in
  let slots := GetNodeSlots sm ownerID in
  let slots := if hasSlot slots slot then slots else slots ++ [slot] in
  bitmap ← SlotsToBytes slots;
  Some (mkInfo (gn_ID owner) (gn_IP owner) (gn_Port owner) (gn_ClusterPort owner) NodeFlagMaster "" 0 0 epoch bitmap
          (mkLoad 0 0 []) "", g).

Definition SetSelfRole (g : Gossip) (role : NodeRole) (masterID : string) : Gossip :=
  match g_nodes g !! g_self g with
  | Some self => put_nodes g (<[g_self g := set_role role masterID self]> (g_nodes g))
  | None => g
  end.

Definition PromoteToMaster (g : Gossip) (nodeID : string) : Gossip :=
  match g_nodes g !! nodeID with
  | Some node => put_nodes g (<[nodeID := set_role NodeRoleMaster "" node]> (g_nodes g))
  | None => g
  end.
