(* ===== verification/GossipSpec.v ===== *)
(** * What the gossip protocol guarantees

    The slot bitmaps and the frames of messages are read back as written; among
    the first-hand reports about a slot the one with the highest epoch wins, in
    whatever order they arrive; a node is declared failed only with a majority
    of fresh reports. A second-hand report carries the epoch of its sender, not
    of the ownership, and can undo a later change of owner. *)

From S2P Require Import Prelude Hash Strconv Slots SlotsSpec Gossip.
From stdpp Require Import options.

(** ** Bitmaps *)

Lemma land_single x k : 0 ≤ k → negb (Z.land x (Z.shiftl 1 k) =? 0) = Z.testbit x k.
Proof.
  intros Hk. rewrite Z.shiftl_1_l. destruct (Z.testbit x k) eqn:E.
  - apply negb_true_iff, Z.eqb_neq. intros H0. apply (f_equal (λ z, Z.testbit z k)) in H0.
    rewrite Z.land_spec, E, Z.pow2_bits_true, Z.bits_0 in H0 by done. done.
  - apply negb_false_iff, Z.eqb_eq. apply Z.bits_inj. intros n. rewrite Z.land_spec, Z.bits_0.
    destruct (decide (n = k)) as [->|Hn]; [by rewrite E|]. by rewrite Z.pow2_bits_false, andb_false_r by done.
Qed.

Lemma bit_set_spec bm i b : 0 ≤ i → bm !! Z.to_nat (i / 8) = Some b → bit_set bm i = Z.testbit (Z_of_byte b) (i mod 8).
Proof. intros Hi E. unfold bit_set. rewrite E. apply land_single. apply Z.mod_pos_bound. lia. Qed.

Lemma lor_byte b k : 0 ≤ k < 8 → Z_of_byte (byte_of_Z (Z.lor (Z_of_byte b) (Z.shiftl 1 k))) = Z.lor (Z_of_byte b) (Z.shiftl 1 k).
Proof.
  intros Hk. rewrite Z_of_byte_of_Z. apply Z.mod_small. pose proof (Z_of_byte_range b).
  split; [apply Z.lor_nonneg; split; [lia|apply Z.shiftl_nonneg; lia]|].
  change 256 with (2 ^ 8). rewrite Z.shiftl_1_l. destruct (decide (Z_of_byte b = 0)) as [->|H0].
  - rewrite Z.lor_0_l. apply Z.pow_lt_mono_r; lia.
  - apply Z.log2_lt_pow2; [apply Z.le_neq; split; [apply Z.lor_nonneg; lia|]|].
    + intros E. symmetry in E. apply Z.lor_eq_0_iff in E as [E _]. done.
    + rewrite Z.log2_lor by lia. apply Z.max_lub_lt; [|rewrite Z.log2_pow2; lia].
      apply Z.log2_lt_pow2; lia.
Qed.

Lemma set_bit_spec bm slot :
  length bm = 2048%nat → valid_slot slot →
  ∃ bm', set_bit bm slot = Some bm' ∧ length bm' = 2048%nat ∧
    ∀ i, valid_slot i → bit_set bm' i = bool_decide (i = slot) || bit_set bm i.
Proof.
  unfold valid_slot, SlotCount. intros Hl Hs. unfold set_bit.
  assert (0 ≤ slot / 8 < 2048) as Hd by (split; [apply Z.div_pos; lia|apply Z.div_lt_upper_bound; lia]).
  destruct (lookup_lt_is_Some_2 bm (Z.to_nat (slot / 8)) ltac:(lia)) as [b Hb]. rewrite Hb. cbn [mbind option_bind].
  eexists. split; [done|]. split; [by rewrite length_insert|]. intros i Hi.
  assert (0 ≤ i / 8 < 2048) as Hdi by (split; [apply Z.div_pos; lia|apply Z.div_lt_upper_bound; lia]).
  pose proof (Z.mod_pos_bound slot 8 ltac:(lia)). pose proof (Z.mod_pos_bound i 8 ltac:(lia)).
  destruct (decide (i / 8 = slot / 8)) as [E|E].
  - rewrite (bit_set_spec _ i (byte_of_Z (Z.lor (Z_of_byte b) (Z.shiftl 1 (slot mod 8))))); [|lia|].
    + rewrite (bit_set_spec bm i b) by (rewrite ?E; done || lia). rewrite lor_byte, Z.lor_spec by done.
      rewrite Z.shiftl_1_l, orb_comm. f_equal. case_bool_decide as Hc.
      * rewrite Hc. apply Z.pow2_bits_true. lia.
      * apply Z.pow2_bits_false. intros Hm. apply Hc.
        rewrite (Z.div_mod i 8), (Z.div_mod slot 8) by lia. congruence.
    + rewrite E. apply list_lookup_insert_eq. lia.
  - rewrite bool_decide_eq_false_2 by congruence. cbn [orb]. unfold bit_set.
    by rewrite list_lookup_insert_ne by lia.
Qed.

Lemma set_bits_spec slots bm :
  length bm = 2048%nat → Forall valid_slot slots →
  ∃ bm', loop set_bit bm slots = Some bm' ∧ length bm' = 2048%nat ∧
    ∀ i, valid_slot i → bit_set bm' i = bool_decide (i ∈ slots) || bit_set bm i.
Proof.
  intros Hl HF. revert bm Hl. induction HF as [|s slots Hs HF IH]; intros bm Hl; [by exists bm|].
  destruct (set_bit_spec bm s Hl Hs) as (bm1 & E1 & L1 & B1). cbn [loop]. rewrite E1. cbn [mbind option_bind].
  destruct (IH bm1 L1) as (bm' & E & L & B). exists bm'. split_and!; [done|done|]. intros i Hi.
  rewrite B, B1, orb_assoc by done. f_equal. apply eq_true_iff_eq.
  rewrite orb_true_iff, !bool_decide_eq_true, elem_of_cons. tauto.
Qed.

Lemma StronglySorted_seqZ m n : StronglySorted Z.lt (seqZ m n).
Proof.
  destruct (decide (n ≤ 0)) as [Hn|Hn]; [by rewrite seqZ_nil by lia; constructor|].
  rewrite <-(Z2Nat.id n) by lia. clear Hn. revert m. induction (Z.to_nat n) as [|k IH]; intros m; [constructor|].
  rewrite seqZ_cons by lia. replace (Z.pred (Z.of_nat (S k))) with (Z.of_nat k) by lia.
  constructor; [apply IH|]. apply Forall_forall. intros x Hx%elem_of_seqZ. lia.
Qed.

Lemma StronglySorted_filter {A} (R : relation A) (f : A → bool) l :
  StronglySorted R l → StronglySorted R (List.filter f l).
Proof.
  induction 1 as [|x l HS IH HF]; cbn [List.filter]; [constructor|]. destruct (f x); [|done].
  constructor; [done|]. rewrite !Forall_forall in *. intros y Hy. apply HF.
  apply list_elem_of_In, filter_In in Hy as [Hy _]. by apply list_elem_of_In.
Qed.

Lemma elem_of_BytesToSlots bm s :
  length bm = 2048%nat → s ∈ BytesToSlots bm ↔ valid_slot s ∧ bit_set bm s = true.
Proof.
  intros Hl. unfold BytesToSlots, valid_slot, SlotCount. rewrite list_elem_of_In, filter_In, <-list_elem_of_In, elem_of_seqZ, Hl.
  change (0 + Z.min (8 * Z.of_nat 2048) 16384) with 16384. done.
Qed.

Lemma SlotsToBytes_slots slots :
  Forall valid_slot slots → ∃ bm, SlotsToBytes slots = Some bm ∧ ∀ s, s ∈ BytesToSlots bm ↔ s ∈ slots.
Proof.
  intros HF. destruct (set_bits_spec slots (replicate 2048 x00) (length_replicate _ _) HF) as (bm & E & L & B).
  exists bm. split; [done|]. intros s. rewrite elem_of_BytesToSlots by done. rewrite Forall_forall in HF. split.
  - intros [Hv Hb]. rewrite B in Hb by done. apply orb_true_iff in Hb as [Hb|Hb]; [by apply bool_decide_eq_true in Hb|].
    unfold bit_set in Hb. destruct (_ !! _) as [b|] eqn:Eb; [|done]. apply lookup_replicate in Eb as [-> _].
    by rewrite Z.land_0_l in Hb.
  - intros Hs. split; [by apply HF|]. rewrite B by by apply HF. by rewrite bool_decide_eq_true_2.
Qed.

(** The slots a node reports are read back from the bitmap: exactly those, in
    increasing order. *)
Theorem slots_bitmap_roundtrip slots :
  Forall valid_slot slots →
  ∃ bm, SlotsToBytes slots = Some bm ∧
    (∀ s, s ∈ BytesToSlots bm ↔ s ∈ slots) ∧ StronglySorted Z.lt (BytesToSlots bm).
Proof.
  intros HF. destruct (SlotsToBytes_slots slots HF) as (bm & E & B). exists bm.
  split_and!; [done|done|by apply StronglySorted_filter, StronglySorted_seqZ].
Qed.

(** ** Frames *)

Lemma byte_of_shift z k : 0 ≤ z → 0 ≤ k → Z_of_byte (byte_of_Z (Z.shiftr z k)) = z / 2 ^ k mod 256.
Proof. intros. rewrite Z_of_byte_of_Z. by rewrite Z.shiftr_div_pow2. Qed.

Lemma be_value z :
  0 ≤ z < 2 ^ 32 →
  Z.lor (Z.lor (Z.shiftl (z / 2 ^ 24 mod 256) 24) (Z.shiftl (z / 2 ^ 16 mod 256) 16))
    (Z.lor (Z.shiftl (z / 2 ^ 8 mod 256) 8) (z / 2 ^ 0 mod 256)) = z.
Proof.
  intros Hz. apply Z.bits_inj'. intros n Hn. change 256 with (2 ^ 8).
  rewrite !Z.lor_spec, !Z.shiftl_spec by done.
  assert (∀ k m, 0 ≤ k → Z.testbit (z / 2 ^ k mod 2 ^ 8) m = if decide (0 ≤ m < 8) then Z.testbit z (m + k) else false) as T.
  { intros k m Hk. case_decide as Hm.
    - rewrite Z.mod_pow2_bits_low by lia. by rewrite Z.div_pow2_bits by lia.
    - destruct (Z.ltb_spec m 0); [by apply Z.testbit_neg_r|]. apply Z.mod_pow2_bits_high. lia. }
  rewrite !T by lia. repeat case_decide; try lia;
    repeat match goal with |- context [Z.testbit z ?a] => progress (replace a with n by lia) end;
    rewrite ?orb_false_r, ?orb_false_l; try done.
  symmetry. apply Z.bits_above_log2; [lia|]. destruct (decide (z = 0)) as [->|]; [cbn; lia|]. 
  enough (Z.log2 z < 32) by lia. apply Z.log2_lt_pow2; lia.
Qed.

(** A framed message is read back, and what follows it on the connection is left
    there; a message of more than a megabyte, which the writer sends all the
    same, is refused by the reader. *)
Theorem message_frame_roundtrip data rest :
  Z.of_nat (length data) < 2 ^ 32 →
  readMessage (writeMessage data ++ rest)
  = if 2 ^ 20 <? Z.of_nat (length data) then inl (ErrTooLarge (Z.of_nat (length data))) else inr (data, rest).
Proof.
  intros Hl. unfold writeMessage, u32. rewrite Z.mod_small by lia. cbn [fmap list_fmap app readMessage].
  rewrite !byte_of_shift by lia. rewrite be_value by lia. change (1024 * 1024) with (2 ^ 20).
  destruct (Z.ltb_spec (2 ^ 20) (Z.of_nat (length data))); [done|].
  rewrite length_app, (proj2 (Z.ltb_ge _ _)) by lia. rewrite Nat2Z.id. by rewrite take_app_length, drop_app_length.
Qed.

(** ** Who owns a slot *)

(** The epoch under which a node knows the owner of a slot. *)
Definition known (g : Gossip) (sm : SlotManager) (slot : Z) : Z :=
  Z.max (slot_epoch g slot) (GetSlotConfigEpoch sm slot).

Definition view (g : Gossip) (sm : SlotManager) (slot : Z) : string * Z := (GetSlotNode sm slot, known g sm slot).

(** What a report of the owner [id] under an epoch does to the view of a slot. *)
Definition claim (v : string * Z) (id : string) (epoch : Z) : string * Z :=
  if (if epoch =? 0 then v.2 =? 0 else v.2 <? epoch) then (id, epoch) else v.

Record gossip_wf (g : Gossip) (sm : SlotManager) : Prop := {
  gw_index : index_ok sm;
  gw_ids id n : g_nodes g !! id = Some n → gn_ID n = id;
  gw_epoch slot : 0 ≤ slot_epoch g slot
}.

Lemma GetSlotInfo_valid sm slot : valid_slot slot → GetSlotInfo sm slot = slot_at sm slot.
Proof. intros [_ H]. unfold GetSlotInfo. by rewrite (proj2 (Z.leb_gt _ _)) by done. Qed.

Lemma slot_epoch_record g slot epoch slot' :
  slot_epoch (recordSlotEpoch g slot epoch) slot'
  = if decide (slot' = slot) then Z.max (slot_epoch g slot) epoch else slot_epoch g slot'.
Proof.
  unfold recordSlotEpoch. destruct (Z.leb_spec (slot_epoch g slot) epoch); unfold slot_epoch in *; cbn [g_slotEpochs].
  - case_decide; subst; [rewrite lookup_insert_eq; cbn; lia|by rewrite lookup_insert_ne].
  - case_decide; subst; [lia|done].
Qed.

Lemma wf_record g sm slot epoch : 0 ≤ epoch → gossip_wf g sm → gossip_wf (recordSlotEpoch g slot epoch) sm.
Proof.
  intros He [H1 H2 H3]. split; [done| |].
  - unfold recordSlotEpoch. by destruct (_ <=? _).
  - intros s. rewrite slot_epoch_record. specialize (H3 s) as Hs. case_decide; subst; lia.
Qed.

Lemma view_record g sm slot epoch slot' :
  0 ≤ epoch → canApplySlotOwnership g sm slot epoch = true →
  known (recordSlotEpoch g slot epoch) sm slot' = if decide (slot' = slot) then epoch else known g sm slot'.
Proof.
  intros He HC. unfold known. rewrite slot_epoch_record. case_decide; [subst|done].
  unfold canApplySlotOwnership in HC. repeat zcase_in HC; (done || lia).
Qed.

Lemma can_apply_claim g sm slot epoch :
  canApplySlotOwnership g sm slot epoch = if epoch =? 0 then known g sm slot =? 0 else known g sm slot <? epoch.
Proof. unfold canApplySlotOwnership, known. zcases; (done || lia). Qed.

Lemma apply_slot_view id epoch g sm ev slot :
  gossip_wf g sm → valid_slot slot → 0 ≤ epoch →
  ∃ g' sm' ev', apply_slot id epoch (g, sm, ev) slot = Some (g', sm', ev') ∧ gossip_wf g' sm' ∧ g_nodes g' = g_nodes g ∧
    ∀ slot', valid_slot slot' →
      view g' sm' slot' = if decide (slot' = slot) then claim (view g sm slot) id epoch else view g sm slot'.
Proof.
  intros Hwf Hv He. unfold apply_slot. destruct (canApplySlotOwnership g sm slot epoch) eqn:HC; cbn [negb]; last first.
  { exists g, sm, ev. split_and!; try done. intros s Hs. case_decide; [subst|done].
    rewrite can_apply_claim in HC. unfold claim. cbn [snd view]. by rewrite HC. }
  assert (claim (view g sm slot) id epoch = (id, epoch)) as Hcl.
  { rewrite can_apply_claim in HC. unfold claim. cbn [snd view]. by rewrite HC. }
  assert (∀ g, g_nodes (recordSlotEpoch g slot epoch) = g_nodes g) as HN by (intros; unfold recordSlotEpoch; by destruct (_ <=? _)).
  case_bool_decide as HO.
  { eexists _, _, _. split; [done|]. split_and!; [by apply wf_record|by apply HN|]. intros s Hs. unfold view.
    rewrite view_record by done. case_decide; [subst s|done]. fold (view g sm slot). by rewrite Hcl, HO. }
  destruct (AssignSlot_spec sm slot id (gw_index _ _ Hwf) Hv) as (info & sm' & Hs & -> & Hi & HS). cbn [mbind option_bind].
  assert (∀ s, valid_slot s → GetSlotNode sm' s = if decide (s = slot) then id else GetSlotNode sm s) as N.
  { intros s Hs'. unfold GetSlotNode. rewrite !GetSlotInfo_valid by done. unfold slot_at. rewrite HS.
    case_decide; [subst s|by rewrite list_lookup_insert_ne by (destruct Hv, Hs'; lia)].
    rewrite list_lookup_insert_eq; [done|]. rewrite (ix_length _ (gw_index _ _ Hwf)). destruct Hv. lia. }
  assert (∀ s, valid_slot s → GetSlotConfigEpoch sm' s = GetSlotConfigEpoch sm s) as E.
  { intros s Hs'. unfold GetSlotConfigEpoch. rewrite !GetSlotInfo_valid by done. unfold slot_at. rewrite HS.
    destruct (decide (s = slot)) as [->|Hne]; [|by rewrite list_lookup_insert_ne by (destruct Hv, Hs'; lia)].
    rewrite list_lookup_insert_eq by (rewrite (ix_length _ (gw_index _ _ Hwf)); destruct Hv; lia).
    unfold slot_at in Hs. by rewrite Hs. }
  eexists _, _, _. split; [done|]. split_and!.
  - apply wf_record; [done|]. destruct Hwf. by split.
  - by apply HN.
  - intros s Hs'. unfold view, known. rewrite N, E by done.
    pose proof (view_record g sm slot epoch s He HC) as HK. unfold known in HK. rewrite HK.
    case_decide; [subst s|done]. fold (known g sm slot). fold (view g sm slot). by rewrite Hcl.
Qed.

Lemma apply_slots_view id epoch slots g sm ev :
  gossip_wf g sm → Forall valid_slot slots → NoDup slots → 0 ≤ epoch →
  ∃ g' sm' ev', loop (apply_slot id epoch) (g, sm, ev) slots = Some (g', sm', ev') ∧ gossip_wf g' sm' ∧
    g_nodes g' = g_nodes g ∧
    ∀ slot, valid_slot slot → view g' sm' slot = if decide (slot ∈ slots) then claim (view g sm slot) id epoch else view g sm slot.
Proof.
  intros Hwf HF. revert g sm ev Hwf. induction HF as [|s slots Hs HF IH]; intros g sm ev Hwf Hnd He.
  { by exists g, sm, ev. }
  apply NoDup_cons in Hnd as [Hn Hnd]. cbn [loop].
  destruct (apply_slot_view id epoch g sm ev s Hwf Hs He) as (g1 & sm1 & ev1 & -> & W1 & N1 & V1). cbn [mbind option_bind].
  destruct (IH g1 sm1 ev1 W1 Hnd He) as (g' & sm' & ev' & E & W & N & V). exists g', sm', ev'. split_and!; [done|done|congruence|].
  intros slot Hv. rewrite V, V1 by done. destruct (decide (slot = s)) as [->|Hne].
  - rewrite (decide_False (P := s ∈ slots)), (decide_True (P := s ∈ s :: slots)) by (done || by left). done.
  - destruct (decide (slot ∈ slots)) as [Hin|Hin].
    + by rewrite (decide_True (P := slot ∈ s :: slots)) by by right.
    + by rewrite (decide_False (P := slot ∈ s :: slots)) by (rewrite not_elem_of_cons; done).
Qed.

(** Registering a replica changes no owner and no epoch. *)
Lemma AddSlotReplica_view g sm slot id :
  gossip_wf g sm → valid_slot slot →
  ∃ sm', AddSlotReplica sm slot id = Some sm' ∧ gossip_wf g sm' ∧ ∀ slot', valid_slot slot' → view g sm' slot' = view g sm slot'.
Proof.
  intros Hwf Hv. unfold AddSlotReplica. rewrite (proj2 (Z.leb_gt SlotCount slot)) by apply Hv. cbn [orb].
  case_bool_decide; [by exists sm|]. destruct (slot_at_Some sm slot (gw_index _ _ Hwf) Hv) as [info Hs]. rewrite Hs.
  cbn [mbind option_bind]. case_bool_decide; [by exists sm|]. destruct (has_replica info id); [by exists sm|].
  eexists. split; [done|]. destruct Hwf as [Hi Hn He]. split.
  { split; [|done|done]. apply index_ok_dirty. by eapply put_same_owner. }
  intros s Hs'. unfold view, known, GetSlotNode, GetSlotConfigEpoch. rewrite !GetSlotInfo_valid by done.
  rewrite slot_at_markDirty, slot_at_put by (done || apply Hs'). case_decide; [subst s|done]. by rewrite Hs.
Qed.

Lemma register_view g id slots sm :
  gossip_wf g sm → Forall valid_slot slots →
  ∃ sm', loop (λ sm slot, AddSlotReplica sm slot id) sm slots = Some sm' ∧ gossip_wf g sm' ∧
    ∀ slot, valid_slot slot → view g sm' slot = view g sm slot.
Proof.
  intros Hwf HF. revert sm Hwf. induction HF as [|s slots Hs HF IH]; intros sm Hwf; [by exists sm|]. cbn [loop].
  destruct (AddSlotReplica_view g sm s id Hwf Hs) as (sm1 & -> & W1 & V1). cbn [mbind option_bind].
  destruct (IH sm1 W1) as (sm' & E & W & V). exists sm'. split_and!; [done|done|].
  intros slot Hv. by rewrite V, V1.
Qed.

Lemma node_slots_valid sm n : index_ok sm → n ≠ "" → Forall valid_slot (GetNodeSlots sm n).
Proof.
  intros Hi Hn. apply Forall_forall. intros s Hs. unfold GetNodeSlots in Hs.
  apply (ix_owns _ Hi) in Hs as [H0 Hs]; [|done]. split; [done|].
  destruct (slot_at sm s) as [info|] eqn:E; [|done]. apply lookup_lt_Some in E.
  rewrite (ix_length _ Hi) in E. unfold SlotCount in *. lia.
Qed.

Lemma BytesToSlots_valid bm : Forall valid_slot (BytesToSlots bm) ∧ NoDup (BytesToSlots bm).
Proof.
  split.
  - apply Forall_forall. intros s Hs. unfold BytesToSlots in Hs. apply list_elem_of_In, filter_In in Hs as [Hs _].
    apply list_elem_of_In, elem_of_seqZ in Hs. unfold valid_slot, SlotCount. lia.
  - apply NoDup_ListNoDup, List.NoDup_filter, NoDup_ListNoDup, NoDup_seqZ.
Qed.

(** A first-hand report of a master. *)
Definition master_report (info : NodeInfo) : Prop :=
  has_flag (ni_Flags info) NodeFlagMaster = true ∧ 0 ≤ ni_ConfigEpoch info.

Definition reports (info : NodeInfo) (slot : Z) : Prop := slot ∈ BytesToSlots (ni_Slots info).
#[global] Instance reports_dec info slot : Decision (reports info slot) := decide (slot ∈ BytesToSlots (ni_Slots info)).

(** The entry that a report updates. *)
Definition entry (g : Gossip) (info : NodeInfo) : GossipNode := default (discovered info) (g_nodes g !! ni_ID info).

Lemma update_node_ID now info direct node : gn_ID (update_node now info direct node) = gn_ID node.
Proof. unfold update_node. by repeat case_match. Qed.

Lemma update_node_master now info node :
  has_flag (ni_Flags info) NodeFlagMaster = true → gn_Role (update_node now info true node) = NodeRoleMaster.
Proof. intros H. unfold update_node. rewrite H. by destruct (_ && _). Qed.

Lemma update_node_role now info node : gn_Role (update_node now info false node) = gn_Role node.
Proof. unfold update_node. by destruct (_ && _). Qed.

(** A report that counts as one of a master. *)
Lemma processNodeInfo_master now g sm info direct :
  gossip_wf g sm → 0 ≤ ni_ConfigEpoch info → gn_Role (update_node now info direct (entry g info)) = NodeRoleMaster →
  ∃ g' sm' ev, processNodeInfo now g sm info direct = Some (g', sm', ev) ∧ gossip_wf g' sm' ∧
    ∀ slot, valid_slot slot →
      view g' sm' slot = if decide (reports info slot) then claim (view g sm slot) (ni_ID info) (ni_ConfigEpoch info)
                         else view g sm slot.
Proof.
  intros Hwf He Hr. unfold processNodeInfo.
  set (p := match g_nodes g !! ni_ID info with Some node => _ | None => _ end).
  assert (gn_ID p.1 = ni_ID info ∧ p.1 = entry g info) as [Hid Hen].
  { unfold p, entry. destruct (g_nodes g !! ni_ID info) as [n|] eqn:E; [|done]. by apply (gw_ids _ _ Hwf) in E. }
  destruct p as [node ev]. cbn [fst] in Hid, Hen. rewrite <-Hen in Hr.
  set (node' := update_node now info direct node) in *.
  set (g1 := put_nodes g (<[ni_ID info := node']> (g_nodes g))).
  assert (gn_ID node' = ni_ID info) as Hi by (unfold node'; by rewrite update_node_ID).
  assert (gossip_wf g1 sm) as W1.
  { destruct Hwf as [H1 H2 H3]. split; [done| |done]. intros id n. unfold g1. cbn [g_nodes put_nodes].
    destruct (decide (id = ni_ID info)) as [->|Hne]; [rewrite lookup_insert_eq; intros [= <-]; congruence|].
    rewrite lookup_insert_ne by done. apply H2. }
  set (reg := if _ && _ then _ else Some sm).
  assert (∃ sm1, reg = Some sm1 ∧ gossip_wf g1 sm1 ∧ ∀ slot, valid_slot slot → view g1 sm1 slot = view g1 sm slot)
    as (sm1 & -> & W2 & V2).
  { unfold reg. case_bool_decide as Hm; cbn [negb]; rewrite ?andb_false_r, ?andb_true_r; [by exists sm|].
    destruct direct; [|by exists sm].
    apply register_view; [done|]. apply node_slots_valid; [apply W1|done]. }
  cbn [mbind option_bind]. rewrite (bool_decide_eq_true_2 _ Hr), andb_true_r.
  destruct (BytesToSlots_valid (ni_Slots info)) as [HF HD].
  assert (∀ slot, valid_slot slot → view g1 sm slot = view g sm slot) as V1 by done.
  case_bool_decide as Hs; cbn [negb].
  - exists g1, sm1, ev. split_and!; [done|done|]. intros slot Hv. rewrite decide_False; [by rewrite V2|].
    unfold reports. rewrite Hs. apply not_elem_of_nil.
  - destruct (apply_slots_view (gn_ID node') (ni_ConfigEpoch info) _ g1 sm1 ev W2 HF HD He)
      as (g' & sm' & ev' & E & W & _ & V).
    exists g', sm', ev'. split_and!; [done|done|]. intros slot Hv. rewrite V, V2, V1 by done. by rewrite Hi.
Qed.

(** The view of a slot after a list of reports. *)
Definition heard (slot : Z) (v : string * Z) (infos : list NodeInfo) : string * Z :=
  foldl (λ v info, if decide (reports info slot) then claim v (ni_ID info) (ni_ConfigEpoch info) else v) v infos.

Lemma reports_view now infos g sm ev :
  gossip_wf g sm → Forall master_report infos →
  ∃ g' sm' ev', loop (process_with now true) (g, sm, ev) infos = Some (g', sm', ev') ∧
    ∀ slot, valid_slot slot →
      view g' sm' slot = heard slot (view g sm slot) infos.
Proof.
  intros Hwf HF. revert g sm ev Hwf. induction HF as [|info infos Hi HF IH]; intros g sm ev Hwf; [by exists g, sm, ev|].
  destruct (processNodeInfo_master now g sm info true Hwf (proj2 Hi) (update_node_master now info _ (proj1 Hi))) as (g1 & sm1 & ev1 & E1 & W1 & V1).
  assert (process_with now true (g, sm, ev) info = Some (g1, sm1, ev ++ ev1)) as E2 by (cbn; by rewrite E1).
  cbn [loop]. rewrite E2. cbn [mbind option_bind]. destruct (IH g1 sm1 (ev ++ ev1) W1) as (g' & sm' & ev' & E & V).
  exists g', sm', ev'. split; [done|]. intros slot Hv. rewrite V by done. unfold heard. cbn [foldl]. by rewrite V1.
Qed.

Lemma heard_best slot best infos v :
  (∀ info, info ∈ infos → reports info slot → info ≠ best → ni_ConfigEpoch info < ni_ConfigEpoch best) →
  Forall master_report infos → reports best slot → 0 ≤ v.2 → 0 < ni_ConfigEpoch best →
  (v = (ni_ID best, ni_ConfigEpoch best) ∨ (best ∈ infos ∧ v.2 < ni_ConfigEpoch best)) →
  heard slot v infos = (ni_ID best, ni_ConfigEpoch best).
Proof.
  intros Hlt HF. revert v Hlt. induction HF as [|info infos Hi HF IH]; intros v Hlt Hb H0 Hp Hv.
  { destruct Hv as [->|[[]%not_elem_of_nil _]]. done. }
  unfold heard. cbn [foldl]. fold (heard slot). apply IH; [intros ? ?; apply Hlt; by right|done| | |].
  - destruct Hi as [_ Hi]. case_decide; [|done]. unfold claim. zcases; cbn [snd]; lia.
  - done.
  - destruct (decide (info = best)) as [->|Hne].
    + left. rewrite decide_True by done. unfold claim. destruct Hv as [->|[_ Hv]]; cbn [snd] in *; zcases; try done; lia.
    + case_decide as Hr; [|destruct Hv as [->|[Hin Hv]]; [by left|right]].
      * specialize (Hlt info ltac:(by left) Hr Hne). unfold claim.
        destruct Hv as [->|[Hin Hv]]; cbn [snd] in *; [left; zcases; (done || lia)|].
        right. split; [by apply elem_of_cons in Hin as [?|?]; [congruence|]|]. zcases; cbn [snd]; lia.
      * split; [|done]. apply elem_of_cons in Hin as [?|?]; [congruence|done].
Qed.

Lemma heard_nothing slot infos v :
  0 < v.2 → (∀ info, info ∈ infos → reports info slot → ni_ConfigEpoch info ≤ v.2) → heard slot v infos = v.
Proof.
  intros H0. induction infos as [|info infos IH]; intros Hle; [done|]. unfold heard. cbn [foldl]. fold (heard slot).
  assert ((if decide (reports info slot) then claim v (ni_ID info) (ni_ConfigEpoch info) else v) = v) as ->.
  { case_decide as Hr; [|done]. specialize (Hle info ltac:(by left) Hr). unfold claim. zcases; (done || lia). }
  apply IH. intros i Hi. apply Hle. by right.
Qed.

(** Under epoch 0 the last report counts. *)
Lemma heard_unversioned slot infos v :
  v.2 = 0 → (∀ info, info ∈ infos → reports info slot → ni_ConfigEpoch info = 0) →
  heard slot v infos = (default v.1 (ni_ID <$> last (filter (λ info, reports info slot) infos)), 0).
Proof.
  revert v. induction infos as [|info infos IH]; intros [n e] H0 Hle; [simpl in *; by subst|].
  simpl in H0. subst e. rewrite filter_cons.
  change (heard slot (n, 0) (info :: infos)) with
    (heard slot (if decide (reports info slot) then claim (n, 0) (ni_ID info) (ni_ConfigEpoch info) else (n, 0)) infos).
  assert (∀ i, i ∈ infos → reports i slot → ni_ConfigEpoch i = 0) as Hle' by (intros i Hi; apply Hle; by right).
  case_decide as Hr; [|by apply IH].
  rewrite (Hle info) by (done || by left). rewrite IH by done. cbn. rewrite last_cons. by destruct (last _).
Qed.

(** C13: The highest epoch wins, in whatever order first-hand reports of masters
    arrive: a report of a slot under an epoch that is higher than the known one
    and than that of every other report of the slot decides the owner of the
    slot and its epoch; when the known epoch is not 0, reports that are not above
    it change nothing; and as long as all epochs are 0, the last report decides. *)
Theorem highest_epoch_owns_slot now g sm infos slot :
  gossip_wf g sm → Forall master_report infos → valid_slot slot →
  ∃ g' sm' ev, loop (process_with now true) (g, sm, []) infos = Some (g', sm', ev) ∧
    (∀ best, best ∈ infos → reports best slot → known g sm slot < ni_ConfigEpoch best →
       (∀ info, info ∈ infos → reports info slot → info ≠ best → ni_ConfigEpoch info < ni_ConfigEpoch best) →
       GetSlotNode sm' slot = ni_ID best ∧ known g' sm' slot = ni_ConfigEpoch best) ∧
    (0 < known g sm slot → (∀ info, info ∈ infos → reports info slot → ni_ConfigEpoch info ≤ known g sm slot) →
       GetSlotNode sm' slot = GetSlotNode sm slot ∧ known g' sm' slot = known g sm slot) ∧
    (known g sm slot = 0 → (∀ info, info ∈ infos → reports info slot → ni_ConfigEpoch info = 0) →
       GetSlotNode sm' slot = default (GetSlotNode sm slot) (ni_ID <$> last (filter (λ info, reports info slot) infos)) ∧
       known g' sm' slot = 0).
Proof.
  intros Hwf HF Hv. destruct (reports_view now infos g sm [] Hwf HF) as (g' & sm' & ev & E & V).
  assert (0 ≤ known g sm slot) as H0 by (unfold known; pose proof (gw_epoch _ _ Hwf slot); lia).
  specialize (V slot Hv). exists g', sm', ev. split_and!; [done| | |].
  - intros best Hin Hr Hlt Hall. rewrite (heard_best slot best infos) in V; try done; [|cbn; lia|by right].
    unfold view in V. by injection V as -> ->.
  - intros Hk Hall. rewrite heard_nothing in V by done. unfold view in V. by injection V as -> ->.
  - intros Hk Hall. rewrite heard_unversioned in V by done. unfold view in V. by injection V as -> ->.
Qed.

(** ** Failure detection *)

Section failures.
Context `{!GoRange string GossipNode}.

Definition live_master (n : GossipNode) : Prop := gn_Role n = NodeRoleMaster ∧ gn_State n = NodeStateConnected.

Definition master_ids (g : Gossip) : list string := (filter (λ p, live_master p.2) (go_range (g_nodes g))).*1.

Lemma countMasters_ids g : countMasters g = Z.of_nat (length (master_ids g)).
Proof.
  unfold countMasters, master_ids, GetNodes. f_equal. rewrite length_fmap.
  induction (go_range (g_nodes g)) as [|[id n] l IH]; [done|]. cbn [fmap list_fmap]. rewrite !filter_cons. cbn [snd].
  unfold live_master. case_decide; cbn [length]; by rewrite IH.
Qed.

Lemma elem_of_master_ids g id : id ∈ master_ids g ↔ ∃ n, g_nodes g !! id = Some n ∧ live_master n.
Proof.
  unfold master_ids. rewrite list_elem_of_fmap. split.
  - intros ([i n] & -> & [HP Hin]%list_elem_of_filter). exists n. split; [by apply elem_of_go_range|done].
  - intros (n & E & HP). exists (id, n). split; [done|]. apply list_elem_of_filter. split; [done|by apply elem_of_go_range].
Qed.

Lemma NoDup_master_ids g : NoDup (master_ids g).
Proof.
  pose proof (NoDup_go_range_keys (g_nodes g)) as H. unfold master_ids.
  eapply sublist_NoDup; [exact H|]. apply fmap_sublist, sublist_filter.
Qed.

Lemma countMasters_le g g' :
  (∀ id n', g_nodes g' !! id = Some n' → live_master n' → ∃ n, g_nodes g !! id = Some n ∧ live_master n) →
  countMasters g' ≤ countMasters g.
Proof.
  intros H. rewrite !countMasters_ids. apply inj_le, submseteq_length, NoDup_submseteq; [apply NoDup_master_ids|].
  intros id (n & E & HP)%elem_of_master_ids. apply elem_of_master_ids. by eapply H.
Qed.

(** What a check may do to the entry of a node: nothing, suspect a node that has
    been silent for too long, or declare a suspected node failed on more than
    half as many fresh reports as there are live masters afterwards. *)
Definition checked (now masters : Z) (n n' : GossipNode) : Prop :=
  n' = n ∨
  (n' = set_state NodeStatePFail n ∧ gn_State n = NodeStateConnected ∧ ClusterNodeTimeout < now - gn_PongReceived n) ∨
  (n' = set_state NodeStateFail n ∧
   (gn_State n = NodeStatePFail ∨ gn_State n = NodeStateConnected ∧ ClusterNodeTimeout < now - gn_PongReceived n) ∧
   masters < 2 * CountFailReports now ClusterFailReportValidity n).

Lemma checked_mono now k k' n n' : k' ≤ k → checked now k n n' → checked now k' n n'.
Proof. unfold checked. intros Hk [?|[?|(E & HS & HR)]]; [by left|by right; left|right; right]. split_and!; [done|done|lia]. Qed.

Lemma checked_live now k n n' : checked now k n n' → live_master n' → live_master n.
Proof. unfold live_master. intros [->|[(-> & H & _)|(-> & _)]]; cbn; [done|naive_solver|naive_solver]. Qed.

(** The failures a check announces. *)
Definition announced (n n' : GossipNode) : list gossip_event :=
  if bool_decide (gn_State n' = NodeStateFail) && negb (bool_decide (gn_State n = NodeStateFail))
  then [BroadcastFail (gn_ID n); NodeLeave (gn_ID n)] else [].

Lemma countMasters_insert g id n n' k now :
  g_nodes g !! id = Some n → checked now k n n' → countMasters (put_nodes g (<[id := n']> (g_nodes g))) ≤ countMasters g.
Proof.
  intros E HC. apply countMasters_le. intros i m. cbn [g_nodes put_nodes].
  destruct (decide (i = id)) as [->|Hne]; [|rewrite lookup_insert_ne by done; eauto].
  rewrite lookup_insert_eq. intros [= <-] HL. exists n. split; [done|]. by eapply checked_live.
Qed.

(** The node may be declared failed. *)
Definition silent (now : Z) (n : GossipNode) : Prop :=
  gn_State n = NodeStatePFail ∨ gn_State n = NodeStateConnected ∧ ClusterNodeTimeout < now - gn_PongReceived n.

Lemma suspect_cases now n :
  (suspect now n = n ∧ (gn_State n = NodeStateConnected → now - gn_PongReceived n ≤ ClusterNodeTimeout)) ∨
  (suspect now n = set_state NodeStatePFail n ∧ gn_State n = NodeStateConnected ∧ ClusterNodeTimeout < now - gn_PongReceived n).
Proof.
  unfold suspect, MarkPFail. case_bool_decide as Hc; cbn [andb]; [|left; by split].
  zcases; [right; done|left; split; [done|lia]].
Qed.

Lemma fail_quorum g id m k :
  countMasters (put_nodes g (<[id := m]> (g_nodes g))) / 2 + 1 <= k →
  countMasters (put_nodes g (<[id := MarkFail m]> (g_nodes g))) < 2 * k.
Proof.
  intros Hk.
  assert (countMasters (put_nodes g (<[id := MarkFail m]> (g_nodes g))) ≤ countMasters (put_nodes g (<[id := m]> (g_nodes g)))).
  { apply countMasters_le. intros i x. cbn [g_nodes put_nodes]. destruct (decide (i = id)) as [->|Hne].
    - rewrite lookup_insert_eq. intros [= <-] [_ HL]. discriminate HL.
    - rewrite !lookup_insert_ne by done. eauto. }
  pose proof (Z.div_mod (countMasters (put_nodes g (<[id := m]> (g_nodes g)))) 2 ltac:(lia)).
  pose proof (Z.mod_pos_bound (countMasters (put_nodes g (<[id := m]> (g_nodes g)))) 2 ltac:(lia)). lia.
Qed.

Lemma check_node_spec now g ev id n :
  g_nodes g !! id = Some n → gn_ID n = id →
  ∃ n', check_node now (g, ev) id = (put_nodes g (<[id := n']> (g_nodes g)), ev ++ announced n n') ∧
    checked now (countMasters (put_nodes g (<[id := n']> (g_nodes g)))) n n' ∧ (id = g_self g → n' = n).
Proof.
  intros E Hid. unfold check_node. rewrite E.
  assert (∀ m, gn_State m ≠ NodeStateFail ∨ gn_State n = NodeStateFail → announced n m = []) as Hann.
  { intros m Hm. unfold announced. repeat case_bool_decide; naive_solver. }
  case_bool_decide as Hself.
  { exists n. rewrite insert_id, Hann, app_nil_r by (done || (destruct (gn_State n); naive_solver)).
    split_and!; [by destruct g|by left|done]. }
  assert (∀ m, id = g_self g → m = n) as Hns by (intros; congruence).
  destruct (suspect_cases now n) as [[Hs Hc]|(Hs & Hc & Ht)]; rewrite Hs;
    (destruct (bool_decide (gn_State _ = NodeStatePFail)) eqn:EP; [apply bool_decide_eq_true in EP|apply bool_decide_eq_false in EP]);
    cbn [andb].
  - zcases.
    + exists (MarkFail n). cbn [put_nodes g_nodes g_self g_slotEpochs g_currentEpoch]. rewrite insert_insert_eq.
      split_and!; [|right; right|by apply Hns].
      * unfold announced. by rewrite Hid, bool_decide_eq_true_2, (bool_decide_eq_false_2 (gn_State n = _)) by (done || congruence).
      * split_and!; [done|by left|by apply fail_quorum].
    + exists n. rewrite Hann, app_nil_r by (left; congruence). split_and!; [done|by left|done].
  - exists n. rewrite Hann, app_nil_r by (destruct (gn_State n); naive_solver). split_and!; [done|by left|done].
  - zcases.
    + exists (MarkFail n). cbn [put_nodes g_nodes g_self g_slotEpochs g_currentEpoch]. rewrite insert_insert_eq.
      split_and!; [|right; right|by apply Hns].
      * unfold announced. cbn [gn_ID set_state]. by rewrite Hid, bool_decide_eq_true_2, (bool_decide_eq_false_2 (gn_State n = _)) by (done || congruence).
      * split_and!; [done|by right|]. by apply (fail_quorum g id (set_state NodeStatePFail n)).
    + exists (set_state NodeStatePFail n). rewrite Hann, app_nil_r by by left. split_and!; [done|right; by left|by apply Hns].
  - done.
Qed.

Definition failed_now (n n' : GossipNode) : Prop := gn_State n' = NodeStateFail ∧ gn_State n ≠ NodeStateFail.

Lemma elem_of_announced id n n' :
  BroadcastFail id ∈ announced n n' ↔ id = gn_ID n ∧ failed_now n n'.
Proof.
  unfold announced, failed_now. repeat case_bool_decide; cbn [andb negb]; rewrite ?elem_of_cons, elem_of_nil; naive_solver.
Qed.

Lemma check_nodes_spec now ids g ev :
  NoDup ids → (∀ id n, g_nodes g !! id = Some n → gn_ID n = id) → Forall (λ id, is_Some (g_nodes g !! id)) ids →
  let '(g', ev') := foldl (check_node now) (g, ev) ids in
  g_self g' = g_self g ∧ countMasters g' ≤ countMasters g ∧
  ∀ id n, g_nodes g !! id = Some n →
    ∃ n', g_nodes g' !! id = Some n' ∧ checked now (countMasters g') n n' ∧ (id = g_self g ∨ id ∉ ids → n' = n) ∧
      (BroadcastFail id ∈ ev' ↔ BroadcastFail id ∈ ev ∨ failed_now n n').
Proof.
  revert g ev. induction ids as [|i ids IH]; intros g ev Hnd Hids HF.
  { cbn. split_and!; [done|lia|]. intros id n E. exists n. split_and!; [done|by left|done|]. unfold failed_now. naive_solver. }
  apply NoDup_cons in Hnd as [Hi Hnd]. apply Forall_cons in HF as [[m Em] HF].
  destruct (check_node_spec now g ev i m Em (Hids _ _ Em)) as (m' & E1 & C1 & S1). cbn [foldl]. rewrite E1.
  set (g1 := put_nodes g (<[i := m']> (g_nodes g))) in *.
  assert (∀ id, id ≠ i → g_nodes g1 !! id = g_nodes g !! id) as Hother by (intros; by apply lookup_insert_ne).
  assert (gn_ID m' = gn_ID m) as Hm' by (destruct C1 as [->|[(-> & _)|(-> & _)]]; done).
  specialize (IH g1 (ev ++ announced m m') Hnd). destruct (foldl _ _ ids) as [g' ev'].
  destruct IH as (I1 & I2 & I3).
  { intros id n. destruct (decide (id = i)) as [->|Hne]; [|rewrite Hother by done; apply Hids].
    cbn. rewrite lookup_insert_eq. intros [= <-]. rewrite Hm'. by apply Hids. }
  { eapply Forall_impl; [exact HF|]. intros id [n En]. destruct (decide (id = i)) as [->|Hne];
      [cbn; rewrite lookup_insert_eq|rewrite Hother by done]; eauto. }
  pose proof (countMasters_insert g i m m' _ now Em C1) as HM. fold g1 in HM.
  split_and!; [done|lia|]. intros id n E. destruct (decide (id = i)) as [->|Hne].
  - rewrite Em in E. injection E as <-.
    destruct (I3 i m') as (n' & E' & C' & S' & B'); [cbn; by rewrite lookup_insert_eq|].
    rewrite (S' (or_intror Hi)) in *. exists m'. split_and!; [done|eapply checked_mono; [|exact C1]; lia| |].
    + intros [->|Hin]; [by apply S1|]. exfalso. apply Hin. by left.
    + rewrite B', elem_of_app, elem_of_announced, (Hids _ _ Em). unfold failed_now. naive_solver.
  - destruct (I3 id n) as (n' & E' & C' & S' & B'); [by rewrite Hother|].
    exists n'. split_and!; [done|done| |].
    + intros [->|Hin]; apply S'; [by left|right]. intros H. apply Hin. by right.
    + rewrite B', elem_of_app, elem_of_announced, (Hids _ _ Em). naive_solver.
Qed.

(** C29: A failure check leaves a node alone that has answered within the timeout,
    and the node itself; it declares a node failed, and announces it, only when
    the node is suspected or silent for too long and more nodes, masters or
    replicas, than half the number of live masters have reported it within the
    validity of reports. *)
Theorem checkNodeFailures_sound now g :
  (∀ id n, g_nodes g !! id = Some n → gn_ID n = id) →
  let '(g', events) := checkNodeFailures now g in
  ∀ id n, g_nodes g !! id = Some n →
    ∃ n', g_nodes g' !! id = Some n' ∧ checked now (countMasters g') n n' ∧
      (id = g_self g ∨ gn_State n = NodeStateConnected ∧ now - gn_PongReceived n ≤ ClusterNodeTimeout → n' = n) ∧
      (BroadcastFail id ∈ events ↔ failed_now n n').
Proof.
  intros Hids. unfold checkNodeFailures.
  pose proof (check_nodes_spec now (go_range (g_nodes g)).*1 g [] (NoDup_go_range_keys _) Hids) as H.
  destruct (foldl _ _ _) as [g' ev]. destruct H as (_ & _ & H).
  { apply Forall_forall. intros id ([i n] & -> & Hin)%list_elem_of_fmap. apply elem_of_go_range in Hin. by exists n. }
  intros id n E. destruct (H id n E) as (n' & E' & C & S & B). exists n'. split_and!; [done|done| |].
  - intros [Hs|[Hc Ht]]; [by apply S; left|]. destruct C as [->|[(_ & _ & ?)|(_ & [?|[_ ?]] & _)]]; [done|lia|congruence|lia].
  - rewrite B, elem_of_nil. naive_solver.
Qed.
End failures.

(** ** Stale gossip *)

(** A second-hand report carries the current epoch of the node that passes it
    on, not the epoch of the ownership it repeats. When that node's epoch is
    above the one under which the receiver knows the owner of a slot, its view
    replaces the receiver's, however old it is: an owner that has already given
    the slot away gets it back. *)
Theorem stale_gossip_reverts_owner now gs sms gr smr old info slot n :
  gossip_wf gr smr → index_ok sms → valid_slot slot → 0 ≤ g_currentEpoch gs →
  gn_ID n = old → old ≠ "" → slot ∈ GetNodeSlots sms old → gossip_info gs sms n = Some info →
  gn_Role (entry gr info) = NodeRoleMaster → known gr smr slot < g_currentEpoch gs →
  ∃ g' sm' ev, processNodeInfo now gr smr (set_reporter (g_self gs) info) false = Some (g', sm', ev) ∧
    GetSlotNode sm' slot = old ∧ known g' sm' slot = g_currentEpoch gs.
Proof.
  intros Hwf Hi Hv He Hn Hne Hin EI HR HK. unfold gossip_info in EI. rewrite Hn in EI.
  destruct (SlotsToBytes_slots (GetNodeSlots sms old)) as (bm & EB & Hbm); [by apply node_slots_valid|].
  rewrite EB in EI. cbn [mbind option_bind] in EI. injection EI as <-.
  set (info := set_reporter _ _).
  destruct (processNodeInfo_master now gr smr info false Hwf) as (g' & sm' & ev & E & _ & V).
  { done. } { rewrite update_node_role. exact HR. }
  exists g', sm', ev. split; [done|]. specialize (V slot Hv).
  rewrite decide_True in V by (unfold reports; cbn [ni_Slots set_reporter info]; by apply Hbm).
  unfold claim in V. cbn [view snd ni_ConfigEpoch info set_reporter ni_ID] in V.
  pose proof (gw_epoch _ _ Hwf slot). assert (0 ≤ known gr smr slot) by (unfold known; lia).
  rewrite (proj2 (Z.eqb_neq _ _)), (proj2 (Z.ltb_lt _ _)) in V by lia. unfold view in V. by injection V as -> ->.
Qed.

(** ** On concrete data *)

Section witnesses.
#[local] Instance ranges {K A} `{Countable K} : GoRange K A := listed_range.

Let node (id : string) (state : NodeState) (pong : Z) (reports : gmap string Z) : GossipNode :=
  mkNode id "10.0.0.1" 6379 16379 NodeRoleMaster "" state 0 pong reports (mkLoad 0 0 []).

Let report (id : string) (epoch : Z) (slots : list Z) : NodeInfo :=
  mkInfo id "10.0.0.2" 6379 16379 NodeFlagMaster "" 0 0 epoch (default [] (SlotsToBytes slots)) (mkLoad 0 0 []) "".

Let here : Gossip := NewGossip (node "a" NodeStateConnected 0 ∅).

Lemma here_wf : gossip_wf here demo3.
Proof.
  split; [apply demo3_wf| |intros slot; cbn; done].
  intros id n. unfold here, NewGossip. cbn [g_nodes gn_ID node]. intros [<- <-]%lookup_singleton_Some. done.
Qed.

Lemma here_known : GetSlotNode demo3 7 = "a" ∧ known here demo3 7 = 3.
Proof. split; vm_compute; reflexivity. Qed.

Lemma slots_bitmap_roundtrip_witness :
  ∃ bm, SlotsToBytes [16383; 5; 0; 5] = Some bm ∧ 5 ∈ BytesToSlots bm ∧ 6 ∉ BytesToSlots bm.
Proof.
  destruct (slots_bitmap_roundtrip [16383; 5; 0; 5]) as (bm & E & H & _);
    [repeat constructor; unfold SlotCount; lia|].
  exists bm. split_and!; [exact E|apply H; by_compute|rewrite H; by_compute].
Defined.

Lemma report_reports : reports (report "b" 9 [7]) 7.
Proof.
  unfold reports, report. cbn [ni_Slots].
  destruct (SlotsToBytes_slots [7]) as (bm & -> & B); [repeat constructor; apply valid_7|].
  cbn [default]. apply B. by left.
Qed.

Lemma message_frame_roundtrip_witness : readMessage (writeMessage [x01; x02] ++ [x03]) = inr ([x01; x02], [x03]).
Proof. etrans; [apply (message_frame_roundtrip [x01; x02] [x03]); cbn; lia|reflexivity]. Defined.

Lemma highest_epoch_owns_slot_witness :
  ∃ g' sm' ev, loop (process_with 0 true) (here, demo3, []) [report "b" 9 [7]; report "c" 5 [7; 8]] = Some (g', sm', ev) ∧
    GetSlotNode sm' 7 = "b".
Proof.
  destruct here_known as [_ HK].
  destruct (highest_epoch_owns_slot 0 here demo3 [report "b" 9 [7]; report "c" 5 [7; 8]] 7) as (g' & sm' & ev & E & H & _).
  - apply here_wf.
  - repeat constructor; cbn; lia.
  - apply valid_7.
  - exists g', sm', ev. split; [exact E|]. apply (H (report "b" 9 [7])).
    + by left.
    + exact report_reports.
    + rewrite HK. reflexivity.
    + intros info Hin _ Hne. apply elem_of_cons in Hin as [Hin|Hin]; [exfalso; exact (Hne Hin)|].
      apply list_elem_of_singleton in Hin. rewrite Hin. reflexivity.
Defined.

Let crowd : Gossip :=
  mkGossip "a" {["a" := node "a" NodeStateConnected 0 ∅; "b" := node "b" NodeStateConnected 100000 ∅;
                 "c" := node "c" NodeStatePFail 0 {["a" := 90000; "b" := 95000]}]} ∅ 0.

Lemma checkNodeFailures_sound_witness :
  ∃ c', g_nodes (checkNodeFailures 100000 crowd).1 !! "c"%string = Some c' ∧
    checked 100000 2 (node "c" NodeStatePFail 0 {["a" := 90000; "b" := 95000]}) c' ∧ gn_State c' = NodeStateFail.
Proof.
  pose proof (checkNodeFailures_sound 100000 crowd) as H.
  assert (countMasters (checkNodeFailures 100000 crowd).1 = 2) as HM by (vm_compute; reflexivity).
  destruct (checkNodeFailures 100000 crowd) as [g' ev] eqn:E.
  destruct (H ltac:(intros id n; unfold crowd; cbn [g_nodes]; intros Hn;
      repeat (apply lookup_insert_Some in Hn as [[<- <-]|[_ Hn]]; [done|]); by apply lookup_empty_Some in Hn || (apply lookup_singleton_Some in Hn as [<- <-]; done))
    "c"%string (node "c" NodeStatePFail 0 {["a" := 90000; "b" := 95000]})) as (c' & E' & C & _).
  { reflexivity. }
  exists c'. cbn [fst] in *. rewrite HM in C. split_and!; [exact E'|exact C|].
  assert (g_nodes g' !! "c"%string = g_nodes (checkNodeFailures 100000 crowd).1 !! "c"%string) as EQ by (by rewrite E).
  rewrite E' in EQ. vm_compute in EQ. by injection EQ as ->.
Defined.

Let elsewhere : SlotManager := default NewSlotManager (snd <$> AssignSlot NewSlotManager 7 "z").

Lemma stale_gossip_reverts_owner_witness :
  ∃ info g' sm' ev, gossip_info (mkGossip "y" ∅ ∅ 10) elsewhere (node "z" NodeStateConnected 0 ∅) = Some info ∧
    GetSlotNode demo3 7 = "a" ∧
    processNodeInfo 0 here demo3 (set_reporter "y" info) false = Some (g', sm', ev) ∧ GetSlotNode sm' 7 = "z".
Proof.
  destruct here_known as [HO HK].
  destruct (gossip_info (mkGossip "y" ∅ ∅ 10) elsewhere (node "z" NodeStateConnected 0 ∅)) as [info|] eqn:EI; [|by vm_compute in EI].
  destruct (stale_gossip_reverts_owner 0 (mkGossip "y" ∅ ∅ 10) elsewhere here demo3 "z" info 7 (node "z" NodeStateConnected 0 ∅))
    as (g' & sm' & ev & E & H & _).
  - apply here_wf.
  - destruct (AssignSlot_spec NewSlotManager 7 "z" (sl_index _ (NewSlotManager_wf None)) valid_7) as (i & sm' & _ & E & Hi & _).
    unfold elsewhere. rewrite E. exact Hi.
  - apply valid_7.
  - done.
  - done.
  - done.
  - by_compute.
  - exact EI.
  - vm_compute in EI. injection EI as <-. reflexivity.
  - rewrite HK. cbn. lia.
  - exists info, g', sm', ev. split_and!; [done|exact HO|exact E|exact H].
Defined.
End witnesses.
