(* ===== verification/Replication.v ===== *)
(** * Replication of the writes of a slot: [internal/cluster/replication]

    The primary applies a write, takes a log sequence number from the slot
    table, appends the operation to the log of the slot and dispatches it to the
    replicas ([log.go], [manager.go], [stream.go], [peer.go], the registry of
    [replica_conn.go]); a replica keeps its progress per slot ([applier.go]).
    Sequence numbers are unsigned 64-bit integers. The callbacks are wired as
    [cluster.go] wires them: sequence numbers come from [AllocateLSN] and
    acknowledgements go to [UpdateReplicaLSN]. What a connection does with the
    bytes written to it is an argument. *)

From S2P Require Import Prelude Hash Strconv Wire Slots.
From stdpp Require Import options.

(** ** The log: [log.go] *)

Record LogStore := mkLog {
  ls_limit : Z;
  ls_logs : gmap Z (list Op);
  ls_first : gmap Z Z;
  ls_last : gmap Z Z
}.

Definition NewLogStore (limit : Z) : LogStore :=
  mkLog (if limit <=? 0 then 1024 else limit) ∅ ∅ ∅.

Inductive ReplicationError :=
  | ErrOutOfOrder (slot got want : Z)
  | ErrAllocate (e : SlotError)
  | ErrApply
  | ErrStaleEpoch (got want : Z).

Definition log_of (s : LogStore) (slot : Z) : list Op := default [] (ls_logs s !! slot).
Definition last_of (s : LogStore) (slot : Z) : Z := default 0 (ls_last s !! slot).

Definition LogStore_Append (s : LogStore) (op : Op) : (ReplicationError + unit) * LogStore :=
  let slot := op_Slot op in
  let want := u64 (last_of s slot + 1) in
  if negb (op_LSN op =? want) then (inl (ErrOutOfOrder slot (op_LSN op) want), s)
  else
    let log := log_of s slot ++ [op] in
    let first := match ls_first s !! slot with Some _ => ls_first s | None => <[slot := op_LSN op]> (ls_first s) end in
    let n := Z.of_nat (length log) in
    let log := if ls_limit s <? n then drop (Z.to_nat (n - ls_limit s)) log else log in
    let first := match log with op' :: _ => <[slot := op_LSN op']> first | [] => first end in
    (inr tt, mkLog (ls_limit s) (<[slot := log]> (ls_logs s)) first (<[slot := op_LSN op]> (ls_last s))).

Definition after (lsn : Z) (op : Op) : Prop := lsn < op_LSN op.
#[global] Instance after_dec lsn op : Decision (after lsn op) := decide (lsn < op_LSN op).

Definition LogStore_ListAfter (s : LogStore) (slot lsn : Z) : list Op := filter (after lsn) (log_of s slot).

Definition LogStore_Range (s : LogStore) (slot : Z) : option (Z * Z) :=
  (λ last, (default 0 (ls_first s !! slot), last)) <$> ls_last s !! slot.

Definition CanReplayFromLSN (s : LogStore) (slot appliedLSN : Z) : bool :=
  match LogStore_Range s slot with
  | None => appliedLSN =? 0
  | Some (first, last) =>
      if last <? appliedLSN then false
      else if appliedLSN =? last then true
      else first <=? u64 (appliedLSN + 1)
  end.

(** ** Acknowledgements *)

Record ReplicaAck := mkAck { ack_Slot : Z; ack_Epoch : Z; ack_NodeID : string; ack_AppliedLSN : Z }.

#[export] Instance ReplicaAck_eq_dec : EqDecision ReplicaAck.
Proof. solve_decision. Defined.

Notation AckTracker := (gmap Z (gmap string ReplicaAck)).

Definition NewAckTracker : AckTracker := ∅.

Definition acks_of (t : AckTracker) (slot : Z) : gmap string ReplicaAck := default ∅ (t !! slot).

Definition AckTracker_Track (t : AckTracker) (ack : ReplicaAck) : AckTracker :=
  let acks := acks_of t (ack_Slot ack) in
  match acks !! ack_NodeID ack with
  | Some current =>
      if ack_AppliedLSN ack <=? ack_AppliedLSN current then t
      else <[ack_Slot ack := <[ack_NodeID ack := ack]> acks]> t
  | None => <[ack_Slot ack := <[ack_NodeID ack := ack]> acks]> t
  end.

Definition AckTracker_Get (t : AckTracker) (slot : Z) (nodeID : string) : Z :=
  match acks_of t slot !! nodeID with Some ack => ack_AppliedLSN ack | None => 0 end.

(** The order of [sort.Slice] in [Snapshot]: furthest first, then by name. *)
Definition ack_less (a b : ReplicaAck) : bool :=
  if ack_AppliedLSN a =? ack_AppliedLSN b then negb (String.leb (ack_NodeID b) (ack_NodeID a))
  else ack_AppliedLSN b <? ack_AppliedLSN a.

Definition ack_le (a b : ReplicaAck) : Prop := ack_less b a = false.
#[global] Instance ack_le_dec a b : Decision (ack_le a b) := decide (ack_less b a = false).

Definition AckTracker_Snapshot `{!GoRange string ReplicaAck} (t : AckTracker) (slot : Z) : list ReplicaAck :=
  merge_sort ack_le (go_range (acks_of t slot)).*2.

(** ** Progress of a replica: [applier.go] *)

Record ApplyProgress := mkProgress { ap_Epoch : Z; ap_LSN : Z }.

Notation ReplicaApplier := (gmap Z ApplyProgress).

Definition NewReplicaApplier : ReplicaApplier := ∅.

Definition progress_of (a : ReplicaApplier) (slot : Z) : ApplyProgress := default (mkProgress 0 0) (a !! slot).

(** The result is an error, or whether to skip the operation. The new value of
    [state] on a gap is local to the function. *)
Definition Begin (a : ReplicaApplier) (op : Op) : ReplicationError + bool :=
  let state := progress_of a (op_Slot op) in
  if op_Epoch op <? ap_Epoch state then inl (ErrStaleEpoch (op_Epoch op) (ap_Epoch state))
  else
    let state := if ap_Epoch state <? op_Epoch op then mkProgress (op_Epoch op) 0 else state in
    if op_LSN op <=? ap_LSN state then inr true else inr false.

Definition Commit (a : ReplicaApplier) (op : Op) : ReplicaApplier :=
  <[op_Slot op := mkProgress (op_Epoch op) (op_LSN op)]> a.

(** Applying an operation received from the primary, as the handler does:
    [exec] executes it on a store of any type and says whether it succeeded. *)
Definition apply_incoming {A} (exec : Op → A → bool * A) (op : Op) (a : A) (ap : ReplicaApplier)
    : (ReplicationError + unit) * A * ReplicaApplier :=
  match Begin ap op with
  | inl e => (inl e, a, ap)
  | inr true => (inr tt, a, ap)
  | inr false =>
      match exec op a with
      | (true, a') => (inr tt, a', Commit ap op)
      | (false, a') => (inl ErrApply, a', ap)
      end
  end.

(** ** Queues to the replicas: [peer.go], [stream.go] *)

Record PeerTarget := mkTarget { pt_NodeID : string; pt_Addr : string }.

(** A peer's buffered channel. *)
Record peer := mkPeer { p_addr : string; p_queue : list Op; p_cap : Z }.

Definition newPeer (target : PeerTarget) (queueSize : Z) : peer :=
  mkPeer (pt_Addr target) [] (if queueSize <=? 0 then 1024 else queueSize).

Definition peer_enqueue (p : peer) (op : Op) : bool * peer :=
  if Z.of_nat (length (p_queue p)) <? p_cap p then (true, mkPeer (p_addr p) (p_queue p ++ [op]) (p_cap p))
  else (false, p).

Record Stream := mkStream { sm_peers : gmap string peer; sm_queueSize : Z }.

Definition NewStream (queueSize : Z) : Stream := mkStream ∅ queueSize.

(** A peer whose address changed is closed, with what it had queued. *)
Definition Stream_Enqueue (s : Stream) (target : PeerTarget) (op : Op) : Stream :=
  if bool_decide (pt_NodeID target = "") || bool_decide (pt_Addr target = "") then s
  else
    let fresh := newPeer target (sm_queueSize s) in
    let p := match sm_peers s !! pt_NodeID target with
             | Some p => if bool_decide (p_addr p = pt_Addr target) then p else fresh
             | None => fresh
             end in
    mkStream (<[pt_NodeID target := snd (peer_enqueue p op)]> (sm_peers s)) (sm_queueSize s).

Definition Stream_Close (s : Stream) : Stream := mkStream ∅ (sm_queueSize s).

(** ** The registry of persistent connections: [replica_conn.go] *)

(** A connection is its number. Registering closes the connection it replaces. *)
Notation MasterConnRegistry := (gmap string Z).

Definition Register (r : MasterConnRegistry) (replicaID : string) (conn : Z) : MasterConnRegistry * list Z :=
  (<[replicaID := conn]> r, option_list (r !! replicaID)).

Definition RemoveByConn `{!GoRange string Z} (r : MasterConnRegistry) (target : Z) : MasterConnRegistry :=
  match find (λ '(_, conn), conn =? target) (go_range r) with
  | Some (id, _) => delete id r
  | None => r
  end.

(** [write] says whether a write to a connection succeeds. The connections
    that failed are removed and closed. *)
Fixpoint broadcast_loop (write : Z → list byte → bool) (data : list byte) (conns : list (string * Z))
    (r : MasterConnRegistry) (sent : Z) (closed : list Z) : Z * MasterConnRegistry * list Z :=
  match conns with
  | [] => (sent, r, closed)
  | (id, conn) :: conns' =>
      if write conn data then broadcast_loop write data conns' r (sent + 1) closed
      else broadcast_loop write data conns' (delete id r) sent (closed ++ [conn])
  end.

Definition Broadcast `{!GoRange string Z} (write : Z → list byte → bool) (r : MasterConnRegistry) (op : Op)
    : Z * MasterConnRegistry * list Z :=
  broadcast_loop write (encodeReplicationApplyCommand op) (go_range r) r 0 [].

Definition Registry_Count (r : MasterConnRegistry) : Z := Z.of_nat (size r).

(** ** The manager: [manager.go], [sync.go], [ack.go], [fullsync.go] *)

Record Manager := mkManager {
  mg_logs : LogStore;
  mg_stream : Stream;
  mg_acks : AckTracker;
  mg_registry : MasterConnRegistry;
  mg_inbound : gmap Z (list Op)
}.

Definition NewManager (logs : option LogStore) : Manager :=
  mkManager (default (NewLogStore 1024) logs) (NewStream 1024) NewAckTracker ∅ ∅.

Definition put_logs (m : Manager) (logs : LogStore) : Manager :=
  mkManager logs (mg_stream m) (mg_acks m) (mg_registry m) (mg_inbound m).
Definition put_stream (m : Manager) (s : Stream) : Manager :=
  mkManager (mg_logs m) s (mg_acks m) (mg_registry m) (mg_inbound m).
Definition put_acks (m : Manager) (acks : AckTracker) : Manager :=
  mkManager (mg_logs m) (mg_stream m) acks (mg_registry m) (mg_inbound m).
Definition put_registry (m : Manager) (r : MasterConnRegistry) : Manager :=
  mkManager (mg_logs m) (mg_stream m) (mg_acks m) r (mg_inbound m).

(** What the callback of a successful send does; its error is dropped. *)
Definition onSent (sm : SlotManager) (m : Manager) (nodeID : string) (op : Op) : option (SlotManager * Manager) :=
  let m := put_acks m (AckTracker_Track (mg_acks m) (mkAck (op_Slot op) (op_Epoch op) nodeID (op_LSN op))) in
  r ← UpdateReplicaLSN sm (op_Slot op) nodeID (op_LSN op);
  Some (snd r, m).

(** One round of a peer's loop: the head of its queue is sent, with success or
    not; [None] when there is nothing to send. *)
Definition peer_round (sent : bool) (sm : SlotManager) (m : Manager) (nodeID : string) : option (SlotManager * Manager) :=
  p ← sm_peers (mg_stream m) !! nodeID;
  match p_queue p with
  | [] => None
  | op :: rest =>
      let m := put_stream m (mkStream (<[nodeID := mkPeer (p_addr p) rest (p_cap p)]> (sm_peers (mg_stream m)))
                               (sm_queueSize (mg_stream m))) in
      if sent then onSent sm m nodeID op else Some (sm, m)
  end.

Section manager.
Context `{!GoRange string Z}.

(** [resolve] is the resolver, when one is set. *)
Definition dispatch (write : Z → list byte → bool) (resolve : option (Z → list PeerTarget)) (m : Manager) (op : Op) : Manager :=
  let '(_, registry, _) := Broadcast write (mg_registry m) op in
  let m := put_registry m registry in
  match resolve with
  | Some resolve => put_stream m (foldl (λ s target, Stream_Enqueue s target op) (mg_stream m) (resolve (op_Slot op)))
  | None => m
  end.

Record WriteRequest := mkWrite {
  wr_Slot : Z;
  wr_OpType : string;
  wr_Key : string;
  wr_Payload : list byte;
  wr_ExpireAtNs : Z
}.

Definition op_of (req : WriteRequest) (epoch lsn : Z) : Op :=
  mkOp (wr_Slot req) epoch lsn (wr_OpType req) (wr_Key req) (wr_Payload req) (wr_ExpireAtNs req).

(** The write itself is [apply], on a store of any type: whether it succeeded,
    and the new store. *)
Definition ApplyWrite {A} write resolve (apply : A → bool * A) (req : WriteRequest) (a : A) (sm : SlotManager) (m : Manager)
    : option ((ReplicationError + Op) * A * SlotManager * Manager) :=
  let '(ok, a) := apply a in
  if negb ok then Some (inl ErrApply, a, sm, m)
  else
    r ← AllocateLSN sm (wr_Slot req);
    match r with
    | (inl e, sm) => Some (inl (ErrAllocate e), a, sm, m)
    | (inr (epoch, lsn), sm) =>
        let op := op_of req epoch lsn in
        match LogStore_Append (mg_logs m) op with
        | (inl e, logs) => Some (inl e, a, sm, put_logs m logs)
        | (inr _, logs) => Some (inr op, a, sm, dispatch write resolve (put_logs m logs) op)
        end
    end.
End manager.

Definition ReceiveTransportOp (m : Manager) (op : Op) : Manager :=
  mkManager (mg_logs m) (mg_stream m) (mg_acks m) (mg_registry m)
    (<[op_Slot op := default [] (mg_inbound m !! op_Slot op) ++ [op]]> (mg_inbound m)).

Definition InboundAfter (m : Manager) (slot lsn : Z) : list Op :=
  filter (after lsn) (default [] (mg_inbound m !! slot)).

Definition IncrementalOps (m : Manager) (slot appliedLSN : Z) : option (list Op) :=
  if CanReplayFromLSN (mg_logs m) slot appliedLSN then Some (LogStore_ListAfter (mg_logs m) slot appliedLSN) else None.

Definition ReplicaProgress (m : Manager) (slot : Z) (nodeID : string) : Z := AckTracker_Get (mg_acks m) slot nodeID.

Definition ReplicaProgressSnapshot `{!GoRange string ReplicaAck} (m : Manager) (slot : Z) : list ReplicaAck :=
  AckTracker_Snapshot (mg_acks m) slot.

Definition NeedsFullSync (m : Manager) (slot appliedLSN : Z) : bool := negb (CanReplayFromLSN (mg_logs m) slot appliedLSN).

Definition SnapshotLSN (m : Manager) (slot : Z) : Z :=
  match LogStore_Range (mg_logs m) slot with Some (_, last) => last | None => 0 end.

Definition PostSnapshotOps (m : Manager) (slot snapshotLSN : Z) : list Op :=
  LogStore_ListAfter (mg_logs m) slot snapshotLSN.

(** ** The replica's client loop: [replica_conn.go] *)

Record ReplicaClient := mkClient { rc_consecutiveFailures : Z; rc_failoverDone : bool }.

Inductive client_verdict := Reconnect | SelfPromote | Return.

(** One round of [run] after [connectAndReceive] returned, with an error or
    not; [masterIsFailed] is the gossip check, when one is set. *)
Definition run_round (c : ReplicaClient) (err : bool) (masterIsFailed : option bool) : client_verdict * ReplicaClient :=
  let failures := if err then rc_consecutiveFailures c + 1 else 0 in
  if (3 <=? failures) && default false masterIsFailed then (SelfPromote, mkClient failures true)
  else if rc_failoverDone c then (Return, mkClient failures (rc_failoverDone c))
  else (Reconnect, mkClient failures (rc_failoverDone c)).
