(* ===== verification/ReplicationSpec.v ===== *)
(** * The replication log keeps what a replica needs

    The log of a slot is the tail of the history of its accepted operations,
    and a replica that may catch up incrementally is given exactly the rest of
    the history. Sequential writes keep the log in step with the slot table; a
    slot whose sequence number has run ahead of its log never logs a write
    again, and two interleaved writes are enough to get there. *)

From S2P Require Import Prelude Hash Strconv Wire Slots SlotsSpec Replication.
From stdpp Require Import options.

(** ** The log is the tail of the history *)

Definition in_slot (slot : Z) (op : Op) : Prop := op_Slot op = slot.
#[global] Instance in_slot_dec slot op : Decision (in_slot slot op) := decide (op_Slot op = slot).

(** Append a list of operations; the result also has those that were accepted. *)
Fixpoint log_run (s : LogStore) (ops : list Op) : LogStore * list Op :=
  match ops with
  | [] => (s, [])
  | op :: ops' =>
      match LogStore_Append s op with
      | (inl _, s') => log_run s' ops'
      | (inr _, s') => let '(s'', accepted) := log_run s' ops' in (s'', op :: accepted)
      end
  end.

(** Sequence numbers start at 1, and 0 comes back only after a wrap. *)
Definition lsn_ok (op : Op) : Prop := 1 ≤ op_LSN op < 2 ^ 64.

Definition tail_of {A} (limit : Z) (l : list A) : list A := drop (length l - Z.to_nat limit) l.

Record log_view (s : LogStore) (slot : Z) (h : list Op) : Prop := {
  lv_log : log_of s slot = tail_of (ls_limit s) h;
  lv_last : ls_last s !! slot = match h with [] => None | _ => Some (Z.of_nat (length h)) end;
  lv_lsns : op_LSN <$> h = seqZ 1 (Z.of_nat (length h));
  lv_first : ls_first s !! slot =
    match h with [] => None | _ => Some (Z.max 1 (Z.of_nat (length h) - ls_limit s + 1)) end;
  lv_bound : Z.of_nat (length h) < 2 ^ 64
}.

Lemma lv_last_of s slot h : log_view s slot h → last_of s slot = Z.of_nat (length h).
Proof. intros H. unfold last_of. rewrite (lv_last _ _ _ H). by destruct h. Qed.

Lemma view_same s s' slot h :
  log_view s slot h → ls_limit s' = ls_limit s → log_of s' slot = log_of s slot →
  ls_last s' !! slot = ls_last s !! slot → ls_first s' !! slot = ls_first s !! slot → log_view s' slot h.
Proof. intros [] E1 E2 E3 E4. split; try congruence; rewrite ?E2, ?E3, ?E4, ?E1; done. Qed.

Lemma tail_snoc {A} limit (l : list A) x :
  0 < limit →
  (if limit <? Z.of_nat (length (tail_of limit l ++ [x]))
   then drop (Z.to_nat (Z.of_nat (length (tail_of limit l ++ [x])) - limit)) (tail_of limit l ++ [x])
   else tail_of limit l ++ [x]) = tail_of limit (l ++ [x]).
Proof.
  intros Hl. unfold tail_of. rewrite !length_app, length_drop. cbn [length].
  destruct (Z.ltb_spec limit (Z.of_nat (length l - (length l - Z.to_nat limit) + 1))) as [H|H].
  - replace (Z.to_nat (Z.of_nat (length l - (length l - Z.to_nat limit) + 1) - limit)) with 1%nat by lia.
    rewrite !drop_app, drop_drop, !length_drop. f_equal; [f_equal; lia|f_equal; lia].
  - rewrite drop_app. f_equal; [f_equal; lia|].
    by replace (length l + 1 - Z.to_nat limit - length l)%nat with 0%nat by lia.
Qed.

Lemma lsns_lookup h i op :
  op_LSN <$> h = seqZ 1 (Z.of_nat (length h)) → h !! i = Some op → op_LSN op = Z.of_nat i + 1.
Proof.
  intros HL Hi. assert ((op_LSN <$> h) !! i = Some (op_LSN op)) as E by (by rewrite list_lookup_fmap, Hi).
  rewrite HL in E. apply lookup_seqZ in E. lia.
Qed.

Lemma lsns_snoc h op :
  op_LSN <$> h = seqZ 1 (Z.of_nat (length h)) → op_LSN op = Z.of_nat (length h) + 1 →
  op_LSN <$> (h ++ [op]) = seqZ 1 (Z.of_nat (length (h ++ [op]))).
Proof.
  intros HL HO. rewrite fmap_app, HL, length_app, Nat2Z.inj_add, seqZ_app by lia. cbn. by rewrite HO, Z.add_comm.
Qed.

(** Appending to the log of a slot. *)
Lemma Append_view s op h :
  0 < ls_limit s → lsn_ok op → log_view s (op_Slot op) h →
  let '(r, s') := LogStore_Append s op in
  (∀ slot, slot ≠ op_Slot op → log_of s' slot = log_of s slot ∧ ls_last s' !! slot = ls_last s !! slot ∧
     ls_first s' !! slot = ls_first s !! slot) ∧ ls_limit s' = ls_limit s ∧
  match r with
  | inl _ => s' = s ∧ op_LSN op ≠ Z.of_nat (length h) + 1
  | inr _ => op_LSN op = Z.of_nat (length h) + 1 ∧ log_view s' (op_Slot op) (h ++ [op])
  end.
Proof.
  intros Hl Hop Hv. unfold LogStore_Append. rewrite (lv_last_of _ _ _ Hv). destruct Hop as [Ho1 Ho2].
  pose proof (lv_bound _ _ _ Hv) as Hb.
  destruct (Z.eqb_spec (op_LSN op) (u64 (Z.of_nat (length h) + 1))) as [E|E]; cbn [negb]; last first.
  { split_and!; [done|done|done|]. intros E'. apply E. rewrite u64_id; unfold is_u64; lia. }
  assert (op_LSN op = Z.of_nat (length h) + 1) as EL.
  { destruct (decide (Z.of_nat (length h) + 1 = 2 ^ 64)) as [E2|E2]; [rewrite E2 in E; change (u64 (2 ^ 64)) with 0 in E; lia|].
    rewrite E. apply u64_id. unfold is_u64. lia. }
  split_and!; [|done|done|].
  { intros slot Hs. unfold log_of. cbn [ls_logs ls_last ls_first].
    rewrite !lookup_insert_ne by done. split_and!; [done|done|].
    repeat case_match; by rewrite ?lookup_insert_ne by done. }
  rewrite (lv_log _ _ _ Hv), tail_snoc by done.
  assert (∃ o l, tail_of (ls_limit s) (h ++ [op]) = o :: l ∧
    op_LSN o = Z.max 1 (Z.of_nat (length (h ++ [op])) - ls_limit s + 1)) as (o & l & ET & EO).
  { unfold tail_of. destruct (drop _ (h ++ [op])) as [|o l] eqn:ED.
    - apply (f_equal length) in ED. rewrite length_drop, length_app in ED. cbn in ED. lia.
    - exists o, l. split; [done|].
      assert ((h ++ [op]) !! (length (h ++ [op]) - Z.to_nat (ls_limit s))%nat = Some o) as Hi.
      { rewrite <-(Nat.add_0_r (_ - _)), <-lookup_drop, ED. done. }
      rewrite (lsns_lookup _ _ _ (lsns_snoc h op (lv_lsns _ _ _ Hv) EL) Hi). lia. }
  split; unfold log_of; cbn [ls_logs ls_last ls_first ls_limit].
  - by rewrite lookup_insert_eq.
  - rewrite lookup_insert_eq, length_app. destruct h; cbn; f_equal; cbn in EL; lia.
  - apply lsns_snoc; [apply (lv_lsns _ _ _ Hv)|done].
  - rewrite ET, lookup_insert_eq, EO. by destruct h.
  - rewrite length_app. cbn. lia.
Qed.

Lemma NewLogStore_limit limit : 0 < ls_limit (NewLogStore limit).
Proof. cbn. zcases; lia. Qed.

Lemma new_view limit slot : log_view (NewLogStore limit) slot [].
Proof. by split. Qed.

Lemma log_run_view s ops h slot :
  0 < ls_limit s → Forall lsn_ok ops → (∀ slot, log_view s slot (filter (in_slot slot) h)) →
  log_view (fst (log_run s ops)) slot (filter (in_slot slot) (h ++ snd (log_run s ops))) ∧
  ls_limit (fst (log_run s ops)) = ls_limit s.
Proof.
  revert s h. induction ops as [|op ops IH]; intros s h Hl HF Hv; [by rewrite app_nil_r|].
  apply Forall_cons in HF as [Hop HF]. cbn [log_run].
  pose proof (Append_view s op _ Hl Hop (Hv (op_Slot op))) as HA.
  destruct (LogStore_Append s op) as [[e|[]] s'] eqn:EA.
  - destruct HA as (_ & _ & -> & _). by apply IH.
  - destruct HA as (Ho & HL & _ & Hw).
    assert (∀ slot, log_view s' slot (filter (in_slot slot) (h ++ [op]))) as Hv'.
    { intros slot'. rewrite filter_app. destruct (decide (slot' = op_Slot op)) as [->|Hne].
      - by rewrite (filter_cons_True _ op []) by done.
      - rewrite (filter_cons_False _ op []) by (unfold in_slot; congruence). rewrite filter_nil, app_nil_r.
        destruct (Ho _ Hne) as (E1 & E2 & E3). by apply (view_same s). }
    destruct (IH s' (h ++ [op]) ltac:(congruence) HF Hv') as [I1 I2].
    destruct (log_run s' ops) as [s2 acc]. cbn [fst snd] in *. rewrite <-app_assoc in I1. split; [done|congruence].
Qed.

(** ** Catching up *)

Lemma tail_after_lsn limit h lsn :
  op_LSN <$> h = seqZ 1 (Z.of_nat (length h)) → 0 < limit → 0 ≤ lsn ≤ Z.of_nat (length h) →
  Z.of_nat (length h) - limit ≤ lsn →
  filter (after lsn) (tail_of limit h) = drop (Z.to_nat lsn) h.
Proof.
  intros HL Hl Hlsn Hlim. unfold tail_of.
  set (n := (length h - Z.to_nat limit)%nat).
  assert (drop n h = take (Z.to_nat lsn - n) (drop n h) ++ drop (Z.to_nat lsn) h) as ->.
  { rewrite <-(take_drop (Z.to_nat lsn - n) (drop n h)) at 1. f_equal. rewrite drop_drop. f_equal. lia. }
  rewrite filter_app. rewrite (list_filter_none _ (take _ _)), (list_filter_all _ (drop _ _)); [done| |].
  - intros op [i Hi]%list_elem_of_lookup_1. rewrite lookup_drop in Hi.
    pose proof (lsns_lookup _ _ _ HL Hi). unfold after. lia.
  - intros op [i Hi]%list_elem_of_lookup_1. pose proof (lookup_lt_Some _ _ _ Hi) as Hlt.
    rewrite length_take in Hlt. rewrite lookup_take_lt, lookup_drop in Hi by lia.
    pose proof (lsns_lookup _ _ _ HL Hi). unfold after. lia.
Qed.

Lemma CanReplay_view s slot h lsn :
  0 < ls_limit s → log_view s slot h → is_u64 lsn →
  CanReplayFromLSN s slot lsn = bool_decide (Z.of_nat (length h) - ls_limit s ≤ lsn ≤ Z.of_nat (length h)).
Proof.
  intros Hl Hv Hu. unfold is_u64 in Hu. unfold CanReplayFromLSN, LogStore_Range.
  pose proof (lv_bound _ _ _ Hv) as Hb. rewrite (lv_last _ _ _ Hv), (lv_first _ _ _ Hv).
  symmetry. destruct h as [|o h]; [cbn; case_bool_decide; zcases; lia|].
  cbn [fmap option_fmap option_map default]. set (n := Z.of_nat (length (o :: h))) in *.
  assert (1 ≤ n) by (unfold n; cbn; lia).
  destruct (Z.ltb_spec n lsn); [rewrite bool_decide_eq_false_2; [done|lia]|].
  destruct (Z.eqb_spec lsn n); [rewrite bool_decide_eq_true_2; [done|lia]|].
  rewrite u64_id by (unfold is_u64; lia). unfold id. case_bool_decide; zcases; (done || lia).
Qed.

(** A primary's log after any operations were offered to it, accepted or not:
    the accepted operations of a slot are numbered 1, 2, 3, ... without a gap,
    and a replica that has applied the first [lsn] of them is given either
    exactly the missing ones, or the answer that it needs a full
    synchronisation, the latter only when it is ahead of the primary or more
    than [limit] operations behind. *)
Lemma IncrementalOps_exact limit ops m slot lsn :
  Forall lsn_ok ops → is_u64 lsn → mg_logs m = fst (log_run (NewLogStore limit) ops) →
  let history := filter (in_slot slot) (snd (log_run (NewLogStore limit) ops)) in
  let n := Z.of_nat (length history) in
  op_LSN <$> history = seqZ 1 n ∧ SnapshotLSN m slot = n ∧
  IncrementalOps m slot lsn =
    if bool_decide (n - ls_limit (NewLogStore limit) ≤ lsn ≤ n) then Some (drop (Z.to_nat lsn) history) else None.
Proof.
  intros HF Hu Hm history n.
  destruct (log_run_view (NewLogStore limit) ops [] slot (NewLogStore_limit limit) HF) as [Hv HL].
  { intros. apply new_view. }
  rewrite app_nil_l in Hv. fold history in Hv. rewrite <-Hm in Hv, HL.
  pose proof (NewLogStore_limit limit) as H0. rewrite <-HL in H0 |- *. split_and!.
  - apply (lv_lsns _ _ _ Hv).
  - unfold SnapshotLSN, LogStore_Range. rewrite (lv_last _ _ _ Hv). by destruct history.
  - unfold IncrementalOps. rewrite (CanReplay_view _ _ _ _ H0 Hv Hu). fold n. case_bool_decide as Hc; [|done].
    unfold LogStore_ListAfter. rewrite (lv_log _ _ _ Hv). f_equal.
    apply tail_after_lsn; [apply (lv_lsns _ _ _ Hv)|done|unfold is_u64 in Hu; lia|lia].
Qed.

(** ** Acknowledgements *)

Definition ack_for (slot : Z) (nodeID : string) (ack : ReplicaAck) : Prop :=
  ack_Slot ack = slot ∧ ack_NodeID ack = nodeID.
#[global] Instance ack_for_dec slot nodeID ack : Decision (ack_for slot nodeID ack) :=
  decide (ack_Slot ack = slot ∧ ack_NodeID ack = nodeID).

Definition best_lsn (l : list ReplicaAck) : Z := foldr (λ a n, Z.max (ack_AppliedLSN a) n) 0 l.

Lemma Get_insert t ack slot nodeID :
  AckTracker_Get (<[ack_Slot ack := <[ack_NodeID ack := ack]> (acks_of t (ack_Slot ack))]> t) slot nodeID
  = if decide (ack_for slot nodeID ack) then ack_AppliedLSN ack else AckTracker_Get t slot nodeID.
Proof.
  destruct ack as [s e n l]. unfold AckTracker_Get, ack_for. cbn.
  destruct (decide (s = slot)) as [Es|Hs]; subst.
  - unfold acks_of. rewrite lookup_insert_eq. simpl.
    destruct (decide (n = nodeID)) as [En|Hn]; subst; case_decide; try naive_solver.
    + by rewrite lookup_insert_eq.
    + by rewrite lookup_insert_ne.
  - case_decide; [naive_solver|]. unfold acks_of. by rewrite lookup_insert_ne.
Qed.

Lemma Track_Get t ack slot nodeID :
  0 ≤ ack_AppliedLSN ack →
  AckTracker_Get (AckTracker_Track t ack) slot nodeID
  = if decide (ack_for slot nodeID ack) then Z.max (ack_AppliedLSN ack) (AckTracker_Get t slot nodeID)
    else AckTracker_Get t slot nodeID.
Proof.
  intros Hu. unfold AckTracker_Track.
  assert (ack_for slot nodeID ack → AckTracker_Get t slot nodeID =
    default 0 (ack_AppliedLSN <$> acks_of t (ack_Slot ack) !! ack_NodeID ack)) as HG.
  { intros [<- <-]. unfold AckTracker_Get. by destruct (_ !! _). }
  destruct (acks_of t (ack_Slot ack) !! ack_NodeID ack) as [c|]; cbn in HG;
    [destruct (Z.leb_spec (ack_AppliedLSN ack) (ack_AppliedLSN c))|];
    rewrite ?Get_insert; case_decide as Hd; try done; specialize (HG Hd); lia.
Qed.

(** The recorded progress of a replica of a slot is the greatest sequence
    number it has acknowledged for that slot, in whatever order the
    acknowledgements arrive. *)
Theorem acks_keep_the_furthest acks slot nodeID :
  Forall (λ a, is_u64 (ack_AppliedLSN a)) acks →
  AckTracker_Get (foldl AckTracker_Track NewAckTracker acks) slot nodeID
  = best_lsn (filter (ack_for slot nodeID) acks).
Proof.
  intros HF.
  assert (∀ t, 0 ≤ AckTracker_Get t slot nodeID → AckTracker_Get (foldl AckTracker_Track t acks) slot nodeID
    = Z.max (AckTracker_Get t slot nodeID) (best_lsn (filter (ack_for slot nodeID) acks))) as H.
  { induction HF as [|a acks Ha HF IH]; intros t H0; [cbn; lia|].
    unfold is_u64 in Ha. cbn [foldl]. pose proof (Track_Get t a slot nodeID ltac:(lia)) as E.
    rewrite IH, E by (rewrite E; case_decide; lia). rewrite filter_cons. case_decide; [|done].
    unfold best_lsn. cbn [foldr]. lia. }
  rewrite H by done.
  change (AckTracker_Get NewAckTracker slot nodeID) with 0.
  assert (∀ l, 0 ≤ best_lsn l) as HB by (unfold best_lsn; induction l; cbn [foldr]; lia).
  specialize (HB (filter (ack_for slot nodeID) acks)). lia.
Qed.


(** ** Writes and the log *)

(** The slot table and the log agree: the next sequence number follows the last
    logged operation of every slot. *)
Definition in_step (sm : SlotManager) (logs : LogStore) : Prop :=
  slots_wf sm ∧ 0 < ls_limit logs ∧
  ∀ slot info, valid_slot slot → slot_at sm slot = Some info →
    ∃ h, log_view logs slot h ∧ si_NextLSN info = Z.of_nat (length h).

Lemma new_in_step limit : in_step NewSlotManager (NewLogStore limit).
Proof.
  split; [apply NewSlotManager_wf|]. split; [apply NewLogStore_limit|]. intros slot info Hv E. exists []. split; [apply new_view|].
  unfold slot_at, NewSlotManager in E. cbn [sm_slots] in E. apply lookup_replicate in E as [-> _]. done.
Qed.

(** The table after a sequence number was taken. *)
Definition next_table (sm : SlotManager) (slot : Z) (info : SlotInfo) : SlotManager :=
  markDirty (put_slot sm slot (set_NextLSN (si_NextLSN info + 1) info)).

Lemma AllocateLSN_next sm slot info :
  slots_wf sm → valid_slot slot → slot_at sm slot = Some info → si_NodeID info ≠ "" → 0 ≤ si_NextLSN info →
  si_NextLSN info + 1 < 2 ^ 64 →
  AllocateLSN sm slot = Some (inr (si_ConfigEpoch info, si_NextLSN info + 1), next_table sm slot info) ∧
  slots_wf (next_table sm slot info).
Proof.
  intros Hwf Hv Hs HN H0 Hb.
  assert (AllocateLSN sm slot = Some (inr (si_ConfigEpoch info, si_NextLSN info + 1), next_table sm slot info)) as E.
  { unfold AllocateLSN. rewrite (proj2 (Z.leb_gt SlotCount slot)) by apply Hv. rewrite Hs. cbn [mbind option_bind].
    rewrite bool_decide_eq_false_2 by done. by rewrite u64_id by (unfold is_u64; lia). }
  split; [done|]. eapply (AllocateLSN_keeps sm slot); [done| |done].
  unfold valid_slot, is_u16, SlotCount in *. lia.
Qed.

Lemma next_table_at sm slot info slot' :
  slots_wf sm → valid_slot slot → valid_slot slot' →
  slot_at (next_table sm slot info) slot'
  = if decide (slot' = slot) then Some (set_NextLSN (si_NextLSN info + 1) info) else slot_at sm slot'.
Proof. intros Hwf Hv [H0 _]. unfold next_table. rewrite slot_at_markDirty. apply slot_at_put; [apply Hwf|done|done]. Qed.

Section writes.
Context `{!GoRange string Z} {A : Type}.
Implicit Types (a : A) (apply : A → bool * A) (req : WriteRequest).

Lemma dispatch_logs write resolve m op : mg_logs (dispatch write resolve m op) = mg_logs m.
Proof. unfold dispatch. destruct (Broadcast _ _ _) as [[? ?] ?]. by destruct resolve. Qed.

Lemma last_tail {B} limit (h : list B) x : 0 < limit → last (tail_of limit (h ++ [x])) = Some x.
Proof.
  intros Hl. unfold tail_of. rewrite drop_app, last_app.
  rewrite length_app. cbn [length]. by replace (length h + 1 - Z.to_nat limit - length h)%nat with 0%nat by lia.
Qed.

(** A write on a table in step with the log returns, and leaves them in step.
    It fails only when the write itself fails or the slot has no owner, and then
    nothing is logged; otherwise it is logged last, under the next sequence
    number, and the log of no other slot changes. *)
Theorem ApplyWrite_in_step write resolve apply req a sm m info :
  in_step sm (mg_logs m) → valid_slot (wr_Slot req) → slot_at sm (wr_Slot req) = Some info →
  si_NextLSN info + 1 < 2 ^ 64 →
  ∃ r sm' m', ApplyWrite write resolve apply req a sm m = Some (r, (apply a).2, sm', m') ∧
    in_step sm' (mg_logs m') ∧
    match r with
    | inr op =>
        (apply a).1 = true ∧ op = op_of req (si_ConfigEpoch info) (last_of (mg_logs m) (wr_Slot req) + 1) ∧
        last (log_of (mg_logs m') (wr_Slot req)) = Some op ∧
        ∀ slot, slot ≠ wr_Slot req → log_of (mg_logs m') slot = log_of (mg_logs m) slot
    | inl ErrApply => (apply a).1 = false ∧ sm' = sm ∧ m' = m
    | inl (ErrAllocate e) => e = ErrSlotNotAssigned (wr_Slot req) ∧ si_NodeID info = "" ∧ sm' = sm ∧ m' = m
    | inl _ => False
    end.
Proof.
  intros (Hwf & Hl & Hst) Hv Hs Hb. unfold ApplyWrite.
  assert (in_step sm (mg_logs m)) as Hin by done.
  destruct (apply a) as [[] a']; cbn [negb fst snd]; [|by eexists _, _, _].
  destruct (Hst _ _ Hv Hs) as (h & Hh & HL).
  destruct (decide (si_NodeID info = "")) as [HN|HN].
  { unfold AllocateLSN. rewrite (proj2 (Z.leb_gt SlotCount (wr_Slot req))) by apply Hv. rewrite Hs. cbn [mbind option_bind].
    rewrite bool_decide_eq_true_2 by done. by eexists _, _, _. }
  destruct (AllocateLSN_next sm _ info Hwf Hv Hs HN ltac:(lia) Hb) as [-> Hwf']. cbn [mbind option_bind].
  set (op := op_of req (si_ConfigEpoch info) (si_NextLSN info + 1)).
  pose proof (Append_view (mg_logs m) op h Hl ltac:(unfold lsn_ok, op; cbn; lia) Hh) as HA.
  destruct (LogStore_Append (mg_logs m) op) as [[e|[]] logs].
  { destruct HA as (_ & _ & _ & []). cbn. lia. }
  destruct HA as (Ho & HLm & _ & Hw). eexists _, _, _. split; [done|]. rewrite dispatch_logs. cbn [mg_logs put_logs].
  split_and!; [split; [done|split; [lia|]]|done| | |].
  - intros slot info' Hv' Hs'. rewrite (next_table_at _ _ _ _ Hwf Hv Hv') in Hs'. case_decide as Hd.
    + subst slot. injection Hs' as <-. exists (h ++ [op]). split; [done|]. rewrite length_app. cbn. lia.
    + destruct (Hst _ _ Hv' Hs') as (h' & Hh' & HL'). exists h'. split; [|done].
      destruct (Ho slot Hd) as (E1 & E2 & E3). by apply (view_same (mg_logs m)).
  - unfold op. f_equal. rewrite (lv_last_of _ _ _ Hh). lia.
  - change (wr_Slot req) with (op_Slot op). rewrite (lv_log _ _ _ Hw). apply last_tail. lia.
  - intros slot Hne. by apply Ho.
Qed.

(** *** A slot whose sequence number has run ahead *)

Definition ahead (sm : SlotManager) (m : Manager) (slot : Z) (info : SlotInfo) : Prop :=
  slots_wf sm ∧ valid_slot slot ∧ slot_at sm slot = Some info ∧ si_NodeID info ≠ "" ∧
  0 ≤ last_of (mg_logs m) slot < si_NextLSN info.

(** Successive writes to the store [a]. *)
Fixpoint write_all write resolve apply (reqs : list WriteRequest) a sm m
    : option (list (ReplicationError + Op) * A * SlotManager * Manager) :=
  match reqs with
  | [] => Some ([], a, sm, m)
  | req :: reqs' =>
      p ← ApplyWrite write resolve apply req a sm m;
      let '(r, a, sm, m) := p in
      q ← write_all write resolve apply reqs' a sm m;
      let '(rs, a, sm, m) := q in Some (r :: rs, a, sm, m)
  end.

Lemma ahead_write write resolve apply req a sm m info :
  ahead sm m (wr_Slot req) info → si_NextLSN info + 1 < 2 ^ 64 → (apply a).1 = true →
  let want := last_of (mg_logs m) (wr_Slot req) + 1 in
  ApplyWrite write resolve apply req a sm m
  = Some (inl (ErrOutOfOrder (wr_Slot req) (si_NextLSN info + 1) want), (apply a).2, next_table sm (wr_Slot req) info,
      put_logs m (mg_logs m)) ∧
  ahead (next_table sm (wr_Slot req) info) (put_logs m (mg_logs m)) (wr_Slot req) (set_NextLSN (si_NextLSN info + 1) info).
Proof.
  intros (Hwf & Hv & Hs & HN & H0) Hb Ha. cbn zeta. unfold ApplyWrite. destruct (apply a) as [ok a']. cbn in Ha. subst ok.
  cbn [negb fst snd]. destruct (AllocateLSN_next sm _ info Hwf Hv Hs HN ltac:(lia) Hb) as [-> Hwf']. cbn [mbind option_bind].
  unfold LogStore_Append. cbn [op_of op_LSN op_Slot]. rewrite (u64_id (last_of _ _ + 1)) by (unfold is_u64; lia).
  rewrite (proj2 (Z.eqb_neq _ _)) by lia. split; [done|]. split_and!; try done.
  - by rewrite (next_table_at _ _ _ _ Hwf Hv Hv), decide_True.
  - cbn. lia.
  - cbn. lia.
Qed.

(** No write to such a slot is logged again: each one is applied to the store
    and answered with an error. *)
Lemma ahead_writes_fail write resolve apply reqs a sm m slot info :
  ahead sm m slot info → Forall (λ req, wr_Slot req = slot) reqs →
  si_NextLSN info + Z.of_nat (length reqs) < 2 ^ 64 → (∀ a, (apply a).1 = true) →
  ∃ rs sm' m', write_all write resolve apply reqs a sm m = Some (rs, foldl (λ a _, (apply a).2) a reqs, sm', m') ∧
    length rs = length reqs ∧ Forall (λ r, ∃ got, r = inl (ErrOutOfOrder slot got (last_of (mg_logs m) slot + 1))) rs ∧
    mg_logs m' = mg_logs m.
Proof.
  intros Hah HF. revert a sm m info Hah. induction HF as [|req reqs <- HF IH]; intros a sm m info Hah Hb Ha.
  { by eexists [], sm, m. }
  cbn [length] in Hb. cbn [write_all foldl].
  destruct (ahead_write write resolve apply req a sm m info Hah ltac:(lia) (Ha a)) as [-> Hah']. cbn [mbind option_bind].
  destruct (IH (apply a).2 _ _ _ Hah' ltac:(cbn; lia) Ha) as (rs & sm' & m' & -> & Hlen & HR & HL). cbn [mbind option_bind].
  eexists _, sm', m'. split; [done|]. split_and!; [cbn; lia| |done]. constructor; [by eexists|done].
Qed.

(** The sequence numbers survive a restart and the log does not: after a node
    has saved its table and restored it beside a new replication manager, no
    write to a slot that had been written to is replicated again. Each one is
    applied to the store of the primary and answered with an error, and the log
    stays empty. *)
Theorem restart_stops_replication `{!GoRange Z MigrationState} `{!GoRange Z SlotReplicaSet}
    write resolve apply reqs a sm sm0 slot info :
  slots_wf sm → valid_slot slot → slot_at sm slot = Some info → si_NodeID info ≠ "" → 0 < si_NextLSN info →
  Forall (λ req, wr_Slot req = slot) reqs → si_NextLSN info + Z.of_nat (length reqs) < 2 ^ 64 →
  (∀ a, (apply a).1 = true) →
  ∃ sm1 rs sm' m', 
    RestoreFromState sm0 (GetSlotMapSnapshot sm) (GetMigratingSlots sm) (GetSlotReplicationState sm) = Some sm1 ∧
    write_all write resolve apply reqs a sm1 (NewManager None) = Some (rs, foldl (λ a _, (apply a).2) a reqs, sm', m') ∧
    length rs = length reqs ∧ Forall (λ r, ∃ got, r = inl (ErrOutOfOrder slot got 1)) rs ∧
    mg_logs m' = NewLogStore 1024.
Proof.
  intros Hwf Hv Hs HN H0 HF Hb Ha. destruct (RestoreFromState_saved sm0 sm Hwf) as (sm1 & E1 & Hwf1 & S1).
  specialize (S1 slot Hv). rewrite Hs in S1. cbn in S1.
  assert (ahead sm1 (NewManager None) slot (saved info)) as Hah.
  { by split_and!. }
  destruct (ahead_writes_fail write resolve apply reqs a sm1 (NewManager None) slot (saved info) Hah HF Hb Ha)
    as (rs & sm' & m' & H). by exists sm1, rs, sm', m'.
Qed.
End writes.

(** ** Interleaved writers

    Between them, [Apply], [AllocateLSN] and [Append] take and release
    different locks, so the phases of concurrent [ApplyWrite] calls interleave.
    A call is its request and how far it is. *)

Inductive write_pc :=
  | WStart
  | WApplied
  | WAllocated (epoch lsn : Z)
  | WDone (r : ReplicationError + Op).

Inductive write_step : SlotManager * LogStore * list (WriteRequest * write_pc) →
    SlotManager * LogStore * list (WriteRequest * write_pc) → Prop :=
  | ws_apply sm logs ts i req :
      ts !! i = Some (req, WStart) → write_step (sm, logs, ts) (sm, logs, <[i := (req, WApplied)]> ts)
  | ws_allocate sm logs ts i req epoch lsn sm' :
      ts !! i = Some (req, WApplied) → AllocateLSN sm (wr_Slot req) = Some (inr (epoch, lsn), sm') →
      write_step (sm, logs, ts) (sm', logs, <[i := (req, WAllocated epoch lsn)]> ts)
  | ws_append sm logs ts i req epoch lsn r logs' :
      ts !! i = Some (req, WAllocated epoch lsn) → LogStore_Append logs (op_of req epoch lsn) = (r, logs') →
      write_step (sm, logs, ts)
        (sm, logs', <[i := (req, WDone (match r with inl e => inl e | inr _ => inr (op_of req epoch lsn) end))]> ts).

(** The second write appends before the first and is refused. *)
Lemma race_runs_ahead sm m req1 req2 info :
  in_step sm (mg_logs m) → valid_slot (wr_Slot req1) → wr_Slot req2 = wr_Slot req1 →
  slot_at sm (wr_Slot req1) = Some info → si_NodeID info ≠ "" → si_NextLSN info + 2 < 2 ^ 64 →
  ∃ sm' logs' op e info',
    rtc write_step (sm, mg_logs m, [(req1, WStart); (req2, WStart)])
      (sm', logs', [(req1, WDone (inr op)); (req2, WDone (inl e))]) ∧
    ahead sm' (put_logs m logs') (wr_Slot req1) info' ∧ si_NextLSN info' = si_NextLSN info + 2.
Proof.
  intros (Hwf & Hl & Hst) Hv E2 Hs HN Hb. set (slot := wr_Slot req1) in *.
  destruct (Hst _ _ Hv Hs) as (h & Hh & HL).
  destruct (AllocateLSN_next sm slot info Hwf Hv Hs HN ltac:(lia) ltac:(lia)) as [A1 Hwf1].
  set (sm1 := next_table sm slot info) in *. set (info1 := set_NextLSN (si_NextLSN info + 1) info).
  assert (slot_at sm1 slot = Some info1) as Hs1 by (unfold sm1; by rewrite next_table_at, decide_True).
  destruct (AllocateLSN_next sm1 slot info1 Hwf1 Hv Hs1 HN ltac:(cbn; lia) ltac:(cbn; lia)) as [A2 Hwf2].
  set (op1 := op_of req1 (si_ConfigEpoch info) (si_NextLSN info + 1)).
  set (op2 := op_of req2 (si_ConfigEpoch info) (si_NextLSN info1 + 1)).
  assert (LogStore_Append (mg_logs m) op2 = (inl (ErrOutOfOrder slot (op_LSN op2) (si_NextLSN info + 1)), mg_logs m)) as P2.
  { unfold LogStore_Append. change (op_Slot op2) with (wr_Slot req2). rewrite E2. fold slot.
    rewrite (lv_last_of _ _ _ Hh), <-HL, u64_id by (unfold is_u64; lia).
    by rewrite (proj2 (Z.eqb_neq _ _)) by (cbn; lia). }
  pose proof (Append_view (mg_logs m) op1 h Hl ltac:(unfold lsn_ok; cbn; lia) Hh) as P1.
  destruct (LogStore_Append (mg_logs m) op1) as [[e1|[]] logs'] eqn:EA.
  { destruct P1 as (_ & _ & _ & []). cbn. lia. }
  destruct P1 as (_ & _ & _ & Hv1). change (op_Slot op1) with slot in Hv1.
  exists (next_table sm1 slot info1), logs', op1, (ErrOutOfOrder slot (op_LSN op2) (si_NextLSN info + 1)),
    (set_NextLSN (si_NextLSN info1 + 1) info1). split_and!; [| |cbn; lia].
  - eapply rtc_l; [by apply (ws_apply _ _ _ 0 req1)|]. eapply rtc_l; [by apply (ws_apply _ _ _ 1 req2)|].
    eapply rtc_l; [by apply (ws_allocate _ _ _ 0 req1 (si_ConfigEpoch info) (si_NextLSN info + 1) sm1)|].
    eapply rtc_l; [apply (ws_allocate _ _ _ 1 req2 (si_ConfigEpoch info1) (si_NextLSN info1 + 1)); [done|by rewrite E2]|].
    eapply rtc_l; [by eapply (ws_append _ _ _ 1 req2); [|exact P2]|].
    eapply rtc_l; [by eapply (ws_append _ _ _ 0 req1); [|exact EA]|]. apply rtc_refl.
  - unfold ahead. cbn [mg_logs put_logs]. rewrite (lv_last_of _ _ _ Hv1), length_app, next_table_at, decide_True by done.
    split_and!; try done; cbn; lia.
Qed.

(** C31: Two concurrent writes to a slot that is in step can end with one of them
    refused and the sequence number ahead of the log, so that no later write
    to the slot is replicated either. *)
Theorem interleaved_writes_stop_replication `{!GoRange string Z} {A} write resolve (apply : A → bool * A) req1 req2 reqs a sm m info :
  in_step sm (mg_logs m) → valid_slot (wr_Slot req1) → wr_Slot req2 = wr_Slot req1 →
  slot_at sm (wr_Slot req1) = Some info → si_NodeID info ≠ "" →
  Forall (λ req, wr_Slot req = wr_Slot req1) reqs → si_NextLSN info + 2 + Z.of_nat (length reqs) < 2 ^ 64 →
  (∀ a, (apply a).1 = true) →
  ∃ sm' logs' op e rs sm'' m'',
    rtc write_step (sm, mg_logs m, [(req1, WStart); (req2, WStart)])
      (sm', logs', [(req1, WDone (inr op)); (req2, WDone (inl e))]) ∧
    write_all write resolve apply reqs a sm' (put_logs m logs') = Some (rs, foldl (λ a _, (apply a).2) a reqs, sm'', m'') ∧
    length rs = length reqs ∧ Forall (λ r, ∃ e, r = inl e) rs ∧ mg_logs m'' = logs'.
Proof.
  intros Hin Hv E2 Hs HN HF Hb Ha.
  destruct (race_runs_ahead sm m req1 req2 info Hin Hv E2 Hs HN ltac:(lia)) as (sm' & logs' & op & e & info' & HR & Hah & HL).
  destruct (ahead_writes_fail write resolve apply reqs a _ _ _ _ Hah HF ltac:(lia) Ha) as (rs & sm'' & m'' & HW & Hr & HE & HM).
  exists sm', logs', op, e, rs, sm'', m''. split_and!; try done.
  eapply Forall_impl; [exact HE|]. intros r [got ->]. by eexists.
Qed.

(** ** The replica applies each operation once *)

Definition progress_lt (p q : ApplyProgress) : Prop :=
  ap_Epoch p < ap_Epoch q ∨ (ap_Epoch p = ap_Epoch q ∧ ap_LSN p < ap_LSN q).

#[global] Instance progress_lt_trans : Transitive progress_lt.
Proof. intros p q r. unfold progress_lt. lia. Qed.

Definition op_progress (op : Op) : ApplyProgress := mkProgress (op_Epoch op) (op_LSN op).

Lemma Begin_fresh ap op : Begin ap op = inr false → 1 ≤ op_LSN op → progress_lt (progress_of ap (op_Slot op)) (op_progress op).
Proof.
  unfold Begin, progress_lt, op_progress. cbn. destruct (progress_of ap (op_Slot op)) as [e l]. cbn.
  destruct (Z.ltb_spec (op_Epoch op) e); [done|]. destruct (Z.ltb_spec e (op_Epoch op)); cbn; [lia|].
  destruct (Z.leb_spec (op_LSN op) l); [done|]. lia.
Qed.

Lemma Begin_next ap op : 1 ≤ op_LSN op → progress_lt (progress_of ap (op_Slot op)) (op_progress op) → Begin ap op = inr false.
Proof.
  unfold Begin, progress_lt, op_progress. cbn. destruct (progress_of ap (op_Slot op)) as [e l]. cbn. intros H1 H.
  rewrite (proj2 (Z.ltb_ge _ _)) by lia. destruct (Z.ltb_spec e (op_Epoch op)); cbn;
    by rewrite (proj2 (Z.leb_gt _ _)) by lia.
Qed.

Lemma progress_Commit ap op slot :
  progress_of (Commit ap op) slot = if decide (slot = op_Slot op) then op_progress op else progress_of ap slot.
Proof.
  unfold progress_of, Commit. case_decide; subst; [by rewrite lookup_insert_eq|by rewrite lookup_insert_ne].
Qed.

Section replica.
Context {A : Type} (exec : Op → A → bool * A).

Definition executes (op : Op) (a : A) (ap : ReplicaApplier) : bool :=
  match Begin ap op with inr false => (exec op a).1 | _ => false end.

(** Deliver a list of operations; the result also has those that were executed. *)
Fixpoint deliver_all (ops : list Op) (a : A) (ap : ReplicaApplier) : list Op * A * ReplicaApplier :=
  match ops with
  | [] => ([], a, ap)
  | op :: ops' =>
      let '(_, a', ap') := apply_incoming exec op a ap in
      let '(applied, a'', ap'') := deliver_all ops' a' ap' in
      ((if executes op a ap then [op] else []) ++ applied, a'', ap'')
  end.

Lemma apply_incoming_progress op a ap :
  (apply_incoming exec op a ap).2 = if executes op a ap then Commit ap op else ap.
Proof.
  unfold apply_incoming, executes. destruct (Begin ap op) as [e|[]]; [done|done|]. by destruct (exec op a) as [[] a'].
Qed.

Lemma deliver_all_sorted ops a ap slot :
  Forall lsn_ok ops →
  let applied := filter (in_slot slot) (deliver_all ops a ap).1.1 in
  StronglySorted progress_lt (progress_of ap slot :: (op_progress <$> applied)) ∧
  progress_of (deliver_all ops a ap).2 slot = default (progress_of ap slot) (op_progress <$> last applied).
Proof.
  intros HF. revert a ap. induction HF as [|op ops Hop HF IH]; intros a ap; cbn zeta.
  { cbn. split; [repeat constructor|done]. }
  cbn [deliver_all]. pose proof (apply_incoming_progress op a ap) as Hp.
  destruct (apply_incoming exec op a ap) as [[r a'] ap'] eqn:EA. cbn [snd] in Hp.
  destruct (IH a' ap') as [IS IP]. destruct (deliver_all ops a' ap') as [[applied a''] ap'']. cbn [fst snd] in *.
  destruct (executes op a ap) eqn:EX; subst ap'; [|done].
  unfold executes in EX. destruct (Begin ap op) as [e|[]] eqn:EB; try done.
  pose proof (Begin_fresh ap op EB (proj1 Hop)) as Hlt. rewrite progress_Commit in IS, IP.
  cbn [app]. destruct (decide (slot = op_Slot op)) as [->|Hd].
  - rewrite filter_cons_True by done. split.
    + cbn [fmap list_fmap]. apply SSorted_cons; [done|]. apply StronglySorted_inv in IS as [IS IF].
      constructor; [done|]. eapply Forall_impl; [exact IF|]. intros x Hx. by etrans.
    + rewrite IP, last_cons. by destruct (last _).
  - by rewrite filter_cons_False by (unfold in_slot; congruence).
Qed.

(** Whatever a replica is sent, in whatever order and however often, the
    operations of a slot that it executes are strictly increasing in epoch and
    sequence number: none is executed twice and none is executed after a later
    one. Its recorded progress is the last of them. *)
Theorem replica_executes_in_order ops a slot :
  Forall lsn_ok ops →
  let '(applied, _, ap) := deliver_all ops a NewReplicaApplier in
  StronglySorted progress_lt (op_progress <$> filter (in_slot slot) applied) ∧
  progress_of ap slot = default (mkProgress 0 0) (op_progress <$> last (filter (in_slot slot) applied)).
Proof.
  intros HF. destruct (deliver_all_sorted ops a NewReplicaApplier slot HF) as [HS HP].
  destruct (deliver_all ops a NewReplicaApplier) as [[applied a'] ap]. cbn [fst snd] in *.
  apply StronglySorted_inv in HS as [HS _]. done.
Qed.

(** The operations that succeed when all are executed one after the other. *)
Fixpoint succeeded (ops : list Op) (a : A) : list Op :=
  match ops with
  | [] => []
  | op :: ops' => (if (exec op a).1 then [op] else []) ++ succeeded ops' (exec op a).2
  end.

(** Operations of one slot in order, the first of them after what the replica
    has: all of them are executed, one after the other, whether or not those
    before have failed; the progress follows those that succeed. *)
Lemma deliver_in_order ops a ap slot :
  Forall lsn_ok ops → Forall (in_slot slot) ops →
  StronglySorted progress_lt (progress_of ap slot :: (op_progress <$> ops)) →
  (deliver_all ops a ap).1 = (succeeded ops a, foldl (λ a op, (exec op a).2) a ops) ∧
  progress_of (deliver_all ops a ap).2 slot = default (progress_of ap slot) (op_progress <$> last (succeeded ops a)).
Proof.
  intros HF HS. revert a ap. induction HF as [|op ops Hop HF IH]; intros a ap Hsort; [done|].
  apply Forall_cons in HS as [Hs HS]. cbn [fmap list_fmap] in Hsort.
  apply StronglySorted_inv in Hsort as [Hsort Hall]. apply Forall_cons in Hall as [Hlt _].
  assert (Begin ap op = inr false) as EB.
  { apply Begin_next; [apply Hop|]. by rewrite Hs. }
  cbn [deliver_all succeeded foldl]. unfold executes, apply_incoming. rewrite EB.
  destruct (exec op a) as [[] a'] eqn:EE; cbn [fst snd app].
  - destruct (IH HS a' (Commit ap op)) as [E1 E2]; [by rewrite progress_Commit, decide_True by done|].
    destruct (deliver_all ops a' (Commit ap op)) as [[applied a''] ap'']. cbn [fst snd] in *.
    injection E1 as -> ->. split; [done|]. rewrite E2, progress_Commit, decide_True by done.
    rewrite last_cons. by destruct (last _).
  - destruct (IH HS a' ap) as [E1 E2].
    { apply StronglySorted_inv in Hsort as [Hsort Hop']. constructor; [done|]. eapply Forall_impl; [exact Hop'|]. intros ? ?. by etrans. }
    destruct (deliver_all ops a' ap) as [[applied a''] ap'']. cbn [fst snd] in *. by injection E1 as -> ->.
Qed.

Lemma history_sorted h k :
  op_LSN <$> h = seqZ k (Z.of_nat (length h)) → StronglySorted Z.le (op_Epoch <$> h) →
  StronglySorted progress_lt (op_progress <$> h).
Proof.
  revert k. induction h as [|op h IH]; intros k HL HE; [constructor|].
  cbn [length fmap list_fmap] in *. rewrite seqZ_cons in HL by lia. injection HL as HL1 HL.
  replace (Z.pred (Z.of_nat (S (length h)))) with (Z.of_nat (length h)) in HL by lia.
  apply StronglySorted_inv in HE as [HE HF]. constructor; [by eapply IH|].
  apply Forall_forall. intros p (o & -> & Ho)%list_elem_of_fmap.
  rewrite Forall_forall in HF. specialize (HF (op_Epoch o) ltac:(by apply list_elem_of_fmap_2)).
  assert (op_LSN o ∈ seqZ (Z.succ k) (Z.of_nat (length h))) as Hin by (rewrite <-HL; by apply list_elem_of_fmap_2).
  apply elem_of_seqZ in Hin. unfold progress_lt. cbn. lia.
Qed.

Lemma history_rest h n p :
  op_LSN <$> h = seqZ 1 (Z.of_nat (length h)) → StronglySorted Z.le (op_Epoch <$> h) → Forall (λ o, 0 ≤ op_Epoch o) h →
  p = default (mkProgress 0 0) (op_progress <$> last (take n h)) →
  StronglySorted progress_lt (p :: (op_progress <$> drop n h)).
Proof.
  intros HL HE H0 ->. pose proof (history_sorted h 1 HL HE) as HS.
  rewrite <-(take_drop n h), fmap_app in HS. constructor; [by eapply StronglySorted_app_1_r|].
  apply Forall_forall. intros q (o & -> & Ho)%list_elem_of_fmap.
  destruct (last (take n h)) as [x|] eqn:EL; cbn.
  - eapply StronglySorted_app_1_elem_of; [exact HS| |by apply list_elem_of_fmap_2].
    apply list_elem_of_fmap_2. by apply last_Some_elem_of.
  - rewrite Forall_forall in H0. apply list_elem_of_lookup_1 in Ho as [i Ho]. rewrite lookup_drop in Ho.
    pose proof (lsns_lookup _ _ _ HL Ho). specialize (H0 o ltac:(by eapply list_elem_of_lookup_2)).
    unfold progress_lt. cbn. lia.
Qed.

(** C8: Primary and replica together: the primary's log was offered any operations,
    and those it accepted for the slot have epochs that never decrease; the
    replica has executed the first [lsn] operations of the slot and the last of
    them succeeded. Asked for the rest, the primary refuses only when the replica
    is ahead of it or more than the log's limit behind; otherwise its answer is
    the rest, and the replica that gets it has then executed the whole history
    of the slot, each operation once and in order. Executing may fail: a failed
    operation is not tried again, the ones after it are executed all the same,
    and the progress is the last one that succeeded, which is the end of the
    history when none of the rest fails. *)
Theorem replica_catches_up limit ops m slot lsn a ap :
  Forall lsn_ok ops → is_u64 lsn → mg_logs m = (log_run (NewLogStore limit) ops).1 →
  let h := filter (in_slot slot) (log_run (NewLogStore limit) ops).2 in
  let run := foldl (λ a op, (exec op a).2) in
  StronglySorted Z.le (op_Epoch <$> h) → Forall (λ o, 0 ≤ op_Epoch o) h →
  progress_of ap slot = default (mkProgress 0 0) (op_progress <$> last (take (Z.to_nat lsn) h)) →
  match IncrementalOps m slot lsn with
  | None => Z.of_nat (length h) < lsn ∨ lsn + ls_limit (NewLogStore limit) < Z.of_nat (length h)
  | Some rest =>
      let '(applied, a', ap') := deliver_all rest (run a (take (Z.to_nat lsn) h)) ap in
      rest = drop (Z.to_nat lsn) h ∧ a' = run a h ∧
      applied = succeeded rest (run a (take (Z.to_nat lsn) h)) ∧
      progress_of ap' slot = default (progress_of ap slot) (op_progress <$> last applied) ∧
      (applied = rest → progress_of ap' slot = default (mkProgress 0 0) (op_progress <$> last h))
  end.
Proof.
  intros HF Hu Hm h run HE H0 Hp.
  destruct (IncrementalOps_exact limit ops m slot lsn HF Hu Hm) as (HL & _ & HI). cbn zeta in HI. fold h in HL, HI.
  rewrite HI. case_bool_decide as Hc; [|lia].
  assert (Forall lsn_ok (drop (Z.to_nat lsn) h) ∧ Forall (in_slot slot) (drop (Z.to_nat lsn) h)) as [F1 F2].
  { split; apply Forall_drop, Forall_forall; intros o Ho.
    - apply list_elem_of_lookup_1 in Ho as [i Hi]. pose proof (lsns_lookup _ _ _ HL Hi).
      pose proof (lookup_lt_Some _ _ _ Hi). unfold lsn_ok, is_u64 in *. 
      destruct (log_run_view (NewLogStore limit) ops [] slot (NewLogStore_limit limit) HF ltac:(intros; apply new_view)) as [Hv _].
      pose proof (lv_bound _ _ _ Hv) as Hb. rewrite app_nil_l in Hb. fold h in Hb. lia.
    - by apply list_elem_of_filter in Ho as [? _]. }
  destruct (deliver_in_order _ (run a (take (Z.to_nat lsn) h)) ap slot F1 F2 (history_rest h _ _ HL HE H0 Hp)) as [E1 E2].
  destruct (deliver_all _ _ ap) as [[applied a'] ap']. cbn [fst snd] in *. injection E1 as -> ->. split_and!; [done| |done|done|].
  - unfold run. by rewrite <-foldl_app, take_drop.
  - intros Happ. rewrite E2, Hp, Happ. rewrite <-(take_drop (Z.to_nat lsn) h) at 3. rewrite last_app. by destruct (last (drop _ _)).
Qed.
End replica.

(** ** Two connections to one replica

    [dispatch] sends an operation both over the replica's persistent connection
    and over its queue, so two goroutines of the replica may receive the same
    operations. [Begin] and [Commit] lock the applier separately, and the
    execution between them is not locked: the rounds of the two goroutines
    interleave. A goroutine is what it has still to handle, and how far it is
    with the first. *)

Inductive apply_pc := AIdle | ABegun | AExecuted.

Inductive apply_step {A} (exec : Op → A → bool * A) :
    A * ReplicaApplier * list (apply_pc * list Op) → A * ReplicaApplier * list (apply_pc * list Op) → Prop :=
  | as_drop a ap ts i op ops :
      ts !! i = Some (AIdle, op :: ops) → Begin ap op ≠ inr false →
      apply_step exec (a, ap, ts) (a, ap, <[i := (AIdle, ops)]> ts)
  | as_begin a ap ts i op ops :
      ts !! i = Some (AIdle, op :: ops) → Begin ap op = inr false →
      apply_step exec (a, ap, ts) (a, ap, <[i := (ABegun, op :: ops)]> ts)
  | as_exec a ap ts i op ops a' :
      ts !! i = Some (ABegun, op :: ops) → exec op a = (true, a') →
      apply_step exec (a, ap, ts) (a', ap, <[i := (AExecuted, op :: ops)]> ts)
  | as_fail a ap ts i op ops a' :
      ts !! i = Some (ABegun, op :: ops) → exec op a = (false, a') →
      apply_step exec (a, ap, ts) (a', ap, <[i := (AIdle, ops)]> ts)
  | as_commit a ap ts i op ops :
      ts !! i = Some (AExecuted, op :: ops) →
      apply_step exec (a, ap, ts) (a, Commit ap op, <[i := (AIdle, ops)]> ts).

(** A replica that is sent two consecutive operations of a slot on one
    connection, and the first of them on another as well, can execute the
    first again after the second: the older write wins, and the recorded
    progress goes back. *)
Theorem two_connections_regress {A} (exec : Op → A → bool * A) a ap op1 op2 :
  op_Slot op2 = op_Slot op1 → op_Epoch op2 = op_Epoch op1 → op_LSN op2 = op_LSN op1 + 1 → 1 ≤ op_LSN op1 →
  progress_lt (progress_of ap (op_Slot op1)) (op_progress op1) → (∀ op a, (exec op a).1 = true) →
  ∃ ap', rtc (apply_step exec) (a, ap, [(AIdle, [op1]); (AIdle, [op1; op2])])
      ((exec op1 (exec op2 (exec op1 a).2).2).2, ap', [(AIdle, []); (AIdle, [])]) ∧
    progress_of ap' (op_Slot op1) = op_progress op1 ∧ progress_lt (progress_of ap' (op_Slot op1)) (op_progress op2).
Proof.
  intros Hs He Hl H1 Hp Hx.
  assert (∀ op a, exec op a = (true, (exec op a).2)) as E by (intros op b; rewrite <-(Hx op b); by destruct (exec op b)).
  assert (progress_lt (op_progress op1) (op_progress op2)) as H12 by (unfold progress_lt; cbn; lia).
  exists (Commit (Commit (Commit ap op1) op2) op1). split_and!.
  - eapply rtc_l; [apply (as_begin _ _ _ _ 0 op1); [done|by apply Begin_next]|].
    eapply rtc_l; [apply (as_begin _ _ _ _ 1 op1); [done|by apply Begin_next]|].
    eapply rtc_l; [by apply (as_exec _ _ _ _ 1 op1); [|apply E]|].
    eapply rtc_l; [by apply (as_commit _ _ _ _ 1 op1)|].
    eapply rtc_l; [apply (as_begin _ _ _ _ 1 op2); [done|apply Begin_next; [lia|]]|].
    { by rewrite progress_Commit, decide_True. }
    eapply rtc_l; [by apply (as_exec _ _ _ _ 1 op2); [|apply E]|].
    eapply rtc_l; [by apply (as_commit _ _ _ _ 1 op2)|].
    eapply rtc_l; [by apply (as_exec _ _ _ _ 0 op1); [|apply E]|].
    eapply rtc_l; [by apply (as_commit _ _ _ _ 0 op1)|]. apply rtc_refl.
  - by rewrite progress_Commit, decide_True.
  - by rewrite progress_Commit, decide_True.
Qed.

(** ** On concrete data *)

Section witnesses.
#[local] Instance ranges {K A} `{Countable K} : GoRange K A := listed_range.

Let op (slot lsn : Z) (v : string) : Op := mkOp slot 1 lsn "SET" "k" (StringToBytes v) 0.

(** A register: the last payload. *)
Let exec (o : Op) (a : list byte) : bool * list byte := (true, op_Payload o).

Let offered : list Op := [op 7 1 "a"; op 7 3 "x"; op 7 2 "b"; op 8 1 "y"; op 7 3 "c"].

Let primary : Manager := put_logs (NewManager None) (log_run (NewLogStore 2) offered).1.

Lemma replica_catches_up_witness :
  IncrementalOps primary 7 1 = Some [op 7 2 "b"; op 7 3 "c"] ∧
  (deliver_all exec [op 7 2 "b"; op 7 3 "c"] (StringToBytes "a") {[7 := mkProgress 1 1]}).1.2 = StringToBytes "c".
Proof.
  pose proof (replica_catches_up exec 2 offered primary 7 1 [] {[7 := mkProgress 1 1]}) as H.
  assert (IncrementalOps primary 7 1 = Some [op 7 2 "b"; op 7 3 "c"]) as E by (vm_compute; reflexivity).
  split; [exact E|]. rewrite E in H.
  destruct H as (_ & H & _); [..|exact H].
  - unfold offered, lsn_ok. repeat constructor; cbn; lia.
  - unfold is_u64. lia.
  - reflexivity.
  - vm_compute. repeat constructor; discriminate.
  - vm_compute. repeat constructor; discriminate.
  - vm_compute. reflexivity.
Defined.

Lemma acks_keep_the_furthest_witness :
  AckTracker_Get (foldl AckTracker_Track NewAckTracker [mkAck 7 1 "b" 5; mkAck 7 1 "b" 3; mkAck 7 1 "c" 9]) 7 "b" = 5.
Proof.
  etrans; [apply (acks_keep_the_furthest [mkAck 7 1 "b" 5; mkAck 7 1 "b" 3; mkAck 7 1 "c" 9] 7 "b")|reflexivity].
  unfold is_u64. repeat constructor; cbn; lia.
Defined.

Lemma replica_executes_in_order_witness :
  (deliver_all exec [op 7 2 "b"; op 7 1 "a"; op 7 2 "b"; op 7 3 "c"] [] NewReplicaApplier).1.1 = [op 7 2 "b"; op 7 3 "c"] ∧
  StronglySorted progress_lt [mkProgress 1 2; mkProgress 1 3].
Proof.
  split; [vm_compute; reflexivity|].
  pose proof (replica_executes_in_order exec [op 7 2 "b"; op 7 1 "a"; op 7 2 "b"; op 7 3 "c"] [] 7) as H.
  destruct H as [H _]; [|exact H]. unfold lsn_ok. repeat constructor; cbn; lia.
Defined.

Lemma two_connections_regress_witness :
  ∃ ap', rtc (apply_step exec) ([], ∅, [(AIdle, [op 7 1 "a"]); (AIdle, [op 7 1 "a"; op 7 2 "b"])])
    (StringToBytes "a", ap', [(AIdle, []); (AIdle, [])]).
Proof.
  destruct (two_connections_regress exec [] ∅ (op 7 1 "a") (op 7 2 "b")) as (ap' & H & _);
    [done|done|done|cbn; lia|left; vm_compute; reflexivity|done|].
  exists ap'. exact H.
Defined.

Let table : SlotManager := demo3.
Let request (v : string) : WriteRequest := mkWrite 7 "SET" "k" (StringToBytes v) 0.
Let append (a : string) : bool * string := (true, (a +:+ "!")%string).
Let row : SlotInfo := mkSlot SlotStateNormal "a" "a" [mkReplica "b" 0 true; mkReplica "c" 9 true] 3 0 "" "".
Let lost (_ : Z) (_ : list byte) : bool := false.

Lemma table_row : slot_at table 7 = Some row.
Proof. apply demo_steps. Qed.

Lemma table_in_step : in_step table (mg_logs (NewManager None)).
Proof.
  split; [apply demo3_wf|]. split; [apply (NewLogStore_limit 1024)|].
  intros slot info Hv E. exists []. split; [apply new_view|].
  assert (forallb (λ i, si_NextLSN i =? 0) (sm_slots table) = true) as HF by (vm_compute; reflexivity).
  rewrite forallb_forall in HF. specialize (HF info). apply Z.eqb_eq, HF, list_elem_of_In.
  by eapply list_elem_of_lookup_2.
Qed.

Lemma ApplyWrite_in_step_witness :
  ∃ op sm' m', ApplyWrite lost None append (request "v") "x"%string table (NewManager None) = Some (inr op, "x!"%string, sm', m') ∧
    op = mkOp 7 3 1 "SET" "k" (StringToBytes "v") 0.
Proof.
  destruct (ApplyWrite_in_step lost None append (request "v") "x"%string table (NewManager None) row)
    as (r & sm' & m' & H & _ & HR); [apply table_in_step|apply valid_7|apply table_row|cbn; lia|].
  destruct r as [e|op']; last first.
  { exists op', sm', m'. split; [exact H|]. destruct HR as (_ & -> & _). reflexivity. }
  exfalso. destruct e as [| e| |]; [done| |destruct HR; done|done]. destruct HR as (_ & HN & _). discriminate HN.
Defined.

Lemma restart_stops_replication_witness :
  ∃ sm1 r1 r2 sm' m',
    write_all lost None append [request "v"; request "w"] "x"%string sm1 (NewManager None) = Some ([r1; r2], "x!!"%string, sm', m') ∧
    (∃ n, r1 = inl (ErrOutOfOrder 7 n 1)) ∧ mg_logs m' = NewLogStore 1024.
Proof.
  destruct (restart_stops_replication lost None append [request "v"; request "w"] "x"%string demo4 NewSlotManager 7
    (mkSlot SlotStateNormal "a" "a" [mkReplica "b" 0 true; mkReplica "c" 9 true] 3 1 "" ""))
    as (sm1 & rs & sm' & m' & _ & H & Hlen & HF & HM).
  - destruct demo_ops as (_ & _ & _ & H4). apply (slot_op_keeps demo3); [apply demo3_wf|done].
  - apply valid_7.
  - apply demo4_slot.
  - done.
  - cbn. lia.
  - by repeat constructor.
  - cbn. lia.
  - done.
  - destruct rs as [|r1 [|r2 [|]]]; try done. exists sm1, r1, r2, sm', m'. split_and!; [exact H| |exact HM].
    by apply Forall_cons in HF as [? _].
Defined.

Lemma interleaved_writes_stop_replication_witness :
  ∃ sm' logs' op e,
    rtc write_step (table, NewLogStore 1024, [(request "v", WStart); (request "w", WStart)])
      (sm', logs', [(request "v", WDone (inr op)); (request "w", WDone (inl e))]).
Proof.
  destruct (interleaved_writes_stop_replication lost None append (request "v") (request "w") [request "z"] "x"%string
    table (NewManager None) row) as (sm' & logs' & o & e & _ & _ & _ & H & _);
    [apply table_in_step|apply valid_7|done|apply table_row|done|by repeat constructor|cbn; lia|done|].
  exists sm', logs', o, e. exact H.
Defined.
End witnesses.
