(* ===== verification/Cluster.v ===== *)
(** * A cluster node: [internal/cluster/cluster.go], [node.go], [router.go]

    The node's own record, its slot table and its gossip view, and the
    decisions it takes from them: where a key is served, who may write, who the
    replicas of a slot are, what a failover takes over. [CLUSTER] messages to
    other nodes are the events of the gossip model. Moving the keys of a slot
    is the argument [drain] of the operations that do it. *)

From S2P Require Import Prelude Hash Strconv Wire Slots Gossip Replication.
From stdpp Require Import options.

(** ** The node's record: [node.go] *)

Record Node := mkSelf {
  nd_ID : string;
  nd_IP : string;
  nd_Port : Z;
  nd_ClusterPort : Z;
  nd_Role : NodeRole;
  nd_MasterID : string;
  nd_State : NodeState
}.

Definition Node_Addr (n : Node) : string := host_port (nd_IP n) (nd_Port n).

Definition NodeState_String (s : NodeState) : string :=
  match s with
  | NodeStateUnknown => "unknown"
  | NodeStateHandshake => "handshake"
  | NodeStateConnected => "connected"
  | NodeStatePFail => "pfail"
  | NodeStateFail => "fail"
  end.

Definition NodeRole_String (r : NodeRole) : string :=
  match r with NodeRoleMaster => "master" | NodeRoleReplica => "replica" end.

(** The cluster's view of a gossip node. The load and the ping times, which are
    copied as they are, are left out. *)
Definition gossipNodeToNode (gn : GossipNode) : Node :=
  mkSelf (gn_ID gn) (gn_IP gn) (gn_Port gn) (gn_ClusterPort gn) (gn_Role gn) (gn_MasterID gn)
    (match gn_State gn with
     | NodeStateConnected => NodeStateConnected
     | NodeStatePFail => NodeStatePFail
     | NodeStateFail => NodeStateFail
     | _ => NodeStateUnknown
     end).

(** ** The cluster *)

Inductive ClusterState := ClusterStateDown | ClusterStateOK | ClusterStateFail.

Definition ClusterState_String (s : ClusterState) : string :=
  match s with ClusterStateDown => "fail" | ClusterStateOK => "ok" | ClusterStateFail => "fail" end.

Record Cluster := mkCluster {
  c_self : Node;
  c_slots : SlotManager;
  c_gossip : Gossip;
  c_state : ClusterState;
  c_replication : Manager;
  c_currentEpoch : Z;
  c_myEpoch : Z;
  c_processedFailovers : gset string
}.

Record ClusterConfig := mkClusterConfig { cc_NodeID : string; cc_BindAddr : string; cc_Port : Z; cc_ClusterPort : Z }.

(** [fresh] is the generated id; [hasState] says whether there is a state
    manager, whose dirty flag the slot table carries. *)
Definition NewCluster (cfg : ClusterConfig) (fresh : string) (hasState : bool) : Cluster :=
  let id := if bool_decide (cc_NodeID cfg = "") then fresh else cc_NodeID cfg in
  let slots := if hasState then SetStateManager NewSlotManager else NewSlotManager in
  mkCluster (mkSelf id (cc_BindAddr cfg) (cc_Port cfg) (cc_ClusterPort cfg) NodeRoleMaster "" NodeStateConnected)
    slots
    (NewGossip (mkNode id (cc_BindAddr cfg) (cc_Port cfg) (cc_ClusterPort cfg) NodeRoleMaster "" NodeStateConnected
                  0 0 ∅ (mkLoad 0 0 [])))
    ClusterStateDown (NewManager (Some (NewLogStore 1024))) 0 0 ∅.

Definition put_slots (c : Cluster) (sm : SlotManager) : Cluster :=
  mkCluster (c_self c) sm (c_gossip c) (c_state c) (c_replication c) (c_currentEpoch c) (c_myEpoch c) (c_processedFailovers c).
Definition put_gossip (c : Cluster) (g : Gossip) : Cluster :=
  mkCluster (c_self c) (c_slots c) g (c_state c) (c_replication c) (c_currentEpoch c) (c_myEpoch c) (c_processedFailovers c).
Definition put_self (c : Cluster) (role : NodeRole) (masterID : string) : Cluster :=
  let s := c_self c in
  mkCluster (mkSelf (nd_ID s) (nd_IP s) (nd_Port s) (nd_ClusterPort s) role masterID (nd_State s))
    (c_slots c) (c_gossip c) (c_state c) (c_replication c) (c_currentEpoch c) (c_myEpoch c) (c_processedFailovers c).

Definition Cluster_GetNode (c : Cluster) (nodeID : string) : option Node := gossipNodeToNode <$> GetNode (c_gossip c) nodeID.

Definition Cluster_GetSlotNode (c : Cluster) (slot : Z) : option Node :=
  let nodeID := GetSlotNode (c_slots c) slot in
  if bool_decide (nodeID = "") then None else Cluster_GetNode c nodeID.

Definition Cluster_GetKeyNode (c : Cluster) (key : string) : option Node := Cluster_GetSlotNode c (KeySlot key).

Definition GetSlotOwner (c : Cluster) (slot : Z) : string := GetSlotNode (c_slots c) slot.

Definition IsSlotLocal (c : Cluster) (slot : Z) : bool := bool_decide (GetSlotNode (c_slots c) slot = nd_ID (c_self c)).

Definition IsLocalKey (c : Cluster) (key : string) : bool := IsSlotLocal c (KeySlot key).

Inductive RouteError := ErrMoved | ErrAsk | ErrUnassigned (slot : Z).

(** The node to go to, if it is known, and the error; both absent is a local key. *)
Definition RouteKey (c : Cluster) (key : string) : option Node * option RouteError :=
  let slot := KeySlot key in
  match GetSlotInfo (c_slots c) slot with
  | None => (None, Some (ErrUnassigned slot))
  | Some info =>
      if bool_decide (si_NodeID info = "") then (None, Some (ErrUnassigned slot))
      else if bool_decide (si_NodeID info = nd_ID (c_self c)) then
        match si_State info, Cluster_GetNode c (si_Exporting info) with
        | SlotStateExporting, Some node => (Some node, Some ErrAsk)
        | _, _ => (None, None)
        end
      else (Cluster_GetNode c (si_NodeID info), Some ErrMoved)
  end.

Definition CanAcceptWriteForSlot (c : Cluster) (slot : Z) : bool :=
  match GetSlotInfo (c_slots c) slot with
  | None => true
  | Some info =>
      let primaryID := primary_of info in
      if bool_decide (primaryID = "") then true else bool_decide (primaryID = nd_ID (c_self c))
  end.

Definition CanAcceptWrite (c : Cluster) (key : string) : bool := CanAcceptWriteForSlot c (KeySlot key).

Fixpoint Cluster_AssignSlots (c : Cluster) (slots : list Z) : option ((SlotError + unit) * Cluster) :=
  match slots with
  | [] => Some (inr tt, c)
  | slot :: slots' =>
      r ← AssignSlot (c_slots c) slot (nd_ID (c_self c));
      match r with
      | (inl e, sm) => Some (inl e, put_slots c sm)
      | (inr _, sm) => Cluster_AssignSlots (put_slots c sm) slots'
      end
  end.

Definition Cluster_AssignSlotRange (c : Cluster) (start last : Z) : option ((SlotError + unit) * Cluster) :=
  r ← AssignSlotRange (c_slots c) start last (nd_ID (c_self c));
  Some (fst r, put_slots c (snd r)).

Definition IncrementEpoch (c : Cluster) : Z * Cluster :=
  let epoch := u64 (c_currentEpoch c + 1) in
  (epoch, mkCluster (c_self c) (markDirty (c_slots c)) (SetCurrentEpoch (c_gossip c) epoch) (c_state c) (c_replication c)
            epoch (c_myEpoch c) (c_processedFailovers c)).

Inductive ReplicateError := ErrMasterUnknown | ErrNotMaster | ErrReplicate (e : SlotError).

(** The result has the address of the master's replication port, to which the
    replica's client connects, when a callback is set. *)
Definition ReplicateTo (c : Cluster) (masterNodeID : string) : (ReplicateError + string) * Cluster :=
  match GetNode (c_gossip c) masterNodeID with
  | None => (inl ErrMasterUnknown, c)
  | Some node =>
      if negb (bool_decide (gn_Role node = NodeRoleMaster)) then (inl ErrNotMaster, c)
      else
        let c := put_self c NodeRoleReplica masterNodeID in
        let c := put_gossip c (SetSelfRole (c_gossip c) NodeRoleReplica masterNodeID) in
        let '(epoch, c) := IncrementEpoch c in
        match AddReplicaToMaster (c_slots c) masterNodeID (nd_ID (c_self c)) epoch with
        | (inl e, sm) => (inl (ErrReplicate e), put_slots c sm)
        | (inr _, sm) => (inr (host_port (gn_IP node) (gn_Port node + 20000)), put_slots c sm)
        end
  end.

(** One slot of the failed master; what is broadcast is an event. *)
Definition take_over (epoch : Z) (masterID : string) (st : Cluster * list Z) (slot : Z) : option (Cluster * list Z) :=
  let '(c, taken) := st in
  match GetSlotInfo (c_slots c) slot with
  | None => Some st
  | Some info =>
      if negb (bool_decide (si_NodeID info = masterID)) then Some st
      else
        r ← AssignSlot (c_slots c) slot (nd_ID (c_self c));
        let sm := SetSlotConfigEpoch (snd r) slot epoch in
        let g := match ownership_info (c_gossip c) sm slot (nd_ID (c_self c)) with Some (_, g) => g | None => c_gossip c end in
        Some (put_gossip (put_slots c sm) g, taken ++ [slot])
  end.

Definition FailoverToMaster (c : Cluster) (masterID : string) : option (Cluster * list Z) :=
  let c := put_self c NodeRoleMaster "" in
  let c := put_gossip c (PromoteToMaster (SetSelfRole (c_gossip c) NodeRoleMaster "") (nd_ID (c_self c))) in
  let masterSlots := GetNodeSlots (c_slots c) masterID in
  let '(epoch, c) := IncrementEpoch c in
  loop (take_over epoch masterID) (c, []) masterSlots.

Definition GetMasterAddr (c : Cluster) : string :=
  if bool_decide (nd_MasterID (c_self c) = "") then ""
  else match GetNode (c_gossip c) (nd_MasterID (c_self c)) with Some node => Addr node | None => "" end.

Definition replicationTargetsForSlot (c : Cluster) (slot : Z) : list PeerTarget :=
  match GetSlotInfo (c_slots c) slot with
  | None => []
  | Some info =>
      omap (λ r, (λ node, mkTarget (sr_NodeID r) (Addr node)) <$> GetNode (c_gossip c) (sr_NodeID r)) (si_Replicas info)
  end.

(** A saved state and its restoration. The saved node list is not restored. *)
Record PersistentState := mkPersistent {
  ps_SlotMap : list string;
  ps_SlotReplicas : gmap Z SlotReplicaSet;
  ps_MigratingSlots : gmap Z MigrationState;
  ps_CurrentEpoch : Z;
  ps_MyEpoch : Z
}.

Definition saved_state (c : Cluster) : PersistentState :=
  mkPersistent (GetSlotMapSnapshot (c_slots c)) (GetSlotReplicationState (c_slots c)) (GetMigratingSlots (c_slots c))
    (c_currentEpoch c) (c_myEpoch c).

Definition RestoreState `{!GoRange Z MigrationState} `{!GoRange Z SlotReplicaSet} (c : Cluster) (ps : PersistentState)
    : option Cluster :=
  sm ← RestoreFromState (c_slots c) (ps_SlotMap ps) (ps_MigratingSlots ps) (ps_SlotReplicas ps);
  Some (mkCluster (c_self c) sm (SetCurrentEpoch (c_gossip c) (ps_CurrentEpoch ps)) (c_state c) (c_replication c)
          (ps_CurrentEpoch ps) (ps_MyEpoch ps) (c_processedFailovers c)).

Definition onNodeJoin (c : Cluster) (id : string) : Cluster :=
  mkCluster (c_self c) (c_slots c) (c_gossip c) (c_state c) (c_replication c) (c_currentEpoch c) (c_myEpoch c)
    (c_processedFailovers c ∖ {[id]}).

Section nodes.
Context `{!GoRange string GossipNode}.

Definition Cluster_GetNodes (c : Cluster) : list Node := gossipNodeToNode <$> GetNodes (c_gossip c).

(** [getPeerAddr] of the cluster and [getNodeAddr] of the router. *)
Definition getPeerAddr (c : Cluster) (nodeID : string) : string :=
  match find (λ n, bool_decide (nd_ID n = nodeID)) (Cluster_GetNodes c) with Some n => Node_Addr n | None => "" end.

Definition GetPeerLoads (c : Cluster) : list (string * string * Z) :=
  (λ n, (gn_ID n, Addr n, nl_TotalQPS (gn_Load n))) <$>
    filter (λ n, gn_ID n ≠ nd_ID (c_self c) ∧ gn_Role n = NodeRoleMaster ∧ gn_State n = NodeStateConnected)
      (GetNodes (c_gossip c)).

Inductive MigrateError := ErrTargetUnknown | ErrDrain.

(** [drain slot addr] says whether every key of the slot was moved. *)
Definition MigrateSlot (drain : Z → string → bool) (c : Cluster) (slot : Z) (targetNodeID : string)
    : option ((MigrateError + unit) * Cluster) :=
  sm ← SetExporting (c_slots c) slot targetNodeID;
  let peer := getPeerAddr c targetNodeID in
  if bool_decide (peer = "") then
    sm ← SetStable sm slot; Some (inl ErrTargetUnknown, put_slots c sm)
  else if negb (drain slot peer) then
    sm ← SetStable sm slot; Some (inl ErrDrain, put_slots c sm)
  else
    sm ← FinishMigration sm slot targetNodeID;
    let g := match ownership_info (c_gossip c) sm slot targetNodeID with Some (_, g) => g | None => c_gossip c end in
    Some (inr tt, put_gossip (put_slots c sm) g).

Definition drain_peers (c : Cluster) : list Node :=
  filter (λ n, nd_ID n ≠ nd_ID (c_self c) ∧ nd_Role n = NodeRoleMaster ∧ nd_State n = NodeStateConnected ∧
               nd_IP n ≠ "" ∧ 0 < nd_Port n) (Cluster_GetNodes c).

(** One slot of [DrainSlots], the [i]-th, which goes to a peer in turn. *)
Definition drain_one (drain : Z → string → bool) (peers : list Node) (c : Cluster) (entry : nat * Z) : option Cluster :=
  let '(i, slot) := entry in
  target ← peers !! (i mod length peers)%nat;
  sm ← SetExporting (c_slots c) slot (nd_ID target);
  if negb (drain slot (Node_Addr target)) then
    sm ← SetStable sm slot; Some (put_slots c sm)
  else
    sm ← FinishMigration sm slot (nd_ID target);
    let g := match ownership_info (c_gossip c) sm slot (nd_ID target) with Some (_, g) => g | None => c_gossip c end in
    Some (put_gossip (put_slots c sm) g).

(** [engine] says whether the storage engine was set. *)
Definition DrainSlots (engine : bool) (drain : Z → string → bool) (c : Cluster) : option (bool * Cluster) :=
  let mySlots := GetNodeSlots (c_slots c) (nd_ID (c_self c)) in
  let peers := drain_peers c in
  if bool_decide (mySlots = []) || bool_decide (peers = []) then Some (true, c)
  else if negb engine then Some (false, c)
  else c ← loop (drain_one drain peers) c (imap pair mySlots); Some (true, c).
End nodes.

(** ** The router: [router/router.go] *)

Inductive RedirectType := RedirectMoved | RedirectAsk.

Record Redirect := mkRedirect { rd_Type : RedirectType; rd_Slot : Z; rd_Addr : string }.

Record RouteResult := mkRoute { rr_Local : bool; rr_Redirect : option Redirect; rr_CrossSlot : bool; rr_Slot : Z }.

Section router.
Context `{!GoRange string GossipNode}.

(** The cluster of the router may be absent. *)
Definition Route (c : option Cluster) (key : string) (askingFlag : bool) : RouteResult :=
  match c with
  | None => mkRoute true None false 0
  | Some c =>
      let slot := KeySlot key in
      let here := mkRoute true None false slot in
      match GetSlotInfo (c_slots c) slot with
      | None => here
      | Some info =>
          if bool_decide (si_NodeID info = "") then here
          else if bool_decide (si_NodeID info = nd_ID (c_self c)) then
            if bool_decide (si_State info = SlotStateExporting) && negb (bool_decide (si_Exporting info = ""))
            then mkRoute false (Some (mkRedirect RedirectAsk slot (getPeerAddr c (si_Exporting info)))) false slot
            else here
          else if bool_decide (si_State info = SlotStateImporting) && negb (bool_decide (si_Importing info = "")) && askingFlag
          then here
          else match Cluster_GetSlotNode c slot with
               | None => here
               | Some node => mkRoute false (Some (mkRedirect RedirectMoved slot (Node_Addr node))) false slot
               end
      end
  end.

Definition RouteMulti (c : option Cluster) (keys : list string) : RouteResult :=
  match keys, c with
  | [], _ | _, None => mkRoute true None false 0
  | k :: keys', Some _ =>
      let firstSlot := KeySlot k in
      if forallb (λ k', KeySlot k' =? firstSlot) keys' then Route c k false
      else mkRoute false None true firstSlot
  end.
End router.
