(* ===== verification/StateFile.v ===== *)
(** * The cluster state file: [internal/cluster/state/manager.go] and [types.go]

    The state manager writes the provider's state (the cluster's) to a file some
    time after the cluster marked it dirty, and reads it back when the node
    starts. A goroutine, [saveLoop], waits for a signal, then for a timer of
    100 ms, and saves; [Close] stops it and saves what is still dirty. Changes of
    the cluster, the loop, [Save] and [Close] run concurrently; the transitions
    below are the points at which they can interleave. JSON and the file system
    are parameters.

    The dirty flag is the one the slot table carries ([sm_stateManager]). The
    manager is described from [SetProvider] on, which [NewCluster] calls. *)

From S2P Require Import Prelude Slots Gossip Cluster.
From stdpp Require Import options.

(** ** The file *)

Definition CurrentStateVersion : Z := 2.

Record StateNodeInfo := mkStateNode {
  sn_ID : string;
  sn_Addr : string;
  sn_ClusterPort : Z;
  sn_Role : string;
  sn_MasterID : string
}.

(** [state.PersistentState]; [ps_state] has the part that is restored. *)
Record StateFile := mkStateFile {
  sf_Version : Z;
  sf_NodeID : string;
  sf_Nodes : list StateNodeInfo;
  sf_state : PersistentState
}.

(** [encoding/json] on [PersistentState]. *)
Class StateJson (B : Type) := {
  json_MarshalIndent : StateFile → string + B;
  json_Unmarshal : B → string + StateFile
}.

Section state_file.
Context {B : Type} `{!StateJson B}.
Context `{!GoRange string GossipNode} `{!GoRange Z MigrationState} `{!GoRange Z SlotReplicaSet}.

(** *** The provider *)

Definition GetNodeInfos (c : Cluster) : list StateNodeInfo :=
  (λ gn, mkStateNode (gn_ID gn) (Addr gn) (gn_ClusterPort gn)
           (if bool_decide (gn_Role gn = NodeRoleReplica) then "replica" else "master") (gn_MasterID gn))
    <$> GetNodes (c_gossip c).

(** The state from the clusters that the seven getters see, in the order in
    which [save] calls them. *)
Definition assemble (seen : list Cluster) : option StateFile :=
  match seen with
  | [c1; c2; c3; c4; c5; c6; c7] =>
      Some (mkStateFile CurrentStateVersion (nd_ID (c_self c1)) (GetNodeInfos c2)
        (mkPersistent (GetSlotMapSnapshot (c_slots c3)) (GetSlotReplicationState (c_slots c4))
           (GetMigratingSlots (c_slots c5)) (c_currentEpoch c6) (c_myEpoch c7)))
  | _ => None
  end.

(** *** Reading it back *)

Inductive LoadError :=
  | ErrProviderNotSet
  | ErrReadFile (e : string)
  | ErrUnmarshalState (e : string)
  | ErrStateVersion (version : Z).

(** What [os.ReadFile] gives. *)
Inductive ReadResult := ReadNotExist | ReadError (e : string) | ReadData (data : B).

(** [None] is a panic of the restoration. *)
Definition Load (provider : option Cluster) (file : ReadResult) : option ((LoadError + unit) * option Cluster) :=
  match provider with
  | None => Some (inl ErrProviderNotSet, None)
  | Some c =>
      match file with
      | ReadNotExist => Some (inr tt, provider)
      | ReadError e => Some (inl (ErrReadFile e), provider)
      | ReadData data =>
          match json_Unmarshal data with
          | inl e => Some (inl (ErrUnmarshalState e), provider)
          | inr st =>
              if negb (sf_Version st =? CurrentStateVersion) then Some (inl (ErrStateVersion (sf_Version st)), provider)
              else c' ← RestoreState c (sf_state st); Some (inr tt, Some c')
          end
      end
  end.

(** ** The manager *)

(** Where [saveLoop] is: in its [select], past the test of the dirty flag and
    waiting for the mutex, in [save], or returned. *)
Inductive LoopAt := LoopSelect | LoopLock | LoopSave | LoopDone.

(** Where [Close] is: not called, waiting for the loop, waiting for the mutex, in
    [save], or returned, with nil or with the error of [save]. *)
Inductive CloseAt := CloseNot | CloseWait | CloseLock | CloseSave | CloseDone | CloseFailed.

(** The calls of [save]; one at a time holds the mutex. *)
Inductive Saver := ByLoop | ByClose | ByCall.

#[global] Instance LoopAt_eq_dec : EqDecision LoopAt.
Proof. solve_decision. Defined.
#[global] Instance CloseAt_eq_dec : EqDecision CloseAt.
Proof. solve_decision. Defined.

Record StateManager := mkStateManager {
  st_provider : Cluster;                         (* the cluster as it is now *)
  st_saveCh : bool;                              (* the channel, of capacity one, is full *)
  st_timer : bool;                               (* a timer runs *)
  st_loop : LoopAt;
  st_close : CloseAt;
  st_mu : option (Saver * list Cluster);         (* who saves, and what its getters have seen *)
  st_file : option B
}.

Definition NewStateManager (c : Cluster) (file : option B) : StateManager :=
  mkStateManager c false false LoopSelect CloseNot None file.

Definition dirty (c : Cluster) : bool := default false (sm_stateManager (c_slots c)).

(** [m.dirty.Store(false)] *)
Definition store_clean (c : Cluster) : Cluster :=
  put_slots c (mkSlots (sm_slots (c_slots c)) (sm_nodeSlots (c_slots c)) ((λ _, false) <$> sm_stateManager (c_slots c))).

(** [MarkDirty]: the compare-and-swap succeeds when the flag was off, and the
    send does not block. [c] is the cluster after the change. *)
Definition MarkDirty (m : StateManager) (c : Cluster) : StateManager :=
  mkStateManager c (st_saveCh m || (negb (dirty (st_provider m)) && dirty c)) (st_timer m) (st_loop m) (st_close m)
    (st_mu m) (st_file m).

(** The loop takes the signal and restarts the timer. *)
Definition loop_signal (m : StateManager) : StateManager :=
  mkStateManager (st_provider m) false true (st_loop m) (st_close m) (st_mu m) (st_file m).

(** The timer fires: [save] is called when the flag is set. *)
Definition loop_timer (m : StateManager) : StateManager :=
  mkStateManager (st_provider m) (st_saveCh m) false (if dirty (st_provider m) then LoopLock else LoopSelect)
    (st_close m) (st_mu m) (st_file m).

(** The loop sees [doneCh] closed. *)
Definition loop_done (m : StateManager) : StateManager :=
  mkStateManager (st_provider m) (st_saveCh m) false LoopDone (st_close m) (st_mu m) (st_file m).

(** [save] takes the mutex. *)
Definition save_lock (m : StateManager) (by_ : Saver) : StateManager :=
  mkStateManager (st_provider m) (st_saveCh m) (st_timer m)
    (match by_ with ByLoop => LoopSave | _ => st_loop m end)
    (match by_ with ByClose => CloseSave | _ => st_close m end) (Some (by_, [])) (st_file m).

(** The next getter of [save]. *)
Definition save_read (m : StateManager) : StateManager :=
  mkStateManager (st_provider m) (st_saveCh m) (st_timer m) (st_loop m) (st_close m)
    ((λ '(by_, seen), (by_, seen ++ [st_provider m])) <$> st_mu m) (st_file m).

(** [save] returns and the mutex is free. *)
Definition save_return (by_ : Saver) (closed : CloseAt) (m : StateManager) (c : Cluster) (file : option B) : StateManager :=
  mkStateManager c (st_saveCh m) (st_timer m) (match by_ with ByLoop => LoopSelect | _ => st_loop m end)
    (match by_ with ByClose => closed | _ => st_close m end) None file.

(** The temporary file was renamed: the flag is cleared. *)
Definition save_done (by_ : Saver) (m : StateManager) (data : B) : StateManager :=
  save_return by_ CloseDone m (store_clean (st_provider m)) (Some data).

(** Encoding, writing or renaming failed. *)
Definition save_failed (by_ : Saver) (m : StateManager) : StateManager :=
  save_return by_ CloseFailed m (st_provider m) (st_file m).

Definition set_close (m : StateManager) (at_ : CloseAt) : StateManager :=
  mkStateManager (st_provider m) (st_saveCh m) (st_timer m) (st_loop m) at_ (st_mu m) (st_file m).

(** [Close], after the loop has returned. *)
Definition close_test (m : StateManager) : StateManager :=
  set_close m (if dirty (st_provider m) then CloseLock else CloseDone).

(** A change of the cluster leaves what a restart reads back as it was, or the flag
    set. The list of nodes, which the file has too, is not read back by
    [RestoreState] and changes without a mark. *)
Definition marked (c c' : Cluster) : Prop :=
  sm_stateManager (c_slots c') = Some true ∨
  saved_state c' = saved_state c ∧ sm_stateManager (c_slots c') = sm_stateManager (c_slots c).

(** The events by which the theorems tell the transitions apart. *)
Inductive Event := EvChange | EvSaved | EvSaveFailed | EvSaveCalled | EvClose | EvOther.

Inductive state_step (m : StateManager) : Event → StateManager → Prop :=
  | ss_change c : marked (st_provider m) c → state_step m EvChange (MarkDirty m c)
  | ss_signal : st_loop m = LoopSelect → st_saveCh m = true → state_step m EvOther (loop_signal m)
  | ss_timer : st_loop m = LoopSelect → st_timer m = true → state_step m EvOther (loop_timer m)
  | ss_loop_lock : st_loop m = LoopLock → st_mu m = None → state_step m EvOther (save_lock m ByLoop)
  | ss_loop_done : st_loop m = LoopSelect → st_close m = CloseWait → state_step m EvOther (loop_done m)
  | ss_read by_ seen :
      st_mu m = Some (by_, seen) → (length seen < 7)%nat → state_step m EvOther (save_read m)
  | ss_saved by_ seen st data :
      st_mu m = Some (by_, seen) → assemble seen = Some st → json_MarshalIndent st = inr data →
      state_step m EvSaved (save_done by_ m data)
  | ss_failed by_ seen st :
      st_mu m = Some (by_, seen) → assemble seen = Some st → state_step m EvSaveFailed (save_failed by_ m)
  | ss_call : st_mu m = None → state_step m EvSaveCalled (save_lock m ByCall)
  | ss_close : st_close m = CloseNot → state_step m EvClose (set_close m CloseWait)
  | ss_close_test : st_close m = CloseWait → st_loop m = LoopDone → state_step m EvOther (close_test m)
  | ss_close_lock : st_close m = CloseLock → st_mu m = None → state_step m EvOther (save_lock m ByClose).

End state_file.

Arguments ReadResult : clear implicits.
Arguments StateManager : clear implicits.
