(* ===== verification/ClusterSpec.v ===== *)
(** * Routing, failover and draining

    Nodes that share a slot table agree on who serves a key: the owner serves
    it and takes its writes, every other node sends the client to the owner. A
    failover takes over every slot of the failed master, a drain hands every
    slot it could move to a peer. While a slot migrates, a write to it is
    accepted by neither side. *)

From S2P Require Import Prelude Hash Strconv Wire Slots SlotsSpec Gossip Replication Cluster.
From stdpp Require Import options.

Lemma info_valid sm slot : valid_slot slot → GetSlotInfo sm slot = slot_at sm slot.
Proof. intros [_ H]. unfold GetSlotInfo. by rewrite (proj2 (Z.leb_gt _ _)) by done. Qed.

Lemma KeySlot_valid key : valid_slot (KeySlot key).
Proof. apply KeySlot_range. Qed.

Lemma primary_wf sm slot info : slots_wf sm → valid_slot slot → slot_at sm slot = Some info → primary_of info = si_NodeID info.
Proof.
  intros Hwf Hv Hs. unfold primary_of. rewrite (sl_primary _ Hwf slot info) by (apply Hv || done). by case_bool_decide.
Qed.

(** ** Routing *)

Section routing.
Context `{!GoRange string GossipNode}.

Lemma write_owner c slot info :
  slots_wf (c_slots c) → valid_slot slot → slot_at (c_slots c) slot = Some info → si_NodeID info ≠ "" →
  CanAcceptWriteForSlot c slot = bool_decide (si_NodeID info = nd_ID (c_self c)).
Proof.
  intros Hwf Hv Hs Hn. unfold CanAcceptWriteForSlot. rewrite info_valid, Hs by done.
  rewrite (primary_wf _ _ _ Hwf Hv Hs), (bool_decide_eq_false_2 (si_NodeID info = "")) by done. done.
Qed.

Lemma getPeerAddr_node c id n :
  (∀ i m, g_nodes (c_gossip c) !! i = Some m → gn_ID m = i) → GetNode (c_gossip c) id = Some n → getPeerAddr c id = Addr n.
Proof.
  intros Hids Hn. unfold getPeerAddr. destruct (find _ _) as [m|] eqn:E.
  - apply find_some in E as [Hin Hid]. apply bool_decide_eq_true in Hid. apply list_elem_of_In in Hin.
    unfold Cluster_GetNodes, GetNodes in Hin. apply list_elem_of_fmap in Hin as (gm & -> & Hin).
    apply list_elem_of_fmap in Hin as ([i gm'] & E & Hin). cbn in E. subst gm'. apply elem_of_go_range in Hin.
    cbn in Hid. rewrite (Hids _ _ Hin) in Hid. subst i. unfold GetNode in Hn. rewrite Hn in Hin. by injection Hin as ->.
  - assert (In (gossipNodeToNode n) (Cluster_GetNodes c)) as Hin.
    { apply list_elem_of_In. unfold Cluster_GetNodes, GetNodes. apply list_elem_of_fmap_2, list_elem_of_fmap.
      exists (id, n). split; [done|]. by apply elem_of_go_range. }
    pose proof (find_none _ _ E _ Hin) as H. cbn in H. apply bool_decide_eq_false in H.
    exfalso. apply H. by apply Hids.
Qed.

(** Every node that has the same slot table, for a slot that is not migrating and
    whose owner it knows: the owner serves the key and accepts writes to it; any
    other node refuses writes and redirects the client to the address of the
    owner. So one redirection leads to the one node that serves the key. *)
Theorem routing_agrees c key asking info owner :
  slots_wf (c_slots c) → slot_at (c_slots c) (KeySlot key) = Some info → si_State info = SlotStateNormal →
  si_NodeID info ≠ "" → GetNode (c_gossip c) (si_NodeID info) = Some owner →
  if bool_decide (nd_ID (c_self c) = si_NodeID info)
  then Route (Some c) key asking = mkRoute true None false (KeySlot key) ∧ CanAcceptWrite c key = true
  else Route (Some c) key asking
       = mkRoute false (Some (mkRedirect RedirectMoved (KeySlot key) (Addr owner))) false (KeySlot key) ∧
       CanAcceptWrite c key = false.
Proof.
  intros Hwf Hs Hst Hn Ho. pose proof (KeySlot_valid key) as Hv.
  unfold CanAcceptWrite. rewrite (write_owner c _ info Hwf Hv Hs Hn). unfold Route. rewrite info_valid, Hs by done.
  rewrite (bool_decide_eq_false_2 (si_NodeID info = "")) by done. rewrite Hst.
  case_bool_decide as Hself.
  - rewrite !(bool_decide_eq_true_2 (si_NodeID info = _)) by done. done.
  - rewrite !(bool_decide_eq_false_2 (si_NodeID info = nd_ID _)) by congruence. cbn [andb].
    unfold Cluster_GetSlotNode, GetSlotNode. rewrite info_valid, Hs by done.
    rewrite (bool_decide_eq_false_2 (si_NodeID info = "")) by done. unfold Cluster_GetNode. by rewrite Ho.
Qed.

(** While the owner exports a slot to an importing node, no write to it is
    accepted anywhere, whether or not the key has moved: the owner sends the
    client to the importing node with [ASK], which serves the key to a client
    that sent [ASKING] but refuses to write it, and sends any other client back
    to the owner. *)
Theorem migrating_slot_refuses_writes ca cb key ia ib nb na :
  slots_wf (c_slots cb) → nd_ID (c_self ca) ≠ nd_ID (c_self cb) →
  (∀ i m, g_nodes (c_gossip ca) !! i = Some m → gn_ID m = i) →
  slot_at (c_slots ca) (KeySlot key) = Some ia → si_NodeID ia = nd_ID (c_self ca) → nd_ID (c_self ca) ≠ "" →
  si_State ia = SlotStateExporting → si_Exporting ia = nd_ID (c_self cb) → nd_ID (c_self cb) ≠ "" →
  GetNode (c_gossip ca) (nd_ID (c_self cb)) = Some nb →
  slot_at (c_slots cb) (KeySlot key) = Some ib → si_NodeID ib = nd_ID (c_self ca) →
  si_State ib = SlotStateImporting → si_Importing ib = nd_ID (c_self ca) →
  GetNode (c_gossip cb) (nd_ID (c_self ca)) = Some na →
  let slot := KeySlot key in
  (∀ asking, Route (Some ca) key asking = mkRoute false (Some (mkRedirect RedirectAsk slot (Addr nb))) false slot) ∧
  Route (Some cb) key true = mkRoute true None false slot ∧ CanAcceptWrite cb key = false ∧
  Route (Some cb) key false = mkRoute false (Some (mkRedirect RedirectMoved slot (Addr na))) false slot.
Proof.
  intros Hwf Hne Hids Hsa Hna Ha0 Hsta Hex Hb0 Hnb Hsb Hnib Hstb Him Hgna. cbn zeta. pose proof (KeySlot_valid key) as Hv.
  assert (∀ c i asking, slot_at (c_slots c) (KeySlot key) = Some i → si_NodeID i ≠ "" → si_NodeID i ≠ nd_ID (c_self c) →
    Route (Some c) key asking =
      if bool_decide (si_State i = SlotStateImporting) && negb (bool_decide (si_Importing i = "")) && asking
      then mkRoute true None false (KeySlot key)
      else match Cluster_GetNode c (si_NodeID i) with
           | None => mkRoute true None false (KeySlot key)
           | Some node => mkRoute false (Some (mkRedirect RedirectMoved (KeySlot key) (Node_Addr node))) false (KeySlot key)
           end) as HR.
  { intros c i asking Hs H0 H1. unfold Route, Cluster_GetSlotNode, GetSlotNode. rewrite info_valid, Hs by done.
    by rewrite !(bool_decide_eq_false_2 (si_NodeID i = _)) by done. }
  split_and!.
  - intros asking. unfold Route. rewrite info_valid, Hsa by done.
    rewrite (bool_decide_eq_false_2 (si_NodeID ia = "")), (bool_decide_eq_true_2 (si_NodeID ia = _)) by congruence.
    rewrite Hsta, bool_decide_eq_true_2, (bool_decide_eq_false_2 (si_Exporting ia = "")) by congruence. cbn [andb negb].
    by rewrite Hex, (getPeerAddr_node _ _ _ Hids Hnb).
  - rewrite (HR cb ib true Hsb) by congruence. rewrite Hstb, bool_decide_eq_true_2, bool_decide_eq_false_2 by congruence. done.
  - unfold CanAcceptWrite. rewrite (write_owner cb _ ib Hwf Hv Hsb) by congruence. apply bool_decide_eq_false_2. congruence.
  - rewrite (HR cb ib false Hsb) by congruence. rewrite andb_false_r, Hnib. unfold Cluster_GetNode. by rewrite Hgna.
Qed.
End routing.

(** ** Failover *)

(** The entry of a slot that was taken over. *)
Definition taken_over (id : string) (epoch : Z) (i : SlotInfo) : SlotInfo :=
  mkSlot SlotStateNormal id id [] epoch (si_NextLSN i) (si_Importing i) (si_Exporting i).

Lemma slot_at_insert sm sm' slot info s :
  index_ok sm → sm_slots sm' = <[Z.to_nat slot := info]> (sm_slots sm) → valid_slot slot → valid_slot s →
  slot_at sm' s = if decide (s = slot) then Some info else slot_at sm s.
Proof.
  intros Hi HS Hv Hv'. rewrite <-(slot_at_put sm slot info s Hi Hv (proj1 Hv')). unfold slot_at. by rewrite HS.
Qed.

Lemma take_over_one c epoch m taken slot info :
  slots_wf (c_slots c) → valid_slot slot → slot_at (c_slots c) slot = Some info → si_NodeID info = m →
  ∃ c', take_over epoch m (c, taken) slot = Some (c', taken ++ [slot]) ∧ slots_wf (c_slots c') ∧ c_self c' = c_self c ∧
    ∀ s, valid_slot s → slot_at (c_slots c') s
      = if decide (s = slot) then Some (taken_over (nd_ID (c_self c)) epoch info) else slot_at (c_slots c) s.
Proof.
  intros Hwf Hv Hs Hm. unfold take_over. rewrite info_valid, Hs by done. rewrite bool_decide_eq_true_2 by done. cbn [negb].
  destruct (AssignSlot_spec (c_slots c) slot (nd_ID (c_self c)) (sl_index _ Hwf) Hv) as (i & sm1 & Hs' & -> & Hi1 & HS1).
  rewrite Hs in Hs'. injection Hs' as <-. cbn [mbind option_bind snd].
  set (i1 := mkSlot SlotStateNormal _ _ _ _ _ _ _) in HS1.
  assert (slots_wf sm1) as W1 by (by eapply put_wf).
  assert (slot_at sm1 slot = Some i1) as H1 by (by rewrite (slot_at_insert _ _ _ _ _ (sl_index _ Hwf) HS1 Hv Hv), decide_True).
  unfold SetSlotConfigEpoch. rewrite H1. eexists. split; [done|]. cbn [c_slots c_self put_gossip put_slots]. split_and!; [|done|].
  - apply slots_wf_dirty. by eapply put_same_wf.
  - intros s Hvs. rewrite slot_at_markDirty, slot_at_put by (apply W1 || apply Hvs || done).
    rewrite (slot_at_insert _ _ _ _ _ (sl_index _ Hwf) HS1 Hv Hvs). by case_decide.
Qed.

Lemma take_over_all slots epoch m c taken :
  slots_wf (c_slots c) → NoDup slots →
  Forall (λ s, valid_slot s ∧ si_NodeID <$> slot_at (c_slots c) s = Some m) slots →
  ∃ c', loop (take_over epoch m) (c, taken) slots = Some (c', taken ++ slots) ∧ slots_wf (c_slots c') ∧ c_self c' = c_self c ∧
    ∀ s, valid_slot s → slot_at (c_slots c') s
      = if decide (s ∈ slots) then taken_over (nd_ID (c_self c)) epoch <$> slot_at (c_slots c) s else slot_at (c_slots c) s.
Proof.
  revert c taken. induction slots as [|s slots IH]; intros c taken Hwf Hnd HF.
  { exists c. rewrite app_nil_r. done. }
  apply NoDup_cons in Hnd as [Hs Hnd]. apply Forall_cons in HF as [[Hv Ho] HF].
  destruct (slot_at (c_slots c) s) as [info|] eqn:Es; [|done]. cbn in Ho. injection Ho as Ho.
  destruct (take_over_one c epoch m taken s info Hwf Hv Es Ho) as (c1 & E1 & W1 & S1 & A1).
  destruct (IH c1 (taken ++ [s]) W1 Hnd) as (c' & E & W & S & A).
  { rewrite Forall_forall in HF |- *. intros x Hx. destruct (HF x Hx) as [Hvx Hox]. split; [done|].
    by rewrite A1, decide_False by congruence. }
  exists c'. cbn [loop]. rewrite E1. cbn [mbind option_bind]. rewrite E, <-app_assoc. split_and!; [done|done|congruence|].
  intros x Hx. rewrite A, A1, S1 by done. destruct (decide (x = s)) as [->|Hne].
  - rewrite (decide_False (P := s ∈ slots)), (decide_True (P := s ∈ s :: slots)), Es by (done || by left). done.
  - destruct (decide (x ∈ slots)).
    + by rewrite (decide_True (P := x ∈ s :: slots)) by by right.
    + by rewrite (decide_False (P := x ∈ s :: slots)) by by rewrite not_elem_of_cons.
Qed.

(** C30: A replica that takes over from its failed master owns exactly the slots it
    had and those of the master, all of them under an epoch above the one it
    knew; it is a master, the table stays consistent, and no other slot
    changes. *)
Theorem FailoverToMaster_takes_over c m :
  slots_wf (c_slots c) → m ≠ "" → 0 ≤ c_currentEpoch c < 2 ^ 64 - 1 →
  ∃ c', FailoverToMaster c m = Some (c', GetNodeSlots (c_slots c) m) ∧ slots_wf (c_slots c') ∧
    nd_Role (c_self c') = NodeRoleMaster ∧ nd_ID (c_self c') = nd_ID (c_self c) ∧
    ∀ slot info, valid_slot slot → slot_at (c_slots c) slot = Some info →
      slot_at (c_slots c') slot = Some (
        if bool_decide (si_NodeID info = m) then taken_over (nd_ID (c_self c)) (c_currentEpoch c + 1) info else info).
Proof.
  intros Hwf Hm He. unfold FailoverToMaster, IncrementEpoch. rewrite u64_id by (cbn; unfold is_u64; lia).
  set (c1 := mkCluster _ _ _ _ _ _ _ _).
  assert (slots_wf (c_slots c1)) as W1 by by apply slots_wf_dirty.
  destruct (take_over_all (GetNodeSlots (c_slots c) m) (c_currentEpoch c + 1) m c1 [] W1) as (c' & E & W & S & A).
  { by apply Hwf. }
  { apply Forall_forall. intros s Hs. apply (ix_owns _ (sl_index _ Hwf)) in Hs as [H0 Hs]; [|done].
    change (slot_at (c_slots c1) s) with (slot_at (c_slots c) s). split; [|done].
    destruct (slot_at (c_slots c) s) as [i|] eqn:Ei; [|done]. by apply (slot_at_valid (c_slots c) s i (sl_index _ Hwf)). }
  exists c'. split_and!; [done|done|by rewrite S|by rewrite S|]. intros slot info Hv Hs.
  rewrite A by done. change (slot_at (c_slots c1) slot) with (slot_at (c_slots c) slot). rewrite Hs.
  assert (slot ∈ GetNodeSlots (c_slots c) m ↔ si_NodeID info = m) as Hin.
  { unfold GetNodeSlots. rewrite (ix_owns _ (sl_index _ Hwf)) by done. unfold owns. rewrite Hs. destruct Hv. cbn. naive_solver. }
  case_bool_decide; [rewrite decide_True by naive_solver|rewrite decide_False by naive_solver]; done.
Qed.

(** ** Draining *)

Section draining.
Context `{!GoRange string GossipNode}.

(** The entry of a slot after its keys were moved, or not. *)
Definition drained (ok : bool) (target : string) (i : SlotInfo) : SlotInfo :=
  let n := if ok then target else si_NodeID i in
  mkSlot SlotStateNormal n n (si_Replicas i) (si_ConfigEpoch i) (si_NextLSN i) "" "".

Lemma drain_one_spec drain peers c i slot info target :
  slots_wf (c_slots c) → valid_slot slot → slot_at (c_slots c) slot = Some info → si_NodeID info ≠ "" →
  peers !! (i mod length peers)%nat = Some target →
  ∃ c', drain_one drain peers c (i, slot) = Some c' ∧ slots_wf (c_slots c') ∧ c_self c' = c_self c ∧
    ∀ s, valid_slot s → slot_at (c_slots c') s
      = if decide (s = slot) then Some (drained (drain slot (Node_Addr target)) (nd_ID target) info) else slot_at (c_slots c) s.
Proof.
  intros Hwf Hv Hs HN Ht. unfold drain_one. rewrite Ht. cbn [mbind option_bind]. unfold SetExporting. rewrite Hs. cbn [mbind option_bind].
  set (i1 := mkSlot SlotStateExporting _ _ _ _ _ _ _). set (sm1 := markDirty (put_slot (c_slots c) slot i1)).
  assert (slots_wf sm1) as W1 by (apply slots_wf_dirty; by eapply put_same_wf).
  assert (∀ s, valid_slot s → slot_at sm1 s = if decide (s = slot) then Some i1 else slot_at (c_slots c) s) as A1.
  { intros s Hvs. unfold sm1. rewrite slot_at_markDirty. apply slot_at_put; [apply Hwf|done|apply Hvs]. }
  assert (slot_at sm1 slot = Some i1) as H1 by (by rewrite A1, decide_True).
  pose proof (sl_primary _ Hwf slot info (proj1 Hv) Hs) as HP.
  destruct (drain slot (Node_Addr target)); cbn [negb].
  - unfold FinishMigration.
    destruct (owner_then_put sm1 slot i1 (nd_ID target)
      (λ i, mkSlot SlotStateNormal (si_NodeID i) (nd_ID target) (si_Replicas i) (si_ConfigEpoch i) (si_NextLSN i) "" "")
      W1 Hv H1 (λ _, eq_refl) (λ _, eq_refl)) as (sm2 & E2 & W2 & S2). rewrite E2. cbn [mbind option_bind].
    eexists. split; [done|]. cbn [c_slots c_self put_gossip put_slots]. split_and!; [done|done|].
    intros s Hvs. rewrite (slot_at_insert _ _ _ _ _ (sl_index _ W1) S2 Hv Hvs), A1 by done. by case_decide.
  - unfold SetStable. rewrite H1. cbn [mbind option_bind]. eexists. split; [done|]. cbn [c_slots c_self put_slots].
    assert ((if bool_decide (si_PrimaryID i1 = "") then si_NodeID i1 else si_PrimaryID i1) = si_NodeID info) as ->.
    { cbn. case_bool_decide; [done|]. done. }
    split_and!; [|done|].
    + apply slots_wf_dirty. eapply put_same_wf; [done|done|exact H1|done|]. cbn. done.
    + intros s Hvs. rewrite slot_at_markDirty, slot_at_put by (apply W1 || apply Hvs || done). rewrite A1 by done. by case_decide.
Qed.

Lemma drain_all_spec drain peers entries c :
  slots_wf (c_slots c) → peers ≠ [] → NoDup entries.*2 →
  Forall (λ e, valid_slot e.2 ∧ ∃ info, slot_at (c_slots c) e.2 = Some info ∧ si_NodeID info ≠ "") entries →
  ∃ c', loop (drain_one drain peers) c entries = Some c' ∧ slots_wf (c_slots c') ∧ c_self c' = c_self c ∧
    (∀ s, valid_slot s → s ∉ entries.*2 → slot_at (c_slots c') s = slot_at (c_slots c) s) ∧
    ∀ i s info, (i, s) ∈ entries → slot_at (c_slots c) s = Some info →
      ∃ target, peers !! (i mod length peers)%nat = Some target ∧
        slot_at (c_slots c') s = Some (drained (drain s (Node_Addr target)) (nd_ID target) info).
Proof.
  intros Hwf Hp. revert c Hwf. induction entries as [|[i s] entries IH]; intros c Hwf Hnd HF.
  { exists c. split_and!; try done. by intros ? ? ? []%not_elem_of_nil. }
  cbn [fmap list_fmap snd] in Hnd. apply NoDup_cons in Hnd as [Hs Hnd].
  apply Forall_cons in HF as [[Hv (info & Es & HN)] HF]. cbn [snd] in *.
  destruct (lookup_lt_is_Some_2 peers (i mod length peers)%nat) as [target Ht].
  { apply Nat.mod_upper_bound. by destruct peers. }
  destruct (drain_one_spec drain peers c i s info target Hwf Hv Es HN Ht) as (c1 & E1 & W1 & S1 & A1).
  destruct (IH c1 W1 Hnd) as (c' & E & W & S & O & A).
  { rewrite Forall_forall in HF |- *. intros e He. destruct (HF e He) as [Hve (ie & Ee & Ne)]. split; [done|].
    exists ie. split; [|done]. rewrite A1, decide_False by (done || (intros Heq; apply Hs; rewrite <-Heq; by apply list_elem_of_fmap_2)). done. }
  exists c'. cbn [loop]. rewrite E1. cbn [mbind option_bind]. split_and!; [done|done|congruence| |].
  - intros x Hvx Hx. cbn [fmap list_fmap snd] in Hx. apply not_elem_of_cons in Hx as [Hx1 Hx2].
    by rewrite O, A1, decide_False.
  - intros j x ix Hin Ex. apply elem_of_cons in Hin as [[= -> ->]|Hin].
    + rewrite Es in Ex. injection Ex as <-. exists target. split; [done|]. by rewrite O, A1, decide_True.
    + assert (x ≠ s) as Hne by (intros ->; apply Hs; by apply (list_elem_of_fmap_2 snd entries (j, s))).
      apply A; [done|]. rewrite Forall_forall in HF. by rewrite A1, decide_False by (done || apply (HF (j, x) Hin)).
Qed.

Lemma imap_pair_snd {A} (l : list A) : (imap pair l).*2 = l.
Proof. rewrite fmap_imap. apply list_eq. intros i. rewrite list_lookup_imap. by destruct (l !! i). Qed.

Lemma DrainSlots_spec drain c :
  slots_wf (c_slots c) → nd_ID (c_self c) ≠ "" → drain_peers c ≠ [] →
  let mine := GetNodeSlots (c_slots c) (nd_ID (c_self c)) in
  let peers := drain_peers c in
  ∃ c', DrainSlots true drain c = Some (true, c') ∧ slots_wf (c_slots c') ∧
    (∀ slot, valid_slot slot → slot ∉ mine → slot_at (c_slots c') slot = slot_at (c_slots c) slot) ∧
    (∀ i slot info, mine !! i = Some slot → slot_at (c_slots c) slot = Some info →
       ∃ target, peers !! (i mod length peers)%nat = Some target ∧ nd_ID target ≠ nd_ID (c_self c) ∧
         slot_at (c_slots c') slot = Some (drained (drain slot (Node_Addr target)) (nd_ID target) info)).
Proof.
  intros Hwf H0 Hp mine peers. unfold DrainSlots. fold mine peers.
  destruct (bool_decide (mine = [])) eqn:Em; cbn [orb].
  { apply bool_decide_eq_true in Em. exists c. split_and!; [done|done|done|]. rewrite Em. done. }
  rewrite bool_decide_eq_false_2 by done. cbn [negb].
  pose proof (imap_pair_snd mine) as Hsnd.
  destruct (drain_all_spec drain peers (imap pair mine) c Hwf Hp) as (c' & E & W & _ & O & A).
  { rewrite Hsnd. by apply Hwf. }
  { apply Forall_forall. intros [i s] Hin. assert (s ∈ mine) as Hs by (rewrite <-Hsnd; by apply (list_elem_of_fmap_2 snd _ (i, s))).
    apply (ix_owns _ (sl_index _ Hwf)) in Hs as [Hs0 Hs]; [|done]. cbn [snd].
    destruct (slot_at (c_slots c) s) as [info|] eqn:Es; [|done]. cbn in Hs. injection Hs as Hs.
    split; [by apply (slot_at_valid (c_slots c) s info (sl_index _ Hwf))|]. exists info. split; [done|congruence]. }
  rewrite E. cbn [mbind option_bind]. exists c'. split_and!; [done|done| |].
  - intros slot Hv Hs. apply O; [done|]. by rewrite Hsnd.
  - intros i slot info Hi Es. destruct (A i slot info) as (target & Ht & At); [|done|].
    { apply list_elem_of_lookup. exists i. rewrite list_lookup_imap, Hi. done. }
    exists target. split_and!; [done| |done].
    apply list_elem_of_lookup_2 in Ht. unfold peers, drain_peers in Ht. by apply list_elem_of_filter in Ht as [[? _] _].
Qed.

(** Draining a node with peers ends and keeps the table consistent. The [i]-th
    slot of the node goes to the peer whose turn it is if its keys could be
    moved there, and otherwise stays with the node; in both cases it is no
    longer migrating. The slots of other nodes are left alone, so a drain in
    which every slot could be moved leaves the node without slots. *)
Theorem DrainSlots_hands_over drain c :
  slots_wf (c_slots c) → nd_ID (c_self c) ≠ "" → drain_peers c ≠ [] →
  let mine := GetNodeSlots (c_slots c) (nd_ID (c_self c)) in
  let peers := drain_peers c in
  ∃ c', DrainSlots true drain c = Some (true, c') ∧ slots_wf (c_slots c') ∧
    (∀ slot, valid_slot slot → slot ∉ mine → slot_at (c_slots c') slot = slot_at (c_slots c) slot) ∧
    (∀ i slot info, mine !! i = Some slot → slot_at (c_slots c) slot = Some info →
       ∃ target, peers !! (i mod length peers)%nat = Some target ∧ nd_ID target ≠ nd_ID (c_self c) ∧
         slot_at (c_slots c') slot = Some (drained (drain slot (Node_Addr target)) (nd_ID target) info)).
Proof. apply DrainSlots_spec. Qed.
End draining.

(** ** On a concrete cluster *)

Section witnesses.
#[local] Instance ranges {K A} `{Countable K} : GoRange K A := listed_range.

Let peer (id : string) (port : Z) : GossipNode :=
  mkNode id "10.0.0.1" port (port + 10000) NodeRoleMaster "" NodeStateConnected 0 0 ∅ (mkLoad 0 0 []).

Let gossip (self : string) : Gossip := mkGossip self {["a" := peer "a" 1; "b" := peer "b" 2]} ∅ 5.

Let node (self : string) (sm : SlotManager) : Cluster :=
  mkCluster (mkSelf self "10.0.0.1" 1 2 NodeRoleMaster "" NodeStateConnected) sm (gossip self) ClusterStateOK
    (NewManager None) 5 0 ∅.

Let row : SlotInfo := mkSlot SlotStateNormal "a" "a" [mkReplica "b" 0 true; mkReplica "c" 9 true] 3 0 "" "".

Lemma gossip_ids self i m : g_nodes (gossip self) !! i = Some m → gn_ID m = i.
Proof.
  unfold gossip. cbn [g_nodes]. intros [[<- <-]|[_ [<- <-]%lookup_singleton_Some]]%lookup_insert_Some; done.
Qed.

Lemma key_slot : KeySlot "k68586" = 7.
Proof. vm_compute. reflexivity. Qed.

Lemma routing_agrees_witness :
  Route (Some (node "b" demo3)) "k68586" false = mkRoute false (Some (mkRedirect RedirectMoved 7 "10.0.0.1:1")) false 7 ∧
  CanAcceptWrite (node "b" demo3) "k68586" = false.
Proof.
  rewrite <-key_slot.
  exact (routing_agrees (node "b" demo3) "k68586" false row (peer "a" 1) demo3_wf
    (eq_trans (f_equal (slot_at demo3) key_slot) (proj2 (proj2 (proj2 (proj2 demo_steps))))) eq_refl ltac:(done) eq_refl).
Defined.

Let exporting : SlotManager := default NewSlotManager (SetExporting demo3 7 "b").
Let importing : SlotManager := default NewSlotManager (SetImporting demo3 7 "a").

Lemma importing_wf : slots_wf importing.
Proof.
  unfold importing. destruct (SetImporting demo3 7 "a") as [sm|] eqn:E; [|apply NewSlotManager_wf].
  cbn [default]. apply (slot_op_keeps demo3 sm demo3_wf). eapply op_importing; [|exact E]. unfold is_u16. lia.
Qed.

Lemma migrating_slot_refuses_writes_witness :
  Route (Some (node "a" exporting)) "k68586" false = mkRoute false (Some (mkRedirect RedirectAsk 7 "10.0.0.1:2")) false 7 ∧
  Route (Some (node "b" importing)) "k68586" true = mkRoute true None false 7 ∧
  CanAcceptWrite (node "b" importing) "k68586" = false.
Proof.
  rewrite <-key_slot.
  destruct (migrating_slot_refuses_writes (node "a" exporting) (node "b" importing) "k68586"
    (mkSlot SlotStateExporting "a" "a" [mkReplica "b" 0 true; mkReplica "c" 9 true] 3 0 "" "b")
    (mkSlot SlotStateImporting "a" "a" [mkReplica "b" 0 true; mkReplica "c" 9 true] 3 0 "a" "") (peer "b" 2) (peer "a" 1)
    importing_wf ltac:(done) (gossip_ids "a")) as (H1 & H2 & H3 & _);
    [rewrite key_slot; vm_compute; reflexivity|reflexivity|discriminate|reflexivity|reflexivity|discriminate|reflexivity
    |rewrite key_slot; vm_compute; reflexivity|reflexivity..|].
  split_and!; [exact (H1 false)|exact H2|exact H3].
Defined.

Lemma FailoverToMaster_takes_over_witness :
  ∃ c', FailoverToMaster (node "b" demo3) "a" = Some (c', [7]) ∧ GetSlotNode (c_slots c') 7 = "b" ∧
    GetSlotConfigEpoch (c_slots c') 7 = 6.
Proof.
  destruct (FailoverToMaster_takes_over (node "b" demo3) "a") as (c' & E & _ & _ & _ & A); [apply demo3_wf|done|cbn; lia|].
  exists c'. specialize (A 7 row valid_7 (proj2 (proj2 (proj2 (proj2 demo_steps))))).
  split_and!; [exact E| |]; unfold GetSlotNode, GetSlotConfigEpoch; by rewrite (info_valid _ _ valid_7), A.
Defined.

Lemma DrainSlots_hands_over_witness :
  ∃ c', DrainSlots true (λ _ _, true) (node "a" demo3) = Some (true, c') ∧ GetSlotNode (c_slots c') 7 = "b".
Proof.
  destruct (DrainSlots_hands_over (λ _ _, true) (node "a" demo3)) as (c' & E & _ & _ & A).
  - apply demo3_wf.
  - done.
  - vm_compute. discriminate.
  - destruct (A 0%nat 7 row) as (target & Ht & _ & At); [vm_compute; reflexivity|apply demo_steps|].
    exists c'. split; [exact E|]. unfold GetSlotNode. rewrite (info_valid _ _ valid_7), At. cbn.
    vm_compute in Ht. by injection Ht as <-.
Defined.
End witnesses.
