(* ===== verification/Protocol.v ===== *)
(** * The command table: [zerocopy.go], [cmdmap.go], [crossslot.go], [responses.go]

    Command names are matched on their bytes: [ToUpperInPlace] folds ASCII case
    with a table, and [cmdMap] is an open-addressing hash table of 128 buckets
    built once from a list of registrations. The table of [registerCommands] and
    the tables of key and write commands are Go maps from names. *)

From S2P Require Import Prelude Strconv.
From stdpp Require Import options.

(** ** [zerocopy.go] *)

(** [upperTable], filled by [init]. *)
Definition upperTable (b : byte) : byte :=
  let i := Z_of_byte b in
  if (97 <=? i) && (i <=? 122) then byte_of_Z (i - 32) else b.

Definition ToUpperInPlace (b : list byte) : list byte := upperTable <$> b.

(** [BytesEqual] and [EqualFold] compare the lengths, then byte by byte. *)
Fixpoint bytes_match (same : byte → byte → bool) (a b : list byte) : bool :=
  match a, b with
  | x :: a', y :: b' => same x y && bytes_match same a' b'
  | _, _ => true
  end.

Definition EqualFold (a b : list byte) : bool :=
  (length a =? length b)%nat && bytes_match (λ x y, bool_decide (upperTable x = upperTable y)) a b.

Definition BytesEqual (a b : list byte) : bool :=
  (length a =? length b)%nat && bytes_match (λ x y, bool_decide (x = y)) a b.

(** FNV-1a over the upper-cased bytes. *)
Definition HashBytes (b : list byte) : Z :=
  foldl (λ h c, u32 (Z.lxor h (Z_of_byte (upperTable c)) * 16777619)) 2166136261 b.

(** [strings.ToUpper], for a result that is compared with ASCII keywords: the
    only letters outside ASCII with an upper case in ASCII are U+0131 (C4 B1),
    which gives I, and U+017F (C5 BF), which gives S. *)
Fixpoint ToUpper_bytes (b : list byte) : list byte :=
  match b with
  | xc4 :: xb1 :: b' => x49 :: ToUpper_bytes b'
  | xc5 :: xbf :: b' => x53 :: ToUpper_bytes b'
  | x :: b' => upperTable x :: ToUpper_bytes b'
  | [] => []
  end.

Definition strings_ToUpper (b : list byte) : string := BytesToString (ToUpper_bytes b).

(** ** The command handlers, by name *)

Inductive Cmd :=
  | CmdPing | CmdEcho | CmdQuit | CmdCommand | CmdInfo | CmdGet | CmdSet | CmdSetNX | CmdSetEX | CmdPSetEX | CmdMGet | CmdMSet | CmdHGet | CmdHSet
  | CmdHDel | CmdHExists | CmdHGetAll | CmdHKeys | CmdHVals | CmdHLen | CmdLPush | CmdRPush | CmdLPop | CmdRPop | CmdLRange | CmdLLen
  | CmdLIndex | CmdLSet | CmdLTrim | CmdSAdd | CmdSRem | CmdSMembers | CmdSIsMember | CmdSCard | CmdZAdd | CmdZRem | CmdZRange | CmdZScore
  | CmdZRank | CmdZCard | CmdIncr | CmdIncrBy | CmdDecr | CmdDecrBy | CmdAppend | CmdStrlen | CmdGetSet | CmdDel | CmdExists | CmdKeys
  | CmdType | CmdRename | CmdDBSize | CmdFlushDB | CmdExpire | CmdExpireAt | CmdPExpire | CmdTTL | CmdPTTL | CmdPersist | CmdDebug
  | CmdConfig | CmdClient | CmdAsking | CmdRestore | CmdMigrate | CmdReplApply | CmdRegReplica | CmdWait | CmdBGSAVE | CmdSave
  | CmdLastSave.

#[export] Instance Cmd_eq_dec : EqDecision Cmd.
Proof. solve_decision. Defined.

(** [registerCommands]: the assignments to [h.commands], in order. *)
Definition registerCommands : list (string * Cmd) :=
  [
   ("PING", CmdPing); ("ECHO", CmdEcho); ("QUIT", CmdQuit); ("COMMAND", CmdCommand); ("INFO", CmdInfo); ("GET", CmdGet);
   ("SET", CmdSet); ("SETNX", CmdSetNX); ("SETEX", CmdSetEX); ("PSETEX", CmdPSetEX); ("MGET", CmdMGet); ("MSET", CmdMSet);
   ("HGET", CmdHGet); ("HSET", CmdHSet); ("HDEL", CmdHDel); ("HEXISTS", CmdHExists); ("HGETALL", CmdHGetAll);
   ("HKEYS", CmdHKeys); ("HVALS", CmdHVals); ("HLEN", CmdHLen); ("LPUSH", CmdLPush); ("RPUSH", CmdRPush);
   ("LPOP", CmdLPop); ("RPOP", CmdRPop); ("LRANGE", CmdLRange); ("LLEN", CmdLLen); ("LINDEX", CmdLIndex);
   ("LSET", CmdLSet); ("LTRIM", CmdLTrim); ("SADD", CmdSAdd); ("SREM", CmdSRem); ("SMEMBERS", CmdSMembers);
   ("SISMEMBER", CmdSIsMember); ("SCARD", CmdSCard); ("ZADD", CmdZAdd); ("ZREM", CmdZRem); ("ZRANGE", CmdZRange);
   ("ZSCORE", CmdZScore); ("ZRANK", CmdZRank); ("ZCARD", CmdZCard); ("INCR", CmdIncr); ("INCRBY", CmdIncrBy);
   ("DECR", CmdDecr); ("DECRBY", CmdDecrBy); ("APPEND", CmdAppend); ("STRLEN", CmdStrlen); ("GETSET", CmdGetSet);
   ("DEL", CmdDel); ("EXISTS", CmdExists); ("KEYS", CmdKeys); ("TYPE", CmdType); ("RENAME", CmdRename);
   ("DBSIZE", CmdDBSize); ("FLUSHDB", CmdFlushDB); ("FLUSHALL", CmdFlushDB); ("EXPIRE", CmdExpire);
   ("EXPIREAT", CmdExpireAt); ("PEXPIRE", CmdPExpire); ("TTL", CmdTTL); ("PTTL", CmdPTTL); ("PERSIST", CmdPersist);
   ("DEBUG", CmdDebug); ("CONFIG", CmdConfig); ("CLIENT", CmdClient); ("ASKING", CmdAsking); ("RESTORE", CmdRestore);
   ("MIGRATE", CmdMigrate); ("REPLAPPLY", CmdReplApply); ("REGREPLICA", CmdRegReplica); ("WAIT", CmdWait);
   ("BGSAVE", CmdBGSAVE); ("SAVE", CmdSave); ("LASTSAVE", CmdLastSave)
  ].

(** [h.commands[cmd]]: the last assignment to a name counts. *)
Definition commands (name : string) : option Cmd :=
  foldl (λ r e, if bool_decide (e.1 = name) then Some e.2 else r) None registerCommands.

(** ** [cmdmap.go] *)

(** The calls of [register] in [registerAll], in order. *)
Definition registrations : list (string * Cmd) :=
  [
   ("PING", CmdPing); ("ECHO", CmdEcho); ("QUIT", CmdQuit); ("COMMAND", CmdCommand); ("INFO", CmdInfo); ("GET", CmdGet);
   ("SET", CmdSet); ("SETNX", CmdSetNX); ("SETEX", CmdSetEX); ("PSETEX", CmdPSetEX); ("MGET", CmdMGet); ("MSET", CmdMSet);
   ("HGET", CmdHGet); ("HSET", CmdHSet); ("HDEL", CmdHDel); ("HEXISTS", CmdHExists); ("HGETALL", CmdHGetAll);
   ("HKEYS", CmdHKeys); ("HVALS", CmdHVals); ("HLEN", CmdHLen); ("LPUSH", CmdLPush); ("RPUSH", CmdRPush);
   ("LPOP", CmdLPop); ("RPOP", CmdRPop); ("LRANGE", CmdLRange); ("LLEN", CmdLLen); ("LINDEX", CmdLIndex);
   ("LSET", CmdLSet); ("LTRIM", CmdLTrim); ("SADD", CmdSAdd); ("SREM", CmdSRem); ("SMEMBERS", CmdSMembers);
   ("SISMEMBER", CmdSIsMember); ("SCARD", CmdSCard); ("ZADD", CmdZAdd); ("ZREM", CmdZRem); ("ZRANGE", CmdZRange);
   ("ZSCORE", CmdZScore); ("ZRANK", CmdZRank); ("ZCARD", CmdZCard); ("INCR", CmdIncr); ("INCRBY", CmdIncrBy);
   ("DECR", CmdDecr); ("DECRBY", CmdDecrBy); ("APPEND", CmdAppend); ("STRLEN", CmdStrlen); ("GETSET", CmdGetSet);
   ("DEL", CmdDel); ("EXISTS", CmdExists); ("KEYS", CmdKeys); ("TYPE", CmdType); ("RENAME", CmdRename);
   ("DBSIZE", CmdDBSize); ("FLUSHDB", CmdFlushDB); ("FLUSHALL", CmdFlushDB); ("EXPIRE", CmdExpire);
   ("EXPIREAT", CmdExpireAt); ("PEXPIRE", CmdPExpire); ("TTL", CmdTTL); ("PTTL", CmdPTTL); ("PERSIST", CmdPersist);
   ("DEBUG", CmdDebug); ("CONFIG", CmdConfig); ("CLIENT", CmdClient); ("ASKING", CmdAsking); ("RESTORE", CmdRestore);
   ("MIGRATE", CmdMigrate); ("REPLAPPLY", CmdReplApply); ("REGREPLICA", CmdRegReplica); ("WAIT", CmdWait);
   ("BGSAVE", CmdBGSAVE); ("SAVE", CmdSave); ("LASTSAVE", CmdLastSave)
  ].

Definition cmdEntry : Type := list byte * Cmd.

(** A bucket whose name is nil is [None]. *)
Definition emptyCmdMap : list (option cmdEntry) := replicate 128 None.

(** The probes [i = 128 - fuel, ...] of [register]; running out of buckets is
    the panic. *)
Fixpoint register_probe (fuel : nat) (idx i : Z) (name : list byte) (handler : Cmd) (cm : list (option cmdEntry))
    : option (list (option cmdEntry)) :=
  match fuel with
  | O => None
  | S fuel' =>
      let pos := Z.to_nat (Z.land (u32 (idx + i)) 127) in
      match cm !! pos with
      | Some None => Some (<[pos := Some (name, handler)]> cm)
      | Some (Some _) => register_probe fuel' idx (i + 1) name handler cm
      | None => None
      end
  end.

Definition register (cm : list (option cmdEntry)) (name : list byte) (handler : Cmd) : option (list (option cmdEntry)) :=
  register_probe 128 (Z.land (HashBytes name) 127) 0 name handler cm.

Fixpoint register_all (cm : list (option cmdEntry)) (entries : list (string * Cmd)) : option (list (option cmdEntry)) :=
  match entries with
  | [] => Some cm
  | (name, handler) :: entries' =>
      match register cm (StringToBytes name) handler with
      | None => None
      | Some cm' => register_all cm' entries'
      end
  end.

Definition newCmdMap : option (list (option cmdEntry)) := register_all emptyCmdMap registrations.

Fixpoint lookup_probe (fuel : nat) (idx i : Z) (name : list byte) (cm : list (option cmdEntry)) : option Cmd :=
  match fuel with
  | O => None
  | S fuel' =>
      match cm !! Z.to_nat (Z.land (u32 (idx + i)) 127) with
      | Some (Some (entry, handler)) =>
          if BytesEqual entry name then Some handler else lookup_probe fuel' idx (i + 1) name cm
      | _ => None
      end
  end.

Definition Lookup (cm : list (option cmdEntry)) (name : list byte) : option Cmd :=
  lookup_probe 128 (Z.land (HashBytes name) 127) 0 name cm.

Definition IsClusterCmd (cmd : list byte) : bool :=
  bool_decide (ToUpperInPlace cmd = StringToBytes "CLUSTER").

(** ** Tables of commands *)

Definition keyCommands : list string :=
  [
   "GET"; "SET"; "SETNX"; "SETEX"; "PSETEX"; "GETSET"; "HGET"; "HSET"; "HDEL"; "HEXISTS"; "HGETALL";
   "HKEYS"; "HVALS"; "HLEN"; "LPUSH"; "RPUSH"; "LPOP"; "RPOP"; "LRANGE"; "LLEN"; "LINDEX"; "LSET";
   "LTRIM"; "SADD"; "SREM"; "SMEMBERS"; "SISMEMBER"; "SCARD"; "ZADD"; "ZREM"; "ZRANGE"; "ZSCORE";
   "ZRANK"; "ZCARD"; "INCR"; "INCRBY"; "DECR"; "DECRBY"; "APPEND"; "STRLEN"; "DEL"; "EXISTS"; "TYPE";
   "RENAME"; "EXPIRE"; "EXPIREAT"; "PEXPIRE"; "TTL"; "PTTL"; "PERSIST"
  ].

Definition writeCommands : list string :=
  [
   "SET"; "SETNX"; "SETEX"; "PSETEX"; "GETSET"; "MSET"; "HSET"; "HDEL"; "LPUSH"; "RPUSH"; "LPOP";
   "RPOP"; "LSET"; "LTRIM"; "SADD"; "SREM"; "ZADD"; "ZREM"; "INCR"; "INCRBY"; "DECR"; "DECRBY";
   "APPEND"; "DEL"; "RENAME"; "EXPIRE"; "EXPIREAT"; "PEXPIRE"; "PERSIST"; "RESTORE"; "MIGRATE"
  ].

Definition isKeyCommand (cmd : string) : bool := bool_decide (cmd ∈ keyCommands).
Definition isWriteCommand (cmd : string) : bool := bool_decide (cmd ∈ writeCommands).

(** ** [crossslot.go] *)

Inductive keyExtractor := extractAllKeys | extractMSetKeys.

Definition multiKeyCommands (cmd : string) : option keyExtractor :=
  if bool_decide (cmd = "MGET") then Some extractAllKeys
  else if bool_decide (cmd = "MSET") then Some extractMSetKeys
  else if bool_decide (cmd ∈ ["DEL"; "EXISTS"; "RENAME"]) then Some extractAllKeys
  else None.

Fixpoint even_positions {A} (args : list A) : list A :=
  match args with
  | k :: _ :: args' => k :: even_positions args'
  | [k] => [k]
  | [] => []
  end.

Definition extract (e : keyExtractor) (args : list (list byte)) : list (list byte) :=
  match e with
  | extractAllKeys => args
  | extractMSetKeys => if (length args <? 2)%nat then [] else even_positions args
  end.

Definition isMultiKeyCommand (cmd : string) : bool := bool_decide (is_Some (multiKeyCommands cmd)).

Definition getKeysForCrossSlotCheck (cmd : string) (args : list (list byte)) : list (list byte) :=
  match multiKeyCommands cmd with None => [] | Some e => extract e args end.

(** ** [responses.go] *)

(** [appendInt] negates in [int64]: the least integer stays negative and loses
    its digits. *)
Fixpoint appendInt_digits (fuel : nat) (n : Z) (acc : list byte) : list byte :=
  match fuel with
  | O => acc
  | S fuel' => if 0 <? n then appendInt_digits fuel' (n / 10) (ascii_digit (n mod 10) :: acc) else acc
  end.

Definition appendInt (buf : list byte) (n : Z) : list byte :=
  let '(buf, n) := if n <? 0 then (buf ++ [ascii_minus], i64 (- n)) else (buf, n) in
  if n =? 0 then buf ++ [x30] else buf ++ appendInt_digits 20 n [].

Definition formatIntToBytes (n : Z) : list byte := appendInt [x3a] n ++ crlf.

(** The cache of the responses from -1 to 100. *)
Definition intCache : list (list byte) := (λ i, formatIntToBytes (i - 1)) <$> seqZ 0 102.

Definition RespErrWrongType : list byte :=
  StringToBytes "-WRONGTYPE Operation against a key holding the wrong kind of value" ++ crlf.

Lemma ToUpper_ascii b : Forall (λ b, Z_of_byte b < 128) b → ToUpper_bytes b = ToUpperInPlace b.
Proof.
  induction 1 as [|y b Hy _ IH]; [done|]. unfold ToUpperInPlace in *. rewrite fmap_cons, <-IH. destruct y; try (vm_compute in Hy; lia); done.
Qed.

Lemma upperTable_idem b : upperTable (upperTable b) = upperTable b.
Proof. destruct b; vm_compute; reflexivity. Qed.

Lemma ToUpper_idem b : ToUpperInPlace (ToUpperInPlace b) = ToUpperInPlace b.
Proof.
  unfold ToUpperInPlace. rewrite <-list_fmap_compose. apply list_fmap_ext. intros i y _. apply upperTable_idem.
Qed.

(** ** The hash table dispatches as the map does *)

Lemma bytes_match_eq a b : length a = length b → bytes_match (λ x y, bool_decide (x = y)) a b = true ↔ a = b.
Proof.
  revert b. induction a as [|x a IH]; intros [|y b] Hlen; simplify_eq/=; [done|].
  rewrite andb_true_iff, IH, bool_decide_eq_true by lia. naive_solver.
Qed.

Lemma BytesEqual_eq a b : BytesEqual a b = true ↔ a = b.
Proof.
  unfold BytesEqual. rewrite andb_true_iff, Nat.eqb_eq. split.
  - intros [Hlen H]. by apply bytes_match_eq.
  - intros ->. split; [done|by apply bytes_match_eq].
Qed.

(** A bucket that answers holds the name. *)
Lemma lookup_probe_sound fuel idx i name cm handler :
  lookup_probe fuel idx i name cm = Some handler → Some (name, handler) ∈ cm.
Proof.
  revert i. induction fuel as [|fuel IH]; intros i; simpl; [done|].
  destruct (cm !! _) as [[[entry h]|]|] eqn:E; [|done..].
  destruct (BytesEqual entry name) eqn:Eb.
  - intros [= ->]. apply BytesEqual_eq in Eb as ->. by eapply list_elem_of_lookup_2.
  - apply IH.
Qed.

(** Every bucket of the table built at start holds a registered command, under
    which it is found. *)
Definition table_ok (cm : list (option cmdEntry)) : bool :=
  forallb (λ e, match e with
                | None => true
                | Some (name, handler) => bool_decide (commands (BytesToString name) = Some handler)
                end) cm
  && forallb (λ e, bool_decide (Lookup cm (StringToBytes e.1) = commands e.1)) registerCommands.

Lemma commands_registered name handler : commands name = Some handler → name ∈ registerCommands.*1.
Proof.
  unfold commands. generalize registerCommands as l. intros l.
  induction l as [|e l IH] using rev_ind; [done|].
  rewrite foldl_app, fmap_app. simpl. case_bool_decide; set_solver.
Qed.

Lemma newCmdMap_ok : match newCmdMap with Some cm => table_ok cm | None => false end = true.
Proof. vm_compute. reflexivity. Qed.

Lemma Lookup_commands cm : newCmdMap = Some cm → ∀ name, Lookup cm name = commands (BytesToString name).
Proof.
  intros Hcm name. pose proof newCmdMap_ok as Hok. rewrite Hcm in Hok. clear Hcm. unfold table_ok in Hok.
  apply andb_true_iff in Hok as [Hin Hall]. rewrite !forallb_forall in *.
  destruct (commands (BytesToString name)) as [handler|] eqn:Ec.
  - pose proof (commands_registered _ _ Ec) as Hr. apply list_elem_of_fmap in Hr as (e & Hn & He).
    apply list_elem_of_In, Hall, bool_decide_eq_true in He. rewrite <-Hn, StringToBytes_BytesToString in He. congruence.
  - destruct (Lookup cm name) as [handler|] eqn:El; [|done].
    apply lookup_probe_sound, list_elem_of_In, Hin, bool_decide_eq_true in El. congruence.
Qed.

(** C26: The hash table built from [registerAll] never overflows, and looking a name
    up in it gives the handler that the map of [registerCommands] has for the
    name, for every byte string. *)
Theorem cmdMap_dispatches_commands :
  ∃ cm, newCmdMap = Some cm ∧ ∀ name, Lookup cm name = commands (BytesToString name).
Proof.
  pose proof newCmdMap_ok as Hok. destruct newCmdMap as [cm|] eqn:E; [|discriminate].
  exists cm. split; [reflexivity|]. by apply Lookup_commands.
Qed.
