(* ===== verification/Hotspot.v ===== *)
(** * Hot slots: [internal/cluster/hotspot/detector.go]

    A detector counts the requests and bytes of each slot. Each tick of its
    timer takes the counters of the last window, and after a warm-up reports
    the slots whose rate exceeds a multiple of the average over the active
    slots. Rates are IEEE doubles ([SpecFloat] at 53 bits of precision). *)

From S2P Require Import Prelude Hash Store.
From stdpp Require Import options.

(** ** Arithmetic on [float64] *)

Definition f64_of_Z (z : Z) : float64 := binary_normalize 53 1024 z 0 false.
Definition f64_mul (x y : float64) : float64 := SFmul 53 1024 x y.
Definition f64_plus (x y : float64) : float64 := SFadd 53 1024 x y.
Definition f64_minus (x y : float64) : float64 := SFsub 53 1024 x y.
Definition f64_div (x y : float64) : float64 := SFdiv 53 1024 x y.
Definition f64_zero : float64 := S754_zero false.

(** ** State *)

Record slotStat := mkStat { ss_requests : Z; ss_bytes : Z; ss_avgReq : float64; ss_avgByte : float64 }.

Record HotSlotInfo := mkHot { hi_Slot : Z; hi_QPS : float64; hi_AvgQPS : float64; hi_Score : float64; hi_Bandwidth : float64 }.

Record Detector := mkDetector {
  d_slots : list slotStat;
  d_hotSlots : list HotSlotInfo;
  d_lastTotalQPS : float64;
  d_ticks : Z
}.

Record DetectorConfig := mkDetectorConfig {
  dc_AvgAlpha : float64;
  dc_HotMultiplier : float64;
  dc_MinHotQPS : float64;
  dc_MaxHotSlots : nat
}.

(** 0.1, 3.0 and 100 in [float64]. *)
Definition DefaultDetectorConfig : DetectorConfig :=
  mkDetectorConfig (f64_div (f64_of_Z 1) (f64_of_Z 10)) (f64_of_Z 3) (f64_of_Z 100) 20.

Definition samplesWarmup : Z := 10.

Definition freshStat : slotStat := mkStat 0 0 f64_zero f64_zero.

Definition NewDetector : Detector := mkDetector (replicate (Z.to_nat SlotCount) freshStat) [] f64_zero 0.

(** ** Operations *)

(** Slots are [uint16]; the counters are atomic 64-bit additions. *)
Definition Detector_Record (d : Detector) (slot sizeBytes : Z) : Detector :=
  if SlotCount <=? slot then d
  else
    let add st :=
      mkStat (u64 (ss_requests st + 1)) (if 0 <? sizeBytes then u64 (ss_bytes st + sizeBytes) else ss_bytes st)
        (ss_avgReq st) (ss_avgByte st) in
    mkDetector (alter add (Z.to_nat slot) (d_slots d)) (d_hotSlots d) (d_lastTotalQPS d) (d_ticks d).

Definition ewma (alpha x avg : float64) : float64 :=
  f64_plus (f64_mul alpha x) (f64_mul (f64_minus (f64_of_Z 1) alpha) avg).

(** One slot of the first pass: the swapped counters and the new averages. *)
Definition sample_slot (cfg : DetectorConfig) (st : slotStat) : slotStat :=
  if ss_requests st =? 0 then
    let decay avg := f64_mul avg (f64_minus (f64_of_Z 1) (dc_AvgAlpha cfg)) in
    mkStat 0 0 (decay (ss_avgReq st)) (decay (ss_avgByte st))
  else
    mkStat 0 0 (ewma (dc_AvgAlpha cfg) (f64_of_Z (ss_requests st)) (ss_avgReq st))
      (ewma (dc_AvgAlpha cfg) (f64_of_Z (ss_bytes st)) (ss_avgByte st)).

(** The rates of the window: slot, requests and bytes of the active slots. *)
Definition window_rates (slots : list slotStat) : list (Z * float64 * float64) :=
  omap (λ e : nat * slotStat,
          if ss_requests e.2 =? 0 then None
          else Some (Z.of_nat e.1, f64_of_Z (ss_requests e.2), f64_of_Z (ss_bytes e.2)))
    (imap pair slots).

(** A slot that the second pass reports. *)
Definition hot_candidate (cfg : DetectorConfig) (avgQPS : float64) (r : Z * float64 * float64) : option HotSlotInfo :=
  let '(slot, qps, bps) := r in
  if SFleb qps f64_zero then None
  else if SFleb qps (f64_mul avgQPS (dc_HotMultiplier cfg)) then None
  else Some (mkHot slot qps avgQPS (f64_div qps avgQPS) bps).

(** [sort.Slice] puts a list in an order that the comparison allows; the order
    of slots with equal scores is not specified. *)
Class SortSlice (A : Type) := {
  sort_Slice : (A → A → bool) → list A → list A;
  sort_Slice_perm less l : sort_Slice less l ≡ₚ l
}.

(** Insertion, which puts an element before the first that it is less than. *)
Fixpoint insert_by {A} (less : A → A → bool) (x : A) (l : list A) : list A :=
  match l with [] => [x] | y :: l' => if less x y then x :: y :: l' else y :: insert_by less x l' end.

Lemma insert_by_perm {A} less (x : A) l : insert_by less x l ≡ₚ x :: l.
Proof.
  induction l as [|y l IH]; [done|]. cbn [insert_by]. destruct (less x y); [done|]. rewrite IH. constructor.
Qed.

Definition insertion_sort {A} : SortSlice A := {|
  sort_Slice less l := foldr (insert_by less) [] l;
  sort_Slice_perm less l :=
    list_ind (λ l, foldr (insert_by less) [] l ≡ₚ l) (perm_nil _)
      (λ x l IH, transitivity (insert_by_perm less x _) (perm_skip x IH)) l
|}.

Section detect.
Context `{!SortSlice HotSlotInfo}.

Definition sampleAndDetect (cfg : DetectorConfig) (d : Detector) : Detector :=
  let rates := window_rates (d_slots d) in
  let slots := sample_slot cfg <$> d_slots d in
  let totalQPS := foldl (λ t r, f64_plus t r.1.2) f64_zero rates in
  if d_ticks d <=? samplesWarmup then mkDetector slots (d_hotSlots d) (d_lastTotalQPS d) (d_ticks d)
  else if (length rates =? 0)%nat then mkDetector slots [] (d_lastTotalQPS d) (d_ticks d)
  else
    let avgQPS := f64_div totalQPS (f64_of_Z (Z.of_nat (length rates))) in
    if SFltb avgQPS (dc_MinHotQPS cfg) then mkDetector slots [] totalQPS (d_ticks d)
    else
      let candidates := sort_Slice (λ a b, SFltb (hi_Score b) (hi_Score a)) (omap (hot_candidate cfg avgQPS) rates) in
      mkDetector slots (take (dc_MaxHotSlots cfg) candidates) totalQPS (d_ticks d).

(** One tick of the loop. *)
Definition detector_tick (cfg : DetectorConfig) (d : Detector) : Detector :=
  sampleAndDetect cfg (mkDetector (d_slots d) (d_hotSlots d) (d_lastTotalQPS d) (u64 (d_ticks d + 1))).
End detect.

(** ** What a report holds *)

Section report.
Context `{!SortSlice HotSlotInfo}.

Lemma window_rates_slots slots :
  (λ r : Z * float64 * float64, r.1.1) <$> window_rates slots =
  omap (λ e : nat * slotStat, if ss_requests e.2 =? 0 then None else Some (Z.of_nat e.1)) (imap pair slots).
Proof.
  unfold window_rates. induction (imap pair slots) as [|e l IH]; [done|]. cbn [omap list_omap].
  destruct (ss_requests e.2 =? 0); [done|]. cbn [fmap list_fmap]. cbn [omap list_omap] in IH. by f_equal.
Qed.

(** Slots in a window are distinct and in range. *)
Lemma window_rates_distinct slots : (length slots ≤ Z.to_nat SlotCount)%nat →
  NoDup ((λ r : Z * float64 * float64, r.1.1) <$> window_rates slots) ∧
  Forall (λ r : Z * float64 * float64, 0 ≤ r.1.1 < SlotCount) (window_rates slots).
Proof.
  intros Hl. split.
  - rewrite window_rates_slots. assert (NoDup (imap pair slots).*1) as Hnd.
    { replace (imap pair slots).*1 with (seq 0 (length slots)); [apply NoDup_seq|].
      apply list_eq. intros i. rewrite list_lookup_fmap, list_lookup_imap. destruct (slots !! i) as [x|] eqn:E.
      - cbn. apply lookup_seq. split; [done|]. by apply lookup_lt_Some in E.
      - cbn. apply lookup_seq_ge. by apply lookup_ge_None in E. }
    induction (imap pair slots) as [|[i st] l IH]; [constructor|]. cbn [fmap list_fmap fst] in Hnd.
    apply NoDup_cons in Hnd as [Hi Hnd]. cbn [omap list_omap fst snd]. destruct (ss_requests st =? 0); [by apply IH|].
    constructor; [|by apply IH]. intros ([i' st'] & Hin & H)%list_elem_of_omap. cbn [fst snd] in H.
    destruct (ss_requests st' =? 0); [done|]. injection H as H. apply Nat2Z.inj in H as ->.
    apply Hi. apply list_elem_of_fmap. by exists (i, st').
  - apply Forall_forall. intros r ([i st] & Hin & H)%list_elem_of_omap. cbn [fst snd] in H.
    destruct (ss_requests st =? 0); [done|]. injection H as <-. cbn [fst].
    apply list_elem_of_lookup_1 in Hin as [j Hj]. rewrite list_lookup_imap in Hj. apply fmap_Some in Hj as (x & Hx & [= -> ->]).
    apply lookup_lt_Some in Hx. unfold SlotCount in *. lia.
Qed.

Lemma hot_candidate_slot cfg avg r h : hot_candidate cfg avg r = Some h → hi_Slot h = r.1.1.
Proof. destruct r as [[slot qps] bps]. unfold hot_candidate. repeat case_match; intros [= <-]; done. Qed.

Lemma candidates_distinct cfg avg (rates : list (Z * float64 * float64)) :
  NoDup ((λ r : Z * float64 * float64, r.1.1) <$> rates) → NoDup (hi_Slot <$> omap (hot_candidate cfg avg) rates).
Proof.
  induction rates as [|r rates IH]; intros Hnd; [constructor|]. cbn [fmap list_fmap] in Hnd. apply NoDup_cons in Hnd as [Hr Hnd].
  cbn [omap list_omap]. destruct (hot_candidate cfg avg r) as [h|] eqn:E; [|by apply IH]. cbn [fmap list_fmap].
  constructor; [|by apply IH]. rewrite (hot_candidate_slot _ _ _ _ E).
  intros (h' & Heq & (r' & Hr' & E')%list_elem_of_omap)%list_elem_of_fmap. apply Hr. rewrite Heq, (hot_candidate_slot _ _ _ _ E').
  apply list_elem_of_fmap. by exists r'.
Qed.

(** A report names no slot twice, and only slots that exist. *)
Definition report_ok (hot : list HotSlotInfo) : Prop :=
  NoDup (hi_Slot <$> hot) ∧ Forall (λ h, 0 ≤ hi_Slot h < SlotCount) hot.

Lemma detector_report_ok cfg d : (length (d_slots d) ≤ Z.to_nat SlotCount)%nat → report_ok (d_hotSlots d) →
  report_ok (d_hotSlots (detector_tick cfg d)) ∧ length (d_slots (detector_tick cfg d)) = length (d_slots d).
Proof.
  intros Hl Hok. unfold detector_tick, sampleAndDetect. cbn [d_slots d_ticks d_hotSlots d_lastTotalQPS].
  assert (report_ok []) as Hnil by by split; constructor.
  destruct (_ <=? _); cbn [d_hotSlots d_slots]; [by rewrite length_fmap|].
  destruct (_ =? _)%nat; cbn [d_hotSlots d_slots]; [by rewrite length_fmap|]. destruct (SFltb _ _); cbn [d_hotSlots d_slots]; [by rewrite length_fmap|].
  rewrite length_fmap. split; [|done]. destruct (window_rates_distinct (d_slots d) Hl) as [Hnd Hr].
  set (avg := f64_div _ _). set (less := λ a b, _). split.
  - assert (NoDup (hi_Slot <$> sort_Slice less (omap (hot_candidate cfg avg) (window_rates (d_slots d))))) as H
      by (rewrite sort_Slice_perm; by apply candidates_distinct).
    rewrite <-(take_drop (dc_MaxHotSlots cfg) (sort_Slice _ _)), fmap_app in H. by apply NoDup_app in H as [? _].
  - apply Forall_take. rewrite sort_Slice_perm. apply Forall_forall. intros h (r & Hin & E)%list_elem_of_omap.
    rewrite (hot_candidate_slot _ _ _ _ E). by apply (proj1 (Forall_forall _ _) Hr).
Qed.
End report.

Definition HotSlots (d : Detector) : list HotSlotInfo := d_hotSlots d.
Definition TotalQPS (d : Detector) : float64 := d_lastTotalQPS d.
