(* ===== verification/Rebalance.v ===== *)
(** * Rebalancing: [internal/cluster/rebalance/manager.go]

    On every tick the manager counts, for each local slot the detector reports,
    for how many ticks in a row it has been hot; slots that stay hot are planned
    onto the least loaded peers and migrated, and a slot that moved rests for a
    number of ticks. *)

From S2P Require Import Prelude Hash Cache Store Slots Gossip Cluster Hotspot.
From stdpp Require Import options.

Record PeerLoad := mkPeerLoad { pl_NodeID : string; pl_Addr : string; pl_TotalQPS : Z }.

Record RebalanceConfig := mkRebalanceConfig {
  rc_CheckInterval : Z;
  rc_MinStickyWindows : Z;
  rc_MinScoreRatio : float64;
  rc_MaxMigrationsPerRun : Z;
  rc_CoolDownSlots : Z;
  rc_MaxTargetProjectedLoadRatio : float64;
  rc_MinProjectedLoadReductionQPS : float64
}.

Definition DefaultRebalanceConfig : RebalanceConfig :=
  mkRebalanceConfig (10 * nanosPerSecond) 5 (f64_of_Z 5) 2 30 (f64_of_Z 1) (f64_of_Z 1).

Definition normalizeConfig (cfg : RebalanceConfig) : RebalanceConfig :=
  let positive z d := if z <=? 0 then d else z in
  let positive_float x d := if SFleb x f64_zero then d else x in
  mkRebalanceConfig (positive (rc_CheckInterval cfg) (10 * nanosPerSecond)) (positive (rc_MinStickyWindows cfg) 1)
    (positive_float (rc_MinScoreRatio cfg) (f64_of_Z 1)) (positive (rc_MaxMigrationsPerRun cfg) 1) (rc_CoolDownSlots cfg)
    (positive_float (rc_MaxTargetProjectedLoadRatio cfg) (f64_of_Z 1))
    (positive_float (rc_MinProjectedLoadReductionQPS cfg) (f64_of_Z 1)).

Record Rebalancer := mkRebalancer { rb_cfg : RebalanceConfig; rb_sticky : gmap Z Z; rb_cooldown : gmap Z Z }.

Definition NewRebalancer (cfg : RebalanceConfig) : Rebalancer := mkRebalancer (normalizeConfig cfg) ∅ ∅.

Record migrationCandidate := mkCandidate { mc_slot : Z; mc_score : float64; mc_qps : float64 }.
Record migrationPlan := mkPlan { mp_slot : Z; mp_score : float64; mp_qps : float64; mp_target : PeerLoad }.

(** The value of a Go map at a key, 0 when it is missing. *)
Definition count_at (m : gmap Z Z) (slot : Z) : Z := default 0 (m !! slot).

(** [uint64(x)] for a float that is neither negative nor out of range; other
    conversions are implementation-defined and are taken to be 0. *)
Definition f64_to_u64 (x : float64) : Z :=
  match x with
  | S754_finite false m e => u64 (if 0 <=? e then Z.pos m * 2 ^ e else Z.pos m / 2 ^ (- e))
  | _ => 0
  end.

Section rebalance.
Context `{!GoRange string GossipNode} `{!SortSlice migrationCandidate} `{!SortSlice PeerLoad}.

(** [drain slot addr] says whether every key of the slot could be moved. *)
Context (drain : Z → string → bool).

(** One reported slot: its counters, and the slots found hot so far. *)
Definition count_hot (c : Cluster) (st : gmap Z Z * gmap Z Z * list Z) (h : HotSlotInfo) : gmap Z Z * gmap Z Z * list Z :=
  let '(sticky, cooldown, found) := st in
  let slot := hi_Slot h in
  if slot =? 0 then st
  else if negb (IsSlotLocal c slot) then st
  else if 0 <? count_at cooldown slot then (sticky, <[slot := count_at cooldown slot - 1]> cooldown, found)
  else (<[slot := count_at sticky slot + 1]> sticky, cooldown, slot :: found).

Definition candidate_of (cfg : RebalanceConfig) (sticky : gmap Z Z) (h : HotSlotInfo) : option migrationCandidate :=
  if count_at sticky (hi_Slot h) <? rc_MinStickyWindows cfg then None
  else if SFltb (hi_Score h) (rc_MinScoreRatio cfg) then None
  else Some (mkCandidate (hi_Slot h) (hi_Score h) (hi_QPS h)).

Definition peer_less (a b : PeerLoad) : bool :=
  if pl_TotalQPS a =? pl_TotalQPS b then String.ltb (pl_NodeID a) (pl_NodeID b)
  else pl_TotalQPS a <? pl_TotalQPS b.

(** [localProjected - qps], not below zero. *)
Definition without (local qps : float64) : float64 :=
  let rest := f64_minus local qps in if SFltb rest f64_zero then f64_zero else rest.

(** Whether the peer can take the candidate. *)
Definition fits (cfg : RebalanceConfig) (local : float64) (c : migrationCandidate) (peer : PeerLoad) : bool :=
  let projectedTarget := f64_plus (f64_of_Z (pl_TotalQPS peer)) (mc_qps c) in
  negb (SFltb (f64_mul local (rc_MaxTargetProjectedLoadRatio cfg)) projectedTarget) &&
  negb (SFltb (f64_minus local (without local (mc_qps c))) (rc_MinProjectedLoadReductionQPS cfg)).

(** The first peer that fits, and the peers with its load raised. *)
Fixpoint choose_target (cfg : RebalanceConfig) (local : float64) (c : migrationCandidate) (peers : list PeerLoad)
    : option (PeerLoad * list PeerLoad) :=
  match peers with
  | [] => None
  | p :: ps =>
      if fits cfg local c p then
        Some (p, mkPeerLoad (pl_NodeID p) (pl_Addr p) (u64 (pl_TotalQPS p + f64_to_u64 (mc_qps c))) :: ps)
      else match choose_target cfg local c ps with
           | Some (t, ps') => Some (t, p :: ps')
           | None => None
           end
  end.

Fixpoint plan_loop (cfg : RebalanceConfig) (local : float64) (peers : list PeerLoad) (cs : list migrationCandidate)
    : list migrationPlan :=
  match cs with
  | [] => []
  | c :: cs' =>
      let peers := sort_Slice peer_less peers in
      match choose_target cfg local c peers with
      | None => plan_loop cfg local peers cs'
      | Some (t, peers') => mkPlan (mc_slot c) (mc_score c) (mc_qps c) t :: plan_loop cfg (without local (mc_qps c)) peers' cs'
      end
  end.

(** [totalQPS] is what the detector reports. *)
Definition planMigrations (cfg : RebalanceConfig) (peers : list PeerLoad) (totalQPS : float64) (candidates : list migrationCandidate)
    : list migrationPlan :=
  if bool_decide (candidates = []) || bool_decide (length peers = 0%nat) then []
  else
    let candidates := sort_Slice (λ a b, SFltb (mc_score b) (mc_score a)) candidates in
    let candidates := if rc_MaxMigrationsPerRun cfg <? Z.of_nat (length candidates)
                      then take (Z.to_nat (rc_MaxMigrationsPerRun cfg)) candidates else candidates in
    if SFleb totalQPS f64_zero then [] else plan_loop cfg totalQPS peers candidates.

(** A migration that succeeds puts the slot to rest. *)
Definition run_plan (st : Rebalancer * Cluster) (plan : migrationPlan) : option (Rebalancer * Cluster) :=
  let '(m, c) := st in
  r ← MigrateSlot drain c (mp_slot plan) (pl_NodeID (mp_target plan));
  match r with
  | (inl _, c') => Some (m, c')
  | (inr _, c') =>
      Some (mkRebalancer (rb_cfg m) (delete (mp_slot plan) (rb_sticky m))
              (<[mp_slot plan := rc_CoolDownSlots (rb_cfg m)]> (rb_cooldown m)), c')
  end.

Fixpoint run_plans (st : Rebalancer * Cluster) (plans : list migrationPlan) : option (Rebalancer * Cluster) :=
  match plans with
  | [] => Some st
  | p :: ps => st' ← run_plan st p; run_plans st' ps
  end.

(** The counters after the first part of a tick. *)
Definition count_window (c : Cluster) (hot : list HotSlotInfo) (m : Rebalancer) : Rebalancer :=
  let '(sticky, cooldown, found) := foldl (count_hot c) (rb_sticky m, rb_cooldown m, []) hot in
  mkRebalancer (rb_cfg m) (filter (λ kv, kv.1 ∈ found) sticky) cooldown.

Definition peers_of (c : Cluster) : list PeerLoad := (λ l, mkPeerLoad l.1.1 l.1.2 l.2) <$> GetPeerLoads c.

Definition tick_plans (c : Cluster) (hot : list HotSlotInfo) (totalQPS : float64) (m : Rebalancer) : list migrationPlan :=
  planMigrations (rb_cfg m) (peers_of c) totalQPS (omap (candidate_of (rb_cfg m) (rb_sticky m)) hot).

Definition tick (c : Cluster) (hot : list HotSlotInfo) (totalQPS : float64) (m : Rebalancer) : option (Rebalancer * Cluster) :=
  let m := count_window c hot m in
  run_plans (m, c) (tick_plans c hot totalQPS m).
End rebalance.
