(* ===== verification/RebalanceSpec.v ===== *)
(** * Rebalancing: only slots that stay hot are moved *)

From S2P Require Import Prelude Hash Store Slots SlotsSpec Gossip Replication Cluster ClusterSpec Hotspot Rebalance.
From stdpp Require Import options.

Section proofs.
Context `{!GoRange string GossipNode} `{!SortSlice migrationCandidate} `{!SortSlice PeerLoad}.
Implicit Types (c : Cluster) (hot : list HotSlotInfo) (m : Rebalancer).

(** ** Counting *)

(** The slot is reported, local, and not slot 0, which the manager skips. *)
Definition hot_local c hot (s : Z) : Prop := s ≠ 0 ∧ IsSlotLocal c s = true ∧ s ∈ hi_Slot <$> hot.

Lemma count_hot_fold c hot sticky0 cooldown0 sticky cooldown found :
  NoDup (hi_Slot <$> hot) → foldl (count_hot c) (sticky0, cooldown0, []) hot = (sticky, cooldown, found) →
  ∀ s, (s ∈ found → hot_local c hot s ∧ count_at sticky s = count_at sticky0 s + 1) ∧ (s ∉ found → sticky !! s = sticky0 !! s).
Proof.
  revert sticky cooldown found. induction hot as [|h hot IH] using rev_ind; intros sticky cooldown found Hnd.
  { cbn [foldl]. intros [= <- <- <-] s. split; [by intros ?%not_elem_of_nil|done]. }
  rewrite foldl_app. cbn [foldl]. destruct (foldl _ _ hot) as [[st cd] fd].
  rewrite fmap_app in Hnd. apply NoDup_app in Hnd as (Hnd & Hdis & _). specialize (IH _ _ _ Hnd eq_refl).
  assert (hi_Slot h ∉ hi_Slot <$> hot) as Hh by (intros Hin; apply (Hdis _ Hin); cbn; by left).
  assert (∀ s, hot_local c hot s → hot_local c (hot ++ [h]) s) as Hmono.
  { intros s (H1 & H2 & H3). split_and!; [done|done|]. rewrite fmap_app. by apply elem_of_app; left. }
  unfold count_hot. destruct (Z.eqb_spec (hi_Slot h) 0) as [|Hne].
  { intros [= <- <- <-] s. destruct (IH s) as [H1 H2]. split; [|done]. intros Hs. destruct (H1 Hs). auto. }
  destruct (IsSlotLocal c (hi_Slot h)) eqn:Hl; cbn [negb]; last first.
  { intros [= <- <- <-] s. destruct (IH s) as [H1 H2]. split; [|done]. intros Hs. destruct (H1 Hs). auto. }
  destruct (0 <? count_at cd (hi_Slot h)).
  { intros [= <- <- <-] s. destruct (IH s) as [H1 H2]. split; [|done]. intros Hs. destruct (H1 Hs). auto. }
  intros [= <- <- <-] s. destruct (IH s) as [H1 H2]. destruct (decide (s = hi_Slot h)) as [->|Hs].
  - assert (hi_Slot h ∉ fd) as Hf by (intros Hf; destruct (H1 Hf) as [(_ & _ & ?) _]; done).
    split; [|intros Hn; destruct Hn; by left]. intros _. unfold count_at at 1. rewrite lookup_insert_eq. cbn [default].
    unfold count_at. rewrite (H2 Hf). split; [|done]. split_and!; [done|done|]. rewrite fmap_app. apply elem_of_app. right. by left.
  - unfold count_at at 1. rewrite lookup_insert_ne by done. fold (count_at st s). rewrite elem_of_cons. split.
    + intros [|Hf]; [done|]. destruct (H1 Hf). auto.
    + intros Hf. apply H2. intros ?. apply Hf. by right.
Qed.

Lemma count_window_sticky c hot m s n :
  NoDup (hi_Slot <$> hot) → rb_sticky (count_window c hot m) !! s = Some n →
  hot_local c hot s ∧ n = count_at (rb_sticky m) s + 1.
Proof.
  intros Hnd. unfold count_window. destruct (foldl _ _ hot) as [[st cd] fd] eqn:E. cbn [rb_sticky].
  intros [Hs Hf]%map_lookup_filter_Some. cbn [fst] in Hf.
  destruct (count_hot_fold _ _ _ _ _ _ _ Hnd E s) as [H _]. destruct (H Hf) as [H1 H2]. split; [done|].
  unfold count_at at 1 in H2. by rewrite Hs in H2.
Qed.

Lemma count_window_cfg c hot m : rb_cfg (count_window c hot m) = rb_cfg m.
Proof. unfold count_window. by destruct (foldl _ _ hot) as [[st cd] fd]. Qed.

(** ** Plans *)

Lemma choose_target_ids cfg local cand peers t peers' :
  choose_target cfg local cand peers = Some (t, peers') →
  pl_NodeID t ∈ pl_NodeID <$> peers ∧ pl_NodeID <$> peers' = pl_NodeID <$> peers.
Proof.
  revert peers'. induction peers as [|p peers IH]; intros peers'; [done|]. cbn [choose_target].
  destruct (fits _ _ _ _); [intros [= <- <-]; split; [by left|done]|].
  destruct (choose_target _ _ _ peers) as [[t1 ps]|]; [|done]. intros [= <- <-].
  destruct (IH _ eq_refl) as [H1 H2]. split; [by right|]. cbn [fmap list_fmap]. by f_equal.
Qed.

Lemma plan_loop_sound cfg local peers cs p :
  p ∈ plan_loop cfg local peers cs →
  (∃ cand, cand ∈ cs ∧ mp_slot p = mc_slot cand ∧ mp_score p = mc_score cand) ∧ pl_NodeID (mp_target p) ∈ pl_NodeID <$> peers.
Proof.
  revert local peers. induction cs as [|cand cs IH]; intros local peers; [by intros ?%not_elem_of_nil|]. cbn [plan_loop].
  set (ps := sort_Slice peer_less peers).
  assert (∀ id, id ∈ pl_NodeID <$> ps → id ∈ pl_NodeID <$> peers) as Hps by (intros id; unfold ps; by rewrite sort_Slice_perm).
  destruct (choose_target cfg local cand ps) as [[t ps']|] eqn:E.
  - destruct (choose_target_ids _ _ _ _ _ _ E) as [Ht Hids]. intros [->|Hp]%elem_of_cons.
    + split; [|by apply Hps]. exists cand. split; [by left|done].
    + destruct (IH _ _ Hp) as [(c' & H1 & H2) H3]. rewrite Hids in H3. split; [|by apply Hps].
      exists c'. split; [by right|done].
  - intros Hp. destruct (IH _ _ Hp) as [(c' & H1 & H2) H3]. split; [|by apply Hps]. exists c'. split; [by right|done].
Qed.

Lemma plan_loop_length cfg local peers cs : (length (plan_loop cfg local peers cs) ≤ length cs)%nat.
Proof.
  revert local peers. induction cs as [|cand cs IH]; intros local peers; [done|]. cbn [plan_loop].
  destruct (choose_target _ _ _ _) as [[t ps']|]; [cbn [length]; specialize (IH (without local (mc_qps cand)) ps'); lia|].
  specialize (IH local (sort_Slice peer_less peers)). cbn [length]. lia.
Qed.

Lemma planMigrations_sound cfg peers total cands p :
  p ∈ planMigrations cfg peers total cands →
  (∃ cand, cand ∈ cands ∧ mp_slot p = mc_slot cand ∧ mp_score p = mc_score cand) ∧ pl_NodeID (mp_target p) ∈ pl_NodeID <$> peers.
Proof.
  unfold planMigrations. destruct (bool_decide _ || _); [by intros ?%not_elem_of_nil|]. cbv zeta.
  destruct (SFleb _ _); [by intros ?%not_elem_of_nil|]. intros (( cand & Hc & H) & Ht)%plan_loop_sound. split; [|done].
  exists cand. split; [|done]. destruct (_ <? _); [apply elem_of_take in Hc as (i & Hc & _); apply list_elem_of_lookup_2 in Hc|];
    by rewrite sort_Slice_perm in Hc.
Qed.

Lemma planMigrations_length cfg peers total cands : 0 < rc_MaxMigrationsPerRun cfg →
  Z.of_nat (length (planMigrations cfg peers total cands)) ≤ rc_MaxMigrationsPerRun cfg.
Proof.
  intros Hmax. unfold planMigrations. destruct (bool_decide _ || _); [cbn; lia|]. cbv zeta.
  destruct (SFleb _ _); [cbn; lia|].
  match goal with |- context [plan_loop ?a ?b ?d ?e] => pose proof (plan_loop_length a b d e) as H end.
  destruct (Z.ltb_spec (rc_MaxMigrationsPerRun cfg) (Z.of_nat (length (sort_Slice (λ a b, SFltb (mc_score b) (mc_score a)) cands)))).
  - rewrite length_take in H. lia.
  - lia.
Qed.

(** ** Moves *)

Lemma MigrateSlot_wf drain c slot t r c' :
  valid_slot slot → slots_wf (c_slots c) → MigrateSlot drain c slot t = Some (r, c') → slots_wf (c_slots c').
Proof.
  intros Hv Hwf. assert (is_u16 slot) as Hu by (unfold is_u16, valid_slot, SlotCount in *; lia). unfold MigrateSlot.
  destruct (SetExporting _ _ _) as [sm|] eqn:E1; [|done]. cbn [mbind option_bind].
  destruct (slot_op_keeps _ sm Hwf) as [H1 _]; [by eapply op_exporting|].
  assert (∀ sm', SetStable sm slot = Some sm' → slots_wf sm') as Hst
    by (intros sm' E; apply (slot_op_keeps sm sm' H1); by eapply op_stable).
  case_bool_decide; [|destruct (negb (drain _ _))].
  1,2: destruct (SetStable sm slot) as [sm'|] eqn:E; [|done]; cbn [mbind option_bind]; intros [= <- <-]; by apply Hst.
  destruct (FinishMigration sm slot t) as [sm'|] eqn:E; [|done]. cbn [mbind option_bind]. intros [= <- <-].
  apply (slot_op_keeps sm sm' H1). by eapply op_finish.
Qed.

Lemma run_plans_wf drain m c plans st' :
  Forall (λ p, valid_slot (mp_slot p)) plans → slots_wf (c_slots c) → run_plans drain (m, c) plans = Some st' →
  slots_wf (c_slots st'.2).
Proof.
  revert m c. induction plans as [|p plans IH]; intros m c Hv Hwf; cbn [run_plans]; [by intros [= <-]|].
  apply Forall_cons in Hv as [Hp Hv]. unfold run_plan.
  destruct (MigrateSlot _ _ _ _) as [[[e|u] c1]|] eqn:E; cbn [mbind option_bind]; [..|done]; apply IH; try done;
    by eapply MigrateSlot_wf.
Qed.

Lemma tick_wf drain c hot total m m' c' :
  Forall (λ h, valid_slot (hi_Slot h)) hot → tick drain c hot total m = Some (m', c') → slots_wf (c_slots c) → slots_wf (c_slots c').
Proof.
  intros Hv H Hwf. unfold tick in H. apply (run_plans_wf _ _ _ _ _) in H; [done| |done].
  apply Forall_forall. intros p [(cand & Hc & -> & _) _]%planMigrations_sound.
  apply list_elem_of_omap in Hc as (h & Hh & E). unfold candidate_of in E. repeat case_match; simplify_eq. cbn [mc_slot].
  by apply (proj1 (Forall_forall _ _) Hv).
Qed.

(** ** Runs *)

(** The states the manager reaches, with the ticks behind it, the last first:
    what each tick saw of the cluster and of the detector. A report names no slot
    twice; the cluster may change in any way between ticks. *)
Inductive reached (cfg : RebalanceConfig) : list (Cluster * list HotSlotInfo) → Rebalancer → Prop :=
  | reached_new : reached cfg [] (NewRebalancer cfg)
  | reached_tick hist m drain c hot total m' c' :
      reached cfg hist m → report_ok hot → tick drain c hot total m = Some (m', c') →
      reached cfg ((c, hot) :: hist) m'.

Lemma run_plans_sticky drain st plans st' : run_plans drain st plans = Some st' →
  rb_cfg st'.1 = rb_cfg st.1 ∧ ∀ s n, rb_sticky st'.1 !! s = Some n → rb_sticky st.1 !! s = Some n.
Proof.
  revert st. induction plans as [|p plans IH]; intros [m c]; cbn [run_plans]; [by intros [= <-]|].
  unfold run_plan. destruct (MigrateSlot _ _ _ _) as [[[e|u] c1]|]; cbn [mbind option_bind]; [intros H; exact (IH _ H)| |done].
  intros H. destruct (IH _ H) as [H1 H2]. cbn [fst rb_cfg rb_sticky] in *. split; [done|]. intros s n Hs.
  apply H2, lookup_delete_Some in Hs. by destruct Hs.
Qed.

Lemma reached_cfg cfg hist m : reached cfg hist m → rb_cfg m = normalizeConfig cfg.
Proof.
  induction 1 as [|hist m drain c hot total m' c' _ IH _ Ht]; [done|]. unfold tick in Ht.
  destruct (run_plans_sticky _ _ _ _ Ht) as [H _]. cbn [fst] in H. by rewrite H, count_window_cfg.
Qed.

Lemma reached_sticky cfg hist m s n : reached cfg hist m → rb_sticky m !! s = Some n →
  0 < n ∧ ∀ i, Z.of_nat i < n → ∃ c hot, hist !! i = Some (c, hot) ∧ hot_local c hot s.
Proof.
  intros H. revert n. induction H as [|hist m drain c hot total m' c' _ IH Hnd Ht]; intros n Hs; [done|].
  unfold tick in Ht. destruct (run_plans_sticky _ _ _ _ Ht) as [_ Hk]. apply Hk in Hs. cbn [fst] in Hs.
  destruct (count_window_sticky _ _ _ _ _ (proj1 Hnd) Hs) as [Hh ->]. unfold count_at.
  destruct (rb_sticky m !! s) as [n0|] eqn:E; cbn [default].
  - destruct (IH _ eq_refl) as [Hp Hi]. split; [cbn; lia|]. intros [|i] Hlt; [by exists c, hot|]. apply Hi. cbn in Hlt. lia.
  - split; [done|]. intros [|i] Hlt; [by exists c, hot|cbn in Hlt; lia].
Qed.

(** C39: Whatever happens to the cluster between ticks, a tick plans a move only for
    slots that this and the previous ticks, as many as the configuration asks
    for, reported as hot while they were local, whose score now reaches the
    threshold, and never for slot 0; each goes to one of the peers that the
    gossip knows, and a tick plans no more moves than it may. The moves leave a
    consistent slot table consistent. *)
Theorem rebalance_moves_persistent_hot_slots cfg hist m c hot total :
  reached cfg hist m → report_ok hot →
  let plans := tick_plans c hot total (count_window c hot m) in
  Z.of_nat (length plans) ≤ rc_MaxMigrationsPerRun (normalizeConfig cfg) ∧
  (∀ drain m' c', tick drain c hot total m = Some (m', c') → slots_wf (c_slots c) → slots_wf (c_slots c')) ∧
  ∀ p, p ∈ plans →
    mp_slot p ≠ 0 ∧ pl_NodeID (mp_target p) ∈ pl_NodeID <$> peers_of c ∧
    SFltb (mp_score p) (rc_MinScoreRatio (normalizeConfig cfg)) = false ∧
    ∀ i, Z.of_nat i < rc_MinStickyWindows (normalizeConfig cfg) →
      ∃ c' hot', ((c, hot) :: hist) !! i = Some (c', hot') ∧ hot_local c' hot' (mp_slot p).
Proof.
  intros Hr [Hnd Hval] plans. pose proof (reached_cfg _ _ _ Hr) as Hcfg.
  split_and!; [|intros drain m' c'; by apply tick_wf|]; unfold plans, tick_plans; rewrite count_window_cfg, Hcfg.
  { apply planMigrations_length. cbn [rc_MaxMigrationsPerRun normalizeConfig]. destruct (Z.leb_spec (rc_MaxMigrationsPerRun cfg) 0); lia. }
  intros p Hp. apply planMigrations_sound in Hp as [(cand & Hc & Hslot & Hscore) Ht].
  apply list_elem_of_omap in Hc as (h & Hh & Hcand). unfold candidate_of in Hcand.
  destruct (Z.ltb_spec (count_at (rb_sticky (count_window c hot m)) (hi_Slot h)) (rc_MinStickyWindows (normalizeConfig cfg))) as [|Hmin]; [done|].
  destruct (SFltb (hi_Score h) _) eqn:Hsc; [done|]. injection Hcand as <-. cbn [mc_slot mc_score] in *. rewrite Hslot, Hscore.
  assert (0 < rc_MinStickyWindows (normalizeConfig cfg)) as Hpos.
  { cbn [rc_MinStickyWindows normalizeConfig]. destruct (Z.leb_spec (rc_MinStickyWindows cfg) 0); lia. }
  unfold count_at in Hmin. destruct (rb_sticky (count_window c hot m) !! hi_Slot h) as [n|] eqn:E; cbn [from_option id] in Hmin; [|lia].
  destruct (count_window_sticky _ _ _ _ _ Hnd E) as [Hl ->]. split_and!; [apply Hl|done|done|].
  intros [|i] Hi; [by exists c, hot|]. cbn [lookup list_lookup]. unfold count_at in Hmin.
  destruct (rb_sticky m !! hi_Slot h) as [n|] eqn:E0; cbn [from_option id] in Hmin; [|lia].
  destruct (reached_sticky _ _ _ _ _ Hr E0) as [_ Hprev]. apply Hprev. lia.
Qed.
End proofs.

Section witnesses.
#[local] Instance ranges {K A} `{Countable K} : GoRange K A := listed_range.
#[local] Instance sorts {A} : SortSlice A := insertion_sort.

Let peer (id : string) (port : Z) : GossipNode :=
  mkNode id "10.0.0.1" port (port + 10000) NodeRoleMaster "" NodeStateConnected 0 0 ∅ (mkLoad 0 0 []).

(** Node a, which owns slot 7, with an idle peer b. *)
Let node : Cluster :=
  mkCluster (mkSelf "a" "10.0.0.1" 1 2 NodeRoleMaster "" NodeStateConnected) demo3
    (mkGossip "a" {["a" := peer "a" 1; "b" := peer "b" 2]} ∅ 5) ClusterStateOK (NewManager None) 5 0 ∅.

Let hot : list HotSlotInfo := [mkHot 7 (f64_of_Z 90) (f64_of_Z 10) (f64_of_Z 9) f64_zero].
Let cfg : RebalanceConfig := mkRebalanceConfig 0 1 (f64_of_Z 5) 2 30 (f64_of_Z 1) (f64_of_Z 1).

Lemma rebalance_moves_persistent_hot_slots_witness :
  mp_slot <$> tick_plans node hot (f64_of_Z 100) (count_window node hot (NewRebalancer cfg)) = [7] ∧ hot_local node hot 7.
Proof.
  split; [vm_compute; reflexivity|].
  assert (report_ok hot) as Hok by (split; [apply NoDup_singleton|by repeat constructor]).
  destruct (rebalance_moves_persistent_hot_slots cfg [] (NewRebalancer cfg) node hot (f64_of_Z 100) (reached_new cfg) Hok) as (_ & _ & H).
  destruct (tick_plans node hot (f64_of_Z 100) (count_window node hot (NewRebalancer cfg))) as [|p ps] eqn:E;
    [vm_compute in E; discriminate E|].
  destruct (H p) as (_ & _ & _ & Hi); [by left|]. destruct (Hi 0%nat) as (c' & hot' & [= <- <-] & Hl); [done|].
  vm_compute in E. injection E as <- _. exact Hl.
Defined.
End witnesses.
