(* ===== verification/Engine.v ===== *)
(** * The interface of the command handlers to the store: [engine.go], [adapter.go]

    [ProtocolEngine] is the interface the handlers are written against: one
    method per operation, run on an engine state of any type. [None] is a run
    that does not return. Where Go returns a value beside an error, the value is
    the zero value when there is an error. [MemoryStoreAdapter] implements the
    interface with the memory store. *)

From S2P Require Import Prelude Store Objects Codec.
From stdpp Require Import options.

Definition EM (E A : Type) : Type := E → option (A * E).

Class ProtocolEngine (E : Type) := {
  pe_GetBytes : Env → string → EM E (GoError + list byte);
  pe_Set : Env → string → string → Z → EM E (GoError + unit);
  pe_SetNX : Env → string → string → Z → EM E (GoError + bool);
  pe_SetXX : Env → string → string → Z → EM E (GoError + bool);
  pe_GetSet : Env → string → string → EM E (GoError + string);
  pe_Incr : Env → string → EM E (GoError + Z);
  pe_IncrBy : Env → string → Z → EM E (GoError + Z);
  pe_Decr : Env → string → EM E (GoError + Z);
  pe_DecrBy : Env → string → Z → EM E (GoError + Z);
  pe_Append : Env → string → string → EM E (GoError + Z);
  pe_Strlen : Env → string → EM E (GoError + Z);
  pe_MGetBytes : Env → list string → EM E (GoError + list (option (list byte)));
  pe_MSet : Env → list GoAny → EM E (GoError + unit);
  pe_HGet : Env → string → string → EM E (GoError + string);
  pe_HSet : Env → string → list GoAny → EM E (GoError + Z);
  pe_HDel : Env → string → list string → EM E (GoError + Z);
  pe_HExists : Env → string → string → EM E (GoError + bool);
  pe_HGetAll : Env → string → EM E (GoError + gmap string string);
  pe_HKeys : Env → string → EM E (GoError + list string);
  pe_HVals : Env → string → EM E (GoError + list string);
  pe_HLen : Env → string → EM E (GoError + Z);
  pe_LPush : Env → string → list GoAny → EM E (GoError + Z);
  pe_RPush : Env → string → list GoAny → EM E (GoError + Z);
  pe_LPop : Env → string → EM E (GoError + string);
  pe_RPop : Env → string → EM E (GoError + string);
  pe_LRange : Env → string → Z → Z → EM E (GoError + list string);
  pe_LLen : Env → string → EM E (GoError + Z);
  pe_LIndex : Env → string → Z → EM E (GoError + string);
  pe_LSet : Env → string → Z → string → EM E (GoError + unit);
  pe_LTrim : Env → string → Z → Z → EM E (GoError + unit);
  pe_SAdd : Env → string → list GoAny → EM E (GoError + Z);
  pe_SRem : Env → string → list GoAny → EM E (GoError + Z);
  pe_SMembers : Env → string → EM E (GoError + list string);
  pe_SIsMember : Env → string → string → EM E (GoError + bool);
  pe_SCard : Env → string → EM E (GoError + Z);
  pe_ZAdd : Env → string → list ZMember → EM E (GoError + Z);
  pe_ZRem : Env → string → list string → EM E (GoError + Z);
  pe_ZRange : Env → string → Z → Z → EM E (GoError + list string);
  pe_ZScore : Env → string → string → EM E (GoError + float64);
  pe_ZRank : Env → string → string → EM E (GoError + Z);
  pe_ZCard : Env → string → EM E (GoError + Z);
  pe_Del : Env → list string → EM E (GoError + Z);
  pe_Exists : Env → list string → EM E (GoError + Z);
  pe_Keys : Env → string → EM E (GoError + list string);
  pe_Type : Env → string → EM E (GoError + string);
  pe_Rename : Env → string → string → EM E (GoError + unit);
  pe_Scan : Env → Z → string → Z → EM E (GoError + list string * Z);
  pe_TTL : Env → string → EM E (GoError + Z);
  pe_Expire : Env → string → Z → EM E (GoError + bool);
  pe_ExpireAt : Env → string → Z → EM E (GoError + bool);
  pe_Persist : Env → string → EM E (GoError + bool);
  pe_DBSize : Env → EM E (GoError + Z);
  pe_FlushDB : Env → EM E (GoError + unit);
  pe_GetEntry : Env → string → EM E (GoError + EngineEntry);
  pe_RestoreEntry : Env → string → ValueType → list byte → Z → EM E (GoError + unit);
  pe_GetStats : E → option Stats;
  pe_KeysInSlot : Env → Z → Z → EM E (list string);
  pe_CountKeysInSlot : Env → Z → EM E Z
}.

(** A method of the store that never returns an error. *)
Definition no_error {A} (m : SM A) : SM (GoError + A) := let! a := m in sret (inr a).

Section memory.
Context `{!GoRange Z Z} `{!GoRange string unit} `{!GoRange string (Dict.Entry typedValue)}.
Context `{!GoRange string string} `{!GoRange string float64}.
Context (path_match : string → string → bool) (parse_float : list byte → option float64) (json_error : list byte → string).

Definition MemoryStoreAdapter : ProtocolEngine Store := {|
  pe_GetBytes := Store_GetBytes;
  pe_Set := Store_Set;
  pe_SetNX := Store_SetNX;
  pe_SetXX := Store_SetXX;
  pe_GetSet := Store_GetSet;
  pe_Incr := Store_Incr;
  pe_IncrBy := Store_IncrBy;
  pe_Decr := Store_Decr;
  pe_DecrBy := Store_DecrBy;
  pe_Append := Store_Append;
  pe_Strlen := Store_Strlen;
  pe_MGetBytes env keys := no_error (Store_MGetBytes env keys);
  pe_MSet := Store_MSet;
  pe_HGet := Store_HGet;
  pe_HSet := Store_HSet;
  pe_HDel := Store_HDel;
  pe_HExists := Store_HExists;
  pe_HGetAll := Store_HGetAll;
  pe_HKeys := Store_HKeys;
  pe_HVals := Store_HVals;
  pe_HLen := Store_HLen;
  pe_LPush := Store_LPush;
  pe_RPush := Store_RPush;
  pe_LPop := Store_LPop;
  pe_RPop := Store_RPop;
  pe_LRange := Store_LRange;
  pe_LLen := Store_LLen;
  pe_LIndex := Store_LIndex;
  pe_LSet := Store_LSet;
  pe_LTrim := Store_LTrim;
  pe_SAdd := Store_SAdd;
  pe_SRem := Store_SRem;
  pe_SMembers := Store_SMembers;
  pe_SIsMember := Store_SIsMember;
  pe_SCard := Store_SCard;
  pe_ZAdd := Store_ZAdd;
  pe_ZRem := Store_ZRem;
  pe_ZRange := Store_ZRange;
  pe_ZScore := Store_ZScore;
  pe_ZRank := Store_ZRank;
  pe_ZCard := Store_ZCard;
  pe_Del _ keys := no_error (Store_Del keys);
  pe_Exists env keys := no_error (Store_Exists env keys);
  pe_Keys env pattern := no_error (Store_Keys path_match env pattern);
  pe_Type env key := no_error (Store_Type env key);
  pe_Rename := Store_Rename;
  pe_Scan env cursor pattern count := λ s, r ← Store_Scan path_match env s cursor pattern count; Some (inr r, s);
  pe_TTL env key := no_error (Store_TTL env key);
  pe_Expire env key ttl := no_error (Store_Expire env key ttl);
  pe_ExpireAt env key t := no_error (Store_ExpireAt env key t);
  pe_Persist env key := no_error (Store_Persist env key);
  pe_DBSize _ := no_error Store_DBSize;
  pe_FlushDB _ := no_error Store_FlushDB;
  pe_GetEntry := Store_GetEntry;
  pe_RestoreEntry := Store_RestoreEntry (DecodeSerializedValue parse_float json_error);
  pe_GetStats s := Some (st_stats s);
  pe_KeysInSlot := Store_KeysInSlot;
  pe_CountKeysInSlot := Store_CountKeysInSlot
|}.
End memory.
