(* ===== verification/Handler.v ===== *)
(** * Command handlers: [handler.go], [connstate.go], [server.go], [snapshot.go]

    A command runs on the state of the server and on its connection. The
    connection is modelled by the calls made on it, in order, and by the
    context that carries the ASKING flag; how [redcon] puts a reply on the wire
    is not modelled. A command is atomic at the instant of its [Env]. The
    handlers are written against [ProtocolEngine]. Metrics are not modelled, so
    neither is the wrapper that counts error replies for them. *)

From S2P Require Import Prelude Hash Strconv Wire RingBuf Cache Store Objects Slots Gossip Replication Cluster Protocol Hotspot Engine Codec.
From stdpp Require Import options.

(** ** Replies and connections *)

Inductive Reply :=
  | WString (s : string)
  | WError (s : string)
  | WBulk (b : list byte)
  | WInt (n : Z)
  | WNull
  | WArray (n : Z)
  | WRaw (b : list byte).

(** [cn_context] is the [ConnState] once there is one: its AskingFlag. *)
Record Conn := mkConn { cn_out : list Reply; cn_context : option bool; cn_closed : bool }.

Definition newConn : Conn := mkConn [] None false.

(** ** Errors *)

Inductive HError :=
  | EEngine (e : GoError)
  | ENoop
  | EReplication (slot : Z) (e : ReplicationError)
  | EMessage (s : string).

Definition itoa (z : Z) : string := BytesToString (strconv_FormatInt z).

Definition rb_error_text (e : rb_error) : string :=
  match e with
  | ErrBufferFull => "ring buffer full"
  | ErrInvalidOffset => "invalid offset"
  | ErrEntryTooLarge => "entry too large for buffer"
  end.

Definition GoError_text (e : GoError) : string :=
  match e with
  | ErrWrongType => "WRONGTYPE Operation against a key holding the wrong kind of value"
  | ErrKeyNotFound => "key not found"
  | ErrInvalidArgs => "wrong number of arguments"
  | ErrNotInteger => "value is not an integer or out of range"
  | ErrNotSupported => "operation not supported"
  | ErrRing e => rb_error_text e
  | ErrMessage s => s
  end.

Definition SlotError_text (e : SlotError) : string :=
  match e with
  | ErrInvalidSlot slot => "invalid slot: " +:+ itoa slot
  | ErrSlotNotAssigned slot => "slot " +:+ itoa slot +:+ " not assigned"
  | ErrReplicaNotFound nodeID slot => "replica " +:+ nodeID +:+ " not found for slot " +:+ itoa slot
  | ErrInvalidIDs => "invalid master/replica IDs"
  end.

Definition ReplicationError_text (slot : Z) (e : ReplicationError) : string :=
  match e with
  | ErrOutOfOrder slot got want =>
      "append replication op: slot " +:+ itoa slot +:+ " append out of order: got " +:+ itoa got +:+ " want " +:+ itoa want
  | ErrAllocate e => "allocate lsn for slot " +:+ itoa slot +:+ ": " +:+ SlotError_text e
  | ErrApply => ""
  | ErrStaleEpoch got want => "stale replication epoch: got " +:+ itoa got +:+ " want >= " +:+ itoa want
  end.

Definition HError_text (e : HError) : string :=
  match e with
  | EEngine e => GoError_text e
  | ENoop => "replication noop"
  | EReplication slot e => ReplicationError_text slot e
  | EMessage s => s
  end.

(** ** Snapshots: [persistence/snapshot.go] *)

(** The content of [dump.rdb] and the time of the last save. *)
Record SnapshotWriter := mkSnapshot { sw_file : option (list byte); sw_lastSaveUnix : Z }.

Definition snapshot_line (e : string * list byte) : list byte :=
  let key := StringToBytes e.1 in
  strconv_FormatInt (Z.of_nat (length key)) ++ [x20] ++ key ++ [x20]
    ++ strconv_FormatInt (Z.of_nat (length e.2)) ++ [x20] ++ e.2 ++ [x0a].

(** [io] is the error of the file operations, if one fails: the temporary file
    is only renamed when all succeeded. [saving] is guarded by the mutex that
    [Save] holds, so it is never seen set. *)
Definition SnapshotWriter_Save `{!GoRange string (list byte)} (now : Z) (io : option string)
    (data : gmap string (list byte)) (sw : SnapshotWriter) : option string * SnapshotWriter :=
  match io with
  | Some e => (Some e, sw)
  | None => (None, mkSnapshot (Some (concat (snapshot_line <$> go_range data))) (now / nanosPerSecond))
  end.

(** ** The handler *)

Record Handler (E : Type) := mkHandler {
  h_engine : E;
  h_cluster : option Cluster;
  h_applier : ReplicaApplier;
  h_hotspot : option Detector;
  h_snapshot : option SnapshotWriter;
  h_writeBehind : option (Z * Z);
  h_lastWriteSlot : Z;
  h_lastWriteLSN : Z
}.
Arguments mkHandler {_} _ _ _ _ _ _ _ _.
Arguments h_engine {_} _.
Arguments h_cluster {_} _.
Arguments h_applier {_} _.
Arguments h_hotspot {_} _.
Arguments h_snapshot {_} _.
Arguments h_writeBehind {_} _.
Arguments h_lastWriteSlot {_} _.
Arguments h_lastWriteLSN {_} _.

Definition NewHandler {E} (engine : E) : Handler E := mkHandler engine None NewReplicaApplier None None None 0 0.

(** [SetCluster] sets the cluster handler, the router and [clusterEnabled]. *)
Definition SetCluster {E} (h : Handler E) (c : Cluster) : Handler E :=
  mkHandler (h_engine h) (Some c) (h_applier h) (h_hotspot h) (h_snapshot h) (h_writeBehind h)
    (h_lastWriteSlot h) (h_lastWriteLSN h).

Definition put_engine {E} (h : Handler E) (e : E) : Handler E :=
  mkHandler e (h_cluster h) (h_applier h) (h_hotspot h) (h_snapshot h) (h_writeBehind h)
    (h_lastWriteSlot h) (h_lastWriteLSN h).
Definition put_applier {E} (h : Handler E) (a : ReplicaApplier) : Handler E :=
  mkHandler (h_engine h) (h_cluster h) a (h_hotspot h) (h_snapshot h) (h_writeBehind h)
    (h_lastWriteSlot h) (h_lastWriteLSN h).
Definition put_hotspot {E} (h : Handler E) (d : option Detector) : Handler E :=
  mkHandler (h_engine h) (h_cluster h) (h_applier h) d (h_snapshot h) (h_writeBehind h)
    (h_lastWriteSlot h) (h_lastWriteLSN h).
Definition put_snapshot {E} (h : Handler E) (sw : option SnapshotWriter) : Handler E :=
  mkHandler (h_engine h) (h_cluster h) (h_applier h) (h_hotspot h) sw (h_writeBehind h)
    (h_lastWriteSlot h) (h_lastWriteLSN h).
Definition put_write {E} (h : Handler E) (slot lsn : Z) : Handler E :=
  mkHandler (h_engine h) (h_cluster h) (h_applier h) (h_hotspot h) (h_snapshot h) (h_writeBehind h) slot lsn.

(** ** The monad of the handlers *)

Definition HM (E A : Type) : Type := Handler E → Conn → option (A * Handler E * Conn).

Definition hret {E A} (a : A) : HM E A := λ h c, Some (a, h, c).

Definition hbind {E A B} (m : HM E A) (k : A → HM E B) : HM E B :=
  λ h c, match m h c with None => None | Some (a, h', c') => k a h' c' end.

Notation "'do!' x := m 'in' k" := (hbind m (λ x, k))
  (at level 200, x name, m at level 200, k at level 200) : go_scope.

Definition reply {E} (r : Reply) : HM E unit :=
  λ h c, Some (tt, h, mkConn (cn_out c ++ [r]) (cn_context c) (cn_closed c)).

Fixpoint replies {E} (rs : list Reply) : HM E unit :=
  match rs with
  | [] => hret tt
  | r :: rs' => do! _ := reply r in replies rs'
  end.

(** Run a method of the engine. *)
Definition call {E A} (m : EM E A) : HM E A :=
  λ h c, match m (h_engine h) with None => None | Some (a, e) => Some (a, put_engine h e, c) end.

Definition read_handler {E A} (f : Handler E → A) : HM E A := λ h c, Some (f h, h, c).

(** ** [connstate.go] *)

Definition getConnState {E} : HM E bool :=
  λ h c, let flag := default false (cn_context c) in
         Some (flag, h, mkConn (cn_out c) (Some flag) (cn_closed c)).

Definition set_asking {E} (flag : bool) : HM E unit :=
  λ h c, Some (tt, h, mkConn (cn_out c) (Some flag) (cn_closed c)).

Definition clearAskingFlag {E} : HM E unit :=
  λ h c, Some (tt, h, mkConn (cn_out c) ((λ _, false) <$> cn_context c) (cn_closed c)).

(** ** Shared pieces *)

Definition str (b : list byte) : string := BytesToString b.

Definition wrong_args {E} (name : string) : HM E unit :=
  reply (WError ("ERR wrong number of arguments for '" +:+ name +:+ "' command")).

Definition not_integer {E} : HM E unit := reply (WError "ERR value is not an integer or out of range").

(** [Duration] arithmetic and the times the handlers compute. *)
Definition seconds (n : Z) : Z := i64 (n * nanosPerSecond).
Definition nanosPerMilli : Z := 1000000.
Definition millis (n : Z) : Z := i64 (n * nanosPerMilli).

(** [time.Unix(ts, 0)] adds the seconds from year 1 to 1970 in [int64]. *)
Definition unixToInternal : Z := 62135596800.
Definition time_Unix (ts : Z) : Z := (i64 (ts + unixToInternal) - unixToInternal) * nanosPerSecond.

Definition writeDataError {E} (err : HError) : HM E unit :=
  match err with
  | EEngine ErrWrongType => reply (WRaw RespErrWrongType)
  | EEngine ErrKeyNotFound => reply WNull
  | _ => reply (WError ("ERR " +:+ HError_text err))
  end.

(** Reply to a result, or with its error. *)
Definition result {E A} (r : GoError + A) (ok : A → HM E unit) : HM E unit :=
  match r with inl e => writeDataError (EEngine e) | inr a => ok a end.

Definition bulk_string (s : string) : Reply := WBulk (StringToBytes s).
Definition array_of {E} (rs : list Reply) : HM E unit :=
  do! _ := reply (WArray (Z.of_nat (length rs))) in replies rs.
Definition write_bool {E} (b : bool) : HM E unit := reply (WInt (if b then 1 else 0)).

(** The value of a call whose error is ignored. *)
Definition ignoring {A} (zero : A) (r : GoError + A) : A := match r with inl _ => zero | inr a => a end.

Definition atoi (b : list byte) : option Z := strconv_ParseInt b.

(** [strconv.ParseUint(s, 10, bits)]: no sign, and below [2^bits]. *)
Definition strconv_ParseUint (bits : Z) (b : list byte) : option Z :=
  match b with
  | [] => None
  | _ => n ← parse_digits 0 b; if n <? 2 ^ bits then Some n else None
  end.

Section handler.
Context {E : Type} `{!ProtocolEngine E} `{!GoRange string Z}.
Context (env : Env).

(** [write] is the outcome of writing to a replica's connection. *)
Context (write : Z → list byte → bool).

(** ** Replicated writes *)

Definition engine_error {A} (r : GoError + A) : HError + A := match r with inl e => inl (EEngine e) | inr a => inr a end.

Definition put_replication (c : Cluster) (sm : SlotManager) (m : Manager) : Cluster :=
  mkCluster (c_self c) sm (c_gossip c) (c_state c) m (c_currentEpoch c) (c_myEpoch c) (c_processedFailovers c).

(** [apply] runs on the engine; the coordinator is the replication manager of
    the cluster, whose callbacks [cluster.go] wires to the slot table. *)
Definition applyReplicationWrite {A} (key opType : string) (payload : list byte) (expireAtNs : Z)
    (apply : EM E (HError + A)) : HM E (HError + A) :=
  λ h cn,
    match apply (h_engine h) with
    | None => None
    | Some (r, e) =>
        match h_cluster h with
        | None => Some (r, put_engine h e, cn)
        | Some c =>
            let slot := KeySlot key in
            let ok := match r with inl _ => false | inr _ => true end in
            match ApplyWrite write (Some (replicationTargetsForSlot c)) (λ _ : E, (ok, e))
                    (mkWrite slot opType key payload expireAtNs) (h_engine h) (c_slots c) (c_replication c) with
            | None => None
            | Some (res, e', sm, m) =>
                let h' := SetCluster (put_engine h e') (put_replication c sm m) in
                match res, r with
                | _, inl err => Some (inl err, h', cn)
                | inl err, inr _ => Some (inl (EReplication slot err), h', cn)
                | inr op, inr a => Some (inr a, put_write h' slot (op_LSN op), cn)
                end
            end
        end
    end.

(** A method of the engine as the body of a replicated write. *)
Definition applying {A} (m : EM E (GoError + A)) : EM E (HError + A) :=
  λ e, match m e with None => None | Some (r, e') => Some (engine_error r, e') end.

(** SetNX and SetXX: a refused write is the error [errReplicationNoop]. *)
Definition applying_if (m : EM E (GoError + bool)) : EM E (HError + unit) :=
  λ e, match m e with
       | None => None
       | Some (inl err, e') => Some (inl (EEngine err), e')
       | Some (inr ok, e') => Some (if (ok : bool) then inr tt else inl ENoop, e')
       end.

(** ** The operations a replica receives *)

Definition op_switch (op : Op) : EM E (HError + unit) :=
  let payload := decodeReplicationPayload (op_Payload op) in
  let fail s : EM E (HError + unit) := λ e, Some (inl (EMessage s), e) in
  let run {A} (m : EM E (GoError + A)) : EM E (HError + unit) :=
    λ e, match m e with
         | None => None
         | Some (inl err, e') => Some (inl (EEngine err), e')
         | Some (inr _, e') => Some (inr tt, e')
         end in
  let now := env_now env in
  let opType := op_OpType op in
  if bool_decide (opType = "SET") then
    match payload with
    | [] => fail "invalid SET payload"
    | p0 :: rest =>
        let value := match rest with p1 :: _ => p1 | [] => p0 end in
        let ttl := if 0 <? op_ExpireAtNs op then Z.max 0 (time_Until now (op_ExpireAtNs op)) else 0 in
        run (pe_Set env (op_Key op) value ttl)
    end
  else if bool_decide (opType = "MSET") then
    if bool_decide (payload = []) || negb (Nat.even (length payload)) then fail "invalid MSET payload"
    else run (pe_MSet env (AStr <$> payload))
  else if bool_decide (opType = "HSET") then
    if (length payload <? 3)%nat || Nat.even (length payload) then fail "invalid HSET payload"
    else run (pe_HSet env (op_Key op) (AStr <$> tail payload))
  else if bool_decide (opType = "DEL") then
    if bool_decide (payload = []) then fail "invalid DEL payload" else run (pe_Del env payload)
  else if bool_decide (opType = "RENAME") then
    match payload with
    | [k; k'] => run (pe_Rename env k k')
    | _ => fail "invalid RENAME payload"
    end
  else if bool_decide (opType ∈ ["EXPIRE"; "PEXPIRE"; "EXPIREAT"]) then
    if op_ExpireAtNs op <=? 0 then fail "invalid expire timestamp"
    else run (pe_ExpireAt env (op_Key op) (op_ExpireAtNs op))
  else if bool_decide (opType = "PERSIST") then run (pe_Persist env (op_Key op))
  else fail ("unsupported replication op type: " +:+ opType).

Definition applyIncomingReplicationOp (op : Op) : HM E (HError + unit) :=
  λ h cn,
    match Begin (h_applier h) op with
    | inl err => Some (inl (EReplication (op_Slot op) err), h, cn)
    | inr true => Some (inr tt, h, cn)
    | inr false =>
        match op_switch op (h_engine h) with
        | None => None
        | Some (inl err, e) => Some (inl err, put_engine h e, cn)
        | Some (inr _, e) =>
            let h' := put_engine h e in
            Some (inr tt, put_applier h' (Commit (h_applier h') op), cn)
        end
    end.

(** ** Connection commands *)

Definition cmdPing (args : list (list byte)) : HM E unit :=
  match args with [] => reply (WString "PONG") | a :: _ => reply (WBulk a) end.

Definition cmdEcho (args : list (list byte)) : HM E unit :=
  match args with [a] => reply (WBulk a) | _ => wrong_args "echo" end.

Definition cmdQuit : HM E unit :=
  do! _ := reply (WString "OK") in
  λ h c, Some (tt, h, mkConn (cn_out c) (cn_context c) true).

Definition cmdCommand (args : list (list byte)) : HM E unit := reply (WArray 0).

Definition text_line (name : string) (n : Z) : list byte :=
  StringToBytes name ++ strconv_FormatInt n ++ crlf.

Definition cmdInfo : HM E unit :=
  do! stats := read_handler (λ h, pe_GetStats (h_engine h)) in
  do! size := call (pe_DBSize env) in
  do! sw := read_handler h_snapshot in
  do! wb := read_handler h_writeBehind in
  do! cluster := read_handler h_cluster in
  let totalOps := match stats with Some s => i64 (ss_GetOps s + ss_SetOps s + ss_DelOps s) | None => 0 end in
  let header s := crlf ++ StringToBytes s ++ crlf in
  let persistence :=
    match sw, wb with
    | None, None => []
    | _, _ =>
        header "# Persistence" ++ StringToBytes "loading:0" ++ crlf
        ++ match sw with Some s => text_line "rdb_last_save_time:" (sw_lastSaveUnix s) | None => [] end
        ++ match wb with
           | Some (flushed, dropped) =>
               text_line "writebehind_flushed:" flushed ++ text_line "writebehind_dropped:" dropped
           | None => []
           end
    end in
  reply (WBulk (StringToBytes "# Server" ++ crlf ++ StringToBytes "autocache_version:0.1.0" ++ crlf
    ++ header "# Stats" ++ StringToBytes "total_connections_received:0" ++ crlf
    ++ text_line "total_commands_processed:" totalOps
    ++ header "# Keyspace" ++ StringToBytes "db0:keys=" ++ strconv_FormatInt (ignoring 0 size)
    ++ StringToBytes ",expires=0" ++ crlf ++ persistence
    ++ match cluster with Some _ => header "# Cluster" ++ StringToBytes "cluster_enabled:1" ++ crlf | None => [] end)).

(** ** String commands *)

Definition cmdGet (args : list (list byte)) : HM E unit :=
  match args with
  | [k] => do! r := call (pe_GetBytes env (str k)) in result r (λ v, reply (WBulk v))
  | _ => wrong_args "get"
  end.

(** The options of SET, left to right. *)
Record set_options := mkSetOptions { so_ttl : Z; so_nx : bool; so_xx : bool }.

Fixpoint parse_set_options (args : list (list byte)) (o : set_options) : string + set_options :=
  match args with
  | [] => inr o
  | a :: args' =>
      let opt := strings_ToUpper a in
      let unit_of := if bool_decide (opt = "EX") then Some seconds
                     else if bool_decide (opt = "PX") then Some millis else None in
      match unit_of with
      | Some unit_of =>
          match args' with
          | [] => inl "ERR syntax error"
          | n :: args'' =>
              match strconv_ParseInt n with
              | None => inl "ERR value is not an integer or out of range"
              | Some v => parse_set_options args'' (mkSetOptions (unit_of v) (so_nx o) (so_xx o))
              end
          end
      | None =>
          if bool_decide (opt = "NX") then parse_set_options args' (mkSetOptions (so_ttl o) true (so_xx o))
          else if bool_decide (opt = "XX") then parse_set_options args' (mkSetOptions (so_ttl o) (so_nx o) true)
          else parse_set_options args' o
      end
  end.

Definition cmdSet (args : list (list byte)) : HM E unit :=
  match args with
  | k :: v :: opts =>
      match parse_set_options opts (mkSetOptions 0 false false) with
      | inl msg => reply (WError msg)
      | inr (mkSetOptions ttl nx xx) =>
          if nx && xx then reply (WError "ERR XX and NX options at the same time are not compatible")
          else
            let expireAtNs := if 0 <? ttl then i64 (env_now env + ttl) else 0 in
            do! r := applyReplicationWrite (str k) "SET" (encodeReplicationPayload args) expireAtNs
                       (if nx then applying_if (pe_SetNX env (str k) (str v) ttl)
                        else if xx then applying_if (pe_SetXX env (str k) (str v) ttl)
                        else applying (pe_Set env (str k) (str v) ttl)) in
            match r with
            | inl ENoop => reply WNull
            | inl err => writeDataError err
            | inr _ => reply (WString "OK")
            end
      end
  | _ => wrong_args "set"
  end.

Definition cmdSetNX (args : list (list byte)) : HM E unit :=
  match args with
  | [k; v] => do! r := call (pe_SetNX env (str k) (str v) 0) in write_bool (ignoring false r)
  | _ => wrong_args "setnx"
  end.

Definition set_with (name : string) (unit_of : Z → Z) (args : list (list byte)) : HM E unit :=
  match args with
  | [k; n; v] =>
      match strconv_ParseInt n with
      | None => not_integer
      | Some n => do! _ := call (pe_Set env (str k) (str v) (unit_of n)) in reply (WString "OK")
      end
  | _ => wrong_args name
  end.

Definition cmdSetEX := set_with "setex" seconds.
Definition cmdPSetEX := set_with "psetex" millis.

Definition cmdMGet (args : list (list byte)) : HM E unit :=
  match args with
  | [] => wrong_args "mget"
  | _ =>
      do! r := call (pe_MGetBytes env (str <$> args)) in
      array_of ((λ v, match v with None => WNull | Some b => WBulk b end) <$> ignoring [] r)
  end.

Definition cmdMSet (args : list (list byte)) : HM E unit :=
  if (length args <? 2)%nat || negb (Nat.even (length args)) then wrong_args "mset"
  else
    do! r := applyReplicationWrite (str (default [] (head args))) "MSET" (encodeReplicationPayload args) 0
               (applying (pe_MSet env ((λ a, AStr (str a)) <$> args))) in
    match r with inl err => writeDataError err | inr _ => reply (WString "OK") end.

Definition incr_by (name : string) (m : string → Z → EM E (GoError + Z)) (args : list (list byte)) : HM E unit :=
  match args with
  | [k; d] =>
      match strconv_ParseInt d with
      | None => not_integer
      | Some d => do! r := call (m (str k) d) in result r (λ v, reply (WInt v))
      end
  | _ => wrong_args name
  end.

(** A command with one key and an integer result. *)
Definition int_of_key (name : string) (m : string → EM E (GoError + Z)) (args : list (list byte)) : HM E unit :=
  match args with
  | [k] => do! r := call (m (str k)) in result r (λ v, reply (WInt v))
  | _ => wrong_args name
  end.

Definition cmdIncr := int_of_key "incr" (pe_Incr env).
Definition cmdDecr := int_of_key "decr" (pe_Decr env).
Definition cmdIncrBy := incr_by "incrby" (pe_IncrBy env).
Definition cmdDecrBy := incr_by "decrby" (pe_DecrBy env).
Definition cmdStrlen := int_of_key "strlen" (pe_Strlen env).

Definition cmdAppend (args : list (list byte)) : HM E unit :=
  match args with
  | [k; v] => do! r := call (pe_Append env (str k) (str v)) in result r (λ n, reply (WInt n))
  | _ => wrong_args "append"
  end.

Definition cmdGetSet (args : list (list byte)) : HM E unit :=
  match args with
  | [k; v] =>
      do! r := call (pe_GetSet env (str k) (str v)) in
      result r (λ old, if bool_decide (old = "") then reply WNull else reply (bulk_string old))
  | _ => wrong_args "getset"
  end.

(** ** Hash commands *)

(** A command with a key and one more argument. *)
Definition with_arg {A} (name : string) (m : string → string → EM E (GoError + A)) (ok : A → HM E unit)
    (args : list (list byte)) : HM E unit :=
  match args with
  | [k; f] => do! r := call (m (str k) (str f)) in result r ok
  | _ => wrong_args name
  end.

(** A command with a key and at least one more argument, and an integer result. *)
Definition with_args (name : string) (m : string → list string → EM E (GoError + Z)) (args : list (list byte)) : HM E unit :=
  match args with
  | k :: ((_ :: _) as rest) => do! r := call (m (str k) (str <$> rest)) in result r (λ n, reply (WInt n))
  | _ => wrong_args name
  end.

(** A command with one key whose result is a list of strings. *)
Definition list_of_key (name : string) (m : string → EM E (GoError + list string)) (args : list (list byte)) : HM E unit :=
  match args with
  | [k] => do! r := call (m (str k)) in result r (λ l, array_of (bulk_string <$> l))
  | _ => wrong_args name
  end.

Definition cmdHGet := with_arg "hget" (pe_HGet env) (λ v, reply (bulk_string v)).

Definition cmdHSet (args : list (list byte)) : HM E unit :=
  if (length args <? 3)%nat || Nat.even (length args) then wrong_args "hset"
  else
    let key := str (default [] (head args)) in
    do! r := applyReplicationWrite key "HSET" (encodeReplicationPayload args) 0
               (applying (pe_HSet env key ((λ a, AStr (str a)) <$> tail args))) in
    match r with inl err => writeDataError err | inr added => reply (WInt added) end.

Definition cmdHDel := with_args "hdel" (pe_HDel env).
Definition cmdHExists := with_arg "hexists" (pe_HExists env) write_bool.

Definition cmdHGetAll `{!GoRange string string} (args : list (list byte)) : HM E unit :=
  match args with
  | [k] =>
      do! r := call (pe_HGetAll env (str k)) in
      result r (λ values,
        let keys := sort_strings (go_range values).*1 in
        do! _ := reply (WArray (Z.of_nat (length keys) * 2)) in
        replies (keys ≫= λ field, [bulk_string field; bulk_string (default "" (values !! field))]))
  | _ => wrong_args "hgetall"
  end.

Definition cmdHKeys := list_of_key "hkeys" (pe_HKeys env).
Definition cmdHVals := list_of_key "hvals" (pe_HVals env).
Definition cmdHLen := int_of_key "hlen" (pe_HLen env).

(** ** List commands *)

Definition cmdPushList (left : bool) (args : list (list byte)) : HM E unit :=
  match args with
  | k :: ((_ :: _) as rest) =>
      let values := (λ a, AStr (str a)) <$> rest in
      do! r := call (if left then pe_LPush env (str k) values else pe_RPush env (str k) values) in
      result r (λ n, reply (WInt n))
  | _ => reply (WError "ERR wrong number of arguments for list push command")
  end.

Definition cmdLPush := cmdPushList true.
Definition cmdRPush := cmdPushList false.

Definition cmdPopList (left : bool) (args : list (list byte)) : HM E unit :=
  match args with
  | [k] =>
      do! r := call (if left then pe_LPop env (str k) else pe_RPop env (str k)) in
      result r (λ v, reply (bulk_string v))
  | _ => reply (WError "ERR wrong number of arguments for list pop command")
  end.

Definition cmdLPop := cmdPopList true.
Definition cmdRPop := cmdPopList false.

(** A command with a key and a range of two integers. *)
Definition with_range {A} (name : string) (m : string → Z → Z → EM E (GoError + A)) (ok : A → HM E unit)
    (args : list (list byte)) : HM E unit :=
  match args with
  | [k; a; b] =>
      match strconv_ParseInt a with
      | None => not_integer
      | Some start =>
          match strconv_ParseInt b with
          | None => not_integer
          | Some stop => do! r := call (m (str k) start stop) in result r ok
          end
      end
  | _ => wrong_args name
  end.

Definition cmdLRange := with_range "lrange" (pe_LRange env) (λ l, array_of (bulk_string <$> l)).
Definition cmdLTrim := with_range "ltrim" (pe_LTrim env) (λ _, reply (WString "OK")).
Definition cmdLLen := int_of_key "llen" (pe_LLen env).

Definition cmdLIndex (args : list (list byte)) : HM E unit :=
  match args with
  | [k; i] =>
      match strconv_ParseInt i with
      | None => not_integer
      | Some index => do! r := call (pe_LIndex env (str k) index) in result r (λ v, reply (bulk_string v))
      end
  | _ => wrong_args "lindex"
  end.

Definition cmdLSet (args : list (list byte)) : HM E unit :=
  match args with
  | [k; i; v] =>
      match strconv_ParseInt i with
      | None => not_integer
      | Some index => do! r := call (pe_LSet env (str k) index (str v)) in result r (λ _, reply (WString "OK"))
      end
  | _ => wrong_args "lset"
  end.

(** ** Set commands *)

Definition cmdSAdd := with_args "sadd" (λ k ms, pe_SAdd env k (AStr <$> ms)).
Definition cmdSRem := with_args "srem" (λ k ms, pe_SRem env k (AStr <$> ms)).
Definition cmdSMembers := list_of_key "smembers" (pe_SMembers env).
Definition cmdSIsMember := with_arg "sismember" (pe_SIsMember env) write_bool.
Definition cmdSCard := int_of_key "scard" (pe_SCard env).

(** ** Sorted set commands *)

Section floats.
(** [strconv.ParseFloat] and [strconv.FormatFloat]. *)
Context (parse_float : list byte → option float64) (format_float : float64 → string).

Fixpoint parse_scores (args : list (list byte)) : option (list ZMember) :=
  match args with
  | [] => Some []
  | s :: m :: args' =>
      score ← parse_float s; rest ← parse_scores args'; Some (mkZMember score (str m) :: rest)
  | [_] => None
  end.

Definition cmdZAdd (args : list (list byte)) : HM E unit :=
  if (length args <? 3)%nat || Nat.even (length args) then wrong_args "zadd"
  else
    match parse_scores (tail args) with
    | None => reply (WError "ERR value is not a valid float")
    | Some members =>
        do! r := call (pe_ZAdd env (str (default [] (head args))) members) in
        result r (λ n, reply (WInt n))
    end.

Definition cmdZScore := with_arg "zscore" (pe_ZScore env) (λ score, reply (bulk_string (format_float score))).
End floats.

Definition cmdZRem := with_args "zrem" (pe_ZRem env).
Definition cmdZRange := with_range "zrange" (pe_ZRange env) (λ l, array_of (bulk_string <$> l)).
Definition cmdZRank := with_arg "zrank" (pe_ZRank env) (λ n, reply (WInt n)).
Definition cmdZCard := int_of_key "zcard" (pe_ZCard env).

(** ** Key commands *)

Definition cmdDel (args : list (list byte)) : HM E unit :=
  match args with
  | [] => wrong_args "del"
  | k :: _ =>
      do! r := applyReplicationWrite (str k) "DEL" (encodeReplicationPayload args) 0
                 (applying (pe_Del env (str <$> args))) in
      match r with inl err => writeDataError err | inr count => reply (WInt count) end
  end.

Definition cmdExists (args : list (list byte)) : HM E unit :=
  match args with
  | [] => wrong_args "exists"
  | _ => do! r := call (pe_Exists env (str <$> args)) in reply (WInt (ignoring 0 r))
  end.

Definition cmdKeys (args : list (list byte)) : HM E unit :=
  match args with
  | [p] => do! r := call (pe_Keys env (str p)) in array_of (bulk_string <$> ignoring [] r)
  | _ => wrong_args "keys"
  end.

Definition cmdType (args : list (list byte)) : HM E unit :=
  match args with
  | [k] => do! r := call (pe_Type env (str k)) in reply (WString (ignoring "" r))
  | _ => wrong_args "type"
  end.

Definition cmdRename (args : list (list byte)) : HM E unit :=
  match args with
  | [k; k'] =>
      do! r := applyReplicationWrite (str k) "RENAME" (encodeReplicationPayload args) 0
                 (applying (pe_Rename env (str k) (str k'))) in
      match r with inl err => reply (WError ("ERR " +:+ HError_text err)) | inr _ => reply (WString "OK") end
  | _ => wrong_args "rename"
  end.

Definition cmdDBSize : HM E unit := do! r := call (pe_DBSize env) in reply (WInt (ignoring 0 r)).
Definition cmdFlushDB : HM E unit := do! _ := call (pe_FlushDB env) in reply (WString "OK").

(** ** Expiry commands *)

Definition replicated_bool (opType : string) (args : list (list byte)) (k : list byte) (expireAtNs : Z)
    (m : EM E (GoError + bool)) : HM E unit :=
  do! r := applyReplicationWrite (str k) opType (encodeReplicationPayload args) expireAtNs (applying m) in
  match r with inl err => writeDataError err | inr ok => write_bool ok end.

Definition expire_in (name opType : string) (unit_of : Z → Z) (args : list (list byte)) : HM E unit :=
  match args with
  | [k; n] =>
      match strconv_ParseInt n with
      | None => not_integer
      | Some n =>
          replicated_bool opType args k (i64 (env_now env + unit_of n)) (pe_Expire env (str k) (unit_of n))
      end
  | _ => wrong_args name
  end.

Definition cmdExpire := expire_in "expire" "EXPIRE" seconds.
Definition cmdPExpire := expire_in "pexpire" "PEXPIRE" millis.

Definition cmdExpireAt (args : list (list byte)) : HM E unit :=
  match args with
  | [k; n] =>
      match strconv_ParseInt n with
      | None => not_integer
      | Some ts => replicated_bool "EXPIREAT" args k (i64 (ts * nanosPerSecond)) (pe_ExpireAt env (str k) (time_Unix ts))
      end
  | _ => wrong_args "expireat"
  end.

(** Go's division truncates towards zero. *)
Definition ttl_in (name : string) (unit_ns : Z) (args : list (list byte)) : HM E unit :=
  match args with
  | [k] => do! r := call (pe_TTL env (str k)) in reply (WInt (Z.quot (ignoring 0 r) unit_ns))
  | _ => wrong_args name
  end.

Definition cmdTTL := ttl_in "ttl" nanosPerSecond.
Definition cmdPTTL := ttl_in "pttl" nanosPerMilli.

Definition cmdPersist (args : list (list byte)) : HM E unit :=
  match args with
  | [k] => replicated_bool "PERSIST" args k 0 (pe_Persist env (str k))
  | _ => wrong_args "persist"
  end.

(** ** Administration *)

Definition cmdDebug : HM E unit := reply (WString "OK").

Definition cmdConfig (args : list (list byte)) : HM E unit :=
  match args with
  | [] => wrong_args "config"
  | a :: _ =>
      let subcmd := strings_ToUpper a in
      if bool_decide (subcmd = "GET") then reply (WArray 0)
      else if bool_decide (subcmd = "SET") then reply (WString "OK")
      else reply (WError "ERR unknown subcommand")
  end.

Definition cmdClient (args : list (list byte)) : HM E unit :=
  match args with
  | [] => wrong_args "client"
  | a :: _ =>
      let subcmd := strings_ToUpper a in
      if bool_decide (subcmd = "GETNAME") then reply WNull
      else if bool_decide (subcmd = "LIST") then reply (WBulk [])
      else reply (WString "OK")
  end.

Definition cmdAsking : HM E unit :=
  do! _ := getConnState in do! _ := set_asking true in reply (WString "OK").

Definition cmdRegReplica (args : list (list byte)) : HM E unit :=
  match args with [_] => reply (WString "OK") | _ => wrong_args "regreplica" end.

(** ** Persistence *)

Section persistence.
Context `{!GoRange string (list byte)} (serialize : EngineEntry → GoError + list byte).

(** The error of the file operations of a save, if one fails. *)
Context (io : option string).

Fixpoint collect_entries (keys : list string) (acc : gmap string (list byte)) : HM E (gmap string (list byte)) :=
  match keys with
  | [] => hret acc
  | key :: keys' =>
      do! r := call (pe_GetEntry env key) in
      collect_entries keys'
        (match r with
         | inl _ => acc
         | inr entry => match serialize entry with inl _ => acc | inr b => <[key := b]> acc end
         end)
  end.

(** The callback that BGSAVE and SAVE pass to the snapshot writer. *)
Definition snapshot_data : HM E (GoError + gmap string (list byte)) :=
  do! r := call (pe_Keys env "*") in
  match r with
  | inl e => hret (inl e)
  | inr keys => do! data := collect_entries keys ∅ in hret (inr data)
  end.

Definition run_save (sw : SnapshotWriter) : HM E (option string) :=
  do! r := snapshot_data in
  match r with
  | inl e => hret (Some ("iterate: " +:+ GoError_text e))
  | inr data =>
      let '(err, sw') := SnapshotWriter_Save (env_now env) io data sw in
      do! _ := (λ h c, Some (tt, put_snapshot h (Some sw'), c)) in hret err
  end.

Definition cmdSave (args : list (list byte)) : HM E unit :=
  match args with
  | _ :: _ => wrong_args "save"
  | [] =>
      do! sw := read_handler h_snapshot in
      match sw with
      | None => reply (WError "ERR persistence not configured")
      | Some sw =>
          do! err := run_save sw in
          match err with Some e => reply (WError ("ERR " +:+ e)) | None => reply (WString "OK") end
      end
  end.

(** The background save runs after the reply, at an instant of its own: here,
    before any other command. *)
Definition cmdBGSAVE (args : list (list byte)) : HM E unit :=
  match args with
  | _ :: _ => wrong_args "bgsave"
  | [] =>
      do! sw := read_handler h_snapshot in
      match sw with
      | None => reply (WError "ERR persistence not configured")
      | Some sw => do! _ := reply (WString "Background saving started") in do! _ := run_save sw in hret tt
      end
  end.
End persistence.

Definition cmdLastSave (args : list (list byte)) : HM E unit :=
  match args with
  | _ :: _ => wrong_args "lastsave"
  | [] => do! sw := read_handler h_snapshot in
          reply (WInt (match sw with None => 0 | Some s => sw_lastSaveUnix s end))
  end.

(** ** Moving keys *)

(** [engine.ValueType(serialized[0])]. *)
Definition value_type (z : Z) : ValueType :=
  if z =? 0 then TypeString else if z =? 1 then TypeList else if z =? 2 then TypeSet
  else if z =? 3 then TypeZSet else if z =? 4 then TypeHash else TypeUnknown z.

Definition has_option (name : string) (opts : list (list byte)) : bool :=
  existsb (λ o, bool_decide (strings_ToUpper o = name)) opts.

Definition cmdRestore (args : list (list byte)) : HM E unit :=
  match args with
  | k :: t :: serialized :: opts =>
      match strconv_ParseInt t with
      | None => reply (WError "ERR invalid TTL value")
      | Some ttlMs =>
          let key := str k in
          let replace := has_option "REPLACE" opts in
          do! busy := (if replace then hret false
                       else do! r := call (pe_Exists env [key]) in hret (0 <? ignoring 0 r)) in
          if (busy : bool) then reply (WError "BUSYKEY Target key name already exists.")
          else
            match serialized with
            | [] => reply (WError "ERR invalid serialized value")
            | ty :: valueData =>
                let ttl := if 0 <? ttlMs then millis ttlMs else 0 in
                do! r := call (pe_RestoreEntry env key (value_type (Z_of_byte ty)) valueData ttl) in
                match r with
                | inl e => reply (WError ("ERR " +:+ GoError_text e))
                | inr _ => reply (WString "OK")
                end
            end
      end
  | _ => wrong_args "restore"
  end.

Record migrateItem := mkItem { mi_key : string; mi_ttlMs : Z; mi_serialized : list byte }.

Record migrate_options := mkMigrateOptions { mo_copy : bool; mo_replace : bool; mo_keys : option (list string) }.

(** Everything after KEYS is a key. *)
Fixpoint parse_migrate_options (args : list (list byte)) (o : migrate_options) : migrate_options :=
  match args with
  | [] => o
  | a :: args' =>
      let opt := strings_ToUpper a in
      if bool_decide (opt = "COPY") then parse_migrate_options args' (mkMigrateOptions true (mo_replace o) (mo_keys o))
      else if bool_decide (opt = "REPLACE") then parse_migrate_options args' (mkMigrateOptions (mo_copy o) true (mo_keys o))
      else if bool_decide (opt = "KEYS") then mkMigrateOptions (mo_copy o) (mo_replace o) (Some (str <$> args'))
      else parse_migrate_options args' o
  end.

(** [strings.TrimSpace]. *)
Definition space_rune (r : rune) : bool :=
  match r with
  | Rune bs => bool_decide (bs ∈ [[x09]; [x0a]; [x0b]; [x0c]; [x0d]; [x20]; [xc2; x85]; [xc2; xa0]; [xe1; x9a; x80];
                                  [xe2; x80; xa8]; [xe2; x80; xa9]; [xe2; x80; xaf]; [xe2; x81; x9f]; [xe3; x80; x80]])
               || match bs with [xe2; x80; b] => within 0x80 0x8A b | _ => false end
  | BadByte _ => false
  end.

Fixpoint drop_spaces (rs : list rune) : list rune :=
  match rs with r :: rs' => if space_rune r then drop_spaces rs' else rs | [] => [] end.

Definition TrimSpace (s : list byte) : list byte :=
  concat ((λ r, match r with Rune bs => bs | BadByte b => [b] end) <$> rev (drop_spaces (rev (drop_spaces (runes s))))).

(** [strings.Contains] *)
Fixpoint strings_Contains (s sub : string) : bool :=
  String.prefix sub s || match s with EmptyString => false | String.String _ s' => strings_Contains s' sub end.

(** What one exchange with the target of MIGRATE meets: the errors of dialing,
    of setting the deadline and of writing, and what a read returns, after
    ASKING and after a RESTORE command. *)
Record migrate_target := mkTarget {
  mt_dial : option string;
  mt_deadline : option string;
  mt_write_asking : option string;
  mt_asking : string + list byte;
  mt_write_restore : option string;
  mt_restore : list byte → string + list byte
}.

Definition bulk_text (b : list byte) : list byte :=
  [x24] ++ strconv_FormatInt (Z.of_nat (length b)) ++ crlf ++ b ++ crlf.

Definition restore_command (replace : bool) (item : migrateItem) : list byte :=
  StringToBytes (if replace then "*5" else "*4") ++ crlf ++ bulk_text (StringToBytes "RESTORE")
    ++ bulk_text (StringToBytes (mi_key item)) ++ bulk_text (strconv_FormatInt (mi_ttlMs item)) ++ bulk_text (mi_serialized item)
    ++ (if replace then bulk_text (StringToBytes "REPLACE") else []).

Definition ok_text : list byte := StringToBytes "+OK" ++ crlf.

(** An error message, empty on success, and whether to try again. *)
Definition migrateOnce (t : migrate_target) (replace : bool) (item : migrateItem) : string * bool :=
  match mt_dial t with
  | Some e => ("IOERR error or timeout connecting to the target instance: " +:+ e, true)
  | None =>
  match mt_deadline t with
  | Some e => ("IOERR error setting target deadline: " +:+ e, true)
  | None =>
  match mt_write_asking t with
  | Some e => ("IOERR error writing to target: " +:+ e, true)
  | None =>
  match mt_asking t with
  | inl e => ("IOERR error reading from target: " +:+ e, true)
  | inr answer =>
  if negb (bool_decide (answer = ok_text)) then ("ERR target node returned error on ASKING: " +:+ str answer, false)
  else
  match mt_write_restore t with
  | Some e => ("IOERR error writing RESTORE to target: " +:+ e, true)
  | None =>
  match mt_restore t (restore_command replace item) with
  | inl e => ("IOERR error reading RESTORE response: " +:+ e, true)
  | inr response =>
      if bool_decide (response = ok_text) then ("", false)
      else ("ERR target node returned error: " +:+ str (TrimSpace response), false)
  end end end end end end.

Section migrate.
Context (serialize : EngineEntry → GoError + list byte).

(** The target as it is when item [idx] is tried for the [attempt]th time. *)
Context (target : nat → nat → migrate_target).

(** The outcome for one key: move it, skip it, or end the command with a reply. *)
Definition migrate_item (keysMode : bool) (key : string) : HM E (Reply + option migrateItem) :=
  do! r := call (pe_GetEntry env key) in
  hret match r with
  | inl _ => if keysMode then inr None else inl (WError "ERR no such key")
  | inr entry =>
      let ttlMs := match ee_ExpireAt entry with
                   | None => 0
                   | Some t => Z.quot (time_Until (env_now env) t) nanosPerMilli
                   end in
      if ttlMs <? 0 then if keysMode then inr None else inl (WString "NOKEY")
      else match serialize entry with
           | inl _ => inl (WError "ERR unsupported value type for migration")
           | inr b => inr (Some (mkItem key ttlMs b))
           end
  end.

Fixpoint migrate_items (keysMode : bool) (keys : list string) : HM E (Reply + list migrateItem) :=
  match keys with
  | [] => hret (inr [])
  | key :: keys' =>
      do! r := migrate_item keysMode key in
      match r with
      | inl rep => hret (inl rep)
      | inr item =>
          do! rest := migrate_items keysMode keys' in
          hret match rest with inl rep => inl rep | inr items => inr (option_list item ++ items) end
      end
  end.

(** Four attempts, the first three followed by a pause when they may be
    repeated. *)
Fixpoint migrateWithRetry (fuel : nat) (idx attempt : nat) (replace : bool) (item : migrateItem) : option string :=
  match fuel with
  | O => None
  | S fuel' =>
      let '(msg, retry) := migrateOnce (target idx attempt) replace item in
      if bool_decide (msg = "") then None
      else if negb retry || (attempt =? 3)%nat then Some msg
      else migrateWithRetry fuel' idx (S attempt) replace item
  end.

Fixpoint migrate_send (idx : nat) (copy replace : bool) (items : list migrateItem) : HM E unit :=
  match items with
  | [] => reply (WString "OK")
  | item :: items' =>
      match migrateWithRetry 4 idx 0 replace item with
      | Some msg => reply (WError msg)
      | None =>
          if copy then migrate_send (S idx) copy replace items'
          else do! _ := call (pe_Del env [mi_key item]) in migrate_send (S idx) copy replace items'
      end
  end.

Definition cmdMigrate (args : list (list byte)) : HM E unit :=
  match args with
  | host :: port :: k :: db :: t :: opts =>
      match strconv_ParseInt db with
      | None => reply (WError "ERR invalid DB index")
      | Some db =>
          do! cluster := read_handler h_cluster in
          if bool_decide (is_Some cluster) && negb (db =? 0) then reply (WError "ERR Target DB is not 0 in cluster mode")
          else match strconv_ParseInt t with
          | None => reply (WError "ERR invalid timeout")
          | Some timeout =>
              let o := parse_migrate_options opts (mkMigrateOptions false false None) in
              let keysMode := bool_decide (is_Some (mo_keys o)) in
              let keys := match mo_keys o with Some ks => ks | None => [str k] end in
              if keysMode && negb (bool_decide (str k = "")) then
                reply (WError "ERR key argument must be empty when using KEYS")
              else if keysMode && bool_decide (keys = []) then wrong_args "migrate"
              else
                do! r := migrate_items keysMode keys in
                match r with
                | inl rep => reply rep
                | inr items =>
                    if keysMode && bool_decide (items = []) then reply (WString "NOKEY")
                    else migrate_send 0 (mo_copy o) (mo_replace o) items
                end
          end
      end
  | _ => wrong_args "migrate"
  end.
End migrate.

(** ** Replication commands *)

(** The command a replica is sent: slot, epoch, LSN, type, key, deadline and
    payload. *)
Definition cmdReplApply (args : list (list byte)) : HM E unit :=
  match args with
  | [a0; a1; a2; a3; a4; a5; a6] =>
      do! cluster := read_handler h_cluster in
      match cluster with
      | None => reply (WError "ERR cluster is required for replapply")
      | Some _ =>
          match strconv_ParseUint 16 a0, strconv_ParseUint 64 a1, strconv_ParseUint 64 a2, strconv_ParseInt a5 with
          | None, _, _, _ => reply (WError "ERR invalid slot")
          | _, None, _, _ => reply (WError "ERR invalid epoch")
          | _, _, None, _ => reply (WError "ERR invalid lsn")
          | _, _, _, None => reply (WError "ERR invalid expireAtNs")
          | Some slot, Some epoch, Some lsn, Some expireAtNs =>
              let op := mkOp slot epoch lsn (str a3) (str a4) a6 expireAtNs in
              do! r := applyIncomingReplicationOp op in
              match r with
              | inl err => reply (WError ("ERR " +:+ HError_text err))
              | inr _ =>
                  do! _ := (λ h cn, match h_cluster h with
                                    | None => None
                                    | Some c => Some (tt, SetCluster h (put_replication c (c_slots c)
                                                            (ReceiveTransportOp (c_replication c) op)), cn)
                                    end) in
                  reply (WString "OK")
              end
          end
      end
  | _ => wrong_args "replapply"
  end.

Section wait.
Context `{!GoRange string ReplicaAck}.

(** What each poll of WAIT finds: the replication manager and the time. *)
Context (polls : nat → Manager * Z).

Definition acknowledged (m : Manager) (slot needLSN : Z) : Z :=
  Z.of_nat (length (filter (λ ack, needLSN ≤ ack_AppliedLSN ack) (ReplicaProgressSnapshot m slot))).

Fixpoint wait_loop (fuel i : nat) (slot needLSN required deadline : Z) : option Z :=
  match fuel with
  | O => None
  | S fuel' =>
      let '(m, now) := polls i in
      let ackCount := acknowledged m slot needLSN in
      if (required <=? ackCount) || (deadline <? now) then Some ackCount
      else wait_loop fuel' (S i) slot needLSN required deadline
  end.

Definition cmdWait (fuel : nat) (args : list (list byte)) : HM E unit :=
  match args with
  | [a; b] =>
      match strconv_ParseInt a with
      | None => reply (WError "ERR invalid replica count")
      | Some required =>
          if required <? 0 then reply (WError "ERR invalid replica count")
          else match strconv_ParseInt b with
          | None => reply (WError "ERR invalid timeout")
          | Some timeoutMs =>
              if timeoutMs <? 0 then reply (WError "ERR invalid timeout")
              else if required =? 0 then reply (WInt 0)
              else
                do! cluster := read_handler h_cluster in
                do! slot := read_handler h_lastWriteSlot in
                do! needLSN := read_handler h_lastWriteLSN in
                match cluster with
                | None => reply (WInt 0)
                | Some _ =>
                    if needLSN =? 0 then reply (WInt 0)
                    else match wait_loop fuel 0 slot needLSN required (env_now env + millis timeoutMs) with
                         | None => λ _ _, None
                         | Some n => reply (WInt n)
                         end
                end
          end
      end
  | _ => wrong_args "wait"
  end.
End wait.
End handler.
