(* ===== verification/Migration.v ===== *)
(** * Moving the keys of a slot to another node

    Three pieces of code move keys: [drainSlot] and [drainKey] of
    [internal/cluster/cluster.go], with which a node hands its slots over, the
    background worker of [internal/cluster/migration], and the worker on demand of
    [internal/cluster/migrate]. Each reads an entry, sends ASKING and RESTORE to
    the target over a new connection, and deletes the key here when the target
    has answered OK. A connection is what it gives back ([migrate_target] of
    Handler.v); [attempt i] is the instant, the connection and the state of the
    context when the [i]-th connection is tried. Errors are their texts. *)

From S2P Require Import Prelude Hash Strconv Slots Gossip Cluster Store Objects Codec Protocol Engine Handler.
From stdpp Require Import options.

Record Attempt := mkAttempt { at_env : Env; at_target : migrate_target; at_stop : option string }.

Section keys.
Context {E : Type} `{!ProtocolEngine E} (serialize : EngineEntry → GoError + list byte).

(** [time.Until(entry.ExpireAt).Milliseconds()], 0 without a deadline. *)
Definition entry_ttlMs (env : Env) (entry : EngineEntry) : Z :=
  match ee_ExpireAt entry with
  | None => 0
  | Some t => Z.quot (time_Until (env_now env) t) nanosPerMilli
  end.

(** ** [cluster.go] *)

(** The exchange of [drainKey]; the error of setting the deadline is ignored. *)
Definition drain_exchange (t : migrate_target) (item : migrateItem) : string + unit :=
  match mt_dial t with
  | Some e => inl ("connect: " +:+ e)
  | None =>
  match mt_write_asking t with
  | Some e => inl ("write ASKING: " +:+ e)
  | None =>
  match mt_asking t with
  | inl e => inl ("read ASKING: " +:+ e)
  | inr resp =>
  if negb (bool_decide (resp = ok_text)) then inl ("ASKING unexpected response: " +:+ str resp)
  else match mt_write_restore t with
  | Some e => inl ("write RESTORE: " +:+ e)
  | None =>
  match mt_restore t (restore_command true item) with
  | inl e => inl ("read RESTORE: " +:+ e)
  | inr resp => if negb (bool_decide (resp = ok_text)) then inl ("RESTORE failed: " +:+ str resp) else inr tt
  end end end end end.

Definition drainKey (a : Attempt) (key : string) : EM E (string + unit) :=
  λ e,
    match pe_GetEntry (at_env a) key e with
    | None => None
    | Some (inl err, e) => Some (inl ("get entry: " +:+ GoError_text err), e)
    | Some (inr entry, e) =>
        let ttlMs := entry_ttlMs (at_env a) entry in
        if ttlMs <? 0 then
          match pe_Del (at_env a) [key] e with None => None | Some (_, e) => Some (inr tt, e) end
        else match serialize entry with
        | inl err => Some (inl ("serialize: " +:+ GoError_text err), e)
        | inr b =>
            match drain_exchange (at_target a) (mkItem key ttlMs b) with
            | inl err => Some (inl err, e)
            | inr _ =>
                match pe_Del (at_env a) [key] e with
                | None => None
                | Some (inl err, e) => Some (inl ("del local: " +:+ GoError_text err), e)
                | Some (inr _, e) => Some (inr tt, e)
                end
            end
        end
    end.

Section drain.
Context (attempt : nat → Attempt).

(** The loop over the keys; [at_stop] is the error of a context that is done. *)
Fixpoint drain_keys (i : nat) (keys : list string) : EM E (string + unit) :=
  λ e,
    match keys with
    | [] => Some (inr tt, e)
    | key :: keys' =>
        match at_stop (attempt i) with
        | Some err => Some (inl err, e)
        | None =>
            match drainKey (attempt i) key e with
            | None => None
            | Some (inl err, e) => Some (inl ("key " +:+ key +:+ ": " +:+ err), e)
            | Some (inr _, e) => drain_keys (S i) keys' e
            end
        end
    end.

(** [env] is the instant of the first listing, [env'] that of the second. *)
Definition drainSlot (env env' : Env) (slot : Z) : EM E (string + unit) :=
  λ e,
    match pe_KeysInSlot env slot 0 e with
    | None => None
    | Some ([], e) => Some (inr tt, e)
    | Some (keys, e) =>
        match drain_keys 0 keys e with
        | None => None
        | Some (inl err, e) => Some (inl err, e)
        | Some (inr _, e) =>
            match pe_KeysInSlot env' slot 0 e with
            | None => None
            | Some ([], e) => Some (inr tt, e)
            | Some (remaining, e) =>
                Some (inl ("concurrent writes detected during slot drain: slot=" +:+ itoa slot +:+ ", remaining=" +:+
                           itoa (Z.of_nat (length remaining)) +:+ " keys"), e)
            end
        end
    end.
End drain.

(** ** [migration/worker.go] *)

(** [readOK] *)
Definition readOK (r : string + list byte) : string + unit :=
  match r with
  | inl e => inl e
  | inr response => if negb (bool_decide (response = ok_text)) then inl ("unexpected response: " +:+ str response) else inr tt
  end.

Definition worker_exchange (t : migrate_target) (addr : string) (item : migrateItem) : string + unit :=
  match mt_dial t with
  | Some e => inl ("connect to " +:+ addr +:+ ": " +:+ e)
  | None =>
  match mt_write_asking t with
  | Some e => inl ("send ASKING: " +:+ e)
  | None =>
  match readOK (mt_asking t) with
  | inl e => inl ("ASKING response: " +:+ e)
  | inr _ =>
  match mt_write_restore t with
  | Some e => inl ("send RESTORE: " +:+ e)
  | None =>
  match readOK (mt_restore t (restore_command true item)) with
  | inl e => inl ("RESTORE response: " +:+ e)
  | inr _ => inr tt
  end end end end end.

(** The result of the deletion is not looked at. *)
Definition Worker_migrateKey (a : Attempt) (addr key : string) : EM E (string + unit) :=
  λ e,
    match pe_GetEntry (at_env a) key e with
    | None => None
    | Some (inl err, e) => Some (inl ("failed to get entry for key " +:+ key +:+ ": " +:+ GoError_text err), e)
    | Some (inr entry, e) =>
        let ttlMs := entry_ttlMs (at_env a) entry in
        if ttlMs <? 0 then
          match pe_Del (at_env a) [key] e with None => None | Some (_, e) => Some (inr tt, e) end
        else match serialize entry with
        | inl err => Some (inl ("serialize entry: " +:+ GoError_text err), e)
        | inr b =>
            match worker_exchange (at_target a) addr (mkItem key ttlMs b) with
            | inl err => Some (inl err, e)
            | inr _ => match pe_Del (at_env a) [key] e with None => None | Some (_, e) => Some (inr tt, e) end
            end
        end
    end.

Record MigrationInfo := mkMigInfo { mif_TargetNodeID : string; mif_TargetAddr : string }.

(** What the worker asks of the cluster. A provider may have a method
    [FinishMigration], which the worker finds by a type assertion. *)
Class SlotProvider (P : Type) := {
  sp_GetMigratingSlots : P → gmap Z MigrationInfo;
  sp_GetNode : P → string → option string;
  sp_FinishMigration : option (P → Z → string → option P)
}.

Section worker.
Context {P : Type} `{!SlotProvider P} (attempt : nat → Attempt) (batchSize : Z).

(** A failed key is skipped. *)
Fixpoint migrate_batch (i : nat) (addr : string) (keys : list string) : EM E unit :=
  λ e,
    match keys with
    | [] => Some (tt, e)
    | key :: keys' =>
        match Worker_migrateKey (attempt i) addr key e with
        | None => None
        | Some (_, e) => migrate_batch (S i) addr keys' e
        end
    end.

(** [keys[:w.batchSize]]: a negative size panics. *)
Definition migrateSlotKeys (env : Env) (slot : Z) (info : MigrationInfo) : E * P → option ((string + unit) * (E * P)) :=
  λ '(e, p),
    match pe_KeysInSlot env slot (batchSize * 2) e with
    | None => None
    | Some ([], e) =>
        match sp_FinishMigration with
        | Some finish =>
            if bool_decide (mif_TargetNodeID info = "") then Some (inr tt, (e, p))
            else p' ← finish p slot (mif_TargetNodeID info); Some (inr tt, (e, p'))
        | None => Some (inr tt, (e, p))
        end
    | Some (keys, e) =>
        keys ← (if batchSize <? Z.of_nat (length keys)
                then if batchSize <? 0 then None else Some (take (Z.to_nat batchSize) keys) else Some keys);
        match (if bool_decide (mif_TargetAddr info = "") then sp_GetNode p (mif_TargetNodeID info)
               else Some (mif_TargetAddr info)) with
        | None => Some (inl ("target node " +:+ mif_TargetNodeID info +:+ " not found"), (e, p))
        | Some addr => match migrate_batch 0 addr keys e with None => None | Some (_, e) => Some (inr tt, (e, p)) end
        end
    end.

(** A tick of the worker; errors are logged. *)
Definition processMigratingSlots `{!GoRange Z MigrationInfo} (env : Env) (st : E * P) : option (E * P) :=
  loop (λ st '(slot, info), snd <$> migrateSlotKeys env slot info st) st (go_range (sp_GetMigratingSlots st.2)).
End worker.
End keys.

(** ** [migration/provider.go] *)

Section provider.
Context `{!GoRange string GossipNode}.

Definition provider_GetNode (c : Cluster) (nodeID : string) : option string :=
  Node_Addr <$> find (λ n, bool_decide (nd_ID n = nodeID)) (Cluster_GetNodes c).

Definition provider_GetMigratingSlots (c : Cluster) : gmap Z MigrationInfo :=
  map_imap (λ slot mg,
    if negb (bool_decide (mg_State mg = "exporting")) then None
    else Some (mkMigInfo (mg_Target mg)
      (match Cluster_GetSlotNode c slot with Some _ => default "" (provider_GetNode c (mg_Target mg)) | None => "" end)))
    (GetMigratingSlots (c_slots c)).

(** The provider has no [FinishMigration]. *)
#[export] Instance ClusterSlotProvider : SlotProvider Cluster := {|
  sp_GetMigratingSlots := provider_GetMigratingSlots;
  sp_GetNode := provider_GetNode;
  sp_FinishMigration := None
|}.
End provider.

(** ** [migrate/worker.go] *)

Inductive MigrationStatus := MigrationStatusPending | MigrationStatusRunning | MigrationStatusCompleted | MigrationStatusFailed.

#[global] Instance MigrationStatus_eq_dec : EqDecision MigrationStatus.
Proof. solve_decision. Defined.

(** The times of the start and the end are left out. *)
Record MigrationProgress := mkProgress {
  mp_Slot : Z;
  mp_TargetAddr : string;
  mp_TotalKeys : Z;
  mp_MigratedKeys : Z;
  mp_FailedKeys : Z;
  mp_Status : MigrationStatus;
  mp_LastError : string
}.

Definition set_Total (n : Z) (p : MigrationProgress) : MigrationProgress :=
  mkProgress (mp_Slot p) (mp_TargetAddr p) n (mp_MigratedKeys p) (mp_FailedKeys p) (mp_Status p) (mp_LastError p).
Definition set_Failed (err : string) (p : MigrationProgress) : MigrationProgress :=
  mkProgress (mp_Slot p) (mp_TargetAddr p) (mp_TotalKeys p) (mp_MigratedKeys p) (mp_FailedKeys p) MigrationStatusFailed err.
Definition set_Status (s : MigrationStatus) (p : MigrationProgress) : MigrationProgress :=
  mkProgress (mp_Slot p) (mp_TargetAddr p) (mp_TotalKeys p) (mp_MigratedKeys p) (mp_FailedKeys p) s (mp_LastError p).
Definition count_failed (err : string) (p : MigrationProgress) : MigrationProgress :=
  mkProgress (mp_Slot p) (mp_TargetAddr p) (mp_TotalKeys p) (mp_MigratedKeys p) (mp_FailedKeys p + 1) (mp_Status p) err.
Definition count_migrated (p : MigrationProgress) : MigrationProgress :=
  mkProgress (mp_Slot p) (mp_TargetAddr p) (mp_TotalKeys p) (mp_MigratedKeys p + 1) (mp_FailedKeys p) (mp_Status p) (mp_LastError p).

Record MigrateWorker := mkWorker { mw_maxRetries : Z; mw_batchSize : Z; mw_progress : gmap Z MigrationProgress }.

Definition NewMigrateWorker : MigrateWorker := mkWorker 3 100 ∅.
Definition SetMaxRetries (w : MigrateWorker) (retries : Z) : MigrateWorker := mkWorker retries (mw_batchSize w) (mw_progress w).
Definition SetBatchSize (w : MigrateWorker) (size : Z) : MigrateWorker := mkWorker (mw_maxRetries w) size (mw_progress w).
Definition put_progress (w : MigrateWorker) (slot : Z) (p : MigrationProgress) : MigrateWorker :=
  mkWorker (mw_maxRetries w) (mw_batchSize w) (<[slot := p]> (mw_progress w)).
Definition GetProgress (w : MigrateWorker) (slot : Z) : option MigrationProgress := mw_progress w !! slot.

Section migrate.
Context {E : Type} `{!ProtocolEngine E} (serialize : EngineEntry → GoError + list byte).

Definition migrate_exchange (t : migrate_target) (replace : bool) (item : migrateItem) : string + unit :=
  match mt_dial t with
  | Some e => inl ("connect: " +:+ e)
  | None =>
  match mt_write_asking t with
  | Some e => inl ("write ASKING: " +:+ e)
  | None =>
  match mt_asking t with
  | inl e => inl ("read ASKING response: " +:+ e)
  | inr resp =>
  if negb (bool_decide (resp = ok_text)) then inl ("ASKING failed: " +:+ str (TrimSpace resp))
  else match mt_write_restore t with
  | Some e => inl ("write RESTORE: " +:+ e)
  | None =>
  match mt_restore t (restore_command replace item) with
  | inl e => inl ("read RESTORE response: " +:+ e)
  | inr resp => if negb (bool_decide (resp = ok_text)) then inl ("RESTORE failed: " +:+ str (TrimSpace resp)) else inr tt
  end end end end end.

(** A key that has expired is left to the engine. *)
Definition doMigrate (a : Attempt) (replace : bool) (key : string) : EM E (string + unit) :=
  λ e,
    match pe_GetEntry (at_env a) key e with
    | None => None
    | Some (inl err, e) => Some (inl ("get entry: " +:+ GoError_text err), e)
    | Some (inr entry, e) =>
        let ttlMs := entry_ttlMs (at_env a) entry in
        if ttlMs <? 0 then Some (inr tt, e)
        else match serialize entry with
        | inl err => Some (inl ("serialize entry: " +:+ GoError_text err), e)
        | inr b =>
            match migrate_exchange (at_target a) replace (mkItem key ttlMs b) with
            | inl err => Some (inl err, e)
            | inr _ =>
                match pe_Del (at_env a) [key] e with
                | None => None
                | Some (inl err, e) => Some (inl ("del local key: " +:+ GoError_text err), e)
                | Some (inr _, e) => Some (inr tt, e)
                end
            end
        end
    end.

(** The attempts from [k] on, of which [n] are left; [lastErr] is nil at first.
    The pause before an attempt ends early when the context is done. *)
Fixpoint migrate_attempts (attempt : nat → Attempt) (replace : bool) (key : string) (k n : nat) (lastErr : string + unit)
    : EM E (string + unit) :=
  λ e,
    match n with
    | O => Some (lastErr, e)
    | S n' =>
        match (if bool_decide (k = 0%nat) then None else at_stop (attempt k)) with
        | Some err => Some (inl err, e)
        | None =>
            match doMigrate (attempt k) replace key e with
            | None => None
            | Some (inr _, e) => Some (inr tt, e)
            | Some (inl err, e) =>
                if strings_Contains err "BUSYKEY" && negb replace then Some (inl err, e)
                else migrate_attempts attempt replace key (S k) n' (inl err) e
            end
        end
    end.

Definition migrateKey (attempt : nat → Attempt) (maxRetries : Z) (replace : bool) (key : string) : EM E (string + unit) :=
  migrate_attempts attempt replace key 0 (Z.to_nat maxRetries) (inr tt).

(** The loop over the keys, of which the [i]-th is next; [stopped i] says whether
    [Stop] was called by then. The result is [None] when the loop ran to its end,
    or the error with which it was left. *)
Fixpoint migrate_keys (attempt : nat → nat → Attempt) (stopped : nat → bool) (maxRetries : Z) (replace : bool)
    (i : nat) (keys : list string) (p : MigrationProgress) : EM E (option string * MigrationProgress) :=
  λ e,
    match keys with
    | [] => Some ((None, p), e)
    | key :: keys' =>
        match at_stop (attempt i 0%nat) with
        | Some err => Some ((Some err, set_Failed "context cancelled" p), e)
        | None =>
            if stopped i then Some ((Some "migration stopped", set_Failed "worker stopped" p), e)
            else match migrateKey (attempt i) maxRetries replace key e with
            | None => None
            | Some (inl err, e) => migrate_keys attempt stopped maxRetries replace (S i) keys' (count_failed err p) e
            | Some (inr _, e) => migrate_keys attempt stopped maxRetries replace (S i) keys' (count_migrated p) e
            end
        end
    end.

Definition Worker_MigrateSlot (attempt : nat → nat → Attempt) (stopped : nat → bool) (env : Env) (w : MigrateWorker)
    (slot : Z) (targetAddr : string) (replace : bool) (e : E) : option ((string + unit) * MigrateWorker * E) :=
  match pe_KeysInSlot env slot 0 e with
  | None => None
  | Some (keys, e) =>
      let p := set_Total (Z.of_nat (length keys)) (mkProgress slot targetAddr 0 0 0 MigrationStatusRunning "") in
      match migrate_keys attempt stopped (mw_maxRetries w) replace 0 keys p e with
      | None => None
      | Some ((Some err, p), e) => Some (inl err, put_progress w slot p, e)
      | Some ((None, p), e) =>
          let p := set_Status (if mp_FailedKeys p =? 0 then MigrationStatusCompleted else MigrationStatusFailed) p in
          Some (if 0 <? mp_FailedKeys p
                then inl ("migration completed with " +:+ itoa (mp_FailedKeys p) +:+ " failed keys") else inr tt,
                put_progress w slot p, e)
      end
  end.
End migrate.

(** ** Handing over the slots with their keys *)

Section drain_slots.
Context {E : Type} `{!ProtocolEngine E} (serialize : EngineEntry → GoError + list byte).
Context `{!GoRange string GossipNode}.

(** One slot of [DrainSlots] of Cluster.v, with [drainSlot] as its key transfer:
    the connections and instants of slot number [i] are [conns i]. *)
Definition drain_one_keys (conns : nat → (nat → Attempt) * Env * Env) (peers : list Node) (st : Cluster * E) (entry : nat * Z)
    : option (Cluster * E) :=
  let '(c, e) := st in
  let '(attempt, env, env') := conns entry.1 in
  match drainSlot serialize attempt env env' entry.2 e with
  | None => None
  | Some (r, e) =>
      c' ← drain_one (λ _ _, match r with inl _ => false | inr _ => true end) peers c entry;
      Some (c', e)
  end.

Definition DrainSlots_keys (conns : nat → (nat → Attempt) * Env * Env) (c : Cluster) (e : E) : option (Cluster * E) :=
  let mySlots := GetNodeSlots (c_slots c) (nd_ID (c_self c)) in
  let peers := drain_peers c in
  if bool_decide (mySlots = []) || bool_decide (peers = []) then Some (c, e)
  else loop (drain_one_keys conns peers) (c, e) (imap pair mySlots).
End drain_slots.
