(* ===== verification/ClusterCmd.v ===== *)
(** * The CLUSTER command: [internal/protocol/commands/cluster.go]

    The subcommands that inspect and change the slot table, the epochs and the
    replication topology of the node. They run on the cluster of the handler;
    [HandleCluster] dispatches on the upper-cased name of the subcommand. *)

From S2P Require Import Prelude Hash Strconv Wire Store Slots Gossip Replication Cluster Protocol Engine Handler.
From stdpp Require Import options.

(** ** Texts *)

(** Exchange sort: for each position, the later elements are exchanged with it
    when they are smaller. [exchange] is one run of the inner loop. *)
Fixpoint exchange (x : Z) (l : list Z) : Z * list Z :=
  match l with
  | [] => (x, [])
  | y :: l' =>
      if y <? x then let '(m, r) := exchange y l' in (m, x :: r)
      else let '(m, r) := exchange x l' in (m, y :: r)
  end.

Fixpoint exchange_sort (fuel : nat) (l : list Z) : list Z :=
  match fuel, l with
  | S fuel', x :: l' => let '(m, r) := exchange x l' in m :: exchange_sort fuel' r
  | _, _ => l
  end.

Definition sortSlots (slots : list Z) : list Z := exchange_sort (length slots) slots.

Definition formatSlotRange (start last : Z) : string :=
  if start =? last then itoa start else itoa start +:+ "-" +:+ itoa last.

(** The runs of consecutive slots, first and last; [u16] is the wrap-around of
    [end + 1]. *)
Fixpoint slot_runs (start last : Z) (slots : list Z) : list (Z * Z) :=
  match slots with
  | [] => [(start, last)]
  | s :: slots' =>
      if s =? u16 (last + 1) then slot_runs start s slots'
      else (start, last) :: slot_runs s s slots'
  end.

Definition node_runs (sm : SlotManager) (nodeID : string) : list (Z * Z) :=
  match sortSlots (GetNodeSlots sm nodeID) with
  | [] => []
  | s :: slots' => slot_runs s s slots'
  end.

Definition migration_part (sm : SlotManager) (slot : Z) : option string :=
  match GetSlotInfo sm slot with
  | None => None
  | Some info =>
      if bool_decide (si_State info = SlotStateExporting) && negb (bool_decide (si_Exporting info = ""))
      then Some ("[" +:+ itoa slot +:+ "->-" +:+ si_Exporting info +:+ "]")
      else if bool_decide (si_State info = SlotStateImporting) && negb (bool_decide (si_Importing info = ""))
      then Some ("[" +:+ itoa slot +:+ "-<-" +:+ si_Importing info +:+ "]")
      else None
  end.

Fixpoint join_with (sep : string) (parts : list string) : string :=
  match parts with
  | [] => ""
  | [p] => p
  | p :: parts' => p +:+ sep +:+ join_with sep parts'
  end.

Definition buildNodeSlotRanges (nodeID : string) (sm : SlotManager) : string :=
  match sortSlots (GetNodeSlots sm nodeID) with
  | [] => ""
  | slots =>
      join_with " " (((λ r, formatSlotRange r.1 r.2) <$> node_runs sm nodeID) ++ omap (migration_part sm) slots)
  end.

(** One line of CLUSTER NODES. *)
Definition node_line (c : Cluster) (gn : GossipNode) : string :=
  let node := gossipNodeToNode gn in
  let flags := NodeRole_String (nd_Role node) in
  let flags := if bool_decide (nd_ID node = nd_ID (c_self c)) then "myself," +:+ flags else flags in
  let flags := match nd_State node with
               | NodeStateFail => flags +:+ ",fail"
               | NodeStatePFail => flags +:+ ",fail?"
               | _ => flags
               end in
  let masterID := if bool_decide (nd_MasterID node = "") then "-" else nd_MasterID node in
  let linkState := if bool_decide (nd_State node = NodeStateConnected) then "connected" else "disconnected" in
  nd_ID node +:+ " " +:+ host_port (nd_IP node) (nd_Port node) +:+ "@" +:+ itoa (nd_ClusterPort node) +:+ " "
    +:+ flags +:+ " " +:+ masterID +:+ " " +:+ itoa (gn_PingSent gn) +:+ " " +:+ itoa (gn_PongReceived gn) +:+ " 0 "
    +:+ linkState +:+ " " +:+ buildNodeSlotRanges (nd_ID node) (c_slots c) +:+ BytesToString [x0a].

(** [GetClusterInfo]: the values as they are printed. *)
Definition GetClusterInfo `{!GoRange string GossipNode} (c : Cluster) : gmap string string :=
  let nodes := GetNodes (c_gossip c) in
  let masterCount := length (filter (λ n, gn_Role n = NodeRoleMaster) nodes) in
  list_to_map
    [("cluster_state", ClusterState_String (c_state c));
     ("cluster_slots_assigned", itoa (CountAssigned (c_slots c)));
     ("cluster_slots_ok", itoa (CountAssigned (c_slots c)));
     ("cluster_known_nodes", itoa (Z.of_nat (length nodes)));
     ("cluster_size", itoa (Z.of_nat masterCount));
     ("cluster_current_epoch", itoa (c_currentEpoch c));
     ("cluster_my_epoch", itoa (c_myEpoch c))].

Definition ReplicateError_text (masterID : string) (e : ReplicateError) : string :=
  match e with
  | ErrMasterUnknown => "master node " +:+ masterID +:+ " not known"
  | ErrNotMaster => "node " +:+ masterID +:+ " is not a master"
  | ErrReplicate e => SlotError_text e
  end.

Definition FailoverError_text (e : FailoverError) : string :=
  match e with
  | ErrSlotNotFound slot => "slot " +:+ itoa slot +:+ " not found"
  | ErrNoHealthyReplica slot => "no healthy replica for slot " +:+ itoa slot
  | ErrSlots e => SlotError_text e
  end.

(** A slot argument. *)
Definition parse_slot (b : list byte) : option Z :=
  n ← strconv_ParseUint 16 b; if n <? SlotCount then Some n else None.

Section commands.
Context {E : Type} `{!ProtocolEngine E}.
Context `{!GoRange string GossipNode} `{!GoRange string string}.
Context (env : Env).

(** [cluster.Meet]: the error of the handshake with an address, or what the node
    there reports of itself when it answers with a PONG. *)
Context (meet : string → string + option NodeInfo).

Definition put_cluster (c : Cluster) : HM E unit := λ h cn, Some (tt, SetCluster h c, cn).

(** ** Inspection *)

Definition clusterInfo (c : Cluster) : HM E unit :=
  reply (WBulk (concat ((λ e, StringToBytes (e.1 +:+ ":" +:+ e.2) ++ crlf) <$> go_range (GetClusterInfo c)))).

Definition clusterNodes (c : Cluster) : HM E unit :=
  reply (WBulk (concat ((λ gn, StringToBytes (node_line c gn)) <$> GetNodes (c_gossip c)))).

Definition slot_range_reply (c : Cluster) (r : SlotRange) : list Reply :=
  match Cluster_GetSlotNode c (rg_Start r) with
  | None => []
  | Some node =>
      [WArray 3; WInt (rg_Start r); WInt (rg_End r);
       WArray 3; bulk_string (nd_IP node); WInt (nd_Port node); bulk_string (nd_ID node)]
  end.

Definition clusterSlots (c : Cluster) : HM E unit :=
  let ranges := GetClusterSlots (c_slots c) in
  do! _ := reply (WArray (Z.of_nat (length ranges))) in
  replies (ranges ≫= slot_range_reply c).

Definition clusterKeySlot (args : list (list byte)) : HM E unit :=
  match args with [k] => reply (WInt (KeySlot (str k))) | _ => wrong_args "cluster keyslot" end.

Definition clusterMyID (c : Cluster) : HM E unit := reply (bulk_string (nd_ID (c_self c))).

Definition clusterGetKeysInSlot (args : list (list byte)) : HM E unit :=
  match args with
  | [s; n] =>
      match parse_slot s with
      | None => reply (WError "ERR Invalid slot")
      | Some slot =>
          match strconv_ParseInt n with
          | None => reply (WError "ERR Invalid count")
          | Some count =>
              if count <? 0 then reply (WError "ERR Invalid count")
              else do! keys := call (pe_KeysInSlot env slot count) in array_of (bulk_string <$> keys)
          end
      end
  | _ => wrong_args "cluster getkeysinslot"
  end.

Definition clusterCountKeysInSlot (args : list (list byte)) : HM E unit :=
  match args with
  | [s] =>
      match parse_slot s with
      | None => reply (WError "ERR Invalid slot")
      | Some slot => do! n := call (pe_CountKeysInSlot env slot) in reply (WInt n)
      end
  | _ => wrong_args "cluster countkeysinslot"
  end.

Definition op_reply (op : Op) : list Reply :=
  [WArray 7; WInt (op_Slot op); WInt (i64 (op_Epoch op)); WInt (i64 (op_LSN op)); bulk_string (op_OpType op);
   bulk_string (op_Key op); WInt (op_ExpireAtNs op); WBulk (op_Payload op)].

Definition full_resync (c : Cluster) (slot epoch : Z) : HM E unit :=
  reply (WError ("FULLRESYNC " +:+ itoa epoch +:+ " " +:+ itoa (SnapshotLSN (c_replication c) slot))).

Definition clusterPSync (c : Cluster) (args : list (list byte)) : HM E unit :=
  match args with
  | [s; e; l] =>
      match parse_slot s, strconv_ParseUint 64 e, strconv_ParseUint 64 l with
      | None, _, _ => reply (WError "ERR Invalid slot")
      | _, None, _ => reply (WError "ERR Invalid epoch")
      | _, _, None => reply (WError "ERR Invalid lsn")
      | Some slot, Some epoch, Some appliedLSN =>
          match GetSlotInfo (c_slots c) slot with
          | None => full_resync c slot 0
          | Some info =>
              if negb (si_ConfigEpoch info =? epoch) then full_resync c slot (si_ConfigEpoch info)
              else match IncrementalOps (c_replication c) slot appliedLSN with
                   | None => full_resync c slot (si_ConfigEpoch info)
                   | Some ops =>
                       do! _ := reply (WArray (Z.of_nat (length ops))) in replies (ops ≫= op_reply)
                   end
          end
      end
  | _ => wrong_args "cluster psync"
  end.

(** ** Changes *)

(** A first-hand report, with the callback for nodes that are new. *)
Definition meet_report (c : Cluster) (info : NodeInfo) : option Cluster :=
  r ← processNodeInfo (env_now env) (c_gossip c) (c_slots c) info true;
  let '(g, sm, events) := r in
  Some (foldl (λ c ev, match ev with NodeJoin id => onNodeJoin c id | _ => c end) (put_gossip (put_slots c sm) g) events).

Definition clusterMeet (c : Cluster) (args : list (list byte)) : HM E unit :=
  match args with
  | ip :: p :: rest =>
      match strconv_ParseInt p with
      | None => reply (WError "ERR Invalid port")
      | Some port =>
          let clusterPort := match rest with [] => i64 (port + 10000) | a :: _ => default 0 (strconv_ParseInt a) end in
          match meet (host_port (str ip) clusterPort) with
          | inl e => reply (WError ("ERR " +:+ e))
          | inr None => reply (WString "OK")
          | inr (Some info) =>
              match meet_report c info with
              | None => λ _ _, None
              | Some c' => do! _ := put_cluster c' in reply (WString "OK")
              end
          end
      end
  | _ => wrong_args "cluster meet"
  end.

Definition clusterAddSlots (c : Cluster) (args : list (list byte)) : HM E unit :=
  match args with
  | [] => wrong_args "cluster addslots"
  | _ =>
      match mapM parse_slot args with
      | None => reply (WError "ERR Invalid slot")
      | Some slots =>
          match Cluster_AssignSlots c slots with
          | None => λ _ _, None
          | Some (r, c') =>
              do! _ := put_cluster c' in
              match r with
              | inl e => reply (WError ("ERR " +:+ SlotError_text e))
              | inr _ => reply (WString "OK")
              end
          end
      end
  end.

Definition clusterDelSlots (args : list (list byte)) : HM E unit := reply (WString "OK").

(** Change the slot table, then advance the epoch. *)
Definition setslot_then_epoch (c : Cluster) (sm : option SlotManager) : HM E unit :=
  match sm with
  | None => λ _ _, None
  | Some sm =>
      do! _ := put_cluster (IncrementEpoch (put_slots c sm)).2 in reply (WString "OK")
  end.

Definition clusterSetSlot (c : Cluster) (args : list (list byte)) : HM E unit :=
  match args with
  | s :: sub :: rest =>
      match parse_slot s with
      | None => reply (WError "ERR Invalid slot")
      | Some slot =>
          let subcmd := strings_ToUpper sub in
          let sm := c_slots c in
          let with_node name k :=
            match rest with
            | [] => wrong_args ("cluster setslot " +:+ name)
            | node :: _ => setslot_then_epoch c (k (str node))
            end in
          if bool_decide (subcmd = "MIGRATING") then with_node "migrating" (SetExporting sm slot)
          else if bool_decide (subcmd = "IMPORTING") then with_node "importing" (SetImporting sm slot)
          else if bool_decide (subcmd = "NODE") then with_node "node" (FinishMigration sm slot)
          else if bool_decide (subcmd = "STABLE") then
            match SetStable sm slot with
            | None => λ _ _, None
            | Some sm => do! _ := put_cluster (put_slots c sm) in reply (WString "OK")
            end
          else reply (WError "ERR Invalid CLUSTER SETSLOT action or number of arguments")
      end
  | _ => wrong_args "cluster setslot"
  end.

Definition clusterReplicate (c : Cluster) (args : list (list byte)) : HM E unit :=
  match args with
  | [m] =>
      let masterID := str m in
      if bool_decide (masterID = "") then reply (WError "ERR invalid master node ID")
      else
        let '(r, c') := ReplicateTo c masterID in
        do! _ := put_cluster c' in
        match r with
        | inl e => reply (WError ("ERR " +:+ ReplicateError_text masterID e))
        | inr _ => reply (WString "OK")
        end
  | _ => wrong_args "cluster replicate"
  end.

(** The failover manager of the handler has the ownership broadcast of the
    cluster as its only hook: it records the epoch of the slot. *)
Definition broadcast_ownership (c : Cluster) (ev : failover_event) : Cluster :=
  match ev with
  | Slots.Broadcast slot owner =>
      match ownership_info (c_gossip c) (c_slots c) slot owner with Some (_, g) => put_gossip c g | None => c end
  | FailClosed _ _ => c
  end.

Definition clusterFailover (c : Cluster) (args : list (list byte)) : HM E unit :=
  match args with
  | [s] =>
      match parse_slot s with
      | None => reply (WError "ERR Invalid slot")
      | Some slot =>
          match PromoteBestReplica (c_slots c) slot with
          | None => λ _ _, None
          | Some (r, sm, events) =>
              do! _ := put_cluster (foldl broadcast_ownership (put_slots c sm) events) in
              match r with
              | inl e => reply (WError ("ERR " +:+ FailoverError_text e))
              | inr promoted => reply (bulk_string promoted)
              end
          end
      end
  | _ => wrong_args "cluster failover"
  end.

(** ** Dispatch *)

Definition HandleCluster (c : Cluster) (args : list (list byte)) : HM E unit :=
  match args with
  | [] => wrong_args "cluster"
  | a :: args' =>
      let subcmd := strings_ToUpper a in
      if bool_decide (subcmd = "INFO") then clusterInfo c
      else if bool_decide (subcmd = "NODES") then clusterNodes c
      else if bool_decide (subcmd = "SLOTS") then clusterSlots c
      else if bool_decide (subcmd = "KEYSLOT") then clusterKeySlot args'
      else if bool_decide (subcmd = "MEET") then clusterMeet c args'
      else if bool_decide (subcmd = "ADDSLOTS") then clusterAddSlots c args'
      else if bool_decide (subcmd = "DELSLOTS") then clusterDelSlots args'
      else if bool_decide (subcmd = "SETSLOT") then clusterSetSlot c args'
      else if bool_decide (subcmd = "MYID") then clusterMyID c
      else if bool_decide (subcmd = "GETKEYSINSLOT") then clusterGetKeysInSlot args'
      else if bool_decide (subcmd = "COUNTKEYSINSLOT") then clusterCountKeysInSlot args'
      else if bool_decide (subcmd = "PSYNC") then clusterPSync c args'
      else if bool_decide (subcmd = "REPLICATE") then clusterReplicate c args'
      else if bool_decide (subcmd = "FAILOVER") then clusterFailover c args'
      else reply (WError ("ERR unknown subcommand '" +:+ subcmd +:+ "'"))
  end.
End commands.
