(* ===== verification/ClusterCmdSpec.v ===== *)
(** * What CLUSTER NODES and CLUSTER SLOTS tell about the slots

    The exchange sort of the slots of a node sorts; the runs printed for a node
    are exactly the slots it owns; the header of CLUSTER SLOTS announces one
    element per range, also for the ranges whose node is not known. *)

From S2P Require Import Prelude Hash Slots SlotsSpec Gossip Cluster Engine Handler ClusterCmd.
From stdpp Require Import options.

(** ** The exchange sort *)

Lemma exchange_perm x l : (exchange x l).1 :: (exchange x l).2 ≡ₚ x :: l.
Proof.
  revert x. induction l as [|y l IH]; intros x; simpl; [done|]. case_match.
  - specialize (IH y). destruct (exchange y l) as [m r]. simpl in *. by rewrite Permutation_swap, IH.
  - specialize (IH x). destruct (exchange x l) as [m r]. simpl in *. rewrite Permutation_swap, IH. apply Permutation_swap.
Qed.

Lemma exchange_least x l : Forall (Z.le (exchange x l).1) (x :: l).
Proof.
  revert x. induction l as [|z l IH]; intros x; simpl; [by repeat constructor|].
  destruct (Z.ltb_spec z x) as [Hz|Hz].
  - specialize (IH z). destruct (exchange z l) as [m r]. simpl in *. inversion_clear IH.
    constructor; [lia|]. by constructor.
  - specialize (IH x). destruct (exchange x l) as [m r]. simpl in *. inversion_clear IH.
    constructor; [done|]. constructor; [lia|done].
Qed.

Lemma exchange_sort_spec fuel l :
  (length l ≤ fuel)%nat → exchange_sort fuel l ≡ₚ l ∧ StronglySorted Z.le (exchange_sort fuel l).
Proof.
  revert l. induction fuel as [|fuel IH]; intros [|x l] Hl; simpl in *; [by split; [|constructor]|lia|by split; [|constructor]|].
  pose proof (exchange_perm x l) as Hp. pose proof (exchange_least x l) as Hm. destruct (exchange x l) as [m r]. simpl in *.
  assert (length r = length l) as Hr by (apply Permutation_length in Hp; simpl in Hp; lia).
  destruct (IH r) as [IHp IHs]; [lia|]. split; [by rewrite IHp|].
  constructor; [done|]. apply Forall_forall. intros y Hy. rewrite Forall_forall in Hm. apply Hm. rewrite <-Hp. right. by rewrite <-IHp.
Qed.

Lemma sortSlots_sorted l : sortSlots l ≡ₚ l ∧ StronglySorted Z.le (sortSlots l).
Proof. by apply exchange_sort_spec. Qed.

Lemma le_NoDup_lt l : NoDup l → StronglySorted Z.le l → StronglySorted Z.lt l.
Proof.
  induction 2 as [|x l Hs IH Hle]; [constructor|]. apply NoDup_cons in H as [Hx Hnd]. constructor; [by apply IH|].
  rewrite Forall_forall in *. intros y Hy. specialize (Hle y Hy). assert (x ≠ y) by (by intros ->). lia.
Qed.

(** ** The runs of a node *)

Definition run_slots (r : Z * Z) : list Z := seqZ r.1 (r.2 - r.1 + 1).

Lemma seqZ_extend a b : a ≤ b + 1 → seqZ a (b - a + 1) ++ [b + 1] = seqZ a (b + 1 - a + 1).
Proof.
  intros H. replace (b + 1 - a + 1) with ((b - a + 1) + 1) by lia. rewrite (seqZ_app a (b - a + 1) 1) by lia.
  f_equal. replace (a + (b - a + 1)) with (b + 1) by lia. done.
Qed.

Lemma slot_runs_cover start l slots :
  0 ≤ start ≤ l → StronglySorted Z.lt (l :: slots) → Forall valid_slot (l :: slots) →
  concat (run_slots <$> slot_runs start l slots) = seqZ start (l - start + 1) ++ slots.
Proof.
  revert start l. induction slots as [|s slots IH]; intros start l Hs Hsort HF; simpl; [done|].
  apply StronglySorted_inv in Hsort as [Hsort Hlt]. inversion_clear HF as [|? ? Hl HF']. inversion_clear Hlt as [|? ? Hls _].
  pose proof HF' as HF2. inversion_clear HF2 as [|? ? Hvs _].
  assert (u16 (l + 1) = l + 1) as -> by (apply u16_id; unfold valid_slot, is_u16, SlotCount in *; lia).
  destruct (Z.eqb_spec s (l + 1)) as [->|Hne].
  - rewrite IH by (try done; lia). by rewrite <-seqZ_extend, <-app_assoc by lia.
  - simpl. rewrite IH; [|split; [unfold valid_slot in *|]; lia|done|done].
    unfold run_slots. simpl. by replace (s - s + 1) with 1 by lia.
Qed.

(** The runs that CLUSTER NODES prints for a node, written out slot by slot, are
    the slots that it owns: all of them, once each, in increasing order. *)
Theorem node_runs_exact sm n :
  slots_wf sm → n ≠ "" →
  StronglySorted Z.lt (concat (run_slots <$> node_runs sm n)) ∧
  ∀ slot, slot ∈ concat (run_slots <$> node_runs sm n) ↔ 0 ≤ slot ∧ si_NodeID <$> slot_at sm slot = Some n.
Proof.
  intros Hwf Hn. destruct (sortSlots_sorted (GetNodeSlots sm n)) as [Hp Hs].
  assert (concat (run_slots <$> node_runs sm n) = sortSlots (GetNodeSlots sm n) ∧
    StronglySorted Z.lt (sortSlots (GetNodeSlots sm n))) as [-> Hlt].
  { assert (NoDup (sortSlots (GetNodeSlots sm n))) as Hnd by (rewrite Hp; by apply (ix_nodup _ (sl_index _ Hwf))).
    assert (Forall valid_slot (sortSlots (GetNodeSlots sm n))) as HF.
    { rewrite Hp. apply Forall_forall. intros s Hin. apply (ix_owns _ (sl_index _ Hwf)) in Hin as [H0 Hat]; [|done].
      destruct (slot_at sm s) as [i|] eqn:Ei; [|done]. eapply slot_at_valid; [apply Hwf|done|done]. }
    assert (StronglySorted Z.lt (sortSlots (GetNodeSlots sm n))) as Hlt by by apply le_NoDup_lt.
    split; [|done]. unfold node_runs. destruct (sortSlots _) as [|s slots]; [done|].
    rewrite slot_runs_cover; [|inversion_clear HF; unfold valid_slot in *; lia|done|done].
    by replace (s - s + 1) with 1 by lia. }
  split; [done|]. intros slot. rewrite Hp. by apply (ix_owns _ (sl_index _ Hwf)).
Qed.

(** ** The reply of CLUSTER SLOTS *)

Lemma replies_run {E} rs (h : Handler E) cn :
  replies rs h cn = Some (tt, h, mkConn (cn_out cn ++ rs) (cn_context cn) (cn_closed cn)).
Proof.
  revert cn. induction rs as [|r rs IH]; intros cn; simpl.
  - rewrite app_nil_r. by destruct cn.
  - unfold hbind, reply. rewrite IH. simpl. by rewrite <-app_assoc.
Qed.

Lemma range_replies_length c ranges :
  length (ranges ≫= slot_range_reply c) =
    (7 * length (filter (λ r, is_Some (Cluster_GetSlotNode c (rg_Start r))) ranges))%nat.
Proof.
  induction ranges as [|r ranges IH]; [done|]. rewrite bind_cons, length_app, IH, filter_cons. unfold slot_range_reply.
  destruct (Cluster_GetSlotNode c (rg_Start r)) as [node|]; case_decide as Hd; simpl; [lia| |by destruct Hd|done].
  by destruct Hd.
Qed.

(** CLUSTER SLOTS announces one element per range of slots and then writes the
    elements of the ranges whose owner is a known node. The reply has as many
    elements as it announces exactly when the owner of every range is known: a
    range whose owner has not been met yet makes a client wait for the rest, or
    read the next reply as part of this one. *)
Theorem clusterSlots_complete_iff_known {E} c (h : Handler E) cn :
  ∃ items, clusterSlots c h cn = Some (tt, h,
      mkConn (cn_out cn ++ WArray (Z.of_nat (length (GetClusterSlots (c_slots c)))) :: items) (cn_context cn) (cn_closed cn)) ∧
    (length items = (7 * length (GetClusterSlots (c_slots c)))%nat ↔
     ∀ r, r ∈ GetClusterSlots (c_slots c) → is_Some (Cluster_GetSlotNode c (rg_Start r))).
Proof.
  exists (GetClusterSlots (c_slots c) ≫= slot_range_reply c). split.
  - unfold clusterSlots, hbind, reply. rewrite replies_run. cbn [cn_out cn_context cn_closed]. by rewrite <-app_assoc.
  - rewrite range_replies_length. set (P := λ r, is_Some (Cluster_GetSlotNode c (rg_Start r))).
    generalize (GetClusterSlots (c_slots c)). intros l. split.
    + intros Hlen r Hr. destruct (decide (P r)) as [Hp|Hp]; [done|]. exfalso.
      assert (length (filter P l) < length l)%nat; [|lia]. by eapply length_filter_lt.
    + intros Hall. f_equal. f_equal. by apply list_filter_all.
Qed.

(** ** On a concrete table *)

Lemma node_runs_exact_witness : 7 ∈ concat (run_slots <$> node_runs demo3 "a") ∧ node_runs demo3 "a" = [(7, 7)].
Proof.
  split; [|vm_compute; reflexivity].
  apply (proj2 (node_runs_exact demo3 "a" demo3_wf ltac:(done)) 7). split; [lia|]. vm_compute. reflexivity.
Defined.
