(* ===== verification/Operator.v ===== *)
(** * The Kubernetes operator: slots and migrations ([controllers/])

    The operator talks RESP to the pods: it reads CLUSTER SLOTS and CLUSTER NODES,
    assigns slots to a new cluster, and moves slots one by one when the cluster is
    scaled or a slot plan asks for it. Modelled are the RESP reader ([resp.go]),
    the parsers ([resp_helpers.go], [migration.go]), the slot arithmetic and the
    moves ([scaling.go], [migration.go], [autocache_controller.go]). The
    Kubernetes API, whose answers are arguments, and the connections are not. *)

From S2P Require Import Prelude Hash Strconv Wire Codec Handler.
From stdpp Require Import options.

(** ** RESP: [resp.go] *)

(** The dynamic values of [parseRESP]. *)
Inductive resp :=
  | RNil
  | RInt (n : Z)
  | RStr (s : list byte)
  | RArr (items : list resp).

Definition readRESPLine (s : list byte) : option (list byte * list byte) :=
  r ← ReadString s;
  let n := length r.1 in
  if (2 <=? n)%nat && bool_decide (drop (n - 2) r.1 = crlf) then Some (take (n - 2) r.1, r.2) else None.

(** The elements of an array, by the reader of one value. *)
Fixpoint parse_items (parse : list byte → option (resp * list byte)) (n : nat) (s : list byte) : option (list resp * list byte) :=
  match n with
  | O => Some ([], s)
  | S n' => v ← parse s; r ← parse_items parse n' v.2; Some (v.1 :: r.1, r.2)
  end.

(** An error reply, a malformed one and a short one are all errors, as is a count
    beyond what a slice can hold, on which [make] panics. The fuel
    bounds the nesting of arrays, each level of which takes a byte. *)
Fixpoint parseRESP (fuel : nat) (s : list byte) : option (resp * list byte) :=
  match fuel with
  | O => None
  | S f =>
      match s with
      | [] => None
      | prefix :: s' =>
          if bool_decide (prefix = x2a) then
            l ← readRESPLine s'; count ← strconv_ParseInt l.1;
            if count =? -1 then Some (RNil, l.2)
            else if count <? -1 then None
            else r ← parse_items (parseRESP f) (Z.to_nat count) l.2; Some (RArr r.1, r.2)
          else if bool_decide (prefix = x3a) then
            l ← readRESPLine s'; n ← strconv_ParseInt l.1; Some (RInt n, l.2)
          else if bool_decide (prefix = x24) then
            l ← readRESPLine s'; len ← strconv_ParseInt l.1;
            if len =? -1 then Some (RNil, l.2)
            else if len <? -1 then None
            else
              let n := Z.to_nat len in
              if bool_decide (take 2 (drop n l.2) = crlf) then Some (RStr (take n l.2), drop (n + 2) l.2) else None
          else if bool_decide (prefix = x2b) then l ← readRESPLine s'; Some (RStr l.1, l.2)
          else None
      end
  end.

Definition read_reply (s : list byte) : option resp := fst <$> parseRESP (length s) s.

(** ** CLUSTER SLOTS: [parseClusterSlots] *)

Definition slot_range (entry : resp) : option (list Z) :=
  match entry with
  | RArr (RInt start :: RInt last :: _) =>
      if (start <? 0) || (last <? 0) || (last <? start) then None else Some (seqZ start (last - start + 1))
  | _ => None
  end.

Definition parseClusterSlots (r : resp) : option (list Z) :=
  match r with RArr entries => mjoin <$> mapM slot_range entries | _ => None end.

(** The slots of the node that gave the answer, as the operator takes them. *)
Definition getNodeSlots (answer : list byte) : option (list Z) := r ← read_reply answer; parseClusterSlots r.

(** ** CLUSTER NODES: [getClusterNodesAtAddr] *)

Record clusterNode := mkClusterNode { cn_ID : list byte; cn_Addr : list byte; cn_Flags : list byte }.

(** [strings.Split(s, "\r\n")]. *)
Fixpoint split_crlf (s : list byte) : list (list byte) :=
  match s with
  | [] => [[]]
  | x0d :: x0a :: s' => [] :: split_crlf s'
  | b :: s' => match split_crlf s' with [] => [[b]] | part :: parts => (b :: part) :: parts end
  end.

(** [strings.Fields]: the runs of runes that are not spaces. *)
Fixpoint fields_of (rs : list rune) (current : list byte) : list (list byte) :=
  match rs with
  | [] => if bool_decide (current = []) then [] else [current]
  | r :: rs' =>
      if space_rune r then (if bool_decide (current = []) then [] else [current]) ++ fields_of rs' []
      else fields_of rs' (current ++ match r with Rune bs => bs | BadByte b => [b] end)
  end.

Definition Fields (s : list byte) : list (list byte) := fields_of (runes s) [].

Definition node_of_line (line : list byte) : option clusterNode :=
  match Fields line with id :: addr :: flags :: _ => Some (mkClusterNode id addr flags) | _ => None end.

Definition getClusterNodes (answer : list byte) : option (list clusterNode) :=
  r ← read_reply answer;
  match r with RStr raw => Some (omap node_of_line (split_crlf (TrimSpace raw))) | _ => None end.

(** ** The target of a rebalance: [buildTargetOwnerBySlot] *)

Definition set_range (owner : string) (start last : Z) (m : gmap Z string) : gmap Z string :=
  foldl (λ m slot, <[slot := owner]> m) m (seqZ start (last - start)).

Fixpoint target_loop (slotsPerPod remainder i start : Z) (pods : list string) (m : gmap Z string) : gmap Z string :=
  match pods with
  | [] => m
  | pod :: pods' =>
      let last := start + slotsPerPod + (if i <? remainder then 1 else 0) in
      target_loop slotsPerPod remainder (i + 1) last pods' (set_range pod start last m)
  end.

Definition buildTargetOwnerBySlot (totalSlots : Z) (pods : list string) : gmap Z string :=
  match pods with
  | [] => ∅
  | _ => let n := Z.of_nat (length pods) in target_loop (totalSlots / n) (totalSlots mod n) 0 0 pods ∅
  end.

(** The ranges that [initializeCluster] gives the pods with ADDSLOTS. *)
Definition initial_range (totalSlots : Z) (n i : Z) : Z * Z :=
  (i * (totalSlots / n) + Z.min i (totalSlots mod n), (i + 1) * (totalSlots / n) + Z.min (i + 1) (totalSlots mod n)).

(** ** Current owners *)

(** A ready pod: its name and address, and its answer to CLUSTER SLOTS. *)
Record pod_view := mkPod { pv_Name : string; pv_Addr : string; pv_Slots : option (list Z) }.

(** [rebalanceSlots] and [migrateDataFromNode] stop at the first pod that does
    not answer. *)
Fixpoint currentOwners (pods : list pod_view) (m : gmap Z string) : option (gmap Z string) :=
  match pods with
  | [] => Some m
  | p :: pods' => slots ← pv_Slots p; currentOwners pods' (foldl (λ m slot, <[slot := pv_Name p]> m) m slots)
  end.

(** The addresses by name; later pods of the same name replace earlier ones. *)
Definition nodeAddrs (pods : list pod_view) : gmap string string :=
  foldl (λ m p, <[pv_Name p := pv_Addr p]> m) ∅ pods.

Record slot_move := mkMove { sv_slot : Z; sv_source : string; sv_target : string }.

(** The moves of [rebalanceSlots], in order. *)
Definition rebalance_moves (totalSlots : Z) (current target : gmap Z string) : list slot_move :=
  omap (λ slot,
          let source := default "" (current !! slot) in
          let dest := default "" (target !! slot) in
          if bool_decide (source = "") || bool_decide (source = dest) then None else Some (mkMove slot source dest))
    (seqZ 0 totalSlots).

(** The moves of [migrateDataFromNode]. *)
Definition drain_moves (totalSlots : Z) (podName : string) (current target : gmap Z string) : list slot_move :=
  omap (λ slot,
          let dest := default "" (target !! slot) in
          if negb (bool_decide (default "" (current !! slot) = podName)) || bool_decide (dest = "") then None
          else Some (mkMove slot podName dest))
    (seqZ 0 totalSlots).

Definition rebalance_plan (totalSlots : Z) (pods : list pod_view) : option (list slot_move) :=
  match pods with
  | [] => Some []
  | _ => current ← currentOwners pods ∅; Some (rebalance_moves totalSlots current (buildTargetOwnerBySlot totalSlots (pv_Name <$> pods)))
  end.

Definition drain_plan (totalSlots : Z) (podName : string) (targetReplicas : nat) (pods : list pod_view) : option (list slot_move) :=
  let retained := filter (λ p, pv_Name p ≠ podName) pods in
  if (length retained <? targetReplicas)%nat then None
  else current ← currentOwners pods ∅;
       Some (drain_moves totalSlots podName current (buildTargetOwnerBySlot totalSlots (pv_Name <$> take targetReplicas retained))).

(** ** Moving a slot: [moveSlot] *)

(** The pods as the operator meets them: a state that commands change. *)
Class Pods (W : Type) := {
  pod_send : W → string → list string → option string * W;
  pod_nodeID : W → string → (string + string) * W;
  pod_keys : W → string → Z → Z → (string + list string) * W
}.

Section move.
Context {W : Type} `{!Pods W}.

(** [net.SplitHostPort], and the port that [Sscanf] reads. *)
Context (split_host_port : string → string + string * Z).

Definition setslot (slot : Z) (rest : list string) : list string := ["CLUSTER"; "SETSLOT"; itoa slot] ++ rest.

Definition rollbackSlotMove (w : W) (sourceAddr targetAddr : string) (slot : Z) : W :=
  let '(_, w) := pod_send w sourceAddr (setslot slot ["STABLE"]) in
  (pod_send w targetAddr (setslot slot ["STABLE"])).2.

Definition migrate_command (host : string) (port : Z) (key : string) : list string :=
  ["MIGRATE"; host; itoa port; key; "0"; "5000"; "REPLACE"].

Fixpoint send_all (w : W) (addr host : string) (port : Z) (keys : list string) : option string * W :=
  match keys with
  | [] => (None, w)
  | key :: keys' =>
      match pod_send w addr (migrate_command host port key) with
      | (Some e, w') => (Some e, w')
      | (None, w') => send_all w' addr host port keys'
      end
  end.

(** The loop over batches of keys; [None] is a loop that has not ended. *)
Fixpoint move_keys (fuel : nat) (w : W) (sourceAddr host : string) (port slot : Z) : option (option string * W) :=
  match fuel with
  | O => None
  | S f =>
      match pod_keys w sourceAddr slot 100 with
      | (inl e, w') => Some (Some e, w')
      | (inr [], w') => Some (None, w')
      | (inr keys, w') =>
          match send_all w' sourceAddr host port keys with
          | (Some e, w2) => Some (Some e, w2)
          | (None, w2) => move_keys f w2 sourceAddr host port slot
          end
      end
  end.

(** The error that [moveSlot] returns, if any. *)
Definition moveSlot (fuel : nat) (w : W) (sourceAddr targetAddr : string) (slot : Z) : option (option string * W) :=
  let back e w := Some (Some e, rollbackSlotMove w sourceAddr targetAddr slot) in
  match pod_nodeID w targetAddr with
  | (inl e, w) => Some (Some e, w)
  | (inr targetID, w) =>
  match pod_nodeID w sourceAddr with
  | (inl e, w) => Some (Some e, w)
  | (inr sourceID, w) =>
  match pod_send w targetAddr (setslot slot ["IMPORTING"; sourceID]) with
  | (Some e, w) => Some (Some e, w)
  | (None, w) =>
  match pod_send w sourceAddr (setslot slot ["MIGRATING"; targetID]) with
  | (Some e, w) => back e w
  | (None, w) =>
  match split_host_port targetAddr with
  | inl e => Some (Some e, w)
  | inr (host, port) =>
  match move_keys fuel w sourceAddr host port slot with
  | None => None
  | Some (Some e, w) => back e w
  | Some (None, w) =>
  match pod_send w targetAddr (setslot slot ["NODE"; targetID]) with
  | (Some e, w) => back e w
  | (None, w) =>
  match pod_send w sourceAddr (setslot slot ["NODE"; targetID]) with
  | (Some e, w) => back e w
  | (None, w) => Some (None, w)
  end end end end end end end end.
End move.

(** ** Slot plans: [migration.go] *)

(** [strings.Split(s, "-")]. *)
Fixpoint split_dash (s : list byte) : list (list byte) :=
  match s with
  | [] => [[]]
  | b :: s' =>
      if bool_decide (b = x2d) then [] :: split_dash s'
      else match split_dash s' with [] => [[b]] | part :: parts => (b :: part) :: parts end
  end.

Record SlotPlanEntry := mkPlanEntry { spe_Start : Z; spe_End : Z; spe_NodeName : string }.

Definition plan_entry (kv : string * string) : option SlotPlanEntry :=
  match split_dash (StringToBytes kv.1) with
  | [a; b] =>
      start ← strconv_ParseInt a; last ← strconv_ParseInt b;
      if (start <? 0) || (SlotCount <=? last) || (last <? start) then None else Some (mkPlanEntry start last kv.2)
  | _ => None
  end.

Definition parseSlotPlan `{!GoRange string string} (plan : gmap string string) : option (list SlotPlanEntry) :=
  mapM plan_entry (go_range plan).

Record MigrationTask := mkTask { mt_Slot : Z; mt_SourceNode : string; mt_SourceAddr : string; mt_TargetNode : string; mt_TargetAddr : string }.

Definition slot_task (addrs : gmap string string) (current : gmap Z string) (node : string) (slot : Z) : option MigrationTask :=
  let currentOwner := default "" (current !! slot) in
  if bool_decide (current !! slot = Some node) || bool_decide (currentOwner = "") then None
  else match addrs !! currentOwner, addrs !! node with
       | Some sourceAddr, Some targetAddr => Some (mkTask slot currentOwner sourceAddr node targetAddr)
       | _, _ => None
       end.

Definition calculateMigrations (plan : list SlotPlanEntry) (current : gmap Z string) (addrs : gmap string string) : list MigrationTask :=
  plan ≫= λ e, omap (slot_task addrs current (spe_NodeName e)) (seqZ (spe_Start e) (spe_End e - spe_Start e + 1)).
