(* ===== verification/Program.v ===== *)
(** * The server program: [cmd/server/main.go]

    The configuration file and what it sets, the configuration of the memory
    store, and the order in which the program stops its parts. The flags are a
    record, the file a list of bytes. *)

From S2P Require Import Prelude Strconv Codec Store Slots Gossip Replication Cluster StateFile Engine Handler Protocol Migration Operator.
From stdpp Require Import options.

(** ** Reading the file *)

(** [bufio.ScanLines]: the lines without their ends; an empty last line is none. *)
Fixpoint scan_lines (s current : list byte) : list (list byte) :=
  match s with
  | [] => match current with [] => [] | _ => [current] end
  | b :: s' => if bool_decide (b = x0a) then current :: scan_lines s' [] else scan_lines s' (current ++ [b])
  end.

Definition drop_cr (line : list byte) : list byte :=
  match last line with Some x0d => removelast line | _ => line end.

(** [bufio.MaxScanTokenSize]: a longer line ends the scan with an error. *)
Definition MaxScanTokenSize : nat := 65536.

Definition joined (parts : list (list byte)) : string := str (concat (match parts with [] => [] | p :: l => p :: ((λ q, x20 :: q) <$> l) end)).

(** One line: comments and lines of one word set nothing. *)
Definition config_entry (line : list byte) : option (string * string) :=
  let line := TrimSpace (drop_cr line) in
  match line with
  | [] => None
  | x23 :: _ => None
  | _ => match Fields line with key :: v :: rest => Some (str key, joined (v :: rest)) | _ => None end
  end.

(** [None] is the error of a line that is too long. *)
Definition loadConfigFile (content : list byte) : option (gmap string string) :=
  let lines := scan_lines content [] in
  if forallb (λ l, Nat.ltb (length l) MaxScanTokenSize) lines
  then Some (foldl (λ m line, match config_entry line with Some (k, v) => <[k := v]> m | None => m end) ∅ lines)
  else None.

(** ** What it sets *)

Record ServerFlags := mkFlags {
  fl_addr : string;
  fl_clusterEnabled : bool;
  fl_clusterPort : Z;
  fl_adminEnabled : bool;
  fl_adminAddr : string;
  fl_adminUser : string;
  fl_adminPassword : string;
  fl_adminAllowDangerous : bool
}.

(** The defaults of the flags. *)
Definition DefaultFlags : ServerFlags := mkFlags ":6379" false 16379 false "127.0.0.1:8080" "" "" false.

(** The value of a digit string, in a 64-bit [int]; the default when another
    character occurs or the value is 0. *)
Fixpoint digits_value (s : list byte) (val : Z) : option Z :=
  match s with
  | [] => Some val
  | c :: s' => if within 0x30 0x39 c then digits_value s' (i64 (val * 10 + (Z_of_byte c - 48))) else None
  end.

Definition parseInt (s : string) (defaultVal : Z) : Z :=
  match digits_value (StringToBytes s) 0 with
  | Some val => if val =? 0 then defaultVal else val
  | None => defaultVal
  end.

(** [strings.EqualFold] with a lower case word: U+017F folds to s, and U+212A to k. *)
Fixpoint fold_lower (s : list byte) : list byte :=
  match s with
  | xc5 :: xbf :: s' => x73 :: fold_lower s'
  | xe2 :: x84 :: xaa :: s' => x6b :: fold_lower s'
  | b :: s' => (if within 0x41 0x5A b then byte_of_Z (Z_of_byte b + 32) else b) :: fold_lower s'
  | [] => []
  end.

Definition fold_is (s word : string) : bool := bool_decide (fold_lower (StringToBytes s) = StringToBytes word).

Definition yes_or_true (v : string) : bool := fold_is v "yes" || fold_is v "true".

Definition non_empty (v : option string) : option string :=
  match v with Some v => if bool_decide (v = "") then None else Some v | None => None end.

Definition applyConfig (cfg : gmap string string) (f : ServerFlags) : ServerFlags :=
  mkFlags
    (match non_empty (cfg !! "port") with Some v => ":" +:+ v | None => fl_addr f end)
    (match cfg !! "cluster-enabled" with Some v => yes_or_true v | None => fl_clusterEnabled f end)
    (match non_empty (cfg !! "cluster-port") with Some v => parseInt v (fl_clusterPort f) | None => fl_clusterPort f end)
    (match cfg !! "admin-enabled" with Some v => yes_or_true v | None => fl_adminEnabled f end)
    (default (fl_adminAddr f) (non_empty (cfg !! "admin-addr")))
    (default (fl_adminUser f) (non_empty (cfg !! "admin-user")))
    (default (fl_adminPassword f) (non_empty (cfg !! "admin-password")))
    (match cfg !! "admin-allow-dangerous" with Some v => yes_or_true v | None => fl_adminAllowDangerous f end).

(** The port that the cluster announces. *)
Definition announced_port (f : ServerFlags) : Z :=
  match StringToBytes (fl_addr f) with
  | x3a :: rest => match rest with [] => 6379 | _ => parseInt (str rest) 6379 end
  | _ => 6379
  end.

(** ** The memory limit *)

Definition memory_suffixes : list (string * Z) :=
  [("gb", 1073741824); ("g", 1073741824); ("mb", 1048576); ("m", 1048576); ("kb", 1024); ("k", 1024); ("b", 1)].

(** [strings.TrimSuffix], when the suffix is there. *)
Definition strip_suffix (s suffix : list byte) : option (list byte) :=
  let n := (length s - length suffix)%nat in
  if bool_decide (drop n s = suffix) then Some (take n s) else None.

Fixpoint match_suffix (v : list byte) (l : list (string * Z)) : list byte * Z :=
  match l with
  | [] => (v, 1)
  | (suffix, multiplier) :: l' =>
      match strip_suffix v (StringToBytes suffix) with
      | Some rest => (TrimSpace rest, multiplier)
      | None => match_suffix v l'
      end
  end.

(** [strings.ToLower], for a result of which only ASCII letters are read: no
    letter outside ASCII but U+212A has one of them as its lower case. *)
Definition memory_lower : list byte → list byte :=
  fix go s := match s with
  | xe2 :: x84 :: xaa :: s' => x6b :: go s'
  | b :: s' => (if within 0x41 0x5A b then byte_of_Z (Z_of_byte b + 32) else b) :: go s'
  | [] => []
  end.

(** The product is an [int64]. *)
Definition parseMemoryBytes (value : string) : option Z :=
  let '(v, multiplier) := match_suffix (TrimSpace (memory_lower (StringToBytes value))) memory_suffixes in
  n ← strconv_ParseInt v; Some (i64 (n * multiplier)).

Definition buildMemoryConfigFromConfig (cfg : gmap string string) : Config :=
  mkConfig (sg_ShardCount DefaultConfig)
    (default (sg_MaxMemory DefaultConfig) (non_empty (cfg !! "maxmemory") ≫= parseMemoryBytes))
    (default (sg_EvictPolicy DefaultConfig) (non_empty (cfg !! "maxmemory-policy"))).

(** ** Stopping *)

Section shutdown.
Context {B : Type} `{!StateJson B} {E : Type} `{!ProtocolEngine E} (serialize : EngineEntry → GoError + list byte).
Context `{!GoRange string GossipNode}.

(** The transitions of the program, which never calls [Save]. *)
Definition program_step (m m' : StateManager B) : Prop := ∃ ev, state_step m ev m' ∧ ev ≠ EvSaveCalled.

(** [main] after [Close] of the state manager has returned, in the state [m]: it
    drains the slots, which leaves the cluster [c], and the cluster may go on
    changing until the program ends. *)
Inductive shutdown (conns : nat → (nat → Attempt) * Env * Env) (e : E) (m : StateManager B) : StateManager B → Cluster → Prop :=
  | shutdown_run c e' m' :
      st_close m = CloseDone ∨ st_close m = CloseFailed →
      DrainSlots_keys serialize conns (st_provider m) e = Some (c, e') →
      rtc program_step (MarkDirty m c) m' → shutdown conns e m m' c.
End shutdown.
