(* ===== verification/OperatorSpec.v ===== *)
(** * What the operator asks of the pods

    The slots of a new cluster and the target of a rebalance are the same balanced
    partition of the slots. The owners that a rebalance starts from are read from
    CLUSTER SLOTS, whose reply lists the slots of every node: read as the slots of
    the pod that answered, they make the last pod the owner of all of them. *)

From S2P Require Import Prelude Hash Strconv Wire Slots SlotsSpec Gossip Replication Cluster Codec Engine Handler ClusterCmd ClusterCmdSpec Operator.
From stdpp Require Import options.

(** ** The target partition *)

Lemma give_all_lookup owner l (m : gmap Z string) s :
  foldl (λ m slot, <[slot := owner]> m) m l !! s = if bool_decide (s ∈ l) then Some owner else m !! s.
Proof.
  revert m. induction l as [|x l IH]; intros m; simpl; [done|]. rewrite IH. repeat case_bool_decide; set_unfold; try naive_solver.
  - assert (s = x) as -> by naive_solver. by rewrite lookup_insert_eq.
  - rewrite lookup_insert_ne; naive_solver.
Qed.

Lemma set_range_lookup owner start last m s :
  set_range owner start last m !! s = if bool_decide (start ≤ s < last) then Some owner else m !! s.
Proof.
  unfold set_range. rewrite give_all_lookup, (bool_decide_ext (s ∈ _) (start ≤ s < last)); [done|].
  rewrite elem_of_seqZ. lia.
Qed.

Section target.
Context (q r : Z) (Hq : 0 ≤ q) (Hr : 0 ≤ r).

Definition lower (k : Z) : Z := k * q + Z.min k r.

Lemma lower_next k : lower k + q + (if k <? r then 1 else 0) = lower (k + 1).
Proof. unfold lower. destruct (Z.ltb_spec k r); lia. Qed.

Lemma lower_mono k j : 0 ≤ k ≤ j → lower k ≤ lower j.
Proof using Hq Hr. unfold lower. nia. Qed.

Lemma target_loop_spec pods i m s :
  0 ≤ i →
  (∀ k pod, pods !! k = Some pod → lower (i + Z.of_nat k) ≤ s < lower (i + Z.of_nat k + 1) →
     target_loop q r i (lower i) pods m !! s = Some pod) ∧
  (s < lower i ∨ lower (i + Z.of_nat (length pods)) ≤ s → target_loop q r i (lower i) pods m !! s = m !! s).
Proof using Hq Hr.
  revert i m. induction pods as [|pod pods IH]; intros i m Hi; [by split|].
  cbn [target_loop]. cbv zeta. rewrite lower_next.
  destruct (IH (i + 1) (set_range pod (lower i) (lower (i + 1)) m)) as [IH1 IH2]; [lia|]. split.
  - intros [|k] pod' Hk Hs; simpl in Hk.
    + simplify_eq. rewrite Z.add_0_r in Hs. rewrite IH2 by lia. by rewrite set_range_lookup, bool_decide_eq_true_2.
    + apply (IH1 k); [done|]. by replace (i + 1 + Z.of_nat k) with (i + Z.of_nat (S k)) by lia.
  - cbn [length]. intros Hs. pose proof (lower_mono i (i + 1)). pose proof (lower_mono (i + 1) (i + Z.of_nat (S (length pods)))).
    rewrite IH2 by (replace (i + 1 + Z.of_nat (length pods)) with (i + Z.of_nat (S (length pods))) by lia; lia).
    rewrite set_range_lookup, bool_decide_eq_false_2; [done|]. lia.
Qed.

(** Every value below the last bound lies between two consecutive ones. *)
Lemma lower_find n s : 0 ≤ s < lower (Z.of_nat n) → ∃ k, (k < n)%nat ∧ lower (Z.of_nat k) ≤ s < lower (Z.of_nat k + 1).
Proof.
  induction n as [|n IH]; intros Hs; [unfold lower in Hs; lia|].
  destruct (decide (s < lower (Z.of_nat n))) as [H|H].
  - destruct IH as (k & Hk & Hb); [lia|]. exists k. split; [lia|done].
  - exists n. split; [lia|]. replace (Z.of_nat n + 1) with (Z.of_nat (S n)) by lia. lia.
Qed.
End target.

(** The target of a rebalance over [n] pods is the partition that a new cluster of
    [n] pods starts with: pod [i] is the target of exactly the slots of the range
    it is given by ADDSLOTS, every slot has a target, no slot beyond the table
    has one, and the shares of two pods differ by at most one slot. *)
Theorem target_is_initial_partition totalSlots pods :
  let n := Z.of_nat (length pods) in
  let range i := initial_range totalSlots n (Z.of_nat i) in
  0 ≤ totalSlots → pods ≠ [] →
  (∀ i pod s, pods !! i = Some pod → (range i).1 ≤ s < (range i).2 → buildTargetOwnerBySlot totalSlots pods !! s = Some pod) ∧
  (∀ s, 0 ≤ s < totalSlots → ∃ i, (i < length pods)%nat ∧ (range i).1 ≤ s < (range i).2) ∧
  (∀ s, s < 0 ∨ totalSlots ≤ s → buildTargetOwnerBySlot totalSlots pods !! s = None) ∧
  (∀ i, totalSlots / n ≤ (range i).2 - (range i).1 ≤ totalSlots / n + 1).
Proof.
  cbv zeta. intros HT Hp. set (n := Z.of_nat (length pods)).
  assert (0 < n) as Hn by (unfold n; destruct pods; [done|simpl; lia]).
  set (q := totalSlots / n). set (r := totalSlots mod n).
  assert (0 ≤ q) by (by apply Z.div_pos). assert (0 ≤ r < n) by (by apply Z.mod_pos_bound).
  assert (totalSlots = n * q + r) as HE by (by apply Z_div_mod_eq_full).
  assert (lower q r n = totalSlots) as Hl by (unfold lower; lia).
  assert (buildTargetOwnerBySlot totalSlots pods = target_loop q r 0 (lower q r 0) pods ∅) as ->.
  { unfold buildTargetOwnerBySlot, lower. destruct pods; [done|]. by rewrite Z.mul_0_l, Z.min_l by lia. }
  repeat split; try (unfold initial_range; fold q r; simpl; lia).
  - intros i pod s Hi Hs. destruct (target_loop_spec q r ltac:(lia) ltac:(lia) pods 0 ∅ s) as [H1 _]; [lia|].
    apply (H1 i); [done|]. exact Hs.
  - intros s Hs. apply (lower_find q r). fold n. lia.
  - intros s Hs. destruct (target_loop_spec q r ltac:(lia) ltac:(lia) pods 0 ∅ s) as [_ H2]; [lia|].
    rewrite H2; [done|]. fold n. rewrite Z.add_0_l, Hl. change (lower q r 0) with (0 * q + Z.min 0 r). lia.
Qed.

(** ** Reading a reply *)

(** The bytes that the server's library writes for a reply. *)
Class RespWriter (wire : Reply → list byte) := {
  wire_array n : wire (WArray n) = x2a :: strconv_FormatInt n ++ crlf;
  wire_int n : wire (WInt n) = x3a :: strconv_FormatInt n ++ crlf;
  wire_bulk b : wire (WBulk b) = x24 :: strconv_FormatInt (Z.of_nat (length b)) ++ crlf ++ b ++ crlf
}.

(** Numbers that a Go [int] holds. *)
Definition reply_fits (r : Reply) : Prop :=
  match r with
  | WInt n => is_i64 n
  | WArray n => 0 ≤ n < 2 ^ 63
  | WBulk b => Z.of_nat (length b) < 2 ^ 63
  | _ => True
  end.

Lemma FormatInt_no_newline n : forallb no_newline (strconv_FormatInt n) = true.
Proof.
  unfold strconv_FormatInt. destruct (Z.ltb_spec n 0).
  - cbn [forallb]. rewrite decimal_no_newline by lia. done.
  - by apply decimal_no_newline.
Qed.

Lemma readRESPLine_line l rest : forallb no_newline l = true → readRESPLine (l ++ crlf ++ rest) = Some (l, rest).
Proof.
  intros Hl. unfold readRESPLine. rewrite ReadString_line by done. cbn [mbind option_bind fst snd]. cbv zeta.
  rewrite length_app. replace (length l + length crlf - 2)%nat with (length l) by (simpl; lia).
  rewrite drop_app_length, take_app_length, bool_decide_eq_true_2 by done.
  by rewrite (proj2 (Nat.leb_le _ _)) by (simpl; lia).
Qed.

Lemma number_line n rest :
  is_i64 n →
  readRESPLine (strconv_FormatInt n ++ crlf ++ rest) = Some (strconv_FormatInt n, rest) ∧
  strconv_ParseInt (strconv_FormatInt n) = Some n.
Proof. intros. split; [apply readRESPLine_line, FormatInt_no_newline|by apply ParseInt_strconv]. Qed.

Section reader.
Context (wire : Reply → list byte) `{!RespWriter wire}.

Lemma read_int f n rest : is_i64 n → parseRESP (S f) (wire (WInt n) ++ rest) = Some (RInt n, rest).
Proof using Type*.
  intros Hn. destruct (number_line n rest Hn) as [H1 H2]. rewrite wire_int, <-app_comm_cons, <-app_assoc.
  cbn [parseRESP]. rewrite bool_decide_eq_false_2, bool_decide_eq_true_2 by done.
  rewrite H1. cbn [mbind option_bind fst snd]. by rewrite H2.
Qed.

Lemma read_bulk f b rest : Z.of_nat (length b) < 2 ^ 63 → parseRESP (S f) (wire (WBulk b) ++ rest) = Some (RStr b, rest).
Proof using Type*.
  intros Hb. destruct (number_line (Z.of_nat (length b)) (b ++ crlf ++ rest)) as [H1 H2]; [unfold is_i64; lia|].
  rewrite wire_bulk, <-app_comm_cons, <-!app_assoc. cbn [parseRESP].
  rewrite !bool_decide_eq_false_2, bool_decide_eq_true_2 by done. rewrite H1. cbn [mbind option_bind fst snd]. rewrite H2.
  cbn [mbind option_bind]. cbv zeta. rewrite (proj2 (Z.eqb_neq _ _)), (proj2 (Z.ltb_ge _ _)), Nat2Z.id by lia.
  rewrite drop_app_length, take_app_length, bool_decide_eq_true_2 by done. rewrite app_assoc, drop_app_length'; [done|].
  by rewrite length_app.
Qed.

Lemma read_array f n rest :
  0 ≤ n < 2 ^ 63 →
  parseRESP (S f) (wire (WArray n) ++ rest) = (r ← parse_items (parseRESP f) (Z.to_nat n) rest; Some (RArr r.1, r.2)).
Proof using Type*.
  intros Hn. destruct (number_line n rest) as [H1 H2]; [unfold is_i64; lia|]. rewrite wire_array, <-app_comm_cons, <-app_assoc.
  cbn [parseRESP]. rewrite bool_decide_eq_true_2 by done. rewrite H1. cbn [mbind option_bind fst snd]. rewrite H2.
  cbn [mbind option_bind]. by rewrite (proj2 (Z.eqb_neq _ _)), (proj2 (Z.ltb_ge _ _)) by lia.
Qed.

(** The elements that CLUSTER SLOTS writes for a range, read back. *)
Definition range_value (r : SlotRange) (node : Node) : resp :=
  RArr [RInt (rg_Start r); RInt (rg_End r); RArr [RStr (StringToBytes (nd_IP node)); RInt (nd_Port node); RStr (StringToBytes (nd_ID node))]].

Lemma read_range f c r node rest :
  Cluster_GetSlotNode c (rg_Start r) = Some node → Forall reply_fits (slot_range_reply c r) →
  parseRESP (S (S (S f))) (concat (wire <$> slot_range_reply c r) ++ rest) = Some (range_value r node, rest).
Proof using Type*.
  unfold slot_range_reply. intros -> HF. repeat (apply Forall_cons in HF as [? HF]). clear HF.
  cbn [fmap list_fmap concat]. rewrite app_nil_r, <-!app_assoc. rewrite read_array by done.
  change (Z.to_nat 3) with 3%nat. cbn [parse_items]. unfold bulk_string in *. cbn [reply_fits] in *.
  rewrite read_int by done. cbn [mbind option_bind fst snd]. rewrite read_int by done. cbn [mbind option_bind fst snd].
  rewrite read_array by done. change (Z.to_nat 3) with 3%nat. cbn [parse_items].
  rewrite read_bulk by done. cbn [mbind option_bind fst snd]. rewrite read_int by done. cbn [mbind option_bind fst snd].
  rewrite read_bulk by done. done.
Qed.

(** The answer of a node to CLUSTER SLOTS, as bytes. *)
Definition slots_output (c : Cluster) : list Reply :=
  WArray (Z.of_nat (length (GetClusterSlots (c_slots c)))) :: (GetClusterSlots (c_slots c) ≫= slot_range_reply c).

Definition slots_answer (c : Cluster) : list byte := concat (wire <$> slots_output c).

(** A node that answers for all of its slots. *)
Definition answers (c : Cluster) : Prop :=
  Forall (λ r, is_Some (Cluster_GetSlotNode c (rg_Start r))) (GetClusterSlots (c_slots c)) ∧ Forall reply_fits (slots_output c).

Lemma read_ranges f c ranges :
  Forall (λ r, is_Some (Cluster_GetSlotNode c (rg_Start r))) ranges → Forall reply_fits (ranges ≫= slot_range_reply c) →
  Forall (λ r, 0 ≤ rg_Start r ≤ rg_End r) ranges →
  ∃ vs, parse_items (parseRESP (S (S (S f)))) (length ranges) (concat (wire <$> (ranges ≫= slot_range_reply c))) = Some (vs, []) ∧
    mapM slot_range vs = Some ((λ r, seqZ (rg_Start r) (rg_End r - rg_Start r + 1)) <$> ranges).
Proof using Type*.
  induction ranges as [|r ranges IH]; intros Hk Hf Hb; [by exists []|].
  apply Forall_cons in Hk as [[node Hn] Hk]. apply Forall_cons in Hb as [Hr Hb].
  rewrite bind_cons in *. apply Forall_app in Hf as [Hf1 Hf2].
  destruct IH as (vs & Hp & Hv); [done..|]. exists (range_value r node :: vs).
  rewrite fmap_app, concat_app. cbn [length parse_items]. rewrite (read_range f c r node) by done.
  cbn [mbind option_bind fst snd]. rewrite Hp. split; [done|].
  cbn [mapM]. unfold range_value at 1. cbn [slot_range].
  rewrite (proj2 (Z.ltb_ge (rg_Start r) 0)), (proj2 (Z.ltb_ge (rg_End r) 0)), (proj2 (Z.ltb_ge (rg_End r) (rg_Start r))) by lia.
  cbn [orb mbind option_bind]. by rewrite Hv.
Qed.

Lemma cluster_slots_bounds slots i ranges current :
  0 ≤ i → Forall (λ r, 0 ≤ rg_Start r ≤ rg_End r) (ranges ++ option_list current) →
  match current with Some c => rg_Start c ≤ i | None => True end →
  Forall (λ r, 0 ≤ rg_Start r ≤ rg_End r) (cluster_slots_loop i slots ranges current).
Proof using Type.
  revert i ranges current. induction slots as [|info slots IH]; intros i ranges current Hi HF Hc; [done|].
  cbn [cluster_slots_loop]. case_bool_decide; [apply IH; rewrite ?app_nil_r; by try lia|].
  destruct current as [c|]; [case_bool_decide|]; apply Forall_app in HF as [H1 H2]; (apply IH; [lia| |simpl; lia]).
  - apply Forall_app. split; [done|]. apply Forall_cons in H2 as [H2 _]. repeat constructor; simpl; lia.
  - repeat (apply Forall_app; split); try done. repeat constructor; simpl; lia.
  - apply Forall_app. split; [done|]. repeat constructor; simpl; lia.
Qed.

Definition assigned (sm : SlotManager) (slot : Z) : Prop := 0 ≤ slot ∧ ∃ n, n ≠ "" ∧ si_NodeID <$> slot_at sm slot = Some n.

Lemma ranges_cover_assigned sm slot :
  slot ∈ mjoin ((λ r, seqZ (rg_Start r) (rg_End r - rg_Start r + 1)) <$> GetClusterSlots sm) ↔ assigned sm slot.
Proof using Type.
  transitivity (∃ n, covers (GetClusterSlots sm) slot n).
  - rewrite list_elem_of_join. setoid_rewrite list_elem_of_fmap. split.
    + intros (l & Hin & r & -> & Hr). rewrite elem_of_seqZ in Hin. exists (rg_NodeID r), r. split_and!; [done|lia..|done].
    + intros (n & r & Hr & Hb & _). eexists. split; [|by exists r]. rewrite elem_of_seqZ. lia.
  - unfold GetClusterSlots, assigned. setoid_rewrite cluster_slots_cover; [|done]. rewrite Z.sub_0_r. simpl. split.
    + intros (n & [H|(? & ? & ?)]); [by apply covers_nil in H|]. eauto.
    + intros (? & n & ? & ?). exists n. by right.
Qed.

(** The slots that the operator reads from the answer of a node are those assigned
    to any node in its table. *)
Lemma answer_is_whole_cluster c :
  answers c →
  ∃ slots, getNodeSlots (slots_answer c) = Some slots ∧ ∀ slot, slot ∈ slots ↔ assigned (c_slots c) slot.
Proof using Type*.
  intros [Hk Hf]. unfold slots_output in Hf. apply Forall_cons in Hf as [Hn Hf]. cbn [reply_fits] in Hn.
  assert (Forall (λ r, 0 ≤ rg_Start r ≤ rg_End r) (GetClusterSlots (c_slots c))) as Hb
    by (apply cluster_slots_bounds; [lia|constructor|done]).
  unfold getNodeSlots, read_reply, slots_answer, slots_output. cbn [fmap list_fmap concat].
  set (n := length (GetClusterSlots (c_slots c))) in *.
  assert (∃ f, length (wire (WArray (Z.of_nat n)) ++ concat (wire <$> (GetClusterSlots (c_slots c) ≫= slot_range_reply c))) = S (S (S (S f)))) as [f ->].
  { rewrite wire_array. unfold strconv_FormatInt. rewrite (proj2 (Z.ltb_ge _ _)) by lia.
    destruct (decimal_head (Z.of_nat n)) as (d & l & _ & ->); [lia|]. cbn [length app]. rewrite !length_app. eexists. simpl. by rewrite Nat.add_succ_r, Nat.add_succ_r. }
  destruct (read_ranges f c _ Hk Hf Hb) as (vs & Hp & Hv). fold n in Hp.
  rewrite read_array, Nat2Z.id by lia. rewrite Hp. cbn [mbind option_bind fmap option_fmap option_map fst snd].
  unfold parseClusterSlots. rewrite Hv. eexists. split; [done|]. intros slot.
  apply ranges_cover_assigned.
Qed.
End reader.

(** ** The owners that a rebalance starts from *)

Lemma clusterSlots_output {E} c (h : Handler E) :
  clusterSlots c h newConn = Some (tt, h, mkConn (slots_output c) None false).
Proof. unfold clusterSlots, hbind, reply. by rewrite replies_run. Qed.

Lemma currentOwners_last pods p slots m :
  Forall (λ q, is_Some (pv_Slots q)) pods → pv_Slots p = Some slots →
  ∃ m', currentOwners (pods ++ [p]) m = Some m' ∧ ∀ s, s ∈ slots → m' !! s = Some (pv_Name p).
Proof.
  revert m. induction pods as [|q pods IH]; intros m HF Hp; cbn [app currentOwners].
  - rewrite Hp. eexists. split; [done|]. intros s Hs. by rewrite give_all_lookup, bool_decide_eq_true_2.
  - apply Forall_cons in HF as [[sl Hq] HF]. rewrite Hq. by apply IH.
Qed.

Lemma rebalance_moves_spec totalSlots current target slot src dst :
  0 ≤ slot < totalSlots →
  mkMove slot src dst ∈ rebalance_moves totalSlots current target ↔
    src = default "" (current !! slot) ∧ dst = default "" (target !! slot) ∧ src ≠ "" ∧ src ≠ dst.
Proof.
  intros Hs. unfold rebalance_moves. rewrite list_elem_of_omap. setoid_rewrite elem_of_seqZ. split.
  - intros (s & Hin & E). repeat case_bool_decide; simplify_eq/=. naive_solver.
  - intros (-> & -> & H1 & H2). exists slot. split; [lia|]. by rewrite !bool_decide_eq_false_2.
Qed.

Section rebalance.
Context (wire : Reply → list byte) `{!RespWriter wire}.

(** A ready pod, and what its node answers. *)
Definition view (p : string * string * Cluster) : pod_view := mkPod p.1.1 p.1.2 (getNodeSlots (slots_answer wire p.2)).

(** C40: The operator takes every slot in the answer of a pod for a slot of that pod,
    but a node answers CLUSTER SLOTS with the ranges of all nodes. So in the plan
    of a rebalance the source of each slot assigned in the table of the last
    ready pod is the last pod, whoever owns the slot: each of them whose target
    is another pod is to be moved away from the last pod, and those whose target
    is the last pod stay where they are. *)
Theorem rebalance_sources_last_pod totalSlots pods name addr c :
  Forall (λ p, answers p.2) pods → answers c → name ≠ "" →
  (∀ E (h : Handler E), clusterSlots c h newConn = Some (tt, h, mkConn (slots_output c) None false)) ∧
  ∃ moves, rebalance_plan totalSlots (view <$> pods ++ [(name, addr, c)]) = Some moves ∧
    ∀ slot src dst, 0 ≤ slot < totalSlots → assigned (c_slots c) slot →
      mkMove slot src dst ∈ moves ↔
        src = name ∧ name ≠ dst ∧
        dst = default "" (buildTargetOwnerBySlot totalSlots ((λ p, p.1.1) <$> pods ++ [(name, addr, c)]) !! slot).
Proof using Type*.
  intros HF Hc Hn. split; [intros; apply clusterSlots_output|].
  destruct (answer_is_whole_cluster wire c Hc) as (slots & Hs & Hin).
  assert (Forall (λ q, is_Some (pv_Slots q)) (view <$> pods)) as HF'.
  { apply Forall_fmap. eapply Forall_impl; [exact HF|]. intros p Hp.
    destruct (answer_is_whole_cluster wire p.2 Hp) as (sl & Hsl & _). by exists sl. }
  destruct (currentOwners_last _ (view (name, addr, c)) slots ∅ HF' Hs) as (m & Hm & Hown).
  rewrite !fmap_app in *. cbn [fmap list_fmap] in *. unfold rebalance_plan. rewrite Hm.
  assert (pv_Name <$> (view <$> pods) ++ [view (name, addr, c)] = ((λ p, p.1.1) <$> pods) ++ [name]) as ->
    by (rewrite fmap_app, <-list_fmap_compose; done).
  eexists. split; [by destruct (view <$> pods)|]. intros slot src dst Hb Ha.
  rewrite rebalance_moves_spec by done. rewrite (Hown slot) by (by apply Hin). naive_solver.
Qed.
End rebalance.

(** ** On concrete pods *)

Lemma target_is_initial_partition_witness :
  buildTargetOwnerBySlot 16384 ["p0"; "p1"; "p2"] !! 5462 = Some "p1" ∧ initial_range 16384 3 1 = (5462, 10923).
Proof.
  destruct (target_is_initial_partition 16384 ["p0"; "p1"; "p2"]) as [H _]; [lia|done|].
  split; [|vm_compute; reflexivity]. apply (H 1%nat "p1"); [done|]. vm_compute. split; [discriminate|reflexivity].
Defined.

Section witnesses.
#[local] Instance ranges {K A} `{Countable K} : GoRange K A := listed_range.

Definition plain_wire (r : Reply) : list byte :=
  match r with
  | WArray n => x2a :: strconv_FormatInt n ++ crlf
  | WInt n => x3a :: strconv_FormatInt n ++ crlf
  | WBulk b => x24 :: strconv_FormatInt (Z.of_nat (length b)) ++ crlf ++ b ++ crlf
  | _ => []
  end.

#[local] Instance plain_writer : RespWriter plain_wire.
Proof. by split. Qed.

Let peer (id : string) (port : Z) : GossipNode :=
  mkNode id "10.0.0.1" port (port + 10000) NodeRoleMaster "" NodeStateConnected 0 0 ∅ (mkLoad 0 0 []).

(** Slot 7 belongs to "a"; the node "b" of the last pod owns nothing. *)
Let cluster (self : string) : Cluster :=
  mkCluster (mkSelf self "10.0.0.1" 1 2 NodeRoleMaster "" NodeStateConnected) demo3
    (mkGossip self {["a" := peer "a" 1; "b" := peer "b" 2]} ∅ 5) ClusterStateOK (NewManager None) 5 0 ∅.

Lemma cluster_answers self : self = "a" ∨ self = "b" → answers (cluster self).
Proof.
  intros Hself.
  assert (GetClusterSlots (c_slots (cluster self)) = [mkRange 7 7 "a"]) as E by (vm_compute; reflexivity).
  assert (∃ node, Cluster_GetSlotNode (cluster self) 7 = Some node ∧ nd_IP node = "10.0.0.1" ∧ nd_Port node = 1 ∧ nd_ID node = "a") as (node & Hn & H1 & H2 & H3)
    by (destruct Hself as [-> | ->]; eexists; (split; [vm_compute; reflexivity|repeat split])).
  unfold answers, slots_output. rewrite E. cbn [mbind list_bind length]. split; [by repeat constructor|].
  unfold slot_range_reply. cbn [rg_Start rg_End]. rewrite Hn, H1, H2, H3. by repeat constructor.
Qed.

Lemma rebalance_sources_last_pod_witness :
  ∃ moves, rebalance_plan 16384 (view plain_wire <$> [("p0", "10.0.0.1:1", cluster "a")] ++ [("p1", "10.0.0.1:2", cluster "b")]) = Some moves ∧
    mkMove 7 "p1" "p0" ∈ moves ∧ GetSlotNode (c_slots (cluster "b")) 7 = "a".
Proof.
  destruct (rebalance_sources_last_pod plain_wire 16384 [("p0", "10.0.0.1:1", cluster "a")] "p1" "10.0.0.1:2" (cluster "b"))
    as (_ & moves & Hm & H).
  - apply Forall_singleton, cluster_answers. by left.
  - apply cluster_answers. by right.
  - done.
  - exists moves. split; [exact Hm|]. split; [|vm_compute; reflexivity]. apply (H 7 "p1" "p0").
    + lia.
    + split; [lia|]. exists "a". split; [done|]. vm_compute. reflexivity.
    + split; [done|]. split; [done|]. vm_compute. reflexivity.
Defined.
End witnesses.
