(* ===== verification/KubeObjects.v ===== *)
(** * The Kubernetes operator: its resource and the objects it builds

    The custom resource of [api/v1alpha1/autocache_types.go], its status, and the
    objects that [controllers/] builds from it: the configuration, services,
    autoscaler and StatefulSet of a cluster. The fields that the operator does not
    read or set are left out, except what the API server fills into a pod
    template, which the operator compares. *)

From S2P Require Import Prelude Strconv Codec Handler.
From stdpp Require Import options.

(** ** The resource *)

Inductive ClusterPhase := PhaseNone | PhasePending | PhaseCreating | PhaseRunning | PhaseUpdating | PhaseScaling | PhaseFailed.
Inductive MigrationPhase := MigrationNone | MigrationPending | MigrationInProgress | MigrationCompleted | MigrationFailed.

#[global] Instance ClusterPhase_eq_dec : EqDecision ClusterPhase.
Proof. solve_decision. Defined.
#[global] Instance MigrationPhase_eq_dec : EqDecision MigrationPhase.
Proof. solve_decision. Defined.

(** The times of start and completion are left out. *)
Record MigStatus := mkMigStatus {
  mgs_Phase : MigrationPhase;
  mgs_CurrentSlot : option Z;
  mgs_SourceNode : string;
  mgs_TargetNode : string;
  mgs_Message : string
}.

Record NodeStatus := mkNodeStatus { ns_Name : string; ns_PodIP : string; ns_Ready : bool; ns_Phase : string; ns_Role : string }.

(** A status condition: its type, whether it holds, its reason. *)
Record Condition := mkCondition { co_Type : string; co_True : bool; co_Reason : string }.

Record HPASpec := mkHPASpec {
  hs_Enabled : bool; hs_Min : Z; hs_Max : Z; hs_CPU : option Z; hs_Memory : option Z; hs_Behavior : option string
}.

Record ConfigSpec := mkConfigSpec { cs_MaxMemory : string; cs_Policy : string; cs_Custom : gmap string string }.

Record StorageSpec := mkStorageSpec {
  so_Enabled : bool; so_StorageClassName : option string; so_Size : string; so_PersistenceMode : string
}.

(** Tiered storage: whether it is enabled, and the type of its cold tier. A value
    of a Kubernetes type that the operator only copies is a string. *)
Record ACSpec := mkACSpec {
  sp_Replicas : Z;
  sp_Image : string;
  sp_ImagePullPolicy : string;
  sp_Resources : string;
  sp_Port : Z;
  sp_ClusterPort : Z;
  sp_Config : option ConfigSpec;
  sp_SlotPlan : gmap string string;
  sp_HPA : option HPASpec;
  sp_Storage : option StorageSpec;
  sp_Tiered : option (bool * option string);
  sp_Auth : option bool;
  sp_Affinity : option string;
  sp_Tolerations : list string;
  sp_NodeSelector : gmap string string;
  sp_TopologySpread : list string;
  sp_SchedulerName : string;
  sp_PriorityClassName : string;
  sp_PodAnnotations : gmap string string;
  sp_ServiceAnnotations : gmap string string
}.

Record ACStatus := mkACStatus {
  as_Phase : ClusterPhase;
  as_Replicas : Z;
  as_ReadyReplicas : Z;
  as_SlotsAssigned : Z;
  as_ClusterStatus : string;
  as_Nodes : list NodeStatus;
  as_Migration : option MigStatus;
  as_HPAActive : bool;
  as_HPAReason : string;
  as_Conditions : list Condition;
  as_ObservedGeneration : Z
}.

Record AutoCache := mkAutoCache {
  ac_Name : string;
  ac_Generation : Z;
  ac_Deleting : bool;
  ac_Finalizers : list string;
  ac_Spec : ACSpec;
  ac_Status : ACStatus
}.

Definition finalizerName : string := "cache.autocache.io/finalizer".

Definition GetLabels (ac : AutoCache) : gmap string string :=
  {["app.kubernetes.io/name" := "autocache"; "app.kubernetes.io/instance" := ac_Name ac;
    "app.kubernetes.io/managed-by" := "autocache-operator"; "app.kubernetes.io/component" := "cache"]}.

Definition GetSelectorLabels (ac : AutoCache) : gmap string string :=
  {["app.kubernetes.io/name" := "autocache"; "app.kubernetes.io/instance" := ac_Name ac]}.

Definition with_status (ac : AutoCache) (s : ACStatus) : AutoCache :=
  mkAutoCache (ac_Name ac) (ac_Generation ac) (ac_Deleting ac) (ac_Finalizers ac) (ac_Spec ac) s.
Definition with_finalizers (ac : AutoCache) (l : list string) : AutoCache :=
  mkAutoCache (ac_Name ac) (ac_Generation ac) (ac_Deleting ac) l (ac_Spec ac) (ac_Status ac).
Definition with_phase (p : ClusterPhase) (ac : AutoCache) : AutoCache :=
  let s := ac_Status ac in
  with_status ac (mkACStatus p (as_Replicas s) (as_ReadyReplicas s) (as_SlotsAssigned s) (as_ClusterStatus s) (as_Nodes s)
    (as_Migration s) (as_HPAActive s) (as_HPAReason s) (as_Conditions s) (as_ObservedGeneration s)).
Definition with_migration (m : MigStatus) (ac : AutoCache) : AutoCache :=
  let s := ac_Status ac in
  with_status ac (mkACStatus (as_Phase s) (as_Replicas s) (as_ReadyReplicas s) (as_SlotsAssigned s) (as_ClusterStatus s) (as_Nodes s)
    (Some m) (as_HPAActive s) (as_HPAReason s) (as_Conditions s) (as_ObservedGeneration s)).
Definition with_hpa (active : bool) (reason : string) (ac : AutoCache) : AutoCache :=
  let s := ac_Status ac in
  with_status ac (mkACStatus (as_Phase s) (as_Replicas s) (as_ReadyReplicas s) (as_SlotsAssigned s) (as_ClusterStatus s) (as_Nodes s)
    (as_Migration s) active reason (as_Conditions s) (as_ObservedGeneration s)).
Definition with_health (status : string) (slots : Z) (ac : AutoCache) : AutoCache :=
  let s := ac_Status ac in
  with_status ac (mkACStatus (as_Phase s) (as_Replicas s) (as_ReadyReplicas s) slots status (as_Nodes s)
    (as_Migration s) (as_HPAActive s) (as_HPAReason s) (as_Conditions s) (as_ObservedGeneration s)).
Definition with_counts (replicas ready : Z) (nodes : list NodeStatus) (ac : AutoCache) : AutoCache :=
  let s := ac_Status ac in
  with_status ac (mkACStatus (as_Phase s) replicas ready (as_SlotsAssigned s) (as_ClusterStatus s) nodes
    (as_Migration s) (as_HPAActive s) (as_HPAReason s) (as_Conditions s) (as_ObservedGeneration s)).
Definition with_conditions (l : list Condition) (ac : AutoCache) : AutoCache :=
  let s := ac_Status ac in
  with_status ac (mkACStatus (as_Phase s) (as_Replicas s) (as_ReadyReplicas s) (as_SlotsAssigned s) (as_ClusterStatus s) (as_Nodes s)
    (as_Migration s) (as_HPAActive s) (as_HPAReason s) l (as_ObservedGeneration s)).
Definition observed (ac : AutoCache) : AutoCache :=
  let s := ac_Status ac in
  with_status ac (mkACStatus (as_Phase s) (as_Replicas s) (as_ReadyReplicas s) (as_SlotsAssigned s) (as_ClusterStatus s) (as_Nodes s)
    (as_Migration s) (as_HPAActive s) (as_HPAReason s) (as_Conditions s) (ac_Generation ac)).

(** ** Support of the specification: [statefulset.go] *)

Definition tieredStorageEnabled (ac : AutoCache) : bool :=
  match sp_Tiered (ac_Spec ac) with Some (enabled, _) => enabled | None => false end.
Definition supportedPersistenceEnabled (ac : AutoCache) : bool :=
  match sp_Storage (ac_Spec ac) with
  | Some st =>
      so_Enabled st && tieredStorageEnabled ac &&
      (bool_decide (so_PersistenceMode st = "") || bool_decide (so_PersistenceMode st = "RDB"))
  | None => false
  end.
Definition unsupportedPersistenceMode (ac : AutoCache) : bool :=
  match sp_Storage (ac_Spec ac) with
  | Some st => so_Enabled st && (bool_decide (so_PersistenceMode st = "AOF") || bool_decide (so_PersistenceMode st = "Both"))
  | None => false
  end.
Definition unsupportedColdTier (ac : AutoCache) : bool :=
  match sp_Tiered (ac_Spec ac) with Some (_, Some t) => bool_decide (t = "S3") | _ => false end.
Definition unsupportedAuth (ac : AutoCache) : bool := default false (sp_Auth (ac_Spec ac)).

(** [meta.SetStatusCondition]: the condition of the same type is replaced. *)
Fixpoint SetStatusCondition (l : list Condition) (c : Condition) : list Condition :=
  match l with
  | [] => [c]
  | c0 :: l' => if bool_decide (co_Type c0 = co_Type c) then c :: l' else c0 :: SetStatusCondition l' c
  end.

Definition syncSpecSupportCondition (ac : AutoCache) : AutoCache :=
  let c :=
    if unsupportedPersistenceMode ac then mkCondition "Degraded" true "UnsupportedPersistenceMode"
    else if unsupportedColdTier ac then mkCondition "Degraded" true "UnsupportedColdTier"
    else if unsupportedAuth ac then mkCondition "Degraded" true "UnsupportedAuth"
    else mkCondition "Degraded" false "SpecSupported" in
  with_conditions (SetStatusCondition (as_Conditions (ac_Status ac)) c) ac.

(** ** Objects *)

Record Pod := mkKPod { po_Name : string; po_IP : string; po_Phase : string; po_Conditions : list (string * string) }.

Definition isPodReady (pod : Pod) : bool :=
  existsb (λ c, bool_decide (c.1 = "Ready") && bool_decide (c.2 = "True")) (po_Conditions pod).

Record clusterHealth := mkHealth { hl_Status : string; hl_KnownNodes : Z; hl_SlotsAssigned : Z }.

Record HPA := mkHPA { hp_Name : string; hp_Labels : gmap string string; hp_Target : string; hp_Min : Z; hp_Max : Z;
                      hp_Metrics : list (string * Z); hp_Behavior : option string }.

Record Service := mkService {
  sv_Name : string; sv_Labels : gmap string string; sv_Annotations : gmap string string; sv_Headless : bool;
  sv_Selector : gmap string string; sv_Ports : list (string * Z); sv_NotReady : bool
}.

(** An environment variable: its name, and its value or the field of the pod that
    it is read from. *)
Inductive EnvValue := EnvLiteral (v : string) | EnvField (path : string).

(** A probe of a TCP port. *)
Record Probe := mkProbe { pr_Port : Z; pr_InitialDelay : Z; pr_Period : Z; pr_Timeout : Z; pr_Failures : Z }.

Record Container := mkContainer {
  ct_Name : string; ct_Image : string; ct_PullPolicy : string; ct_Ports : list (string * Z); ct_Env : list (string * EnvValue);
  ct_Mounts : list (string * string); ct_Resources : string; ct_Liveness : option Probe; ct_Readiness : option Probe;
  ct_Command : list string; ct_PreStop : list string
}.

Inductive VolumeSource := VolumeConfigMap (name : string) | VolumeEmptyDir.

Inductive Affinity :=
  | GivenAffinity (a : string)
  | AntiAffinity (terms : list (Z * gmap string string * string)).   (* weight, labels, topology key *)

Inductive Spread := GivenSpread (l : list string) | DefaultSpread (maxSkew : Z) (key : string) (labels : gmap string string).

(** [pt_Defaults] is what the API server has filled in where the operator sets
    nothing. *)
Record PodTemplate := mkTemplate {
  pt_Labels : gmap string string; pt_Annotations : gmap string string; pt_Init : list Container; pt_Containers : list Container;
  pt_Volumes : list (string * VolumeSource); pt_Affinity : Affinity; pt_Tolerations : list string; pt_NodeSelector : gmap string string;
  pt_Spread : Spread; pt_Scheduler : string; pt_Priority : string; pt_Grace : Z; pt_Defaults : string
}.

Record Claim := mkClaim { cl_Name : string; cl_Labels : gmap string string; cl_Size : string; cl_Class : option string; cl_Defaults : string }.

#[global] Instance EnvValue_eq_dec : EqDecision EnvValue.
Proof. solve_decision. Defined.
#[global] Instance Probe_eq_dec : EqDecision Probe.
Proof. solve_decision. Defined.
#[global] Instance Container_eq_dec : EqDecision Container.
Proof. solve_decision. Defined.
#[global] Instance VolumeSource_eq_dec : EqDecision VolumeSource.
Proof. solve_decision. Defined.
#[global] Instance Affinity_eq_dec : EqDecision Affinity.
Proof. solve_decision. Defined.
#[global] Instance Spread_eq_dec : EqDecision Spread.
Proof. solve_decision. Defined.
#[global] Instance PodTemplate_eq_dec : EqDecision PodTemplate.
Proof. solve_decision. Defined.
#[global] Instance Claim_eq_dec : EqDecision Claim.
Proof. solve_decision. Defined.

Record StatefulSet := mkSts {
  ss_Name : string; ss_Replicas : Z; ss_Template : PodTemplate; ss_Claims : list Claim; ss_StatusReplicas : Z; ss_StatusReady : Z
}.

Inductive KObject :=
  | OAutoCache (ac : AutoCache)
  | OConfigMap (name : string) (labels : gmap string string) (conf : string)
  | OService (s : Service)
  | OStatefulSet (s : StatefulSet)
  | OHPA (h : HPA).

(** ** The configuration *)

Definition newline : string := str [x0a].

Definition config_line (key value : string) : string := key +:+ " " +:+ value +:+ newline.

Definition generateConfig `{!GoRange string string} (ac : AutoCache) : string :=
  "# AutoCache Configuration" +:+ newline +:+
  "port " +:+ itoa (sp_Port (ac_Spec ac)) +:+ newline +:+
  "cluster-port " +:+ itoa (sp_ClusterPort (ac_Spec ac)) +:+ newline +:+
  "cluster-enabled yes" +:+ newline +:+ "cluster-config-file nodes.conf" +:+ newline +:+
  "cluster-node-timeout 15000" +:+ newline +:+
  match sp_Config (ac_Spec ac) with
  | None => ""
  | Some config =>
      (if bool_decide (cs_MaxMemory config = "") then "" else config_line "maxmemory" (cs_MaxMemory config)) +:+
      (if bool_decide (cs_Policy config = "") then "" else config_line "maxmemory-policy" (cs_Policy config)) +:+
      foldr (λ kv s, config_line kv.1 kv.2 +:+ s) "" (go_range (cs_Custom config))
  end.

Definition buildConfigMap `{!GoRange string string} (ac : AutoCache) : KObject := OConfigMap (ac_Name ac +:+ "-config") (GetLabels ac) (generateConfig ac).

(** ** Services and autoscaler *)

Definition buildHeadlessService (ac : AutoCache) : Service :=
  mkService (ac_Name ac +:+ "-headless") (GetLabels ac) ∅ true (GetSelectorLabels ac)
    [("redis", sp_Port (ac_Spec ac)); ("cluster", sp_ClusterPort (ac_Spec ac))] true.
Definition buildClientService (ac : AutoCache) : Service :=
  mkService (ac_Name ac) (GetLabels ac) (sp_ServiceAnnotations (ac_Spec ac)) false (GetSelectorLabels ac)
    [("redis", sp_Port (ac_Spec ac))] false.
Definition buildMetricsService (ac : AutoCache) : Service :=
  mkService (ac_Name ac +:+ "-metrics") (<["cache.autocache.io/metrics" := "true"]> (GetLabels ac)) ∅ false (GetSelectorLabels ac)
    [("metrics", 9121)] false.

Definition buildHPA (ac : AutoCache) (spec : HPASpec) : HPA :=
  let metrics := match hs_CPU spec with Some p => [("cpu", p)] | None => [] end ++
                 match hs_Memory spec with Some p => [("memory", p)] | None => [] end in
  mkHPA (ac_Name ac) (GetLabels ac) (ac_Name ac) (if hs_Min spec <? 1 then 1 else hs_Min spec) (hs_Max spec)
    (match metrics with [] => [("cpu", 80)] | _ => metrics end) (hs_Behavior spec).

(** [existing.Spec] and [hpa.Spec]. *)
Definition hpa_spec_eqb (x y : HPA) : bool :=
  bool_decide (hp_Target x = hp_Target y) && (hp_Min x =? hp_Min y) && (hp_Max x =? hp_Max y) &&
  bool_decide (hp_Metrics x = hp_Metrics y) && bool_decide (hp_Behavior x = hp_Behavior y).

(** ** The pod template: [statefulset.go] *)

Definition buildContainer (ac : AutoCache) : Container :=
  let port := sp_Port (ac_Spec ac) in
  let command := ["/autocache"; "--config"; "/etc/autocache/autocache.conf"; "--data-dir"; "/data"; "--metrics-addr"; ":9121";
                  "--cluster-enabled"; "--bind"; "$(POD_IP)"] ++
                 (if tieredStorageEnabled ac
                  then ["--tiered-enabled"; "--badger-path"; "/data/warm"] ++
                       (if supportedPersistenceEnabled ac then ["--persist-enabled"] else [])
                  else []) in
  mkContainer "autocache" (sp_Image (ac_Spec ac)) (sp_ImagePullPolicy (ac_Spec ac))
    [("redis", port); ("cluster", sp_ClusterPort (ac_Spec ac)); ("metrics", 9121)]
    [("POD_NAME", EnvField "metadata.name"); ("POD_IP", EnvField "status.podIP");
     ("CLUSTER_ANNOUNCE_PORT", EnvLiteral (itoa port)); ("CLUSTER_ANNOUNCE_BUS_PORT", EnvLiteral (itoa (sp_ClusterPort (ac_Spec ac))))]
    [("config", "/etc/autocache"); ("data", "/data")] (sp_Resources (ac_Spec ac))
    (Some (mkProbe port 30 10 5 3)) (Some (mkProbe port 5 5 3 3)) command ["/bin/sh"; "-c"; "sleep 5"].

Definition buildInitContainer : Container :=
  mkContainer "init-config" "rancher/mirrored-library-busybox:1.36.1" "" [] []
    [("config-template", "/config-template"); ("config", "/config")] "" None None
    ["sh"; "-c"; "echo 'Initializing AutoCache...' && cp /config-template/* /config/ && echo 'Done'"] [].

Definition storage_enabled (ac : AutoCache) : bool :=
  match sp_Storage (ac_Spec ac) with Some st => so_Enabled st | None => false end.

Definition buildVolumes (ac : AutoCache) : list (string * VolumeSource) :=
  [("config-template", VolumeConfigMap (ac_Name ac +:+ "-config")); ("config", VolumeEmptyDir)] ++
  (if storage_enabled ac then [] else [("data", VolumeEmptyDir)]).

Definition buildVolumeClaimTemplates (ac : AutoCache) (st : StorageSpec) : list Claim :=
  [mkClaim "data" (GetLabels ac) (so_Size st) (so_StorageClassName st) ""].

Definition buildAffinity (ac : AutoCache) : Affinity :=
  match sp_Affinity (ac_Spec ac) with
  | Some a => GivenAffinity a
  | None => AntiAffinity [(100, GetSelectorLabels ac, "kubernetes.io/hostname"); (50, GetSelectorLabels ac, "topology.kubernetes.io/zone")]
  end.

Definition buildTopologySpreadConstraints (ac : AutoCache) : Spread :=
  match sp_TopologySpread (ac_Spec ac) with
  | [] => DefaultSpread 1 "kubernetes.io/hostname" (GetSelectorLabels ac)
  | l => GivenSpread l
  end.

(** The annotations of the specification replace the operator's. *)
Definition build_template (ac : AutoCache) : PodTemplate :=
  mkTemplate (GetLabels ac)
    (sp_PodAnnotations (ac_Spec ac) ∪ <["prometheus.io/scrape" := "true"]> {["prometheus.io/port" := "9121"]})
    [buildInitContainer] [buildContainer ac] (buildVolumes ac) (buildAffinity ac) (sp_Tolerations (ac_Spec ac))
    (sp_NodeSelector (ac_Spec ac)) (buildTopologySpreadConstraints ac) (sp_SchedulerName (ac_Spec ac))
    (sp_PriorityClassName (ac_Spec ac)) 120 "".

Definition build_claims (ac : AutoCache) : list Claim :=
  match sp_Storage (ac_Spec ac) with
  | Some st => if so_Enabled st then buildVolumeClaimTemplates ac st else []
  | None => []
  end.

(** ** The StatefulSet *)

Definition sts_with (s : StatefulSet) (replicas : Z) (t : PodTemplate) (c : list Claim) : StatefulSet :=
  mkSts (ss_Name s) replicas t c (ss_StatusReplicas s) (ss_StatusReady s).

(** The new StatefulSet has no status yet. *)
Definition buildStatefulSet (ac : AutoCache) : StatefulSet :=
  mkSts (ac_Name ac) (sp_Replicas (ac_Spec ac)) (build_template ac) (build_claims ac) 0 0.

(** The image of the first container. *)
Definition set_image (image : string) (c : Container) : Container :=
  mkContainer (ct_Name c) image (ct_PullPolicy c) (ct_Ports c) (ct_Env c) (ct_Mounts c) (ct_Resources c) (ct_Liveness c) (ct_Readiness c)
    (ct_Command c) (ct_PreStop c).
Definition with_image (image : string) (t : PodTemplate) : PodTemplate :=
  mkTemplate (pt_Labels t) (pt_Annotations t) (pt_Init t)
    (match pt_Containers t with c :: l => set_image image c :: l | [] => [] end)
    (pt_Volumes t) (pt_Affinity t) (pt_Tolerations t) (pt_NodeSelector t) (pt_Spread t) (pt_Scheduler t) (pt_Priority t) (pt_Grace t)
    (pt_Defaults t).

(** What is left of an existing StatefulSet to update: its image, template and
    claims; [None] when it is as it should be. *)
Definition sts_update (ac : AutoCache) (old : StatefulSet) : option StatefulSet :=
  let new := buildStatefulSet ac in
  let changed := match pt_Containers (ss_Template old) with
                 | c :: _ => negb (bool_decide (ct_Image c = sp_Image (ac_Spec ac)))
                 | [] => false
                 end in
  let t1 := if changed then with_image (sp_Image (ac_Spec ac)) (ss_Template old) else ss_Template old in
  if changed || negb (bool_decide (t1 = ss_Template new)) || negb (bool_decide (ss_Claims old = ss_Claims new))
  then Some (sts_with old (ss_Replicas old) (ss_Template new) (ss_Claims new)) else None.
