(* ===== verification/Reconciler.v ===== *)
(** * The Kubernetes operator: the reconcile loop ([controllers/])

    [Reconcile] brings a cluster to its specification: it creates the objects of
    the cluster, scales its StatefulSet, reads the state of the pods into the
    status, assigns the slots of a new cluster and moves slots to follow a plan.
    The Kubernetes API and the pods are a state of any type with the operations
    of [Kube] and [Pods]. A computation ([RM]) changes that state and ends with a
    value or an error; [None] is a loop that has not ended. The resource that Go
    passes by pointer is passed on here; when an error ends [Reconcile], the copy
    in memory is dropped, and what was written to the API stays. *)

From S2P Require Import Prelude Strconv Codec Handler Operator KubeObjects.
From stdpp Require Import options.

Inductive ApiResult (A : Type) := ApiOk (a : A) | ApiNotFound | ApiErr (e : string).
Arguments ApiOk {A}.
Arguments ApiNotFound {A}.
Arguments ApiErr {A}.

(** The API of the cluster, and the commands to the pods that Operator.v does not
    need. *)
Class Kube (W : Type) := {
  k_AutoCache : W → ApiResult AutoCache * W;
  k_ConfigMap : W → string → ApiResult KObject * W;
  k_Service : W → string → ApiResult Service * W;
  k_StatefulSet : W → string → ApiResult StatefulSet * W;
  k_HPA : W → string → ApiResult HPA * W;
  k_Pods : W → gmap string string → (string + list Pod) * W;
  k_Pod : W → string → (string + Pod) * W;
  k_SetOwner : AutoCache → KObject → option string;
  k_Create : W → KObject → option string * W;
  k_Update : W → KObject → option string * W;
  k_Delete : W → KObject → option string * W;
  k_UpdateStatus : W → AutoCache → option string * W;
  k_health : W → string → (string + clusterHealth) * W;
  k_nodes : W → string → (string + list clusterNode) * W;
  k_slots : W → string → (string + list Z) * W
}.

(** ** Computations *)

Definition RM (W A : Type) : Type := W → option ((string + A) * W).

Definition rret {W A} (a : A) : RM W A := λ w, Some (inr a, w).
Definition rfail {W A} (e : string) : RM W A := λ w, Some (inl e, w).
Definition rbind {W A B} (m : RM W A) (k : A → RM W B) : RM W B :=
  λ w, match m w with
       | None => None
       | Some (inl e, w') => Some (inl e, w')
       | Some (inr a, w') => k a w'
       end.

(** The error as a value. *)
Definition rtry {W A} (m : RM W A) : RM W (string + A) :=
  λ w, match m w with None => None | Some (r, w') => Some (inr r, w') end.

Notation "'rdo!' x := m 'in' k" := (rbind m (λ x, k)) (at level 200, x pattern, m at level 100, k at level 200).

(** A call that returns an error or nil, and one that returns a value or an error. *)
Definition effect {W} (f : W → option string * W) : RM W unit :=
  λ w, let '(e, w') := f w in Some (match e with Some e => inl e | None => inr tt end, w').
Definition ask {W A} (f : W → (string + A) * W) : RM W A := λ w, Some (f w).
Definition get {W A} (f : W → ApiResult A * W) : RM W (option A) :=
  λ w, let '(r, w') := f w in
       Some (match r with ApiOk a => inr (Some a) | ApiNotFound => inr None | ApiErr e => inl e end, w').
Definition when_ok {W} (e : option string) : RM W unit := match e with Some e => rfail e | None => rret tt end.

(** A loop that stops at the first error. *)
Fixpoint reach {W A} (f : A → RM W unit) (l : list A) : RM W unit :=
  match l with [] => rret tt | a :: l' => rdo! _ := f a in reach f l' end.

(** [strings.ToLower], for a result in which an ASCII word without k is looked
    for: no other letter is folded into it. *)
Definition lower_ascii (s : string) : string :=
  str ((λ b, if within 0x41 0x5A b then byte_of_Z (Z_of_byte b + 32) else b) <$> StringToBytes s).

Section reconciler.
Context {W : Type} `{!Pods W} `{!Kube W}.
Context `{!GoRange string string} (split_host_port : string → string + string * Z).

(** ** ConfigMap, services and HPA *)

(** The labels of an existing ConfigMap are kept. *)
Definition reconcileConfigMap (ac : AutoCache) : RM W unit :=
  let cm := buildConfigMap ac in
  rdo! _ := when_ok (k_SetOwner ac cm) in
  rdo! existing := get (λ w, k_ConfigMap w (ac_Name ac +:+ "-config")) in
  match existing with
  | None => effect (λ w, k_Create w cm)
  | Some (OConfigMap name labels _) => effect (λ w, k_Update w (OConfigMap name labels (generateConfig ac)))
  | Some o => effect (λ w, k_Update w o)
  end.

(** The three services are created when they are missing, and never updated. *)
Definition reconcileService (ac : AutoCache) (svc : Service) : RM W unit :=
  rdo! _ := when_ok (k_SetOwner ac (OService svc )) in
  rdo! existing := get (λ w, k_Service w (sv_Name svc)) in
  match existing with
  | None => effect (λ w, k_Create w (OService svc ))
  | Some _ => rret tt
  end.

Definition hpa_active (h : HPA) (ac : AutoCache) : AutoCache :=
  with_hpa true ("HPA active, min=" +:+ itoa (hp_Min h) +:+ ", max=" +:+ itoa (hp_Max h)) ac.

Definition reconcileHPA (ac : AutoCache) : RM W AutoCache :=
  match sp_HPA (ac_Spec ac) with
  | Some spec =>
      if hs_Enabled spec then
        let hpa := buildHPA ac spec in
        rdo! _ := when_ok (k_SetOwner ac (OHPA hpa )) in
        rdo! existing := get (λ w, k_HPA w (hp_Name hpa)) in
        match existing with
        | None => rdo! _ := effect (λ w, k_Create w (OHPA hpa )) in rret (hpa_active hpa ac)
        | Some old =>
            if hpa_spec_eqb old hpa then rret (hpa_active hpa ac)
            else
              rdo! _ := effect (λ w, k_Update w (OHPA (mkHPA (hp_Name old) (hp_Labels old) (hp_Target hpa) (hp_Min hpa)
                          (hp_Max hpa) (hp_Metrics hpa) (hp_Behavior hpa)) )) in
              rret (hpa_active hpa ac)
        end
      else
        rdo! existing := get (λ w, k_HPA w (ac_Name ac)) in
        match existing with
        | Some old => rdo! _ := effect (λ w, k_Delete w (OHPA old )) in rret (with_hpa false "HPA disabled" ac)
        | None => rret (with_hpa false "HPA disabled" ac)
        end
  | None =>
      rdo! existing := get (λ w, k_HPA w (ac_Name ac)) in
      match existing with
      | Some old => rdo! _ := effect (λ w, k_Delete w (OHPA old )) in rret (with_hpa false "HPA disabled" ac)
      | None => rret (with_hpa false "HPA disabled" ac)
      end
  end.

(** ** Scaling: [scaling.go] *)

Definition pod_addr (ac : AutoCache) (ip : string) : string := ip +:+ ":" +:+ itoa (sp_Port (ac_Spec ac)).

Definition update_status (ac : AutoCache) : RM W unit := effect (λ w, k_UpdateStatus w ac).

(** [updateMigrationStatus]; a negative slot is none. *)
Definition updateMigrationStatus (ac : AutoCache) (phase : MigrationPhase) (slot : Z) (source target message : string)
    : RM W AutoCache :=
  let ac := with_migration (mkMigStatus phase (if 0 <=? slot then Some slot else None) source target message) ac in
  rdo! _ := update_status ac in rret ac.

(** A failure is recorded in the status, whose own failure is ignored. *)
Definition recording {A} (ac : AutoCache) (source : string) (m : RM W A) : RM W A :=
  rdo! r := rtry m in
  match r with
  | inr a => rret a
  | inl e => rdo! _ := rtry (updateMigrationStatus ac MigrationFailed (-1) source "" e) in rfail e
  end.

Definition list_pods (ac : AutoCache) : RM W (list Pod) := ask (λ w, k_Pods w (GetSelectorLabels ac)).

(** The wait of [HandleScaleUp], which polls until enough pods are ready. *)
Fixpoint wait_ready (fuel : nat) (ac : AutoCache) (n : Z) : RM W unit :=
  match fuel with
  | O => λ _, None
  | S f =>
      rdo! pods := list_pods ac in
      if n <=? Z.of_nat (length (filter (λ p, isPodReady p = true) pods)) then rret tt else wait_ready f ac n
  end.

(** Pods are sorted by name: [sort.Slice] leaves the order of pods with the same
    name open, which Kubernetes does not allow. *)
Definition pod_name_le (p q : Pod) : Prop := String.leb (po_Name p) (po_Name q) = true.
#[global] Instance pod_name_le_dec p q : Decision (pod_name_le p q) := decide (String.leb (po_Name p) (po_Name q) = true).

Definition listReadyPods (ac : AutoCache) : RM W (list Pod) :=
  rdo! pods := list_pods ac in
  rret (merge_sort pod_name_le (filter (λ p, isPodReady p = true ∧ po_IP p ≠ "") pods)).

Definition pod_name (ac : AutoCache) (i : Z) : string := ac_Name ac +:+ "-" +:+ itoa i.

Definition send (addr : string) (args : list string) : RM W unit := effect (λ w, pod_send w addr args).

Definition addNodesToCluster (ac : AutoCache) (start last : Z) : RM W unit :=
  rdo! first := ask (λ w, k_Pod w (pod_name ac 0)) in
  reach (λ i,
    rdo! pod := ask (λ w, k_Pod w (pod_name ac i)) in
    send (pod_addr ac (po_IP pod)) ["CLUSTER"; "MEET"; po_IP first; itoa (sp_Port (ac_Spec ac))])
    (seqZ start (last - start)).

(** The pods with their answers to CLUSTER SLOTS, up to the first error. *)
Fixpoint pod_views (ac : AutoCache) (pods : list Pod) : RM W (list pod_view) :=
  match pods with
  | [] => rret []
  | p :: pods' =>
      rdo! slots := ask (λ w, k_slots w (pod_addr ac (po_IP p))) in
      rdo! rest := pod_views ac pods' in
      rret (mkPod (po_Name p) (pod_addr ac (po_IP p)) (Some slots) :: rest)
  end.

Definition totalSlots : Z := 16384.

(** The moves of a plan, each recorded in the status first. [fuel] bounds the
    batches of keys of a move. *)
Definition run_moves (fuel : nat) (ac : AutoCache) (addrs : gmap string string) (message : Z → string) (moves : list slot_move)
    : RM W AutoCache :=
  foldl (λ m mv,
      rdo! ac := m in
      rdo! ac := updateMigrationStatus ac MigrationInProgress (sv_slot mv) (sv_source mv) (sv_target mv) (message (sv_slot mv)) in
      rdo! _ := (λ w, match moveSlot split_host_port fuel w (default "" (addrs !! sv_source mv)) (default "" (addrs !! sv_target mv)) (sv_slot mv) with
                      | None => None
                      | Some (Some e, w') => Some (inl e, w')
                      | Some (None, w') => Some (inr tt, w')
                      end) in
      rret ac)
    (rret ac) moves.

Definition rebalanceSlots (fuel : nat) (ac : AutoCache) : RM W AutoCache :=
  rdo! pods := listReadyPods ac in
  if bool_decide (pods = []) then rret ac
  else
    rdo! views := pod_views ac pods in
    rdo! ac := run_moves fuel ac (nodeAddrs views) (λ slot, "Rebalancing slot " +:+ itoa slot)
                 (default [] (rebalance_plan totalSlots views)) in
    updateMigrationStatus ac MigrationCompleted (-1) "" "" "Rebalance completed".

Definition migrateDataFromNode (fuel : nat) (ac : AutoCache) (podName : string) (targetReplicas : Z) : RM W AutoCache :=
  rdo! pods := listReadyPods ac in
  let retained := filter (λ p, po_Name p ≠ podName) pods in
  if Z.of_nat (length retained) <? targetReplicas then
    rfail ("insufficient ready pods for scale down: have " +:+ itoa (Z.of_nat (length retained)) +:+ " want " +:+ itoa targetReplicas)
  else
    rdo! views := pod_views ac pods in
    rdo! ac := run_moves fuel ac (nodeAddrs views) (λ slot, "Draining slot " +:+ itoa slot +:+ " from " +:+ podName)
                 (default [] (drain_plan totalSlots podName (Z.to_nat targetReplicas) views)) in
    updateMigrationStatus ac MigrationCompleted (-1) podName "" ("Drained node " +:+ podName).

Definition removeNodeFromCluster (ac : AutoCache) (podName : string) : RM W unit :=
  rdo! pods := listReadyPods ac in
  match find (λ p, bool_decide (po_Name p = podName)) pods with
  | None => rret tt
  | Some pod =>
      rdo! id := ask (λ w, pod_nodeID w (pod_addr ac (po_IP pod))) in
      reach (λ p, send (pod_addr ac (po_IP p)) ["CLUSTER"; "FORGET"; id]) (filter (λ p, po_Name p ≠ podName) pods)
  end.

Definition HandleScaleUp (fuel : nat) (ac : AutoCache) (newReplicas oldReplicas : Z) : RM W AutoCache :=
  rdo! _ := wait_ready fuel ac newReplicas in
  rdo! _ := recording ac "" (addNodesToCluster ac oldReplicas newReplicas) in
  recording ac "" (rebalanceSlots fuel ac).

(** The pods from the last one down to [newReplicas]. *)
Definition HandleScaleDown (fuel : nat) (ac : AutoCache) (newReplicas oldReplicas : Z) : RM W AutoCache :=
  foldl (λ m i,
      rdo! ac := m in
      let podName := pod_name ac i in
      rdo! ac := recording ac podName (migrateDataFromNode fuel ac podName newReplicas) in
      rdo! _ := recording ac podName (removeNodeFromCluster ac podName) in
      rret ac)
    (rret ac) (rev (seqZ newReplicas (oldReplicas - newReplicas))).

(** ** The StatefulSet: [statefulset.go] *)

Definition reconcileStatefulSet (fuel : nat) (ac : AutoCache) : RM W AutoCache :=
  let sts := buildStatefulSet ac in
  rdo! _ := when_ok (k_SetOwner ac (OStatefulSet sts)) in
  rdo! existing := get (λ w, k_StatefulSet w (ss_Name sts)) in
  match existing with
  | None =>
      rdo! _ := effect (λ w, k_Create w (OStatefulSet sts)) in
      let ac := with_phase PhaseCreating ac in rdo! _ := update_status ac in rret ac
  | Some old =>
      let newReplicas := sp_Replicas (ac_Spec ac) in
      let oldReplicas := ss_Replicas old in
      if negb (oldReplicas =? newReplicas) then
        let ac := with_phase PhaseScaling ac in
        rdo! _ := effect (λ w, k_Update w (OStatefulSet (sts_with old newReplicas (ss_Template old) (ss_Claims old)))) in
        rdo! ac := (if oldReplicas <? newReplicas then HandleScaleUp fuel ac newReplicas oldReplicas
                    else HandleScaleDown fuel ac newReplicas oldReplicas) in
        rdo! _ := update_status ac in rret ac
      else match sts_update ac old with
      | Some new =>
          let ac := with_phase PhaseUpdating ac in
          rdo! _ := effect (λ w, k_Update w (OStatefulSet new)) in
          rdo! _ := update_status ac in rret ac
      | None => rret ac
      end
  end.

(** ** The status *)

Definition node_status (p : Pod) : NodeStatus := mkNodeStatus (po_Name p) (po_IP p) (isPodReady p) (po_Phase p) "master".

(** The loop over the nodes: whether one of them reports a healthy cluster. *)
Fixpoint probe_health (ac : AutoCache) (nodes : list NodeStatus) : RM W (bool * AutoCache) :=
  match nodes with
  | [] => rret (false, ac)
  | n :: nodes' =>
      if negb (ns_Ready n) || bool_decide (ns_PodIP n = "") then probe_health ac nodes'
      else
        rdo! r := rtry (ask (λ w, k_health w (pod_addr ac (ns_PodIP n)))) in
        match r with
        | inl _ => probe_health ac nodes'
        | inr h =>
            let ac := with_health (hl_Status h) (hl_SlotsAssigned h) ac in
            if bool_decide (hl_Status h = "ok") && (hl_KnownNodes h =? sp_Replicas (ac_Spec ac)) && (0 <? hl_SlotsAssigned h)
            then rret (true, ac) else probe_health ac nodes'
        end
  end.

Definition updateStatus (ac : AutoCache) : RM W AutoCache :=
  rdo! existing := get (λ w, k_StatefulSet w (ac_Name ac)) in
  match existing with
  | None => rret ac
  | Some sts =>
      rdo! pods := list_pods ac in
      let ac := with_counts (ss_StatusReplicas sts) (ss_StatusReady sts) (node_status <$> pods) ac in
      rdo! ac := (if (as_ReadyReplicas (ac_Status ac) =? sp_Replicas (ac_Spec ac)) && (as_Replicas (ac_Status ac) =? sp_Replicas (ac_Spec ac))
                  then rdo! r := probe_health ac (as_Nodes (ac_Status ac)) in
                       if fst r then rret (with_phase PhaseRunning (snd r))
                       else let ac := with_phase PhasePending (snd r) in
                            rret (if bool_decide (as_ClusterStatus (ac_Status ac) = "")
                                  then with_health "fail" (as_SlotsAssigned (ac_Status ac)) ac else ac)
                  else rret ac) in
      let ac := observed (syncSpecSupportCondition ac) in
      rdo! _ := update_status ac in rret ac
  end.

(** ** A new cluster: [initializeCluster] *)

Definition isNonFatalClusterError (err : string) : bool := strings_Contains (lower_ascii err) "already".

(** Send, and say whether it failed in a way that counts. *)
Definition try_send (addr : string) (args : list string) : RM W bool :=
  rdo! r := rtry (send addr args) in
  rret match r with inl e => negb (isNonFatalClusterError e) | inr _ => false end.

(** Send them all; whether any failed. *)
Fixpoint try_all (cmds : list (string * list string)) : RM W bool :=
  match cmds with
  | [] => rret false
  | (addr, args) :: cmds' => rdo! b := try_send addr args in rdo! bs := try_all cmds' in rret (b || bs)
  end.

(** [for batchStart := start; batchStart < end; batchStart += 256]; the fuel is
    the length of the range. *)
Fixpoint slot_batches (fuel : nat) (batchStart last : Z) : list (list Z) :=
  match fuel with
  | O => []
  | S f =>
      if batchStart <? last then
        seqZ batchStart (Z.min (batchStart + 256) last - batchStart) :: slot_batches f (batchStart + 256) last
      else []
  end.

(** The slots of pod [i] of [n], in batches. *)
Definition pod_batches (n i : Z) : list (list Z) :=
  let '(start, last) := initial_range totalSlots n i in slot_batches (Z.to_nat (last - start)) start last.

Definition addslots (addr : string) (slots : list Z) : string * list string := (addr, ["CLUSTER"; "ADDSLOTS"] ++ (itoa <$> slots)).

(** The commands, in order, for the addresses of the pods. *)
Definition addslots_commands (addrs : list string) : list (string * list string) :=
  concat (imap (λ i addr, addslots addr <$> pod_batches (Z.of_nat (length addrs)) (Z.of_nat i)) addrs).

(** The address of a node, up to the @. *)
Fixpoint before_at (s : list byte) : list byte :=
  match s with b :: s' => if bool_decide (b = x40) then [] else b :: before_at s' | [] => [] end.

Definition stale_node (addrs : list string) (node : clusterNode) : bool :=
  (strings_Contains (str (cn_Flags node)) "fail" || strings_Contains (str (cn_Flags node)) "disconnected") &&
  negb (bool_decide (str (before_at (cn_Addr node)) ∈ addrs)).

Definition forget_commands (addrs : list string) (nodes : list clusterNode) : list (string * list string) :=
  concat ((λ node, (λ addr, (addr, ["CLUSTER"; "FORGET"; str (cn_ID node)])) <$> addrs) <$> filter (λ n, stale_node addrs n = true) nodes).

Definition init_port (ac : AutoCache) : Z := if sp_Port (ac_Spec ac) =? 0 then 6379 else sp_Port (ac_Spec ac).

Definition initializeCluster (ac : AutoCache) : RM W AutoCache :=
  rdo! pods := listReadyPods ac in
  if Z.of_nat (length pods) <? sp_Replicas (ac_Spec ac) then rret ac
  else match pods with
  | [] => rret ac
  | seed :: others =>
      let port := init_port ac in
      let addr p := po_IP p +:+ ":" +:+ itoa port in
      let addrs := addr <$> pods in
      rdo! nodes := rtry (ask (λ w, k_nodes w (addr seed))) in
      rdo! _ := try_all (forget_commands addrs (match nodes with inl _ => [] | inr l => l end)) in
      rdo! bad1 := try_all ((λ p, (addr p, ["CLUSTER"; "MEET"; po_IP seed; itoa port])) <$> others) in
      rdo! bad2 := try_all (addslots_commands addrs) in
      if bad1 || bad2 then rret ac
      else
        rdo! h := rtry (ask (λ w, k_health w (addr seed))) in
        match h with
        | inl _ => rret ac
        | inr h =>
            if negb (bool_decide (hl_Status h = "ok")) || (hl_KnownNodes h <? Z.of_nat (length pods)) || (hl_SlotsAssigned h =? 0)
            then rret ac
            else if as_SlotsAssigned (ac_Status ac) =? hl_SlotsAssigned h then rret ac
            else
              let ac := with_phase PhaseRunning (with_health (hl_Status h) (hl_SlotsAssigned h) ac) in
              rdo! _ := update_status ac in rret ac
        end
  end.

(** ** Slot plans: [migration.go] *)

Definition getNodeAddr (ac : AutoCache) (nodeName : string) : string :=
  match find (λ n, bool_decide (ns_Name n = nodeName) && negb (bool_decide (ns_PodIP n = ""))) (as_Nodes (ac_Status ac)) with
  | Some n => pod_addr ac (ns_PodIP n)
  | None => ""
  end.

(** A pod that does not answer is skipped. *)
Fixpoint slot_map_of (ac : AutoCache) (pods : list Pod) (m : gmap Z string) : RM W (gmap Z string) :=
  match pods with
  | [] => rret m
  | p :: pods' =>
      if negb (isPodReady p) || bool_decide (po_IP p = "") then slot_map_of ac pods' m
      else
        rdo! r := rtry (ask (λ w, k_slots w (pod_addr ac (po_IP p)))) in
        match r with
        | inl _ => slot_map_of ac pods' m
        | inr slots => slot_map_of ac pods' (foldl (λ m slot, <[slot := po_Name p]> m) m slots)
        end
  end.

Definition getCurrentSlotMap (ac : AutoCache) : RM W (gmap Z string) := rdo! pods := list_pods ac in slot_map_of ac pods ∅.

Definition status_addrs (ac : AutoCache) : gmap string string :=
  foldl (λ m n, if bool_decide (ns_PodIP n = "") then m else <[ns_Name n := pod_addr ac (ns_PodIP n)]> m) ∅ (as_Nodes (ac_Status ac)).

Definition failMigration (ac : AutoCache) (message : string) : RM W AutoCache :=
  let ac := with_migration (mkMigStatus MigrationFailed None "" "" message) ac in rdo! _ := update_status ac in rret ac.

(** The command is split at white space. *)
Definition sendCommand (addr command : string) : RM W unit := send addr (str <$> Fields (StringToBytes command)).

Definition setslot_text (slot : Z) (what id : string) : string := "CLUSTER SETSLOT " +:+ itoa slot +:+ " " +:+ what +:+ " " +:+ id.

(** A step whose error ends the migration; the error of recording that is returned. *)
Definition or_fail {A} (ac : AutoCache) (what : string) (m : RM W A) (k : A → RM W AutoCache) : RM W AutoCache :=
  rdo! r := rtry m in
  match r with inl e => failMigration ac (what +:+ ": " +:+ e) | inr a => k a end.

(** The keys are moved by a goroutine, [migrateSlotKeys], started at the end. *)
Definition startMigration (ac : AutoCache) (t : MigrationTask) : RM W AutoCache :=
  let ac := with_migration (mkMigStatus MigrationInProgress (Some (mt_Slot t)) (mt_SourceNode t) (mt_TargetNode t)
    ("Migrating slot " +:+ itoa (mt_Slot t) +:+ " from " +:+ mt_SourceNode t +:+ " to " +:+ mt_TargetNode t)) ac in
  rdo! _ := update_status ac in
  or_fail ac "Failed to get target node ID" (ask (λ w, pod_nodeID w (mt_TargetAddr t))) (λ targetID,
  or_fail ac "Failed to get source node ID" (ask (λ w, pod_nodeID w (mt_SourceAddr t))) (λ sourceID,
  or_fail ac "Failed to set IMPORTING" (sendCommand (mt_TargetAddr t) (setslot_text (mt_Slot t) "IMPORTING" sourceID)) (λ _,
  or_fail ac "Failed to set MIGRATING" (sendCommand (mt_SourceAddr t) (setslot_text (mt_Slot t) "MIGRATING" targetID)) (λ _,
  rret ac)))).

Definition migrate_text (host port key : string) : string := "MIGRATE " +:+ host +:+ " " +:+ port +:+ " " +:+ key +:+ " 0 5000 REPLACE".

(** One batch; a key that fails is logged. *)
Fixpoint migrate_text_all (addr host port : string) (keys : list string) : RM W unit :=
  match keys with
  | [] => rret tt
  | key :: keys' => rdo! _ := rtry (sendCommand addr (migrate_text host port key)) in migrate_text_all addr host port keys'
  end.

(** The goroutine; [None] is a loop that has not ended. *)
Fixpoint migrateSlotKeys (fuel : nat) (t : MigrationTask) : RM W unit :=
  match fuel with
  | O => λ _, None
  | S f =>
      let '(host, port) := match split_host_port (mt_TargetAddr t) with inl _ => ("", 0) | inr hp => hp end in
      rdo! r := rtry (ask (λ w, pod_keys w (mt_SourceAddr t) (mt_Slot t) 100)) in
      match r with
      | inl _ | inr [] => rret tt
      | inr keys => rdo! _ := migrate_text_all (mt_SourceAddr t) host (itoa port) keys in migrateSlotKeys f t
      end
  end.

Definition completeMigration (ac : AutoCache) : RM W AutoCache :=
  match as_Migration (ac_Status ac) with
  | Some m =>
      match mgs_CurrentSlot m with
      | None => rret ac
      | Some slot =>
          let targetAddr := getNodeAddr ac (mgs_TargetNode m) in
          let sourceAddr := getNodeAddr ac (mgs_SourceNode m) in
          or_fail ac "Failed to get target node ID" (ask (λ w, pod_nodeID w targetAddr)) (λ targetID,
          or_fail ac "Failed to finalize target" (sendCommand targetAddr (setslot_text slot "NODE" targetID)) (λ _,
          rdo! _ := rtry (sendCommand sourceAddr (setslot_text slot "NODE" targetID)) in
          let ac := with_migration (mkMigStatus MigrationCompleted None "" "" ("Slot " +:+ itoa slot +:+ " migrated successfully")) ac in
          rdo! _ := update_status ac in rret ac))
      end
  | None => rret ac
  end.

Definition checkMigrationProgress (ac : AutoCache) : RM W AutoCache :=
  match as_Migration (ac_Status ac) with
  | Some m =>
      match mgs_CurrentSlot m with
      | None => rret ac
      | Some slot =>
          let sourceAddr := getNodeAddr ac (mgs_SourceNode m) in
          if bool_decide (sourceAddr = "") then rret ac
          else
            rdo! keys := ask (λ w, pod_keys w sourceAddr slot 1) in
            match keys with [] => completeMigration ac | _ => rret ac end
      end
  | None => rret ac
  end.

Definition in_progress (ac : AutoCache) : bool :=
  match as_Migration (ac_Status ac) with Some m => bool_decide (mgs_Phase m = MigrationInProgress) | None => false end.

Definition reconcileMigration (ac : AutoCache) : RM W AutoCache :=
  if bool_decide (sp_SlotPlan (ac_Spec ac) = ∅) then rret ac
  else if in_progress ac then checkMigrationProgress ac
  else match parseSlotPlan (sp_SlotPlan (ac_Spec ac)) with
  | None => rfail "invalid slot plan"
  | Some plan =>
      rdo! current := getCurrentSlotMap ac in
      match calculateMigrations plan current (status_addrs ac) with
      | task :: _ => startMigration ac task
      | [] =>
          match as_Migration (ac_Status ac) with
          | Some m =>
              if bool_decide (mgs_Phase m = MigrationCompleted) then rret ac
              else
                let ac := with_migration (mkMigStatus MigrationCompleted None "" "" "All slots are correctly distributed") ac in
                rdo! _ := update_status ac in rret ac
          | None => rret ac
          end
      end
  end.

(** ** [Reconcile] *)

Inductive Requeue := RequeueNo | RequeueNow | RequeueSuccess.

(** [RequeueSuccess] is after 30 s; an error is retried by the queue. *)
Definition handleDeletion (ac : AutoCache) : RM W Requeue :=
  rdo! _ := effect (λ w, k_Update w (OAutoCache (with_finalizers ac (filter (λ f, f ≠ finalizerName) (ac_Finalizers ac))) )) in
  rret RequeueNo.

Definition needs_init (ac : AutoCache) : bool :=
  (as_ReadyReplicas (ac_Status ac) =? sp_Replicas (ac_Spec ac)) &&
  ((as_SlotsAssigned (ac_Status ac) =? 0) || negb (bool_decide (as_ClusterStatus (ac_Status ac) = "ok"))).

Definition Reconcile (fuel : nat) : RM W Requeue :=
  rdo! found := get k_AutoCache in
  match found with
  | None => rret RequeueNo
  | Some ac =>
      if ac_Deleting ac then handleDeletion ac
      else if negb (bool_decide (finalizerName ∈ ac_Finalizers ac)) then
        rdo! _ := effect (λ w, k_Update w (OAutoCache (with_finalizers ac (ac_Finalizers ac ++ [finalizerName])) )) in
        rret RequeueNow
      else if bool_decide (as_Phase (ac_Status ac) = PhaseNone) then
        rdo! _ := update_status (syncSpecSupportCondition (with_phase PhasePending ac)) in rret RequeueNow
      else
        let ac := syncSpecSupportCondition ac in
        rdo! _ := reconcileConfigMap ac in
        rdo! _ := reconcileService ac (buildHeadlessService ac) in
        rdo! _ := reconcileService ac (buildClientService ac) in
        rdo! _ := reconcileService ac (buildMetricsService ac) in
        rdo! ac := reconcileStatefulSet fuel ac in
        rdo! ac := reconcileHPA ac in
        rdo! ac := updateStatus ac in
        rdo! ac := (if needs_init ac then rdo! ac := initializeCluster ac in updateStatus ac else rret ac) in
        rdo! _ := (if bool_decide (as_Phase (ac_Status ac) = PhaseRunning) then reconcileMigration ac else rret ac) in
        rret RequeueSuccess
  end.
End reconciler.
