(* ===== verification/Server.v ===== *)
(** * Running a command: [Execute] and [ExecuteBytes] of [handler.go], [server.go]

    A command name is looked up, its keys are routed when the server is part of
    a cluster, writes are refused on a node that is not the primary of the slot,
    and the handler runs. Without a cluster [ExecuteBytes] first tries four
    commands on a path of their own. *)

From S2P Require Import Prelude Hash Strconv Store Objects Gossip Replication Cluster Protocol Hotspot Engine Handler ClusterCmd Codec.
From stdpp Require Import options.

(** What the handlers use of the world outside: the connections to replicas,
    [strconv] and [encoding/json] on floats, the texts of the errors of the latter,
    the file system, the target of MIGRATE,
    what WAIT finds when it polls (and how often it may), and the handshake of
    CLUSTER MEET. *)
Record Externals := mkExternals {
  x_write : Z → list byte → bool;
  x_parse_float : list byte → option float64;
  x_format_float : float64 → string;
  x_json_float : float64 → list byte;
  x_json_error : list byte → string;
  x_io : option string;
  x_target : nat → nat → migrate_target;
  x_polls : nat → Manager * Z;
  x_wait_fuel : nat;
  x_meet : string → string + option NodeInfo
}.

Section server.
Context {E : Type} `{!ProtocolEngine E}.
Context `{!GoRange string unit} `{!GoRange string float64} `{!GoRange string Z} `{!GoRange string string} `{!GoRange string (list byte)} `{!GoRange string ReplicaAck}.
Context `{!GoRange string GossipNode}.
Context (x : Externals).

Definition run_cmd (env : Env) (cmd : Cmd) (args : list (list byte)) : HM E unit :=
  match cmd with
  | CmdPing => cmdPing args
  | CmdEcho => cmdEcho args
  | CmdQuit => cmdQuit
  | CmdCommand => cmdCommand args
  | CmdInfo => cmdInfo env
  | CmdGet => cmdGet env args
  | CmdSet => cmdSet env (x_write x) args
  | CmdSetNX => cmdSetNX env args
  | CmdSetEX => cmdSetEX env args
  | CmdPSetEX => cmdPSetEX env args
  | CmdMGet => cmdMGet env args
  | CmdMSet => cmdMSet env (x_write x) args
  | CmdHGet => cmdHGet env args
  | CmdHSet => cmdHSet env (x_write x) args
  | CmdHDel => cmdHDel env args
  | CmdHExists => cmdHExists env args
  | CmdHGetAll => cmdHGetAll env args
  | CmdHKeys => cmdHKeys env args
  | CmdHVals => cmdHVals env args
  | CmdHLen => cmdHLen env args
  | CmdLPush => cmdLPush env args
  | CmdRPush => cmdRPush env args
  | CmdLPop => cmdLPop env args
  | CmdRPop => cmdRPop env args
  | CmdLRange => cmdLRange env args
  | CmdLLen => cmdLLen env args
  | CmdLIndex => cmdLIndex env args
  | CmdLSet => cmdLSet env args
  | CmdLTrim => cmdLTrim env args
  | CmdSAdd => cmdSAdd env args
  | CmdSRem => cmdSRem env args
  | CmdSMembers => cmdSMembers env args
  | CmdSIsMember => cmdSIsMember env args
  | CmdSCard => cmdSCard env args
  | CmdZAdd => cmdZAdd env (x_parse_float x) args
  | CmdZRem => cmdZRem env args
  | CmdZRange => cmdZRange env args
  | CmdZScore => cmdZScore env (x_format_float x) args
  | CmdZRank => cmdZRank env args
  | CmdZCard => cmdZCard env args
  | CmdIncr => cmdIncr env args
  | CmdIncrBy => cmdIncrBy env args
  | CmdDecr => cmdDecr env args
  | CmdDecrBy => cmdDecrBy env args
  | CmdAppend => cmdAppend env args
  | CmdStrlen => cmdStrlen env args
  | CmdGetSet => cmdGetSet env args
  | CmdDel => cmdDel env (x_write x) args
  | CmdExists => cmdExists env args
  | CmdKeys => cmdKeys env args
  | CmdType => cmdType env args
  | CmdRename => cmdRename env (x_write x) args
  | CmdDBSize => cmdDBSize env
  | CmdFlushDB => cmdFlushDB env
  | CmdExpire => cmdExpire env (x_write x) args
  | CmdExpireAt => cmdExpireAt env (x_write x) args
  | CmdPExpire => cmdPExpire env (x_write x) args
  | CmdTTL => cmdTTL env args
  | CmdPTTL => cmdPTTL env args
  | CmdPersist => cmdPersist env (x_write x) args
  | CmdDebug => cmdDebug
  | CmdConfig => cmdConfig args
  | CmdClient => cmdClient args
  | CmdAsking => cmdAsking
  | CmdRestore => cmdRestore env args
  | CmdMigrate => cmdMigrate env (SerializeEntryValue (x_json_float x) (x_json_error x)) (x_target x) args
  | CmdReplApply => cmdReplApply env args
  | CmdRegReplica => cmdRegReplica args
  | CmdWait => cmdWait env (x_polls x) (x_wait_fuel x) args
  | CmdBGSAVE => cmdBGSAVE env (SerializeEntryValue (x_json_float x) (x_json_error x)) (x_io x) args
  | CmdSave => cmdSave env (SerializeEntryValue (x_json_float x) (x_json_error x)) (x_io x) args
  | CmdLastSave => cmdLastSave args
  end.

(** ** Routing *)

Definition redirect_text (r : Redirect) : string :=
  (match rd_Type r with RedirectMoved => "MOVED " | RedirectAsk => "ASK " end) +:+ itoa (rd_Slot r) +:+ " " +:+ rd_Addr r.

(** Whether the command goes on here. *)
Definition handleRouteResult (r : RouteResult) : HM E bool :=
  if rr_CrossSlot r then
    do! _ := reply (WError "CROSSSLOT Keys in request don't hash to the same slot") in hret false
  else match rr_Redirect r with
       | Some rd => do! _ := reply (WError (redirect_text rd)) in hret false
       | None => hret (rr_Local r)
       end.

(** The routing of one command: no check without a cluster or without
    arguments. *)
Definition route_command (cmdName : string) (args : list (list byte)) : HM E bool :=
  do! cluster := read_handler h_cluster in
  match cluster, args with
  | Some c, a :: _ =>
      if isMultiKeyCommand cmdName then
        match getKeysForCrossSlotCheck cmdName args with
        | [] => hret true
        | [k] => do! asking := getConnState in handleRouteResult (Route (Some c) (str k) asking)
        | keys => handleRouteResult (RouteMulti (Some c) (str <$> keys))
        end
      else if isKeyCommand cmdName then
        do! asking := getConnState in handleRouteResult (Route (Some c) (str a) asking)
      else hret true
  | _, _ => hret true
  end.

Definition canAcceptWrite (c : Cluster) (cmdName : string) (args : list (list byte)) : bool :=
  let keys := getKeysForCrossSlotCheck cmdName args in
  let keys := match keys, args with
              | [], a :: _ => if isKeyCommand cmdName then [a] else []
              | _, _ => keys
              end in
  match keys with [] => true | k :: _ => CanAcceptWrite c (str k) end.

Definition write_refused (cmdName : string) (args : list (list byte)) : HM E bool :=
  do! cluster := read_handler h_cluster in
  hret match cluster, args with
       | Some c, _ :: _ => isWriteCommand cmdName && negb (canAcceptWrite c cmdName args)
       | _, _ => false
       end.

Definition recordHotspot (args : list (list byte)) : HM E unit :=
  λ h c,
    match h_hotspot h, args with
    | Some d, k :: _ =>
        let size := Z.of_nat (list_sum (length <$> args)) in
        Some (tt, put_hotspot h (Some (Detector_Record d (KeySlot (str k)) size)), c)
    | _, _ => Some (tt, h, c)
    end.

(** The part that [Execute] and [ExecuteBytes] share: a known command with its
    upper-cased name. *)
Definition execute_found (env : Env) (cmdName : string) (cmd : Cmd) (args : list (list byte)) : HM E unit :=
  do! here := route_command cmdName args in
  if negb here then clearAskingFlag
  else
    do! refused := write_refused cmdName args in
    if (refused : bool) then
      do! _ := reply (WError "READONLY slot is not writable on this node") in clearAskingFlag
    else
      do! _ := run_cmd env cmd args in
      do! _ := recordHotspot args in
      clearAskingFlag.

Definition execute_cluster (env : Env) (args : list (list byte)) : HM E unit :=
  do! cluster := read_handler h_cluster in
  match cluster with
  | None => reply (WError "ERR This instance has cluster support disabled")
  | Some c => HandleCluster env (x_meet x) c args
  end.

Definition unknown_command (cmdName : string) : HM E unit :=
  reply (WError ("ERR unknown command '" +:+ cmdName +:+ "'")).

(** ** [Execute] *)

Definition Execute (env : Env) (cmd : list byte) (args : list (list byte)) : HM E unit :=
  let cmdName := strings_ToUpper cmd in
  if bool_decide (cmdName = "CLUSTER") then execute_cluster env args
  else match commands cmdName with
       | None => unknown_command cmdName
       | Some c => execute_found env cmdName c args
       end.

(** ** The fast path *)

Definition fastSet (env : Env) (k v : list byte) : HM E unit :=
  do! r := call (pe_Set env (str k) (str v) 0) in
  match r with
  | inl e => reply (WError ("ERR " +:+ GoError_text e))
  | inr _ => reply (WString "OK")
  end.

Definition fastGet (env : Env) (k : list byte) : HM E unit :=
  do! r := call (pe_GetBytes env (str k)) in
  match r with inl _ => reply WNull | inr v => reply (WBulk v) end.

Definition fastIncr (env : Env) (k : list byte) : HM E unit :=
  do! r := call (pe_Incr env (str k)) in
  match r with
  | inl e => reply (WError ("ERR " +:+ GoError_text e))
  | inr v => reply (WInt v)
  end.

(** The nested comparisons of single bytes, in either case, with PING, SET, GET
    and INCR. *)
Definition fast_path (env : Env) (cmdBytes : list byte) (args : list (list byte)) : option (HM E unit) :=
  let name := BytesToString (ToUpperInPlace cmdBytes) in
  if bool_decide (name = "PING") then
    Some (match args with [] => reply (WString "PONG") | a :: _ => reply (WBulk a) end)
  else if bool_decide (name = "SET") then
    Some (match args with k :: v :: _ => fastSet env k v | _ => wrong_args "set" end)
  else if bool_decide (name = "GET") then
    Some (match args with [k] => fastGet env k | _ => wrong_args "get" end)
  else if bool_decide (name = "INCR") then
    Some (match args with [k] => fastIncr env k | _ => wrong_args "incr" end)
  else None.

(** ** [ExecuteBytes] *)

Definition execute_slow (cm : list (option cmdEntry)) (env : Env) (cmdBytes : list byte) (args : list (list byte)) : HM E unit :=
  let upper := ToUpperInPlace cmdBytes in
  if IsClusterCmd upper then execute_cluster env args
  else match Lookup cm upper with
       | None => unknown_command (str upper)
       | Some c => execute_found env (str upper) c args
       end.

Definition ExecuteBytes (cm : list (option cmdEntry)) (env : Env) (cmdBytes : list byte) (args : list (list byte)) : HM E unit :=
  do! cluster := read_handler h_cluster in
  match cluster, fast_path env cmdBytes args with
  | None, Some fast => fast
  | _, _ => execute_slow cm env cmdBytes args
  end.

(** ** [server.go] *)

(** A request and the rest of its pipeline, each at its own instant. *)
Fixpoint execute_pipeline (cm : list (option cmdEntry)) (cmds : list (Env * list (list byte))) : HM E unit :=
  match cmds with
  | [] => hret tt
  | (env, []) :: cmds' => execute_pipeline cm cmds'
  | (env, name :: args) :: cmds' =>
      do! _ := ExecuteBytes cm env name args in execute_pipeline cm cmds'
  end.

Definition handleCommand (cm : list (option cmdEntry)) (env : Env) (cmd : list (list byte))
    (pipeline : list (Env * list (list byte))) : HM E unit :=
  match cmd with
  | [] => reply (WError "ERR empty command")
  | name :: args => do! _ := ExecuteBytes cm env name args in execute_pipeline cm pipeline
  end.
End server.
