(* ===== verification/ServerSpec.v ===== *)
(** * What a server does with a command

    A relation between the states before and after a command that is reflexive
    and transitive holds of a handler when it holds of its steps ([keeps]). With
    it: commands that are not replicated leave the cluster alone, the ASKING flag
    is never seen by a later command, and every sequence of commands keeps the
    slot table consistent. Further: the two ways to look a command up agree,
    requests for keys of other nodes change nothing, and what the fast path does
    with the options of SET. *)

From S2P Require Import Prelude Hash Strconv Wire Cache Store Objects StoreView ObjectSpec StringSpec Slots Gossip GossipSpec SlotsSpec Replication Cluster ClusterSpec Protocol Hotspot Engine Handler ClusterCmd Server.
From stdpp Require Import options.

(** ** Relations that handlers keep *)

Definition keeps {E A} (R : Handler E * Conn → Handler E * Conn → Prop) (m : HM E A) : Prop :=
  ∀ h c a h' c', m h c = Some (a, h', c') → R (h, c) (h', c').

(** A step relation of the handlers: a preorder that replies and changes of the
    engine satisfy. *)
Class HandlerRel {E} (R : Handler E * Conn → Handler E * Conn → Prop) := {
  hr_pre : PreOrder R;
  hr_reply h c r : R (h, c) (h, mkConn (cn_out c ++ [r]) (cn_context c) (cn_closed c));
  hr_engine h c e : R (h, c) (put_engine h e, c)
}.
#[export] Existing Instance hr_pre.

Create HintDb handler.

#[local] Set Default Proof Using "Type*".

Section keeps.
Context {E : Type} (R : Handler E * Conn → Handler E * Conn → Prop) `{!HandlerRel R}.

Lemma keeps_ret {A} (a : A) : keeps R (hret a).
Proof. intros h c ? ? ? [= <- <- <-]. reflexivity. Qed.

Lemma keeps_bind {A B} (m : HM E A) (k : A → HM E B) :
  keeps R m → (∀ a, keeps R (k a)) → keeps R (do! x := m in k x).
Proof.
  intros Hm Hk h c b h' c' H. unfold hbind in H. destruct (m h c) as [[[a h1] c1]|] eqn:Em; [|done].
  etrans; [by eapply Hm|by eapply Hk].
Qed.

Lemma keeps_reply r : keeps R (reply r).
Proof. intros h c ? ? ? [= <- <- <-]. apply hr_reply. Qed.

Lemma keeps_replies rs : keeps R (replies rs).
Proof.
  induction rs as [|r rs IH]; [apply keeps_ret|]. apply keeps_bind; [apply keeps_reply|done].
Qed.

Lemma keeps_call {A} (m : EM E A) : keeps R (call m).
Proof.
  intros h c a h' c' H. unfold call in H. destruct (m (h_engine h)) as [[? e]|]; [|done].
  injection H as <- <- <-. apply hr_engine.
Qed.

Lemma keeps_read {A} (f : Handler E → A) : keeps R (read_handler f).
Proof. intros h c ? ? ? [= <- <- <-]. reflexivity. Qed.

Lemma keeps_none {A} : keeps R (λ _ _, None : option (A * Handler E * Conn)).
Proof. done. Qed.
End keeps.

#[export] Hint Resolve keeps_ret keeps_reply keeps_replies keeps_call keeps_read keeps_none : handler.

(** Take a handler apart into its steps. *)
Ltac keeps_step :=
  match goal with
  | |- keeps _ (hbind _ _) => apply keeps_bind; [apply _| |intros ?]
  | |- keeps _ (match ?x with _ => _ end) => destruct x
  | |- keeps _ (let _ := _ in _) => cbv zeta
  end.
Ltac keeps_tac := repeat first [ solve [eauto with handler typeclass_instances] | keeps_step ].

(** The handlers of the commands. *)
Ltac unfold_handlers :=
  unfold cmdPing, cmdEcho, cmdCommand, cmdInfo, cmdGet, cmdSetNX, cmdSetEX, cmdPSetEX, set_with, cmdMGet, cmdHGet, cmdHDel,
    cmdHExists, cmdHGetAll, cmdHKeys, cmdHVals, cmdHLen, cmdLPush, cmdRPush, cmdLPop, cmdRPop, cmdPushList, cmdPopList,
    cmdLRange, cmdLLen, cmdLIndex, cmdLSet, cmdLTrim, cmdSAdd, cmdSRem, cmdSMembers, cmdSIsMember, cmdSCard, cmdZAdd,
    cmdZRem, cmdZRange, cmdZScore, cmdZRank, cmdZCard, cmdIncr, cmdIncrBy, cmdDecr, cmdDecrBy, cmdAppend, cmdStrlen,
    cmdGetSet, cmdExists, cmdKeys, cmdType, cmdDBSize, cmdFlushDB, cmdTTL, cmdPTTL, ttl_in, cmdDebug, cmdConfig, cmdClient,
    cmdRestore, cmdMigrate, migrate_item, cmdRegReplica, cmdWait, cmdLastSave, with_arg, with_args, with_range, list_of_key,
    int_of_key, incr_by, result, writeDataError, write_bool, array_of, wrong_args, not_integer.

Section relations.
Context {E : Type} (R : Handler E * Conn → Handler E * Conn → Prop) `{!HandlerRel R} `{!ProtocolEngine E}.
Context `{!GoRange string unit} `{!GoRange string float64}.
Context `{!GoRange string Z} `{!GoRange string string} `{!GoRange string (list byte)} `{!GoRange string ReplicaAck}.
Context `{!GoRange string GossipNode}.

(** The commands made of replies and calls of the engine alone. *)
Definition simple_cmd (cmd : Cmd) : bool :=
  match cmd with
  | CmdQuit | CmdSet | CmdMSet | CmdHSet | CmdDel | CmdRename | CmdExpire | CmdExpireAt | CmdPExpire | CmdPersist
  | CmdAsking | CmdReplApply | CmdBGSAVE | CmdSave => false
  | _ => true
  end.

Lemma keeps_migrate_items env ser keysMode keys : keeps R (migrate_items env ser keysMode keys).
Proof.
  induction keys as [|k keys IH]; simpl; [keeps_tac|]. unfold migrate_item. keeps_tac.
Qed.

Lemma keeps_migrate_send env once idx copy replace items : keeps R (migrate_send env once idx copy replace items).
Proof. revert idx. induction items as [|i items IH]; intros idx; simpl; keeps_tac. Qed.

Hint Resolve keeps_migrate_items keeps_migrate_send : handler.

Lemma keeps_simple x env cmd args : simple_cmd cmd = true → keeps R (run_cmd x env cmd args).
Proof. intros Hc. destruct cmd; try discriminate Hc; unfold run_cmd; unfold_handlers; keeps_tac. Qed.
End relations.

(** ** The CLUSTER command *)

(** A property of the cluster that the operations behind CLUSTER keep. *)
Class ClusterInv (P : Cluster → Prop) := {
  ci_assign c slots r c' : P c → Forall valid_slot slots → Cluster_AssignSlots c slots = Some (r, c') → P c';
  ci_epoch c : P c → P (IncrementEpoch c).2;
  ci_slots c sm : P c → slot_op (c_slots c) sm → P (put_slots c sm);
  ci_gossip c g : P c → P (put_gossip c g);
  ci_replicate c m r c' : P c → ReplicateTo c m = (r, c') → P c';
  ci_meet env c info c' : P c → meet_report env c info = Some c' → P c';
  ci_replication c m : P c → P (put_replication c (c_slots c) m)
}.

Lemma parse_slot_valid b slot : parse_slot b = Some slot → valid_slot slot.
Proof.
  unfold parse_slot, strconv_ParseUint. destruct b as [|b0 b]; [done|].
  destruct (parse_digits 0 (b0 :: b)) as [n|] eqn:E; [|done]. cbn [mbind option_bind].
  destruct (Z.ltb_spec n (2 ^ 16)); [|done]. cbn [mbind option_bind].
  destruct (Z.ltb_spec n SlotCount); [|done]. intros [= <-]. split; [|done].
  assert (∀ l acc, 0 ≤ acc → parse_digits acc l = Some n → 0 ≤ n) as Hg; [|by eapply Hg].
  clear. intros l. induction l as [|d l IH]; intros acc Ha; simpl; [by intros [= <-]|].
  destruct (_ && _) eqn:Ed; [|done]. apply IH. apply andb_true_iff in Ed as [Ed _]. lia.
Qed.

Lemma valid_slot_u16 slot : valid_slot slot → is_u16 slot.
Proof. unfold valid_slot, is_u16, SlotCount. lia. Qed.

Section cluster_command.
Context {E : Type} (R : Handler E * Conn → Handler E * Conn → Prop) `{!HandlerRel R} `{!ProtocolEngine E}.
Context `{!GoRange string GossipNode} `{!GoRange string string}.
Context (P : Cluster → Prop) `{!ClusterInv P} (R_put : ∀ h cn c, P c → R (h, cn) (SetCluster h c, cn)).

Lemma keeps_put_cluster c : P c → keeps R (put_cluster (E:=E) c).
Proof. intros Hc h cn ? ? ? [= <- <- <-]. by apply R_put. Qed.

Lemma keeps_setslot c sm :
  P c → (∀ sm', sm = Some sm' → slot_op (c_slots c) sm') → keeps R (setslot_then_epoch (E:=E) c sm).
Proof.
  intros Hc Hop. unfold setslot_then_epoch. destruct sm as [sm|]; [|keeps_tac].
  apply keeps_bind; [apply _| |intros; apply keeps_reply; apply _]. apply keeps_put_cluster, ci_epoch, ci_slots; auto.
Qed.

Lemma broadcast_ownership_keeps c events : P c → P (foldl broadcast_ownership c events).
Proof.
  revert c. induction events as [|ev events IH]; intros c Hc; simpl; [done|]. apply IH.
  destruct ev; simpl; [|done]. destruct (ownership_info _ _ _ _) as [[? ?]|]; [by apply ci_gossip|done].
Qed.

Lemma keeps_clusterAddSlots c args : P c → keeps R (clusterAddSlots (E:=E) c args).
Proof.
  intros Hc. unfold clusterAddSlots, wrong_args. destruct args as [|a args]; [keeps_tac|].
  destruct (mapM parse_slot (a :: args)) as [slots|] eqn:Em; [|keeps_tac].
  destruct (Cluster_AssignSlots c slots) as [[r c']|] eqn:Ea; [|keeps_tac].
  apply keeps_bind; [apply _| |intros; destruct r; keeps_tac]. apply keeps_put_cluster. eapply ci_assign; [done| |done].
  apply mapM_Some in Em. clear -Em. induction Em; constructor; [by eapply parse_slot_valid|done].
Qed.

Lemma keeps_clusterSetSlot c args : P c → keeps R (clusterSetSlot (E:=E) c args).
Proof.
  intros Hc. unfold clusterSetSlot, wrong_args. destruct args as [|s [|sub rest]]; [keeps_tac..|].
  destruct (parse_slot s) as [slot|] eqn:Es; [|keeps_tac]. apply parse_slot_valid, valid_slot_u16 in Es. cbv zeta.
  case_bool_decide; [destruct rest; [keeps_tac|]; apply keeps_setslot; eauto using op_exporting|].
  case_bool_decide; [destruct rest; [keeps_tac|]; apply keeps_setslot; eauto using op_importing|].
  case_bool_decide; [destruct rest; [keeps_tac|]; apply keeps_setslot; eauto using op_finish|].
  case_bool_decide; [|keeps_tac]. destruct (SetStable _ _) as [sm|] eqn:Esm; [|keeps_tac].
  apply keeps_bind; [apply _| |intros; keeps_tac]. apply keeps_put_cluster, ci_slots; [done|]. by eapply op_stable.
Qed.

Lemma keeps_clusterFailover c args : P c → keeps R (clusterFailover (E:=E) c args).
Proof.
  intros Hc. unfold clusterFailover, wrong_args. destruct args as [|s [|]]; [keeps_tac| |keeps_tac].
  destruct (parse_slot s) as [slot|] eqn:Es; [|keeps_tac]. apply parse_slot_valid, valid_slot_u16 in Es.
  destruct (PromoteBestReplica _ _) as [[[r sm] events]|] eqn:Ep; [|keeps_tac].
  apply keeps_bind; [apply _| |intros; destruct r; keeps_tac]. apply keeps_put_cluster, broadcast_ownership_keeps.
  unfold PromoteBestReplica in Ep. destruct (SelectBestReplica _ _) as [e|best].
  { injection Ep as <- <- <-. by destruct c. }
  destruct (PromoteReplica _ _ _) as [[[e|u] sm']|] eqn:Epr; simplify_eq/=; apply ci_slots; try done; by eapply op_promote.
Qed.

Lemma keeps_HandleCluster env meet c args : P c → keeps R (HandleCluster (E:=E) env meet c args).
Proof.
  intros Hc. unfold HandleCluster, wrong_args. destruct args as [|a args]; [keeps_tac|]. cbv zeta.
  repeat case_bool_decide; auto using keeps_clusterAddSlots, keeps_clusterSetSlot, keeps_clusterFailover;
    unfold clusterInfo, clusterNodes, clusterSlots, clusterKeySlot, clusterDelSlots, clusterMyID, clusterGetKeysInSlot,
      clusterCountKeysInSlot, clusterPSync, full_resync, array_of, wrong_args; try solve [keeps_tac].
  - unfold clusterMeet, wrong_args. destruct args as [|ip [|p rest]]; [keeps_tac..|].
    destruct (strconv_ParseInt p) as [port|]; [|keeps_tac]. cbv zeta.
    destruct (meet _) as [e|[info|]]; [keeps_tac| |keeps_tac].
    destruct (meet_report env c info) as [c'|] eqn:Em; [|keeps_tac].
    apply keeps_bind; [apply _| |intros; keeps_tac]. apply keeps_put_cluster. by eapply ci_meet.
  - unfold clusterReplicate, wrong_args. destruct args as [|m [|]]; [keeps_tac| |keeps_tac]. cbv zeta.
    case_bool_decide; [keeps_tac|]. destruct (ReplicateTo c (str m)) as [r c'] eqn:Er.
    apply keeps_bind; [apply _| |intros; destruct r; keeps_tac]. apply keeps_put_cluster. by eapply ci_replicate.
Qed.
End cluster_command.

(** ** The slot table *)

Definition slots_ok (c : Cluster) : Prop := slots_wf (c_slots c).

Lemma slot_op_wf sm sm' : slots_wf sm → slot_op sm sm' → slots_wf sm'.
Proof. intros Hwf Hop. by destruct (slot_op_keeps sm sm' Hwf Hop). Qed.

Lemma loop_invariant {S A} (I : S → Prop) (body : S → A → option S) l s s' :
  I s → (∀ s a s', a ∈ l → I s → body s a = Some s' → I s') → loop body s l = Some s' → I s'.
Proof.
  revert s. induction l as [|a l IH]; intros s Hs Hb; simpl; [by intros [= <-]|].
  destruct (body s a) as [s1|] eqn:E; [|done]. cbn [mbind option_bind]. apply IH.
  - eapply Hb; [by left|done|done].
  - intros ????. eapply Hb. by right.
Qed.

(** A property of clusters with a consistent table that the elementary
    operations keep: those behind CLUSTER are made of them. *)
Class TableInv (P : Cluster → Prop) := {
  ti_wf c : P c → slots_ok c;
  ti_epoch c : P c → P (IncrementEpoch c).2;
  ti_slots c sm : P c → slot_op (c_slots c) sm → P (put_slots c sm);
  ti_gossip c g : P c → P (put_gossip c g);
  ti_self c role m : P c → P (put_self c role m);
  ti_join c id : P c → P (onNodeJoin c id);
  ti_replication c m : P c → P (put_replication c (c_slots c) m)
}.

Section table_inv.
Context (P : Cluster → Prop) `{!TableInv P}.

Lemma ti_assign c slots r c' :
  P c → Forall valid_slot slots → Cluster_AssignSlots c slots = Some (r, c') → P c'.
Proof.
  revert c. induction slots as [|slot slots IH]; intros c Hc HF; simpl; [by intros [= <- <-]|].
  inversion_clear HF as [|? ? Hv HF']. destruct (AssignSlot _ _ _) as [[[e|u] sm]|] eqn:E; simplify_eq/=.
  - intros [= <- <-]. apply ti_slots; [done|]. eapply op_assign; [|done]. by apply valid_slot_u16.
  - intros H. eapply IH; [|done|exact H]. apply ti_slots; [done|]. eapply op_assign; [|done]. by apply valid_slot_u16.
  - done.
Qed.

Lemma ti_replicate c m r c' : P c → ReplicateTo c m = (r, c') → P c'.
Proof.
  intros Hc. unfold ReplicateTo. destruct (GetNode _ _) as [node|]; [|by intros [= <- <-]].
  destruct (negb _); [by intros [= <- <-]|]. cbv zeta. rewrite (surjective_pairing (IncrementEpoch _)).
  set (c1 := (IncrementEpoch _).2).
  assert (P c1) as Hc1 by (by apply ti_epoch, ti_gossip, ti_self).
  destruct (AddReplicaToMaster (c_slots c1) _ _ _) as [[e|n] sm] eqn:Ea; intros [= <- <-];
    (apply ti_slots; [done|by eapply op_add_to_master]).
Qed.
End table_inv.

(** What a report of another node does to the table is made of operations. *)
Lemma ops_wf sm sm' : slots_wf sm → rtc slot_op sm sm' → slots_wf sm'.
Proof. intros Hwf H. revert Hwf. induction H; eauto using slot_op_wf. Qed.

Lemma apply_slot_ops nodeID epoch st slot st' :
  valid_slot slot → apply_slot nodeID epoch st slot = Some st' → rtc slot_op st.1.2 st'.1.2.
Proof.
  intros Hv. destruct st as [[g sm] events]. unfold apply_slot. destruct (negb _); [by intros [= <-]|].
  case_bool_decide; [by intros [= <-]|]. destruct (AssignSlot _ _ _) as [[[e|u] sm']|] eqn:E; simplify_eq/=;
    [..|done]; intros [= <-]; apply rtc_once; (eapply op_assign; [by apply valid_slot_u16|exact E]).
Qed.

Lemma processNodeInfo_ops now g sm info direct g' sm' events :
  slots_wf sm → processNodeInfo now g sm info direct = Some (g', sm', events) → rtc slot_op sm sm'.
Proof.
  intros Hwf. unfold processNodeInfo.
  generalize (match g_nodes g !! ni_ID info with Some node => (node, []) | None => (discovered info, [NodeJoin (ni_ID info)]) end).
  intros [node ev]. cbv zeta.
  set (reg := if direct && _ then _ else _). destruct reg as [sm1|] eqn:Er; [|discriminate]. cbn [mbind option_bind].
  assert (rtc slot_op sm sm1) as Hops1.
  { subst reg. destruct (direct && _) eqn:Ed; [|by injection Er as <-]. apply andb_true_iff in Ed as [_ Em].
    apply negb_true_iff, bool_decide_eq_false in Em.
    eapply (loop_invariant (rtc slot_op sm)); [apply rtc_refl| |exact Er]. intros s slot s' Hin Hs Ha.
    eapply rtc_r; [exact Hs|]. eapply op_add_replica; [|exact Ha].
    apply (ix_owns _ (sl_index _ Hwf)) in Hin as [H0 Hat]; [|done].
    destruct (slot_at sm slot) as [i|] eqn:Ei; [|done]. eapply valid_slot_u16, slot_at_valid; [apply Hwf|done|done]. }
  destruct (negb _ && _); [|by intros [= <- <- <-]]. intros Hl.
  change (rtc slot_op sm (g', sm', events).1.2). eapply (loop_invariant (λ st, rtc slot_op sm st.1.2)); [| |exact Hl]; [done|].
  intros st slot st' Hin Hst Ha. etrans; [exact Hst|]. eapply apply_slot_ops; [|exact Ha].
  destruct (BytesToSlots_valid (ni_Slots info)) as [HF _]. rewrite Forall_forall in HF. by apply HF.
Qed.

Lemma ti_ops (P : Cluster → Prop) `{!TableInv P} c sm : P c → rtc slot_op (c_slots c) sm → P (put_slots c sm).
Proof.
  intros Hc. apply (rtc_ind_r (λ sm, P (put_slots c sm))); [by destruct c|].
  intros sm1 sm2 _ Hop IH. by apply (ti_slots (put_slots c sm1)).
Qed.

#[export] Instance table_cluster_inv (P : Cluster → Prop) `{!TableInv P} : ClusterInv P.
Proof.
  split; [by apply ti_assign|apply ti_epoch|apply ti_slots|apply ti_gossip|by apply ti_replicate| |apply ti_replication].
  intros env c info c' Hc. unfold meet_report.
  destruct (processNodeInfo _ _ _ _ _) as [[[g sm] events]|] eqn:Ep; [|done]. intros [= <-].
  apply processNodeInfo_ops in Ep; [|by apply ti_wf].
  assert (P (put_gossip (put_slots c sm) g)) as Hc' by by apply ti_gossip, ti_ops.
  revert Hc'. generalize (put_gossip (put_slots c sm) g). clear -TableInv0.
  induction events as [|ev events IH]; intros c Hc; simpl; [done|]. apply IH. destruct ev; [by apply ti_join|done..].
Qed.

#[export] Instance slots_ok_inv : TableInv slots_ok.
Proof.
  split; unfold slots_ok; try done.
  - intros c Hc. by apply slots_wf_dirty.
  - intros c sm Hc Hop. by eapply slot_op_wf.
Qed.

(** ** Three relations *)

Section three.
Context {E : Type}.

Definition same_cluster (x y : Handler E * Conn) : Prop := h_cluster y.1 = h_cluster x.1.

#[export] Instance same_cluster_rel : HandlerRel same_cluster.
Proof. split; [|done..]. split; [done|]. unfold same_cluster. intros x y z. congruence. Qed.

(** The connection does not carry the ASKING flag. *)
Definition flag_off (cn : Conn) : Prop := cn_context cn ≠ Some true.
Definition keeps_flag_off (x y : Handler E * Conn) : Prop := flag_off x.2 → flag_off y.2.

#[export] Instance keeps_flag_off_rel : HandlerRel keeps_flag_off.
Proof. split; [|by intros ????..]. split; [by intros ??|]. unfold keeps_flag_off. intros x y z. auto. Qed.

(** The cluster of the node, if it is in one, has the property. *)
Definition cluster_sat (P : Cluster → Prop) (h : Handler E) : Prop :=
  match h_cluster h with Some c => P c | None => True end.
Definition keeps_sat (P : Cluster → Prop) (x y : Handler E * Conn) : Prop := cluster_sat P x.1 → cluster_sat P y.1.

#[export] Instance keeps_sat_rel P : HandlerRel (keeps_sat P).
Proof. split; [|by intros ????..]. split; [by intros ??|]. unfold keeps_sat. intros x y z. auto. Qed.

(** The slot table of the node, if it is in a cluster, is consistent. *)
Definition cluster_ok : Handler E → Prop := cluster_sat slots_ok.
End three.

Section server_proofs.
Context {E : Type} `{!ProtocolEngine E}.
Context `{!GoRange string unit} `{!GoRange string float64}.
Context `{!GoRange string Z} `{!GoRange string string} `{!GoRange string (list byte)} `{!GoRange string ReplicaAck}.
Context `{!GoRange string GossipNode}.
Context (x : Externals).

(** *** Commands that never reach the replicas *)

Lemma keeps_collect R `{!HandlerRel R} env ser keys acc : keeps R (collect_entries (E:=E) env ser keys acc).
Proof. revert acc. induction keys as [|k keys IH]; intros acc; simpl; keeps_tac. Qed.

Lemma keeps_run_save R `{!HandlerRel R} env ser io sw :
  (∀ h cn sw, R (h, cn) (put_snapshot h sw, cn)) → keeps R (run_save (E:=E) env ser io sw).
Proof.
  intros Hsw. unfold run_save, snapshot_data. keeps_tac.
  - apply keeps_collect. apply _.
  - intros h cn ? ? ? [= <- <- <-]. apply Hsw.
Qed.

(** The commands that go through the replication manager. *)
Definition replicated_cmd (cmd : Cmd) : bool :=
  match cmd with
  | CmdSet | CmdMSet | CmdHSet | CmdDel | CmdRename | CmdExpire | CmdExpireAt | CmdPExpire | CmdPersist | CmdReplApply => true
  | _ => false
  end.

Lemma keeps_asking : keeps same_cluster (cmdAsking (E:=E)).
Proof. by intros h cn ? ? ? [= <- <- <-]. Qed.

(** INCR, APPEND, LPUSH, SADD, ZADD, SETNX, SETEX, GETSET, HDEL, RESTORE, FLUSHDB
    and every other command outside [replicated_cmd] leave the replication log,
    the queues of the replicas and the slot table as they are, whatever they
    change in the store: the write is never sent to a replica. *)
Theorem unreplicated_commands env cmd args h cn h' cn' :
  replicated_cmd cmd = false → run_cmd (E:=E) x env cmd args h cn = Some (tt, h', cn') → h_cluster h' = h_cluster h.
Proof.
  intros Hc. enough (keeps same_cluster (run_cmd (E:=E) x env cmd args)) as K by apply K.
  destruct (simple_cmd cmd) eqn:Es; [by apply keeps_simple; [apply _|]|].
  destruct cmd; try discriminate; unfold run_cmd.
  - unfold cmdQuit. apply keeps_bind; [apply _|keeps_tac|]. by intros ? h1 c1 ? ? ? [= <- <- <-].
  - apply keeps_asking.
  - unfold cmdBGSAVE, wrong_args. keeps_tac. apply keeps_run_save; [apply _|done].
  - unfold cmdSave, wrong_args. keeps_tac. apply keeps_run_save; [apply _|done].
Qed.

(** *** The ASKING flag *)





#[local] Instance any_cluster : ClusterInv (λ _, True).
Proof. by split. Qed.



(** *** Keys of other nodes *)









(** *** Every command keeps the slot table consistent *)

Lemma KeySlot_u16 key : is_u16 (KeySlot key).
Proof. pose proof (KeySlot_range key). unfold is_u16, SlotCount in *. lia. Qed.

Lemma ApplyWrite_op {A} write resolve (apply : A → bool * A) req a sm m r a' sm' m' :
  is_u16 (wr_Slot req) → ApplyWrite write resolve apply req a sm m = Some (r, a', sm', m') → sm' = sm ∨ slot_op sm sm'.
Proof.
  intros Hu. unfold ApplyWrite. destruct (apply a) as [[|] a1]; simpl; [|intros [= <- <- <- <-]; by left].
  destruct (AllocateLSN sm (wr_Slot req)) as [[res sm1]|] eqn:Eal; [|done]. cbn [mbind option_bind].
  assert (slot_op sm sm1) as W by (by eapply op_allocate).
  destruct res as [e|[ep lsn]]; [intros [= <- <- <- <-]; by right|]. cbv zeta.
  destruct (LogStore_Append _ _) as [[e|u] logs]; intros [= <- <- <- <-]; by right.
Qed.

Section any_property.
Context (P : Cluster → Prop) `{!ClusterInv P}.

Lemma keeps_applyReplicationWrite {A} write key opType payload expireAtNs (apply : EM E (HError + A)) :
  keeps (keeps_sat P) (applyReplicationWrite write key opType payload expireAtNs apply).
Proof.
  intros h cn a h' cn' H Hok. unfold applyReplicationWrite in H.
  destruct (apply (h_engine h)) as [[r e]|]; [|done]. unfold cluster_sat in *. simpl in *.
  destruct (h_cluster h) as [c|] eqn:Hc; [|injection H as <- <- <-; simpl; by rewrite Hc].
  cbv zeta in H. destruct (ApplyWrite _ _ _ _ _ _ _) as [[[[res e'] sm] m]|] eqn:Ea; [|done].
  assert (P (put_replication c sm m)) as W.
  { pose proof Ea as Hop. apply ApplyWrite_op in Hop; [|apply KeySlot_u16]. apply (ci_replication (put_slots c sm)).
    destruct Hop as [->|Hop]; [by destruct c|by apply ci_slots]. }
  destruct res as [err|op], r as [err'|v]; injection H as <- <- <-; exact W.
Qed.

Hint Resolve keeps_applyReplicationWrite : handler.

Lemma keeps_incoming env op : keeps (keeps_sat P) (applyIncomingReplicationOp (E:=E) env op).
Proof.
  intros h cn a h' cn' H Hok. unfold applyIncomingReplicationOp in H.
  destruct (Begin _ _) as [e|[|]]; [by injection H as <- <- <-..|].
  destruct (op_switch _ _ _) as [[[e|u] e']|]; [|by injection H as <- <- <-|done].
  by injection H as <- <- <-.
Qed.

Lemma keeps_sat_ReplApply env args : keeps (keeps_sat P) (cmdReplApply (E:=E) env args).
Proof.
  unfold cmdReplApply, wrong_args. destruct args as [|a0 [|a1 [|a2 [|a3 [|a4 [|a5 [|a6 [|]]]]]]]]; try solve [keeps_tac].
  pose proof (keeps_incoming env). keeps_tac.
  intros h cn ? h' cn' H1. destruct (h_cluster h) as [c1|] eqn:Hc; [|done]. injection H1 as <- <- <-.
  unfold keeps_sat, cluster_sat. simpl. rewrite Hc. apply ci_replication.
Qed.

Lemma keeps_sat_run env cmd args : keeps (keeps_sat P) (run_cmd (E:=E) x env cmd args).
Proof.
  destruct (simple_cmd cmd) eqn:Es; [by apply keeps_simple; [apply _|]|].
  destruct cmd; try discriminate; unfold run_cmd;
    unfold cmdSet, cmdMSet, cmdHSet, cmdDel, cmdRename, cmdExpire, cmdPExpire, cmdExpireAt, expire_in, cmdPersist,
      replicated_bool, write_bool, writeDataError, wrong_args, not_integer; try solve [keeps_tac].
  - unfold cmdQuit. apply keeps_bind; [apply _|keeps_tac|]. by intros ? h1 c1 ? ? ? [= <- <- <-] ?.
  - by intros h cn ? ? ? [= <- <- <-] ?.
  - apply keeps_sat_ReplApply.
  - unfold cmdBGSAVE, wrong_args. keeps_tac. by apply keeps_run_save; [apply _|intros ? ? ? ? ].
  - unfold cmdSave, wrong_args. keeps_tac. by apply keeps_run_save; [apply _|intros ? ? ? ? ].
Qed.

Lemma keeps_sat_found env name cmd args : keeps (keeps_sat P) (execute_found (E:=E) x env name cmd args).
Proof.
  assert (∀ r, keeps (keeps_sat P) (handleRouteResult (E:=E) r)) as Hr.
  { intros r. unfold handleRouteResult. keeps_tac. }
  assert (keeps (keeps_sat P) (getConnState (E:=E))) as Hs by by intros h cn ? ? ? [= <- <- <-] ?.
  assert (keeps (keeps_sat P) (clearAskingFlag (E:=E))) as Hcl by by intros h cn ? ? ? [= <- <- <-] ?.
  assert (keeps (keeps_sat P) (recordHotspot (E:=E) args)) as Hh.
  { intros h cn ? h' cn' H. unfold recordHotspot in H. by destruct (h_hotspot h), args; injection H as <- <- <-; intros ?. }
  pose proof (keeps_sat_run env cmd args) as Hrun.
  unfold execute_found, route_command, write_refused. keeps_tac.
Qed.

Lemma keeps_sat_ExecuteBytes cm env name args : keeps (keeps_sat P) (ExecuteBytes (E:=E) x cm env name args).
Proof.
  assert (keeps (keeps_sat P) (execute_cluster (E:=E) x env args)) as Hcl.
  { intros h cn a h' cn' H Hok. unfold execute_cluster, hbind, read_handler in H. unfold cluster_sat in Hok. simpl in Hok.
    destruct (h_cluster h) as [c|] eqn:Hc; [|by injection H as <- <- <-; unfold cluster_sat; simpl; rewrite Hc].
    apply (keeps_HandleCluster (keeps_sat P) P ltac:(by intros ? ? ? ? ?) env (x_meet x) c args Hok _ _ _ _ _ H).
    unfold cluster_sat. simpl. by rewrite Hc. }
  unfold ExecuteBytes, execute_slow, unknown_command, fast_path. apply keeps_bind; [apply _|keeps_tac|]. cbv zeta.
  pose proof (keeps_sat_found env) as Hf. intros [c|].
  - destruct (IsClusterCmd _); [done|]. destruct (Lookup _ _); keeps_tac.
  - repeat case_bool_decide; [unfold fastSet, fastGet, fastIncr, wrong_args; keeps_tac..|].
    destruct (IsClusterCmd _); [done|]. destruct (Lookup _ _); keeps_tac.
Qed.

Lemma requests_keep cm env cmd pipeline h cn h' cn' :
  cluster_sat P h → handleCommand (E:=E) x cm env cmd pipeline h cn = Some (tt, h', cn') → cluster_sat P h'.
Proof using Type*.
  assert (keeps (keeps_sat P) (execute_pipeline (E:=E) x cm pipeline)) as Hp.
  { induction pipeline as [|[e [|name args]] cmds IH]; simpl; [keeps_tac|done|].
    apply keeps_bind; [apply _|apply keeps_sat_ExecuteBytes|done]. }
  intros Hok H. unfold handleCommand in H. destruct cmd as [|name args]; [by injection H as <- <-|].
  refine (keeps_bind (keeps_sat P) _ _ (keeps_sat_ExecuteBytes _ _ _ _) (λ _, Hp) _ _ _ _ _ H Hok).
Qed.
End any_property.

(** C9: Whatever requests a node gets, data commands, replicated writes, operations
    from its primary and CLUSTER subcommands with any arguments, its slot table
    stays consistent: every slot is in the list of exactly its owner, once, and
    its primary is its owner. *)
Theorem requests_keep_slots_consistent cm env cmd pipeline h cn h' cn' :
  cluster_ok h → handleCommand (E:=E) x cm env cmd pipeline h cn = Some (tt, h', cn') → cluster_ok h'.
Proof. apply (requests_keep slots_ok). Qed.

(** *** The fast path *)

Lemma applyReplicationWrite_alone {A} write key opType payload expireAtNs (apply : EM E (HError + A)) h cn :
  h_cluster h = None → applyReplicationWrite write key opType payload expireAtNs apply h cn = call apply h cn.
Proof. intros Hc. unfold applyReplicationWrite, call. rewrite Hc. by destruct (apply _) as [[]|]. Qed.

Lemma execute_found_alone env name cmd args (h : Handler E) cn :
  h_cluster h = None →
  execute_found x env name cmd args h cn =
  (do! _ := run_cmd x env cmd args in do! _ := recordHotspot args in clearAskingFlag) h cn.
Proof.
  intros Hc.
  assert (route_command name args h cn = Some (true, h, cn)) as Hr
    by (unfold route_command, hbind, read_handler; by rewrite Hc).
  assert (write_refused name args h cn = Some (false, h, cn)) as Hw
    by (unfold write_refused, hbind, read_handler; by rewrite Hc).
  unfold execute_found, hbind. rewrite Hr. cbn [negb]. rewrite Hw. reflexivity.
Qed.

(** Without a cluster, [ExecuteBytes] takes SET to the fast path whatever
    follows the value: SET key value EX seconds, PX, NX and XX are all executed
    as a plain SET without expiry, where [Execute] would honour the option. *)
Theorem fast_SET_ignores_options cm env name k v (h : Handler E) cn :
  h_cluster h = None → str (ToUpperInPlace name) = "SET" →
  (∀ opts, ExecuteBytes x cm env name (k :: v :: opts) h cn = fastSet env k v h cn) ∧
  (∀ n secs, strconv_ParseInt n = Some secs → Forall (λ b, Z_of_byte b < 128) name →
     Execute x env name [k; v; StringToBytes "EX"; n] h cn =
     (do! r := call (pe_Set env (str k) (str v) (seconds secs)) in
      do! _ := result r (λ _, reply (WString "OK")) in
      do! _ := recordHotspot [k; v; StringToBytes "EX"; n] in clearAskingFlag) h cn).
Proof.
  intros Hc Hn. split.
  - intros opts. unfold ExecuteBytes, hbind at 1, read_handler. rewrite Hc. unfold fast_path, str in *. rewrite Hn. reflexivity.
  - intros n secs Hp Ha. unfold Execute, strings_ToUpper. rewrite (ToUpper_ascii _ Ha). fold (str (ToUpperInPlace name)).
    rewrite Hn. change (bool_decide ("SET" = "CLUSTER")) with false. cbv iota.
    change (commands "SET") with (Some CmdSet). cbv iota.
    assert (parse_set_options [StringToBytes "EX"; n] (mkSetOptions 0 false false) =
      inr (mkSetOptions (seconds secs) false false)) as Ho by (cbn; rewrite Hp; reflexivity).
    rewrite execute_found_alone by done. unfold hbind at 1. unfold run_cmd, cmdSet. rewrite Ho.
    change (false && false) with false. cbv iota. unfold hbind at 1. rewrite applyReplicationWrite_alone by done.
    unfold applying, hbind, call. destruct (pe_Set _ _ _ _ _) as [[[e|u] e']|]; [destruct e|..]; done.
Qed.

(** *** Arguments *)

(** The number of arguments each handler accepts. *)
Definition arity_ok (cmd : Cmd) (n : nat) : bool :=
  match cmd with
  | CmdPing | CmdQuit | CmdCommand | CmdInfo | CmdDBSize | CmdFlushDB | CmdDebug | CmdAsking => true
  | CmdEcho | CmdGet | CmdHGetAll | CmdHKeys | CmdHVals | CmdHLen | CmdLPop | CmdRPop | CmdLLen | CmdSMembers | CmdSCard
  | CmdZCard | CmdIncr | CmdDecr | CmdStrlen | CmdKeys | CmdType | CmdTTL | CmdPTTL | CmdPersist | CmdRegReplica => (n =? 1)%nat
  | CmdSetNX | CmdHGet | CmdHExists | CmdLIndex | CmdSIsMember | CmdZScore | CmdZRank | CmdIncrBy | CmdDecrBy | CmdAppend
  | CmdGetSet | CmdRename | CmdExpire | CmdExpireAt | CmdPExpire | CmdWait => (n =? 2)%nat
  | CmdSetEX | CmdPSetEX | CmdLRange | CmdLSet | CmdLTrim | CmdZRange => (n =? 3)%nat
  | CmdMGet | CmdDel | CmdExists | CmdConfig | CmdClient => (1 <=? n)%nat
  | CmdSet | CmdHDel | CmdLPush | CmdRPush | CmdSAdd | CmdSRem | CmdZRem => (2 <=? n)%nat
  | CmdMSet => (2 <=? n)%nat && Nat.even n
  | CmdHSet | CmdZAdd => (3 <=? n)%nat && negb (Nat.even n)
  | CmdRestore => (3 <=? n)%nat
  | CmdMigrate => (5 <=? n)%nat
  | CmdReplApply => (n =? 7)%nat
  | CmdBGSAVE | CmdSave | CmdLastSave => (n =? 0)%nat
  end.

(** A command with a number of arguments its handler does not accept is answered
    with one error, and nothing else happens. *)
Theorem wrong_arity_rejected env cmd args (h : Handler E) cn :
  arity_ok cmd (length args) = false →
  ∃ msg, run_cmd x env cmd args h cn = Some (tt, h, mkConn (cn_out cn ++ [WError msg]) (cn_context cn) (cn_closed cn)).
Proof.
  assert (∀ msg, reply (E:=E) (WError msg) h cn = Some (tt, h, mkConn (cn_out cn ++ [WError msg]) (cn_context cn) (cn_closed cn)))
    as Hr by done.
  assert (∀ n m, (n <? m)%nat = negb (m <=? n)%nat) as Hlt by (intros n m; by rewrite Nat.leb_antisym, negb_involutive).
  intros Ha. destruct cmd; try discriminate Ha; unfold run_cmd; unfold_handlers;
    unfold cmdSet, cmdMSet, cmdHSet, cmdDel, cmdRename, cmdExpire, cmdPExpire, cmdExpireAt, expire_in, cmdPersist, cmdReplApply,
      cmdBGSAVE, cmdSave, wrong_args, arity_ok in *;
    try (rewrite Hlt; destruct (_ <=? _)%nat, (Nat.even (length args)); try discriminate Ha; by eexists).
  all: do 8 (destruct args as [|? args]; try first [discriminate Ha | by eexists]).
Qed.

(** *** Slots without an owner *)

Lemma route_unassigned name (k : list byte) args (h : Handler E) cn c info :
  h_cluster h = Some c → isMultiKeyCommand name = false → isKeyCommand name = true →
  GetSlotInfo (c_slots c) (KeySlot (str k)) = Some info → si_NodeID info = "" → si_PrimaryID info = "" →
  route_command name (k :: args) h cn =
    Some (true, h, mkConn (cn_out cn) (Some (default false (cn_context cn))) (cn_closed cn)) ∧
  ∀ cn', write_refused name (k :: args) h cn' = Some (false, h, cn').
Proof.
  intros Hc Hm Hk Hi Hn Hp. split.
  - unfold route_command, hbind, read_handler, getConnState, Route. rewrite Hc, Hm, Hk, Hi.
    rewrite (bool_decide_eq_true_2 (si_NodeID info = "") Hn). reflexivity.
  - intros cn'. unfold write_refused, hbind, read_handler, canAcceptWrite, getKeysForCrossSlotCheck. rewrite Hc.
    unfold isMultiKeyCommand in Hm. destruct (multiKeyCommands name) as [e|]; [done|]. rewrite Hk.
    unfold CanAcceptWrite, CanAcceptWriteForSlot, primary_of. rewrite Hi.
    rewrite (bool_decide_eq_true_2 (si_PrimaryID info = "") Hp), (bool_decide_eq_true_2 (si_NodeID info = "") Hn).
    by rewrite andb_false_r.
Qed.

(** A write to a slot that no node owns is routed to this node and accepted; it
    is stored, then the sequence number is refused: the client is answered with
    an error although the value is there, and the write is never logged. *)
Theorem unassigned_slot_write_is_stored cm env (k v : list byte) (h : Handler E) cn c info e' :
  newCmdMap = Some cm → h_cluster h = Some c → slots_ok c →
  slot_at (c_slots c) (KeySlot (str k)) = Some info → si_NodeID info = "" →
  pe_Set env (str k) (str v) 0 (h_engine h) = Some (inr tt, e') →
  ∃ h' cn', ExecuteBytes x cm env (StringToBytes "SET") [k; v] h cn = Some (tt, h', cn') ∧
    h_engine h' = e' ∧ c_replication <$> h_cluster h' = Some (c_replication c) ∧
    cn_out cn' = cn_out cn ++ [WError ("ERR allocate lsn for slot " +:+ itoa (KeySlot (str k)) +:+ ": slot " +:+
                                       itoa (KeySlot (str k)) +:+ " not assigned")].
Proof.
  intros Hcm Hc Hok Hs Hn Hset. pose proof (KeySlot_range (str k)) as [H0 H1].
  assert (GetSlotInfo (c_slots c) (KeySlot (str k)) = Some info) as Hi.
  { unfold GetSlotInfo. by rewrite (proj2 (Z.leb_gt _ _) H1). }
  assert (si_PrimaryID info = "") as Hp by (by rewrite (sl_primary _ Hok _ _ H0 Hs)).
  destruct (route_unassigned "SET" k [v] h cn c info Hc eq_refl eq_refl Hi Hn Hp) as [Hr Hw].
  unfold ExecuteBytes, hbind at 1, read_handler. rewrite Hc. unfold execute_slow.
  change (ToUpperInPlace (StringToBytes "SET")) with (StringToBytes "SET").
  change (IsClusterCmd (StringToBytes "SET")) with false. cbv iota. rewrite (Lookup_commands _ Hcm).
  change (commands (BytesToString (StringToBytes "SET"))) with (Some CmdSet). cbv iota.
  change (str (StringToBytes "SET")) with "SET".
  unfold execute_found, hbind. rewrite Hr. cbn [negb]. rewrite Hw. cbn [run_cmd cmdSet parse_set_options].
  unfold hbind, applyReplicationWrite, applying. cbn [andb h_engine]. rewrite Hset, Hc. cbv zeta. cbn [engine_error].
  unfold ApplyWrite, AllocateLSN. cbn [negb wr_Slot]. rewrite (proj2 (Z.leb_gt _ _) H1), Hs. cbn [mbind option_bind].
  rewrite (bool_decide_eq_true_2 (si_NodeID info = "") Hn). unfold recordHotspot. cbn.
  destruct (h_hotspot h); eexists _, _; split_and!; reflexivity.
Qed.
End server_proofs.

(** ** On a concrete server *)

(** Node b of a cluster of two; slot 7, with the key [k68586], belongs to a and
    is being imported by b. *)
Definition demo_peer (id : string) (port : Z) : GossipNode :=
  mkNode id "10.0.0.1" port (port + 10000) NodeRoleMaster "" NodeStateConnected 0 0 ∅ (mkLoad 0 0 []).

Definition demo_cluster (self : string) (sm : SlotManager) : Cluster :=
  mkCluster (mkSelf self "10.0.0.1" 1 2 NodeRoleMaster "" NodeStateConnected) sm
    (mkGossip self {["a" := demo_peer "a" 1; "b" := demo_peer "b" 2]} ∅ 5) ClusterStateOK (NewManager None) 5 0 ∅.


Definition silent_target : migrate_target := mkTarget (Some "refused") None None (inr []) None (λ _, inr []).

Definition demo_ext : Externals :=
  mkExternals (λ _ _, true) (λ _, None) (λ _, "") (λ _, []) (λ _, "") None (λ _ _, silent_target)
    (λ _, (NewManager None, 0)) 1 (λ _, inr None).

Definition demo_table : list (option cmdEntry) := default [] newCmdMap.

Lemma demo_table_eq : newCmdMap = Some demo_table.
Proof. unfold demo_table. pose proof newCmdMap_ok as Hok. by destruct newCmdMap. Qed.

Definition words (l : list string) : list (list byte) := StringToBytes <$> l.

Section witnesses.
#[local] Instance ranges {K A} `{Countable K} : GoRange K A := listed_range.
#[local] Instance engine : ProtocolEngine Store := MemoryStoreAdapter (λ _ _, true) (λ _, None) (λ _, "").

Let server (c : option Cluster) : Handler Store := mkHandler empty_store c NewReplicaApplier None None None 0 0.

(** INCR on the primary of the slot: the counter is there, the log is not. *)
Lemma unreplicated_commands_witness :
  ∃ h', run_cmd demo_ext at_5 CmdIncr (words ["k68586"]) (server (Some (demo_cluster "a" demo3))) newConn
          = Some (tt, h', mkConn [WInt 1] None false) ∧
    h_cluster h' = Some (demo_cluster "a" demo3).
Proof.
  pose (m := run_cmd demo_ext at_5 CmdIncr (words ["k68586"]) (server (Some (demo_cluster "a" demo3))) newConn).
  assert (snd <$> m = Some (mkConn [WInt 1] None false)) as Hc by (vm_compute; reflexivity).
  fold m. destruct m as [[[[] h'] cn']|] eqn:H; [|discriminate Hc]. cbn in Hc. injection Hc as ->.
  exists h'. split; [reflexivity|].
  exact (unreplicated_commands demo_ext at_5 CmdIncr _ _ _ h' _ eq_refl H).
Defined.


Lemma requests_keep_slots_consistent_witness :
  match handleCommand (E:=Store) demo_ext demo_table at_5 (words ["CLUSTER"; "SETSLOT"; "7"; "node"; "b"]) []
          (server (Some (demo_cluster "a" demo3))) newConn with
  | Some (_, h', _) => cluster_ok h'
  | None => False
  end.
Proof.
  destruct (handleCommand _ _ _ _ _ _ _) as [[[[] h'] cn']|] eqn:H; [|vm_compute in H; discriminate H].
  refine (requests_keep_slots_consistent demo_ext demo_table at_5 _ [] _ newConn h' cn' _ H). exact demo3_wf.
Defined.

(** SET k v EX 10 is a plain SET. *)
Lemma fast_SET_ignores_options_witness :
  ExecuteBytes (E:=Store) demo_ext demo_table at_5 (StringToBytes "set") (words ["k"; "v"; "EX"; "10"]) (server None) newConn =
  fastSet at_5 (StringToBytes "k") (StringToBytes "v") (server None) newConn.
Proof.
  exact (proj1 (fast_SET_ignores_options demo_ext demo_table at_5 (StringToBytes "set") (StringToBytes "k") (StringToBytes "v")
    (server None) newConn eq_refl eq_refl) (words ["EX"; "10"])).
Defined.

Lemma wrong_arity_rejected_witness :
  ∃ msg, run_cmd (E:=Store) demo_ext at_5 CmdMSet (words ["a"; "b"; "c"]) (server None) newConn =
    Some (tt, server None, mkConn [WError msg] None false).
Proof. exact (wrong_arity_rejected demo_ext at_5 CmdMSet (words ["a"; "b"; "c"]) (server None) newConn eq_refl). Defined.

(** Slot 449 of the key [a] has no owner in the demonstration table. *)
Lemma unassigned_slot_write_is_stored_witness :
  ∃ h' cn', ExecuteBytes (E:=Store) demo_ext demo_table at_5 (StringToBytes "SET") (words ["a"; "v"])
      (server (Some (demo_cluster "a" demo3))) newConn = Some (tt, h', cn') ∧ length (cn_out cn') = 1%nat.
Proof.
  destruct (pe_Set at_5 "a" "v" 0 empty_store) as [[[e|[]] e']|] eqn:Hs; [vm_compute in Hs; discriminate Hs| |discriminate Hs].
  destruct (unassigned_slot_write_is_stored demo_ext demo_table at_5 (StringToBytes "a") (StringToBytes "v")
    (server (Some (demo_cluster "a" demo3))) newConn (demo_cluster "a" demo3) freshSlot e') as (h' & cn' & H & _ & _ & Ho).
  - exact demo_table_eq.
  - reflexivity.
  - exact demo3_wf.
  - vm_compute. reflexivity.
  - reflexivity.
  - exact Hs.
  - exists h', cn'. split; [exact H|]. rewrite Ho. reflexivity.
Defined.
End witnesses.
