(* ===== verification/StateFileSpec.v ===== *)
(** * The cluster state file: what survives a restart

    Theorems about the state manager of StateFile.v: every operation of the slot
    table marks what it changes; when the cluster is left alone while a save runs,
    the file that [Close] leaves is the state of the node, and loading it gives
    the slot table back; a dirty state has a save on its way. Two schedules break
    this: a change during a save is not written, and after a failed save no change
    is written any more until [Close]. *)

From S2P Require Import Prelude Hash Strconv Wire Cache Store Objects StoreView ObjectSpec StringSpec Slots Gossip GossipSpec SlotsSpec Replication Cluster ClusterSpec Protocol Hotspot Engine Handler ClusterCmd Server StateFile ServerSpec.
From stdpp Require Import options.

(** ** Every change of the slot table is marked *)

Lemma marked_refl c : marked c c.
Proof. by right. Qed.

Lemma marked_trans c1 c2 c3 : marked c1 c2 → marked c2 c3 → marked c1 c3.
Proof. unfold marked. intros [H1|[H1 H1']] [H2|[H2 H2']]; [by left|left|by left|right]; split || idtac; congruence. Qed.

(** The part of a table that [saved_state] reads is its array. *)
Definition table_marked (sm sm' : SlotManager) : Prop :=
  sm_stateManager sm' = Some true ∨ sm_slots sm' = sm_slots sm ∧ sm_stateManager sm' = sm_stateManager sm.

Definition managed (sm : SlotManager) : Prop := is_Some (sm_stateManager sm).

Lemma markDirty_marked sm sm' : managed sm → sm_stateManager sm' = sm_stateManager sm → table_marked sm (markDirty sm').
Proof. intros [b Hb] H. left. simpl. by rewrite H, Hb. Qed.

Lemma removeSlotFromNode_manager sm n slot : sm_stateManager (removeSlotFromNode sm n slot) = sm_stateManager sm.
Proof. unfold removeSlotFromNode. by case_bool_decide. Qed.

Lemma setOwnerLocked_manager sm slot n sm' :
  setOwnerLocked sm slot n = Some sm' → sm_stateManager sm' = sm_stateManager sm.
Proof.
  unfold setOwnerLocked. destruct (slot_at sm slot) as [info|]; [|done]. cbn [mbind option_bind]. cbv zeta.
  destruct (_ && _); repeat case_bool_decide; intros [= <-]; simpl; by rewrite ?removeSlotFromNode_manager.
Qed.

Ltac table_tac :=
  repeat match goal with
  | |- context [if ?b then _ else _] => destruct b
  | |- context [match slot_at ?sm ?s with _ => _ end] => destruct (slot_at sm s) eqn:?
  | |- context [slot_at ?sm ?s ≫= _] => destruct (slot_at sm s) eqn:?; cbn [mbind option_bind]
  | |- context [setOwnerLocked ?sm ?s ?n ≫= _] => destruct (setOwnerLocked sm s n) eqn:?; cbn [mbind option_bind]
  | |- context [match update_replica ?a ?b ?c with _ => _ end] => destruct (update_replica a b c)
  | |- context [match last ?l with _ => _ end] => destruct (last l)
  | |- None = Some _ → _ => discriminate 1
  | |- Some _ = Some _ → _ => intros ?; simplify_eq
  end; try (by right);
  (apply markDirty_marked; [done|]; simpl; rewrite ?removeSlotFromNode_manager; by eauto using setOwnerLocked_manager).

Lemma slot_op_marked sm sm' : managed sm → slot_op sm sm' → table_marked sm sm'.
Proof.
  intros Hm [slot n r s _ E|slot e _|slot p rs e r s _ E|slot n s _ E|m n e r s E|slot r s _ E|slot n lsn r s _ E
    |slot n r s _ E|slot n s _ E|slot n s _ E|slot s _ E|slot n s _ E]; revert E || idtac.
  - unfold AssignSlot. cbv zeta. table_tac.
  - unfold SetSlotConfigEpoch. table_tac.
  - unfold ConfigureReplication. cbv zeta. table_tac.
  - unfold AddSlotReplica. table_tac.
  - unfold AddReplicaToMaster. destruct (_ || _); [intros [= <- <-]; by right|]. cbv zeta.
    destruct (Z.ltb_spec 0 (Z.of_nat (length (filter (owned_by m) (sm_slots sm))))) as [Hc|Hc]; intros [= <- <-].
    + by apply markDirty_marked.
    + right. simpl. split; [|done]. assert (filter (owned_by m) (sm_slots sm) = []) as Hn.
      { apply length_zero_iff_nil. lia. }
      clear -Hn. induction (sm_slots sm) as [|i l IH]; [done|]. simpl. revert Hn. rewrite filter_cons.
      case_decide; [done|]. intros Hn. f_equal. by apply IH.
  - unfold AllocateLSN. cbv zeta. table_tac.
  - unfold UpdateReplicaLSN. table_tac.
  - unfold PromoteReplica. cbv zeta. table_tac.
  - unfold SetImporting. table_tac.
  - unfold SetExporting. table_tac.
  - unfold SetStable. cbv zeta. table_tac.
  - unfold FinishMigration. table_tac.
Qed.

Lemma table_marked_cluster c sm : table_marked (c_slots c) sm → marked c (put_slots c sm).
Proof.
  intros [H|[Hs Hm]]; [by left|right]. split; [|done].
  unfold saved_state, GetSlotMapSnapshot, GetSlotReplicationState, GetMigratingSlots. simpl. by rewrite Hs.
Qed.

(** A slot operation and a new epoch are changes in the sense of the manager. *)
Lemma slot_op_change c sm : managed (c_slots c) → slot_op (c_slots c) sm → marked c (put_slots c sm).
Proof. intros. by apply table_marked_cluster, slot_op_marked. Qed.

Lemma IncrementEpoch_change c : managed (c_slots c) → marked c (IncrementEpoch c).2.
Proof. intros [b Hb]. left. simpl. by rewrite Hb. Qed.

(** A consistent table of a node with a state manager, reached by changes that are
    marked. *)
Definition marked_from (c0 c : Cluster) : Prop := slots_wf (c_slots c) ∧ managed (c_slots c) ∧ marked c0 c.

Lemma table_managed sm sm' : managed sm → table_marked sm sm' → managed sm'.
Proof. unfold managed. intros H [Hm|[_ Hm]]; rewrite Hm; [by eexists|done]. Qed.

#[export] Instance marked_from_inv c0 : TableInv (marked_from c0).
Proof.
  split; unfold marked_from.
  - by intros c [H _].
  - intros c (W & M & H). split_and!; [by apply slots_wf_dirty| |].
    + destruct M as [b Hb]. unfold managed. simpl. by rewrite Hb.
    + eapply marked_trans; [done|]. by apply IncrementEpoch_change.
  - intros c sm (W & M & H) Hop. pose proof (slot_op_marked _ _ M Hop) as Ht. split_and!.
    + by eapply slot_op_wf.
    + by eapply table_managed.
    + eapply marked_trans; [done|]. by apply table_marked_cluster.
  - intros c g H. exact H.
  - intros c r m H. exact H.
  - intros c id H. exact H.
  - intros c m H. exact H.
Qed.

Section requests.
Context {E : Type} `{!ProtocolEngine E}.
Context `{!GoRange string unit} `{!GoRange string float64}.
Context `{!GoRange string Z} `{!GoRange string string} `{!GoRange string (list byte)} `{!GoRange string ReplicaAck}.
Context `{!GoRange string GossipNode}.

(** C17: Whatever requests a node with a state file gets, in a pipeline or alone, data
    commands, replicated writes or CLUSTER subcommands with any arguments: when
    they change anything of what a restart reads back from the file (owners,
    replicas, sequence numbers, migrations, epochs), the state manager has been
    told. The list of nodes, which is written to the file but not read back, is
    not covered (see [meet_not_marked]). *)
Theorem requests_mark_state x cm env cmd pipeline (h h' : Handler E) cn cn' c c' :
  h_cluster h = Some c → slots_wf (c_slots c) → is_Some (sm_stateManager (c_slots c)) →
  handleCommand x cm env cmd pipeline h cn = Some (tt, h', cn') → h_cluster h' = Some c' →
  marked c c'.
Proof using Type*.
  intros Hc Hwf Hm H Hc'.
  assert (cluster_sat (marked_from c) h') as Hs.
  { eapply requests_keep; [apply _| |exact H]. unfold cluster_sat. rewrite Hc. by split_and!; [|done|apply marked_refl]. }
  unfold cluster_sat in Hs. rewrite Hc' in Hs. apply Hs.
Qed.
End requests.

(** ** What is in the file *)

(** Printable text, which JSON keeps as it is. *)
Definition plain (s : string) : bool := forallb (λ a, Nat.ltb (Ascii.nat_of_ascii a) 128) (String.list_ascii_of_string s).

Definition plain_replicas (rs : SlotReplicaSet) : bool :=
  plain (rs_PrimaryID rs) && forallb (λ r, plain (sr_NodeID r) && (0 <=? sr_MatchLSN r) && (sr_MatchLSN r <? 2 ^ 64)) (rs_Replicas rs)
  && (0 <=? rs_ConfigEpoch rs) && (rs_ConfigEpoch rs <? 2 ^ 64) && (0 <=? rs_NextLSN rs) && (rs_NextLSN rs <? 2 ^ 64).

Definition plain_migration (mg : MigrationState) : bool := plain (mg_Source mg) && plain (mg_Target mg) && plain (mg_State mg).

(** A state as the types of the source have it: an array of 16384 names, maps
    with 16-bit keys, 64-bit numbers; its names are plain. *)
Record plain_state (ps : PersistentState) : Prop := {
  pl_length : length (ps_SlotMap ps) = Z.to_nat SlotCount;
  pl_SlotMap : forallb plain (ps_SlotMap ps) = true;
  pl_replicas : map_Forall (λ k rs, is_u16 k ∧ plain_replicas rs = true) (ps_SlotReplicas ps);
  pl_migrations : map_Forall (λ k mg, is_u16 k ∧ plain_migration mg = true) (ps_MigratingSlots ps);
  pl_current : 0 ≤ ps_CurrentEpoch ps < 2 ^ 64;
  pl_my : 0 ≤ ps_MyEpoch ps < 2 ^ 64
}.

(** [json.Unmarshal] reads back what [json.MarshalIndent] wrote; only names that
    are not valid text may come back changed. A struct of numbers, strings and
    maps with integer keys can always be written. *)
Class StateJsonLaws (B : Type) `{!StateJson B} := {
  json_roundtrip st data :
    json_MarshalIndent st = inr data → plain_state (sf_state st) →
    ∃ id nodes, json_Unmarshal data = inr (mkStateFile (sf_Version st) id nodes (sf_state st));
  json_total st : ∃ data, json_MarshalIndent st = inr data
}.

(** The saved state is plain when every slot is. *)
Definition plain_slot (i : SlotInfo) : bool :=
  plain (si_NodeID i) && plain (si_Importing i) && plain (si_Exporting i) &&
  plain_replicas (mkReplicaSet (si_PrimaryID i) (si_Replicas i) (si_ConfigEpoch i) (si_NextLSN i)).

Lemma plain_migration_of i mg : plain_slot i = true → migration_of i = Some mg → plain_migration mg = true.
Proof.
  unfold plain_slot, plain_migration, migration_of. intros Hp. rewrite !andb_true_iff in Hp. destruct Hp as [[[H1 H2] H3] _].
  destruct (si_State i); intros [= <-]; simpl; rewrite ?H1, ?H2, ?H3; reflexivity.
Qed.

Lemma plain_replication_of i rs : plain_slot i = true → replication_of i = Some rs → plain_replicas rs = true.
Proof.
  unfold plain_slot, replication_of. intros Hp. apply andb_true_iff in Hp as [_ H]. destruct (_ && _); [done|]. by intros [= <-].
Qed.

Lemma plain_slot_map {A} (f : SlotInfo → option A) (good : A → bool) sm :
  index_ok sm → forallb plain_slot (sm_slots sm) = true → (∀ i a, plain_slot i = true → f i = Some a → good a = true) →
  map_Forall (λ k a, is_u16 k ∧ good a = true) (slot_map f (sm_slots sm)).
Proof.
  intros Hi Hp Hf k a Ha. pose proof (slot_map_valid f sm Hi k a Ha) as [H0 H1].
  split; [unfold is_u16, SlotCount in *; lia|]. rewrite slot_map_lookup in Ha by done.
  destruct (sm_slots sm !! Z.to_nat k) as [i|] eqn:E; [|done]. apply (Hf i); [|done].
  rewrite forallb_forall in Hp. apply Hp, list_elem_of_In. by eapply list_elem_of_lookup_2.
Qed.

Lemma plain_saved c :
  slots_wf (c_slots c) → forallb plain_slot (sm_slots (c_slots c)) = true →
  0 ≤ c_currentEpoch c < 2 ^ 64 → 0 ≤ c_myEpoch c < 2 ^ 64 → plain_state (saved_state c).
Proof.
  intros Hwf Hp Hc Hm. split; simpl; [| | | |done|done].
  - unfold GetSlotMapSnapshot. rewrite length_fmap. apply Hwf.
  - unfold GetSlotMapSnapshot. rewrite forallb_forall in *. intros s Hs. apply list_elem_of_In, list_elem_of_fmap in Hs as (i & -> & Hi).
    specialize (Hp i). rewrite list_elem_of_In in Hi. specialize (Hp Hi). unfold plain_slot in Hp.
    by rewrite !andb_true_iff in Hp; destruct Hp as [[[? _] _] _].
  - apply plain_slot_map; [apply Hwf|done|]. apply plain_replication_of.
  - apply plain_slot_map; [apply Hwf|done|]. apply plain_migration_of.
Qed.

Section state_file.
Context {B : Type} `{!StateJson B} `{!StateJsonLaws B}.
Context `{!GoRange string GossipNode} `{!GoRange Z MigrationState} `{!GoRange Z SlotReplicaSet}.

(** The file has the state of the cluster. *)
Definition in_file (c : Cluster) (file : option B) : Prop :=
  ∃ st data, file = Some data ∧ json_MarshalIndent st = inr data ∧ sf_Version st = CurrentStateVersion ∧
    sf_state st = saved_state c.

Lemma saved_store_clean c : saved_state (store_clean c) = saved_state c.
Proof using Type. reflexivity. Qed.

Lemma slots_wf_clean c : slots_wf (c_slots c) → slots_wf (c_slots (store_clean c)).
Proof using Type. intros [[L O N] P]. split; [split|]; [exact L|exact O|exact N|exact P]. Qed.

Lemma dirty_store_clean c : dirty (store_clean c) = false.
Proof using Type. unfold dirty. simpl. by destruct (sm_stateManager _). Qed.

Lemma dirty_managed c : managed (c_slots c) → dirty c = true ↔ sm_stateManager (c_slots c) = Some true.
Proof using Type. unfold dirty. intros [b ->]. simpl. split; [by intros ->|by intros [= ->]]. Qed.

Lemma marked_managed c c' : managed (c_slots c) → marked c c' → managed (c_slots c').
Proof using Type. unfold managed. intros H [Hm|[_ Hm]]; rewrite Hm; [by eexists|done]. Qed.

Lemma marked_dirty c c' : marked c c' → dirty c = true → dirty c' = true.
Proof using Type. unfold dirty. intros [->|[_ ->]]; done. Qed.

Lemma marked_clean c c' : marked c c' → dirty c' = false → saved_state c' = saved_state c ∧ dirty c = false.
Proof using Type. unfold dirty. intros [H|[H1 H2]]; [by rewrite H|]. by rewrite H2. Qed.

(** Seven reads of clusters with the same state give that state. *)
Lemma assemble_same seen st c :
  assemble seen = Some st → Forall (λ c', saved_state c' = saved_state c) seen →
  sf_Version st = CurrentStateVersion ∧ sf_state st = saved_state c.
Proof using Type.
  unfold assemble. destruct seen as [|c1 [|c2 [|c3 [|c4 [|c5 [|c6 [|c7 [|]]]]]]]]; try done. intros [= <-] HF.
  repeat (apply Forall_cons in HF as [?H HF]). split; [done|]. unfold sf_state.
  unfold saved_state in *. by simplify_eq/=; f_equal; congruence.
Qed.

(** *** Saving while the cluster is left alone *)

(** The cluster does not change while a save runs, nor after [Close]. *)
Definition quiet_step (m m' : StateManager B) : Prop :=
  ∃ ev, state_step m ev m' ∧ (ev = EvChange → st_mu m = None ∧ st_close m ≠ CloseDone ∧ st_close m ≠ CloseFailed).

(** The file has the state of the cluster, or neither has changed yet. *)
Definition file_ok (c0 : Cluster) (file0 : option B) (m : StateManager B) : Prop :=
  in_file (st_provider m) (st_file m) ∨ st_file m = file0 ∧ saved_state (st_provider m) = saved_state c0.

Record saving_inv (c0 : Cluster) (file0 : option B) (m : StateManager B) : Prop := {
  iv_managed : managed (c_slots (st_provider m));
  iv_clean : dirty (st_provider m) = false → file_ok c0 file0 m;
  iv_seen by_ seen : st_mu m = Some (by_, seen) → Forall (λ c, saved_state c = saved_state (st_provider m)) seen;
  iv_closed : st_close m = CloseDone → dirty (st_provider m) = false
}.

Lemma quiet_step_inv c0 file0 m m' : saving_inv c0 file0 m → quiet_step m m' → saving_inv c0 file0 m'.
Proof using Type.
  intros [I1 I2 I3 I4] (ev & Hs & Hq).
  destruct Hs as [c Hc|Hl Hch|Hl Ht|Hl Hmu|Hl Hcl|by_ seen Hmu Hlen|by_ seen st data Hmu Ha Hj|by_ seen st Hmu Ha|Hmu|Hcl|Hcl Hl
    |Hcl Hmu].
  - destruct (Hq eq_refl) as (Hmu & Hn & _). split; simpl; [by eapply marked_managed| | |done].
    + intros Hd. destruct (marked_clean _ _ Hc Hd) as [Hsame Hd']. unfold file_ok, in_file. simpl. rewrite Hsame.
      by apply I2.
    + intros by_ seen Hs. by rewrite Hmu in Hs.
  - by split.
  - by split.
  - split; simpl; [done|done| |done]. by intros ? ? [= <- <-].
  - by split.
  - split; simpl; [done|done| |done]. rewrite Hmu. simpl. intros ? ? [= <- <-]. apply Forall_app. split; [by eapply I3|].
    by repeat constructor.
  - destruct (assemble_same _ _ _ Ha (I3 _ _ Hmu)) as [Hv Hst]. split; simpl; [| |done|by rewrite dirty_store_clean].
    + destruct I1 as [b Hb]. unfold managed. simpl. by rewrite Hb.
    + intros _. left. exists st, data. by rewrite Hst.
  - split; simpl; [done|done|done|]. by destruct by_.
  - split; simpl; [done|done| |done]. by intros ? ? [= <- <-].
  - by split.
  - split; simpl; [done|done|done|]. by destruct (dirty (st_provider m)).
  - split; simpl; [done|done| |done]. by intros ? ? [= <- <-].
Qed.

Lemma quiet_run_inv c0 file0 m :
  sm_stateManager (c_slots c0) = Some false → rtc quiet_step (NewStateManager c0 file0) m → saving_inv c0 file0 m.
Proof using Type.
  intros H0. apply (rtc_ind_r (saving_inv c0 file0)); [|by intros m1 m2 _ Hs IH; eapply quiet_step_inv].
  split; simpl; [by eexists|by right|done|done].
Qed.

(** Loading a file that has the state of a consistent cluster gives it back. *)
Lemma Load_in_file c data c1 :
  slots_wf (c_slots c) → plain_state (saved_state c) → in_file c (Some data) →
  ∃ c2, Load (Some c1) (ReadData data) = Some (inr tt, Some c2) ∧ slots_wf (c_slots c2) ∧
    (∀ slot, valid_slot slot → slot_at (c_slots c2) slot = saved <$> slot_at (c_slots c) slot) ∧
    c_currentEpoch c2 = c_currentEpoch c ∧ c_myEpoch c2 = c_myEpoch c ∧ c_self c2 = c_self c1.
Proof using Type*.
  intros Hwf Hp (st & data' & [= <-] & Hj & Hv & Hs). rewrite <-Hs in Hp.
  destruct (json_roundtrip st data Hj Hp) as (id & nodes & Hu). unfold Load. rewrite Hu. simpl. rewrite Hv, Hs. simpl.
  destruct (RestoreFromState_saved (c_slots c1) (c_slots c) Hwf) as (sm & Hr & W & S).
  unfold RestoreState, saved_state at 1 2 3. simpl. rewrite Hr. simpl. eexists. split; [reflexivity|]. by split_and!.
Qed.

(** C11: When the cluster does not change while a save is running (if it does, see
    [change_during_save_lost]), and its names are plain text, a [Close] that
    returns without error leaves a file from which a restarted node gets the
    whole slot table and the epochs back, also when saves before it failed; a
    node on which nothing was changed leaves the file as it was. *)
Theorem closed_state_survives_restart c0 file0 m :
  sm_stateManager (c_slots c0) = Some false →
  rtc quiet_step (NewStateManager c0 file0) m → st_close m = CloseDone →
  slots_wf (c_slots (st_provider m)) → plain_state (saved_state (st_provider m)) →
  st_file m = file0 ∧ saved_state (st_provider m) = saved_state c0 ∨
  ∃ data, st_file m = Some data ∧
    ∀ c1, ∃ c2, Load (Some c1) (ReadData data) = Some (inr tt, Some c2) ∧ slots_wf (c_slots c2) ∧
      (∀ slot, valid_slot slot → slot_at (c_slots c2) slot = saved <$> slot_at (c_slots (st_provider m)) slot) ∧
      c_currentEpoch c2 = c_currentEpoch (st_provider m) ∧ c_myEpoch c2 = c_myEpoch (st_provider m) ∧
      c_self c2 = c_self c1.
Proof using Type*.
  intros H0 Hrun Hcl Hwf Hp. destruct (quiet_run_inv _ _ _ H0 Hrun) as [_ I2 _ I4].
  destruct (I2 (I4 Hcl)) as [Hf|Hf]; [right|by left].
  pose proof Hf as (st & data & Hd & _). exists data. split; [done|]. intros c1.
  apply Load_in_file; [done|done|]. by rewrite <-Hd.
Qed.

(** *** A dirty state has a save on its way *)

(** Transitions of the manager alone, the saves among them successful. *)
Definition own_step (m m' : StateManager B) : Prop := state_step m EvOther m' ∨ state_step m EvSaved m'.

(** No save fails, and the cluster is left alone while one runs. *)
Definition calm_step (m m' : StateManager B) : Prop :=
  ∃ ev, state_step m ev m' ∧ ev ≠ EvSaveFailed ∧
    (ev = EvChange → st_mu m = None ∧ st_close m ≠ CloseDone ∧ st_close m ≠ CloseFailed).

Lemma own_quiet m m' : own_step m m' → quiet_step m m'.
Proof using Type. by intros [H|H]; [exists EvOther|exists EvSaved]. Qed.

Lemma calm_quiet m m' : calm_step m m' → quiet_step m m'.
Proof using Type. intros (ev & H & _ & Hq). by exists ev. Qed.

Record pending_inv (m : StateManager B) : Prop := {
  pn_loop : st_loop m = LoopSave ↔ ∃ seen, st_mu m = Some (ByLoop, seen);
  pn_done : st_loop m = LoopDone → st_close m ≠ CloseNot;
  pn_seen by_ seen : st_mu m = Some (by_, seen) → (length seen ≤ 7)%nat;
  pn_dirty : dirty (st_provider m) = true → st_close m = CloseNot → st_loop m = LoopSelect → st_mu m = None →
    st_saveCh m = true ∨ st_timer m = true
}.

Lemma calm_step_pending m m' : pending_inv m → calm_step m m' → pending_inv m'.
Proof using Type.
  intros [P1 P2 P3 P4] (ev & Hs & Hf & Hq).
  destruct Hs as [c Hc|Hl Hch|Hl Ht|Hl Hmu|Hl Hcl|by_ seen Hmu Hlen|by_ seen st data Hmu Ha Hj|by_ seen st Hmu Ha|Hmu|Hcl|Hcl Hl
    |Hcl Hmu]; try done.
  - split; simpl; [done..|]. intros Hd Hcl Hl Hmu. destruct (dirty (st_provider m)) eqn:Ed.
    + destruct (P4 eq_refl Hcl Hl Hmu) as [-> | ->]; [by left|by right].
    + left. rewrite Hd. by destruct (st_saveCh m).
  - split; simpl; try done. by right.
  - split; simpl; [|by destruct (dirty _)|done|].
    + rewrite <-P1, Hl. by destruct (dirty _).
    + intros ->. done.
  - split; simpl; try done; [|by intros ? ? [= <- <-]; simpl; lia]. by split; [eexists|].
  - split; simpl; try done; [|by rewrite Hcl]. rewrite <-P1, Hl. done.
  - split; simpl; rewrite ?Hmu; simpl; try done.
    + rewrite P1, Hmu. split; intros [s Hs]; simplify_eq; by eexists.
    + intros ? ? [= <- <-]. rewrite length_app. simpl. lia.
  - split; simpl; try done.
    + split; [|by intros [? ?]]. destruct by_; [done|..]; intros [s Hs]%P1; congruence.
    + by destruct by_.
    + by rewrite dirty_store_clean.
  - split; simpl; try done; [|by intros ? ? [= <- <-]; simpl; lia].
    rewrite P1, Hmu. split; by intros [? ?].
  - split; simpl; try done; [by destruct (dirty _)|]. by intros ->.
  - split; simpl; try done; [|by intros ? ? [= <- <-]; simpl; lia].
    rewrite P1, Hmu. split; by intros [? ?].
Qed.
(** From a save in progress to its end. *)
Lemma save_finishes n m by_ seen :
  st_mu m = Some (by_, seen) → (length seen + n = 7)%nat →
  ∃ m', rtc own_step m m' ∧ dirty (st_provider m') = false ∧ saved_state (st_provider m') = saved_state (st_provider m).
Proof using StateJsonLaws0.
  revert m seen. induction n as [|n IH]; intros m seen Hmu Hn.
  - assert (∃ st, assemble seen = Some st) as [st Ha].
    { unfold assemble. destruct seen as [|? [|? [|? [|? [|? [|? [|? [|]]]]]]]]; simpl in Hn; try lia. by eexists. }
    destruct (json_total st) as [data Hj]. exists (save_done by_ m data). split_and!.
    + apply rtc_once. right. by eapply ss_saved.
    + simpl. apply dirty_store_clean.
    + done.
  - destruct (IH (save_read m) (seen ++ [st_provider m])) as (m' & Hr & Hd & Hs).
    { simpl. by rewrite Hmu. }
    { rewrite length_app. simpl. lia. }
    exists m'. split_and!; [|done|done]. eapply rtc_l; [|exact Hr]. left. eapply ss_read; [done|]. lia.
Qed.

(** The loop, past its test, saves. *)
Lemma loop_saves m :
  st_loop m = LoopLock → st_mu m = None →
  ∃ m', rtc own_step m m' ∧ dirty (st_provider m') = false ∧ saved_state (st_provider m') = saved_state (st_provider m).
Proof using StateJsonLaws0.
  intros Hl Hmu. destruct (save_finishes 7 (save_lock m ByLoop) ByLoop []) as (m' & Hr & Hd & Hs); [done|done|].
  exists m'. split_and!; [|done|done]. eapply rtc_l; [|exact Hr]. left. by apply ss_loop_lock.
Qed.

Lemma timer_saves m :
  st_loop m = LoopSelect → st_timer m = true → st_mu m = None → dirty (st_provider m) = true →
  ∃ m', rtc own_step m m' ∧ dirty (st_provider m') = false ∧ saved_state (st_provider m') = saved_state (st_provider m).
Proof using StateJsonLaws0.
  intros Hl Ht Hmu Hd. destruct (loop_saves (loop_timer m)) as (m' & Hr & Hd' & Hs); [simpl; by rewrite Hd|done|].
  exists m'. split_and!; [|done|done]. eapply rtc_l; [|exact Hr]. left. by apply ss_timer.
Qed.

Lemma pending_saves m :
  pending_inv m → st_close m = CloseNot → dirty (st_provider m) = true →
  ∃ m', rtc own_step m m' ∧ dirty (st_provider m') = false ∧ saved_state (st_provider m') = saved_state (st_provider m).
Proof using StateJsonLaws0.
  intros [P1 P2 P3 P4] Hcl Hd. destruct (st_mu m) as [[by_ seen]|] eqn:Hmu.
  { apply (save_finishes (7 - length seen) m by_ seen Hmu). pose proof (P3 _ _ eq_refl). lia. }
  destruct (st_loop m) eqn:Hl; [|by apply loop_saves|by destruct P1 as [[s Hs] _]|by destruct (P2 eq_refl)].
  destruct (st_timer m) eqn:Ht; [by apply timer_saves|].
  destruct (P4 Hd Hcl eq_refl eq_refl) as [Hs|[=]].
  destruct (timer_saves (loop_signal m)) as (m' & Hr & Hd' & Hs'); [done..|].
  exists m'. split_and!; [|done|done]. eapply rtc_l; [|exact Hr]. left. by apply ss_signal.
Qed.

(** C18: As long as no save has failed (after one, see [failed_save_not_retried]), the
    cluster was left alone while saves ran, and [Close] was not called, a state
    that was marked dirty is written by the manager itself: its own transitions,
    with no further change, call or signal from outside, can lead to a clean flag,
    with that state in the file. *)
Theorem dirty_state_gets_saved c0 file0 m :
  sm_stateManager (c_slots c0) = Some false →
  rtc calm_step (NewStateManager c0 file0) m → st_close m = CloseNot →
  ∃ m', rtc own_step m m' ∧ dirty (st_provider m') = false ∧
    saved_state (st_provider m') = saved_state (st_provider m) ∧
    (in_file (st_provider m) (st_file m') ∨ st_file m' = file0 ∧ saved_state (st_provider m) = saved_state c0).
Proof using StateJsonLaws0.
  intros H0 Hrun Hcl.
  assert (pending_inv m) as Hp.
  { revert Hrun. apply (rtc_ind_r pending_inv); [|by intros ? ? _ ? ?; eapply calm_step_pending].
    split; simpl; try done; [by split; [|intros [? ?]]|]. unfold dirty. by rewrite H0. }
  assert (∃ m', rtc own_step m m' ∧ dirty (st_provider m') = false ∧ saved_state (st_provider m') = saved_state (st_provider m))
    as (m' & Hr & Hd & Hs).
  { destruct (dirty (st_provider m)) eqn:Hd; [by apply pending_saves|by exists m]. }
  exists m'. split_and!; [done|done|done|].
  assert (saving_inv c0 file0 m') as [_ I2 _ _].
  { apply quiet_run_inv; [done|]. etrans.
    - eapply (rtc_subrel calm_step quiet_step); [|exact Hrun]. apply calm_quiet.
    - eapply (rtc_subrel own_step quiet_step); [|exact Hr]. apply own_quiet. }
  destruct (I2 Hd) as [(st & data & Hf)|[Hf Hc]]; [left|right].
  - exists st, data. by rewrite <-Hs.
  - by rewrite <-Hs.
Qed.

(** *** A change during a save *)

(** The snapshot that a save of one cluster writes. *)
Definition snapshot (c : Cluster) : StateFile :=
  mkStateFile CurrentStateVersion (nd_ID (c_self c)) (GetNodeInfos c) (saved_state c).

Lemma own_reads n m by_ seen :
  st_mu m = Some (by_, seen) → (length seen + n ≤ 7)%nat →
  rtc own_step m (mkStateManager (st_provider m) (st_saveCh m) (st_timer m) (st_loop m) (st_close m)
                    (Some (by_, seen ++ replicate n (st_provider m))) (st_file m)).
Proof using Type.
  revert m seen. induction n as [|n IH]; intros m seen Hmu Hn.
  - simpl. rewrite app_nil_r, <-Hmu. by destruct m.
  - eapply rtc_l; [left; apply (ss_read m by_ seen Hmu); lia|].
    specialize (IH (save_read m) (seen ++ [st_provider m])). simpl in IH. rewrite <-app_assoc in IH. apply IH.
    + by rewrite Hmu.
    + rewrite length_app. simpl. lia.
Qed.

(** A change made while a save runs can be lost for good: the flag is set already,
    so that the change sends no signal, and the save clears it when it ends. The
    loop does not save again, and [Close] returns without error and without
    saving: the file keeps the state before the change. *)
Theorem change_during_save_lost c0 c1 c2 file0 data :
  sm_stateManager (c_slots c0) = Some false → sm_stateManager (c_slots c1) = Some true →
  sm_stateManager (c_slots c2) = Some true →
  json_MarshalIndent (snapshot c1) = inr data →
  ∃ m, rtc (λ m m', ∃ ev, state_step m ev m') (NewStateManager c0 file0) m ∧
    st_close m = CloseDone ∧ saved_state (st_provider m) = saved_state c2 ∧ st_file m = Some data.
Proof using Type.
  intros H0 H1 H2 Hj.
  assert (dirty c0 = false ∧ dirty c1 = true ∧ dirty c2 = true) as (D0 & D1 & D2) by (unfold dirty; by rewrite H0, H1, H2).
  set (any := λ m m' : StateManager B, ∃ ev, state_step m ev m').
  assert (∀ m m', rtc own_step m m' → rtc any m m') as Hown.
  { intros m m'. apply rtc_subrel. intros ? ? [H|H]; by eexists. }
  eexists. split.
  - eapply rtc_l; [eexists; apply (ss_change _ c1); by left|]. unfold MarkDirty. simpl. rewrite D0, D1. simpl.
    eapply rtc_l; [eexists; by apply ss_signal|]. unfold loop_signal. simpl.
    eapply rtc_l; [eexists; by apply ss_timer|]. unfold loop_timer. simpl. rewrite D1.
    eapply rtc_l; [eexists; by apply ss_loop_lock|]. unfold save_lock. simpl.
    etrans; [apply Hown, (own_reads 7 _ ByLoop []); [done|simpl; lia]|]. simpl.
    eapply rtc_l; [eexists; apply (ss_change _ c2); by left|]. unfold MarkDirty. simpl. rewrite D1, D2. simpl.
    eapply rtc_l; [eexists; by eapply (ss_saved _ ByLoop _ (snapshot c1))|]. unfold save_done, save_return. simpl.
    eapply rtc_l; [eexists; by apply ss_close|]. unfold set_close. simpl.
    eapply rtc_l; [eexists; by apply ss_loop_done|]. unfold loop_done. simpl.
    eapply rtc_l; [eexists; by apply ss_close_test|]. unfold close_test. simpl. rewrite dirty_store_clean. apply rtc_refl.
  - done.
Qed.

(** *** A failed save *)

(** While nobody calls [Save] or [Close], a signal, a timer or a save by the loop
    is the only one of its kind, and the flag is set. *)
Record signal_inv (m : StateManager B) : Prop := {
  sg_mu : st_mu m ≠ None → st_loop m = LoopSave;
  sg_by by_ seen : st_mu m = Some (by_, seen) → by_ = ByLoop;
  sg_close : st_close m = CloseNot;
  sg_signal : st_saveCh m = true → dirty (st_provider m) = true ∧ st_timer m = false ∧ st_loop m = LoopSelect;
  sg_timer : st_timer m = true → dirty (st_provider m) = true ∧ st_loop m = LoopSelect;
  sg_loop : st_loop m ≠ LoopSelect → dirty (st_provider m) = true
}.

Definition unforced (ev : Event) : Prop := ev ≠ EvSaveCalled ∧ ev ≠ EvClose.

Lemma unforced_step_signal m ev m' : unforced ev → signal_inv m → state_step m ev m' → signal_inv m'.
Proof using Type.
  intros [U1 U2] [S1 S2 S3 S4 S5 S6] Hs.
  destruct Hs as [c Hc|Hl Hch|Hl Ht|Hl Hmu|Hl Hcl|by_ seen Hmu Hlen|by_ seen st data Hmu Ha Hj|by_ seen st Hmu Ha|Hmu|Hcl|Hcl Hl
    |Hcl Hmu]; try done; try congruence.
  - pose proof (marked_dirty _ _ Hc) as Hd. split; simpl; [done|done|done| | |by eauto].
    + destruct (st_saveCh m); [by intros _; destruct (S4 eq_refl) as (? & ? & ?); auto|]. simpl.
      destruct (dirty (st_provider m)) eqn:Ed; [done|]. intros Hc'. simpl in Hc'.
      split_and!; [done| |].
      * destruct (st_timer m); [|done]. by destruct (S5 eq_refl).
      * destruct (decide (st_loop m = LoopSelect)) as [|Hn]; [done|]. by specialize (S6 Hn).
    + intros Ht. destruct (S5 Ht). auto.
  - destruct (S4 Hch) as (? & ? & ?). by split.
  - destruct (S5 Ht) as [Hd ?]. split; simpl; rewrite ?Hd; try done.
    + intros Hn. by rewrite (S1 Hn) in Hl.
    + intros Hc. destruct (S4 Hc) as (_ & Hf & _). congruence.
  - split; simpl; try done.
    + by intros ? ? [= <- <-].
    + intros Hc. destruct (S4 Hc) as (_ & _ & Hf). congruence.
    + intros Hc. destruct (S5 Hc) as (_ & Hf). congruence.
    + intros _. apply S6. by rewrite Hl.
  - split; simpl; rewrite ?Hmu; simpl; try done.
    + intros _. apply S1. by rewrite Hmu.
    + intros ? ? [= <- <-]. by eapply S2.
  - assert (st_loop m = LoopSave) as Hl by (apply S1; by rewrite Hmu). pose proof (S2 _ _ Hmu) as ->.
    split; simpl; try done; intros Hc; [destruct (S4 Hc) as (_ & _ & Hf)|destruct (S5 Hc) as (_ & Hf)]; congruence.
  - assert (st_loop m = LoopSave) as Hl by (apply S1; by rewrite Hmu). pose proof (S2 _ _ Hmu) as ->.
    split; simpl; try done; intros Hc; [destruct (S4 Hc) as (_ & _ & Hf)|destruct (S5 Hc) as (_ & Hf)]; congruence.
Qed.

(** The loop waits, with the flag set, for a signal that nobody sends. *)
Record stuck (file : option B) (m : StateManager B) : Prop := {
  sk_select : st_loop m = LoopSelect;
  sk_close : st_close m = CloseNot;
  sk_mu : st_mu m = None;
  sk_saveCh : st_saveCh m = false;
  sk_timer : st_timer m = false;
  sk_dirty : dirty (st_provider m) = true;
  sk_file : st_file m = file
}.

Lemma failed_stuck m m' : signal_inv m → state_step m EvSaveFailed m' → stuck (st_file m) m'.
Proof using Type.
  intros [S1 S2 S3 S4 S5 S6] Hs. inversion Hs as [| | | | | | |by_ seen st Hmu Ha| | | |]; subst.
  assert (st_loop m = LoopSave) as Hl by (apply S1; by rewrite Hmu). pose proof (S2 _ _ Hmu) as ->.
  split; simpl; try done.
  - destruct (st_saveCh m); [|done]. destruct (S4 eq_refl) as (_ & _ & Hf). congruence.
  - destruct (st_timer m); [|done]. destruct (S5 eq_refl) as (_ & Hf). congruence.
  - apply S6. by rewrite Hl.
Qed.

Lemma stuck_step file m ev m' : unforced ev → stuck file m → state_step m ev m' → ev = EvChange ∧ stuck file m'.
Proof using Type.
  intros [U1 U2] [K1 K2 K3 K4 K5 K6 K7] Hs. destruct Hs; try congruence. split; [done|].
  split; simpl; try done; [by rewrite K4, K6|]. by eapply marked_dirty.
Qed.

(** After a save of the loop that failed (the disk was full, say), nothing is
    saved any more, whatever changes follow, until [Save] or [Close] is called:
    the flag stays set, so that [MarkDirty] sends no signal. *)
Theorem failed_save_not_retried c0 file0 m1 m2 m3 :
  sm_stateManager (c_slots c0) = Some false →
  rtc (λ m m', ∃ ev, unforced ev ∧ state_step m ev m') (NewStateManager c0 file0) m1 →
  state_step m1 EvSaveFailed m2 →
  rtc (λ m m', ∃ ev, unforced ev ∧ state_step m ev m') m2 m3 →
  st_file m3 = st_file m1 ∧ dirty (st_provider m3) = true ∧
  ∀ ev m4, unforced ev → state_step m3 ev m4 → ev = EvChange.
Proof using Type.
  intros H0 R1 Hf R2.
  assert (signal_inv m1) as I1.
  { revert R1. apply (rtc_ind_r signal_inv).
    - split; simpl; done.
    - intros ? ? _ (ev & U & Hs) IH. by eapply unforced_step_signal. }
  assert (stuck (st_file m1) m3) as K.
  { revert R2. apply (rtc_ind_r (stuck (st_file m1))); [by apply failed_stuck|].
    intros ? ? _ (ev & U & Hs) IH. by eapply stuck_step. }
  split_and!; [apply K|apply K|]. intros ev m4 U Hs. by destruct (stuck_step _ _ _ _ U K Hs).
Qed.

(** The program, which never calls [Save], runs, and the cluster is left alone
    while a save runs. *)
Definition orderly_step (m m' : StateManager B) : Prop :=
  ∃ ev, state_step m ev m' ∧ ev ≠ EvSaveCalled ∧ (ev = EvChange → st_mu m = None ∧ st_close m ≠ CloseDone ∧ st_close m ≠ CloseFailed).

Lemma own_orderly m m' : own_step m m' → orderly_step m m'.
Proof using Type. by intros [H|H]; [exists EvOther|exists EvSaved]. Qed.

Lemma orderly_quiet m m' : rtc orderly_step m m' → rtc quiet_step m m'.
Proof using Type. apply rtc_subrel. intros ? ? (ev & ? & ? & ?). by exists ev. Qed.

(** A run with one change, before [Close]. *)
Lemma close_saves c0 c1 file0 data :
  sm_stateManager (c_slots c0) = Some false → sm_stateManager (c_slots c1) = Some true →
  json_MarshalIndent (snapshot c1) = inr data →
  rtc orderly_step (NewStateManager c0 file0) (mkStateManager (store_clean c1) true false LoopDone CloseDone None (Some data)).
Proof using Type.
  intros H0 H1 Hj. assert (dirty c0 = false ∧ dirty c1 = true) as [D0 D1] by (unfold dirty; by rewrite H0, H1).
  assert (∀ m m', rtc own_step m m' → rtc orderly_step m m') as Hown by (intros m m'; apply rtc_subrel, own_orderly).
  eapply rtc_l; [eexists; split; [apply (ss_change _ c1); by left|done]|]. unfold MarkDirty. simpl. rewrite D0, D1. simpl.
  eapply rtc_l; [eexists; split; [by apply ss_close|done]|]. unfold set_close. simpl.
  eapply rtc_l; [apply own_orderly; left; by apply ss_loop_done|]. unfold loop_done. simpl.
  eapply rtc_l; [apply own_orderly; left; by apply ss_close_test|]. unfold close_test. simpl. rewrite D1.
  eapply rtc_l; [apply own_orderly; left; by apply ss_close_lock|]. unfold save_lock. simpl.
  etrans; [apply Hown, (own_reads 7 _ ByClose []); [done|simpl; lia]|]. simpl.
  eapply rtc_l; [apply own_orderly; right; by eapply (ss_saved _ ByClose _ (snapshot c1))|].
  unfold save_done, save_return. simpl. apply rtc_refl.
Qed.

(** A run of the loop up to a save that can fail. *)
Lemma loop_reads c0 c1 file0 :
  sm_stateManager (c_slots c0) = Some false → sm_stateManager (c_slots c1) = Some true →
  rtc (λ m m', ∃ ev, unforced ev ∧ state_step m ev m') (NewStateManager c0 file0)
    (mkStateManager c1 false false LoopSave CloseNot (Some (ByLoop, replicate 7 c1)) file0).
Proof using Type.
  intros H0 H1. assert (dirty c0 = false ∧ dirty c1 = true) as [D0 D1] by (unfold dirty; by rewrite H0, H1).
  eapply rtc_l; [exists EvChange; split; [done|apply (ss_change _ c1); by left]|]. unfold MarkDirty. simpl. rewrite D0, D1. simpl.
  eapply rtc_l; [exists EvOther; split; [done|by apply ss_signal]|]. unfold loop_signal. simpl.
  eapply rtc_l; [exists EvOther; split; [done|by apply ss_timer]|]. unfold loop_timer. simpl. rewrite D1.
  eapply rtc_l; [exists EvOther; split; [done|by apply ss_loop_lock]|]. unfold save_lock. simpl.
  eapply (rtc_subrel own_step);
    [|apply (own_reads 7 (mkStateManager c1 false false LoopSave CloseNot (Some (ByLoop, [])) file0) ByLoop []);
      [done|simpl; lia]].
  intros ? ? [H|H]; eexists; (split; [|exact H]); done.
Qed.
End state_file.

(** ** Instances *)

Section witnesses.
#[local] Instance ranges {K A} `{Countable K} : GoRange K A := listed_range.
#[local] Instance state_json : StateJson StateFile := {| json_MarshalIndent := inr; json_Unmarshal := inr |}.

#[local] Instance state_json_laws : StateJsonLaws StateFile.
Proof. split; [|by eexists]. intros st data [= <-] _. exists (sf_NodeID st), (sf_Nodes st). by destruct st. Qed.

Definition node0 : Cluster := NewCluster (mkClusterConfig "a" "10.0.0.1" 6379 16379) "" true.
(** The node takes slot 7, and then gives slot 8 to another. *)
Definition node1 : Cluster := put_slots node0 (default NewSlotManager (snd <$> AssignSlot (c_slots node0) 7 "a")).
Definition node2 : Cluster := put_slots node1 (default NewSlotManager (snd <$> AssignSlot (c_slots node1) 8 "b")).

Lemma saved_slot_map c : ps_SlotMap (saved_state c) = GetSlotMapSnapshot (c_slots c).
Proof. reflexivity. Qed.

Lemma json_identity st : json_MarshalIndent (B:=StateFile) st = inr st.
Proof. reflexivity. Qed.

Lemma node_flags :
  sm_stateManager (c_slots node0) = Some false ∧ sm_stateManager (c_slots node1) = Some true ∧
  sm_stateManager (c_slots node2) = Some true.
Proof. split_and!; vm_compute; reflexivity. Qed.

Lemma node1_wf : slots_wf (c_slots node1).
Proof.
  assert (AssignSlot (c_slots node0) 7 "a" = Some (inr tt, c_slots node1)) as H by (vm_compute; reflexivity).
  eapply (slot_op_keeps (c_slots node0)); [|eapply op_assign; [|exact H]].
  - apply (NewSlotManager_wf (Some false)).
  - unfold is_u16. lia.
Qed.

Lemma node1_plain : plain_state (saved_state node1).
Proof.
  assert (c_currentEpoch node1 = 0 ∧ c_myEpoch node1 = 0) as [He1 He2] by (split; vm_compute; reflexivity).
  apply plain_saved; [exact node1_wf|vm_compute; reflexivity|rewrite He1; clear; lia|rewrite He2; clear; lia].
Qed.

#[local] Instance engine : ProtocolEngine Store := MemoryStoreAdapter (λ _ _, true) (λ _, None) (λ _, "").

(** CLUSTER ADDSLOTS 7 on the node. *)
Definition addslots_result := handleCommand demo_ext demo_table at_5 (words ["CLUSTER"; "ADDSLOTS"; "7"]) []
  (mkHandler empty_store (Some node0) NewReplicaApplier None None None 0 0) newConn.

Lemma addslots_runs :
  ∃ h' cn' c', addslots_result = Some (tt, h', cn') ∧ h_cluster h' = Some c' ∧ dirty c' = true ∧ dirty node0 = false.
Proof.
  assert (match addslots_result with Some (tt, h', _) => (dirty <$> h_cluster h') | None => None end = Some true) as Ha
    by (vm_compute; reflexivity).
  assert (dirty node0 = false) as Hn by (vm_compute; reflexivity).
  destruct addslots_result as [[[[] h'] cn']|]; [|discriminate Ha].
  destruct (h_cluster h') as [c'|] eqn:Ec; [|discriminate Ha]. injection Ha as Ha. by exists h', cn', c'.
Qed.

Lemma requests_mark_state_witness :
  ∃ c', marked node0 c' ∧ dirty c' = true ∧ dirty node0 = false.
Proof.
  destruct addslots_runs as (h' & cn' & c' & Hr & Hc & Hd & Hn). exists c'. split; [|split; [exact Hd|exact Hn]].
  eapply (requests_mark_state demo_ext demo_table at_5 (words ["CLUSTER"; "ADDSLOTS"; "7"]) []
    (mkHandler empty_store (Some node0) NewReplicaApplier None None None 0 0) h' newConn cn' node0 c' eq_refl).
  - apply (NewSlotManager_wf (Some false)).
  - destruct node_flags as (-> & _ & _). by eexists.
  - exact Hr.
  - exact Hc.
Defined.

(** The node that is met answers with [info]. *)
Definition meet_answers (info : NodeInfo) : Externals :=
  mkExternals (x_write demo_ext) (x_parse_float demo_ext) (x_format_float demo_ext) (x_json_float demo_ext) (x_json_error demo_ext)
    (x_io demo_ext) (x_target demo_ext) (x_polls demo_ext) (x_wait_fuel demo_ext) (λ _, inr (Some info)).

(** CLUSTER MEET of a node that reports no slot. *)
Definition meet_result :=
  handleCommand (meet_answers (mkInfo "b" "10.0.0.2" 6379 16379 NodeFlagMaster "" 0 5 0 [] (mkLoad 0 0 []) "b")) demo_table at_5
    (words ["CLUSTER"; "MEET"; "10.0.0.2"; "6379"]) []
    (mkHandler empty_store (Some node0) NewReplicaApplier None None None 0 0) newConn.

(** CLUSTER MEET adds a node to the list that the file has, and does not tell the
    state manager. *)
Theorem meet_not_marked :
  match meet_result with
  | Some (_, h', _) =>
      match h_cluster h' with
      | Some c' => GetNodeInfos c' ≠ GetNodeInfos node0 ∧ dirty c' = false
      | None => False
      end
  | None => False
  end.
Proof.
  assert (match meet_result with
          | Some (_, h', _) => match h_cluster h' with Some c' => Some (length (GetNodeInfos c'), dirty c') | None => None end
          | None => None end = Some (2%nat, false)) as Ha by (vm_compute; reflexivity).
  destruct meet_result as [[[? h'] cn']|]; [|discriminate Ha]. destruct (h_cluster h') as [c'|]; [|discriminate Ha].
  injection Ha as Hl Hd. split; [|exact Hd]. intros E. rewrite E in Hl. revert Hl. vm_compute. discriminate.
Qed.

Lemma closed_state_survives_restart_witness :
  ∃ c2, Load (Some node0) (ReadData (snapshot node1)) = Some (inr tt, Some c2) ∧
    slot_at (c_slots c2) 7 = Some (mkSlot SlotStateNormal "a" "a" [] 0 0 "" "").
Proof.
  destruct node_flags as (H0 & H1 & _).
  destruct (closed_state_survives_restart node0 None _ H0
    (orderly_quiet _ _ (close_saves node0 node1 None (snapshot node1) H0 H1 (json_identity _))))
    as [[Hf _]|(data & Hf & Hl)].
  - reflexivity.
  - exact (slots_wf_clean node1 node1_wf).
  - exact (eq_ind_r plain_state node1_plain (saved_store_clean node1)).
  - revert Hf. unfold st_file. discriminate 1.
  - revert Hf. unfold st_file. intros [= <-]. destruct (Hl node0) as (c2 & Hc & _ & Hs & _). exists c2. split; [exact Hc|].
    rewrite (Hs 7) by (split; [lia|reflexivity]). cbv beta iota delta [st_provider]. vm_compute. reflexivity.
Defined.

Lemma dirty_state_gets_saved_witness :
  ∃ m', rtc own_step (MarkDirty (NewStateManager node0 None) node1) m' ∧ in_file node1 (st_file m').
Proof.
  destruct node_flags as (H0 & H1 & _).
  destruct (dirty_state_gets_saved node0 None (MarkDirty (NewStateManager node0 None) node1)) as (m' & Hr & _ & _ & Hf).
  - exact H0.
  - apply rtc_once. exists EvChange. split; [by apply ss_change; left|done].
  - reflexivity.
  - exists m'. split; [exact Hr|]. destruct Hf as [Hf|[_ Hf]]; [exact Hf|].
    exfalso. apply (f_equal (λ ps, ps_SlotMap ps !! 7%nat)) in Hf. cbv beta in Hf. rewrite !saved_slot_map in Hf.
    vm_compute in Hf. discriminate Hf.
Defined.

Lemma change_during_save_lost_witness :
  ∃ m, st_close m = CloseDone ∧ ps_SlotMap (saved_state (st_provider m)) !! 8%nat = Some "b" ∧
    ∃ st, st_file m = Some st ∧ ps_SlotMap (sf_state st) !! 8%nat = Some "".
Proof.
  destruct node_flags as (H0 & H1 & H2).
  destruct (change_during_save_lost node0 node1 node2 None (snapshot node1) H0 H1 H2 (json_identity _)) as (m & _ & Hc & Hs & Hf).
  exists m. split; [exact Hc|]. rewrite Hs, Hf. split; [rewrite saved_slot_map; vm_compute; reflexivity|].
  exists (snapshot node1). split; [reflexivity|]. unfold snapshot, sf_state. rewrite saved_slot_map. vm_compute. reflexivity.
Defined.

Lemma failed_save_not_retried_witness :
  ∃ m, st_provider m = node2 ∧ st_file m = None ∧ dirty (st_provider m) = true ∧
    ∀ ev m4, unforced ev → state_step m ev m4 → ev = EvChange.
Proof.
  destruct node_flags as (H0 & H1 & H2). eexists. split; [|
    eapply (failed_save_not_retried node0 None _ _ _ H0 (loop_reads node0 node1 None H0 H1));
      [by eapply (ss_failed _ ByLoop _ (snapshot node1))|
       apply rtc_once; exists EvChange; split; [done|apply (ss_change _ node2); left; exact H2]]].
  reflexivity.
Defined.
End witnesses.
