(* ===== verification/MigrationSpec.v ===== *)
(** * Moving the keys of a slot: what is deleted has arrived

    Theorems about Migration.v, for any engine: a key is deleted on the source
    only after the target answered OK to a RESTORE command with its entry, or
    when it had expired; a slot that a drain hands over has had all the keys it
    listed moved; the progress that the worker reports counts every key once. *)

From S2P Require Import Prelude Hash Strconv Slots SlotsSpec Gossip GossipSpec Replication Cluster ClusterSpec Store Objects Codec Protocol Engine Handler StoreView ObjectSpec StringSpec Migration ServerSpec.
From stdpp Require Import options.

(** The target took the command. *)
Record acknowledged (t : migrate_target) (cmd : list byte) : Prop := {
  ak_dial : mt_dial t = None;
  ak_asking : mt_asking t = inr ok_text;
  ak_restore : mt_restore t cmd = inr ok_text
}.

(** An exchange that fails at any of its steps, or ends with OK twice. *)
Ltac exchange_tac t :=
  destruct (mt_dial t) eqn:?; [done|]; destruct (mt_write_asking t); [done|]; destruct (mt_asking t) eqn:?; [done|];
  case_bool_decide; [|done]; cbn [negb]; subst; destruct (mt_write_restore t); [done|];
  match goal with |- context [mt_restore t ?cmd] => destruct (mt_restore t cmd) eqn:? end; [done|];
  case_bool_decide; [|done]; subst; by split.

Lemma drain_exchange_ok t item : drain_exchange t item = inr tt → acknowledged t (restore_command true item).
Proof. unfold drain_exchange. exchange_tac t. Qed.

Lemma worker_exchange_ok t addr item : worker_exchange t addr item = inr tt → acknowledged t (restore_command true item).
Proof. unfold worker_exchange, readOK. exchange_tac t. Qed.

Lemma migrate_exchange_ok t replace item : migrate_exchange t replace item = inr tt → acknowledged t (restore_command replace item).
Proof. unfold migrate_exchange. exchange_tac t. Qed.

Section keys.
Context {E : Type} `{!ProtocolEngine E} (serialize : EngineEntry → GoError + list byte).

(** The entry that the engine had for the key has arrived, or had expired. *)
Definition moved (replace : bool) (a : Attempt) (key : string) (e : E) : Prop :=
  ∃ entry e1, pe_GetEntry (at_env a) key e = Some (inr entry, e1) ∧
    (entry_ttlMs (at_env a) entry < 0 ∨
     ∃ b, serialize entry = inr b ∧
       acknowledged (at_target a) (restore_command replace (mkItem key (entry_ttlMs (at_env a) entry) b))).

(** The engine after an attempt: the entry was only read, or the key was deleted
    after it had moved. *)
Definition safely (replace : bool) (a : Attempt) (key : string) (e e' : E) : Prop :=
  (∃ r, pe_GetEntry (at_env a) key e = Some (r, e')) ∨
  moved replace a key e ∧ ∃ r e1 d, pe_GetEntry (at_env a) key e = Some (r, e1) ∧ pe_Del (at_env a) [key] e1 = Some (d, e').

Lemma safely_read replace a key e e' r : pe_GetEntry (at_env a) key e = Some (r, e') → safely replace a key e e'.
Proof using Type. left. by eexists. Qed.

Lemma moved_expired replace a key e entry e1 :
  pe_GetEntry (at_env a) key e = Some (inr entry, e1) → entry_ttlMs (at_env a) entry < 0 → moved replace a key e.
Proof using Type. intros. exists entry, e1. eauto. Qed.

Lemma moved_acknowledged replace a key e entry e1 b :
  pe_GetEntry (at_env a) key e = Some (inr entry, e1) → serialize entry = inr b →
  acknowledged (at_target a) (restore_command replace (mkItem key (entry_ttlMs (at_env a) entry) b)) → moved replace a key e.
Proof using Type. intros. exists entry, e1. eauto. Qed.

Lemma safely_deleted replace a key e e1 e' r d :
  moved replace a key e → pe_GetEntry (at_env a) key e = Some (r, e1) → pe_Del (at_env a) [key] e1 = Some (d, e') →
  safely replace a key e e'.
Proof using Type. intros. right. eauto 6. Qed.

(** Go through an attempt: what it reads, whether the key expired, the exchange,
    the deletion. *)
Ltac attempt_tac :=
  repeat match goal with
  | |- context [match pe_GetEntry ?env ?k ?e with _ => _ end] => destruct (pe_GetEntry env k e) as [[[?|?] ?]|] eqn:?
  | |- context [?x <? 0] => destruct (Z.ltb_spec x 0)
  | |- context [match serialize ?x with _ => _ end] => destruct (serialize x) eqn:?
  | |- context [match pe_Del ?env ?k ?e with _ => _ end] => destruct (pe_Del env k e) as [[[?|?] ?]|] eqn:?
  | |- context [match drain_exchange ?t ?i with _ => _ end] => destruct (drain_exchange t i) as [|[]] eqn:?
  | |- context [match worker_exchange ?t ?a ?i with _ => _ end] => destruct (worker_exchange t a i) as [|[]] eqn:?
  | |- context [match migrate_exchange ?t ?r ?i with _ => _ end] => destruct (migrate_exchange t r i) as [|[]] eqn:?
  end; try done; intros; simplify_eq; (split; [|try done; intros _]);
  eauto using safely_read, moved_expired, moved_acknowledged, safely_deleted, drain_exchange_ok, worker_exchange_ok, migrate_exchange_ok.

Lemma drainKey_spec a key e r e' :
  drainKey serialize a key e = Some (r, e') → safely true a key e e' ∧ (r = inr tt → moved true a key e).
Proof using Type. unfold drainKey. attempt_tac. Qed.

Lemma Worker_migrateKey_spec a addr key e r e' :
  Worker_migrateKey serialize a addr key e = Some (r, e') → safely true a key e e' ∧ (r = inr tt → moved true a key e).
Proof using Type. unfold Worker_migrateKey. attempt_tac. Qed.

Lemma doMigrate_spec a replace key e r e' :
  doMigrate serialize a replace key e = Some (r, e') → safely replace a key e e' ∧ (r = inr tt → moved replace a key e).
Proof using Type. unfold doMigrate. attempt_tac. Qed.

(** C16: Whichever of the three ways a key is moved, and wherever the attempt fails, the
    engine afterwards is the one that only read the entry, or the key was
    deleted, and then the target had answered OK to a RESTORE with that entry
    (or the entry had expired); an attempt reported as successful has moved the
    key. *)
Theorem deleted_keys_have_arrived a addr replace key e r e' :
  (drainKey serialize a key e = Some (r, e') → safely true a key e e' ∧ (r = inr tt → moved true a key e)) ∧
  (Worker_migrateKey serialize a addr key e = Some (r, e') → safely true a key e e' ∧ (r = inr tt → moved true a key e)) ∧
  (doMigrate serialize a replace key e = Some (r, e') → safely replace a key e e' ∧ (r = inr tt → moved replace a key e)).
Proof using Type. split_and!; [apply drainKey_spec|apply Worker_migrateKey_spec|apply doMigrate_spec]. Qed.

(** ** [drainSlot] *)

(** The keys are moved and deleted one after the other, each from the state that
    the one before has left. *)
Inductive moved_keys (attempt : nat → Attempt) : nat → list string → E → E → Prop :=
| moved_none i e : moved_keys attempt i [] e e
| moved_next i key keys e r e1 d e2 e' :
    moved true (attempt i) key e → pe_GetEntry (at_env (attempt i)) key e = Some (r, e1) →
    pe_Del (at_env (attempt i)) [key] e1 = Some (d, e2) → moved_keys attempt (S i) keys e2 e' →
    moved_keys attempt i (key :: keys) e e'.

(** A key that [drainKey] reports as moved has been deleted. *)
Lemma drainKey_deletes a key e e' :
  drainKey serialize a key e = Some (inr tt, e') →
  ∃ r e1 d, pe_GetEntry (at_env a) key e = Some (r, e1) ∧ pe_Del (at_env a) [key] e1 = Some (d, e').
Proof using Type.
  unfold drainKey. destruct (pe_GetEntry _ _ _) as [[[?|?] e1]|]; [done| |done]. destruct (_ <? 0).
  - destruct (pe_Del _ _ _) as [[d ?]|] eqn:?; [|done]. intros [= <-]. eauto 6.
  - destruct (serialize _); [done|]. destruct (drain_exchange _ _); [done|].
    destruct (pe_Del _ _ _) as [[[?|d] ?]|] eqn:?; [done| |done]. intros [= <-]. eauto 6.
Qed.

Lemma drain_keys_spec attempt i keys e e' :
  drain_keys serialize attempt i keys e = Some (inr tt, e') → moved_keys attempt i keys e e'.
Proof using Type.
  revert i e. induction keys as [|key keys IH]; intros i e; simpl; [intros [= <-]; constructor|].
  destruct (at_stop _); [done|]. destruct (drainKey _ _ _ _) as [[[err|[]] e1]|] eqn:Hk; [done| |done].
  intros Hr. destruct (drainKey_deletes _ _ _ _ Hk) as (r & e2 & d & HG & HD).
  eapply moved_next; [by eapply drainKey_spec|done|done|by apply IH].
Qed.

(** From [e] to [e']: the slot is listed, all keys that it lists move, and after
    that the slot is listed again and has no key. *)
Definition slot_moved (attempt : nat → Attempt) (env env' : Env) (slot : Z) (e e' : E) : Prop :=
  ∃ keys e1 e2, pe_KeysInSlot env slot 0 e = Some (keys, e1) ∧ moved_keys attempt 0 keys e1 e2 ∧
    (keys = [] ∧ e' = e2 ∨ pe_KeysInSlot env' slot 0 e2 = Some ([], e')).

Lemma drainSlot_spec attempt env env' slot e e' :
  drainSlot serialize attempt env env' slot e = Some (inr tt, e') → slot_moved attempt env env' slot e e'.
Proof using Type.
  unfold drainSlot. destruct (pe_KeysInSlot env slot 0 e) as [[keys e1]|] eqn:Hk; [|done]. destruct keys as [|key keys].
  { intros [= ->]. exists [], e', e'. split_and!; [done|constructor|by left]. }
  destruct (drain_keys _ _ _ _ _) as [[[err|[]] e2]|] eqn:Hd; [done| |done]. intros H.
  exists (key :: keys), e1, e2. split_and!; [done|by apply drain_keys_spec|right].
  destruct (pe_KeysInSlot env' slot 0 e2) as [[[|] e3]|]; [|done..]. by injection H as ->.
Qed.

(** ** [DrainSlots] *)

Section drain_slots.
Context `{!GoRange string GossipNode}.

Lemma loop_ext {S A} (f g : S → A → option S) s l :
  (∀ s a, a ∈ l → f s a = g s a) → loop f s l = loop g s l.
Proof using Type.
  revert s. induction l as [|a l IH]; intros s H; simpl; [done|]. rewrite (H s a) by by left.
  destruct (g s a); [|done]. simpl. apply IH. intros ? ? ?. apply H. by right.
Qed.

Lemma drain_one_ext d1 d2 peers c entry :
  (∀ addr, d1 entry.2 addr = d2 entry.2 addr) → drain_one d1 peers c entry = drain_one d2 peers c entry.
Proof using Type.
  destruct entry as [i slot]. simpl. intros H. destruct (peers !! _); [|done]. simpl.
  destruct (SetExporting _ _ _); [|done]. simpl. by rewrite H.
Qed.

(** The engine goes through the states [es], one slot after the other; [outcome]
    says which slots could be moved. *)
Definition drain_states (conns : nat → (nat → Attempt) * Env * Env) (entries : list (nat * Z)) (outcome : Z → bool) (es : list E) : Prop :=
  ∀ j i s, entries !! j = Some (i, s) →
    ∃ ej ej', es !! j = Some ej ∧ es !! S j = Some ej' ∧
      if outcome s then slot_moved (conns i).1.1 (conns i).1.2 (conns i).2 s ej ej'
      else ∃ err, drainSlot serialize (conns i).1.1 (conns i).1.2 (conns i).2 s ej = Some (inl err, ej').

(** A run with the keys is one of [drain_one], whose argument says what became of
    the slots. *)
Lemma drain_keys_outcome conns peers entries c e c' e' :
  NoDup entries.*2 → loop (drain_one_keys serialize conns peers) (c, e) entries = Some (c', e') →
  ∃ (outcome : Z → bool) es, loop (drain_one (λ s _, outcome s) peers) c entries = Some c' ∧
    head es = Some e ∧ last es = Some e' ∧ drain_states conns entries outcome es.
Proof using Type.
  revert c e. induction entries as [|[i s] entries IH]; intros c e Hnd H.
  { injection H as <- <-. exists (λ _, false), [e]. by split_and!; [| | |intros ? ? ?]. }
  cbn [fmap list_fmap snd] in Hnd. apply NoDup_cons in Hnd as [Hs Hnd]. cbn [loop] in H.
  destruct (drain_one_keys serialize conns peers (c, e) (i, s)) as [[c1 e1]|] eqn:H1; [|done]. cbn [mbind option_bind] in H.
  destruct (IH c1 e1 Hnd H) as (outcome & es & Hl & Hh & Ht & Hm).
  unfold drain_one_keys in H1. cbn [fst snd] in H1. destruct (conns i) as [[attempt env] env'] eqn:Hc.
  destruct (drainSlot _ _ _ _ _ _) as [[r e2]|] eqn:Hd; [|done].
  destruct (drain_one _ peers c (i, s)) as [c2|] eqn:Ho; [|done]. cbn [mbind option_bind] in H1. injection H1 as -> ->.
  set (ok := match r with inl _ => false | inr _ => true end) in Ho.
  assert (∀ j x, (j, x) ∈ entries → x ≠ s) as Hne.
  { intros j x Hin ->. apply Hs. by apply (list_elem_of_fmap_2 snd entries (j, s)). }
  exists (λ s', if decide (s' = s) then ok else outcome s'), (e :: es). split_and!; [|done|by destruct es|].
  - cbn [loop]. rewrite (drain_one_ext _ (λ _ _, ok)), Ho by (intros ?; simpl; by rewrite decide_True). cbn [mbind option_bind].
    rewrite <-Hl. apply loop_ext. intros st [j x] Hin. apply drain_one_ext. intros _. simpl.
    by rewrite decide_False by by eapply Hne.
  - intros [|j] k x Hj; simpl in Hj.
    + injection Hj as -> ->. exists e, e1. split_and!; [done|by destruct es|]. rewrite decide_True by done. rewrite Hc. simpl.
      subst ok. destruct r as [err|[]]; [by eexists|by apply drainSlot_spec].
    + destruct (Hm j k x Hj) as (ej & ej' & H1 & H2 & H3). exists ej, ej'. split_and!; [done|done|].
      apply list_elem_of_lookup_2 in Hj. by rewrite decide_False by by eapply Hne.
Qed.

(** C10: When a node hands over its slots before it stops, its engine goes from [e] to
    [e'] through one state per slot. A slot that now belongs to a peer has had
    every key moved that it listed in the state in which it was handed over: the
    peer answered OK to a RESTORE with the entry that the engine had, or the
    entry had expired, then the key was deleted, and a second look at the slot
    found no key. Every other slot stays with the node, and its transfer had
    failed. The table stays consistent. *)
Theorem drained_slots_take_their_keys conns c e c' e' :
  slots_wf (c_slots c) → nd_ID (c_self c) ≠ "" → drain_peers c ≠ [] →
  DrainSlots_keys serialize conns c e = Some (c', e') →
  slots_wf (c_slots c') ∧
  ∃ es, head es = Some e ∧ last es = Some e' ∧
  ∀ i slot, GetNodeSlots (c_slots c) (nd_ID (c_self c)) !! i = Some slot →
    ∃ ei ei' target, es !! i = Some ei ∧ es !! S i = Some ei' ∧ drain_peers c !! (i mod length (drain_peers c))%nat = Some target ∧
      let '(attempt, env, env') := conns i in
      if decide (GetSlotNode (c_slots c') slot = nd_ID (c_self c))
      then ∃ err, drainSlot serialize attempt env env' slot ei = Some (inl err, ei')
      else GetSlotNode (c_slots c') slot = nd_ID target ∧ slot_moved attempt env env' slot ei ei'.
Proof using Type.
  intros Hwf H0 Hp H. unfold DrainSlots_keys in H. set (mine := GetNodeSlots _ _) in *. set (peers := drain_peers c) in *.
  destruct (bool_decide (mine = [])) eqn:Em; cbn [orb] in H.
  { injection H as <- <-. apply bool_decide_eq_true in Em. split; [done|]. exists [e]. by rewrite Em. }
  rewrite bool_decide_eq_false_2 in H by done.
  destruct (drain_keys_outcome conns peers (imap pair mine) c e c' e') as (outcome & es & Hl & Hh & Ht & Hm);
    [rewrite imap_pair_snd; by apply Hwf|done|].
  destruct (DrainSlots_spec (λ s _, outcome s) c Hwf H0 Hp) as (c2 & Hd & W & _ & A).
  unfold DrainSlots in Hd. fold mine peers in Hd. rewrite Em, (bool_decide_eq_false_2 (peers = [])) in Hd by done.
  cbn [orb negb] in Hd. rewrite Hl in Hd. injection Hd as <-. split; [done|]. exists es. split_and!; [done|done|].
  intros i slot Hi. destruct (Hm i i slot) as (ei & ei' & H1 & H2 & H3); [by rewrite list_lookup_imap, Hi|].
  assert (slot ∈ mine) as Hin by by eapply list_elem_of_lookup_2.
  apply (ix_owns _ (sl_index _ Hwf)) in Hin as [Hs0 Hs]; [|done].
  destruct (slot_at (c_slots c) slot) as [info|] eqn:Es; [|done]. cbn in Hs. injection Hs as Hs.
  destruct (A i slot info Hi Es) as (target & Ht1 & Hne & At). exists ei, ei', target. split_and!; [done..|].
  assert (GetSlotNode (c_slots c') slot = if outcome slot then nd_ID target else nd_ID (c_self c)) as ->.
  { unfold GetSlotNode. rewrite info_valid, At by by apply (slot_at_valid (c_slots c) slot info (sl_index _ Hwf)).
    by destruct (outcome slot). }
  destruct (conns i) as [[attempt env] env']. simpl in H3. destruct (outcome slot).
  - by rewrite decide_False.
  - by rewrite decide_True.
Qed.
End drain_slots.

(** ** The worker on demand *)

(** Some attempt within the limit moved the key. *)
Definition moved_within (replace : bool) (attempt : nat → Attempt) (n : nat) (key : string) : Prop :=
  ∃ k ek, (k < n)%nat ∧ moved replace (attempt k) key ek.

Lemma migrate_attempts_spec attempt replace key n k lastErr e r e' :
  migrate_attempts serialize attempt replace key k n lastErr e = Some (r, e') →
  r = inr tt → lastErr = inr tt ∧ n = 0%nat ∨ ∃ j ej, (k ≤ j < k + n)%nat ∧ moved replace (attempt j) key ej.
Proof using Type.
  revert k lastErr e. induction n as [|n IH]; intros k lastErr e; simpl; [intros [= <- <-] ->; by left|].
  destruct (if bool_decide _ then _ else _); [by intros [= <- <-]|].
  destruct (doMigrate _ _ _ _ _) as [[[err|[]] e1]|] eqn:Hd; [| |done].
  - destruct (_ && _); [by intros [= <- <-]|]. intros H Hr. destruct (IH _ _ _ H Hr) as [[? _]|(j & ej & Hj & Hm)]; [done|].
    right. exists j, ej. split; [lia|done].
  - intros [= <- <-] _. right. exists k, e. split; [lia|]. by apply (doMigrate_spec _ _ _ _ _ _ Hd).
Qed.

Lemma migrateKey_spec attempt maxRetries replace key e e' :
  0 < maxRetries → migrateKey serialize attempt maxRetries replace key e = Some (inr tt, e') →
  moved_within replace attempt (Z.to_nat maxRetries) key.
Proof using Type.
  intros Hm H. destruct (migrate_attempts_spec _ _ _ _ _ _ _ _ _ H eq_refl) as [[_ ?]|(j & ej & Hj & Hmv)]; [lia|].
  exists j, ej. split; [lia|done].
Qed.

(** The loop: every key is counted once, and the counted ones have moved. *)
Lemma migrate_keys_spec attempt stopped maxRetries replace i keys p e err p' e' :
  migrate_keys serialize attempt stopped maxRetries replace i keys p e = Some ((err, p'), e') →
  mp_TotalKeys p' = mp_TotalKeys p ∧
  mp_MigratedKeys p ≤ mp_MigratedKeys p' ∧ mp_FailedKeys p ≤ mp_FailedKeys p' ∧
  mp_MigratedKeys p' + mp_FailedKeys p' ≤ mp_MigratedKeys p + mp_FailedKeys p + Z.of_nat (length keys) ∧
  match err with
  | Some _ => mp_Status p' = MigrationStatusFailed
  | None =>
      mp_MigratedKeys p' + mp_FailedKeys p' = mp_MigratedKeys p + mp_FailedKeys p + Z.of_nat (length keys) ∧
      (0 < maxRetries → mp_FailedKeys p' = mp_FailedKeys p →
       ∀ j key, keys !! j = Some key → moved_within replace (attempt (i + j)%nat) (Z.to_nat maxRetries) key)
  end.
Proof using Type.
  revert i p e. induction keys as [|key keys IH]; intros i p e; simpl.
  { intros [= <- <- <-]. split_and!; try lia. done. }
  destruct (at_stop _); [intros [= <- <- <-]; simpl; split_and!; lia || done|].
  destruct (stopped i); [intros [= <- <- <-]; simpl; split_and!; lia || done|].
  destruct (migrateKey _ _ _ _ _ _) as [[[er|[]] e1]|] eqn:Hk; [..|done]; intros H;
    destruct (IH _ _ _ H) as (H1 & H2 & H3 & H4 & H5); simpl in *; destruct err as [err|];
    (split_and!; [done|lia|lia|lia|done]) || (destruct H5 as [H5 H6]; split_and!; try lia || done).
  intros Hm Hf j k Hj. destruct j as [|j]; simpl in Hj.
  - injection Hj as ->. rewrite Nat.add_0_r. by eapply migrateKey_spec.
  - rewrite <-Nat.add_succ_comm. by apply H6.
Qed.

(** The progress of a migration counts every key of the slot once. The migration
    returns without error exactly when its status is Completed; then no key
    failed, all keys it listed are counted as migrated, and each has moved in
    one of the attempts allowed. A migration that was stopped, cancelled or had
    failures has the status Failed. The progress of other slots is unchanged. *)
Theorem migration_progress attempt stopped env w slot addr replace e r w' e' :
  Worker_MigrateSlot serialize attempt stopped env w slot addr replace e = Some (r, w', e') →
  ∃ keys e1 p, pe_KeysInSlot env slot 0 e = Some (keys, e1) ∧ GetProgress w' slot = Some p ∧
    mp_TotalKeys p = Z.of_nat (length keys) ∧ 0 ≤ mp_MigratedKeys p ∧ 0 ≤ mp_FailedKeys p ∧
    mp_MigratedKeys p + mp_FailedKeys p ≤ mp_TotalKeys p ∧
    (r = inr tt ↔ mp_Status p = MigrationStatusCompleted) ∧ (r ≠ inr tt → mp_Status p = MigrationStatusFailed) ∧
    (r = inr tt → mp_FailedKeys p = 0 ∧ mp_MigratedKeys p = mp_TotalKeys p ∧
       (0 < mw_maxRetries w →
        ∀ j key, keys !! j = Some key → moved_within replace (attempt j) (Z.to_nat (mw_maxRetries w)) key)) ∧
    ∀ slot', slot' ≠ slot → GetProgress w' slot' = GetProgress w slot'.
Proof using Type.
  unfold Worker_MigrateSlot. destruct (pe_KeysInSlot env slot 0 e) as [[keys e1]|] eqn:Hk; [|done]. cbv zeta.
  destruct (migrate_keys _ _ _ _ _ _ _ _ _) as [[[err p] e2]|] eqn:Hm; [|done].
  apply migrate_keys_spec in Hm as (H1 & H2 & H3 & H4 & H5). simpl in *.
  assert (∀ q slot', slot' ≠ slot → GetProgress (put_progress w slot q) slot' = GetProgress w slot') as Hother.
  { intros q slot' Hne. unfold GetProgress. simpl. by rewrite lookup_insert_ne. }
  assert (∀ q, GetProgress (put_progress w slot q) slot = Some q) as Hthis.
  { intros q. unfold GetProgress. simpl. by rewrite lookup_insert_eq. }
  destruct err as [err|]; intros [= <- <- <-]; eexists keys, e1, _; (split; [done|]); (split; [apply Hthis|]).
  - rewrite H5. split_and!; try (lia || done || by apply Hother).
  - destruct H5 as [H5 H6]. simpl. destruct (Z.eqb_spec (mp_FailedKeys p) 0) as [Hf|Hf].
    + rewrite Hf. simpl. split_and!; try (lia || done || by apply Hother). intros _. split_and!; [done|lia|]. intros Hr. by apply H6.
    + rewrite (proj2 (Z.ltb_lt _ _)) by lia. split_and!; try (lia || done || by apply Hother).
Qed.

(** With [SetMaxRetries(0)] the worker tries nothing and reports success: every key
    of the slot counts as migrated, the status is Completed, and the engine is
    the one that only listed the keys. *)
Theorem zero_retries_migrates_nothing attempt env w slot addr replace e keys e1 :
  pe_KeysInSlot env slot 0 e = Some (keys, e1) → (∀ i, at_stop (attempt i 0%nat) = None) →
  Worker_MigrateSlot serialize attempt (λ _, false) env (SetMaxRetries w 0) slot addr replace e =
    Some (inr tt, put_progress (SetMaxRetries w 0) slot
      (mkProgress slot addr (Z.of_nat (length keys)) (Z.of_nat (length keys)) 0 MigrationStatusCompleted ""), e1).
Proof using Type.
  intros Hk Hs. unfold Worker_MigrateSlot. rewrite Hk. cbv zeta. simpl.
  assert (∀ keys i total n, migrate_keys serialize attempt (λ _, false) 0 replace i keys
     (mkProgress slot addr total n 0 MigrationStatusRunning "") e1 =
     Some ((None, mkProgress slot addr total (n + Z.of_nat (length keys)) 0 MigrationStatusRunning ""), e1)) as Hl.
  { clear Hk. induction keys0 as [|key ks IH]; intros i total n; simpl; [by rewrite Z.add_0_r|].
    rewrite Hs. unfold migrateKey. simpl. unfold count_migrated. simpl. rewrite IH. do 4 f_equal. lia. }
  unfold set_Total. simpl. by rewrite Hl.
Qed.
End keys.

(** ** On a concrete node *)

Section witnesses.
#[local] Instance ranges {K A} `{Countable K} : GoRange K A := listed_range.
#[local] Instance engine : ProtocolEngine Store := MemoryStoreAdapter (λ _ _, true) (λ _, None) (λ _, "").

Definition plain_serialize : EngineEntry → GoError + list byte := SerializeEntryValue (λ _, []) (λ _, "").

(** A store with one key, in slot 7. *)
Definition slot7_store : Store :=
  match Store_SetSlotFunc KeySlot empty_store with
  | Some (_, s) => match Store_Set at_5 "k68586" "v" 0 s with Some (_, s) => s | None => empty_store end
  | None => empty_store
  end.

Definition ready_target : migrate_target := mkTarget None None None (inr ok_text) None (λ _, inr ok_text).
Definition ready : Attempt := mkAttempt at_5 ready_target None.
Definition all_ready : nat → (nat → Attempt) * Env * Env := λ _, (λ _, ready, at_5, at_5).

(** The key is read, restored on the target and deleted. *)
Lemma deleted_keys_have_arrived_witness :
  ∃ e', drainKey plain_serialize ready "k68586" slot7_store = Some (inr tt, e') ∧
    moved plain_serialize true ready "k68586" slot7_store.
Proof.
  assert (fst <$> drainKey plain_serialize ready "k68586" slot7_store = Some (inr tt)) as Hr by (vm_compute; reflexivity).
  destruct (drainKey plain_serialize ready "k68586" slot7_store) as [[r e']|] eqn:H; [|discriminate Hr]. injection Hr as ->.
  exists e'. split; [reflexivity|].
  exact (proj2 (proj1 (deleted_keys_have_arrived plain_serialize ready "" true "k68586" slot7_store (inr tt) e') H) eq_refl).
Defined.

(** Node a hands slot 7 over to b, with the key that its store had. *)
Lemma drained_slots_take_their_keys_witness :
  fst <$> pe_KeysInSlot at_5 7 0 slot7_store = Some ["k68586"] ∧
  match DrainSlots_keys plain_serialize all_ready (demo_cluster "a" demo3) slot7_store with
  | Some (c', _) => GetSlotNode (c_slots c') 7 = "b" ∧ ∃ e', slot_moved plain_serialize (λ _, ready) at_5 at_5 7 slot7_store e'
  | None => False
  end.
Proof.
  split; [vm_compute; reflexivity|].
  assert (match DrainSlots_keys plain_serialize all_ready (demo_cluster "a" demo3) slot7_store with
          | Some (c', _) => Some (GetSlotNode (c_slots c') 7) | None => None end = Some "b") as Hb by (vm_compute; reflexivity).
  destruct (DrainSlots_keys plain_serialize all_ready (demo_cluster "a" demo3) slot7_store) as [[c' e']|] eqn:H; [|discriminate Hb].
  injection Hb as Hb. split; [exact Hb|].
  destruct (drained_slots_take_their_keys plain_serialize all_ready (demo_cluster "a" demo3) slot7_store c' e') as [_ (es & Hh & _ & Hk)].
  - exact demo3_wf.
  - done.
  - by vm_compute.
  - exact H.
  - destruct (Hk 0%nat 7) as (e0 & e1 & target & H0 & _ & _ & Hm); [vm_compute; reflexivity|]. cbn [all_ready] in Hm. rewrite Hb in Hm.
    rewrite decide_False in Hm by (vm_compute; discriminate). exists e1. rewrite <-head_lookup, Hh in H0. injection H0 as ->. apply Hm.
Defined.

Lemma migration_progress_witness :
  match Worker_MigrateSlot plain_serialize (λ _ _, ready) (λ _, false) at_5 NewMigrateWorker 7 "10.0.0.1:2" true slot7_store with
  | Some (r, w', _) => r = inr tt ∧ ∃ p, GetProgress w' 7 = Some p ∧ mp_Status p = MigrationStatusCompleted
  | None => False
  end.
Proof.
  assert (match Worker_MigrateSlot plain_serialize (λ _ _, ready) (λ _, false) at_5 NewMigrateWorker 7 "10.0.0.1:2" true slot7_store with
          | Some (r, _, _) => Some r | None => None end = Some (inr tt)) as Hr by (vm_compute; reflexivity).
  destruct (Worker_MigrateSlot _ _ _ _ _ _ _ _ _) as [[[r w'] e']|] eqn:H; [|discriminate Hr]. injection Hr as ->.
  split; [reflexivity|].
  destruct (migration_progress plain_serialize (λ _ _, ready) (λ _, false) at_5 NewMigrateWorker 7 "10.0.0.1:2" true slot7_store
    (inr tt) w' e' H) as (keys & e1 & p & _ & Hp & _ & _ & _ & _ & Hst & _). exists p. split; [exact Hp|]. by apply Hst.
Defined.

Lemma zero_retries_migrates_nothing_witness :
  match Worker_MigrateSlot plain_serialize (λ _ _, ready) (λ _, false) at_5 (SetMaxRetries NewMigrateWorker 0) 7 "10.0.0.1:2" true
          slot7_store with
  | Some (r, w', _) => r = inr tt ∧ mp_MigratedKeys <$> GetProgress w' 7 = Some 1
  | None => False
  end.
Proof.
  assert (fst <$> pe_KeysInSlot at_5 7 0 slot7_store = Some ["k68586"]) as Hk1 by (vm_compute; reflexivity).
  destruct (pe_KeysInSlot at_5 7 0 slot7_store) as [[keys e1]|] eqn:Hk; [|discriminate Hk1]. injection Hk1 as ->.
  rewrite (zero_retries_migrates_nothing plain_serialize (λ _ _, ready) at_5 NewMigrateWorker 7 "10.0.0.1:2" true slot7_store
    ["k68586"] e1 Hk (λ _, eq_refl)). split; reflexivity.
Defined.
End witnesses.
