(* ===== verification/ReconcilerSpec.v ===== *)
(** * What a reconciliation does to the cluster

    Theorems about Reconciler.v. The ADDSLOTS commands of an initialization give
    every slot to one pod, the one that a rebalance would choose, and the pod
    takes it from whatever node owned it. The StatefulSet is shrunk before a pod
    is drained, the pods refuse the FORGET command that ends the drain, and a
    scaling that failed is not resumed. *)

From S2P Require Import Prelude Hash Strconv Wire Slots SlotsSpec Gossip Replication Cluster ClusterSpec Codec Store StringSpec ObjectSpec Engine Handler ClusterCmd ClusterCmdSpec Operator OperatorSpec KubeObjects Reconciler ServerSpec.
From stdpp Require Import options.

(** ** The batches of an initialization *)

Lemma elem_of_concat {A} (x : A) ls : x ∈ concat ls ↔ ∃ l, x ∈ l ∧ l ∈ ls.
Proof. setoid_rewrite list_elem_of_In. rewrite in_concat. naive_solver. Qed.

Lemma concat_fmap {A B} (f : A → B) (ls : list (list A)) : f <$> concat ls = concat (fmap (M:=list) f <$> ls).
Proof. apply concat_map. Qed.

Lemma slot_batches_spec fuel start last :
  last - start ≤ Z.of_nat fuel →
  concat (slot_batches fuel start last) = seqZ start (last - start) ∧
  Forall (λ b, (0 < length b ≤ 256)%nat) (slot_batches fuel start last).
Proof.
  revert start. induction fuel as [|f IH]; intros start Hf; cbn [slot_batches].
  { split; [|done]. by rewrite seqZ_nil by lia. }
  destruct (Z.ltb_spec start last) as [H|H]; [|split; [|done]; by rewrite seqZ_nil by lia].
  destruct (IH (start + 256)) as [IH1 IH2]; [lia|]. cbn [concat]. rewrite IH1. split.
  - destruct (decide (last ≤ start + 256)).
    + rewrite (seqZ_nil (start + 256)), app_nil_r by lia. f_equal. lia.
    + replace (Z.min (start + 256) last - start) with 256 by lia. rewrite <- seqZ_app by lia. f_equal. lia.
  - constructor; [|done]. rewrite length_seqZ. lia.
Qed.

(** The slots of each command. *)
Definition addslots_plan (n k : Z) (addrs : list string) : list (string * list Z) :=
  concat (imap (λ i addr, (addr,.) <$> pod_batches n (k + Z.of_nat i)) addrs).

Lemma addslots_plan_commands addrs :
  addslots_commands addrs = (λ p, addslots p.1 p.2) <$> addslots_plan (Z.of_nat (length addrs)) 0 addrs.
Proof.
  unfold addslots_commands, addslots_plan. rewrite concat_fmap, fmap_imap. f_equal. apply imap_ext. intros i addr _. simpl.
  by rewrite <- list_fmap_compose.
Qed.

Lemma addslots_plan_cons n k addr addrs :
  addslots_plan n k (addr :: addrs) = ((addr,.) <$> pod_batches n k) ++ addslots_plan n (k + 1) addrs.
Proof.
  unfold addslots_plan. rewrite imap_cons. cbn [concat]. rewrite Z.add_0_r. do 2 f_equal. apply imap_ext. intros i a _. cbn [compose].
  by replace (k + Z.of_nat (S i)) with (k + 1 + Z.of_nat i) by lia.
Qed.

Section plan.
Context (n : Z) (Hn : 0 < n).

Let q := totalSlots / n.
Let r := totalSlots mod n.

Lemma pod_batches_spec k :
  0 ≤ k →
  concat (pod_batches n k) = seqZ (lower q r k) (lower q r (k + 1) - lower q r k) ∧
  Forall (λ b, (0 < length b ≤ 256)%nat) (pod_batches n k).
Proof using Hn.
  intros Hk. assert (0 ≤ q) by (by apply Z.div_pos). assert (0 ≤ r < n) by (by apply Z.mod_pos_bound).
  unfold pod_batches, initial_range. fold q r. pose proof (lower_mono q r ltac:(lia) ltac:(lia) k (k + 1) ltac:(lia)).
  apply slot_batches_spec. unfold lower in *. lia.
Qed.

Lemma addslots_plan_slots k addrs :
  0 ≤ k →
  concat (snd <$> addslots_plan n k addrs) = seqZ (lower q r k) (lower q r (k + Z.of_nat (length addrs)) - lower q r k).
Proof using Hn.
  assert (0 ≤ q) by (by apply Z.div_pos). assert (0 ≤ r < n) by (by apply Z.mod_pos_bound).
  revert k. induction addrs as [|addr addrs IH]; intros k Hk.
  { unfold addslots_plan. simpl. rewrite seqZ_nil; [done|]. rewrite Z.add_0_r. lia. }
  rewrite addslots_plan_cons, fmap_app, concat_app, IH by lia. rewrite <- list_fmap_compose.
  change (snd ∘ pair addr) with (λ x : list Z, x). rewrite list_fmap_id. rewrite (proj1 (pod_batches_spec k Hk)).
  pose proof (lower_mono q r ltac:(lia) ltac:(lia) k (k + 1) ltac:(lia)).
  pose proof (lower_mono q r ltac:(lia) ltac:(lia) (k + 1) (k + Z.of_nat (length (addr :: addrs))) ltac:(simpl; lia)).
  replace (k + 1 + Z.of_nat (length addrs)) with (k + Z.of_nat (length (addr :: addrs))) by (simpl; lia).
  replace (lower q r (k + 1)) with (lower q r k + (lower q r (k + 1) - lower q r k)) at 2 by lia. rewrite <- seqZ_app by lia. f_equal. lia.
Qed.
End plan.

(** C20: An initialization gives every slot away once. The ADDSLOTS commands for a
    list of pods name the slots 0 to 16383 in order, at least one and at most 256
    in a command, and each slot goes to the pod that a rebalance over the same
    pods would make its owner. *)
Theorem init_assigns_every_slot_once addrs :
  addrs ≠ [] →
  ∃ plan : list (string * list Z),
    addslots_commands addrs = (λ p, addslots p.1 p.2) <$> plan ∧
    concat (snd <$> plan) = seqZ 0 totalSlots ∧
    ∀ addr slots, (addr, slots) ∈ plan →
      (0 < length slots ≤ 256)%nat ∧ ∀ slot, slot ∈ slots → buildTargetOwnerBySlot totalSlots addrs !! slot = Some addr.
Proof.
  intros Ha. set (n := Z.of_nat (length addrs)). assert (0 < n) as Hn by (unfold n; destruct addrs; [done|simpl; lia]).
  assert (0 ≤ totalSlots mod n < n) by (by apply Z.mod_pos_bound).
  exists (addslots_plan n 0 addrs). split_and!.
  - apply addslots_plan_commands.
  - rewrite addslots_plan_slots by lia. pose proof (Z_div_mod_eq_full totalSlots n). unfold lower. rewrite Z.add_0_l. fold n. f_equal; lia.
  - intros addr slots Hin. apply elem_of_concat in Hin as (l & Hin & Hl).
    apply elem_of_lookup_imap in Hl as (i & addr' & -> & Hi). apply list_elem_of_fmap in Hin as (b & [= -> ->] & Hb).
    rewrite Z.add_0_l in Hb. destruct (pod_batches_spec n Hn (Z.of_nat i)) as [Hc Hall]; [lia|].
    split; [by apply (proj1 (Forall_forall _ _) Hall)|]. intros slot Hs.
    apply (proj1 (target_is_initial_partition totalSlots addrs ltac:(done) Ha) i); [done|].
    assert (slot ∈ concat (pod_batches n (Z.of_nat i))) as Hin by (apply elem_of_concat; eauto).
    rewrite Hc in Hin. apply elem_of_seqZ in Hin. unfold initial_range. fold n. unfold lower in Hin. cbn [fst snd]. lia.
Qed.

(** ** The node's side of the commands *)

Lemma parse_slot_itoa slot : valid_slot slot → parse_slot (StringToBytes (itoa slot)) = Some slot.
Proof.
  unfold valid_slot, SlotCount. intros Hv. unfold itoa. rewrite StringToBytes_BytesToString.
  unfold strconv_FormatInt. rewrite (proj2 (Z.ltb_ge _ _)) by lia.
  destruct (decimal_first 19 slot) as (d & l & Hd & E); [simpl; lia|].
  pose proof (parse_decimal 20 slot ltac:(simpl; lia)) as Hp. unfold parse_slot, strconv_ParseUint. rewrite E in *. rewrite Hp.
  cbn [mbind option_bind]. rewrite (proj2 (Z.ltb_lt slot _)) by (simpl; lia). cbn [mbind option_bind].
  by rewrite (proj2 (Z.ltb_lt slot _)) by (unfold SlotCount; lia).
Qed.

(** A slot given to the node by [Cluster_AssignSlots]. *)
Definition taken (self : string) (old new : SlotInfo) : Prop :=
  new = mkSlot SlotStateNormal self self [] (si_ConfigEpoch old) (si_NextLSN old) (si_Importing old) (si_Exporting old).

Lemma Cluster_AssignSlots_spec c slots :
  index_ok (c_slots c) → Forall valid_slot slots →
  ∃ sm, Cluster_AssignSlots c slots = Some (inr tt, put_slots c sm) ∧ index_ok sm ∧
    ∀ slot old, valid_slot slot → slot_at (c_slots c) slot = Some old →
      ∃ new, slot_at sm slot = Some new ∧ (slot ∈ slots → taken (nd_ID (c_self c)) old new) ∧ (slot ∉ slots → new = old).
Proof.
  revert c. induction slots as [|s slots IH]; intros c Hi Hf; cbn [Cluster_AssignSlots].
  { exists (c_slots c). split; [by destruct c|]. split; [done|]. intros slot old _ Ho. exists old. set_solver. }
  apply Forall_cons in Hf as [Hs Hf].
  destruct (AssignSlot_spec (c_slots c) s (nd_ID (c_self c)) Hi Hs) as (info & sm1 & Hat & -> & Hi1 & Hsl).
  cbn [mbind option_bind]. destruct (IH (put_slots c sm1) Hi1 Hf) as (sm & -> & Hi2 & Hall).
  exists sm. split; [done|]. split; [done|]. intros slot old Hv Ho.
  assert (slot_at sm1 slot = slot_at (put_slot (c_slots c) s (mkSlot SlotStateNormal (nd_ID (c_self c)) (nd_ID (c_self c)) []
    (si_ConfigEpoch info) (si_NextLSN info) (si_Importing info) (si_Exporting info))) slot) as Hat1 by (unfold slot_at; by rewrite Hsl).
  rewrite slot_at_put in Hat1 by (done || apply Hv). case_decide as Hd.
  - subst slot. simplify_eq. destruct (Hall s _ Hv Hat1) as (new & Hn & Hin & Hout). exists new. split; [done|]. split; [|set_solver].
    intros _. destruct (decide (s ∈ slots)) as [H|H]; [by apply Hin in H|by rewrite (Hout H)].
  - rewrite Ho in Hat1. destruct (Hall slot old Hv Hat1) as (new & Hn & Hin & Hout). exists new. set_solver.
Qed.

(** C21: A node obeys the ADDSLOTS commands of an initialization whoever owns the
    slots: it answers OK and is then the owner and the primary of every slot of
    the command in its own table, at the slot's old epoch and without replicas;
    its other slots are as they were. So an initialization that is repeated when
    the cluster is not healthy takes back the slots that were migrated since,
    and their keys stay where they are. *)
Theorem addslots_takes_owned_slots {E} `{!ProtocolEngine E} `{!GoRange string GossipNode} `{!GoRange string string}
    env meet c (h : Handler E) cn addr slots :
  index_ok (c_slots c) → slots ≠ [] → Forall valid_slot slots →
  ∃ sm, HandleCluster env meet c (StringToBytes <$> tail (addslots addr slots).2) h cn =
      Some (tt, SetCluster h (put_slots c sm), mkConn (cn_out cn ++ [WString "OK"]) (cn_context cn) (cn_closed cn)) ∧
    ∀ slot old, valid_slot slot → slot_at (c_slots c) slot = Some old →
      ∃ new, slot_at sm slot = Some new ∧ (slot ∈ slots → taken (nd_ID (c_self c)) old new) ∧ (slot ∉ slots → new = old).
Proof.
  intros Hi Hne Hf. destruct (Cluster_AssignSlots_spec c slots Hi Hf) as (sm & Ha & _ & Hall). exists sm. split; [|done].
  assert (mapM parse_slot (StringToBytes <$> (itoa <$> slots)) = Some slots) as Hp.
  { apply mapM_Some. clear -Hf. induction Hf; constructor; [by apply parse_slot_itoa|done]. }
  assert (HandleCluster env meet c (StringToBytes <$> tail (addslots addr slots).2) =
          clusterAddSlots c (StringToBytes <$> (itoa <$> slots))) as -> by done.
  unfold clusterAddSlots. rewrite Hp, Ha. destruct slots as [|s slots]; [done|]. done.
Qed.

(** ** What a computation leaves alone *)

Section preserves.
Context {W : Type} (P : W → Prop).

Definition preserves {A} (m : RM W A) : Prop := ∀ w r w', P w → m w = Some (r, w') → P w'.

Lemma preserves_ret {A} (a : A) : preserves (rret a).
Proof. by intros w r w' Hw [= <- <-]. Qed.

Lemma preserves_fail {A} e : preserves (rfail (A:=A) e).
Proof. by intros w r w' Hw [= <- <-]. Qed.

Lemma preserves_none {A} : preserves (A:=A) (λ _, None).
Proof. by intros w r w' _ [=]. Qed.

Lemma preserves_bind {A B} (m : RM W A) (k : A → RM W B) : preserves m → (∀ a, preserves (k a)) → preserves (rbind m k).
Proof.
  intros Hm Hk w r w' Hw. unfold rbind. destruct (m w) as [[[e|a] w1]|] eqn:E; [|intros H; by eapply Hk; [eapply Hm|]|done].
  intros [= <- <-]. by eapply Hm.
Qed.

Lemma preserves_try {A} (m : RM W A) : preserves m → preserves (rtry m).
Proof. intros Hm w r w' Hw. unfold rtry. destruct (m w) as [[r1 w1]|] eqn:E; [|done]. intros [= <- <-]. by eapply Hm. Qed.

Lemma preserves_effect f : (∀ w, P w → P (f w).2) → preserves (effect f).
Proof. intros Hf w r w' Hw. unfold effect. specialize (Hf w Hw). destruct (f w). by intros [= <- <-]. Qed.

Lemma preserves_ask {A} (f : W → (string + A) * W) : (∀ w, P w → P (f w).2) → preserves (ask f).
Proof. intros Hf w r w' Hw. unfold ask. specialize (Hf w Hw). destruct (f w). by intros [= <- <-]. Qed.

Lemma preserves_get {A} (f : W → ApiResult A * W) : (∀ w, P w → P (f w).2) → preserves (get f).
Proof. intros Hf w r w' Hw. unfold get. specialize (Hf w Hw). destruct (f w). by intros [= <- <-]. Qed.

Lemma preserves_when_ok e : preserves (when_ok e).
Proof. destruct e; [apply preserves_fail|apply preserves_ret]. Qed.

Lemma preserves_reach {A} (f : A → RM W unit) l : (∀ a, preserves (f a)) → preserves (reach f l).
Proof. intros Hf. induction l; cbn [reach]; [apply preserves_ret|by apply preserves_bind]. Qed.

Lemma preserves_foldl {A B} (f : RM W A → B → RM W A) l m :
  preserves m → (∀ m b, preserves m → preserves (f m b)) → preserves (foldl f m l).
Proof. intros Hm Hf. revert m Hm. induction l as [|b l IH]; intros m Hm; simpl; [done|]. apply IH. by apply Hf. Qed.
End preserves.

Create HintDb preserves.
#[export] Hint Resolve preserves_ret preserves_fail preserves_none preserves_bind preserves_try preserves_effect preserves_ask
  preserves_get preserves_when_ok preserves_reach : preserves.

(** Through binds, matches and conditionals. *)
Ltac preserves_tac :=
  repeat (intros; cbv zeta;
    match goal with
    | |- preserves _ (rbind _ _) => apply preserves_bind
    | |- preserves _ (rtry _) => apply preserves_try
    | |- preserves _ (reach _ _) => apply preserves_reach
    | |- preserves _ (match ?x with _ => _ end) => destruct x
    | |- preserves _ _ => solve [auto with preserves]
    end).

(** ** Scaling *)

(** A property that the commands to the pods and the reads keep. *)
Class PodsKeep {W} `{!Pods W} `{!Kube W} (P : W → Prop) : Prop := {
  pk_send w addr args : P w → P (pod_send w addr args).2;
  pk_nodeID w addr : P w → P (pod_nodeID w addr).2;
  pk_keys w addr slot n : P w → P (pod_keys w addr slot n).2;
  pk_slots w addr : P w → P (k_slots w addr).2;
  pk_pods w labels : P w → P (k_Pods w labels).2;
  pk_pod w name : P w → P (k_Pod w name).2;
  pk_status w ac : P w → P (k_UpdateStatus w ac).2
}.

Ltac pods_keep := intros; first [apply pk_send | apply pk_nodeID | apply pk_keys | apply pk_slots | apply pk_pods | apply pk_pod | apply pk_status]; assumption.

#[export] Hint Extern 1 (preserves _ (effect _)) => apply preserves_effect; pods_keep : preserves.
#[export] Hint Extern 1 (preserves _ (ask _)) => apply preserves_ask; pods_keep : preserves.

Section scaling.
Context {W : Type} `{!Pods W} `{!Kube W} (P : W → Prop) `{!PodsKeep P}.
Context (split_host_port : string → string + string * Z).

Lemma rollback_keeps w source target slot : P w → P (rollbackSlotMove w source target slot).
Proof using Type*.
  intros Hw. unfold rollbackSlotMove. pose proof (pk_send w source (setslot slot ["STABLE"]) Hw).
  destruct (pod_send w _ _) as [e w1]. by apply pk_send.
Qed.

Lemma send_all_keeps keys w addr host port : P w → P (send_all w addr host port keys).2.
Proof using Type*.
  revert w. induction keys as [|k keys IH]; intros w Hw; cbn [send_all]; [done|].
  pose proof (pk_send w addr (migrate_command host port k) Hw). destruct (pod_send w _ _) as [[e|] w1]; [done|by apply IH].
Qed.

Lemma move_keys_keeps fuel w source host port slot r w' :
  P w → move_keys fuel w source host port slot = Some (r, w') → P w'.
Proof using Type*.
  revert w. induction fuel as [|f IH]; intros w Hw; cbn [move_keys]; [done|].
  pose proof (pk_keys w source slot 100 Hw) as H1. destruct (pod_keys w _ _ _) as [[e|[|k keys]] w1]; [by intros [= <- <-]|by intros [= <- <-]|].
  pose proof (send_all_keeps (k :: keys) w1 source host port H1) as H2. destruct (send_all _ _ _ _ _) as [[e|] w2]; [by intros [= <- <-]|].
  by apply IH.
Qed.

Lemma moveSlot_keeps fuel w source target slot r w' :
  P w → moveSlot split_host_port fuel w source target slot = Some (r, w') → P w'.
Proof using Type*.
  intros Hw. unfold moveSlot.
  pose proof (pk_nodeID w target Hw) as H1. destruct (pod_nodeID w target) as [[e|targetID] w1]; [by intros [= <- <-]|].
  pose proof (pk_nodeID w1 source H1) as H2. destruct (pod_nodeID w1 source) as [[e|sourceID] w2]; [by intros [= <- <-]|].
  pose proof (pk_send w2 target (setslot slot ["IMPORTING"; sourceID]) H2) as H3. destruct (pod_send w2 _ _) as [[e|] w3]; [by intros [= <- <-]|].
  pose proof (pk_send w3 source (setslot slot ["MIGRATING"; targetID]) H3) as H4.
  destruct (pod_send w3 _ _) as [[e|] w4]; [intros [= <- <-]; by apply rollback_keeps|].
  destruct (split_host_port target) as [e|[host port]]; [by intros [= <- <-]|].
  destruct (move_keys fuel w4 source host port slot) as [[e5 w5]|] eqn:E5; [|done].
  pose proof (move_keys_keeps _ _ _ _ _ _ _ _ H4 E5) as H5. destruct e5; [intros [= <- <-]; by apply rollback_keeps|].
  pose proof (pk_send w5 target (setslot slot ["NODE"; targetID]) H5) as H6.
  destruct (pod_send w5 _ _) as [[e|] w6]; [intros [= <- <-]; by apply rollback_keeps|].
  pose proof (pk_send w6 source (setslot slot ["NODE"; targetID]) H6) as H7.
  destruct (pod_send w6 _ _) as [[e|] w7]; intros [= <- <-]; [by apply rollback_keeps|done].
Qed.

Lemma updateMigrationStatus_preserves ac phase slot source target message :
  preserves P (updateMigrationStatus ac phase slot source target message).
Proof using Type*. unfold updateMigrationStatus, update_status. preserves_tac. Qed.

Lemma recording_preserves {A} ac source (m : RM W A) : preserves P m → preserves P (recording ac source m).
Proof using Type*. pose proof updateMigrationStatus_preserves. intros Hm. unfold recording. preserves_tac. Qed.

Lemma wait_ready_preserves fuel ac n : preserves P (wait_ready fuel ac n).
Proof using Type*. induction fuel; cbn [wait_ready]; unfold list_pods; preserves_tac. Qed.

Lemma listReadyPods_preserves ac : preserves P (listReadyPods ac).
Proof using Type*. unfold listReadyPods, list_pods. preserves_tac. Qed.

Lemma pod_views_preserves ac pods : preserves P (pod_views ac pods).
Proof using Type*. induction pods; cbn [pod_views]; preserves_tac. Qed.

Lemma run_moves_preserves fuel ac addrs message moves : preserves P (run_moves split_host_port fuel ac addrs message moves).
Proof using Type*.
  pose proof updateMigrationStatus_preserves. apply preserves_foldl; [apply preserves_ret|]. intros m mv Hm. preserves_tac.
  intros w r w' Hw. destruct (moveSlot _ _ _ _ _ _) as [[e w1]|] eqn:E; [|done]. apply moveSlot_keeps in E; [|done].
  destruct e; by intros [= <- <-].
Qed.

Lemma HandleScaleUp_preserves fuel ac new old : preserves P (HandleScaleUp split_host_port fuel ac new old).
Proof using Type*.
  pose proof wait_ready_preserves. pose proof listReadyPods_preserves. pose proof pod_views_preserves. pose proof run_moves_preserves.
  pose proof updateMigrationStatus_preserves. unfold HandleScaleUp. apply preserves_bind; [done|]. intros _. apply preserves_bind; intros.
  - apply recording_preserves. unfold addNodesToCluster, send. preserves_tac.
  - apply recording_preserves. unfold rebalanceSlots. preserves_tac.
Qed.

Lemma HandleScaleDown_preserves fuel ac new old : preserves P (HandleScaleDown split_host_port fuel ac new old).
Proof using Type*.
  pose proof listReadyPods_preserves. pose proof pod_views_preserves. pose proof run_moves_preserves.
  pose proof updateMigrationStatus_preserves. apply preserves_foldl; [apply preserves_ret|]. intros m i Hm.
  apply preserves_bind; [done|]. intros ac1. cbv zeta. apply preserves_bind; [|intros ac2; apply preserves_bind; [|preserves_tac]].
  - apply recording_preserves. unfold migrateDataFromNode. preserves_tac.
  - apply recording_preserves. unfold removeNodeFromCluster, send. preserves_tac.
Qed.
End scaling.

(** What the cluster stores of the StatefulSet [name], and the commands that the
    pods were sent, each with the size the StatefulSet had then. A read of the
    StatefulSet shows the last update that the API server took. *)
Class KubeWorld (W : Type) `{!Pods W} `{!Kube W} (name : string) := {
  world_sts : W → option StatefulSet;
  world_sent : W → list (option Z * string * list string);
  kw_send w addr args :
    world_sts (pod_send w addr args).2 = world_sts w ∧
    world_sent (pod_send w addr args).2 = world_sent w ++ [(ss_Replicas <$> world_sts w, addr, args)];
  kw_nodeID w addr : world_sts (pod_nodeID w addr).2 = world_sts w ∧ world_sent (pod_nodeID w addr).2 = world_sent w;
  kw_keys w addr slot n : world_sts (pod_keys w addr slot n).2 = world_sts w ∧ world_sent (pod_keys w addr slot n).2 = world_sent w;
  kw_slots w addr : world_sts (k_slots w addr).2 = world_sts w ∧ world_sent (k_slots w addr).2 = world_sent w;
  kw_pods w labels : world_sts (k_Pods w labels).2 = world_sts w ∧ world_sent (k_Pods w labels).2 = world_sent w;
  kw_pod w pod : world_sts (k_Pod w pod).2 = world_sts w ∧ world_sent (k_Pod w pod).2 = world_sent w;
  kw_status w ac : world_sts (k_UpdateStatus w ac).2 = world_sts w ∧ world_sent (k_UpdateStatus w ac).2 = world_sent w;
  kw_read w : world_sts (k_StatefulSet w name).2 = world_sts w ∧ world_sent (k_StatefulSet w name).2 = world_sent w;
  kw_found w :
    match (k_StatefulSet w name).1 with
    | ApiOk s => world_sts w = Some s ∧ ss_Name s = name
    | ApiNotFound => world_sts w = None
    | ApiErr _ => True
    end;
  kw_update w s : ss_Name s = name →
    world_sent (k_Update w (OStatefulSet s)).2 = world_sent w ∧
    world_sts (k_Update w (OStatefulSet s)).2 = match (k_Update w (OStatefulSet s)).1 with None => Some s | Some _ => world_sts w end
}.

Section resize.
Context {W : Type} `{!Pods W} `{!Kube W}.
Context (split_host_port : string → string + string * Z).
Context (name : string) `{KW : !KubeWorld W name}.

(** The StatefulSet has the size [n], and every command since [sent] was sent at
    that size. *)
Definition at_size (n : Z) (sent : list (option Z * string * list string)) (w : W) : Prop :=
  ss_Replicas <$> world_sts w = Some n ∧ ∃ cmds, world_sent w = sent ++ cmds ∧ Forall (λ c, c.1.1 = Some n) cmds.

#[local] Instance at_size_keep n sent : PodsKeep (at_size n sent).
Proof using Type*.
  split; intros; destruct_and?; repeat match goal with H : at_size _ _ _ |- _ => destruct H as [Hs (cmds & Hc & Hf)] end.
  1: { destruct (kw_send w addr args) as [E1 E2]. split; [by rewrite E1|]. exists (cmds ++ [(ss_Replicas <$> world_sts w, addr, args)]).
       rewrite E2, Hc, (assoc_L (++)). split; [done|]. apply Forall_app. split; [done|]. by repeat constructor. }
  1: destruct (kw_nodeID w addr) as [E1 E2].
  2: destruct (kw_keys w addr slot n0) as [E1 E2].
  3: destruct (kw_slots w addr) as [E1 E2].
  4: destruct (kw_pods w labels) as [E1 E2].
  5: destruct (kw_pod w name0) as [E1 E2].
  6: destruct (kw_status w ac) as [E1 E2].
  all: split; [by rewrite E1|exists cmds; by rewrite E2].
Qed.

Notation reconcile := (reconcileStatefulSet split_host_port).

(** An update of the StatefulSet, and then a computation that keeps its size. *)
Lemma resize_then {A} s n (k : unit → RM W A) w r w' :
  ss_Name s = name → ss_Replicas s = n → preserves (at_size n (world_sent w)) (k tt) →
  rbind (effect (λ w, k_Update w (OStatefulSet s))) k w = Some (r, w') →
  world_sts w' = world_sts w ∧ world_sent w' = world_sent w ∨ at_size n (world_sent w) w'.
Proof using Type*.
  intros Hs Hn Hk. unfold rbind, effect. destruct (kw_update w s Hs) as [Hu1 Hu2]. destruct (k_Update w _) as [[e|] w1]; cbn in *.
  - intros [= <- <-]. by left.
  - intros H. right. eapply (Hk w1); [|done]. split; [by rewrite Hu2; simpl; f_equal|]. exists []. by rewrite app_nil_r.
Qed.

(** The StatefulSet is read first. *)
Lemma reconcile_reads fuel ac w r w' old :
  ac_Name ac = name → world_sts w = Some old → reconcile fuel ac w = Some (r, w') →
  (world_sts w' = world_sts w ∧ world_sent w' = world_sent w) ∨
  ∃ w1, world_sts w1 = world_sts w ∧ world_sent w1 = world_sent w ∧ ss_Name old = name ∧
    Some (r, w') =
      (let newReplicas := sp_Replicas (ac_Spec ac) in
       if negb (ss_Replicas old =? newReplicas) then
         let ac := with_phase PhaseScaling ac in
         rbind (effect (λ w, k_Update w (OStatefulSet (sts_with old newReplicas (ss_Template old) (ss_Claims old))))) (λ _,
         rbind (if ss_Replicas old <? newReplicas then HandleScaleUp split_host_port fuel ac newReplicas (ss_Replicas old)
                else HandleScaleDown split_host_port fuel ac newReplicas (ss_Replicas old)) (λ ac,
         rbind (update_status ac) (λ _, rret ac))) w1
       else match sts_update ac old with
       | Some new =>
           let ac := with_phase PhaseUpdating ac in
           rbind (effect (λ w, k_Update w (OStatefulSet new))) (λ _, rbind (update_status ac) (λ _, rret ac)) w1
       | None => Some (inr ac, w1)
       end).
Proof using Type*.
  intros Hac Hold. unfold reconcileStatefulSet. cbv zeta.
  destruct (k_SetOwner _ _); [by intros [= <- <-]; left|]. unfold when_ok, rbind at 1, rret at 1, rbind at 1.
  unfold get. change (ss_Name (buildStatefulSet ac)) with (ac_Name ac). rewrite Hac.
  destruct (kw_read w) as [H1 H2]. pose proof (kw_found w) as H3. destruct (k_StatefulSet w name) as [[s| |e] w1]; cbn [fst snd] in *.
  - destruct H3 as [H3 H4]. rewrite Hold in H3. injection H3 as <-. intros <-. right. exists w1. split_and!; [done..|].
    destruct (negb _); [done|]. by destruct (sts_update _ _).
  - congruence.
  - intros [= <- <-]. by left.
Qed.

Lemma sts_update_size ac old new :
  sts_update ac old = Some new → ss_Name new = ss_Name old ∧ ss_Replicas new = ss_Replicas old.
Proof using Type*. unfold sts_update. destruct (_ || _); [|done]. by intros [= <-]. Qed.

(** A template that the API server has completed never equals the one that the
    operator builds: every reconciliation updates the StatefulSet. *)
Lemma completed_template_updated ac old : pt_Defaults (ss_Template old) ≠ "" → is_Some (sts_update ac old).
Proof using Type.
  intros Hd. unfold sts_update. destruct (match pt_Containers _ with c :: _ => _ | [] => _ end); cbn [orb]; [by eexists|].
  rewrite (bool_decide_eq_false_2 (ss_Template old = _)); [by eexists|]. intros E. by rewrite E in Hd.
Qed.

(** Nothing is sent at the size that the resource asks for. *)
Lemma reconcile_silent fuel ac w r w' old :
  ac_Name ac = name → world_sts w = Some old → ss_Replicas old = sp_Replicas (ac_Spec ac) → reconcile fuel ac w = Some (r, w') →
  world_sent w' = world_sent w.
Proof using Type*.
  intros Hac Hold Hs Hrun. destruct (reconcile_reads _ _ _ _ _ _ Hac Hold Hrun) as [[_ H]|(w1 & H1 & H2 & Hn & E)]; [done|].
  rewrite <- H2. clear Hrun. cbv zeta in E. rewrite (proj2 (Z.eqb_eq _ _) Hs) in E. cbn [negb] in E.
  destruct (sts_update _ _) as [new|] eqn:Eu; [|by injection E as -> ->].
  destruct (sts_update_size _ _ _ Eu) as [Hm _]. destruct (kw_update w1 new ltac:(by rewrite Hm)) as [Hk _].
  unfold rbind, effect, update_status, rret, effect in E. destruct (k_Update w1 _) as [[e|] w2]; cbn [snd] in Hk; [by injection E as -> ->|].
  destruct (kw_status w2 (with_phase PhaseUpdating ac)) as [_ Hw]. destruct (k_UpdateStatus w2 _) as [[e|] w3]; injection E as -> ->; cbn [snd] in Hw; by rewrite Hw, Hk.
Qed.

(** C19: The StatefulSet is resized before the pods are told, and they are told once.
    Every command that a reconciliation of the StatefulSet sends to a pod is sent
    when the StatefulSet already has the new size, so the pods that a scale down
    removes are drained after Kubernetes was asked to stop them. Unless nothing
    happened, a later reconciliation for the same size sends nothing, even when
    this one ended in an error half way through the moves. *)
Theorem scaling_runs_once_after_resize fuel ac w r w' old :
  ac_Name ac = name → world_sts w = Some old → reconcile fuel ac w = Some (r, w') →
  world_sts w' = Some old ∧ world_sent w' = world_sent w ∨
  at_size (sp_Replicas (ac_Spec ac)) (world_sent w) w' ∧
  ∀ fuel' ac' r' w'', ac_Name ac' = name → sp_Replicas (ac_Spec ac') = sp_Replicas (ac_Spec ac) →
    reconcile fuel' ac' w' = Some (r', w'') → world_sent w'' = world_sent w'.
Proof using Type*.
  intros Hac Hold Hrun.
  assert (world_sts w' = Some old ∧ world_sent w' = world_sent w ∨ at_size (sp_Replicas (ac_Spec ac)) (world_sent w) w') as [H|H].
  - destruct (reconcile_reads _ _ _ _ _ _ Hac Hold Hrun) as [[H1 H2]|(w1 & H1 & H2 & Hn & E)]; [left; by rewrite H1|].
    rewrite <- Hold, <- H1, <- H2. cbv zeta in E. symmetry in E. destruct (Z.eqb_spec (ss_Replicas old) (sp_Replicas (ac_Spec ac))) as [He|He].
    + destruct (sts_update _ _) as [new|] eqn:Eu; [|injection E as <- <-; by left].
      destruct (sts_update_size _ _ _ Eu) as [Hm Hr].
      apply (resize_then new (sp_Replicas (ac_Spec ac))) in E; [done|congruence..|]. unfold update_status. preserves_tac.
    + apply (resize_then _ (sp_Replicas (ac_Spec ac))) in E; [done..|].
      unfold update_status. preserves_tac; [apply HandleScaleUp_preserves|apply HandleScaleDown_preserves]; apply _.
  - by left.
  - right. split; [done|]. intros fuel' ac' r' w'' Hac' Hsame Hrun'. destruct H as [Hs _].
    destruct (world_sts w') as [new|] eqn:Ew; [|done]. injection Hs as Hs. eapply reconcile_silent; [done..|congruence|done].
Qed.
End resize.

(** ** FORGET *)

(** The nodes have no FORGET command. *)
Lemma forget_unknown {E} `{!ProtocolEngine E} `{!GoRange string GossipNode} `{!GoRange string string} env meet c (h : Handler E) cn id :
  HandleCluster env meet c (StringToBytes <$> ["FORGET"; id]) h cn =
  Some (tt, h, mkConn (cn_out cn ++ [WError "ERR unknown subcommand 'FORGET'"]) (cn_context cn) (cn_closed cn)).
Proof. reflexivity. Qed.

Section forget.
Context {W : Type} `{!Pods W} `{!Kube W} (split_host_port : string → string + string * Z).

(** A computation that does not succeed. *)
Definition fails {A} (m : RM W A) : Prop := ∀ w r w', m w = Some (r, w') → ∃ e, r = inl e.

Lemma fails_bind {A B} (m : RM W A) (k : A → RM W B) : fails m → fails (rbind m k).
Proof using Type.
  intros Hm w r w'. unfold rbind. destruct (m w) as [[[e|a] w1]|] eqn:E; [intros [= <- <-]; eauto| |done].
  apply Hm in E as [e [=]].
Qed.

Lemma fails_then {A B} (m : RM W A) (k : A → RM W B) : (∀ a, fails (k a)) → fails (rbind m k).
Proof using Type.
  intros Hk w r w'. unfold rbind. destruct (m w) as [[[e|a] w1]|] eqn:E; [intros [= <- <-]; eauto|apply Hk|done].
Qed.

Lemma fails_ret {A B} (a : A) (k : A → RM W B) : fails (k a) → fails (rbind (rret a) k).
Proof using Type. done. Qed.

Lemma fails_recording {A} ac source (m : RM W A) : fails m → fails (recording ac source m).
Proof using Type.
  intros Hm w r w'. unfold recording, rbind, rtry. destruct (m w) as [[r1 w1]|] eqn:E; [|done]. apply Hm in E as [e ->].
  destruct (updateMigrationStatus _ _ _ _ _ _ w1) as [[]|]; [|done]. intros [= <- <-]. eauto.
Qed.

Lemma fails_foldl {A B} (f : A → B → RM W A) l m : fails m → fails (foldl (λ m b, rbind m (λ a, f a b)) m l).
Proof using Type. revert m. induction l as [|b l IH]; intros m Hm; simpl; [done|]. by apply IH, fails_bind. Qed.

Context (pods : list Pod) (Hpods : ∀ w labels, (k_Pods w labels).1 = inr pods).
Context (Hforget : ∀ w addr id, (pod_send w addr ["CLUSTER"; "FORGET"; id]).1 ≠ None).

Definition serving (p : Pod) : Prop := p ∈ pods ∧ isPodReady p = true ∧ po_IP p ≠ "".

Lemma listReadyPods_serving ac w r w' :
  listReadyPods ac w = Some (r, w') → ∃ l, r = inr l ∧ ∀ p, p ∈ l ↔ serving p.
Proof using Hpods.
  unfold listReadyPods, rbind, list_pods, ask, rret. pose proof (Hpods w (GetSelectorLabels ac)) as H.
  destruct (k_Pods w _) as [r1 w1]. cbn in H. subst r1. intros [= <- <-]. eexists. split; [done|]. intros p.
  rewrite merge_sort_Permutation, list_elem_of_filter. unfold serving. naive_solver.
Qed.

Lemma removeNode_fails ac p p' : serving p → serving p' → po_Name p' ≠ po_Name p → fails (removeNodeFromCluster ac (po_Name p)).
Proof using Hpods Hforget.
  intros Hp Hp' Hne w r w'. unfold removeNodeFromCluster. unfold rbind at 1. destruct (listReadyPods ac w) as [[r1 w1]|] eqn:El; [|done].
  apply listReadyPods_serving in El as (l & -> & Hl). destruct (find _ l) as [q|] eqn:Ef; cycle 1.
  { apply Hl in Hp. apply list_elem_of_In in Hp. eapply find_none in Ef; [|done]. by rewrite bool_decide_eq_true_2 in Ef. }
  apply fails_then. intros id w2 r2 w3. destruct (filter _ l) as [|p2 l2] eqn:E2.
  { assert (p' ∈ filter (λ p0, po_Name p0 ≠ po_Name p) l) as Hin by (apply list_elem_of_filter; split; [done|by apply Hl]).
    rewrite E2 in Hin. by apply elem_of_nil in Hin. }
  cbn [reach]. apply fails_bind. intros w4 r4 w5. unfold send, effect.
  pose proof (Hforget w4 (pod_addr ac (po_IP p2)) id) as Hf. destruct (pod_send w4 _ _) as [[e|] w6]; [|done].
  intros [= <- <-]. eauto.
Qed.
End forget.

(** C23: A scale down does not finish while the pod that it removes runs. The nodes
    answer FORGET with an error; with pods that do, [HandleScaleDown] does not
    succeed when the last pod and another one are ready, whatever it has moved:
    the pods before the last one are never drained. *)
Theorem scale_down_stops_at_forget {W} `{!Pods W} `{!Kube W} split_host_port fuel ac (new old : Z) (pods : list Pod) p p' :
  (∀ w labels, (k_Pods w labels).1 = inr pods) →
  (∀ w addr id, (pod_send w addr ["CLUSTER"; "FORGET"; id]).1 ≠ None) →
  new < old → serving pods p → serving pods p' → po_Name p = pod_name ac (old - 1) → po_Name p' ≠ po_Name p →
  (∀ {E} `{!ProtocolEngine E} `{!GoRange string GossipNode} `{!GoRange string string} env meet c (h : Handler E) cn id,
     ∃ e, HandleCluster env meet c (StringToBytes <$> ["FORGET"; id]) h cn =
          Some (tt, h, mkConn (cn_out cn ++ [WError e]) (cn_context cn) (cn_closed cn))) ∧
  fails (HandleScaleDown split_host_port fuel ac new old).
Proof.
  intros Hpods Hforget Hlt Hp Hp' Hname Hne. split; [intros; eexists; apply forget_unknown|].
  unfold HandleScaleDown. replace (old - new) with (Z.of_nat (S (Z.to_nat (old - new - 1)))) by lia. rewrite seqZ_S.
  replace (new + Z.of_nat (Z.to_nat (old - new - 1))) with (old - 1) by lia. rewrite rev_app_distr. cbn [rev app foldl].
  apply (fails_foldl (λ ac i, rbind (recording ac (pod_name ac i) (migrateDataFromNode split_host_port fuel ac (pod_name ac i) new))
    (λ ac', rbind (recording ac' (pod_name ac i) (removeNodeFromCluster ac' (pod_name ac i))) (λ _, rret ac')))).
  apply fails_ret, fails_then. intros ac1. apply fails_bind, fails_recording. rewrite <- Hname. by eapply removeNode_fails.
Qed.

(** ** On a concrete cluster *)

Record demo_world := mkWorld { dw_sts : StatefulSet; dw_sent : list (option Z * string * list string) }.

Definition demo_pods : list Pod :=
  [mkKPod "c-0" "10.0.0.1" "Running" [("Ready", "True")]; mkKPod "c-1" "10.0.0.2" "Running" [("Ready", "True")]].

(** The pods refuse FORGET, and do not answer CLUSTER SLOTS. *)
#[local] Instance demo_pods_api : Pods demo_world := {|
  pod_send w addr args :=
    (match args with _ :: sub :: _ => if bool_decide (sub = "FORGET") then Some "ERR unknown subcommand 'FORGET'" else None | _ => None end,
     mkWorld (dw_sts w) (dw_sent w ++ [(Some (ss_Replicas (dw_sts w)), addr, args)]));
  pod_nodeID w addr := (inr addr, w);
  pod_keys w addr slot n := (inr [], w)
|}.

#[local] Instance demo_kube : Kube demo_world := {|
  k_AutoCache w := (ApiNotFound, w);
  k_ConfigMap w _ := (ApiNotFound, w);
  k_Service w _ := (ApiNotFound, w);
  k_StatefulSet w name := (if bool_decide (ss_Name (dw_sts w) = name) then ApiOk (dw_sts w) else ApiErr "another name", w);
  k_HPA w _ := (ApiNotFound, w);
  k_Pods w _ := (inr demo_pods, w);
  k_Pod w name := (match find (λ p, bool_decide (po_Name p = name)) demo_pods with Some p => inr p | None => inl "not found" end, w);
  k_SetOwner _ _ := None;
  k_Create w _ := (None, w);
  k_Update w o := (None, match o with OStatefulSet s => mkWorld s (dw_sent w) | _ => w end);
  k_Delete w _ := (None, w);
  k_UpdateStatus w _ := (None, w);
  k_health w _ := (inl "", w);
  k_nodes w _ := (inl "", w);
  k_slots w addr := (inl "timeout", w)
|}.

#[local] Instance demo_kube_world : KubeWorld demo_world "c".
Proof.
  refine (Build_KubeWorld _ _ _ "c" (λ w, Some (dw_sts w)) dw_sent _ _ _ _ _ _ _ _ _ _); try done.
  intros w. simpl. by case_bool_decide.
Defined.

Definition demo_resource : AutoCache :=
  mkAutoCache "c" 1 false [finalizerName] (mkACSpec 2 "image" "" "" 6379 16379 None ∅ None None None None None [] ∅ [] "" "" ∅ ∅)
    (mkACStatus PhaseRunning 1 1 16384 "ok" [] None false "" [] 1).

Definition demo_split (addr : string) : string + string * Z := inr (addr, 6379).
Definition demo_start : demo_world := mkWorld (mkSts "c" 1 (build_template demo_resource) [] 1 1) [].

Lemma init_assigns_every_slot_once_witness :
  ∃ plan, addslots_commands ["p0"; "p1"; "p2"] = (λ p, addslots p.1 p.2) <$> plan ∧ concat (snd <$> plan) = seqZ 0 totalSlots.
Proof.
  destruct (init_assigns_every_slot_once ["p0"; "p1"; "p2"] ltac:(discriminate)) as (plan & H1 & H2 & _). by exists plan.
Defined.

(** The reconciliation from one pod to two fails after MEET, before a slot is
    moved; the next one sends nothing. *)
Lemma scaling_runs_once_after_resize_witness :
  ∃ e w', reconcileStatefulSet demo_split 5 demo_resource demo_start = Some (inl e, w') ∧
    at_size "c" 2 [] w' ∧ world_sent (name:="c") w' ≠ [].
Proof.
  assert (match reconcileStatefulSet demo_split 5 demo_resource demo_start with
          | Some (inl _, w') => Some (length (dw_sent w')) | _ => None end = Some 1%nat) as Hm by (vm_compute; reflexivity).
  destruct (reconcileStatefulSet _ _ _ _) as [[[e|] w']|] eqn:H; [|discriminate Hm|discriminate Hm].
  injection Hm as Hm. exists e, w'. split; [reflexivity|].
  assert (dw_sent w' ≠ []) as Hne by (intros E; rewrite E in Hm; discriminate Hm).
  apply (scaling_runs_once_after_resize demo_split "c" (KW:=demo_kube_world) 5 demo_resource
    demo_start (inl e) w' (dw_sts demo_start)) in H as [[_ Hs]|[Hs _]];
    [contradiction|split; [exact Hs|exact Hne]|reflexivity|reflexivity].
Defined.

Lemma scale_down_stops_at_forget_witness : fails (HandleScaleDown demo_split 5 demo_resource 1 2).
Proof.
  apply (scale_down_stops_at_forget demo_split 5 demo_resource 1 2 demo_pods
    (mkKPod "c-1" "10.0.0.2" "Running" [("Ready", "True")]) (mkKPod "c-0" "10.0.0.1" "Running" [("Ready", "True")])); try done.
  - split; [set_solver|done].
  - split; [set_solver|done].
Defined.

Section node.
#[local] Instance ranges {K A} `{Countable K} : GoRange K A := listed_range.
#[local] Instance engine : ProtocolEngine Store := MemoryStoreAdapter (λ _ _, true) (λ _, None) (λ _, "").

(** Node b takes slot 7 from a, and its replicas. *)
Lemma addslots_takes_owned_slots_witness :
  ∃ sm new, HandleCluster at_5 (λ _, inr None) (demo_cluster "b" demo3) (StringToBytes <$> ["ADDSLOTS"; "7"]) (NewHandler empty_store) newConn =
      Some (tt, SetCluster (NewHandler empty_store) (put_slots (demo_cluster "b" demo3) sm), mkConn [WString "OK"] None false) ∧
    GetSlotNode demo3 7 = "a" ∧ slot_at sm 7 = Some new ∧ si_NodeID new = "b" ∧ si_Replicas new = [].
Proof.
  destruct (addslots_takes_owned_slots at_5 (λ _, inr None) (demo_cluster "b" demo3) (NewHandler empty_store) newConn "10.0.0.2:6379" [7])
    as (sm & Hr & Hall).
  - exact (sl_index _ demo3_wf).
  - discriminate.
  - apply Forall_singleton, valid_7.
  - destruct demo_steps as (_ & _ & _ & _ & H7). destruct (Hall 7 _ valid_7 H7) as (new & Hn & Ht & _).
    specialize (Ht (list_elem_of_here 7 [])). unfold taken in Ht. exists sm, new. split; [exact Hr|]. split; [vm_compute; reflexivity|].
    split; [exact Hn|]. rewrite Ht. split; reflexivity.
Defined.
End node.
