(* ===== verification/ProgramSpec.v ===== *)
(** * The configuration of a pod, and what a shutdown forgets

    Theorems about Program.v: the file that the operator writes for a cluster
    gives the server of a pod the settings of the resource; and the state file of
    a node that drained its slots when it stopped still has them. *)

From S2P Require Import Prelude Hash Strconv Codec Store Slots SlotsSpec Gossip Replication Cluster StateFile ClusterSpec Engine Handler Protocol Migration Operator KubeObjects Program ServerSpec StateFileSpec MigrationSpec ObjectSpec StringSpec.
From stdpp Require Import options.

(** ** Lines of words *)

(** A printable ASCII character other than the space. *)
Definition word_byte : byte → bool := within 0x21 0x7E.

Lemma word_byte_ascii b : word_byte b = true → within 0 0x7F b = true.
Proof. by destruct b. Qed.

Lemma word_byte_space b : word_byte b = true → space_rune (Rune [b]) = false.
Proof. by destruct b. Qed.

Lemma word_byte_newline b : word_byte b = true → b ≠ x0a ∧ b ≠ x0d.
Proof. by destruct b. Qed.

Definition ascii_runes (s : list byte) : list rune := (λ b, Rune [b]) <$> s.

Lemma runes_of_ascii f s : (length s ≤ f)%nat → forallb (within 0 0x7F) s = true → runes_of f s = ascii_runes s.
Proof.
  revert f. induction s as [|b s IH]; intros [|f] Hf Ha; try done; [simpl in Hf; lia|].
  cbn [forallb] in Ha. apply andb_true_iff in Ha as [Hb Ha].
  change (match rune_size (b :: s) with O => BadByte b :: runes_of f s | S n => Rune (take (S n) (b :: s)) :: runes_of f (drop (S n) (b :: s)) end
          = ascii_runes (b :: s)).
  unfold rune_size. rewrite Hb. cbn [take drop]. rewrite IH; [by rewrite take_0|simpl in Hf; lia|done].
Qed.

Lemma runes_ascii s : forallb (within 0 0x7F) s = true → runes s = ascii_runes s.
Proof. by apply runes_of_ascii. Qed.

Lemma words_ascii s : forallb word_byte s = true → forallb (within 0 0x7F) s = true.
Proof. rewrite !forallb_forall. eauto using word_byte_ascii. Qed.

Lemma fields_word w rs cur :
  forallb word_byte w = true → fields_of (ascii_runes w ++ rs) cur = fields_of rs (cur ++ w).
Proof.
  revert cur. induction w as [|b w IH]; intros cur Hw; [by rewrite app_nil_r|].
  cbn [forallb] in Hw. apply andb_true_iff in Hw as [Hb Hw]. cbn [ascii_runes fmap list_fmap app fields_of].
  rewrite word_byte_space by done. change ((λ b, Rune [b]) <$> w) with (ascii_runes w). rewrite IH by done. by rewrite <-(assoc_L (++)).
Qed.

(** A word of a file: the key of a line does not start a comment. *)
Definition word (s : string) : bool := negb (bool_decide (s = "")) && forallb word_byte (StringToBytes s).

Lemma StringToBytes_list s : StringToBytes s = Stdlib.Strings.String.list_byte_of_string s.
Proof. by destruct s. Qed.

Lemma StringToBytes_app s1 s2 : StringToBytes (s1 +:+ s2) = StringToBytes s1 ++ StringToBytes s2.
Proof.
  rewrite !StringToBytes_list. induction s1 as [|a s1 IH]; [done|]. cbn [String.append]. unfold Stdlib.Strings.String.list_byte_of_string in *.
  cbn [Stdlib.Strings.String.list_ascii_of_string map]. simpl. by rewrite IH.
Qed.

(** A line of two words. *)
Definition entry_bytes (kv : string * string) : list byte := StringToBytes kv.1 ++ x20 :: StringToBytes kv.2.

Record entry_ok (kv : string * string) : Prop := {
  eo_key : word kv.1 = true;
  eo_value : word kv.2 = true;
  eo_comment : head (StringToBytes kv.1) ≠ Some x23;
  eo_short : (length (entry_bytes kv) < MaxScanTokenSize)%nat
}.

Lemma word_split s : word s = true → ∃ b l, StringToBytes s = b :: l ∧ word_byte b = true ∧ forallb word_byte l = true.
Proof.
  unfold word. intros H. apply andb_true_iff in H as [Hn Hw]. destruct (StringToBytes s) as [|b l] eqn:E.
  - assert (s = "") as -> by (by apply (inj StringToBytes)). done.
  - exists b, l. cbn [forallb] in Hw. by apply andb_true_iff in Hw.
Qed.

Lemma word_snoc s : word s = true → ∃ l b, StringToBytes s = l ++ [b] ∧ word_byte b = true ∧ forallb word_byte l = true.
Proof.
  unfold word. intros H. apply andb_true_iff in H as [Hn Hw]. destruct (StringToBytes s) as [|b l _] eqn:E using rev_ind.
  - assert (s = "") as -> by (by apply (inj StringToBytes)). done.
  - exists l, b. rewrite forallb_app in Hw. cbn [forallb] in Hw. apply andb_true_iff in Hw as [Hl Hb]. by apply andb_true_iff in Hb as [Hb _].
Qed.

Lemma ascii_runes_bytes s : concat ((λ r, match r with Rune bs => bs | BadByte b => [b] end) <$> ascii_runes s) = s.
Proof. induction s as [|b s IH]; [done|]. simpl. f_equal. apply IH. Qed.

(** A text that starts and ends with word characters has no space around it. *)
Lemma TrimSpace_same b l b' :
  word_byte b = true → word_byte b' = true → forallb (within 0 0x7F) l = true → TrimSpace ((b :: l) ++ [b']) = (b :: l) ++ [b'].
Proof.
  intros Hb Hb' Hl. unfold TrimSpace. rewrite runes_ascii; cycle 1.
  { rewrite forallb_app. cbn [forallb]. by rewrite (word_byte_ascii b), (word_byte_ascii b'), Hl. }
  unfold ascii_runes. rewrite fmap_app. cbn [fmap list_fmap app drop_spaces]. rewrite word_byte_space by done.
  change (Rune [b] :: _ ++ [Rune [b']]) with (((λ b, Rune [b]) <$> b :: l) ++ [Rune [b']]).
  set (rs := (λ b, Rune [b]) <$> b :: l). rewrite rev_app_distr. cbn [rev app drop_spaces]. rewrite word_byte_space by done.
  cbn [rev]. rewrite rev_involutive. unfold rs.
  change [Rune [b']] with ((λ b, Rune [b]) <$> [b']). rewrite <-fmap_app. apply ascii_runes_bytes.
Qed.

Lemma entry_bytes_ends kv : entry_ok kv →
  ∃ b l b', entry_bytes kv = (b :: l) ++ [b'] ∧ word_byte b = true ∧ word_byte b' = true ∧ forallb (within 0 0x7F) l = true ∧ b ≠ x23.
Proof.
  intros [Hk Hv Hc _]. unfold entry_bytes. destruct (word_split _ Hk) as (b & l & Ek & Hb & Hl).
  destruct (word_snoc _ Hv) as (l' & b' & Ev & Hb' & Hl'). rewrite Ek, Ev in *. exists b, (l ++ x20 :: l'), b'.
  split_and!; [cbn [app]; by rewrite <-(assoc_L (++))|done..| |naive_solver].
  rewrite forallb_app. cbn [forallb]. by rewrite !words_ascii.
Qed.

Lemma entry_line kv : entry_ok kv → config_entry (entry_bytes kv) = Some kv.
Proof.
  intros Hok. destruct (entry_bytes_ends kv Hok) as (b & l & b' & E & Hb & Hb' & Hl & Hne).
  assert (drop_cr (entry_bytes kv) = entry_bytes kv) as Hcr.
  { unfold drop_cr. rewrite E, last_snoc. destruct (word_byte_newline _ Hb'). by destruct b'. }
  unfold config_entry. rewrite Hcr, E, TrimSpace_same by done. cbn [app].
  assert (Fields (b :: l ++ [b']) = [StringToBytes kv.1; StringToBytes kv.2]) as ->.
  { change (b :: l ++ [b']) with ((b :: l) ++ [b']). rewrite <-E. destruct Hok as [Hk Hv _ _]. unfold Fields, entry_bytes.
    unfold word in Hk, Hv. apply andb_true_iff in Hk as [Hk1 Hk2]. apply andb_true_iff in Hv as [Hv1 Hv2].
    rewrite runes_ascii by (rewrite forallb_app; cbn [forallb]; by rewrite !words_ascii).
    assert (ascii_runes (StringToBytes kv.1 ++ x20 :: StringToBytes kv.2) =
            ascii_runes (StringToBytes kv.1) ++ Rune [x20] :: (ascii_runes (StringToBytes kv.2) ++ [])) as ->
      by (rewrite app_nil_r; unfold ascii_runes; by rewrite fmap_app).
    rewrite fields_word by done. cbn [fields_of app]. change (space_rune (Rune [x20])) with true. cbn iota.
    rewrite fields_word by done. cbn [fields_of app].
    rewrite !bool_decide_eq_false_2; [done|..].
    all: intros Hn; apply (f_equal BytesToString) in Hn; rewrite BytesToString_StringToBytes in Hn; by rewrite Hn in *. }
  destruct kv as [k v]. unfold joined. cbn [fst snd fmap list_fmap concat]. rewrite app_nil_r. unfold str. rewrite !BytesToString_StringToBytes. by destruct b.
Qed.

(** ** The file of the operator *)

Section config.
Context `{!GoRange string string}.

Definition set_when (key value : string) : list (string * string) := if bool_decide (value = "") then [] else [(key, value)].

(** The settings of the file, in order. *)
Definition spec_entries (ac : AutoCache) : list (string * string) :=
  [("port", itoa (sp_Port (ac_Spec ac))); ("cluster-port", itoa (sp_ClusterPort (ac_Spec ac))); ("cluster-enabled", "yes");
   ("cluster-config-file", "nodes.conf"); ("cluster-node-timeout", "15000")] ++
  match sp_Config (ac_Spec ac) with
  | None => []
  | Some config =>
      set_when "maxmemory" (cs_MaxMemory config) ++ set_when "maxmemory-policy" (cs_Policy config) ++ go_range (cs_Custom config)
  end.

Definition ended (line : list byte) : list byte := line ++ [x0a].

Definition comment_line : list byte := StringToBytes "# AutoCache Configuration".

Lemma config_line_bytes k v : StringToBytes (config_line k v) = ended (entry_bytes (k, v)).
Proof.
  unfold config_line, ended, entry_bytes. rewrite !StringToBytes_app. cbn [fst snd]. rewrite <-(assoc_L (++)). done.
Qed.

Lemma custom_bytes l : StringToBytes (foldr (λ kv s, config_line kv.1 kv.2 +:+ s) "" l) = concat (ended ∘ entry_bytes <$> l).
Proof.
  induction l as [|[k v] l IH]; [done|]. cbn [foldr]. rewrite StringToBytes_app, config_line_bytes, IH. done.
Qed.

Lemma set_when_bytes k v : StringToBytes (if bool_decide (v = "") then "" else config_line k v) = concat (ended ∘ entry_bytes <$> set_when k v).
Proof. unfold set_when. case_bool_decide; [done|]. rewrite config_line_bytes. simpl. by rewrite app_nil_r. Qed.

Lemma generateConfig_bytes ac :
  StringToBytes (generateConfig ac) = concat (ended <$> comment_line :: (entry_bytes <$> spec_entries ac)).
Proof.
  rewrite fmap_cons, <-list_fmap_compose. cbn [concat]. unfold spec_entries. rewrite fmap_app, concat_app.
  transitivity (ended comment_line ++ (StringToBytes (config_line "port" (itoa (sp_Port (ac_Spec ac)))) ++
    StringToBytes (config_line "cluster-port" (itoa (sp_ClusterPort (ac_Spec ac)))) ++ StringToBytes (config_line "cluster-enabled" "yes") ++
    StringToBytes (config_line "cluster-config-file" "nodes.conf") ++ StringToBytes (config_line "cluster-node-timeout" "15000")) ++
    StringToBytes (match sp_Config (ac_Spec ac) with
      | None => ""
      | Some config =>
          (if bool_decide (cs_MaxMemory config = "") then "" else config_line "maxmemory" (cs_MaxMemory config)) +:+
          (if bool_decide (cs_Policy config = "") then "" else config_line "maxmemory-policy" (cs_Policy config)) +:+
          foldr (λ kv s, config_line kv.1 kv.2 +:+ s) "" (go_range (cs_Custom config))
      end)).
  - unfold generateConfig, config_line, ended, comment_line. rewrite !StringToBytes_app, <-!(assoc_L (++)). done.
  - rewrite !config_line_bytes. f_equal. apply (f_equal2 app); [cbn [fmap list_fmap concat compose]; by rewrite app_nil_r|].
    destruct (sp_Config (ac_Spec ac)) as [config|]; [|done]. by rewrite !StringToBytes_app, !set_when_bytes, custom_bytes, !fmap_app, !concat_app.
Qed.

(** Lines that have no end in them are read as they are. *)
Lemma scan_one line rest cur : Forall (λ b, b ≠ x0a) line → scan_lines (ended line ++ rest) cur = (cur ++ line) :: scan_lines rest [].
Proof.
  revert cur. induction line as [|b line IH]; intros cur Hf; [by rewrite app_nil_r|]. apply Forall_cons in Hf as [Hb Hf].
  cbn [ended app scan_lines]. rewrite bool_decide_eq_false_2 by done. rewrite IH by done. by rewrite <-(assoc_L (++)).
Qed.

Lemma scan_ended lines : Forall (Forall (λ b, b ≠ x0a)) lines → scan_lines (concat (ended <$> lines)) [] = lines.
Proof. induction 1 as [|line lines Hl _ IH]; [done|]. cbn [fmap list_fmap concat]. rewrite scan_one by done. by rewrite IH. Qed.

Lemma entry_no_newline kv : entry_ok kv → Forall (λ b, b ≠ x0a) (entry_bytes kv).
Proof.
  intros [Hk Hv _ _]. unfold word in Hk, Hv. apply andb_true_iff in Hk as [_ Hk]. apply andb_true_iff in Hv as [_ Hv].
  rewrite forallb_forall in Hk, Hv. apply Forall_app. split; [|constructor; [done|]].
  all: apply Forall_forall; intros b Hb; apply list_elem_of_In in Hb; apply word_byte_newline; auto.
Qed.

(** Later settings replace earlier ones. *)
Definition settings (m : gmap string string) (entries : list (string * string)) : gmap string string :=
  foldl (λ m kv, <[kv.1 := kv.2]> m) m entries.

Lemma load_entries entries :
  Forall entry_ok entries →
  loadConfigFile (concat (ended <$> comment_line :: (entry_bytes <$> entries))) = Some (settings ∅ entries).
Proof.
  intros Hok. unfold loadConfigFile. rewrite scan_ended; cycle 1.
  { constructor; [apply (bool_decide_unpack (Forall _ comment_line)); vm_compute; done|]. apply Forall_fmap. by eapply Forall_impl, entry_no_newline. }
  assert (forallb (λ l, Nat.ltb (length l) MaxScanTokenSize) (comment_line :: (entry_bytes <$> entries)) = true) as ->.
  { cbn [forallb]. apply andb_true_iff. split; [by vm_compute|]. apply forallb_forall. intros l Hl. apply list_elem_of_In, list_elem_of_fmap in Hl as (kv & -> & Hin).
    apply Nat.ltb_lt. by apply (proj1 (Forall_forall _ _) Hok). }
  f_equal. cbn [foldl]. change (config_entry comment_line) with (@None (string * string)). cbn iota.
  generalize (∅ : gmap string string). induction Hok as [|kv entries Hkv _ IH]; intros m; [done|].
  cbn [fmap list_fmap foldl]. rewrite entry_line by done. destruct kv. apply IH.
Qed.

Lemma settings_lookup (entries : list (string * string)) (m : gmap string string) :
  NoDup entries.*1 →
  (∀ k v, (k, v) ∈ entries → settings m entries !! k = Some v) ∧
  (∀ k, k ∉ entries.*1 → settings m entries !! k = m !! k).
Proof using Type.
  revert m. induction entries as [|[k0 v0] entries IH]; intros m Hn; [split; [by intros ? ? ?%elem_of_nil|done]|].
  cbn [fmap list_fmap fst] in Hn. apply NoDup_cons in Hn as [Hk Hn]. destruct (IH (<[k0 := v0]> m) Hn) as [IH1 IH2]. split; intros k; cbn [settings foldl fst snd].
  - intros v [[= -> ->]|Hin]%elem_of_cons; [|by apply IH1]. by rewrite IH2, lookup_insert_eq.
  - cbn [fmap list_fmap fst]. intros [Hne Hin]%not_elem_of_cons. rewrite IH2 by done. by rewrite lookup_insert_ne.
Qed.

(** *** Numbers *)

Lemma ascii_digit_word d : 0 ≤ d < 10 → word_byte (ascii_digit d) = true.
Proof using Type. intros Hd. unfold word_byte, within. pose proof (digit_value d Hd). lia. Qed.

Lemma decimal_word f n : 0 ≤ n → forallb word_byte (decimal f n) = true ∧ (length (decimal f n) ≤ f)%nat.
Proof using Type.
  revert n. induction f as [|f IH]; intros n Hn; [done|]. cbn [decimal]. destruct (Z.ltb_spec n 10).
  - cbn [forallb length]. rewrite ascii_digit_word by lia. split; [done|lia].
  - destruct (IH (n / 10)) as [IH1 IH2]; [apply Z.div_pos; lia|]. pose proof (Z.mod_pos_bound n 10).
    rewrite forallb_app, length_app, IH1. cbn [forallb length]. rewrite ascii_digit_word by lia. split; [done|lia].
Qed.

Lemma itoa_bytes n : 0 ≤ n → StringToBytes (itoa n) = decimal 20 n.
Proof using Type. intros Hn. unfold itoa. rewrite StringToBytes_BytesToString. unfold strconv_FormatInt. by rewrite (proj2 (Z.ltb_ge n 0)). Qed.

Lemma itoa_word n : 0 ≤ n < 65536 → word (itoa n) = true ∧ (length (StringToBytes (itoa n)) ≤ 20)%nat.
Proof using Type.
  intros Hn. unfold word. rewrite itoa_bytes by lia. destruct (decimal_word 20 n) as [H1 H2]; [lia|]. rewrite H1. split; [|done].
  rewrite bool_decide_eq_false_2; [done|]. intros E. apply (f_equal StringToBytes) in E. rewrite itoa_bytes in E by lia.
  destruct (decimal_first 19 n) as (d & l & _ & E2); [simpl; lia|]. by rewrite E2 in E.
Qed.

Lemma parse_digits_ge s val n : parse_digits val s = Some n → 0 ≤ val → val ≤ n.
Proof using Type.
  revert val. induction s as [|c s IH]; intros val Hp Hv; cbn [parse_digits] in Hp; [injection Hp; lia|].
  destruct ((0 <=? Z_of_byte c - 48) && (Z_of_byte c - 48 <=? 9)) eqn:Hd; [|done].
  apply andb_true_iff in Hd as [Hd1%Z.leb_le Hd2%Z.leb_le]. apply IH in Hp; lia.
Qed.

Lemma digits_value_parse s val n :
  0 ≤ val → parse_digits val s = Some n → n < 2 ^ 63 → digits_value s val = Some n ∧ val ≤ n.
Proof using Type.
  revert val. induction s as [|c s IH]; intros val Hv Hp Hn; cbn [parse_digits digits_value] in *; [split; [done|naive_solver lia]|].
  destruct ((0 <=? Z_of_byte c - 48) && (Z_of_byte c - 48 <=? 9)) eqn:Hd; [|done].
  assert (within 0x30 0x39 c = true) as -> by (unfold within; lia).
  apply andb_true_iff in Hd as [Hd1%Z.leb_le Hd2%Z.leb_le]. pose proof (parse_digits_ge _ _ _ Hp ltac:(lia)).
  rewrite i64_id by (unfold is_i64; lia). destruct (IH (val * 10 + (Z_of_byte c - 48))) as [IH1 IH2]; [lia|done|done|]. split; [done|lia].
Qed.

Lemma parseInt_itoa n d : 0 < n < 65536 → parseInt (itoa n) d = n.
Proof using Type.
  intros Hn. unfold parseInt. rewrite itoa_bytes by lia.
  destruct (digits_value_parse (decimal 20 n) 0 n) as [-> _]; [lia|apply parse_decimal; simpl; lia|lia|]. by rewrite (proj2 (Z.eqb_neq n 0)) by lia.
Qed.
(** *** The settings of a resource *)

Definition reserved_keys : list string :=
  ["port"; "cluster-port"; "cluster-enabled"; "cluster-config-file"; "cluster-node-timeout"; "maxmemory"; "maxmemory-policy"].

(** The optional settings are words on short lines, and the custom ones use
    names of their own. *)
Record config_ok (ac : AutoCache) : Prop := {
  co_port : 0 < sp_Port (ac_Spec ac) < 65536;
  co_clusterPort : 0 < sp_ClusterPort (ac_Spec ac) < 65536;
  co_memory config : sp_Config (ac_Spec ac) = Some config → Forall entry_ok (set_when "maxmemory" (cs_MaxMemory config));
  co_policy config : sp_Config (ac_Spec ac) = Some config → Forall entry_ok (set_when "maxmemory-policy" (cs_Policy config));
  co_custom config k v : sp_Config (ac_Spec ac) = Some config → cs_Custom config !! k = Some v → entry_ok (k, v) ∧ k ∉ reserved_keys
}.

Lemma set_when_keys k v : (set_when k v).*1 = [] ∨ (set_when k v).*1 = [k].
Proof using Type. unfold set_when. case_bool_decide; auto. Qed.

Lemma token_size : (200 < MaxScanTokenSize)%nat.
Proof using Type. apply Nat.ltb_lt. by vm_compute. Qed.

Definition short_entry (kv : string * string) : bool :=
  word kv.1 && word kv.2 && bool_decide (head (StringToBytes kv.1) ≠ Some x23) && Nat.leb (length (entry_bytes kv)) 200.

Lemma short_entry_ok kv : short_entry kv = true → entry_ok kv.
Proof using Type.
  unfold short_entry. intros [[[H1 H2]%andb_true_iff H3]%andb_true_iff H4]%andb_true_iff. apply bool_decide_eq_true in H3. apply Nat.leb_le in H4.
  split; [done..|]. eapply Nat.le_lt_trans, token_size. done.
Qed.

Lemma port_entry_ok k n : word k = true → head (StringToBytes k) ≠ Some x23 → (length (StringToBytes k) ≤ 100)%nat → 0 < n < 65536 → entry_ok (k, itoa n).
Proof using Type.
  intros Hk Hh Hl Hn. destruct (itoa_word n) as [H1 H2]; [lia|]. split; [done..|].
  apply (Nat.lt_trans _ 200); [|apply token_size]. unfold entry_bytes. rewrite length_app. cbn [fst snd length]. lia.
Qed.

Lemma spec_entries_ok ac : config_ok ac → Forall entry_ok (spec_entries ac).
Proof using Type.
  intros [H1 H2 H3 H4 H5]. unfold spec_entries. apply Forall_app. split.
  - repeat (apply Forall_cons; split); [apply port_entry_ok; [reflexivity|discriminate|apply Nat.leb_le; reflexivity|done]..
      |apply short_entry_ok; reflexivity|apply short_entry_ok; reflexivity|apply short_entry_ok; reflexivity|constructor].
  - destruct (sp_Config (ac_Spec ac)) as [config|]; [|done]. apply Forall_app. split; [auto|]. apply Forall_app. split; [auto|].
    apply Forall_forall. intros [k v] Hin. apply elem_of_go_range in Hin. by eapply H5.
Qed.

Lemma spec_entries_keys ac : config_ok ac → NoDup (spec_entries ac).*1.
Proof using Type.
  intros [_ _ _ _ H5]. unfold spec_entries. destruct (sp_Config (ac_Spec ac)) as [config|]; cycle 1.
  { apply (bool_decide_unpack (NoDup _)). by vm_compute. }
  rewrite !fmap_app.
  assert (∀ k, k ∈ (go_range (cs_Custom config)).*1 → k ∉ reserved_keys) as Hc.
  { intros k Hk. apply list_elem_of_fmap in Hk as ([k' v] & -> & Hin). apply elem_of_go_range in Hin. by eapply H5. }
  assert (NoDup (go_range (cs_Custom config)).*1) as Hn by (rewrite go_range_perm; apply NoDup_fst_map_to_list).
  rewrite (assoc_L (++)), (assoc_L (++)). apply NoDup_app. split_and!; [| |done].
  - destruct (set_when_keys "maxmemory" (cs_MaxMemory config)) as [-> | ->], (set_when_keys "maxmemory-policy" (cs_Policy config)) as [-> | ->];
      apply (bool_decide_unpack (NoDup _)); by vm_compute.
  - intros k Hk Hk'. apply (Hc k Hk'). clear -Hk.
    destruct (set_when_keys "maxmemory" (cs_MaxMemory config)) as [E | E], (set_when_keys "maxmemory-policy" (cs_Policy config)) as [E' | E'];
      rewrite E, E' in Hk; unfold reserved_keys; set_solver.
Qed.

(** A setting of the resource that may be left out. *)
Lemma optional_setting ac config k v :
  config_ok ac → sp_Config (ac_Spec ac) = Some config →
  (k = "maxmemory" ∧ v = cs_MaxMemory config ∨ k = "maxmemory-policy" ∧ v = cs_Policy config) →
  non_empty (settings ∅ (spec_entries ac) !! k) = non_empty (Some v).
Proof using Type.
  intros Hok Hc Hk. destruct (settings_lookup (spec_entries ac) ∅ (spec_entries_keys ac Hok)) as [Hin Hout].
  destruct (decide (v = "")) as [Hv|Hv].
  - rewrite Hout; [by subst v|]. unfold spec_entries. rewrite Hc, !fmap_app, !elem_of_app. intros [Hi|[Hi|[Hi|Hi]]].
    + destruct Hk as [[-> _]|[-> _]]; set_solver.
    + unfold set_when in Hi. case_bool_decide; [by apply elem_of_nil in Hi|]. apply list_elem_of_singleton in Hi. naive_solver.
    + unfold set_when in Hi. case_bool_decide; [by apply elem_of_nil in Hi|]. apply list_elem_of_singleton in Hi. naive_solver.
    + apply list_elem_of_fmap in Hi as ([k' v'] & -> & Hi). apply elem_of_go_range in Hi.
      destruct (co_custom _ Hok config _ _ Hc Hi) as [_ Hr]. apply Hr. unfold reserved_keys. destruct Hk as [[Hk _]|[Hk _]]; cbn in Hk |- *; set_solver.
  - rewrite (Hin k v); [done|]. unfold spec_entries. rewrite Hc, !elem_of_app. right. unfold set_when.
    destruct Hk as [[-> ->]|[-> ->]]; [left|right; left]; rewrite bool_decide_eq_false_2 by done; by apply list_elem_of_singleton.
Qed.

(** C22: The configuration that the operator writes for a pod is the one that its
    server reads, when the ports are valid, the values are single words on lines
    that the scanner takes, and no custom setting has the name of one that the
    operator writes itself (the later line would override it). The server listens on the port of the resource, the one that
    the probes and the client service use, its cluster bus on the cluster port,
    cluster mode is on, the limit and policy of the memory store are those of the
    resource, and every custom setting arrives. *)
Theorem operator_config_reaches_server ac :
  config_ok ac →
  ∃ cfg, loadConfigFile (StringToBytes (generateConfig ac)) = Some cfg ∧
    let f := applyConfig cfg DefaultFlags in
    let port := sp_Port (ac_Spec ac) in
    fl_addr f = ":" +:+ itoa port ∧ announced_port f = port ∧ fl_clusterPort f = sp_ClusterPort (ac_Spec ac) ∧ fl_clusterEnabled f = true ∧
    pr_Port <$> ct_Liveness (buildContainer ac) = Some (announced_port f) ∧ sv_Ports (buildClientService ac) = [("redis", announced_port f)] ∧
    ∀ config, sp_Config (ac_Spec ac) = Some config →
      buildMemoryConfigFromConfig cfg =
        mkConfig 1024 (default 0 (non_empty (Some (cs_MaxMemory config)) ≫= parseMemoryBytes))
          (default "noeviction" (non_empty (Some (cs_Policy config)))) ∧
      ∀ k v, cs_Custom config !! k = Some v → cfg !! k = Some v.
Proof using Type.
  intros Hok. rewrite generateConfig_bytes, load_entries by (by apply spec_entries_ok). eexists. split; [done|]. cbv zeta.
  destruct (settings_lookup (spec_entries ac) ∅ (spec_entries_keys ac Hok)) as [Hin _]. set (cfg := settings _ _) in *.
  assert (cfg !! "port" = Some (itoa (sp_Port (ac_Spec ac)))) as Hp by (apply Hin; do 0 right; by left).
  assert (cfg !! "cluster-port" = Some (itoa (sp_ClusterPort (ac_Spec ac)))) as Hcp by (apply Hin; do 1 right; by left).
  assert (cfg !! "cluster-enabled" = Some "yes") as He by (apply Hin; do 2 right; by left).
  assert (∀ n, 0 < n < 65536 → non_empty (Some (itoa n)) = Some (itoa n)) as Hne.
  { intros n Hn. unfold non_empty. rewrite bool_decide_eq_false_2; [done|]. intros E. destruct (itoa_word n) as [Hw _]; [lia|]. by rewrite E in Hw. }
  pose proof (co_port _ Hok) as Hport. pose proof (co_clusterPort _ Hok) as Hcport.
  assert (announced_port (applyConfig cfg DefaultFlags) = sp_Port (ac_Spec ac)) as Hap.
  { unfold announced_port, applyConfig. cbn [fl_addr]. rewrite Hp, Hne by done. rewrite StringToBytes_app, itoa_bytes by lia.
    destruct (decimal 20 (sp_Port (ac_Spec ac))) as [|d l] eqn:E.
    { destruct (decimal_first 19 (sp_Port (ac_Spec ac))) as (? & ? & _ & E'); [simpl; lia|]. by rewrite E in E'. }
    change (StringToBytes ":") with [x3a]. cbn [app]. cbv iota. rewrite <-E, <-itoa_bytes by lia. unfold str.
    rewrite BytesToString_StringToBytes. by apply parseInt_itoa. }
  rewrite Hap. split_and!; try done.
  - unfold applyConfig. cbn [fl_addr]. by rewrite Hp, Hne.
  - unfold applyConfig. cbn [fl_clusterPort]. rewrite Hcp, Hne by done. by apply parseInt_itoa.
  - unfold applyConfig. cbn [fl_clusterEnabled]. by rewrite He.
  - intros config Hc. split.
    + unfold buildMemoryConfigFromConfig. unfold cfg.
      rewrite (optional_setting ac config "maxmemory" (cs_MaxMemory config)), (optional_setting ac config "maxmemory-policy" (cs_Policy config)); auto.
    + intros k v Hk. apply Hin. unfold spec_entries. rewrite Hc, !elem_of_app. do 3 right. by apply elem_of_go_range.
Qed.
End config.

(** A limit whose product leaves 64 bits is read as none: 2^33 gigabytes. *)
Lemma memory_limit_wraps :
  parseMemoryBytes "8589934592gb" = Some (- 2 ^ 63) ∧ st_evictor (NewStore (Some (mkConfig 1 (- 2 ^ 63) "allkeys-lru")) (λ _, 0) (λ _, 0)) = None.
Proof. split; by vm_compute. Qed.

(** ** What a shutdown forgets *)

Section shutdown.
Context {B : Type} `{!StateJson B} `{!StateJsonLaws B} {E : Type} `{!ProtocolEngine E} (serialize : EngineEntry → GoError + list byte).
Context `{!GoRange string GossipNode} `{!GoRange Z MigrationState} `{!GoRange Z SlotReplicaSet}.

(** Who saves, as long as [Save] is not called. *)
Record program_inv (m : StateManager B) : Prop := {
  pi_mu by_ seen : st_mu m = Some (by_, seen) → by_ = ByLoop ∧ st_loop m = LoopSave ∨ by_ = ByClose ∧ st_close m = CloseSave;
  pi_close : st_close m = CloseNot ∨ st_close m = CloseWait ∨ st_loop m = LoopDone
}.

Lemma program_step_inv m m' : program_inv m → program_step m m' → program_inv m'.
Proof using Type.
  intros [I1 I2] (ev & Hs & Hne).
  destruct Hs as [c Hc|Hl Hch|Hl Ht|Hl Hmu|Hl Hcl|by_ seen Hmu Hlen|by_ seen st data Hmu Ha Hj|by_ seen st Hmu Ha|Hmu|Hcl|Hcl Hl
    |Hcl Hmu]; try done; split; simpl; try done.
  all: try (intros ? ? [= <- <-]; by auto).
  all: try (rewrite Hmu; simpl; intros ? ? [= <- <-]; by eapply I1).
  all: try (intros by1 seen1 Hm; destruct (I1 by1 seen1 Hm) as [[-> Hx]|[-> Hx]]; try congruence; auto).
  all: destruct I2 as [I2|[I2|I2]]; try congruence; auto.
  all: destruct (I1 _ _ Hmu) as [[-> Hx]|[-> Hx]]; try congruence; auto.
Qed.

Lemma program_run_inv c0 file0 m : rtc program_step (NewStateManager c0 file0) m → program_inv m.
Proof using Type.
  apply (rtc_ind_r program_inv); [by split; [|left]|]. intros m1 m2 _ Hs IH. by eapply program_step_inv.
Qed.

(** The manager has stopped: only the cluster changes. *)
Definition stopped (m : StateManager B) : Prop :=
  st_mu m = None ∧ st_loop m = LoopDone ∧ (st_close m = CloseDone ∨ st_close m = CloseFailed).

Lemma closed_stopped m : program_inv m → st_close m = CloseDone ∨ st_close m = CloseFailed → stopped m.
Proof using Type.
  intros [I1 I2] Hc. split_and!; [|by destruct I2 as [I2|[I2|I2]]; [destruct Hc; congruence..|]|done].
  destruct (st_mu m) as [[by_ seen]|] eqn:Hm; [|done]. exfalso. destruct (I1 _ _ eq_refl) as [[_ H]|[_ H]], Hc, I2 as [?|[?|?]]; congruence.
Qed.

Lemma stopped_file m m' : stopped m → rtc program_step m m' → stopped m' ∧ st_file m' = st_file m.
Proof using Type.
  intros Hst. apply (rtc_ind_r (λ m', stopped m' ∧ st_file m' = st_file m)); [done|]. intros m1 m2 _ (ev & Hs & Hne) [(H1 & H2 & H3) <-].
  destruct Hs; try done; destruct H3; congruence.
Qed.

(** C12: What a node drains when it stops is not in its state file, because the
    program closes the state manager before it drains. When [Close] has saved a
    changed state without error, the cluster was left alone while saves ran, and
    its names are plain text, the file keeps the slot table as it was before the drain, whatever slots the
    drain handed over: a node that is started on it gets a table in which the ID
    of the stopped node owns every slot that it had. The file does not set the ID
    of the new node: it takes itself for the owner of these slots when it is
    started with the same ID ([-node-id]). *)
Theorem shutdown_forgets_drain conns e c0 file0 m1 m2 c :
  sm_stateManager (c_slots c0) = Some false → rtc orderly_step (NewStateManager c0 file0) m1 → st_close m1 = CloseDone →
  let self := nd_ID (c_self (st_provider m1)) in
  slots_wf (c_slots (st_provider m1)) → self ≠ "" → plain_state (saved_state (st_provider m1)) →
  saved_state (st_provider m1) ≠ saved_state c0 → shutdown serialize conns e m1 m2 c →
  ∃ data, st_file m2 = Some data ∧
    ∀ restarted, ∃ c2, Load (Some restarted) (ReadData data) = Some (inr tt, Some c2) ∧ c_self c2 = c_self restarted ∧
      ∀ slot, slot ∈ GetNodeSlots (c_slots (st_provider m1)) self →
        GetSlotNode (c_slots c2) slot = self ∧ (nd_ID (c_self restarted) = self → slot ∈ GetNodeSlots (c_slots c2) (nd_ID (c_self c2))).
Proof using Type*.
  intros H0 Hrun Hcl self Hwf Hne Hpl Hch [c' e' m' _ _ Hrun2].
  pose proof (orderly_quiet _ _ Hrun) as Hq.
  assert (rtc program_step (NewStateManager c0 file0) m1) as Hp by (eapply rtc_subrel; [|exact Hrun]; intros ? ? (ev & ? & ? & ?); by exists ev).
  pose proof (closed_stopped m1 (program_run_inv _ _ _ Hp) (or_introl Hcl)) as Hst.
  destruct (stopped_file (MarkDirty m1 c') m' Hst Hrun2) as [_ ->]. change (st_file (MarkDirty m1 c')) with (st_file m1).
  destruct (quiet_run_inv _ _ _ H0 Hq) as [_ I2 _ I4]. destruct (I2 (I4 Hcl)) as [Hf|[_ Hs]]; [|done].
  pose proof Hf as (st & data & Hd & _). exists data. split; [done|]. intros restarted.
  destruct (Load_in_file (st_provider m1) data restarted Hwf Hpl) as (c2 & Hl & Hwf2 & Hs & _ & _ & Hself); [by rewrite <-Hd|].
  exists c2. split_and!; [done|done|]. intros slot Hin. apply (ix_owns _ (sl_index _ Hwf)) in Hin as [Hv Hown]; [|done].
  destruct (slot_at (c_slots (st_provider m1)) slot) as [info|] eqn:Ei; [|done]. injection Hown as Hown.
  pose proof (slot_at_valid _ _ _ (sl_index _ Hwf) Hv Ei) as Hvs.
  split.
  - unfold GetSlotNode, GetSlotInfo. rewrite (proj2 (Z.leb_gt SlotCount slot)) by apply Hvs. by rewrite (Hs slot Hvs), Ei.
  - intros Hid. rewrite Hself, Hid. apply (ix_owns _ (sl_index _ Hwf2)); [done|]. split; [done|]. rewrite (Hs slot Hvs), Ei. cbn. by f_equal.
Qed.
End shutdown.

(** ** Instances *)

Section witnesses.
#[local] Instance ranges {K A} `{Countable K} : GoRange K A := listed_range.
#[local] Instance state_json : StateJson StateFile := {| json_MarshalIndent := inr; json_Unmarshal := inr |}.

#[local] Instance state_json_laws : StateJsonLaws StateFile.
Proof. split; [|by eexists]. intros st data [= <-] _. exists (sf_NodeID st), (sf_Nodes st). by destruct st. Qed.

#[local] Instance engine : ProtocolEngine Store := MemoryStoreAdapter (λ _ _, true) (λ _, None) (λ _, "").

Definition sample : AutoCache :=
  mkAutoCache "c" 1 false [] (mkACSpec 3 "image" "" "" 7000 17000
      (Some (mkConfigSpec "512mb" "allkeys-lru" {["admin-enabled" := "yes"]})) ∅ None None None None None [] ∅ [] "" "" ∅ ∅)
    (mkACStatus PhaseRunning 3 3 16384 "ok" [] None false "" [] 1).

Lemma operator_config_reaches_server_witness :
  ∃ cfg, loadConfigFile (StringToBytes (generateConfig sample)) = Some cfg ∧
    announced_port (applyConfig cfg DefaultFlags) = 7000 ∧ cfg !! "admin-enabled" = Some "yes" ∧
    buildMemoryConfigFromConfig cfg = mkConfig 1024 536870912 "allkeys-lru".
Proof.
  destruct (operator_config_reaches_server sample) as (cfg & Hl & _ & Hp & _ & _ & _ & _ & Hc).
  - split; [vm_compute; split; reflexivity|vm_compute; split; reflexivity|..].
    + intros config [= <-]. apply Forall_singleton, short_entry_ok. reflexivity.
    + intros config [= <-]. apply Forall_singleton, short_entry_ok. reflexivity.
    + intros config k v [= <-] Hk. cbn [cs_Custom] in Hk. apply lookup_singleton_Some in Hk as [<- <-]. split; [by apply short_entry_ok|].
      apply (bool_decide_unpack (_ ∉ _)). by vm_compute.
  - exists cfg. split; [exact Hl|]. split; [exact Hp|]. destruct (Hc _ eq_refl) as [Hm Hk]. split; [by apply Hk|].
    rewrite Hm. by vm_compute.
Defined.

(** The node [a] with the peer [b]: it takes slot 7, stops, and drains the slot. *)
Definition before : Cluster := demo_cluster "a" (c_slots node0).
Definition taken7 : Cluster := demo_cluster "a" (c_slots node1).

Lemma taken7_plain : plain_state (saved_state taken7).
Proof. apply plain_saved; [exact node1_wf|vm_compute; reflexivity|simpl; lia|simpl; lia]. Qed.

Lemma shutdown_forgets_drain_witness :
  ∃ m2 c, shutdown (B:=StateFile) plain_serialize all_ready slot7_store
            (mkStateManager (store_clean taken7) true false LoopDone CloseDone None (Some (snapshot taken7))) m2 c ∧
    GetSlotNode (c_slots c) 7 = "b" ∧
    ∃ data c2, st_file m2 = Some data ∧ Load (Some before) (ReadData data) = Some (inr tt, Some c2) ∧ GetSlotNode (c_slots c2) 7 = "a" ∧ 7 ∈ GetNodeSlots (c_slots c2) (nd_ID (c_self c2)).
Proof.
  assert (match DrainSlots_keys plain_serialize all_ready (store_clean taken7) slot7_store with
          | Some (c', _) => Some (GetSlotNode (c_slots c') 7) | None => None end = Some "b") as Hb by (vm_compute; reflexivity).
  destruct (DrainSlots_keys plain_serialize all_ready (store_clean taken7) slot7_store) as [[c e']|] eqn:Hd; [|discriminate Hb].
  injection Hb as Hb.
  set (m1 := mkStateManager (store_clean taken7) true false LoopDone CloseDone None (Some (snapshot taken7))).
  assert (shutdown plain_serialize all_ready slot7_store m1 (MarkDirty m1 c) c) as Hs
    by (eapply shutdown_run; [by left|exact Hd|apply rtc_refl]).
  exists (MarkDirty m1 c), c. split; [exact Hs|]. split; [exact Hb|]. destruct node_flags as (H0 & H1 & _).
  destruct (shutdown_forgets_drain plain_serialize all_ready slot7_store before None m1 (MarkDirty m1 c) c)
    as (data & Hf & Hl).
  - exact H0.
  - exact (close_saves before taken7 None (snapshot taken7) H0 H1 (json_identity _)).
  - reflexivity.
  - exact (slots_wf_clean taken7 node1_wf).
  - discriminate.
  - exact (eq_ind_r plain_state taken7_plain (saved_store_clean taken7)).
  - intros E. apply (f_equal (λ ps, ps_SlotMap ps !! 7%nat)) in E. cbv beta in E. rewrite !saved_slot_map in E.
    assert (GetSlotMapSnapshot (c_slots (store_clean taken7)) !! 7%nat = Some "a") as E1 by (vm_compute; reflexivity).
    assert (GetSlotMapSnapshot (c_slots before) !! 7%nat = Some "") as E2 by (vm_compute; reflexivity).
    pose proof (eq_trans (eq_sym E1) (eq_trans E E2)) as E3. discriminate E3.
  - exact Hs.
  - destruct (Hl before) as (c2 & Hc & _ & Hn). exists data, c2. split; [exact Hf|]. split; [exact Hc|].
    destruct (Hn 7) as [H7 H7']; [|split; [exact H7|exact (H7' eq_refl)]].
    assert (GetNodeSlots (c_slots (store_clean taken7)) "a" = [7]) as E by (vm_compute; reflexivity).
    cbv beta iota delta [m1 st_provider]. change (nd_ID (c_self (store_clean taken7))) with "a". rewrite E. by left.
Defined.
End witnesses.
