(* ===== verification/Clipboard.v ===== *)
(** * The clipboard application: [clipboard/backend]

    Pastes are kept in the cache: a hash with the content and the times, a counter
    of the views that are left, and a key that the first reader of a
    burn-after-read paste claims. A request is a program that sends commands to
    the cache and goes on with their answers ([prog]), so that the commands of
    several requests can interleave. The Redis client is third-party code: its
    server is any type of states with the steps of a class. The formats of
    [time] are arguments. *)

From S2P Require Import Prelude Strconv Codec Handler Operator.
From stdpp Require Import options.

(** ** Commands *)

(** Keys, and durations in nanoseconds. *)
Inductive Cmd :=
  | CExists (key : string)
  | CHSet (key : string) (fields : gmap string string)
  | CExpire (key : string) (ttl : Z)
  | CSet (key value : string) (ttl : Z)
  | CHGetAll (key : string)
  | CGet (key : string)
  | CSetNX (key value : string)
  | CDecr (key : string)
  | CDel (keys : list string)
  | CKeys (pattern : string).

(** What the client returns: an error, [redis.Nil], or a value. *)
Inductive Answer :=
  | AErr (e : string)
  | ANil
  | AOk
  | AInt (n : Z)
  | AStr (s : string)
  | AMap (m : gmap string string)
  | AList (l : list string).

(** A command and the rest of the program, for each answer. *)
Inductive prog (A : Type) :=
  | Done (a : A)
  | Ask (c : Cmd) (k : Answer → prog A).
Arguments Done {A}.
Arguments Ask {A}.

Fixpoint pbind {A B} (p : prog A) (f : A → prog B) : prog B :=
  match p with Done a => f a | Ask c k => Ask c (λ a, pbind (k a) f) end.

(** ** [types.go] and [validate.go] *)

Record CreatePasteRequest := mkCreate { cr_Content : string; cr_TTL : string; cr_MaxViews : Z; cr_BurnAfterRead : bool }.

Record PasteMetadata := mkMeta { pm_TTL : string; pm_CreatedAt : Z; pm_ExpiresAt : Z; pm_BurnAfterRead : bool; pm_RemainingViews : Z }.

Record Paste := mkPaste { pa_Code : string; pa_Content : string; pa_Metadata : PasteMetadata }.

Definition NormalizedMaxViews (r : CreatePasteRequest) : Z := if cr_MaxViews r <=? 0 then 0 else cr_MaxViews r.
Definition HasViewLimit (r : CreatePasteRequest) : bool := 0 <? NormalizedMaxViews r.

Definition MaxContentBytes : Z := 65536.
Definition allowedTTLs : list string := ["5m"; "30m"; "1h"; "6h"; "1d"; "7d"].

Inductive PasteError :=
  | ErrContentRequired | ErrContentTooLarge | ErrInvalidTTL | ErrConflictingAccessPolicy
  | ErrShortcodeCollision | ErrPasteNotFound | ErrClient (what e : string).

Definition ValidateCreateRequest (r : CreatePasteRequest) : option PasteError :=
  if bool_decide (TrimSpace (StringToBytes (cr_Content r)) = []) then Some ErrContentRequired
  else if MaxContentBytes <? Z.of_nat (length (StringToBytes (cr_Content r))) then Some ErrContentTooLarge
  else if negb (bool_decide (cr_TTL r ∈ allowedTTLs)) then Some ErrInvalidTTL
  else if cr_BurnAfterRead r && HasViewLimit r then Some ErrConflictingAccessPolicy
  else None.

(** ** [shortcode.go] *)

Definition shortcodeAlphabet : list byte := StringToBytes "abcdefghijklmnopqrstuvwxyzABCDEFGHIJKLMNOPQRSTUVWXYZ0123456789".
Definition shortcodeLength : nat := 8.

Definition code_char (b : byte) : byte := default x61 (shortcodeAlphabet !! Z.to_nat (Z_of_byte b mod 62)).

(** [io.ReadFull] takes the first [shortcodeLength] bytes that the reader has left;
    a reader that fails ([None]) or has less is an error. *)
Definition GenerateShortcode (entropy : option (list byte)) : option string :=
  match entropy with
  | Some buf => if Nat.ltb (length buf) shortcodeLength then None else Some (str (code_char <$> take shortcodeLength buf))
  | None => None
  end.

(** The error, or the code; the reads of the reader are [entropy]. *)
Fixpoint unique_attempts (n : nat) (entropy : nat → option (list byte)) (exists_ : string → prog (string + bool)) : prog (PasteError + string) :=
  match n with
  | O => Done (inl ErrShortcodeCollision)
  | S n' =>
      match GenerateShortcode (entropy O) with
      | None => Done (inl (ErrClient "read shortcode entropy" ""))
      | Some code =>
          pbind (exists_ code) (λ r,
            match r with
            | inl e => Done (inl (ErrClient "check shortcode collision" e))
            | inr false => Done (inr code)
            | inr true => unique_attempts n' (λ i, entropy (S i)) exists_
            end)
      end
  end.

Definition GenerateUniqueShortcode (entropy : nat → option (list byte)) (exists_ : string → prog (string + bool)) (maxAttempts : Z)
    : prog (PasteError + string) :=
  if maxAttempts <=? 0 then Done (inl ErrShortcodeCollision) else unique_attempts (Z.to_nat maxAttempts) entropy exists_.

(** ** [service.go] *)

Definition pasteKey (code : string) : string := "paste:" +:+ code.
Definition viewsKey (code : string) : string := pasteKey code +:+ ":views_remaining".
Definition burnClaimKey (code : string) : string := pasteKey code +:+ ":burn_claim".

Definition FormatBool (b : bool) : string := if b then "true" else "false".
Definition strconv_ParseBool (s : string) : option bool :=
  if bool_decide (s ∈ ["1"; "t"; "T"; "true"; "TRUE"; "True"]) then Some true
  else if bool_decide (s ∈ ["0"; "f"; "F"; "false"; "FALSE"; "False"]) then Some false
  else None.

Definition nanosPerHour : Z := 3600000000000.

Section service.
Context (format_time : Z → string) (parse_time : string → option Z) (parse_duration : string → option Z).

(** The answers that the client turns into errors. *)
Definition answer_error (a : Answer) : string := match a with AErr e => e | ANil => "redis: nil" | _ => "unexpected reply" end.

Definition ttlDuration (ttl : string) : PasteError + Z :=
  match parse_duration ttl with
  | Some d => inr d
  | None =>
      if bool_decide (ttl = "1d") then inr (24 * nanosPerHour)
      else if bool_decide (ttl = "7d") then inr (7 * 24 * nanosPerHour)
      else inl ErrInvalidTTL
  end.

Definition metadataFromFields (fields : gmap string string) : PasteError + PasteMetadata :=
  let field k := default "" (fields !! k) in
  match parse_time (field "created_at") with
  | None => inl (ErrClient "parse created_at" "")
  | Some createdAt =>
      match parse_time (field "expires_at") with
      | None => inl (ErrClient "parse expires_at" "")
      | Some expiresAt =>
          match strconv_ParseBool (field "burn_after_read") with
          | None => inl (ErrClient "parse burn_after_read" "")
          | Some burn => inr (mkMeta (field "ttl") createdAt expiresAt burn 0)
          end
      end
  end.

(** The paste, and whether it has a counter of views. *)
Definition lookupPaste (code : string) : prog (PasteError + Paste * bool) :=
  Ask (CHGetAll (pasteKey code)) (λ a,
    match a with
    | AMap fields =>
        if bool_decide (fields = ∅) then Done (inl ErrPasteNotFound)
        else match metadataFromFields fields with
        | inl e => Done (inl e)
        | inr m =>
            let paste n := mkPaste code (default "" (fields !! "content"))
              (mkMeta (pm_TTL m) (pm_CreatedAt m) (pm_ExpiresAt m) (pm_BurnAfterRead m) n) in
            Ask (CGet (viewsKey code)) (λ a,
              match a with
              | ANil => Done (inr (paste 0, false))
              | AStr s =>
                  match strconv_ParseInt (StringToBytes s) with
                  | Some n => Done (inr (paste n, true))
                  | None => Done (inl (ErrClient "parse remaining views" s))
                  end
              | _ => Done (inl (ErrClient "get paste view limit" (answer_error a)))
              end)
        end
    | _ => Done (inl (ErrClient "get paste metadata" (answer_error a)))
    end).

Definition with_views (n : Z) (p : Paste) : Paste :=
  let m := pa_Metadata p in
  mkPaste (pa_Code p) (pa_Content p) (mkMeta (pm_TTL m) (pm_CreatedAt m) (pm_ExpiresAt m) (pm_BurnAfterRead m) n).

(** The end of [Get]: a burned paste is deleted. *)
Definition finish_read (code : string) (p : Paste) : prog (PasteError + Paste) :=
  if pm_BurnAfterRead (pa_Metadata p) then
    Ask (CDel [pasteKey code; viewsKey code]) (λ a,
      match a with AInt _ => Done (inr p) | _ => Done (inl (ErrClient "delete burned paste" (answer_error a))) end)
  else Done (inr p).

Definition count_view (code : string) (p : Paste) (hasViewCounter : bool) : prog (PasteError + Paste) :=
  let views := pm_RemainingViews (pa_Metadata p) in
  if hasViewCounter && (views <=? 0) then Done (inl ErrPasteNotFound)
  else if 0 <? views then
    Ask (CDecr (viewsKey code)) (λ a,
      match a with
      | AInt newRemaining =>
          if newRemaining <? 0 then Done (inl ErrPasteNotFound) else finish_read code (with_views (i64 (newRemaining + 1)) p)
      | _ => Done (inl (ErrClient "decrement paste view limit" (answer_error a)))
      end)
  else finish_read code p.

(** [Get], without the counters of its statistics. *)
Definition Service_Get (code : string) : prog (PasteError + Paste) :=
  pbind (lookupPaste code) (λ r,
    match r with
    | inl e => Done (inl e)
    | inr (p, hasViewCounter) =>
        if pm_BurnAfterRead (pa_Metadata p) then
          Ask (CSetNX (burnClaimKey code) "1") (λ a,
            match a with
            | AInt n => if n =? 1 then count_view code p hasViewCounter else Done (inl ErrPasteNotFound)
            | _ => Done (inl (ErrClient "claim burn-after-read paste" (answer_error a)))
            end)
        else count_view code p hasViewCounter
    end).

(** The fields of the hash of a new paste. *)
Definition paste_fields (r : CreatePasteRequest) (createdAt expiresAt : Z) : gmap string string :=
  <["content" := cr_Content r]> (<["ttl" := cr_TTL r]> (<["created_at" := format_time createdAt]>
  (<["expires_at" := format_time expiresAt]> {["burn_after_read" := FormatBool (cr_BurnAfterRead r)]}))).

(** The answer of a command whose value is ignored. *)
Definition require {A} (what : string) (c : Cmd) (k : prog (PasteError + A)) : prog (PasteError + A) :=
  Ask c (λ a, match a with AErr _ | ANil => Done (inl (ErrClient what (answer_error a))) | _ => k end).

Definition Service_Create (entropy : nat → option (list byte)) (attempts now : Z) (r : CreatePasteRequest) : prog (PasteError + Paste) :=
  match ValidateCreateRequest r with
  | Some e => Done (inl e)
  | None =>
      match ttlDuration (cr_TTL r) with
      | inl e => Done (inl e)
      | inr ttl =>
          pbind (GenerateUniqueShortcode entropy
                   (λ code, Ask (CExists (pasteKey code)) (λ a, match a with AInt n => Done (inr (0 <? n)) | _ => Done (inl (answer_error a)) end))
                   attempts) (λ rc,
            match rc with
            | inl e => Done (inl e)
            | inr code =>
                let paste := mkPaste code (cr_Content r) (mkMeta (cr_TTL r) now (now + ttl) (cr_BurnAfterRead r) (NormalizedMaxViews r)) in
                require "store paste metadata" (CHSet (pasteKey code) (paste_fields r now (now + ttl)))
                (require "expire paste metadata" (CExpire (pasteKey code) ttl)
                (if HasViewLimit r then require "store paste view limit" (CSet (viewsKey code) (itoa (NormalizedMaxViews r)) ttl) (Done (inr paste))
                 else Done (inr paste)))
            end)
      end
  end.

(** Whether something was deleted. *)
Definition Service_Delete (code : string) : prog (PasteError + bool) :=
  Ask (CDel [pasteKey code; viewsKey code; burnClaimKey code]) (λ a,
    match a with AInt n => Done (inr (0 <? n)) | _ => Done (inl (ErrClient "delete paste" (answer_error a))) end).

(** [strings.HasSuffix] and [strings.TrimPrefix]. *)
Definition has_suffix (s suffix : string) : bool :=
  let b := StringToBytes s in let t := StringToBytes suffix in
  Nat.leb (length t) (length b) && bool_decide (drop (length b - length t) b = t).
Definition trim_prefix (prefix s : string) : string :=
  let b := StringToBytes s in let t := StringToBytes prefix in
  if bool_decide (take (length t) b = t) then str (drop (length t) b) else s.

(** The pastes behind the keys; one that is gone, or has no views left, is skipped. *)
Fixpoint list_pastes (keys : list string) : prog (PasteError + list Paste) :=
  match keys with
  | [] => Done (inr [])
  | key :: keys' =>
      if has_suffix key ":views_remaining" || has_suffix key ":burn_claim" then list_pastes keys'
      else pbind (lookupPaste (trim_prefix "paste:" key)) (λ r,
        match r with
        | inl ErrPasteNotFound => list_pastes keys'
        | inl e => Done (inl e)
        | inr (p, hasViewCounter) =>
            if hasViewCounter && (pm_RemainingViews (pa_Metadata p) <=? 0) then list_pastes keys'
            else pbind (list_pastes keys') (λ rest, Done match rest with inl e => inl e | inr l => inr (p :: l) end)
        end)
  end.

(** Newest first; [sort.Slice] leaves the order of equal times open. *)
Definition newer (p q : Paste) : Prop := pm_CreatedAt (pa_Metadata q) ≤ pm_CreatedAt (pa_Metadata p).
#[global] Instance newer_dec p q : Decision (newer p q) := decide (pm_CreatedAt (pa_Metadata q) ≤ pm_CreatedAt (pa_Metadata p)).

Definition ListAdmin : prog (PasteError + list Paste) :=
  Ask (CKeys "paste:*") (λ a,
    match a with
    | AList keys => pbind (list_pastes keys) (λ r, Done match r with inl e => inl e | inr l => inr (merge_sort newer l) end)
    | _ => Done (inl (ErrClient "list paste keys" (answer_error a)))
    end).
End service.

(** ** Requests at the same time *)

(** The server of the client: the answers that a command may have in a state, and
    the state after it. *)
Class RedisServer (W : Type) := { redis_step : W → Cmd → Answer → W → Prop }.

(** The programs of the requests, and the state of the cache, which may also
    change by itself when keys expire. *)
Inductive clip_step {W A} `{!RedisServer W} (expire : W → W → Prop) : W * list (prog A) → W * list (prog A) → Prop :=
  | cs_command w w' procs i c k a :
      procs !! i = Some (Ask c k) → redis_step w c a w' → clip_step expire (w, procs) (w', <[i := k a]> procs)
  | cs_expire w w' procs : expire w w' → clip_step expire (w, procs) (w', procs).
