(* ===== verification/ClipboardSpec.v ===== *)
(** * Who may read a paste, however the requests interleave

    Theorems about Clipboard.v, for any server that answers SETNX, DECR and DEL as
    documented: a burn-after-read paste is read once, and a paste with a view
    limit at most as often as its counter says. *)

From S2P Require Import Prelude Strconv Codec Handler Operator Program ProgramSpec Clipboard.
From stdpp Require Import options.

(** ** Requests *)

Inductive Request :=
  | QGet (code : string)
  | QCreate (entropy : nat → option (list byte)) (attempts now : Z) (r : CreatePasteRequest)
  | QDelete (code : string)
  | QList.

Inductive Response :=
  | RGet (r : PasteError + Paste)
  | RCreate (r : PasteError + Paste)
  | RDelete (r : PasteError + bool)
  | RList (r : PasteError + list Paste).

(** ** Keys *)

Definition colon_free (code : string) : Prop := x3a ∉ StringToBytes code.

(** The code under which the claim of a paste can be reached as if it were a paste. *)
Definition claim_code (code : string) : string := code +:+ ":burn_claim".

Lemma pasteKey_inj c1 c2 : pasteKey c1 = pasteKey c2 → c1 = c2.
Proof.
  intros E. apply (f_equal StringToBytes) in E. unfold pasteKey in E. rewrite !StringToBytes_app in E.
  by apply (inj (app (StringToBytes "paste:"))), (inj StringToBytes) in E.
Qed.

Lemma pasteKey_app c s : pasteKey c +:+ s = pasteKey (c +:+ s).
Proof. apply (inj StringToBytes). unfold pasteKey. by rewrite !StringToBytes_app, (assoc_L (++)). Qed.

Lemma suffix_inj c1 c2 s : c1 +:+ s = c2 +:+ s → c1 = c2.
Proof.
  intros E. apply (f_equal StringToBytes) in E. rewrite !StringToBytes_app in E.
  by apply (inj (λ l, l ++ StringToBytes s)), (inj StringToBytes) in E.
Qed.

(** The keys of counters and of claims are apart, and each belongs to one code. *)
Lemma keys_apart c1 c2 :
  viewsKey c1 ≠ burnClaimKey c2 ∧ (burnClaimKey c1 = burnClaimKey c2 → c1 = c2) ∧ (viewsKey c1 = viewsKey c2 → c1 = c2) ∧
  (pasteKey c1 = burnClaimKey c2 → c1 = claim_code c2) ∧ (pasteKey c1 = viewsKey c2 → c1 = c2 +:+ ":views_remaining").
Proof.
  unfold burnClaimKey, viewsKey. split_and!.
  - intros E. apply (f_equal (λ s, last (StringToBytes s))) in E. cbv beta in E. rewrite !StringToBytes_app, !last_app in E. done.
  - by intros ?%suffix_inj%pasteKey_inj.
  - by intros ?%suffix_inj%pasteKey_inj.
  - rewrite pasteKey_app. apply pasteKey_inj.
  - rewrite pasteKey_app. apply pasteKey_inj.
Qed.

(** The generated codes have no colon. *)
Lemma code_char_colon b : code_char b ≠ x3a.
Proof. by destruct b. Qed.

Lemma GenerateShortcode_colon_free e code : GenerateShortcode e = Some code → colon_free code.
Proof.
  destruct e as [buf|]; [|done]. cbn [GenerateShortcode]. destruct (Nat.ltb _ _); [done|]. intros [= <-]. unfold colon_free, str. rewrite StringToBytes_BytesToString.
  intros (b & E & _)%list_elem_of_fmap. by apply (code_char_colon b).
Qed.

(** ** Programs that send only some commands *)

Inductive only {A} (P : Cmd → Prop) (Q : A → Prop) : prog A → Prop :=
  | only_done a : Q a → only P Q (Done a)
  | only_ask c k : P c → (∀ a, only P Q (k a)) → only P Q (Ask c k).

Lemma only_bind {A B} (P : Cmd → Prop) (Q : A → Prop) (R : B → Prop) p f :
  only P Q p → (∀ a, Q a → only P R (f a)) → only P R (pbind p f).
Proof. induction 1 as [a Ha|c k Hc _ IH]; intros Hf; simpl; [by apply Hf|]. constructor; [done|]. intros a. by apply IH. Qed.

Lemma only_impl {A} (P P' : Cmd → Prop) (Q Q' : A → Prop) p :
  (∀ c, P c → P' c) → (∀ a, Q a → Q' a) → only P Q p → only P' Q' p.
Proof. intros HP HQ. induction 1; constructor; auto. Qed.

(** Commands that only read. *)
Definition reads (c : Cmd) : Prop := match c with CExists _ | CHGetAll _ | CGet _ | CKeys _ => True | _ => False end.

(** Peel a program: its commands by [auto], its results by the caller. *)
Ltac only_tac :=
  repeat (intros; match goal with
    | |- only _ _ (match ?x with _ => _ end) => destruct x eqn:?
    | |- only _ _ (Ask _ _) => apply only_ask
    | |- only _ _ (Done _) => apply only_done
    end).

Section service.
Context (format_time : Z → string) (parse_time : string → option Z) (parse_duration : string → option Z).

Definition request_prog (q : Request) : prog Response :=
  match q with
  | QGet code => pbind (Service_Get parse_time code) (λ r, Done (RGet r))
  | QCreate entropy attempts now r => pbind (Service_Create format_time parse_duration entropy attempts now r) (λ r, Done (RCreate r))
  | QDelete code => pbind (Service_Delete code) (λ r, Done (RDelete r))
  | QList => pbind (ListAdmin parse_time) (λ r, Done (RList r))
  end.

Definition found_code (code : string) (r : PasteError + Paste * bool) : Prop :=
  match r with inr (p, _) => pa_Code p = code | inl _ => True end.

Lemma lookup_only code : only reads (found_code code) (lookupPaste parse_time code).
Proof using Type. unfold lookupPaste. only_tac; done. Qed.

Lemma list_only keys : only reads (λ _, True) (list_pastes parse_time keys).
Proof using Type.
  induction keys as [|key keys IH]; cbn [list_pastes]; [by constructor|]. destruct (_ || _); [done|].
  eapply only_bind; [apply lookup_only|]. intros [e|[p hv]] _; [destruct e; (done || by constructor)|].
  destruct (_ && _); [done|]. eapply only_bind; [exact IH|]. intros r _. by constructor.
Qed.

Lemma ListAdmin_only : only reads (λ _, True) (ListAdmin parse_time).
Proof using Type.
  unfold ListAdmin. constructor; [done|]. intros []; try by constructor. eapply only_bind; [apply list_only|]. intros r _. by constructor.
Qed.

(** The codes that a creation may try. *)
Definition draws (entropy : nat → option (list byte)) (code : string) : Prop := ∃ i, GenerateShortcode (entropy i) = Some code.

(** The commands of a creation. *)
Definition creates (entropy : nat → option (list byte)) (c : Cmd) : Prop :=
  reads c ∨ ∃ code, draws entropy code ∧
    ((∃ f, c = CHSet (pasteKey code) f) ∨ (∃ t, c = CExpire (pasteKey code) t) ∨ ∃ v t, c = CSet (viewsKey code) v t).

Lemma unique_only n entropy :
  only reads (λ r, match r with inr code => draws entropy code | inl _ => True end)
    (unique_attempts n entropy
       (λ code, Ask (CExists (pasteKey code)) (λ a, match a with AInt n => Done (inr (0 <? n)) | _ => Done (inl (answer_error a)) end))).
Proof using Type.
  revert entropy. induction n as [|n IH]; intros entropy; cbn [unique_attempts]; [by constructor|].
  destruct (GenerateShortcode (entropy 0%nat)) as [code|] eqn:E; [|by constructor].
  cbn [pbind]. constructor; [done|]. intros []; cbn [pbind]; try by constructor. destruct (0 <? n0); [|constructor; by exists 0%nat].
  eapply only_impl, IH; [done|]. intros [e|c]; [done|]. intros [i Hi]. by exists (S i).
Qed.

Lemma Create_only entropy attempts now r :
  only (creates entropy) (λ _, True) (Service_Create format_time parse_duration entropy attempts now r).
Proof using Type.
  unfold Service_Create. destruct (ValidateCreateRequest r); [by constructor|]. destruct (ttlDuration _ _) as [e|ttl]; [by constructor|].
  eapply only_bind.
  { unfold GenerateUniqueShortcode. destruct (attempts <=? 0); [|eapply only_impl, unique_only; [by left|done]]. by constructor. }
  intros [e|code] Hc; [by constructor|]. unfold require. cbv zeta.
  assert (∀ what c k, creates entropy c → only (creates entropy) (λ _, True) k → only (creates entropy) (λ _ : PasteError + Paste, True)
    (Ask c (λ a, match a with AErr _ | ANil => Done (inl (ErrClient what (answer_error a))) | _ => k end))) as Hreq.
  { intros what c k H1 H2. constructor; [done|]. intros []; try done; by constructor. }
  apply (Hreq "store paste metadata"); [right; exists code; eauto|]. apply (Hreq "expire paste metadata"); [right; exists code; eauto|].
  destruct (HasViewLimit r); [|by constructor]. apply (Hreq "store paste view limit"); [right; exists code; eauto 10|by constructor].
Qed.
End service.

(** ** The server *)

(** The key is deleted, given a deadline or overwritten. *)
Definition unsettles (k : string) (c : Cmd) : Prop :=
  match c with CDel ks => k ∈ ks | CExpire k' _ | CSet k' _ _ => k' = k | _ => False end.

(** The key gets a value that is not its old one less one. *)
Definition assigns (k : string) (c : Cmd) : Prop :=
  match c with CSet k' _ _ | CSetNX k' _ | CHSet k' _ => k' = k | _ => False end.

(** [permanent]: the key exists and has no deadline. [counter]: the number that a
    key holds, 0 when it does not exist. Keys may expire in any step. *)
Class RedisLaws (W : Type) `{!RedisServer W} (expire : W → W → Prop) := {
  permanent : W → string → Prop;
  counter : W → string → Z;
  law_setnx w k v w' : redis_step w (CSetNX k v) (AInt 1) w' → ¬ permanent w k ∧ permanent w' k;
  law_permanent w c a w' k : redis_step w c a w' → permanent w k → ¬ unsettles k c → permanent w' k;
  law_permanent_expire w w' k : expire w w' → permanent w k → permanent w' k;
  law_decr w k n w' : redis_step w (CDecr k) (AInt n) w' → 0 ≤ n → counter w k = n + 1 ∧ counter w' k = n;
  law_counter w c a w' k : redis_step w c a w' → ¬ assigns k c → Z.max 0 (counter w' k) ≤ Z.max 0 (counter w k);
  law_counter_expire w w' k : expire w w' → Z.max 0 (counter w' k) ≤ Z.max 0 (counter w k)
}.

Section policy.
Context {W : Type} `{!RedisServer W} (expire : W → W → Prop) `{!RedisLaws W expire}.
Context (format_time : Z → string) (parse_time : string → option Z) (parse_duration : string → option Z).
Context (code : string).

Notation run := (rtc (clip_step expire)).
Notation start qs := (request_prog format_time parse_time parse_duration <$> qs).

(** *** Burn after read *)

(** The paste was read, and is to be burned. *)
Definition burned (r : Response) : Prop :=
  match r with RGet (inr p) => pa_Code p = code ∧ pm_BurnAfterRead (pa_Metadata p) = true | _ => False end.

Definition spares (c : Cmd) : Prop := ¬ unsettles (burnClaimKey code) c.

Definition claimed : prog Response → Prop := only spares (λ _, True).

(** To read the paste, a program has to claim it first. *)
Inductive unclaimed : prog Response → Prop :=
  | uc_done r : ¬ burned r → unclaimed (Done r)
  | uc_ask c k : spares c → (∀ a, unclaimed (k a)) → unclaimed (Ask c k)
  | uc_claim v k : (∀ a, a ≠ AInt 1 → unclaimed (k a)) → claimed (k (AInt 1)) → unclaimed (Ask (CSetNX (burnClaimKey code) v) k).

Lemma only_unclaimed p : only spares (λ r, ¬ burned r) p → unclaimed p.
Proof using Type. induction 1; [by constructor|]. by apply uc_ask. Qed.

Lemma unclaimed_bind {A} (Q : A → Prop) p f : only spares Q p → (∀ a, Q a → unclaimed (f a)) → unclaimed (pbind p f).
Proof using Type. induction 1 as [a Ha|c k Hc _ IH]; intros Hf; simpl; [by apply Hf|]. apply uc_ask; [done|]. intros a. by apply IH. Qed.

Lemma unclaimed_bind2 {A B} (Q : A → Prop) p (f : A → prog B) g :
  only spares Q p → (∀ a, Q a → unclaimed (pbind (f a) g)) → unclaimed (pbind (pbind p f) g).
Proof using Type. induction 1 as [a Ha|c k Hc _ IH]; intros Hf; simpl; [by apply Hf|]. apply uc_ask; [done|]. intros a. by apply IH. Qed.

(** All are unclaimed, or one holds the claim. *)
Definition one_claim (s : W * list (prog Response)) : Prop :=
  (∀ j p, s.2 !! j = Some p → unclaimed p) ∨
  permanent s.1 (burnClaimKey code) ∧ ∃ i, ∀ j p, s.2 !! j = Some p → if decide (j = i) then claimed p else unclaimed p.

Lemma spares_step w c a w' : redis_step w c a w' → spares c → permanent w (burnClaimKey code) → permanent w' (burnClaimKey code).
Proof using Type*. intros Hs Hc Hp. by eapply law_permanent. Qed.

(** One program goes on. *)
Lemma put_proc (T : nat → prog Response → Prop) procs i q :
  (i < length procs)%nat → (∀ j p, j ≠ i → procs !! j = Some p → T j p) → T i q → ∀ j p, <[i := q]> procs !! j = Some p → T j p.
Proof using Type.
  intros Hlt HT Hq j p Hj. destruct (decide (j = i)) as [->|Hne].
  - rewrite list_lookup_insert_eq in Hj by done. by injection Hj as <-.
  - rewrite list_lookup_insert_ne in Hj by done. by apply HT.
Qed.

Lemma granted (a : Answer) : a = AInt 1 ∨ a ≠ AInt 1.
Proof using Type. destruct a; try by right. destruct (decide (n = 1)) as [->|]; [by left|right; congruence]. Qed.

Lemma one_claim_step s s' : one_claim s → clip_step expire s s' → one_claim s'.
Proof using Type*.
  intros HI Hs. destruct Hs as [w w' procs i c k a Hi Hr|w w' procs He]; unfold one_claim in *; cbn [fst snd] in *; cycle 1.
  { destruct HI as [H|[Hp H]]; [by left|right]. split; [by eapply law_permanent_expire|done]. }
  pose proof (lookup_lt_Some _ _ _ Hi) as Hlt. destruct HI as [H|[Hp [i0 H]]].
  - pose proof (H i _ Hi) as Hu. inversion Hu as [|c' k' Hc Hk|v k' Hn Hy]; subst.
    + left. apply (put_proc (λ _, unclaimed)); eauto.
    + destruct (granted a) as [->|Ha]; [right|left; apply (put_proc (λ _, unclaimed)); eauto].
      destruct (law_setnx _ _ _ _ Hr) as [_ Hp]. split; [done|]. exists i.
      apply (put_proc (λ j p, if decide (j = i) then claimed p else unclaimed p)); [done| |by rewrite decide_True].
      intros j p Hj Hl. rewrite decide_False by done. eauto.
  - assert (permanent w' (burnClaimKey code) ∧ if decide (i = i0) then claimed (k a) else unclaimed (k a)) as [Hp' Hq].
    { pose proof (H i _ Hi) as Hc. destruct (decide (i = i0)).
      - inversion Hc as [|c' k' Hc' Hk]; subst. split; [by eapply spares_step|apply Hk].
      - inversion Hc as [|c' k' Hc' Hk|v k' Hn Hy]; subst; [by split; [eapply spares_step|auto]|].
        destruct (granted a) as [->|Ha]; [by destruct (law_setnx _ _ _ _ Hr)|]. split; [|auto]. eapply spares_step; [done| |done]. by intros []. }
    right. split; [done|]. exists i0. apply (put_proc (λ j p, if decide (j = i0) then claimed p else unclaimed p));
      [done|intros j p _ Hj; by apply H|done].
Qed.

Lemma reads_spare c : reads c → spares c.
Proof using Type. intros Hr. by destruct c; try destruct Hr; intros []. Qed.

Lemma drawn_apart entropy code' : draws entropy code' → pasteKey code' ≠ burnClaimKey code ∧ pasteKey code' ≠ viewsKey code.
Proof using Type.
  intros [i Hf%GenerateShortcode_colon_free]. destruct (keys_apart code' code) as (_ & _ & _ & K4 & K5).
  split; intros E; [apply K4 in E as ->|apply K5 in E as ->]; apply Hf; unfold claim_code; rewrite StringToBytes_app, elem_of_app; right; by left.
Qed.

Lemma creates_spare entropy c : creates entropy c → spares c.
Proof using Type.
  intros [H|(code' & Hd & [[f ->]|[[t ->]|(v & t & ->)]])]; [by apply reads_spare|by intros []|..]; unfold spares, unsettles;
    [by apply (drawn_apart entropy)|apply keys_apart].
Qed.

(** The commands of [Get] for a code, after the claim. *)
Lemma read_only code' p hv :
  code' ≠ claim_code code → pa_Code p = code' →
  only spares (λ r, match r with inr p' => pa_Code p' = code' ∧ pm_BurnAfterRead (pa_Metadata p') = pm_BurnAfterRead (pa_Metadata p) | inl _ => True end)
    (count_view code' p hv).
Proof using Type.
  intros Hf Hp. destruct (keys_apart code' code) as (K1 & _ & _ & K4 & _).
  assert (spares (CDel [pasteKey code'; viewsKey code'])) as Hd.
  { unfold spares, unsettles. rewrite !elem_of_cons. intros [E|[E|E%elem_of_nil]]; [by apply Hf, K4|congruence|done]. }
  unfold count_view, finish_read. only_tac; try done; try (split; simpl in *; congruence); unfold spares; by intros [].
Qed.

Ltac not_burned := apply uc_done; by intros [].

Lemma Get_unclaimed code' : code' ≠ claim_code code → unclaimed (pbind (Service_Get parse_time code') (λ r, Done (RGet r))).
Proof using Type.
  intros Hf. assert (∀ p hv, pa_Code p = code' → only spares (λ r, ∀ p', r = RGet (inr p') → pa_Code p' = code' ∧
      pm_BurnAfterRead (pa_Metadata p') = pm_BurnAfterRead (pa_Metadata p)) (pbind (count_view code' p hv) (λ r, Done (RGet r)))) as Hcount.
  { intros p hv Hp. eapply only_bind; [by apply read_only|]. intros [e|p'] H; constructor; [done|]. by intros ? [= <-]. }
  unfold Service_Get. eapply unclaimed_bind2; [eapply only_impl, lookup_only; [apply reads_spare|done]|].
  intros [e|[p hv]] Hp; cbn [found_code pbind] in *; [solve [not_burned]|].
  destruct (pm_BurnAfterRead (pa_Metadata p)) eqn:Hb; cycle 1.
  { apply only_unclaimed. eapply only_impl, Hcount; [done| |done]. intros r Hr. destruct r as [[|p']| | |]; try by intros [].
    intros [_ Hx]. destruct (Hr p' eq_refl). congruence. }
  cbn [pbind]. destruct (decide (code' = code)) as [->|Hne].
  - apply uc_claim.
    + intros a Ha. destruct a; try solve [not_burned]. destruct (Z.eqb_spec n 1) as [->|]; [done|solve [not_burned]].
    + cbn [Z.eqb Pos.eqb]. by eapply only_impl, Hcount.
  - apply uc_ask; [by intros []|]. intros []; try solve [not_burned]. destruct (n =? 1); [|solve [not_burned]].
    apply only_unclaimed. eapply only_impl, Hcount; [done| |done]. intros r Hr. destruct r as [[|p']| | |]; try by intros [].
    intros [Hx _]. destruct (Hr p' eq_refl). congruence.
Qed.

(** The request leaves the claim of the paste alone. *)
Definition leaves_claim (q : Request) : Prop :=
  match q with QGet c => c ≠ claim_code code | QDelete c => c ≠ claim_code code ∧ c ≠ code | _ => True end.

Lemma request_unclaimed q : leaves_claim q → unclaimed (request_prog format_time parse_time parse_duration q).
Proof using Type.
  destruct q as [c|entropy attempts now r|c|]; intros Hq; cbn [request_prog].
  - by apply Get_unclaimed.
  - eapply unclaimed_bind; [eapply only_impl, Create_only; [apply creates_spare|done]|]. intros x _. solve [not_burned].
  - destruct Hq as [Hf Hne]. destruct (keys_apart c code) as (K1 & K2 & _ & K4 & _). unfold Service_Delete. cbn [pbind].
    apply uc_ask; [|intros []; not_burned]. unfold spares, unsettles. rewrite !elem_of_cons. intros [E|[E|[E|E%elem_of_nil]]];
      [by apply Hf, K4|congruence|by apply Hne, K2|done].
  - eapply unclaimed_bind; [eapply only_impl, ListAdmin_only; [apply reads_spare|done]|]. intros x _. solve [not_burned].
Qed.

(** *** View limits *)

(** The paste was read, and a view of it was counted. *)
Definition counted (r : Response) : Prop :=
  match r with RGet (inr p) => pa_Code p = code ∧ 0 < pm_RemainingViews (pa_Metadata p) | _ => False end.

#[export] Instance counted_dec r : Decision (counted r).
Proof using Type. destruct r as [[|p]| | |]; cbn; apply _. Defined.

Definition keeps_count (c : Cmd) : Prop := ¬ assigns (viewsKey code) c.

Definition paid : prog Response → Prop := only keeps_count (λ _, True).

(** To read the paste with a view counted, a program has to count it down. *)
Inductive unpaid : prog Response → Prop :=
  | up_done r : ¬ counted r → unpaid (Done r)
  | up_ask c k : keeps_count c → (∀ a, unpaid (k a)) → unpaid (Ask c k)
  | up_decr k : (∀ a, (∀ n, a = AInt n → n < 0) → unpaid (k a)) → (∀ n, 0 ≤ n → paid (k (AInt n))) →
      unpaid (Ask (CDecr (viewsKey code)) k).

Lemma unpaid_bind {A} (Q : A → Prop) p f : only keeps_count Q p → (∀ a, Q a → unpaid (f a)) → unpaid (pbind p f).
Proof using Type. induction 1 as [a Ha|c k Hc _ IH]; intros Hf; simpl; [by apply Hf|]. apply up_ask; [done|]. intros a. by apply IH. Qed.

Lemma unpaid_bind2 {A B} (Q : A → Prop) p (f : A → prog B) g :
  only keeps_count Q p → (∀ a, Q a → unpaid (pbind (f a) g)) → unpaid (pbind (pbind p f) g).
Proof using Type. induction 1 as [a Ha|c k Hc _ IH]; intros Hf; simpl; [by apply Hf|]. apply up_ask; [done|]. intros a. by apply IH. Qed.

Definition token_ok (p : prog Response) (t : nat) : Prop := (t = 0%nat ∧ unpaid p) ∨ (t = 1%nat ∧ paid p).

(** The views that were counted and those that are left. *)
Definition within_limit (n : Z) (s : W * list (prog Response)) : Prop :=
  ∃ tokens, Forall2 token_ok s.2 tokens ∧ Z.of_nat (sum_list tokens) + Z.max 0 (counter s.1 (viewsKey code)) ≤ n.

Lemma sum_list_insert (l : list nat) i t t' : l !! i = Some t → (sum_list (<[i := t']> l) + t = sum_list l + t')%nat.
Proof using Type.
  revert i. induction l as [|x l IH]; intros [|i] Hi; simpl in *; try done; [injection Hi as ->; lia|]. specialize (IH i Hi). lia.
Qed.

Lemma within_limit_step n s s' : within_limit n s → clip_step expire s s' → within_limit n s'.
Proof using Type*.
  intros (tokens & Hf & Hn) Hs. destruct Hs as [w w' procs i c k a Hi Hr|w w' procs He]; unfold within_limit; cbn [fst snd] in *; cycle 1.
  { exists tokens. split; [done|]. pose proof (law_counter_expire _ _ (viewsKey code) He). lia. }
  destruct (Forall2_lookup_l _ _ _ _ _ Hf Hi) as (t & Ht & Hok).
  assert (∀ t', token_ok (k a) t' → (Z.of_nat t' + Z.max 0 (counter w' (viewsKey code)) ≤ Z.of_nat t + Z.max 0 (counter w (viewsKey code)))%Z →
    ∃ tokens, Forall2 token_ok (<[i := k a]> procs) tokens ∧ Z.of_nat (sum_list tokens) + Z.max 0 (counter w' (viewsKey code)) ≤ n) as Hput.
  { intros t' Hk Hc. exists (<[i := t']> tokens). split; [by apply Forall2_insert|]. pose proof (sum_list_insert tokens i t t' Ht). lia. }
  destruct Hok as [[-> Hu]|[-> Hp]].
  - inversion Hu as [|c' k' Hc Hk|k' Hk1 Hk2]; subst.
    + apply (Hput 0%nat); [left; auto|]. pose proof (law_counter _ _ _ _ (viewsKey code) Hr Hc). lia.
    + assert ((∃ m, a = AInt m ∧ 0 ≤ m) ∨ ∀ m, a = AInt m → m < 0) as [(m & -> & Hm)|Hneg].
      { destruct a; try (by right). destruct (decide (0 ≤ n0)); [left; eauto|right; intros m [= <-]; lia]. }
      * destruct (law_decr _ _ _ _ Hr Hm) as [H1 H2]. apply (Hput 1%nat); [right; auto|lia].
      * apply (Hput 0%nat); [left; auto|]. pose proof (law_counter _ _ _ _ (viewsKey code) Hr (λ F, F)). lia.
  - inversion Hp as [|c' k' Hc Hk]; subst. apply (Hput 1%nat); [right; split; [done|apply Hk]|].
    pose proof (law_counter _ _ _ _ (viewsKey code) Hr Hc). lia.
Qed.

Lemma only_unpaid p : only keeps_count (λ r, ¬ counted r) p → unpaid p.
Proof using Type. induction 1; [by constructor|]. by apply up_ask. Qed.

Ltac not_counted := apply up_done; by intros [].

Lemma reads_keep c : reads c → keeps_count c.
Proof using Type. intros Hr. by destruct c; try destruct Hr; intros []. Qed.

Lemma finish_only code' p : only keeps_count (λ r, r = RGet (inr p) ∨ ∃ e, r = RGet (inl e)) (pbind (finish_read code' p) (λ r, Done (RGet r))).
Proof using Type.
  unfold finish_read. destruct (pm_BurnAfterRead _); cbn [pbind]; [|constructor; auto].
  constructor; [by intros []|]. intros []; cbn [pbind]; constructor; eauto.
Qed.

Lemma count_unpaid code' p hv :
  pa_Code p = code' → unpaid (pbind (count_view code' p hv) (λ r, Done (RGet r))).
Proof using Type.
  intros Hp. assert (∀ p', pa_Code p' = code' → (code' = code → pm_RemainingViews (pa_Metadata p') ≤ 0) →
    unpaid (pbind (finish_read code' p') (λ r, Done (RGet r)))) as Hfin.
  { intros p' Hc Hv. apply only_unpaid. eapply only_impl, finish_only; [done|]. intros r [->|[e ->]]; [|by intros []].
    intros [H1 H2]. specialize (Hv ltac:(congruence)). lia. }
  unfold count_view. destruct (hv && (pm_RemainingViews (pa_Metadata p) <=? 0)); cbn [pbind]; [not_counted|].
  destruct (Z.ltb_spec 0 (pm_RemainingViews (pa_Metadata p))); [|by apply Hfin].
  cbn [pbind]. destruct (decide (code' = code)) as [->|Hne].
  - apply up_decr.
    + intros a Ha. destruct a; cbn [pbind]; try not_counted. rewrite (proj2 (Z.ltb_lt n 0)) by (by apply Ha). cbn [pbind]. not_counted.
    + intros n Hn. rewrite (proj2 (Z.ltb_ge n 0)) by done. by eapply only_impl, finish_only.
  - apply up_ask; [by intros []|]. intros a. destruct a; cbn [pbind]; try not_counted. destruct (n <? 0); cbn [pbind]; [not_counted|].
    by apply Hfin.
Qed.

Lemma creates_keep entropy c : ¬ draws entropy code → creates entropy c → keeps_count c.
Proof using Type.
  intros Hn [H|(code' & Hd & [[f ->]|[[t ->]|(v & t & ->)]])]; [by apply reads_keep| |by intros []|]; unfold keeps_count, assigns.
  - by apply (drawn_apart entropy).
  - intros E. apply keys_apart in E as ->. done.
Qed.

(** The request gives no new paste the code. *)
Definition leaves_code (q : Request) : Prop := match q with QCreate entropy _ _ _ => ¬ draws entropy code | _ => True end.

Lemma request_unpaid q : leaves_code q → unpaid (request_prog format_time parse_time parse_duration q).
Proof using Type.
  destruct q as [c|entropy attempts now r|c|]; intros Hq; cbn [request_prog].
  - unfold Service_Get. eapply unpaid_bind2; [eapply only_impl, lookup_only; [apply reads_keep|done]|].
    intros [e|[p hv]] Hp; cbn [found_code pbind] in *; [not_counted|].
    destruct (pm_BurnAfterRead (pa_Metadata p)); [|by apply count_unpaid].
    cbn [pbind]. apply up_ask.
    { unfold keeps_count, assigns. intros E. by apply (proj1 (keys_apart code c)). }
    intros []; cbn [pbind]; try not_counted. destruct (n =? 1); [by apply count_unpaid|not_counted].
  - eapply unpaid_bind; [eapply only_impl, Create_only; [by intros c; apply (creates_keep entropy c)|done]|]. intros x _. not_counted.
  - unfold Service_Delete. cbn [pbind]. apply up_ask; [by intros []|]. intros []; cbn [pbind]; not_counted.
  - eapply unpaid_bind; [eapply only_impl, ListAdmin_only; [apply reads_keep|done]|]. intros x _. not_counted.
Qed.

(** The requests that were answered, with their answers. *)
Definition answered (T : Response → Prop) `{!∀ r, Decision (T r)} (procs : list (prog Response)) : nat :=
  length (filter (λ p, match p with Done r => bool_decide (T r) | Ask _ _ => false end = true) procs).

Lemma tokens_count procs tokens : Forall2 token_ok procs tokens → (answered counted procs ≤ sum_list tokens)%nat.
Proof using Type.
  unfold answered. induction 1 as [|p t procs tokens Hok _ IH]; [done|]. rewrite filter_cons. change (sum_list (t :: tokens)) with (t + sum_list tokens)%nat.
  destruct (decide _) as [Hd|_]; cbn [length]; [|lia]. destruct p as [r|]; [|done]. apply bool_decide_eq_true in Hd.
  destruct Hok as [[-> Hu]|[-> _]]; [|lia]. by inversion Hu.
Qed.
End policy.

(** C36: However the requests of the clipboard interleave, a paste is not read more
    often than its policy allows. Of all requests for a burn-after-read paste at
    most one is answered with it, as long as no request deletes the paste and none
    names the key of its claim as if it were a paste (see
    [claim_deleted_by_code]). Of the requests for a paste with a view limit at
    most as many are answered with a view counted as the counter had at the start,
    as long as no creation gives a new paste the same code. *)
Theorem paste_read_within_policy {W} `{!RedisServer W} expire `{!RedisLaws W expire} format_time parse_time parse_duration code qs
    (w w' : W) procs :
  rtc (clip_step expire) (w, request_prog format_time parse_time parse_duration <$> qs) (w', procs) →
  (Forall (leaves_claim code) qs →
     ∀ i j ri rj, procs !! i = Some (Done ri) → procs !! j = Some (Done rj) → burned code ri → burned code rj → i = j) ∧
  (Forall (leaves_code code) qs →
     Z.of_nat (answered (counted code) procs) ≤ Z.max 0 (counter w (viewsKey code))).
Proof.
  intros Hrun. split; intros Hall; rewrite Forall_forall in Hall.
  - assert (one_claim expire code (w', procs)) as Hinv.
    { revert Hrun. apply (rtc_ind_r (λ s, one_claim expire code s)); [|intros s s' _ Hs IH; by eapply one_claim_step].
      left. cbn [snd]. intros j p Hj. rewrite list_lookup_fmap in Hj. destruct (qs !! j) as [q|] eqn:Hq; [|done]. injection Hj as <-.
      apply list_elem_of_lookup_2 in Hq. by apply request_unclaimed, Hall. }
    intros i j ri rj Hi Hj Bi Bj. destruct Hinv as [H|[_ [i0 H]]]; [pose proof (H i _ Hi) as Hu; by inversion Hu|].
    assert (∀ x r, procs !! x = Some (Done r) → burned code r → x = i0) as Hx; [|by rewrite (Hx i ri), (Hx j rj)].
    intros x r Hr B. pose proof (H x _ Hr) as Hu. destruct (decide (x = i0)); [done|]. by inversion Hu.
  - assert (within_limit expire code (Z.max 0 (counter w (viewsKey code))) (w', procs)) as (tokens & Hf & Hn).
    { revert Hrun. apply (rtc_ind_r (λ s, within_limit expire code _ s)); [|intros s s' _ Hs IH; by eapply within_limit_step].
      exists (replicate (length qs) 0%nat). cbn [fst snd]. split.
      - rewrite <-(length_fmap (request_prog format_time parse_time parse_duration) qs). apply Forall2_replicate_r; [done|].
        apply Forall_fmap, Forall_forall. intros q Hq. left. split; [done|]. by apply request_unpaid, Hall.
      - clear. induction qs; simpl in *; lia. }
    pose proof (tokens_count code procs tokens Hf). cbn [fst] in Hn. lia.
Qed.

(** ** A small server *)

Record demo_redis := mkRedis { dr_hashes : gmap string (gmap string string); dr_strings : gmap string string }.

Definition demo_number (s : string) : Z := default 0 (strconv_ParseInt (StringToBytes s)).

(** Keys without deadlines. *)
Definition demo_exec (w : demo_redis) (c : Cmd) : Answer * demo_redis :=
  match c with
  | CHSet k f => (AInt 1, mkRedis (<[k := f]> (dr_hashes w)) (dr_strings w))
  | CSet k v _ => (AOk, mkRedis (dr_hashes w) (<[k := v]> (dr_strings w)))
  | CHGetAll k => (AMap (default ∅ (dr_hashes w !! k)), w)
  | CGet k => (match dr_strings w !! k with Some s => AStr s | None => ANil end, w)
  | CSetNX k v => match dr_strings w !! k with Some _ => (AInt 0, w) | None => (AInt 1, mkRedis (dr_hashes w) (<[k := v]> (dr_strings w))) end
  | CDecr k =>
      let n := default 0 (demo_number <$> dr_strings w !! k) - 1 in
      if (n <? - 2 ^ 63) || (2 ^ 63 <=? n) then (AErr "overflow", w) else (AInt n, mkRedis (dr_hashes w) (<[k := itoa n]> (dr_strings w)))
  | CDel ks => (AInt 1, mkRedis (foldr delete (dr_hashes w) ks) (foldr delete (dr_strings w) ks))
  | CExists k => (AInt (if bool_decide (is_Some (dr_hashes w !! k)) then 1 else 0), w)
  | CExpire _ _ => (AInt 1, w)
  | CKeys _ => (AList [], w)
  end.

#[local] Instance demo_server : RedisServer demo_redis := {| redis_step w c a w' := demo_exec w c = (a, w') |}.

Definition never (w w' : demo_redis) : Prop := False.

Lemma foldr_delete_notin (m : gmap string string) ks k : k ∉ ks → foldr delete m ks !! k = m !! k.
Proof. induction ks as [|x ks IH]; intros Hk; [done|]. apply not_elem_of_cons in Hk as [H1 H2]. simpl. by rewrite lookup_delete_ne, IH. Qed.

Lemma foldr_delete_in (m : gmap string string) ks k : k ∈ ks → foldr delete m ks !! k = None.
Proof.
  induction ks as [|x ks IH]; [by intros ?%elem_of_nil|]. intros [->|Hk]%elem_of_cons; simpl; [by rewrite lookup_delete_eq|].
  destruct (decide (x = k)) as [->|]; [by rewrite lookup_delete_eq|]. rewrite lookup_delete_ne by done. by apply IH.
Qed.

Lemma demo_number_itoa n : is_i64 n → demo_number (itoa n) = n.
Proof. intros Hn. unfold demo_number, itoa. by rewrite StringToBytes_BytesToString, ParseInt_strconv. Qed.

#[local] Instance demo_laws : RedisLaws demo_redis never.
Proof.
  refine {| permanent w k := is_Some (dr_strings w !! k); counter w k := default 0 (demo_number <$> dr_strings w !! k) |}.
  - intros w k v w' Hs. simpl in Hs. destruct (dr_strings w !! k) eqn:E; [done|]. injection Hs as <-. simpl. rewrite lookup_insert_eq. split; [by intros []|done].
  - intros w c a w' k Hs Hp Hu. destruct c as [| |? ?|k' ? ?| | |k' ?|k'|ks|]; simpl in Hs; simplify_eq; try done; simpl in *.
    + by rewrite lookup_insert_ne.
    + destruct (dr_strings w !! k') eqn:E; simplify_eq; [done|]. simpl. destruct (decide (k' = k)) as [->|]; [by rewrite lookup_insert_eq|by rewrite lookup_insert_ne].
    + destruct (_ || _); simplify_eq; [done|]. simpl. destruct (decide (k' = k)) as [->|]; [by rewrite lookup_insert_eq|by rewrite lookup_insert_ne].
    + by rewrite foldr_delete_notin.
  - by intros w w' k [].
  - intros w k n w' Hs Hn. simpl in Hs. destruct (_ || _) eqn:Hr; simplify_eq. simpl. rewrite lookup_insert_eq. simpl.
    split; [lia|]. apply demo_number_itoa. unfold is_i64. lia.
  - intros w c a w' k Hs Ha. destruct c as [| |? ?|k' ? ?| | |k' ?|k'|ks|]; simpl in Hs; simplify_eq; try done; simpl in *.
    + by rewrite lookup_insert_ne.
    + destruct (dr_strings w !! k') eqn:E; simplify_eq; [done|]. simpl. by rewrite lookup_insert_ne.
    + destruct (_ || _) eqn:Hr; simplify_eq; [done|]. simpl. destruct (decide (k' = k)) as [->|]; [|by rewrite lookup_insert_ne].
      rewrite lookup_insert_eq. simpl. rewrite demo_number_itoa by (unfold is_i64; lia). lia.
    + destruct (decide (k ∈ ks)); [rewrite foldr_delete_in by done; simpl; lia|by rewrite foldr_delete_notin].
  - by intros w w' k [].
Defined.

(** Program [i] takes a step, for each [i] of the schedule. *)
Fixpoint scheduled (l : list nat) (s : demo_redis * list (prog Response)) : demo_redis * list (prog Response) :=
  match l with
  | [] => s
  | i :: l' =>
      scheduled l' match s.2 !! i with
                   | Some (Ask c k) => let '(a, w') := demo_exec s.1 c in (w', <[i := k a]> s.2)
                   | _ => s
                   end
  end.

Lemma scheduled_run l s : rtc (clip_step never) s (scheduled l s).
Proof.
  revert s. induction l as [|i l IH]; intros [w procs]; cbn [scheduled fst snd]; [done|].
  destruct (procs !! i) as [[r|c k]|] eqn:E; [apply IH| |apply IH]. destruct (demo_exec w c) as [a w'] eqn:Ex.
  eapply rtc_l; [exact (cs_command never w w' procs i c k a E Ex)|]. apply IH.
Qed.

(** A burn-after-read paste, and one with a limit of one view. *)
Definition demo_pastes : demo_redis :=
  mkRedis {["paste:abc" := {["content" := "secret"; "burn_after_read" := "true"]}; "paste:xyz" := {["content" := "text"; "burn_after_read" := "false"]}]}
    {["paste:xyz:views_remaining" := "1"]}.

Definition demo_requests : list Request := [QGet "abc"; QGet "abc"; QGet "xyz"; QGet "xyz"].

(** Both requests of a pair look the paste up before either goes on. *)
Definition demo_end : demo_redis * list (prog Response) :=
  scheduled [0; 1; 0; 1; 2; 3; 2; 3; 1; 0; 1; 3; 2]%nat
    (demo_pastes, request_prog (λ _, "") (λ _, Some 0) (λ _, Some 0) <$> demo_requests).

Lemma paste_read_within_policy_witness :
  (∃ p, demo_end.2 !! 1%nat = Some (Done (RGet (inr p))) ∧ pa_Content p = "secret" ∧ demo_end.2 !! 0%nat = Some (Done (RGet (inl ErrPasteNotFound)))) ∧
  answered (counted "xyz") demo_end.2 = 1%nat ∧ Z.of_nat (answered (counted "xyz") demo_end.2) ≤ 1 ∧
  ∀ i ri, demo_end.2 !! i = Some (Done ri) → burned "abc" ri → i = 1%nat.
Proof.
  assert (rtc (clip_step never) (demo_pastes, request_prog (λ _, "") (λ _, Some 0) (λ _, Some 0) <$> demo_requests) (demo_end.1, demo_end.2)) as Hrun
    by (rewrite <-surjective_pairing; apply scheduled_run).
  assert (Forall (leaves_claim "abc") demo_requests) as Hnd by (by repeat constructor).
  split; [eexists; split_and!; vm_compute; reflexivity|]. split; [vm_compute; reflexivity|]. split.
  - destruct (paste_read_within_policy never (λ _, "") (λ _, Some 0) (λ _, Some 0) "xyz" demo_requests demo_pastes demo_end.1 demo_end.2 Hrun)
      as [_ H]. assert (Z.max 0 (counter demo_pastes (viewsKey "xyz")) = 1) as E by (vm_compute; reflexivity). rewrite E in H.
    apply H. by repeat constructor.
  - intros i ri Hi Hb. assert (∃ p, demo_end.2 !! 1%nat = Some (Done (RGet (inr p))) ∧ burned "abc" (RGet (inr p))) as (p & Hp & Hb1)
      by (eexists; split; [vm_compute; reflexivity|vm_compute; split; reflexivity]).
    destruct (paste_read_within_policy never (λ _, "") (λ _, Some 0) (λ _, Some 0) "abc" demo_requests demo_pastes demo_end.1 demo_end.2 Hrun)
      as [H _]. exact (H Hnd i 1%nat ri (RGet (inr p)) Hi Hp Hb Hb1).
Defined.

(** Two requests look a burn-after-read paste up; the first claims it and is
    answered; then the claim is deleted by a request for the code
    [abc:burn_claim], and the second is answered with the paste as well. *)
Theorem claim_deleted_by_code :
  let s := scheduled [0; 0; 1; 1; 0; 0; 2; 1; 1]%nat
    (demo_pastes, request_prog (λ _, "") (λ _, Some 0) (λ _, Some 0) <$> [QGet "abc"; QGet "abc"; QDelete "abc:burn_claim"]) in
  ∃ r0 r1, s.2 !! 0%nat = Some (Done r0) ∧ s.2 !! 1%nat = Some (Done r1) ∧ burned "abc" r0 ∧ burned "abc" r1.
Proof. eexists _, _. split; [vm_compute; reflexivity|]. split; [vm_compute; reflexivity|]. split; vm_compute; split; reflexivity. Qed.
