(* ===== verification/HandlerSpec.v ===== *)
(** * Commands on the memory store

    What a replicated SET leaves on the primary and on a replica that receives
    it, and what TTL answers for a key without a deadline. *)

From S2P Require Import Prelude Hash Strconv Wire Cache Store Objects StoreView ObjectSpec StringSpec Slots Gossip SlotsSpec Replication Cluster ClusterSpec Protocol Engine Handler ClusterCmd Server ServerSpec.
From stdpp Require Import options.

(** ** Payloads *)

(** The bytes before the first NUL. *)
Definition before_nul (v : list byte) : list byte := default [] (head (split_nul v)).

Lemma split_nul_cons v : ∃ rest, split_nul v = before_nul v :: rest.
Proof.
  unfold before_nul. destruct v as [|b v]; [by eexists|]. simpl. case_bool_decide; [by eexists|].
  destruct (split_nul v); by eexists.
Qed.

Lemma before_nul_app v rest : before_nul (v ++ x00 :: rest) = before_nul v.
Proof.
  unfold before_nul. induction v as [|b v IH]; [done|]. simpl. case_bool_decide; [done|].
  destruct (split_nul_cons v) as (r1 & H1), (split_nul_cons (v ++ x00 :: rest)) as (r2 & H2).
  rewrite H1, H2. simpl. unfold before_nul. by rewrite IH.
Qed.

Lemma before_nul_id v : no_nul v → before_nul v = v.
Proof. intros H. unfold before_nul. by rewrite split_nul_last. Qed.

(** The payload of SET key value options, as the replica reads it. *)
Lemma set_payload k v opts :
  no_nul k → ∃ rest, decodeReplicationPayload (encodeReplicationPayload (k :: v :: opts)) = str k :: str (before_nul v) :: rest.
Proof.
  intros Hk. unfold decodeReplicationPayload, encodeReplicationPayload.
  change (join_nul (k :: v :: opts)) with (k ++ x00 :: join_nul (v :: opts)).
  rewrite split_nul_prefix by done.
  assert (before_nul (join_nul (v :: opts)) = before_nul v) as Hb.
  { destruct opts as [|o opts]; [done|]. apply before_nul_app. }
  destruct (split_nul_cons (join_nul (v :: opts))) as (rest & ->). rewrite Hb.
  destruct (k ++ x00 :: join_nul (v :: opts)) eqn:E; [by destruct k|]. by eexists.
Qed.

(** ** The log *)

Lemma Append_last s op s' :
  0 < ls_limit s → LogStore_Append s op = (inr tt, s') → last (log_of s' (op_Slot op)) = Some op.
Proof.
  intros Hl. unfold LogStore_Append. cbv zeta. destruct (negb _); [done|]. intros [= <-].
  unfold log_of at 1. cbn [ls_logs]. rewrite lookup_insert_eq. cbn [default id from_option].
  rewrite length_app. cbn [length]. unfold id.
  destruct (_ <? _) eqn:Elt; [|by rewrite last_snoc].
  rewrite drop_app_le; [by rewrite last_snoc|]. apply Z.ltb_lt in Elt. lia.
Qed.

Lemma dispatch_keeps_logs `{!GoRange string Z} write resolve m op : mg_logs (dispatch write resolve m op) = mg_logs m.
Proof. unfold dispatch. destruct (Replication.Broadcast _ _ _) as [[? ?] ?]. by destruct resolve. Qed.

Section memory.
Context `{!GoRange Z Z} `{!GoRange string unit} `{!GoRange string (Dict.Entry typedValue)}.
Context `{!GoRange string string} `{!GoRange string float64} `{!GoRange string Z}.
Context (path_match : string → string → bool) (parse_float : list byte → option float64) (json_error : list byte → string).

#[local] Instance memory_engine : ProtocolEngine Store := MemoryStoreAdapter path_match parse_float json_error.

(** ** A replicated SET *)

(** A replica that can take the value under the key. *)
Record can_store (s : Store) (key : string) (value : list byte) : Prop := {
  cs_wf : store_wf s;
  cs_evictor : st_evictor s = None;
  cs_room : has_room (st_cache s) key value
}.

Lemma key_cell_updated env s s' key c o : key_updated env s s' key c o → key_cell s' key = c.
Proof.
  intros [_ Hseed _ Hc _]. unfold key_cell at 1. rewrite Hc. unfold key_hash, cache_hash. by rewrite Hseed, decide_True.
Qed.

Lemma set_on_replica env op (h : Handler Store) cn k v opts :
  op_OpType op = "SET" → op_Key op = str k → op_Payload op = encodeReplicationPayload (k :: v :: opts) → no_nul k →
  is_i64 (op_ExpireAtNs op) → 0 ≤ env_now env < 2 ^ 63 → can_store (h_engine h) (str k) (before_nul v) →
  Begin (h_applier h) op = inr false →
  ∃ h', applyIncomingReplicationOp env op h cn = Some (inr tt, h', cn) ∧
    key_cell (h_engine h') (str k) =
      Some (CEntry (str k) (before_nul v) (if env_now env <? op_ExpireAtNs op then op_ExpireAtNs op else 0)).
Proof.
  intros Ht Hk Hp Hn Hd Hnow [Hwf He Hroom] Hb. unfold applyIncomingReplicationOp. rewrite Hb. unfold op_switch.
  rewrite Ht, Hp, Hk. destruct (set_payload k v opts Hn) as (rest & ->).
  set (ttl := if 0 <? op_ExpireAtNs op then _ else 0).
  destruct (Store_Set_run env (h_engine h) (str k) (str (before_nul v)) ttl Hwf He) as (s' & Hs & U).
  { unfold str at 2. by rewrite StringToBytes_BytesToString. }
  change (bool_decide ("SET" = "SET")) with true. cbv zeta iota. fold ttl.
  cbn [pe_Set memory_engine MemoryStoreAdapter]. rewrite Hs. eexists. split; [reflexivity|]. cbn [h_engine put_applier put_engine].
  rewrite (key_cell_updated _ _ _ _ _ _ U). unfold str at 2. rewrite StringToBytes_BytesToString. do 2 f_equal.
  subst ttl. unfold expire_at, time_Until, maxInt, is_i64 in *.
  destruct (Z.ltb_spec 0 (op_ExpireAtNs op)), (Z.ltb_spec (env_now env) (op_ExpireAtNs op)); try lia.
  - rewrite Z.max_r, Z.max_r, Z.min_r by lia. rewrite (proj2 (Z.ltb_lt _ _)) by lia. rewrite i64_id; unfold is_i64; lia.
  - by rewrite Z.max_l by lia.
  - done.
Qed.

(** A write that the replication manager accepted is the last of its log. *)
Lemma write_logged {A} write key opType payload deadline (apply : EM Store (HError + A)) (h : Handler Store) cn c a h' cn' :
  h_cluster h = Some c → 0 < ls_limit (mg_logs (c_replication c)) →
  applyReplicationWrite write key opType payload deadline apply h cn = Some (inr a, h', cn') →
  ∃ e' c' epoch lsn, apply (h_engine h) = Some (inr a, e') ∧ h_engine h' = e' ∧ cn' = cn ∧ h_cluster h' = Some c' ∧
    last (log_of (mg_logs (c_replication c')) (KeySlot key)) = Some (mkOp (KeySlot key) epoch lsn opType key payload deadline).
Proof.
  intros Hc Hl H. unfold applyReplicationWrite in H. destruct (apply (h_engine h)) as [[r e]|]; [|done]. rewrite Hc in H.
  cbv zeta in H. unfold ApplyWrite in H. destruct r as [err|v]; cbn [negb] in H; [done|].
  destruct (AllocateLSN _ _) as [[[er|[epoch lsn]] sm]|]; cbn [mbind option_bind] in H; [done| |done].
  destruct (LogStore_Append _ _) as [[er|[]] logs] eqn:Ea; [done|]. injection H as -> <- <-.
  eexists _, _, epoch, lsn. split_and!; [done|done|done|done|]. cbn [c_replication put_replication]. rewrite dispatch_keeps_logs.
  by apply (Append_last _ _ _ Hl) in Ea.
Qed.

Lemma cmdSet_logged env write k v opts ttl (h : Handler Store) cn c h' cn' :
  parse_set_options opts (mkSetOptions 0 false false) = inr (mkSetOptions ttl false false) →
  h_cluster h = Some c → 0 < ls_limit (mg_logs (c_replication c)) →
  cmdSet env write (k :: v :: opts) h cn = Some (tt, h', cn') → cn_out cn' = cn_out cn ++ [WString "OK"] →
  ∃ e' c' epoch lsn, Store_Set env (str k) (str v) ttl (h_engine h) = Some (inr tt, e') ∧ h_engine h' = e' ∧
    h_cluster h' = Some c' ∧ last (log_of (mg_logs (c_replication c')) (KeySlot (str k))) =
      Some (mkOp (KeySlot (str k)) epoch lsn "SET" (str k) (encodeReplicationPayload (k :: v :: opts))
              (expire_at (env_now env) ttl)).
Proof.
  intros Ho Hc Hl H Hout. unfold cmdSet in H. rewrite Ho in H. cbn [andb] in H. cbv zeta in H. unfold hbind in H.
  fold (expire_at (env_now env) ttl) in H.
  destruct (applyReplicationWrite _ _ _ _ _ _ _ _) as [[[[err|u] h1] cn1]|] eqn:Ea; [|injection H as <- <-|done].
  - exfalso. assert (cn1 = cn) as ->.
    { unfold applyReplicationWrite in Ea. repeat case_match; congruence. }
    destruct err as [[]| | |]; cbn in H; injection H as _ <-; apply app_inv_head in Hout; discriminate Hout.
  - destruct (write_logged _ _ _ _ _ _ _ _ _ _ _ _ Hc Hl Ea) as (e' & c' & epoch & lsn & Hs & He & _ & Hc' & Hlast).
    exists e', c', epoch, lsn. split_and!; try done. unfold applying in Hs. cbn [pe_Set memory_engine MemoryStoreAdapter] in Hs.
    destruct (Store_Set _ _ _ _ _) as [[[e|[]] e1]|]; [done| |done]. by injection Hs as _ <-.
Qed.

(** C15: A SET without NX and XX of a key without NUL bytes that the primary accepted is
    the last operation of the log of its slot. Primary and replica have no evictor
    and room for the entry in ring buffers that have not wrapped. The primary holds
    the value with the deadline of the command, and a replica that executes the
    operation, which is new to it, with whatever it held before, holds the value
    up to its first NUL byte, with the same deadline if that is still to come
    and with none if it has passed. So both hold the same entry exactly when the
    value has no NUL and the operation arrives in time; otherwise the replica
    keeps a truncated value, or keeps forever what has expired on the primary. *)
Theorem replicated_SET env write k v opts ttl (h : Handler Store) cn c h' cn' :
  no_nul k → parse_set_options opts (mkSetOptions 0 false false) = inr (mkSetOptions ttl false false) →
  h_cluster h = Some c → 0 < ls_limit (mg_logs (c_replication c)) → can_store (h_engine h) (str k) v →
  cmdSet env write (k :: v :: opts) h cn = Some (tt, h', cn') → cn_out cn' = cn_out cn ++ [WString "OK"] →
  let deadline := expire_at (env_now env) ttl in
  key_cell (h_engine h') (str k) = Some (CEntry (str k) v deadline) ∧
  ∃ c' op, h_cluster h' = Some c' ∧ last (log_of (mg_logs (c_replication c')) (KeySlot (str k))) = Some op ∧
    ∀ env' (hr : Handler Store) cnr,
      0 ≤ env_now env' < 2 ^ 63 → can_store (h_engine hr) (str k) (before_nul v) → Begin (h_applier hr) op = inr false →
      ∃ hr', applyIncomingReplicationOp env' op hr cnr = Some (inr tt, hr', cnr) ∧
        key_cell (h_engine hr') (str k) =
          Some (CEntry (str k) (before_nul v) (if env_now env' <? deadline then deadline else 0)).
Proof.
  intros Hk Ho Hc Hl [Hwf He Hroom] H Hout deadline.
  destruct (cmdSet_logged _ _ _ _ _ _ _ _ _ _ _ Ho Hc Hl H Hout) as (e' & c' & epoch & lsn & Hs & <- & Hc' & Hlast).
  split.
  - destruct (Store_Set_run env (h_engine h) (str k) (str v) ttl Hwf He) as (s' & Hs' & U).
    { unfold str at 2. by rewrite StringToBytes_BytesToString. }
    rewrite Hs in Hs'. injection Hs' as <-. rewrite (key_cell_updated _ _ _ _ _ _ U). unfold str at 2.
    by rewrite StringToBytes_BytesToString.
  - eexists c', _. split; [done|]. split; [exact Hlast|]. intros env' hr cnr Hnow Hstore Hb.
    apply (set_on_replica env' (mkOp (KeySlot (str k)) epoch lsn "SET" (str k) (encodeReplicationPayload (k :: v :: opts)) deadline)
      hr cnr k v opts); try done. unfold deadline, expire_at. cbn [op_ExpireAtNs]. destruct (0 <? ttl); [apply i64_range|].
    unfold is_i64. lia.
Qed.

(** ** Remaining time *)

(** For a string without a deadline the store reports -1, meant as a code but in
    nanoseconds; TTL and PTTL divide it by their unit and answer 0, which is
    what they answer for a key that is about to expire. *)
Theorem TTL_of_persistent_key_is_zero env k v (h : Handler Store) cn :
  store_wf (h_engine h) → key_cell (h_engine h) (str k) = Some (CEntry (str k) v 0) →
  (∃ h', cmdTTL env [k] h cn = Some (tt, h', mkConn (cn_out cn ++ [WInt 0]) (cn_context cn) (cn_closed cn))) ∧
  ∃ h', cmdPTTL env [k] h cn = Some (tt, h', mkConn (cn_out cn ++ [WInt 0]) (cn_context cn) (cn_closed cn)).
Proof.
  intros Hwf Hcell.
  assert (Store_TTL env (str k) (h_engine h) = Some (-1, h_engine h)) as Ht.
  { destruct (shard_of (h_engine h) (str k) Hwf) as (sh & Hs & Hsf). unfold Store_TTL, sbind, peek_cache.
    rewrite (TTL_spec (env_now env) (st_cache (h_engine h)) (str k) sh (sw_cache _ Hwf) Hs Hsf).
    change (cache_cell (st_cache (h_engine h)) (cache_hash (st_cache (h_engine h)) (str k))) with (key_cell (h_engine h) (str k)).
    by rewrite Hcell. }
  unfold cmdTTL, cmdPTTL, ttl_in, hbind, call. cbn [pe_TTL memory_engine MemoryStoreAdapter].
  unfold no_error, sbind. rewrite Ht. split; by eexists.
Qed.
End memory.

(** ** On a concrete server *)

Section witnesses.
#[local] Instance ranges {K A} `{Countable K} : GoRange K A := listed_range.
#[local] Instance engine : ProtocolEngine Store := MemoryStoreAdapter (λ _ _, true) (λ _, None) (λ _, "").

(** The node owns the slot of the key [a]. *)
Let owner : SlotManager := match AssignSlot NewSlotManager (KeySlot "a") "a" with Some (_, sm) => sm | None => NewSlotManager end.
Let server (c : option Cluster) (s : Store) : Handler Store := mkHandler s c NewReplicaApplier None None None 0 0.
Let primary : Handler Store := server (Some (demo_cluster "a" owner)) empty_store.

Lemma empty_can_store key v : length (StringToBytes key) = 1%nat → (length v ≤ 60)%nat → can_store empty_store key v.
Proof. intros Hk Hv. split; [apply empty_store_wf|done|by apply small_room]. Qed.

(** SET a "x NUL y" EX 10: the replica holds x, and when it is late, forever. *)
Lemma replicated_SET_witness :
  ∃ h' c' op, cmdSet at_5 (λ _ _, true) (StringToBytes "a" :: [x78; x00; x79] :: words ["EX"; "10"]) primary newConn
      = Some (tt, h', mkConn [WString "OK"] None false) ∧
    key_cell (h_engine h') "a" = Some (CEntry "a" [x78; x00; x79] 10000000005) ∧
    h_cluster h' = Some c' ∧ last (log_of (mg_logs (c_replication c')) (KeySlot "a")) = Some op ∧
    ∃ hr', applyIncomingReplicationOp (mkEnv 20000000000 0) op (server None empty_store) newConn = Some (inr tt, hr', newConn) ∧
      key_cell (h_engine hr') "a" = Some (CEntry "a" [x78] 0).
Proof.
  pose (m := cmdSet at_5 (λ _ _, true) (StringToBytes "a" :: [x78; x00; x79] :: words ["EX"; "10"]) primary newConn).
  assert (snd <$> m = Some (mkConn [WString "OK"] None false)) as Hcn by (vm_compute; reflexivity).
  assert ((λ r, match (c ← h_cluster r.1.2; last (log_of (mg_logs (c_replication c)) (KeySlot "a"))) with
                | Some op => Begin NewReplicaApplier op
                | None => inr true
                end) <$> m = Some (inr false)) as Hbegin by (vm_compute; reflexivity).
  fold m. destruct m as [[[[] h'] cn']|] eqn:H; [|discriminate Hcn]. cbn [fmap option_fmap option_map snd] in Hcn. injection Hcn as ->.
  cbn [fmap option_fmap option_map fst snd] in Hbegin. injection Hbegin as Hbegin.
  destruct (replicated_SET (λ _ _, true) (λ _, None) (λ _, "") at_5 (λ _ _, true) (StringToBytes "a") [x78; x00; x79]
    (words ["EX"; "10"]) 10000000000 primary newConn (demo_cluster "a" owner) h' (mkConn [WString "OK"] None false))
    as (Hcell & c' & op & Hc' & Hlast & Hrep).
  - unfold no_nul. vm_compute. intros Hin. inversion Hin as [|? ? ? Hin']. inversion Hin'.
  - vm_compute. reflexivity.
  - reflexivity.
  - vm_compute. reflexivity.
  - apply empty_can_store; vm_compute; lia.
  - exact H.
  - reflexivity.
  - exists h', c', op. split_and!; [reflexivity|exact Hcell|exact Hc'|exact Hlast|].
    destruct (Hrep (mkEnv 20000000000 0) (server None empty_store) newConn) as (hr' & Hi & Hcr).
    + cbn. lia.
    + apply empty_can_store; vm_compute; lia.
    + rewrite Hc' in Hbegin. cbn [mbind option_bind] in Hbegin. change (str (StringToBytes "a")) with "a" in Hlast.
      rewrite Hlast in Hbegin. exact Hbegin.
    + exists hr'. split; [exact Hi|exact Hcr].
Defined.

Lemma TTL_of_persistent_key_is_zero_witness :
  ∃ s', Store_Set at_5 "a" "v" 0 empty_store = Some (inr tt, s') ∧
    ∃ h', cmdTTL at_5 (words ["a"]) (server None s') newConn = Some (tt, h', mkConn [WInt 0] None false).
Proof.
  destruct (empty_can_store "a" (StringToBytes "v") eq_refl ltac:(vm_compute; lia)) as [Hwf He Hroom].
  destruct (Store_Set_run at_5 empty_store "a" "v" 0 Hwf He Hroom) as (s' & Hs & U). exists s'. split; [exact Hs|].
  exact (proj1 (TTL_of_persistent_key_is_zero (λ _ _, true) (λ _, None) (λ _, "") at_5 (StringToBytes "a") (StringToBytes "v")
    (server None s') newConn (ku_wf _ _ _ _ _ _ U) (key_cell_updated _ _ _ _ _ _ U))).
Defined.
End witnesses.
