(* ===== verification/RestoreSpec.v ===== *)
(** * MIGRATE and RESTORE: values move between servers

    What MIGRATE reads of a key on one server, RESTORE writes on another: the
    theorems compose the store, the value codec and the two command handlers. *)

From S2P Require Import Prelude Strconv RingBuf Dict Cache Store Objects Codec CodecSpec StoreView ObjectSpec StringSpec KeySpec Replication Protocol Engine Handler HandlerSpec.
From stdpp Require Import options.

Section restore.
Context `{!GoRange Z Z} `{!GoRange string unit} `{!GoRange string (Dict.Entry typedValue)}.
Context `{!GoRange string string} `{!GoRange string float64} `{!GoRange string Z}.
Context (path_match : string → string → bool).
Context (parse_float : list byte → option float64) (json_float : float64 → list byte) (json_error : list byte → string).

#[local] Instance memory_engine : ProtocolEngine Store := MemoryStoreAdapter path_match parse_float json_error.

(** ** The store *)

(** [objects.Set], seen at an instant [env'] before the deadline. *)
Lemma dict_set_key env env' s key tv ttl :
  store_wf s → IsExpired (env_now env') (newEntry (env_now env) tv ttl) = false →
  ∃ s', (let! _ := on_objects (λ d, (tt, Dict_Set (env_now env) d key tv ttl)) in
         let! _ := Store_trackKey key in sret (@inr GoError unit tt)) s = Some (inr tt, s') ∧
    key_updated env' s s' key (key_cell s key) (Some tv) ∧
    dict_map (st_objects s') !! key = Some (newEntry (env_now env) tv ttl).
Proof.
  intros Hwf He. unfold sbind, on_objects, Store_trackKey, on_cache. eexists. split; [done|]. set (d' := Dict_Set _ _ _ _ _).
  destruct (putShard_insert (st_objects s) key (newEntry (env_now env) tv ttl)) as [Hd' Hm]; [apply Hwf|].
  split; [|cbn [st_objects]; unfold d', Dict_Set; by rewrite Hm, lookup_insert_eq].
  assert (object_updated env' s (with_objects s d') key (Some tv)) as H1.
  { apply with_objects_view; [done|done|]. intros k. unfold d', Dict_Set. rewrite Hm, spec_live_insert.
    case_decide; [by rewrite He|done]. }
  apply updated_same_cache.
  - eapply object_updated_trans; [exact H1|].
    replace (Some tv) with (object_at env' (with_objects s d') key); [apply slot_add_view, H1|].
    rewrite (ou_objects _ _ _ _ _ H1). by rewrite decide_True.
  - done.
  - intros h. cbn [st_cache]. unfold slot_add. by destruct (sc_slotFunc _).
  - cbn [st_cache]. unfold slot_add. by destruct (sc_slotFunc _).
Qed.

Lemma RestoreEntry_key decode env env' s key t payload v ttl :
  store_wf s → t ≠ TypeString → decode t payload = inr v →
  IsExpired (env_now env') (newEntry (env_now env) (mkTyped t v) ttl) = false →
  ∃ s', Store_RestoreEntry decode env key t payload ttl s = Some (inr tt, s') ∧
    key_updated env' s s' key None (Some (mkTyped t v)) ∧
    dict_map (st_objects s') !! key = Some (newEntry (env_now env) (mkTyped t v) ttl).
Proof.
  intros Hwf Ht Hd He. destruct (shard_of s key Hwf) as (sh & Hs & Hsf).
  destruct (Delete_spec (env_now env') (st_cache s) key sh (sw_cache _ Hwf) Hs Hsf) as (b & sc & HD & _ & HU).
  destruct (on_cache_updated env' s key (λ c, ShardedCache_Delete c key) b sc None Hwf HD HU) as [H1 U1].
  destruct (key_updated_here _ _ _ _ _ _ U1) as (W1 & C1 & _).
  destruct (removeObjectKey_key env' (with_cache s sc) key W1) as (s2 & H2 & U2 & _). rewrite C1 in U2.
  destruct (key_updated_here _ _ _ _ _ _ U2) as (W2 & C2 & _).
  destruct (dict_set_key env env' s2 key (mkTyped t v) ttl W2 He) as (s3 & H3 & U3 & E3). rewrite C2 in U3.
  exists s3. split_and!; [|by eapply key_updated_trans; [exact U1|]; eapply key_updated_trans|done].
  unfold removeObjectKey, sbind in H2. destruct (deleteObjectKey key (with_cache s sc)) as [[b2 s2']|] eqn:E; [|done].
  injection H2 as ->. unfold Store_RestoreEntry. rewrite Hd. sstep H1. sstep E.
  by rewrite bool_decide_eq_false_2.
Qed.

Lemma GetEntry_object env s key tv :
  store_wf s → string_at env s key = None → object_at env s key = Some tv →
  ∃ s' ent, Store_GetEntry env key s =
    Some (inr (mkEngineEntry key (tv_Value tv) (tv_Type tv) (if 0 <? e_expireAt ent then Some (e_expireAt ent) else None)), s') ∧
    IsExpired (env_now env) ent = false ∧ dict_map (st_objects s') !! key = Some ent ∧ object_updated env s s' key (Some tv).
Proof.
  intros Hwf Hs Ho. destruct (cache_getcopy_view env s key Hwf) as (c & Hc & U1). rewrite Hs in Hc. rewrite Ho in U1.
  destruct (updated_here _ _ _ _ _ U1) as (W1 & S1 & O1).
  destruct (getObjectValue_view env (with_cache s c) key W1) as (s2 & o & H2 & Ho2 & U2 & _ & He). rewrite O1 in Ho2, U2.
  destruct o as [[tv' ent]|]; [|done]. injection Ho2 as ->. destruct (He _ _ eq_refl) as (Hx & _ & Hm).
  exists s2, ent. split_and!; [|done|done|by eapply object_updated_trans].
  unfold Store_GetEntry.
  assert (on_cache (λ c, ShardedCache_GetCopy (env_now env) c key) s = Some (None, with_cache s c)) as Hc'
    by (unfold on_cache; by rewrite Hc).
  sstep Hc'. sstep H2. done.
Qed.

(** ** The commands *)

(** The milliseconds left to an entry, 0 when it does not expire. *)
Definition ttl_left (now : Z) (ent : Dict.Entry typedValue) : Z :=
  if 0 <? e_expireAt ent then Z.quot (time_Until now (e_expireAt ent)) nanosPerMilli else 0.

Lemma ttl_left_range now ent : IsExpired now ent = false →
  0 ≤ ttl_left now ent ∧ ttl_left now ent * nanosPerMilli < 2 ^ 63 ∧
  (0 < ttl_left now ent → ttl_left now ent * nanosPerMilli ≤ e_expireAt ent - now).
Proof.
  unfold ttl_left, IsExpired, time_Until, maxInt. destruct (Z.ltb_spec 0 (e_expireAt ent)) as [Hp|]; [|lia].
  destruct (Z.eqb_spec (e_expireAt ent) 0); [lia|]. intros He%Z.ltb_ge. set (d := e_expireAt ent - now) in *.
  assert (0 ≤ Z.max (- 2 ^ 63) (Z.min (2 ^ 63 - 1) d) ≤ d ∧ Z.max (- 2 ^ 63) (Z.min (2 ^ 63 - 1) d) < 2 ^ 63) as [H1 H2] by lia.
  revert H1 H2. generalize (Z.max (- 2 ^ 63) (Z.min (2 ^ 63 - 1) d)) as q. intros q H1 H2.
  rewrite Z.quot_div_nonneg by (unfold nanosPerMilli; lia). unfold nanosPerMilli.
  pose proof (Z.div_mod q 1000000). pose proof (Z.mod_pos_bound q 1000000). split_and!; [apply Z.div_pos; lia|lia|lia].
Qed.

Lemma migrate_item_object env keysMode key tv (h : Handler Store) cn :
  store_wf (h_engine h) → string_at env (h_engine h) key = None → object_at env (h_engine h) key = Some tv →
  well_typed parse_float json_float (tv_Type tv) (tv_Value tv) →
  ∃ payload h' ent,
    migrate_item env (SerializeEntryValue json_float json_error) keysMode key h cn =
      Some (inr (Some (mkItem key (ttl_left (env_now env) ent) (byte_of_Z (type_number (tv_Type tv)) :: payload))), h', cn) ∧
    DecodeSerializedValue parse_float json_error (tv_Type tv) payload = inr (restored (tv_Value tv)) ∧
    IsExpired (env_now env) ent = false ∧ dict_map (st_objects (h_engine h')) !! key = Some ent ∧
    object_updated env (h_engine h) (h_engine h') key (Some tv).
Proof.
  intros Hwf Hs Ho Ht. destruct (GetEntry_object env _ key tv Hwf Hs Ho) as (s' & ent & HG & He & Hm & U).
  set (ee := mkEngineEntry _ _ _ _) in HG.
  destruct (serialized_decodes parse_float json_float json_error ee Ht) as (payload & Hser & Hdec).
  exists payload, (put_engine h s'), ent. split_and!; [|done|done|done|done].
  unfold migrate_item, hbind, call. cbn [pe_GetEntry memory_engine MemoryStoreAdapter]. rewrite HG. unfold hret.
  assert (match ee_ExpireAt ee with None => 0 | Some t => Z.quot (time_Until (env_now env) t) nanosPerMilli end =
    ttl_left (env_now env) ent) as Httl by (unfold ee, ttl_left; cbn [ee_ExpireAt]; by destruct (0 <? e_expireAt ent)).
  rewrite Httl. destruct (Z.ltb_spec (ttl_left (env_now env) ent) 0) as [Hneg|_].
  { pose proof (ttl_left_range _ _ He). lia. }
  by rewrite Hser.
Qed.

Lemma value_type_number t : (∀ n, t ≠ TypeUnknown n) → value_type (Z_of_byte (byte_of_Z (type_number t))) = t.
Proof. intros Ht. destruct t; try done. by destruct (Ht n). Qed.

Lemma millis_left n : 0 ≤ n → n * nanosPerMilli < 2 ^ 63 → (if 0 <? n then millis n else 0) = n * nanosPerMilli.
Proof.
  intros Hn Hb. unfold millis. destruct (Z.ltb_spec 0 n); [|replace n with 0 by lia; done]. apply i64_id. unfold is_i64, nanosPerMilli in *. lia.
Qed.

(** RESTORE with REPLACE, at [env], seen at [env']. *)
Lemma cmdRestore_object env env' k ttlMs t payload v opts (h : Handler Store) cn :
  store_wf (h_engine h) → has_option "REPLACE" opts = true → t ≠ TypeString → (∀ n, t ≠ TypeUnknown n) →
  0 ≤ ttlMs → ttlMs * nanosPerMilli < 2 ^ 63 →
  DecodeSerializedValue parse_float json_error t payload = inr v →
  IsExpired (env_now env') (newEntry (env_now env) (mkTyped t v) (ttlMs * nanosPerMilli)) = false →
  ∃ h', cmdRestore env (k :: strconv_FormatInt ttlMs :: (byte_of_Z (type_number t) :: payload) :: opts) h cn =
      Some (tt, h', mkConn (cn_out cn ++ [WString "OK"]) (cn_context cn) (cn_closed cn)) ∧
    key_updated env' (h_engine h) (h_engine h') (str k) None (Some (mkTyped t v)) ∧
    dict_map (st_objects (h_engine h')) !! str k = Some (newEntry (env_now env) (mkTyped t v) (ttlMs * nanosPerMilli)).
Proof.
  intros Hwf Ho Ht Hu H0 H1 Hd He.
  destruct (RestoreEntry_key (DecodeSerializedValue parse_float json_error) env env' (h_engine h) (str k) t payload v _ Hwf Ht Hd He)
    as (s' & Hs & U & Hent).
  exists (put_engine h s'). split_and!; [|exact U|exact Hent].
  unfold cmdRestore. rewrite ParseInt_strconv by (unfold is_i64, nanosPerMilli in *; lia). rewrite Ho.
  unfold hbind at 1, hret. cbv iota beta. rewrite value_type_number by done. rewrite millis_left by done.
  unfold hbind, call. cbn [pe_RestoreEntry memory_engine MemoryStoreAdapter]. rewrite Hs. done.
Qed.

(** C38: A list, hash, set or sorted set that MIGRATE reads on one server and that
    RESTORE with REPLACE writes on another is there under its key, in the place
    of whatever the key held, with the type it had and the value that the codec
    restores, which is the same value when its texts are UTF-8; no object of
    another key and no string whose key has another hash changes. It has the deadline that follows from what was left on
    the first server, rounded down to milliseconds, and none when the value had no
    deadline or less than a millisecond was left. *)
Theorem migrated_value_arrives env keysMode key t v (src : Handler Store) cn :
  store_wf (h_engine src) → string_at env (h_engine src) key = None → object_at env (h_engine src) key = Some (mkTyped t v) →
  t ≠ TypeString → well_typed parse_float json_float t v →
  ∃ item src' ent,
    migrate_item env (SerializeEntryValue json_float json_error) keysMode key src cn = Some (inr (Some item), src', cn) ∧
    object_updated env (h_engine src) (h_engine src') key (Some (mkTyped t v)) ∧
    dict_map (st_objects (h_engine src')) !! key = Some ent ∧ mi_ttlMs item = ttl_left (env_now env) ent ∧
    (utf8_value v → restored v = v) ∧
    ∀ env' (dst : Handler Store) cn' opts,
      store_wf (h_engine dst) → has_option "REPLACE" opts = true →
      0 ≤ env_now env' → env_now env' + mi_ttlMs item * nanosPerMilli < 2 ^ 63 →
      ∃ dst', cmdRestore env' (StringToBytes key :: strconv_FormatInt (mi_ttlMs item) :: mi_serialized item :: opts) dst cn' =
          Some (tt, dst', mkConn (cn_out cn' ++ [WString "OK"]) (cn_context cn') (cn_closed cn')) ∧
        key_updated env' (h_engine dst) (h_engine dst') key None (Some (mkTyped t (restored v))) ∧
        ∃ arrived, dict_map (st_objects (h_engine dst')) !! key = Some arrived ∧
          e_expireAt arrived = if 0 <? ttl_left (env_now env) ent then env_now env' + ttl_left (env_now env) ent * nanosPerMilli else 0.
Proof.
  intros Hwf Hs Ho Ht Hty.
  destruct (migrate_item_object env keysMode key (mkTyped t v) src cn Hwf Hs Ho Hty) as (payload & src' & ent & Hm & Hd & He & Hent & U).
  eexists _, src', ent. split; [exact Hm|]. split_and!; [done|done|done| |].
  { intros Hv. pose proof (restored_valid v Hv). destruct v; try done. by destruct t. }
  cbn [mi_ttlMs mi_serialized tv_Type]. intros env' dst cn' opts Hwf' Hopt Hn Hb.
  destruct (ttl_left_range _ _ He) as (H0 & H1 & _).
  destruct (cmdRestore_object env' env' (StringToBytes key) (ttl_left (env_now env) ent) t payload (restored v) opts dst cn')
    as (dst' & Hr & U' & Hent'); try done.
  - intros n ->. by destruct v.
  - unfold IsExpired, newEntry. cbn [e_expireAt]. destruct (Z.ltb_spec 0 (ttl_left (env_now env) ent * nanosPerMilli)); [|done].
    rewrite i64_id by (unfold is_i64; lia). destruct (Z.eqb_spec (env_now env' + ttl_left (env_now env) ent * nanosPerMilli) 0); [done|].
    apply Z.ltb_ge. lia.
  - exists dst'. unfold str in U', Hent'. rewrite BytesToString_StringToBytes in U', Hent'. split_and!; [done|done|].
    eexists. split; [exact Hent'|]. unfold newEntry. cbn [e_expireAt]. unfold nanosPerMilli in *.
    destruct (Z.ltb_spec 0 (ttl_left (env_now env) ent)); [|by rewrite (proj2 (Z.ltb_ge _ _)) by lia].
    rewrite (proj2 (Z.ltb_lt _ _)) by lia. apply i64_id. unfold is_i64. lia.
Qed.

(** ** A nil map *)

(** RESTORE accepts a hash whose payload is the JSON text null and stores a nil
    map under the key; the next HSET to it, at any time, assigns to the nil map:
    the handler panics, which in the server ends the process. *)
Theorem restored_null_hash_panics env env' write (k f v : list byte) (h : Handler Store) cn cn' :
  store_wf (h_engine h) →
  ∃ h', cmdRestore env [k; [x30]; x04 :: json_null; StringToBytes "REPLACE"] h cn =
      Some (tt, h', mkConn (cn_out cn ++ [WString "OK"]) (cn_context cn) (cn_closed cn)) ∧
    cmdHSet env' write [k; f; v] h' cn' = None.
Proof.
  intros Hwf.
  destruct (cmdRestore_object env env' k 0 TypeHash json_null VNil [StringToBytes "REPLACE"] h cn Hwf eq_refl)
    as (h' & Hr & U & _); try done.
  exists h'. split; [exact Hr|]. destruct (key_updated_here _ _ _ _ _ _ U) as (W & C & O).
  assert (string_at env' (h_engine h') (str k) = None) as Hs.
  { unfold string_at. change (cache_cell _ _) with (key_cell (h_engine h') (str k)). by rewrite C. }
  destruct (cacheExists_view env' (h_engine h') (str k) W) as (s1 & H1 & U1).
  destruct (updated_here _ _ _ _ _ U1) as (W1 & S1 & O1).
  destruct (getObjectValue_view env' s1 (str k) W1) as (s2 & o & H2 & Ho2 & _). rewrite O1, O in Ho2.
  assert (Store_HSet env' (str k) [AStr (str f); AStr (str v)] (h_engine h') = None) as Hp.
  { unfold Store_HSet. change (bool_decide (_ = []) || _) with false. cbv iota.
    unfold getHash at 1. unfold sbind at 1. unfold sbind at 1. rewrite H1, Hs, bool_decide_eq_false_2 by by intros [].
    unfold sbind. rewrite H2. by destruct o as [[tv ent]|]; [injection Ho2 as ->|]. }
  unfold cmdHSet, hbind, applyReplicationWrite, applying. cbn [length]. cbn [pe_HSet memory_engine MemoryStoreAdapter].
  cbn. rewrite Hp. done.
Qed.
End restore.

Section witnesses.
#[local] Instance ranges {K A} `{Countable K} : GoRange K A := listed_range.
#[local] Instance engine : ProtocolEngine Store := MemoryStoreAdapter (λ _ _, true) (λ _, None) (λ _, "").

Let server (s : Store) : Handler Store := mkHandler s None NewReplicaApplier None None None 0 0.
Let source : Handler Store := server (one_object "k" (mkTyped TypeHash (VHash {["f" := "v"]}))).

Lemma migrated_value_arrives_witness :
  ∃ item src' dst',
    migrate_item at_5 (SerializeEntryValue (λ _, []) (λ _, "")) false "k" source newConn = Some (inr (Some item), src', newConn) ∧
    cmdRestore at_5 [StringToBytes "k"; strconv_FormatInt (mi_ttlMs item); mi_serialized item; StringToBytes "replace"]
      (server empty_store) newConn = Some (tt, dst', mkConn [WString "OK"] None false) ∧
    object_at at_5 (h_engine dst') "k" = Some (mkTyped TypeHash (VHash {["f" := "v"]})).
Proof.
  destruct (migrated_value_arrives (λ _ _, true) (λ _, None) (λ _, []) (λ _, "") at_5 false "k" TypeHash (VHash {["f" := "v"]})
    source newConn) as (item & src' & ent & Hm & U & He & Ht & Hv & Hr).
  - apply one_object_wf.
  - by vm_compute.
  - by vm_compute.
  - done.
  - done.
  - assert (mi_ttlMs item = 0) as H0.
    { rewrite Ht. unfold ttl_left. vm_compute in Hm. injection Hm as _ <-. vm_compute in He. by injection He as <-. }
    destruct (Hr at_5 (server empty_store) newConn [StringToBytes "replace"]) as (dst' & H1 & U1 & _).
    + apply empty_store_wf.
    + reflexivity.
    + done.
    + rewrite H0. done.
    + exists item, src', dst'. split; [exact Hm|]. split; [exact H1|].
      destruct (key_updated_here _ _ _ _ _ _ U1) as (_ & _ & ->). rewrite Hv; [done|].
      intros k x H. apply lookup_singleton_Some in H as [<- <-]. split; reflexivity.
Defined.

Lemma restored_null_hash_panics_witness :
  ∃ h', cmdRestore at_5 [StringToBytes "k"; [x30]; x04 :: json_null; StringToBytes "REPLACE"] (server empty_store) newConn =
      Some (tt, h', mkConn [WString "OK"] None false) ∧
    cmdHSet (mkEnv 9 0) (λ _ _, true) [StringToBytes "k"; [x66]; [x76]] h' newConn = None.
Proof.
  exact (restored_null_hash_panics (λ _ _, true) (λ _, None) (λ _, "") at_5 (mkEnv 9 0) (λ _ _, true) (StringToBytes "k") [x66] [x76]
    (server empty_store) newConn newConn empty_store_wf).
Defined.
End witnesses.
