(* ===== verification/TierStats.v ===== *)
(** * Access statistics and tier policies: [internal/engine/tiered/stats.go], [policy.go]

    The collector counts the accesses of each key, in a map and in a count-min
    sketch of 8-bit counters; the policies decide from them when a key moves
    between the hot, the warm and the cold tier. Scores are IEEE doubles;
    [log1p] is the logarithm of the standard library. Indexing out of range is a
    panic, [None]. *)

From S2P Require Import Prelude Cache Store Codec Hotspot Rebalance.
From stdpp Require Import options.

(** ** The sketch *)

(** The code point that [range] gives for a rune; [U+FFFD] for an invalid byte. *)
Definition rune_code (r : rune) : Z :=
  match r with
  | BadByte _ => 0xFFFD
  | Rune bs =>
      match Z_of_byte <$> bs with
      | [a] => a
      | [a; b] => (a - 0xC0) * 64 + (b - 0x80)
      | [a; b; c] => (a - 0xE0) * 4096 + (b - 0x80) * 64 + (c - 0x80)
      | [a; b; c; d] => (a - 0xF0) * 262144 + (b - 0x80) * 4096 + (c - 0x80) * 64 + (d - 0x80)
      | _ => 0xFFFD
      end
  end.

(** The hash of both [CountMinSketch] and [BloomFilter], before the modulus. The
    negation of the smallest integer is itself. *)
Definition tier_hash (key : string) (seed : Z) : Z :=
  let h := foldl (λ h r, i64 (h * 31 + rune_code r)) (i64 (seed * 0x9e3779b9)) (runes (StringToBytes key)) in
  if h <? 0 then i64 (- h) else h.

Definition at_index {A} (l : list A) (i : Z) : option A := if i <? 0 then None else l !! Z.to_nat i.

Record Sketch := mkSketch { sk_matrix : list (list Z); sk_width : Z }.

Definition NewSketch (width : Z) (depth : nat) : Sketch := mkSketch (replicate depth (replicate (Z.to_nat width) 0)) width.

(** Rows from row [i] on. *)
Fixpoint increment_rows (key : string) (width i : Z) (rows : list (list Z)) : option (list (list Z)) :=
  match rows with
  | [] => Some []
  | row :: rows' =>
      let idx := Z.rem (tier_hash key i) width in
      n ← at_index row idx;
      rest ← increment_rows key width (i + 1) rows';
      Some ((if n <? 255 then <[Z.to_nat idx := n + 1]> row else row) :: rest)
  end.

Definition Sketch_Increment (c : Sketch) (key : string) : option Sketch :=
  m ← increment_rows key (sk_width c) 0 (sk_matrix c); Some (mkSketch m (sk_width c)).

Fixpoint estimate_rows (key : string) (width i : Z) (rows : list (list Z)) (least : Z) : option Z :=
  match rows with
  | [] => Some least
  | row :: rows' =>
      n ← at_index row (Z.rem (tier_hash key i) width);
      estimate_rows key width (i + 1) rows' (if n <? least then n else least)
  end.

Definition Sketch_Estimate (c : Sketch) (key : string) : option Z := estimate_rows key (sk_width c) 0 (sk_matrix c) 255.

Definition Sketch_Reset (c : Sketch) : Sketch := mkSketch (map (map (λ n, n / 2)) (sk_matrix c)) (sk_width c).

(** ** The Bloom filter *)

Record BloomFilter := mkBloom { bf_bits : list bool; bf_size : Z }.

Definition NewBloomFilter (size : Z) : BloomFilter := mkBloom (replicate (Z.to_nat size) false) size.

Definition bloom_index (bf : BloomFilter) (key : string) (i : Z) : Z := Z.rem (tier_hash key i) (bf_size bf).

Definition bloom_set (bf : BloomFilter) (key : string) (i : Z) : option BloomFilter :=
  let idx := bloom_index bf key i in
  _ ← at_index (bf_bits bf) idx; Some (mkBloom (<[Z.to_nat idx := true]> (bf_bits bf)) (bf_size bf)).

Definition BloomFilter_Add (bf : BloomFilter) (key : string) : option BloomFilter :=
  bf ← bloom_set bf key 0; bf ← bloom_set bf key 1; bloom_set bf key 2.

Definition BloomFilter_Contains (bf : BloomFilter) (key : string) : option bool :=
  b0 ← at_index (bf_bits bf) (bloom_index bf key 0);
  if negb b0 then Some false else
  b1 ← at_index (bf_bits bf) (bloom_index bf key 1);
  if negb b1 then Some false else at_index (bf_bits bf) (bloom_index bf key 2).

Definition BloomFilter_Reset (bf : BloomFilter) : BloomFilter := mkBloom (map (λ _, false) (bf_bits bf)) (bf_size bf).

(** ** Statistics of keys *)

Inductive TierType := TierHot | TierWarm | TierCold.

#[export] Instance TierType_eq_dec : EqDecision TierType.
Proof. solve_decision. Defined.

Record AccessStats := mkAccess {
  as_AccessCount : Z;
  as_LastAccessTime : Z;
  as_WriteTime : Z;
  as_Size : Z;
  as_Tier : TierType
}.

Record StatsCollector := mkCollector { sc_stats : gmap string AccessStats; sc_sketch : Sketch }.

Definition NewStatsCollector : StatsCollector := mkCollector ∅ (NewSketch 65536 4).

Definition StatsCollector_RecordAccess (now : Z) (sc : StatsCollector) (key : string) (size : Z) : option StatsCollector :=
  sk ← Sketch_Increment (sc_sketch sc) key;
  let st := default (mkAccess 0 0 now size TierHot) (sc_stats sc !! key) in
  Some (mkCollector (<[key := mkAccess (u64 (as_AccessCount st + 1)) now (as_WriteTime st) (as_Size st) (as_Tier st)]> (sc_stats sc)) sk).

Definition StatsCollector_RecordWrite (now : Z) (sc : StatsCollector) (key : string) (size : Z) : option StatsCollector :=
  let st := default (mkAccess 0 0 0 0 TierHot) (sc_stats sc !! key) in
  sk ← Sketch_Increment (sc_sketch sc) key;
  Some (mkCollector (<[key := mkAccess (u64 (as_AccessCount st + 1)) now now size (as_Tier st)]> (sc_stats sc)) sk).

Definition StatsCollector_RecordDelete (sc : StatsCollector) (key : string) : StatsCollector :=
  mkCollector (delete key (sc_stats sc)) (sc_sketch sc).

Definition StatsCollector_GetStats (sc : StatsCollector) (key : string) : option AccessStats := sc_stats sc !! key.

Definition StatsCollector_GetFrequency (sc : StatsCollector) (key : string) : option Z := Sketch_Estimate (sc_sketch sc) key.

Definition StatsCollector_UpdateTier (sc : StatsCollector) (key : string) (tier : TierType) : StatsCollector :=
  mkCollector
    (alter (λ st, mkAccess (as_AccessCount st) (as_LastAccessTime st) (as_WriteTime st) (as_Size st) tier) key (sc_stats sc))
    (sc_sketch sc).

Section collector.
Context `{!GoRange string AccessStats}.

Definition GetKeysByTier (sc : StatsCollector) (tier : TierType) : list string :=
  (filter (λ kv, as_Tier kv.2 = tier) (go_range (sc_stats sc))).*1.

Definition GetSizeByTier (sc : StatsCollector) (tier : TierType) : Z :=
  foldl (λ total kv, i64 (total + as_Size kv.2)) 0 (filter (λ kv, as_Tier kv.2 = tier) (go_range (sc_stats sc))).

Definition GetColdKeys (now : Z) (sc : StatsCollector) (idleThreshold countThreshold : Z) : list string :=
  (filter (λ kv, as_Tier kv.2 = TierHot ∧ idleThreshold < i64 (now - as_LastAccessTime kv.2) ∧ as_AccessCount kv.2 < countThreshold)
     (go_range (sc_stats sc))).*1.

Definition GetHotKeys (sc : StatsCollector) (countThreshold : Z) : list string :=
  (filter (λ kv, as_Tier kv.2 ≠ TierHot ∧ countThreshold < as_AccessCount kv.2) (go_range (sc_stats sc))).*1.
End collector.

Definition maxEntries : nat := N.to_nat 100000.
Definition nanosPerHour : Z := 3600 * nanosPerSecond.

Definition maybePrune (now : Z) (stats : gmap string AccessStats) : gmap string AccessStats :=
  if (size stats <=? maxEntries)%nat then stats
  else filter (λ kv, now - nanosPerHour ≤ as_LastAccessTime kv.2) stats.

(** One tick of [decayLoop]; the factor is 0.5. *)
Definition decayFactor : float64 := f64_div (f64_of_Z 1) (f64_of_Z 2).

Definition StatsCollector_decay (now : Z) (sc : StatsCollector) : StatsCollector :=
  let halve st := mkAccess (f64_to_u64 (f64_mul (f64_of_Z (as_AccessCount st)) decayFactor))
                    (as_LastAccessTime st) (as_WriteTime st) (as_Size st) (as_Tier st) in
  mkCollector (maybePrune now (halve <$> sc_stats sc)) (Sketch_Reset (sc_sketch sc)).

(** ** Policies *)

(** A policy, with the observer methods that the manager calls when it has them. *)
Class TierPolicy (P : Type) := {
  ShouldDemote : Z → P → string → option AccessStats → TierType → option bool;
  ShouldPromote : Z → P → string → option AccessStats → TierType → option bool;
  GetTargetTier : Z → P → string → option AccessStats → option TierType;
  policy_RecordAccess : P → string → TierType → option P;
  policy_RecordWrite : P → string → TierType → option P;
  policy_RecordMove : P → string → TierType → TierType → option P
}.

Record DefaultPolicy := mkDefaultPolicy {
  dp_HotAccessThreshold : Z;
  dp_HotIdleThreshold : Z;
  dp_WarmAccessThreshold : Z;
  dp_WarmIdleThreshold : Z;
  dp_ColdIdleThreshold : Z
}.

Definition nanosPerMinute : Z := 60 * nanosPerSecond.

Definition NewDefaultPolicy : DefaultPolicy :=
  mkDefaultPolicy 100 (5 * nanosPerMinute) 10 (30 * nanosPerMinute) (2 * nanosPerHour).

Definition DefaultPolicy_ShouldDemote (now : Z) (p : DefaultPolicy) (stats : option AccessStats) (currentTier : TierType) : bool :=
  match stats with
  | None => false
  | Some st =>
      let idleTime := i64 (now - as_LastAccessTime st) in
      match currentTier with
      | TierHot => (dp_HotIdleThreshold p <? idleTime) && (as_AccessCount st <? dp_HotAccessThreshold p)
      | TierWarm => dp_ColdIdleThreshold p <? idleTime
      | TierCold => false
      end
  end.

Definition DefaultPolicy_ShouldPromote (p : DefaultPolicy) (stats : option AccessStats) (currentTier : TierType) : bool :=
  match stats with
  | None => false
  | Some st =>
      match currentTier with
      | TierWarm => dp_HotAccessThreshold p <? as_AccessCount st
      | TierCold => dp_WarmAccessThreshold p <? as_AccessCount st
      | TierHot => false
      end
  end.

Definition DefaultPolicy_GetTargetTier (now : Z) (p : DefaultPolicy) (stats : option AccessStats) : TierType :=
  match stats with
  | None => TierHot
  | Some st =>
      let idleTime := i64 (now - as_LastAccessTime st) in
      if dp_HotAccessThreshold p <=? as_AccessCount st then TierHot
      else if (dp_WarmAccessThreshold p <=? as_AccessCount st) || (idleTime <? dp_WarmIdleThreshold p) then TierWarm
      else TierCold
  end.

(** [DefaultPolicy] is not a [PolicyObserver]. *)
#[export] Instance DefaultPolicy_tier : TierPolicy DefaultPolicy := {|
  ShouldDemote now p _ stats tier := Some (DefaultPolicy_ShouldDemote now p stats tier);
  ShouldPromote _ p _ stats tier := Some (DefaultPolicy_ShouldPromote p stats tier);
  GetTargetTier now p _ stats := Some (DefaultPolicy_GetTargetTier now p stats);
  policy_RecordAccess p _ _ := Some p;
  policy_RecordWrite p _ _ := Some p;
  policy_RecordMove p _ _ _ := Some p
|}.

Record CostAwareConfig := mkCostAwareConfig {
  ca_HotCapacity : Z;
  ca_HotIdleThreshold : Z;
  ca_WindowPercentage : Z;
  ca_ProtectedPercentage : Z;
  ca_WarmPromotionMinFrequency : Z;
  ca_WarmToColdDemoteThreshold : float64;
  ca_CostAccessWeight : float64;
  ca_CostRecencyWeight : float64;
  ca_CostSizePenaltyWeight : float64;
  ca_CostWritePenaltyWeight : float64
}.

Record CostAwarePolicy := mkCostAware {
  cp_cfg : CostAwareConfig;
  cp_windowAdmissionFreq : Z;
  cp_protectedMinFreq : Z;
  cp_sampleLimit : Z;
  cp_sampleCount : Z;
  cp_sketch : Sketch;
  cp_doorkeeper : BloomFilter;
  cp_warmGhost : gmap string Z
}.

(** Decimal fractions: [a / b] rounded to [float64]. *)
Definition ratio (a b : Z) : float64 := f64_div (f64_of_Z a) (f64_of_Z b).

Definition DefaultCostAwareConfig : CostAwareConfig :=
  mkCostAwareConfig 1024 0 1 80 0 (ratio (-1) 2) (f64_of_Z 1) (ratio 4 10) (ratio 2 10) (ratio 2 10).

Definition or_default (x d : float64) : float64 := if SFeqb x f64_zero then d else x.

Definition normalizeCostAware (cfg : CostAwareConfig) : CostAwareConfig :=
  mkCostAwareConfig
    (if ca_HotCapacity cfg <=? 0 then 1024 else ca_HotCapacity cfg)
    (if ca_HotIdleThreshold cfg <=? 0 then 5 * nanosPerMinute else ca_HotIdleThreshold cfg)
    (if ca_WindowPercentage cfg <=? 0 then 1 else ca_WindowPercentage cfg)
    (if (ca_ProtectedPercentage cfg <=? 0) || (100 <=? ca_ProtectedPercentage cfg) then 80 else ca_ProtectedPercentage cfg)
    (if ca_WarmPromotionMinFrequency cfg =? 0 then 2 else ca_WarmPromotionMinFrequency cfg)
    (or_default (ca_WarmToColdDemoteThreshold cfg) (ratio (-1) 2))
    (or_default (ca_CostAccessWeight cfg) (f64_of_Z 1))
    (or_default (ca_CostRecencyWeight cfg) (ratio 4 10))
    (or_default (ca_CostSizePenaltyWeight cfg) (ratio 2 10))
    (or_default (ca_CostWritePenaltyWeight cfg) (ratio 2 10)).

Definition NewCostAwarePolicy (cfg : CostAwareConfig) : CostAwarePolicy :=
  let cfg := normalizeCostAware cfg in
  let minFrequency := ca_WarmPromotionMinFrequency cfg in
  let windowAdmissionFreq :=
    if 1 <? minFrequency then
      let f := u8 (u64 (u64 (minFrequency * u64 (ca_WindowPercentage cfg)) + 99) / 100) in if f <? 1 then 1 else f
    else 1 in
  let protectedMinFreq := if u8 minFrequency <? 1 then 1 else u8 minFrequency in
  let sampleLimit := i64 (ca_HotCapacity cfg * 8) in
  let sampleLimit := if sampleLimit <? 1024 then 1024 else sampleLimit in
  mkCostAware cfg windowAdmissionFreq protectedMinFreq sampleLimit 0 (NewSketch 65536 4) (NewBloomFilter 65536) ∅.

(** [time.Since], saturating. *)
Definition time_Since (now t : Z) : Z := Z.max (- 2 ^ 63) (Z.min (2 ^ 63 - 1) (now - t)).

(** [Duration.Hours]. *)
Definition Hours (d : Z) : float64 := f64_plus (f64_of_Z (Z.quot d nanosPerHour)) (f64_div (f64_of_Z (Z.rem d nanosPerHour)) (f64_of_Z nanosPerHour)).

Definition hours_since (now t : Z) : float64 :=
  let h := Hours (time_Since now t) in if SFltb h f64_zero then f64_zero else h.

Definition estimateFrequency (p : CostAwarePolicy) (key : string) (st : AccessStats) : option Z :=
  e ← Sketch_Estimate (cp_sketch p) key;
  Some (if e =? 0 then (if 255 <? as_AccessCount st then 255 else as_AccessCount st) else e).

Section cost_aware.
Context (log1p : float64 → float64).

Definition utilityScore (now : Z) (p : CostAwarePolicy) (st : AccessStats) : float64 :=
  let cfg := cp_cfg p in
  let access := log1p (f64_of_Z (as_AccessCount st)) in
  let idleHours := hours_since now (as_LastAccessTime st) in
  let writePenalty := f64_div (f64_of_Z 1) (f64_plus (f64_of_Z 1) (hours_since now (as_WriteTime st))) in
  let sizeKB := f64_div (f64_of_Z (as_Size st)) (f64_of_Z 1024) in
  f64_minus
    (f64_minus
      (f64_minus (f64_mul (ca_CostAccessWeight cfg) access) (f64_mul (ca_CostRecencyWeight cfg) idleHours))
      (f64_mul (ca_CostSizePenaltyWeight cfg) sizeKB))
    (f64_mul (ca_CostWritePenaltyWeight cfg) writePenalty).

Definition CostAware_ShouldDemote (now : Z) (p : CostAwarePolicy) (key : string) (stats : option AccessStats) (currentTier : TierType) : option bool :=
  match stats with
  | None => Some false
  | Some st =>
      match currentTier with
      | TierHot =>
          if time_Since now (as_LastAccessTime st) <=? ca_HotIdleThreshold (cp_cfg p) then Some false
          else f ← estimateFrequency p key st; Some ((f <=? cp_windowAdmissionFreq p) || (f <? cp_protectedMinFreq p))
      | TierWarm => Some (SFleb (utilityScore now p st) (ca_WarmToColdDemoteThreshold (cp_cfg p)))
      | TierCold => Some false
      end
  end.

Definition CostAware_ShouldPromote (p : CostAwarePolicy) (key : string) (stats : option AccessStats) (currentTier : TierType) : option bool :=
  match stats, currentTier with
  | Some st, (TierWarm | TierCold) => f ← estimateFrequency p key st; Some (cp_protectedMinFreq p <=? f)
  | _, _ => Some false
  end.

Definition CostAware_GetTargetTier (now : Z) (p : CostAwarePolicy) (key : string) (stats : option AccessStats) : option TierType :=
  match stats with
  | None => Some TierHot
  | Some _ =>
      up ← CostAware_ShouldPromote p key stats TierWarm;
      if (up : bool) then Some TierHot
      else down ← CostAware_ShouldDemote now p key stats TierWarm; Some (if (down : bool) then TierCold else TierWarm)
  end.

Definition set_frequencies (p : CostAwarePolicy) (count : Z) (sk : Sketch) (dk : BloomFilter) (ghost : gmap string Z) : CostAwarePolicy :=
  mkCostAware (cp_cfg p) (cp_windowAdmissionFreq p) (cp_protectedMinFreq p) (cp_sampleLimit p) count sk dk ghost.

(** The doorkeeper takes the first access of a key, the sketch the others. *)
Definition note_key (p : CostAwarePolicy) (key : string) : option (Sketch * BloomFilter) :=
  seen ← BloomFilter_Contains (cp_doorkeeper p) key;
  if (seen : bool) then sk ← Sketch_Increment (cp_sketch p) key; Some (sk, cp_doorkeeper p)
  else dk ← BloomFilter_Add (cp_doorkeeper p) key; Some (cp_sketch p, dk).

Definition CostAware_RecordAccess (p : CostAwarePolicy) (key : string) (tier : TierType) : option CostAwarePolicy :=
  if bool_decide (key = "") then Some p
  else
    '(sk, dk) ← note_key p key;
    ghost ← (if negb (bool_decide (tier = TierHot)) && bool_decide (is_Some (cp_warmGhost p !! key))
             then e ← Sketch_Estimate sk key; Some (<[key := e]> (cp_warmGhost p)) else Some (cp_warmGhost p));
    let count := i64 (cp_sampleCount p + 1) in
    Some (if cp_sampleLimit p <=? count then set_frequencies p 0 (Sketch_Reset sk) (BloomFilter_Reset dk) ghost
          else set_frequencies p count sk dk ghost).

Definition CostAware_RecordWrite (p : CostAwarePolicy) (key : string) (tier : TierType) : option CostAwarePolicy :=
  if bool_decide (key = "") then Some p
  else
    '(sk, dk) ← note_key p key;
    Some (set_frequencies p (cp_sampleCount p) sk dk
            (if bool_decide (tier = TierHot) then delete key (cp_warmGhost p) else cp_warmGhost p)).

Definition CostAware_RecordMove (p : CostAwarePolicy) (key : string) (from to : TierType) : option CostAwarePolicy :=
  if bool_decide (key = "") then Some p
  else match from, to with
       | TierHot, TierWarm =>
           e ← Sketch_Estimate (cp_sketch p) key;
           Some (set_frequencies p (cp_sampleCount p) (cp_sketch p) (cp_doorkeeper p) (<[key := e]> (cp_warmGhost p)))
       | TierWarm, TierHot =>
           Some (set_frequencies p (cp_sampleCount p) (cp_sketch p) (cp_doorkeeper p) (delete key (cp_warmGhost p)))
       | _, _ => Some p
       end.

Definition CostAware_tier : TierPolicy CostAwarePolicy := {|
  ShouldDemote := CostAware_ShouldDemote;
  ShouldPromote _ := CostAware_ShouldPromote;
  GetTargetTier := CostAware_GetTargetTier;
  policy_RecordAccess := CostAware_RecordAccess;
  policy_RecordWrite := CostAware_RecordWrite;
  policy_RecordMove := CostAware_RecordMove
|}.
End cost_aware.

(** The segment sizes of [TinyLFUPolicy], and its admission test. *)
Record TinyLFUPolicy := mkTinyLFUPolicy {
  tp_windowSize : Z;
  tp_protectedSize : Z;
  tp_probationSize : Z;
  tp_sketch : Sketch;
  tp_doorkeeper : BloomFilter
}.

Definition NewTinyLFUPolicy (totalSize : Z) : TinyLFUPolicy :=
  let windowSize := Z.quot totalSize 100 in
  let mainSize := i64 (totalSize - windowSize) in
  mkTinyLFUPolicy windowSize (Z.quot (i64 (mainSize * 80)) 100) (Z.quot (i64 (mainSize * 20)) 100)
    (NewSketch 65536 4) (NewBloomFilter 65536).

Definition ShouldAdmit (p : TinyLFUPolicy) (candidateKey victimKey : string) : option bool :=
  candidate ← Sketch_Estimate (tp_sketch p) candidateKey;
  victim ← Sketch_Estimate (tp_sketch p) victimKey;
  Some (victim <? candidate).
