(* ===== verification/Warm.v ===== *)
(** * Warm and cold tiers, write-behind

    The engine interface of the lower tiers ([internal/engine/engine.go]), its
    implementation on a Badger database ([engine/badger/store.go]), the stub of the
    cold tier ([engine/s3/store.go]) and the write-behind buffer
    ([internal/persistence/writebehind.go]).

    Badger and [gob] are parameters: a database is a state with transactional
    reads and writes ([BadgerDB]), a blob is what [gob] writes for an entry. A
    transaction is a run on a copy of the database that [txn_Commit] accepts or
    refuses; a write batch, which Badger splits into transactions, applies a list
    of updates, or some of them when it fails ([batch_Flush]). *)

From S2P Require Import Prelude Cache Store Codec.
From stdpp Require Import options.

(** ** The interface of a tier *)

(** [engine.Engine]: the methods that the tiered manager calls. *)
Class TierEngine (T : Type) := {
  eng_Get : Z → T → string → GoError + EngineEntry;
  eng_Set : Z → T → string → GoValue → Z → (GoError + unit) * T;
  eng_Del : Z → T → list string → (Z * option GoError) * T;
  eng_Keys : Z → T → string → GoError + list string;
  eng_TTL : Z → T → string → GoError + Z;
  eng_Expire : Z → T → string → Z → (bool * option GoError) * T;
  eng_Persist : Z → T → string → (bool * option GoError) * T;
  eng_DBSize : Z → T → GoError + Z;
  eng_FlushDB : T → (GoError + unit) * T
}.

(** ** Badger *)

(** [txn_Get] gives the blob and [ExpiresAt] in seconds, 0 for never; [None] is
    [badger.ErrKeyNotFound]. [txn_Set] takes the time to live, if any.
    [batch_Flush] is a write batch with these updates, flushed at a time: whether
    it succeeded, and the database afterwards, which has some of the updates when
    it failed. *)
Class BadgerDB (D B : Type) := {
  txn_Get : Z → D → string → GoError + option (B * Z);
  txn_Set : Z → D → string → B → option Z → GoError + D;
  txn_Delete : D → string → GoError + D;
  txn_Commit : D → D → GoError + D;
  batch_Flush : Z → D → list (D → D) → bool * D;
  db_Keys : Z → D → list string;
  db_DropAll : D → GoError + D
}.

(** [encoding/gob] on entries. *)
Class Gob (B : Type) := {
  gob_encode : EngineEntry → string + B;
  gob_decode : B → string + EngineEntry
}.

(** [time.Now().Unix()]. *)
Definition unix_seconds (now : Z) : Z := now / nanosPerSecond.

(** [time.Until(t)] for a time in seconds. *)
Definition until_seconds (now secs : Z) : Z := time_Until now (secs * nanosPerSecond).

Definition inferValueType (value : GoValue) : ValueType :=
  match value with
  | VString _ | VBytes _ => TypeString
  | VHash _ => TypeHash
  | VList _ => TypeList
  | VSet _ => TypeSet
  | VZSet _ => TypeZSet
  | VNil => TypeString
  end.

Section badger.
Context {D B : Type} `{!BadgerDB D B} `{!Gob B}.

Definition Badger_Get (now : Z) (d : D) (key : string) : GoError + EngineEntry :=
  match txn_Get now d key with
  | inl e => inl e
  | inr None => inl ErrKeyNotFound
  | inr (Some (blob, expiresAt)) =>
      if (0 <? expiresAt) && (expiresAt <? unix_seconds now) then inl ErrKeyNotFound
      else match gob_decode blob with inl e => inl (ErrMessage e) | inr entry => inr entry end
  end.

(** A transaction that ends without an error is committed; [d] is what is left
    otherwise. *)
Definition committed {A} (d : D) (a : A) (r : GoError + D) : (A * option GoError) * D :=
  match r with
  | inl e => ((a, Some e), d)
  | inr d' => match txn_Commit d d' with inl e => ((a, Some e), d) | inr d' => ((a, None), d') end
  end.

Definition unit_result (r : (unit * option GoError) * D) : (GoError + unit) * D :=
  (match r.1.2 with Some e => inl e | None => inr tt end, r.2).

Definition Badger_Set (now : Z) (d : D) (key : string) (value : GoValue) (ttl : Z) : (GoError + unit) * D :=
  let expireAt := if 0 <? ttl then Some (now + ttl) else None in
  match gob_encode (mkEngineEntry key value (inferValueType value) expireAt) with
  | inl e => (inl (ErrMessage ("encode entry: " +:+ e)), d)
  | inr blob => unit_result (committed d tt (txn_Set now d key blob (if 0 <? ttl then Some ttl else None)))
  end.

(** The body of the transaction of [Del]: the count so far, and the error that
    ends it. *)
Fixpoint badger_del_loop (now : Z) (d : D) (keys : list string) (count : Z) : Z * (GoError + D) :=
  match keys with
  | [] => (count, inr d)
  | key :: keys' =>
      match txn_Get now d key with
      | inl e => (count, inl e)
      | inr None => badger_del_loop now d keys' count
      | inr (Some _) =>
          match txn_Delete d key with
          | inl _ => badger_del_loop now d keys' count
          | inr d' => badger_del_loop now d' keys' (count + 1)
          end
      end
  end.

Definition Badger_Del (now : Z) (d : D) (keys : list string) : (Z * option GoError) * D :=
  let '(count, r) := badger_del_loop now d keys 0 in committed d count r.

Definition Badger_Exists (now : Z) (d : D) (keys : list string) : Z :=
  Z.of_nat (length (filter (λ k, match txn_Get now d k with inr (Some _) => true | _ => false end = true) keys)).

(** The pattern is not used. *)
Definition Badger_Keys (now : Z) (d : D) (pattern : string) : list string := db_Keys now d.

Definition Badger_Type (now : Z) (d : D) (key : string) : GoError + string :=
  match Badger_Get now d key with
  | inl e => inl e
  | inr entry =>
      inr (match ee_Type entry with
           | TypeString => "string" | TypeList => "list" | TypeSet => "set" | TypeZSet => "zset" | TypeHash => "hash"
           | TypeUnknown _ => "unknown"
           end)
  end.

(** What is left of a time to live when a blob is written again. *)
Definition ttl_left (now expiresAt : Z) : option Z :=
  if 0 <? expiresAt then let ttl := until_seconds now expiresAt in if 0 <? ttl then Some ttl else None else None.

Definition Badger_Rename (now : Z) (d : D) (key newkey : string) : (GoError + unit) * D :=
  match txn_Get now d key with
  | inl e => (inl e, d)
  | inr None => (inl (ErrMessage "Key not found"), d)
  | inr (Some (blob, expiresAt)) =>
      unit_result (committed d tt
        (match txn_Set now d newkey blob (ttl_left now expiresAt) with inl e => inl e | inr d' => txn_Delete d' key end))
  end.

(** The blob, with the deadline inside it, is written unchanged. *)
Definition Badger_Expire (now : Z) (d : D) (key : string) (ttl : Z) : (bool * option GoError) * D :=
  match txn_Get now d key with
  | inl e => ((false, Some e), d)
  | inr None => committed d false (inr d)
  | inr (Some (blob, _)) => committed d true (txn_Set now d key blob (Some ttl))
  end.

Definition Badger_ExpireAt (now : Z) (d : D) (key : string) (t : Z) : (bool * option GoError) * D :=
  Badger_Expire now d key (time_Until now t).

Definition Badger_TTL (now : Z) (d : D) (key : string) : GoError + Z :=
  match txn_Get now d key with
  | inl e => inl e
  | inr None => inl ErrKeyNotFound
  | inr (Some (_, expiresAt)) =>
      if expiresAt =? 0 then inr (-1)
      else let ttl := until_seconds now expiresAt in if ttl <? 0 then inl ErrKeyNotFound else inr ttl
  end.

Definition Badger_Persist (now : Z) (d : D) (key : string) : (bool * option GoError) * D :=
  match txn_Get now d key with
  | inl e => ((false, Some e), d)
  | inr None => committed d false (inr d)
  | inr (Some (blob, expiresAt)) =>
      if expiresAt =? 0 then committed d false (inr d) else committed d true (txn_Set now d key blob None)
  end.

Definition Badger_DBSize (now : Z) (d : D) : Z := Z.of_nat (length (db_Keys now d)).

Definition Badger_FlushDB (d : D) : (GoError + unit) * D :=
  match db_DropAll d with inl e => (inl e, d) | inr d' => (inr tt, d') end.

Definition BadgerStore : TierEngine D := {|
  eng_Get := Badger_Get;
  eng_Set := Badger_Set;
  eng_Del := Badger_Del;
  eng_Keys now d pattern := inr (Badger_Keys now d pattern);
  eng_TTL := Badger_TTL;
  eng_Expire := Badger_Expire;
  eng_Persist := Badger_Persist;
  eng_DBSize now d := inr (Badger_DBSize now d);
  eng_FlushDB := Badger_FlushDB
|}.

(** ** Write-behind *)

(** An operation of the queue. The entry is the value when it was queued; for a
    collection the code queues the live map or slice of the store, so that a
    flush writes the contents at that later time. *)
Inductive writeOp := opSet (key : string) (entry : EngineEntry) | opDel (key : string).

Record WBConfig := mkWBConfig { wc_BatchSize : nat; wc_ChannelSize : nat }.

Definition DefaultWBConfig : WBConfig := mkWBConfig (N.to_nat 512) (N.to_nat 65536).

(** The channel, and the batch that the flush loop has taken from it. *)
Record WriteBehind := mkWriteBehind {
  wb_cfg : WBConfig;
  wb_ch : list writeOp;
  wb_batch : list writeOp;
  wb_flushed : Z;
  wb_dropped : Z
}.

Definition NewWriteBehind (cfg : WBConfig) : WriteBehind := mkWriteBehind cfg [] [] 0 0.

Definition wb_push (wb : WriteBehind) (op : writeOp) : WriteBehind :=
  if (length (wb_ch wb) <? wc_ChannelSize (wb_cfg wb))%nat
  then mkWriteBehind (wb_cfg wb) (wb_ch wb ++ [op]) (wb_batch wb) (wb_flushed wb) (wb_dropped wb)
  else mkWriteBehind (wb_cfg wb) (wb_ch wb) (wb_batch wb) (wb_flushed wb) (wb_dropped wb + 1).

Definition AppendSet (wb : WriteBehind) (key : string) (entry : EngineEntry) : WriteBehind := wb_push wb (opSet key entry).
Definition AppendDel (wb : WriteBehind) (key : string) : WriteBehind := wb_push wb (opDel key).

(** One operation of a write batch; errors are logged and skipped. *)
Definition flush_op (now : Z) (d : D) (op : writeOp) : D :=
  match op with
  | opSet key entry =>
      match gob_encode entry with
      | inl _ => d
      | inr blob =>
          let ttl := match ee_ExpireAt entry with
                     | None => None
                     | Some t => let ttl := time_Until now t in if 0 <? ttl then Some ttl else None
                     end in
          match txn_Set now d key blob ttl with inl _ => d | inr d' => d' end
      end
  | opDel key => match txn_Delete d key with inl _ => d | inr d' => d' end
  end.

Definition add_flushed (wb : WriteBehind) (n : Z) : WriteBehind :=
  mkWriteBehind (wb_cfg wb) (wb_ch wb) (wb_batch wb) (wb_flushed wb + n) (wb_dropped wb).

Definition wb_flush (now : Z) (wb : WriteBehind) (d : D) (batch : list writeOp) : bool * WriteBehind * D :=
  match batch_Flush now d ((λ op d, flush_op now d op) <$> batch) with
  | (false, d') => (false, wb, d')
  | (true, d') => (true, add_flushed wb (Z.of_nat (length batch)), d')
  end.

(** The pauses of [flushWithRetry] before the second and the third attempt. *)
Definition backoffs : list Z := [0; 100000000; 300000000].

Fixpoint flush_attempts (delays : list Z) (now : Z) (wb : WriteBehind) (d : D) (batch : list writeOp) : WriteBehind * D :=
  match delays with
  | [] => (wb, d)
  | delay :: delays' =>
      match wb_flush (now + delay) wb d batch with
      | (true, wb', d') => (wb', d')
      | (false, wb', d') => flush_attempts delays' now wb' d' batch
      end
  end.

Definition flushWithRetry (now : Z) (wb : WriteBehind) (d : D) (batch : list writeOp) : WriteBehind * D :=
  flush_attempts backoffs now wb d batch.

Definition set_queue (wb : WriteBehind) (ch batch : list writeOp) : WriteBehind :=
  mkWriteBehind (wb_cfg wb) ch batch (wb_flushed wb) (wb_dropped wb).

(** The cases of the [select] of [flushLoop]: an operation from the channel, and
    the timer. *)
Definition loop_receive (now : Z) (wb : WriteBehind) (d : D) : WriteBehind * D :=
  match wb_ch wb with
  | [] => (wb, d)
  | op :: ch =>
      let batch := wb_batch wb ++ [op] in
      if (wc_BatchSize (wb_cfg wb) <=? length batch)%nat
      then let '(wb', d') := flushWithRetry now wb d batch in (set_queue wb' ch [], d')
      else (set_queue wb ch batch, d)
  end.

Definition loop_timer (now : Z) (wb : WriteBehind) (d : D) : WriteBehind * D :=
  match wb_batch wb with
  | [] => (wb, d)
  | batch => let '(wb', d') := flushWithRetry now wb d batch in (set_queue wb' (wb_ch wb') [], d')
  end.

(** [drain] flushes what is in the channel, one operation at a time. *)
Fixpoint drain_ops (now : Z) (wb : WriteBehind) (d : D) (ops : list writeOp) : WriteBehind * D :=
  match ops with
  | [] => (wb, d)
  | op :: ops' => let '(_, wb', d') := wb_flush now wb d [op] in drain_ops now wb' d' ops'
  end.

(** [Stop]: the loop returns, and with it the batch that it holds; then the
    channel is drained. *)
Definition WriteBehind_Stop (now : Z) (wb : WriteBehind) (d : D) : WriteBehind * D :=
  let '(wb', d') := drain_ops now (set_queue wb (wb_ch wb) []) d (wb_ch wb) in (set_queue wb' [] [], d').

(** ** Loading *)

Section load.
Context `{!GoRange Z Z} `{!GoRange string unit} `{!GoRange string string} `{!GoRange string float64}.
Context (json_float : float64 → list byte) (parse_float : list byte → option float64) (json_error : list byte → string).

(** The error of the callback of [item.Value]. *)
Definition load_item (env : Env) (key : string) (blob : B) : SM (GoError + unit) :=
  match gob_decode blob with
  | inl e => sret (inl (ErrMessage e))
  | inr entry =>
      let entry := mkEngineEntry key (ee_Value entry) (ee_Type entry) (ee_ExpireAt entry) in
      match SerializeEntryValue json_float json_error entry with
      | inl e => sret (inl e)
      | inr payload =>
          let restore ttl := Store_RestoreEntry (DecodeSerializedValue parse_float json_error) env key (ee_Type entry) (drop 1 payload) ttl in
          match ee_ExpireAt entry with
          | None => restore 0
          | Some t => let ttl := time_Until (env_now env) t in if ttl <? 0 then sret (inr tt) else restore ttl
          end
      end
  end.

Fixpoint load_keys (env : Env) (d : D) (keys : list string) (count : Z) : SM Z :=
  match keys with
  | [] => sret count
  | key :: keys' =>
      let! known := Store_GetEntry env key in
      match known with
      | inr _ => load_keys env d keys' count
      | inl _ =>
          match txn_Get (env_now env) d key with
          | inr (Some (blob, _)) =>
              let! r := load_item env key blob in
              load_keys env d keys' (match r with inl _ => count | inr _ => count + 1 end)
          | _ => load_keys env d keys' count
          end
      end
  end.

Definition LoadIntoMemory (env : Env) (d : D) : SM Z := load_keys env d (db_Keys (env_now env) d) 0.
End load.
End badger.

(** ** The cold tier: [s3/store.go] *)

Inductive S3Store := mkS3.

(** The store cannot be created. *)
Definition NewS3Store (endpoint bucket : string) : string + S3Store :=
  inl ("cold tier is experimental and not implemented: endpoint=" +:+ endpoint +:+ " bucket=" +:+ bucket).

Definition S3_engine : TierEngine S3Store := {|
  eng_Get _ _ _ := inl ErrKeyNotFound;
  eng_Set _ s _ _ _ := (inr tt, s);
  eng_Del _ s _ := ((0, None), s);
  eng_Keys _ _ _ := inr [];
  eng_TTL _ _ _ := inl ErrKeyNotFound;
  eng_Expire _ s _ _ := ((false, None), s);
  eng_Persist _ s _ := ((false, None), s);
  eng_DBSize _ _ := inr 0;
  eng_FlushDB s := (inr tt, s)
|}.
