(* ===== verification/Tiered.v ===== *)
(** * Tiered storage: [internal/engine/tiered/manager.go], [migrator.go]

    The manager reads from the memory store (the hot tier), then from the warm
    and the cold tier; writes go to the hot tier and to the write-behind queue.
    A read from a lower tier may start a promotion, which runs on its own: it is
    kept in [tm_pending] and its steps are separate operations. The migrator
    demotes keys in three steps, between which clients run. The tiers are any
    implementations of [TierEngine], the policy any [TierPolicy]. Metrics are
    left out, as are contexts that end early. *)

From S2P Require Import Prelude Strconv Cache Store Objects Codec Engine Hotspot Rebalance TierStats Warm.
From stdpp Require Import options.

(** ** State *)

Record TierConfig := mkTierConfig {
  tc_WarmTierEnabled : bool;
  tc_WarmTierPath : string;
  tc_ColdTierEnabled : bool;
  tc_ColdTierEndpoint : string;
  tc_ColdTierBucket : string;
  tc_MigrationBatchSize : Z;
  tc_MigrationRateLimit : Z;
  tc_PolicyConfig : option CostAwareConfig;
  tc_HotAccessThreshold : Z;
  tc_HotIdleThreshold : Z;
  tc_ColdIdleThreshold : Z
}.

Definition DefaultTierConfig : TierConfig :=
  mkTierConfig true "/data/warm" false "" "" 100 (10 * 1024 * 1024) None 10 (5 * nanosPerMinute) (2 * nanosPerHour).

(** A promotion under way; [pr_written] once the value is in its new tier. *)
Record promotion := mkPromotion {
  pr_key : string;
  pr_value : string;
  pr_entry : EngineEntry;
  pr_from : TierType;
  pr_written : bool
}.

(** The bucket of the rate limiter. *)
Record tokenBucket := mkBucket { tb_tokens : float64; tb_rate : float64; tb_lastTime : Z }.

Definition newTokenBucket (now rateBytesPerSec : Z) : tokenBucket :=
  mkBucket (f64_of_Z rateBytesPerSec) (f64_of_Z rateBytesPerSec) now.

(** [Duration.Seconds]. *)
Definition Seconds (d : Z) : float64 :=
  f64_plus (f64_of_Z (Z.quot d nanosPerSecond)) (f64_div (f64_of_Z (Z.rem d nanosPerSecond)) (f64_of_Z nanosPerSecond)).

(** The time to sleep and the bucket after it. *)
Definition bucket_wait (now : Z) (tb : tokenBucket) (n : Z) : Z * tokenBucket :=
  let elapsed := Seconds (time_Since now (tb_lastTime tb)) in
  let tokens := f64_plus (tb_tokens tb) (f64_mul elapsed (tb_rate tb)) in
  let tokens := if SFltb (tb_rate tb) tokens then tb_rate tb else tokens in
  let tokens := f64_minus tokens (f64_of_Z n) in
  let tb' := mkBucket tokens (tb_rate tb) now in
  if SFltb tokens f64_zero then (f64_to_u64 (f64_mul (f64_div (SFopp tokens) (tb_rate tb)) (f64_of_Z nanosPerSecond)), tb')
  else (0, tb').

Record TierManager (W C P : Type) := mkTM {
  tm_config : TierConfig;
  tm_hot : Store;
  tm_warm : option W;
  tm_cold : option C;
  tm_stats : StatsCollector;
  tm_policy : P;
  tm_wb : option WriteBehind;
  tm_pending : list promotion;
  tm_migrationsUp : Z;
  tm_migrationsDown : Z;
  tm_limiter : option tokenBucket
}.
Arguments mkTM {W C P}.
Arguments tm_config {W C P}.
Arguments tm_hot {W C P}.
Arguments tm_warm {W C P}.
Arguments tm_cold {W C P}.
Arguments tm_stats {W C P}.
Arguments tm_policy {W C P}.
Arguments tm_wb {W C P}.
Arguments tm_pending {W C P}.
Arguments tm_migrationsUp {W C P}.
Arguments tm_migrationsDown {W C P}.
Arguments tm_limiter {W C P}.

(** The size of the promotion semaphore. *)
Definition promoteSlots : nat := 16.

(** The policy that [NewManager] builds. *)
Definition manager_policy (cfg : TierConfig) : CostAwarePolicy :=
  let pc := default DefaultCostAwareConfig (tc_PolicyConfig cfg) in
  NewCostAwarePolicy
    (mkCostAwareConfig (ca_HotCapacity pc) (tc_HotIdleThreshold cfg) (ca_WindowPercentage pc) (ca_ProtectedPercentage pc)
       (tc_HotAccessThreshold cfg) (ca_WarmToColdDemoteThreshold pc) (ca_CostAccessWeight pc) (ca_CostRecencyWeight pc)
       (ca_CostSizePenaltyWeight pc) (ca_CostWritePenaltyWeight pc)).

(** [initWarmTier] and [initColdTier] are what opening the stores gives. *)
Definition NewTierManager {W C} (initWarmTier : string → string + W) (initColdTier : string → string → string + C)
    (now : Z) (cfg : TierConfig) (hot : Store) : string + TierManager W C CostAwarePolicy :=
  match (if tc_WarmTierEnabled cfg then match initWarmTier (tc_WarmTierPath cfg) with inl e => inl ("init warm tier: " +:+ e) | inr w => inr (Some w) end
         else inr None) with
  | inl e => inl e
  | inr warm =>
  match (if tc_ColdTierEnabled cfg then match initColdTier (tc_ColdTierEndpoint cfg) (tc_ColdTierBucket cfg) with inl e => inl ("init cold tier: " +:+ e) | inr c => inr (Some c) end
         else inr None) with
  | inl e => inl e
  | inr cold =>
      inr (mkTM cfg hot warm cold NewStatsCollector (manager_policy cfg) None [] 0 0
             (if 0 <? tc_MigrationRateLimit cfg then Some (newTokenBucket now (tc_MigrationRateLimit cfg)) else None))
  end end.

(** ** Values *)

Definition entryTTL (now : Z) (entry : EngineEntry) : Z :=
  match ee_ExpireAt entry with
  | None => 0
  | Some t => let ttl := time_Until now t in if ttl <? 0 then 0 else ttl
  end.

Definition stringEntryValue (entry : EngineEntry) : GoError + string :=
  match ee_Value entry with
  | VString s => inr s
  | VBytes b => inr (BytesToString b)
  | _ => inl ErrNotSupported
  end.

(** ** The monad of the manager *)

Definition tret {E A} (a : A) : EM E A := λ m, Some (a, m).
Definition tbind {E A B} (f : EM E A) (k : A → EM E B) : EM E B := λ m, match f m with None => None | Some (a, m') => k a m' end.

Notation "'let^' x := f 'in' k" := (tbind f (λ x, k)) (at level 200, x pattern, f at level 100, k at level 200).

Section manager.
Context {W C P : Type} `{!TierEngine W} `{!TierEngine C} `{!TierPolicy P}.
Context `{!GoRange Z Z} `{!GoRange string (Dict.Entry typedValue)} `{!GoRange string AccessStats}.
Context (path_match : string → string → bool).

(** The text of the error of [strconv.ParseInt]. *)
Context (parse_error : string → string).

#[local] Notation TM := (TierManager W C P).
#[local] Notation MM A := (EM TM A).

Definition put_hot (m : TM) (s : Store) : TM :=
  mkTM (tm_config m) s (tm_warm m) (tm_cold m) (tm_stats m) (tm_policy m) (tm_wb m) (tm_pending m) (tm_migrationsUp m) (tm_migrationsDown m) (tm_limiter m).
Definition put_warm (m : TM) (w : W) : TM :=
  mkTM (tm_config m) (tm_hot m) (Some w) (tm_cold m) (tm_stats m) (tm_policy m) (tm_wb m) (tm_pending m) (tm_migrationsUp m) (tm_migrationsDown m) (tm_limiter m).
Definition put_cold (m : TM) (c : C) : TM :=
  mkTM (tm_config m) (tm_hot m) (tm_warm m) (Some c) (tm_stats m) (tm_policy m) (tm_wb m) (tm_pending m) (tm_migrationsUp m) (tm_migrationsDown m) (tm_limiter m).
Definition put_stats (m : TM) (sc : StatsCollector) : TM :=
  mkTM (tm_config m) (tm_hot m) (tm_warm m) (tm_cold m) sc (tm_policy m) (tm_wb m) (tm_pending m) (tm_migrationsUp m) (tm_migrationsDown m) (tm_limiter m).
Definition put_policy (m : TM) (p : P) : TM :=
  mkTM (tm_config m) (tm_hot m) (tm_warm m) (tm_cold m) (tm_stats m) p (tm_wb m) (tm_pending m) (tm_migrationsUp m) (tm_migrationsDown m) (tm_limiter m).
Definition put_wb (m : TM) (wb : option WriteBehind) : TM :=
  mkTM (tm_config m) (tm_hot m) (tm_warm m) (tm_cold m) (tm_stats m) (tm_policy m) wb (tm_pending m) (tm_migrationsUp m) (tm_migrationsDown m) (tm_limiter m).
Definition put_pending (m : TM) (ps : list promotion) : TM :=
  mkTM (tm_config m) (tm_hot m) (tm_warm m) (tm_cold m) (tm_stats m) (tm_policy m) (tm_wb m) ps (tm_migrationsUp m) (tm_migrationsDown m) (tm_limiter m).
Definition put_counters (m : TM) (up down : Z) : TM :=
  mkTM (tm_config m) (tm_hot m) (tm_warm m) (tm_cold m) (tm_stats m) (tm_policy m) (tm_wb m) (tm_pending m) up down (tm_limiter m).
Definition put_limiter (m : TM) (tb : option tokenBucket) : TM :=
  mkTM (tm_config m) (tm_hot m) (tm_warm m) (tm_cold m) (tm_stats m) (tm_policy m) (tm_wb m) (tm_pending m) (tm_migrationsUp m) (tm_migrationsDown m) tb.

(** A method of the memory store, run on the hot tier. *)
Definition on_hot {A} (f : SM A) : MM A := λ m, match f (tm_hot m) with None => None | Some (a, s) => Some (a, put_hot m s) end.

Definition get {A} (f : TM → A) : MM A := λ m, Some (f m, m).
Definition modify (f : TM → TM) : MM unit := λ m, Some (tt, f m).
Definition modify_opt (f : TM → option TM) : MM unit := λ m, match f m with None => None | Some m' => Some (tt, m') end.

(** Runs a method of a lower tier when there is one, and else gives [a]. *)
Definition on_warm {A} (a : A) (f : W → A * W) : MM A :=
  λ m, match tm_warm m with None => Some (a, m) | Some w => let '(a, w') := f w in Some (a, put_warm m w') end.
Definition on_cold {A} (a : A) (f : C → A * C) : MM A :=
  λ m, match tm_cold m with None => Some (a, m) | Some c => let '(a, c') := f c in Some (a, put_cold m c') end.

Definition record_access (env : Env) (key : string) (size : Z) (tier : TierType) : MM unit :=
  modify_opt (λ m,
    sc ← StatsCollector_RecordAccess (env_now env) (tm_stats m) key size;
    p ← policy_RecordAccess (tm_policy m) key tier;
    Some (put_policy (put_stats m sc) p)).

Definition record_write (env : Env) (key : string) (size : Z) : MM unit :=
  modify_opt (λ m,
    sc ← StatsCollector_RecordWrite (env_now env) (tm_stats m) key size;
    p ← policy_RecordWrite (tm_policy m) key TierHot;
    Some (put_policy (put_stats m sc) p)).

Definition record_move (key : string) (from to : TierType) : MM unit :=
  modify_opt (λ m,
    p ← policy_RecordMove (tm_policy m) key from to;
    Some (put_policy (put_stats m (StatsCollector_UpdateTier (tm_stats m) key to)) p)).

Definition enqueue (f : WriteBehind → WriteBehind) : MM unit := modify (λ m, put_wb m (f <$> tm_wb m)).

(** ** Promotion *)

(** A promotion starts unless the semaphore is full. *)
Definition start_promotion (key value : string) (entry : EngineEntry) (from : TierType) : MM unit :=
  modify (λ m, if (length (tm_pending m) <? promoteSlots)%nat
               then put_pending m (tm_pending m ++ [mkPromotion key value entry from false]) else m).

Definition maybePromote (env : Env) (key value : string) (entry : EngineEntry) : MM unit :=
  let^ m := get id in
  match ShouldPromote (env_now env) (tm_policy m) key (StatsCollector_GetStats (tm_stats m) key) TierWarm with
  | None => λ _, None
  | Some true => start_promotion key value entry TierWarm
  | Some false => tret tt
  end.

Definition promoteFromCold (key value : string) (entry : EngineEntry) : MM unit := start_promotion key value entry TierCold.

Definition drop_pending (i : nat) : MM unit := modify (λ m, put_pending m (delete i (tm_pending m))).

(** The first step of promotion [i]: the value is written to the higher tier. A
    failure ends the promotion. *)
Definition promotion_write (env : Env) (i : nat) : MM unit :=
  let^ p := get (λ m, tm_pending m !! i) in
  match p with
  | None => tret tt
  | Some p =>
      let ttl := entryTTL (env_now env) (pr_entry p) in
      let^ r := match pr_from p with
                | TierCold => on_warm (inr tt) (λ w, eng_Set (env_now env) w (pr_key p) (VString (pr_value p)) ttl)
                | _ => on_hot (Store_Set env (pr_key p) (pr_value p) ttl)
                end in
      match r with
      | inl _ => drop_pending i
      | inr _ => modify (λ m, put_pending m (<[i := mkPromotion (pr_key p) (pr_value p) (pr_entry p) (pr_from p) true]> (tm_pending m)))
      end
  end.

(** The second step: the value is deleted from the lower tier, and the books are
    updated. *)
Definition promotion_remove (env : Env) (i : nat) : MM unit :=
  let^ p := get (λ m, tm_pending m !! i) in
  match p with
  | None => tret tt
  | Some p =>
      if negb (pr_written p) then tret tt
      else
        let^ r := match pr_from p with
                  | TierCold => on_cold (0, None) (λ c, eng_Del (env_now env) c [pr_key p])
                  | _ => on_warm (0, None) (λ w, eng_Del (env_now env) w [pr_key p])
                  end in
        match r.2 with
        | Some _ => drop_pending i
        | None =>
            let^ _ := match pr_from p with
                      | TierCold => record_move (pr_key p) TierCold TierWarm
                      | _ => record_move (pr_key p) TierWarm TierHot
                      end in
            let^ _ := modify (λ m, put_counters m (tm_migrationsUp m + 1) (tm_migrationsDown m)) in
            drop_pending i
        end
  end.

(** ** Reading and writing *)

Definition tm_Get (env : Env) (key : string) : MM (GoError + string) :=
  let^ hot := on_hot (Store_Get env key) in
  match hot with
  | inr val =>
      let^ _ := record_access env key (Z.of_nat (String.length val)) TierHot in
      tret (inr val)
  | inl _ =>
      let^ warm := get (λ m, eng_Get (env_now env) <$> tm_warm m) in
      match (λ f, f key) <$> warm with
      | Some (inr entry) =>
          match stringEntryValue entry with
          | inl e => tret (inl e)
          | inr val =>
              let^ _ := record_access env key (Z.of_nat (String.length val)) TierWarm in
              let^ _ := maybePromote env key val entry in
              tret (inr val)
          end
      | _ =>
          let^ cold := get (λ m, eng_Get (env_now env) <$> tm_cold m) in
          match (λ f, f key) <$> cold with
          | Some (inr entry) =>
              match stringEntryValue entry with
              | inl e => tret (inl e)
              | inr val =>
                  let^ _ := record_access env key (Z.of_nat (String.length val)) TierCold in
                  let^ _ := promoteFromCold key val entry in
                  tret (inr val)
              end
          | _ => tret (inl ErrKeyNotFound)
          end
      end
  end.

Definition tm_Set (env : Env) (key value : string) (ttl : Z) : MM (GoError + unit) :=
  let^ r := on_hot (Store_Set env key value ttl) in
  match r with
  | inl e => tret (inl e)
  | inr _ =>
      let expireAt := if 0 <? ttl then Some (env_now env + ttl) else None in
      let^ _ := enqueue (λ wb, AppendSet wb key (mkEngineEntry key (VString value) TypeString expireAt)) in
      let^ _ := record_write env key (Z.of_nat (String.length value)) in
      tret (inr tt)
  end.

Definition tm_Del (env : Env) (keys : list string) : MM Z :=
  let^ hot := on_hot (Store_Del keys) in
  let^ warm := on_warm (0, None) (λ w, eng_Del (env_now env) w keys) in
  let^ cold := on_cold (0, None) (λ c, eng_Del (env_now env) c keys) in
  let^ _ := enqueue (λ wb, foldl AppendDel wb keys) in
  let^ _ := modify (λ m, put_stats m (foldl StatsCollector_RecordDelete (tm_stats m) keys)) in
  tret (hot + warm.1 + cold.1).

Definition tm_GetEntry (env : Env) (key : string) : MM (GoError + EngineEntry) :=
  let^ hot := on_hot (Store_GetEntry env key) in
  match hot with
  | inr entry => tret (inr entry)
  | inl _ =>
      let^ m := get id in
      match (λ w, eng_Get (env_now env) w key) <$> tm_warm m with
      | Some (inr entry) => tret (inr entry)
      | _ =>
          match (λ c, eng_Get (env_now env) c key) <$> tm_cold m with
          | Some (inr entry) => tret (inr entry)
          | _ => tret (inl ErrKeyNotFound)
          end
      end
  end.

Fixpoint tm_Exists (env : Env) (keys : list string) : MM Z :=
  match keys with
  | [] => tret 0
  | key :: keys' =>
      let^ r := tm_GetEntry env key in
      let^ n := tm_Exists env keys' in
      tret (match r with inr _ => 1 + n | inl _ => n end)
  end.

(** The keys of the tiers, each once. *)
Definition add_new (keys more : list string) : list string := foldl (λ ks k, if bool_decide (k ∈ ks) then ks else ks ++ [k]) keys more.

Definition tm_Keys (env : Env) (pattern : string) : MM (list string) :=
  let^ hot := on_hot (Store_Keys path_match env pattern) in
  let^ m := get id in
  let keys := add_new [] hot in
  let keys := match (λ w, eng_Keys (env_now env) w pattern) <$> tm_warm m with Some (inr ks) => add_new keys ks | _ => keys end in
  tret (match (λ c, eng_Keys (env_now env) c pattern) <$> tm_cold m with Some (inr ks) => add_new keys ks | _ => keys end).

Definition tm_Type (env : Env) (key : string) : MM string :=
  let^ r := tm_GetEntry env key in
  tret (match r with
        | inl _ => "none"
        | inr entry =>
            match ee_Type entry with
            | TypeString => "string" | TypeHash => "hash" | TypeList => "list" | TypeSet => "set" | TypeZSet => "zset"
            | TypeUnknown _ => "none"
            end
        end).

Definition missing_ttl : Z := -2 * nanosPerSecond.

Definition tm_TTL (env : Env) (key : string) : MM Z :=
  let^ hot := on_hot (Store_TTL env key) in
  if negb (hot =? missing_ttl) then tret hot
  else
    let^ m := get id in
    let found (r : option (GoError + Z)) := match r with Some (inr ttl) => if ttl =? missing_ttl then None else Some ttl | _ => None end in
    match found ((λ w, eng_TTL (env_now env) w key) <$> tm_warm m) with
    | Some ttl => tret ttl
    | None =>
        match found ((λ c, eng_TTL (env_now env) c key) <$> tm_cold m) with
        | Some ttl => tret ttl
        | None => tret missing_ttl
        end
    end.

Definition tm_Expire (env : Env) (key : string) (ttl : Z) : MM bool :=
  let^ hot := on_hot (Store_Expire env key ttl) in
  if (hot : bool) then tret true
  else
    let^ warm := on_warm (false, None) (λ w, eng_Expire (env_now env) w key ttl) in
    if warm.1 then tret true
    else let^ cold := on_cold (false, None) (λ c, eng_Expire (env_now env) c key ttl) in tret cold.1.

Definition tm_ExpireAt (env : Env) (key : string) (t : Z) : MM bool := tm_Expire env key (time_Until (env_now env) t).

Definition tm_Persist (env : Env) (key : string) : MM bool :=
  let^ hot := on_hot (Store_Persist env key) in
  if (hot : bool) then tret true
  else
    let^ warm := on_warm (false, None) (λ w, eng_Persist (env_now env) w key) in
    if warm.1 then tret true
    else let^ cold := on_cold (false, None) (λ c, eng_Persist (env_now env) c key) in tret cold.1.

Definition tm_DBSize (env : Env) : MM Z :=
  let^ hot := on_hot Store_DBSize in
  let^ m := get id in
  let count (r : option (GoError + Z)) := match r with Some (inr n) => n | _ => 0 end in
  tret (hot + count ((λ w, eng_DBSize (env_now env) w) <$> tm_warm m) + count ((λ c, eng_DBSize (env_now env) c) <$> tm_cold m)).

Definition tm_FlushDB : MM (GoError + unit) :=
  let^ _ := on_hot Store_FlushDB in
  let^ warm := on_warm (inr tt) eng_FlushDB in
  match warm with
  | inl e => tret (inl e)
  | inr _ => on_cold (inr tt) eng_FlushDB
  end.

(** ** String commands *)

Definition tm_SetNX (env : Env) (key value : string) (ttl : Z) : MM (GoError + bool) :=
  let^ n := tm_Exists env [key] in
  if 0 <? n then tret (inr false)
  else let^ r := tm_Set env key value ttl in tret (match r with inl e => inl e | inr _ => inr true end).

Definition tm_SetXX (env : Env) (key value : string) (ttl : Z) : MM (GoError + bool) :=
  let^ n := tm_Exists env [key] in
  if n =? 0 then tret (inr false)
  else let^ r := tm_Set env key value ttl in tret (match r with inl e => inl e | inr _ => inr true end).

(** The current value: [None] when there is none. *)
Definition tm_current (env : Env) (key : string) : MM (GoError + option string) :=
  let^ r := tm_Get env key in
  tret (match r with
        | inr v => inr (Some v)
        | inl ErrKeyNotFound => inr None
        | inl e => inl e
        end).

(** The value replaced in all tiers. *)
Definition tm_replace {A} (env : Env) (key value : string) (a : A) : MM (GoError + A) :=
  let^ _ := tm_Del env [key] in
  let^ r := tm_Set env key value 0 in
  tret (match r with inl e => inl e | inr _ => inr a end).

Definition tm_GetSet (env : Env) (key value : string) : MM (GoError + string) :=
  let^ r := tm_current env key in
  match r with
  | inl e => tret (inl e)
  | inr current => tm_replace env key value (default "" current)
  end.

Definition tm_IncrBy (env : Env) (key : string) (delta : Z) : MM (GoError + Z) :=
  let^ r := tm_current env key in
  match r with
  | inl e => tret (inl e)
  | inr current =>
      match (match current with None => Some 0 | Some v => strconv_ParseInt (StringToBytes v) end) with
      | None => tret (inl (ErrMessage (parse_error (default "" current))))
      | Some value =>
          let value := i64 (value + delta) in
          tm_replace env key (BytesToString (strconv_FormatInt value)) value
      end
  end.

Definition tm_Append (env : Env) (key suffix : string) : MM (GoError + Z) :=
  let^ r := tm_current env key in
  match r with
  | inl e => tret (inl e)
  | inr current =>
      let updated := default "" current +:+ suffix in
      tm_replace env key updated (Z.of_nat (String.length updated))
  end.

Definition tm_Strlen (env : Env) (key : string) : MM (GoError + Z) :=
  let^ r := tm_current env key in
  tret (match r with inl e => inl e | inr v => inr (Z.of_nat (String.length (default "" v))) end).

Fixpoint tm_MGetBytes (env : Env) (keys : list string) : MM (GoError + list (option (list byte))) :=
  match keys with
  | [] => tret (inr [])
  | key :: keys' =>
      let^ r := tm_current env key in
      match r with
      | inl e => tret (inl e)
      | inr v =>
          let^ rest := tm_MGetBytes env keys' in
          tret (match rest with inl e => inl e | inr vs => inr ((StringToBytes <$> v) :: vs) end)
      end
  end.

(** ** Demotion: [migrator.go] *)

(** What [demoteKey] has read: the entry, if any, and the time left to it. *)
Definition read_entry (now : Z) (r : option (GoError + EngineEntry)) : GoError + option EngineEntry * Z :=
  match r with
  | None => inr (None, 0)
  | Some (inl e) => inl e
  | Some (inr entry) => inr (Some entry, entryTTL now entry)
  end.

Definition demote_read (env : Env) (key : string) (from : TierType) : MM (GoError + option EngineEntry * Z) :=
  let now := env_now env in
  match from with
  | TierHot => let^ r := on_hot (Store_GetEntry env key) in tret (read_entry now (Some r))
  | TierWarm => let^ m := get id in tret (read_entry now ((λ w, eng_Get now w key) <$> tm_warm m))
  | TierCold => tret (read_entry now None)
  end.

Definition entry_expired (now : Z) (entry : option EngineEntry) : bool :=
  match entry ≫= ee_ExpireAt with Some t => time_Until now t <=? 0 | None => false end.

Definition entry_size (entry : option EngineEntry) : Z :=
  match ee_Value <$> entry with
  | Some (VString s) => Z.of_nat (String.length s)
  | Some (VBytes b) => Z.of_nat (length b)
  | _ => 0
  end.

(** The copy into the lower tier; nothing is written when the tier is missing. *)
Definition demote_write (env : Env) (key : string) (entry : option EngineEntry) (ttl : Z) (to : TierType) : MM (GoError + unit) :=
  let now := env_now env in
  let value := match entry with Some e => ee_Value e | None => VNil end in
  let^ _ := modify (λ m, put_limiter m ((λ tb, (bucket_wait now tb (entry_size entry)).2) <$> tm_limiter m)) in
  match to with
  | TierWarm => on_warm (inr tt) (λ w, eng_Set now w key value ttl)
  | TierCold => on_cold (inr tt) (λ c, eng_Set now c key value ttl)
  | TierHot => tret (inr tt)
  end.

Definition demote_delete (env : Env) (key : string) (from to : TierType) : MM unit :=
  let^ _ := match from with
            | TierHot => let^ _ := on_hot (Store_Del [key]) in tret tt
            | TierWarm => let^ _ := on_warm (0, None) (λ w, eng_Del (env_now env) w [key]) in tret tt
            | TierCold => tret tt
            end in
  let^ _ := (if bool_decide (from = TierHot) then modify (λ m, put_counters m (tm_migrationsUp m) (tm_migrationsDown m + 1)) else tret tt) in
  record_move key from to.

(** The error, if any. The steps run at [env] when nothing comes between them. *)
Definition demoteKey (env : Env) (key : string) (from to : TierType) : MM (option GoError) :=
  let^ r := demote_read env key from in
  match r with
  | inl e => tret (Some e)
  | inr (entry, ttl) =>
      if entry_expired (env_now env) entry then tret None
      else
        let^ w := demote_write env key entry ttl to in
        match w with
        | inl e => tret (Some e)
        | inr _ => let^ _ := demote_delete env key from to in tret None
        end
  end.

(** One of the loops of [RunMigration]. *)
Fixpoint demote_keys (env : Env) (keys : list string) (from to : TierType) (demoted : Z) : MM unit :=
  match keys with
  | [] => tret tt
  | key :: keys' =>
      let^ m := get id in
      match StatsCollector_GetStats (tm_stats m) key with
      | None => demote_keys env keys' from to demoted
      | Some st =>
          match ShouldDemote (env_now env) (tm_policy m) key (Some st) from with
          | None => λ _, None
          | Some false => demote_keys env keys' from to demoted
          | Some true =>
              if tc_MigrationBatchSize (tm_config m) <=? demoted then tret tt
              else
                let^ e := demoteKey env key from to in
                demote_keys env keys' from to (match e with Some _ => demoted | None => demoted + 1 end)
          end
      end
  end.

Definition RunMigration (env : Env) : MM unit :=
  let^ m := get id in
  let^ _ := demote_keys env (GetKeysByTier (tm_stats m) TierHot) TierHot TierWarm 0 in
  let^ m := get id in
  match tm_cold m with
  | None => tret tt
  | Some _ => demote_keys env (GetKeysByTier (tm_stats m) TierWarm) TierWarm TierCold 0
  end.

(** ** Statistics *)

Record TieredStats := mkTieredStats {
  ts_HotTierKeys : Z; ts_HotTierSize : Z;
  ts_WarmTierKeys : Z; ts_WarmTierSize : Z;
  ts_ColdTierKeys : Z; ts_ColdTierSize : Z;
  ts_TotalKeys : Z; ts_TotalSize : Z;
  ts_MigrationsUp : Z; ts_MigrationsDown : Z
}.

Definition tm_GetStats (m : TM) : TieredStats :=
  let keys tier := Z.of_nat (length (GetKeysByTier (tm_stats m) tier)) in
  let size := GetSizeByTier (tm_stats m) in
  mkTieredStats (keys TierHot) (size TierHot) (keys TierWarm) (size TierWarm) (keys TierCold) (size TierCold)
    (keys TierHot + keys TierWarm + keys TierCold) (i64 (size TierHot + size TierWarm + size TierCold))
    (tm_migrationsUp m) (tm_migrationsDown m).
End manager.
