(* ===== verification/TieredAdapter.v ===== *)
(** * The tiered engine of the protocol layer

    [TieredStoreAdapter] ([internal/protocol/adapter.go]) implements the interface
    of the command handlers with the tiered manager for strings and keys and with
    the memory store for the rest, whose changes it pushes to the write-behind
    queue. The manager's methods that need the warm tier to be a Badger store
    ([LoadFromDisk], [InitWriteBehind], [Stop]) and the steps of the flush loop on
    its database are here too. *)

From S2P Require Import Prelude Strconv Cache Store Objects Codec Engine TierStats Warm Tiered.
From stdpp Require Import options.

Section adapter.
Context {W C P : Type} `{!TierEngine W} `{!TierEngine C} `{!TierPolicy P}.
Context `{!GoRange Z Z} `{!GoRange string (Dict.Entry typedValue)} `{!GoRange string AccessStats}.
Context `{!GoRange string unit} `{!GoRange string string} `{!GoRange string float64}.
Context (path_match : string → string → bool) (parse_error : string → string).
Context (json_float : float64 → list byte) (parse_float : list byte → option float64) (json_error : list byte → string).

#[local] Notation TM := (TierManager W C P).
#[local] Notation MM A := (EM TM A).

Definition ok {A} (f : MM A) : MM (GoError + A) := let^ a := f in tret (inr a).

(** The entry as it is now, or its absence, for the write-behind queue. *)
Definition pushEntry (env : Env) (key : string) : MM unit :=
  let^ wb := get tm_wb in
  match wb with
  | None => tret tt
  | Some _ =>
      let^ r := on_hot (Store_GetEntry env key) in
      enqueue (λ wb, match r with inl _ => AppendDel wb key | inr entry => AppendSet wb key entry end)
  end.

(** A method of the store, followed by a push when its result says so. *)
Definition pushing {A} (changed : A → bool) (env : Env) (key : string) (f : SM (GoError + A)) : MM (GoError + A) :=
  let^ r := on_hot f in
  let^ _ := (if match r with inr a => changed a | inl _ => false end then pushEntry env key else tret tt) in
  tret r.

Definition some_changed (n : Z) : bool := 0 <? n.
Definition not_empty (val : string) : bool := negb (bool_decide (val = "")).
Definition always (_ : unit) : bool := true.

Definition mustSerializeEntry (entry : EngineEntry) : option (list byte) :=
  match SerializeEntryValue json_float json_error entry with inl _ => None | inr serialized => Some (drop 1 serialized) end.

Definition tieredStringValue (entry : EngineEntry) : GoError + string :=
  match ee_Value entry with
  | VString s => inr s
  | VBytes b => inr (BytesToString b)
  | v => inl (ErrMessage ("entry value type " +:+ type_name (ee_Type entry) v +:+ " is not string-like"))
  end.

Definition adapter_Rename (env : Env) (key newkey : string) : MM (GoError + unit) :=
  let^ r := tm_GetEntry env key in
  match r with
  | inl e => tret (inl e)
  | inr entry =>
      let^ ttl := tm_TTL env key in
      let^ _ := tm_Del env [newkey] in
      let^ _ := tm_Del env [key] in
      if negb (bool_decide (ee_Type entry = TypeString)) then
        match mustSerializeEntry entry with
        | None => λ _, None
        | Some payload => on_hot (Store_RestoreEntry (DecodeSerializedValue parse_float json_error) env newkey (ee_Type entry) payload ttl)
        end
      else match tieredStringValue entry with
           | inl e => tret (inl e)
           | inr value => tm_Set env newkey value ttl
           end
  end.

Definition TieredStoreAdapter : ProtocolEngine TM := {|
  pe_GetBytes env key := let^ r := tm_Get env key in tret (match r with inl e => inl e | inr v => inr (StringToBytes v) end);
  pe_Set := tm_Set;
  pe_SetNX := tm_SetNX;
  pe_SetXX := tm_SetXX;
  pe_GetSet := tm_GetSet;
  pe_Incr env key := on_hot (Store_Incr env key);
  pe_IncrBy := tm_IncrBy parse_error;
  pe_Decr env key := on_hot (Store_Decr env key);
  pe_DecrBy env key delta := tm_IncrBy parse_error env key (i64 (- delta));
  pe_Append := tm_Append;
  pe_Strlen := tm_Strlen;
  pe_MGetBytes := tm_MGetBytes;
  pe_MSet env pairs := on_hot (Store_MSet env pairs);
  pe_HGet env key field := on_hot (Store_HGet env key field);
  pe_HSet env key pairs := pushing some_changed env key (Store_HSet env key pairs);
  pe_HDel env key fields := pushing some_changed env key (Store_HDel env key fields);
  pe_HExists env key field := on_hot (Store_HExists env key field);
  pe_HGetAll env key := on_hot (Store_HGetAll env key);
  pe_HKeys env key := on_hot (Store_HKeys env key);
  pe_HVals env key := on_hot (Store_HVals env key);
  pe_HLen env key := on_hot (Store_HLen env key);
  pe_LPush env key values := pushing some_changed env key (Store_LPush env key values);
  pe_RPush env key values := pushing some_changed env key (Store_RPush env key values);
  pe_LPop env key := pushing not_empty env key (Store_LPop env key);
  pe_RPop env key := pushing not_empty env key (Store_RPop env key);
  pe_LRange env key start stop := on_hot (Store_LRange env key start stop);
  pe_LLen env key := on_hot (Store_LLen env key);
  pe_LIndex env key index := on_hot (Store_LIndex env key index);
  pe_LSet env key index value := pushing always env key (Store_LSet env key index value);
  pe_LTrim env key start stop := pushing always env key (Store_LTrim env key start stop);
  pe_SAdd env key members := pushing some_changed env key (Store_SAdd env key members);
  pe_SRem env key members := pushing some_changed env key (Store_SRem env key members);
  pe_SMembers env key := on_hot (Store_SMembers env key);
  pe_SIsMember env key member := on_hot (Store_SIsMember env key member);
  pe_SCard env key := on_hot (Store_SCard env key);
  pe_ZAdd env key members := pushing some_changed env key (Store_ZAdd env key members);
  pe_ZRem env key members := pushing some_changed env key (Store_ZRem env key members);
  pe_ZRange env key start stop := on_hot (Store_ZRange env key start stop);
  pe_ZScore env key member := on_hot (Store_ZScore env key member);
  pe_ZRank env key member := on_hot (Store_ZRank env key member);
  pe_ZCard env key := on_hot (Store_ZCard env key);
  pe_Del env keys := ok (tm_Del env keys);
  pe_Exists env keys := ok (tm_Exists env keys);
  pe_Keys env pattern := ok (tm_Keys path_match env pattern);
  pe_Type env key := ok (tm_Type env key);
  pe_Rename := adapter_Rename;
  pe_Scan env cursor pattern count := λ m, r ← Store_Scan path_match env (tm_hot m) cursor pattern count; Some (inr r, m);
  pe_TTL env key := ok (tm_TTL env key);
  pe_Expire env key ttl := ok (tm_Expire env key ttl);
  pe_ExpireAt env key t := ok (tm_ExpireAt env key t);
  pe_Persist env key := ok (tm_Persist env key);
  pe_DBSize env := ok (tm_DBSize env);
  pe_FlushDB _ := tm_FlushDB;
  pe_GetEntry := tm_GetEntry;
  pe_RestoreEntry env key valueType payload ttl :=
    on_hot (Store_RestoreEntry (DecodeSerializedValue parse_float json_error) env key valueType payload ttl);
  pe_GetStats _ := None;
  pe_KeysInSlot env slot count := on_hot (Store_KeysInSlot env slot count);
  pe_CountKeysInSlot env slot := on_hot (Store_CountKeysInSlot env slot)
|}.
End adapter.

(** ** The manager over a Badger database *)

Section disk.
Context {D B C P : Type} `{!BadgerDB D B} `{!Gob B} `{!TierEngine C} `{!TierPolicy P}.
Context `{!GoRange Z Z} `{!GoRange string unit} `{!GoRange string string} `{!GoRange string float64}.
Context (json_float : float64 → list byte) (parse_float : list byte → option float64) (json_error : list byte → string).

#[local] Notation TM := (TierManager D C P).
#[local] Notation MM A := (EM TM A).

Definition LoadFromDisk (env : Env) : MM (string + Z) :=
  let^ warm := get tm_warm in
  match warm with
  | None => tret (inl "warm tier not available for loading")
  | Some d => let^ n := on_hot (LoadIntoMemory json_float parse_float json_error env d) in tret (inr n)
  end.

Definition InitWriteBehind (cfg : WBConfig) : MM (string + unit) :=
  let^ warm := get tm_warm in
  match warm with
  | None => tret (inl "warm tier not available for write-behind")
  | Some _ => let^ _ := modify (λ m, put_wb m (Some (NewWriteBehind cfg))) in tret (inr tt)
  end.

(** A step of the write-behind on the database of the warm tier. *)
Definition on_disk (f : WriteBehind → D → WriteBehind * D) : MM unit :=
  modify (λ m, match tm_wb m, tm_warm m with
               | Some wb, Some d => let '(wb', d') := f wb d in put_wb (put_warm m d') (Some wb')
               | _, _ => m
               end).

Definition flush_receive (env : Env) : MM unit := on_disk (loop_receive (env_now env)).
Definition flush_timer (env : Env) : MM unit := on_disk (loop_timer (env_now env)).

(** [Stop], once the migration loop has ended: the write-behind is stopped, then
    the tiers are closed. *)
Definition Manager_Stop (env : Env) : MM unit := on_disk (WriteBehind_Stop (env_now env)).
End disk.
