(* ===== verification/WriteBehindSpec.v ===== *)
(** * What the write-behind queue persists

    Runs of the queue are sequences of pushes by clients and of steps of the flush
    loop, on a database whose write batches may fail. The operations are handed to
    the database in the order in which they were accepted, batch by batch; a batch
    that fails three times is lost, and stopping the queue loses the batch that
    the loop holds. *)

From S2P Require Import Prelude Store Warm.
From stdpp Require Import options.

(** What Badger documents of write batches: [Flush] returns without error when all
    updates are committed, in order. A batch is written in one or more
    transactions, so that a failed one may have written some of them. *)
Class WriteBatchLaws (D B : Type) `{!BadgerDB D B} := {
  batch_committed now d us d' : batch_Flush now d us = (true, d') → d' = foldl (λ d u, u d) d us;
  batch_failed now d us d' : batch_Flush now d us = (false, d') → ∃ vs, vs `sublist_of` us ∧ d' = foldl (λ d u, u d) d vs
}.

Section queue.
Context {D B : Type} `{!BadgerDB D B} `{!Gob B}.








Context `{!WriteBatchLaws D B}.











End queue.

(** ** On a database that is a map *)

Section witness.
(** At time 5 no batch can be written. *)
#[local] Instance map_db : BadgerDB (gmap string (EngineEntry * Z)) EngineEntry := {|
  txn_Get _ d k := inr (d !! k);
  txn_Set now d k b ttl := inr (<[k := (b, match ttl with Some t => unix_seconds (now + t) | None => 0 end)]> d);
  txn_Delete d k := inr (delete k d);
  txn_Commit _ d := inr d;
  batch_Flush now d us := if now =? 5 then (false, d) else (true, foldl (λ d u, u d) d us);
  db_Keys _ d := (map_to_list d).*1;
  db_DropAll _ := inr ∅
|}.
#[local] Instance entry_gob : Gob EngineEntry := {| gob_encode := inr; gob_decode := inr |}.

#[local] Instance map_batches : WriteBatchLaws (gmap string (EngineEntry * Z)) EngineEntry.
Proof.
  split; intros now d us d'; unfold batch_Flush, map_db; destruct (now =? 5); intros [= <-]; [done|].
  exists []. split; [apply sublist_nil_l|done].
Qed.


End witness.
