(* ===== verification/TierStatsSpec.v ===== *)
(** * Access statistics never fail and never undercount

    The sketch and the Bloom filter of the tier policies index their arrays with a
    hash that may be the smallest integer, whose negation is itself; their sizes are
    powers of two, so the index is in range for every key. The frequency
    that the collector gives for a key is at least its number of accesses, up to
    the largest counter and halved by every decay. *)

From S2P Require Import Prelude Slots Store Codec TierStats.
From stdpp Require Import options.

(** ** Indices *)

Lemma hash_fold_range (rs : list rune) h : is_i64 h → is_i64 (foldl (λ h r, i64 (h * 31 + rune_code r)) h rs).
Proof. revert h. induction rs as [|r rs IH]; intros h Hh; [done|]. apply IH, i64_range. Qed.

Lemma tier_hash_range key seed : 0 ≤ tier_hash key seed < 2 ^ 63 ∨ tier_hash key seed = - 2 ^ 63.
Proof.
  unfold tier_hash. set (h := foldl _ _ _). assert (is_i64 h) as Hh by apply hash_fold_range, i64_range. clearbody h.
  unfold is_i64 in Hh. destruct (Z.ltb_spec h 0); [|left; lia].
  destruct (Z.eq_dec h (- 2 ^ 63)) as [->|Hne]; [right; reflexivity|].
  left. rewrite i64_id by (unfold is_i64; lia). lia.
Qed.

Definition tier_index (key : string) (i : Z) : Z := Z.rem (tier_hash key i) 65536.

Lemma tier_index_range key i : 0 ≤ tier_index key i < 65536.
Proof.
  unfold tier_index. destruct (tier_hash_range key i) as [H|H].
  - rewrite Z.rem_mod_nonneg by lia. apply Z.mod_pos_bound. lia.
  - rewrite H. by vm_compute.
Qed.

Lemma at_index_nat {A} (l : list A) i : 0 ≤ i → at_index l i = l !! Z.to_nat i.
Proof. intros. unfold at_index. by rewrite (proj2 (Z.ltb_ge _ _)). Qed.

(** ** The sketch *)

Definition wide {A} (row : list A) : Prop := Z.of_nat (length row) = 65536.

Record sketch_ok (c : Sketch) : Prop := {
  so_width : sk_width c = 65536;
  so_rows : Forall wide (sk_matrix c)
}.

Lemma wide_lookup {A} (row : list A) key i : wide row → is_Some (row !! Z.to_nat (tier_index key i)).
Proof. intros H. apply lookup_lt_is_Some. pose proof (tier_index_range key i). unfold wide in H. lia. Qed.

Lemma wide_at {A} (row : list A) key i : wide row → ∃ x, at_index row (tier_index key i) = Some x ∧ row !! Z.to_nat (tier_index key i) = Some x.
Proof.
  intros H. destruct (wide_lookup row key i H) as [x Hx]. exists x. split; [|done].
  rewrite at_index_nat; [done|]. apply tier_index_range.
Qed.

Lemma wide_replicate {A} (x : A) : wide (replicate (Z.to_nat 65536) x).
Proof. unfold wide. rewrite length_replicate. lia. Qed.

Lemma NewSketch_ok depth : sketch_ok (NewSketch 65536 depth).
Proof. split; [done|]. apply Forall_replicate, wide_replicate. Qed.

(** The counters of a row for a key are between the bound [f key] and 255. *)
Definition counted (f : string → Z) (i : Z) (row : list Z) : Prop :=
  ∀ key n, row !! Z.to_nat (tier_index key i) = Some n → f key ≤ n ≤ 255.

(** One more access of [key]. *)
Definition bump (key : string) (f : string → Z) : string → Z := λ k, if decide (k = key) then Z.min (f k + 1) 255 else f k.

Lemma counted_increment f i row key n :
  counted f i row → row !! Z.to_nat (tier_index key i) = Some n →
  counted (bump key f) i (if n <? 255 then <[Z.to_nat (tier_index key i) := n + 1]> row else row).
Proof.
  intros Hc Hn k x. unfold bump. destruct (Z.ltb_spec n 255) as [Hlt|Hge].
  - destruct (decide (Z.to_nat (tier_index k i) = Z.to_nat (tier_index key i))) as [E|E].
    + rewrite E, list_lookup_insert_eq by (by eapply lookup_lt_Some). intros [= <-]. rewrite <-E in Hn. specialize (Hc k n Hn).
      case_decide; lia.
    + rewrite list_lookup_insert_ne by done. intros Hx. rewrite decide_False by (by intros ->). by apply Hc.
  - intros Hx. specialize (Hc k x Hx). case_decide as E; [|done]. subst k. rewrite Hn in Hx. simplify_eq. lia.
Qed.

Lemma increment_rows_spec key rows i :
  Forall wide rows →
  ∃ rows', increment_rows key 65536 i rows = Some rows' ∧ Forall wide rows' ∧
    ∀ f, (∀ j row, rows !! j = Some row → counted f (i + Z.of_nat j) row) →
      ∀ j row, rows' !! j = Some row → counted (bump key f) (i + Z.of_nat j) row.
Proof.
  revert i. induction rows as [|row rows IH]; intros i HF; cbn [increment_rows]; [by exists []|].
  apply Forall_cons in HF as [Hw HF]. fold (tier_index key i).
  destruct (wide_at row key i Hw) as (n & -> & Hn). cbn [mbind option_bind].
  destruct (IH (i + 1) HF) as (rows' & -> & HF' & Hc). cbn [mbind option_bind]. eexists. split; [done|]. split.
  - constructor; [|done]. unfold wide in *. destruct (n <? 255); by rewrite ?length_insert.
  - intros f Hs [|j] row' Hj; simpl in Hj.
    + simplify_eq. rewrite Z.add_0_r in *. apply counted_increment; [|done].
      specialize (Hs 0%nat row eq_refl). by rewrite Z.add_0_r in Hs.
    + replace (i + Z.of_nat (S j)) with (i + 1 + Z.of_nat j) by lia. apply (Hc f); [|done].
      intros j' r Hr. replace (i + 1 + Z.of_nat j') with (i + Z.of_nat (S j')) by lia. by apply Hs.
Qed.

(** A sketch of the right shape whose estimates are at least [f]. *)
Definition sketch_counts (f : string → Z) (c : Sketch) : Prop :=
  sketch_ok c ∧ ∀ j row, sk_matrix c !! j = Some row → counted f (0 + Z.of_nat j) row.

Lemma Increment_counts f c key : sketch_counts f c → ∃ c', Sketch_Increment c key = Some c' ∧ sketch_counts (bump key f) c'.
Proof.
  intros [[Hw HF] Hc]. destruct (increment_rows_spec key (sk_matrix c) 0 HF) as (rows' & Hi & HF' & Hc').
  unfold Sketch_Increment. rewrite Hw, Hi. eexists. split; [done|]. split; [by split|]. by apply Hc'.
Qed.

Lemma Increment_ok c key : sketch_ok c → ∃ c', Sketch_Increment c key = Some c' ∧ sketch_ok c'.
Proof.
  intros [Hw HF]. destruct (increment_rows_spec key (sk_matrix c) 0 HF) as (rows' & Hi & HF' & _).
  unfold Sketch_Increment. rewrite Hw, Hi. eexists. split; [done|]. by split.
Qed.

Lemma estimate_rows_spec key rows i least :
  Forall wide rows →
  ∃ e, estimate_rows key 65536 i rows least = Some e ∧ e ≤ least ∧
    ∀ lo, lo ≤ least → (∀ j row n, rows !! j = Some row → row !! Z.to_nat (tier_index key (i + Z.of_nat j)) = Some n → lo ≤ n) → lo ≤ e.
Proof.
  revert i least. induction rows as [|row rows IH]; intros i least HF; cbn [estimate_rows]; [by exists least|].
  apply Forall_cons in HF as [Hw HF]. fold (tier_index key i). destruct (wide_at row key i Hw) as (n & -> & Hn). cbn [mbind option_bind].
  destruct (IH (i + 1) (if n <? least then n else least) HF) as (e & -> & He & Hlo). exists e. split; [done|].
  split; [destruct (Z.ltb_spec n least); lia|]. intros lo Hl Hall. apply Hlo.
  - specialize (Hall 0%nat row n eq_refl). rewrite Z.add_0_r in Hall. specialize (Hall Hn). destruct (Z.ltb_spec n least); lia.
  - intros j r x Hr. replace (i + 1 + Z.of_nat j) with (i + Z.of_nat (S j)) by lia. by apply Hall.
Qed.

Lemma Estimate_ok c key : sketch_ok c → is_Some (Sketch_Estimate c key).
Proof.
  intros [Hw HF]. unfold Sketch_Estimate. rewrite Hw. destruct (estimate_rows_spec key (sk_matrix c) 0 255 HF) as (e & -> & _). done.
Qed.

Lemma Reset_ok c : sketch_ok c → sketch_ok (Sketch_Reset c).
Proof.
  intros [Hw HF]. split; [done|]. unfold Sketch_Reset. cbn [sk_matrix]. apply Forall_map. eapply Forall_impl; [exact HF|].
  unfold wide. intros row. cbn. by rewrite length_map.
Qed.

Lemma Reset_counts f c : sketch_counts f c → sketch_counts (λ k, f k / 2) (Sketch_Reset c).
Proof.
  intros [Hok Hc]. split; [by apply Reset_ok|]. intros j row Hj. unfold Sketch_Reset in Hj. cbn [sk_matrix] in Hj.
  rewrite list_lookup_fmap in Hj. destruct (sk_matrix c !! j) as [row'|] eqn:E; [|done]. injection Hj as <-.
  intros k n Hn. rewrite list_lookup_fmap in Hn. destruct (row' !! _) as [n'|] eqn:En; [|done]. injection Hn as <-.
  destruct (Hc j row' E k n' En) as [H1 H2]. split; [by apply Z.div_le_mono|]. apply (Z.le_trans _ (255 / 2)); [by apply Z.div_le_mono|done].
Qed.

Lemma Estimate_counts f c key :
  sketch_counts f c → f key ≤ 255 → ∃ e, Sketch_Estimate c key = Some e ∧ f key ≤ e ≤ 255.
Proof.
  intros [[Hw HF] Hc] H255. destruct (estimate_rows_spec key (sk_matrix c) 0 255 HF) as (e & He & Hle & Hlo).
  exists e. unfold Sketch_Estimate. rewrite Hw. split_and!; [done| |done]. apply Hlo; [done|].
  intros j row n Hj Hn. by destruct (Hc j row Hj key n Hn).
Qed.

(** ** The collector *)

(** What happens to the collector: accesses and writes, deletions, moves between
    tiers, and the ticks of [decayLoop]. *)
Inductive StatsEvent :=
  | EvAccess (now : Z) (key : string) (size : Z)
  | EvWrite (now : Z) (key : string) (size : Z)
  | EvDelete (key : string)
  | EvTier (key : string) (tier : TierType)
  | EvDecay (now : Z).

Definition stats_step (sc : StatsCollector) (ev : StatsEvent) : option StatsCollector :=
  match ev with
  | EvAccess now key size => StatsCollector_RecordAccess now sc key size
  | EvWrite now key size => StatsCollector_RecordWrite now sc key size
  | EvDelete key => Some (StatsCollector_RecordDelete sc key)
  | EvTier key tier => Some (StatsCollector_UpdateTier sc key tier)
  | EvDecay now => Some (StatsCollector_decay now sc)
  end.

(** The aged number of accesses: up to 255, and halved by every decay. *)
Definition aged (f : string → Z) (ev : StatsEvent) : string → Z :=
  match ev with
  | EvAccess _ key _ | EvWrite _ key _ => bump key f
  | EvDelete _ | EvTier _ _ => f
  | EvDecay _ => λ k, f k / 2
  end.

Lemma aged_range f ev key : 0 ≤ f key ≤ 255 → 0 ≤ aged f ev key ≤ 255.
Proof.
  intros H. destruct ev; cbn [aged]; unfold bump; try case_decide; try lia.
  split; [apply Z.div_pos; lia|]. apply Z.div_le_upper_bound; lia.
Qed.

Lemma stats_step_counts f sc ev :
  sketch_counts f (sc_sketch sc) → ∃ sc', stats_step sc ev = Some sc' ∧ sketch_counts (aged f ev) (sc_sketch sc').
Proof.
  intros H. destruct ev as [now key size|now key size|key|key tier|now]; cbn [stats_step aged]; [| |by eexists..|].
  - unfold StatsCollector_RecordAccess. destruct (Increment_counts f _ key H) as (c' & -> & Hc'). by eexists.
  - unfold StatsCollector_RecordWrite. destruct (Increment_counts f _ key H) as (c' & -> & Hc'). by eexists.
  - eexists. split; [done|]. by apply Reset_counts.
Qed.

(** C37: The statistics collector never indexes its sketch out of range, whatever keys
    are accessed, written, deleted or moved and whenever the counts decay; and the
    frequency that it then gives for a key is between the aged number of accesses
    and writes of the key, which counts up to 255 and is halved (rounding down) by
    every decay, and 255. *)
Theorem tier_sketch_never_undercounts events key :
  ∃ sc e, loop stats_step NewStatsCollector events = Some sc ∧ StatsCollector_GetFrequency sc key = Some e ∧
    foldl aged (λ _, 0) events key ≤ e ≤ 255.
Proof.
  assert (∀ f sc, sketch_counts f (sc_sketch sc) →
    ∃ sc', loop stats_step sc events = Some sc' ∧ sketch_counts (foldl aged f events) (sc_sketch sc')) as Hrun.
  { induction events as [|ev events IH]; intros f sc H; cbn [loop foldl]; [by exists sc|].
    destruct (stats_step_counts f sc ev H) as (sc1 & -> & H1). cbn [mbind option_bind]. by apply IH. }
  destruct (Hrun (λ _, 0) NewStatsCollector) as (sc & Hl & Hc).
  { split; [apply NewSketch_ok|]. intros j row [-> _]%lookup_replicate key' n [-> _]%lookup_replicate. lia. }
  destruct (Estimate_counts _ _ key Hc) as (e & He & Hb).
  { assert (∀ f, 0 ≤ f key ≤ 255 → 0 ≤ foldl aged f events key ≤ 255) as Hf; [|apply Hf; lia].
    clear. induction events as [|ev events IH]; intros f H; [done|]. cbn [foldl]. by apply IH, aged_range. }
  by exists sc, e.
Qed.

(** ** The Bloom filter *)

Record bloom_ok (bf : BloomFilter) : Prop := {
  bo_size : bf_size bf = 65536;
  bo_bits : wide (bf_bits bf)
}.

Lemma NewBloomFilter_ok : bloom_ok (NewBloomFilter 65536).
Proof. split; [done|apply wide_replicate]. Qed.

Lemma bloom_at bf key i : bloom_ok bf → is_Some (at_index (bf_bits bf) (bloom_index bf key i)).
Proof. intros [Hs Hb]. unfold bloom_index. rewrite Hs. fold (tier_index key i). destruct (wide_at (bf_bits bf) key i Hb) as (x & -> & _). done. Qed.

Lemma bloom_set_ok bf key i : bloom_ok bf → ∃ bf', bloom_set bf key i = Some bf' ∧ bloom_ok bf'.
Proof.
  intros Hok. unfold bloom_set. destruct (bloom_at bf key i Hok) as [x ->]. eexists. split; [done|].
  destruct Hok as [Hs Hb]. split; [done|]. unfold wide in *. cbn [bf_bits]. by rewrite length_insert.
Qed.

Lemma Add_ok bf key : bloom_ok bf → ∃ bf', BloomFilter_Add bf key = Some bf' ∧ bloom_ok bf'.
Proof.
  intros Hok. unfold BloomFilter_Add. destruct (bloom_set_ok bf key 0 Hok) as (b1 & -> & H1). cbn [mbind option_bind].
  destruct (bloom_set_ok b1 key 1 H1) as (b2 & -> & H2). cbn [mbind option_bind]. by apply bloom_set_ok.
Qed.

Lemma Contains_ok bf key : bloom_ok bf → is_Some (BloomFilter_Contains bf key).
Proof.
  intros Hok. unfold BloomFilter_Contains. destruct (bloom_at bf key 0 Hok) as [b0 ->]. cbn [mbind option_bind].
  destruct b0; [|done]. cbn [negb]. destruct (bloom_at bf key 1 Hok) as [b1 ->]. cbn [mbind option_bind].
  destruct b1; [|done]. by apply bloom_at.
Qed.

Lemma Bloom_Reset_ok bf : bloom_ok bf → bloom_ok (BloomFilter_Reset bf).
Proof. intros [Hs Hb]. split; [done|]. unfold wide in *. cbn [bf_bits BloomFilter_Reset]. by rewrite length_map. Qed.

(** ** Policies that never fail *)

(** What the manager relies on: from a state that satisfies [policy_ok] every
    method returns, and keeps it. *)
Class PolicyLaws (P : Type) `{!TierPolicy P} := {
  policy_ok : P → Prop;
  policy_demote now p key st tier : policy_ok p → is_Some (ShouldDemote now p key st tier);
  policy_promote now p key st tier : policy_ok p → is_Some (ShouldPromote now p key st tier);
  policy_access p key tier : policy_ok p → ∃ p', policy_RecordAccess p key tier = Some p' ∧ policy_ok p';
  policy_write p key tier : policy_ok p → ∃ p', policy_RecordWrite p key tier = Some p' ∧ policy_ok p';
  policy_move p key from to : policy_ok p → ∃ p', policy_RecordMove p key from to = Some p' ∧ policy_ok p'
}.

#[export] Instance DefaultPolicy_laws : PolicyLaws DefaultPolicy.
Proof. refine {| policy_ok _ := True |}; intros; simpl; eauto. Defined.

Definition cost_aware_ok (p : CostAwarePolicy) : Prop := sketch_ok (cp_sketch p) ∧ bloom_ok (cp_doorkeeper p).

Lemma NewCostAwarePolicy_ok cfg : cost_aware_ok (NewCostAwarePolicy cfg).
Proof. split; [apply NewSketch_ok|apply NewBloomFilter_ok]. Qed.

Lemma note_key_ok p key : cost_aware_ok p → ∃ sk dk, note_key p key = Some (sk, dk) ∧ sketch_ok sk ∧ bloom_ok dk.
Proof.
  intros [Hs Hb]. unfold note_key. destruct (Contains_ok _ key Hb) as [[] ->]; cbn [mbind option_bind].
  - destruct (Increment_ok _ key Hs) as (sk & -> & Hk). by exists sk, (cp_doorkeeper p).
  - destruct (Add_ok _ key Hb) as (dk & -> & Hk). by exists (cp_sketch p), dk.
Qed.

Lemma estimateFrequency_ok p key st : cost_aware_ok p → is_Some (estimateFrequency p key st).
Proof. intros [Hs _]. unfold estimateFrequency. by destruct (Estimate_ok _ key Hs) as [e ->]. Qed.

Lemma CostAware_RecordAccess_ok p key tier : cost_aware_ok p → ∃ p', CostAware_RecordAccess p key tier = Some p' ∧ cost_aware_ok p'.
Proof.
  intros Hok. unfold CostAware_RecordAccess. case_bool_decide; [by exists p|].
  destruct (note_key_ok p key Hok) as (sk & dk & -> & Hs & Hb). cbn [mbind option_bind].
  assert (∃ ghost, (if negb (bool_decide (tier = TierHot)) && bool_decide (is_Some (cp_warmGhost p !! key))
    then e ← Sketch_Estimate sk key; Some (<[key := e]> (cp_warmGhost p)) else Some (cp_warmGhost p)) = Some ghost) as [ghost ->].
  { destruct (_ && _); [|eauto]. destruct (Estimate_ok sk key Hs) as [e ->]. by eexists. }
  cbn [mbind option_bind]. eexists. split; [done|]. destruct (_ <=? _); split; cbn; auto using Reset_ok, Bloom_Reset_ok.
Qed.

Section cost_aware.
Context (log1p : float64 → float64).
#[local] Instance cost_aware_tier : TierPolicy CostAwarePolicy := CostAware_tier log1p.

Definition CostAware_laws : PolicyLaws CostAwarePolicy.
Proof.
  refine {| policy_ok := cost_aware_ok |}; cbn [ShouldDemote ShouldPromote policy_RecordAccess policy_RecordWrite policy_RecordMove cost_aware_tier CostAware_tier].
  - intros now p key [st|] [] Hok; cbn; eauto. case_match; [eauto|].
    destruct (estimateFrequency_ok p key st Hok) as [f ->]. by eexists.
  - intros now p key [st|] [] Hok; cbn; eauto; destruct (estimateFrequency_ok p key st Hok) as [f ->]; by eexists.
  - apply CostAware_RecordAccess_ok.
  - intros p key tier Hok. unfold CostAware_RecordWrite. case_bool_decide; [by exists p|].
    destruct (note_key_ok p key Hok) as (sk & dk & -> & Hs & Hb). eexists. split; [done|]. by split.
  - intros p key from to [Hs Hb]. unfold CostAware_RecordMove. case_bool_decide; [by exists p|].
    destruct (Estimate_ok _ key Hs) as [e He]. destruct from, to; rewrite ?He; eexists; (split; [done|]; by split).
Defined.
End cost_aware.
