(* ===== verification/TieredSpec.v ===== *)
(** * Reading, writing and moving values between tiers

    The manager is proved against the interface of a tier ([TierLaws]) and of a
    policy ([PolicyLaws]); a Badger store implements the former. GET reads the
    first tier that holds a string. A demotion keeps the value readable when there
    is a warm tier and loses it when there is none; a write that falls between
    the steps of a demotion is lost. *)

From S2P Require Import Prelude Strconv Dict Cache Store Objects StoreView ObjectSpec StringSpec KeySpec Engine TierStats TierStatsSpec Warm WriteBehindSpec Tiered.
From stdpp Require Import options.

(** ** What a tier promises *)

(** A value that was set is read back until a second before its deadline, the
    resolution of the deadlines of the tier; other keys are left alone. *)
Class TierLaws (T : Type) `{!TierEngine T} := {
  eng_Set_Get now now' w key v ttl w' :
    eng_Set now w key v ttl = (inr tt, w') → 0 ≤ ttl → (ttl = 0 ∨ now' + nanosPerSecond ≤ now + ttl) →
    ∃ entry, eng_Get now' w' key = inr entry ∧ ee_Value entry = v;
  eng_Set_other now now' w key key' v ttl r w' :
    eng_Set now w key v ttl = (r, w') → key' ≠ key → eng_Get now' w' key' = eng_Get now' w key'
}.

(** What Badger and [gob] document: reads see the last write of a key until its
    deadline, in whole seconds; decoding inverts encoding. *)
Class BadgerLaws (D B : Type) `{!BadgerDB D B} := {
  txn_Get_Set now now' d key b ttl d' :
    txn_Set now d key b ttl = inr d' → (∀ t, ttl = Some t → unix_seconds now' < unix_seconds (now + t)) →
    txn_Get now' d' key = inr (Some (b, match ttl with None => 0 | Some t => unix_seconds (now + t) end));
  txn_Get_Set_other now now' d key key' b ttl d' :
    txn_Set now d key b ttl = inr d' → key' ≠ key → txn_Get now' d' key' = txn_Get now' d key';
  txn_Commit_new d d' d'' : txn_Commit d d' = inr d'' → d'' = d'
}.

Class GobLaws (B : Type) `{!Gob B} := { gob_roundtrip e b : gob_encode e = inr b → gob_decode b = inr e }.

Section badger.
Context {D B : Type} `{!BadgerDB D B} `{!Gob B} `{!BadgerLaws D B} `{!GobLaws B}.

#[local] Instance badger_tier : TierEngine D := BadgerStore.

Lemma unix_later now t : now + nanosPerSecond ≤ t → unix_seconds now < unix_seconds t.
Proof using Type.
  unfold unix_seconds, nanosPerSecond. intros H. pose proof (Z.div_le_mono (now + 1000000000) t 1000000000).
  replace (now + 1000000000) with (now + 1 * 1000000000) in * by lia. rewrite Z.div_add in * by lia. lia.
Qed.

Lemma Badger_Set_cases now d key v ttl r d' :
  Badger_Set now d key v ttl = (r, d') →
  d' = d ∧ r ≠ inr tt ∨
  ∃ b, gob_encode (mkEngineEntry key v (inferValueType v) (if 0 <? ttl then Some (now + ttl) else None)) = inr b ∧
    txn_Set now d key b (if 0 <? ttl then Some ttl else None) = inr d'.
Proof using Type*.
  unfold Badger_Set, unit_result, committed. destruct (gob_encode _) as [e|b]; [intros [= <- <-]; by left|].
  destruct (txn_Set _ _ _ _ _) as [e|d1] eqn:Es; [intros [= <- <-]; by left|].
  destruct (txn_Commit d d1) as [e|d2] eqn:Ec; [intros [= <- <-]; by left|].
  intros [= <- <-]. right. exists b. by rewrite (txn_Commit_new _ _ _ Ec).
Qed.

#[local] Instance BadgerStore_laws : TierLaws D.
Proof using Type*.
  split.
  - intros now now' d key v ttl d' H Ht Hl. destruct (Badger_Set_cases _ _ _ _ _ _ _ H) as [[_ ?]|(b & Hb & Hs)]; [done|].
    cbn [eng_Get badger_tier BadgerStore]. unfold Badger_Get.
    rewrite (txn_Get_Set now now' _ _ _ _ _ Hs).
    + rewrite (gob_roundtrip _ _ Hb).
      assert ((0 <? match (if 0 <? ttl then Some ttl else None) with None => 0 | Some t => unix_seconds (now + t) end) &&
        (match (if 0 <? ttl then Some ttl else None) with None => 0 | Some t => unix_seconds (now + t) end <? unix_seconds now') = false) as ->.
      { destruct (Z.ltb_spec 0 ttl); [|done]. destruct Hl as [->|Hl]; [lia|]. pose proof (unix_later _ _ Hl).
        apply andb_false_iff. right. lia. }
      eexists. by split.
    + intros t. destruct (Z.ltb_spec 0 ttl); [|done]. intros [= ->]. apply unix_later. lia.
  - intros now now' d key key' v ttl r d' H Hk. destruct (Badger_Set_cases _ _ _ _ _ _ _ H) as [[-> _]|(b & _ & Hs)]; [done|].
    cbn [eng_Get badger_tier BadgerStore]. unfold Badger_Get. by rewrite (txn_Get_Set_other _ _ _ _ _ _ _ _ Hs Hk).
Qed.
End badger.

(** ** The manager *)

Section manager.
Context {W C P : Type} `{!TierEngine W} `{!TierEngine C} `{!TierPolicy P}.
Context `{!TierLaws W} `{!PolicyLaws P}.
Context `{!GoRange Z Z} `{!GoRange string unit} `{!GoRange string (Dict.Entry typedValue)}.

Implicit Types (m : TierManager W C P) (env : Env) (key : string).

Record manager_ok m : Prop := {
  mo_hot : store_wf (tm_hot m);
  mo_sketch : sketch_ok (sc_sketch (tm_stats m));
  mo_policy : policy_ok (tm_policy m)
}.

(** The tiers are the same. *)
Definition same_tiers m m' : Prop := tm_hot m' = tm_hot m ∧ tm_warm m' = tm_warm m ∧ tm_cold m' = tm_cold m.

Lemma tbind_run {A B} (f : EM (TierManager W C P) A) (k : A → EM _ B) m a m' : f m = Some (a, m') → tbind f k m = k a m'.
Proof using Type. unfold tbind. by intros ->. Qed.

Lemma on_hot_run {A} (f : SM A) m a s : f (tm_hot m) = Some (a, s) → on_hot f m = Some (a, put_hot m s).
Proof using Type. unfold on_hot. by intros ->. Qed.

Lemma put_hot_ok m s : manager_ok m → store_wf s → manager_ok (put_hot m s).
Proof using Type. intros [_ H2 H3] H. by split. Qed.

Lemma record_access_run env key size tier m :
  manager_ok m → ∃ m', record_access env key size tier m = Some (tt, m') ∧ manager_ok m' ∧ same_tiers m m'.
Proof using Type*.
  intros [Hh Hs Hp]. unfold record_access, modify_opt, StatsCollector_RecordAccess.
  destruct (Increment_ok _ key Hs) as (sk & -> & Hk). cbn [mbind option_bind].
  destruct (policy_access _ key tier Hp) as (p & -> & Hp'). cbn [mbind option_bind]. eexists. split; [done|]. by split.
Qed.

Lemma record_write_run env key size m :
  manager_ok m → ∃ m', record_write env key size m = Some (tt, m') ∧ manager_ok m' ∧ same_tiers m m'.
Proof using Type*.
  intros [Hh Hs Hp]. unfold record_write, modify_opt, StatsCollector_RecordWrite.
  destruct (Increment_ok _ key Hs) as (sk & -> & Hk). cbn [mbind option_bind].
  destruct (policy_write _ key TierHot Hp) as (p & -> & Hp'). cbn [mbind option_bind]. eexists. split; [done|]. by split.
Qed.

Lemma record_move_run key from to m :
  manager_ok m → ∃ m', record_move key from to m = Some (tt, m') ∧ manager_ok m' ∧ same_tiers m m'.
Proof using Type*.
  intros [Hh Hs Hp]. unfold record_move, modify_opt. destruct (policy_move _ key from to Hp) as (p & -> & Hp').
  cbn [mbind option_bind]. eexists. split; [done|]. by split.
Qed.

Lemma start_promotion_run key value entry from m :
  manager_ok m → ∃ m', start_promotion key value entry from m = Some (tt, m') ∧ manager_ok m' ∧ same_tiers m m'.
Proof using Type.
  intros [Hh Hs Hp]. unfold start_promotion, modify. eexists. split; [done|]. case_match; by split.
Qed.

Lemma maybePromote_run env key value entry m :
  manager_ok m → ∃ m', maybePromote env key value entry m = Some (tt, m') ∧ manager_ok m' ∧ same_tiers m m'.
Proof using Type*.
  intros Hok. unfold maybePromote, tbind, get, id.
  destruct (policy_promote (env_now env) (tm_policy m) key (StatsCollector_GetStats (tm_stats m) key) TierWarm) as [[] ->];
    [apply Hok|by apply start_promotion_run|]. exists m. by repeat split; try apply Hok.
Qed.

(** ** Reading *)

(** What GET answers: the string of the first tier that has one, the error of a
    tier whose value is not a string. *)
Definition tier_answer env m key : GoError + string :=
  match string_at env (tm_hot m) key with
  | Some v => inr (BytesToString v)
  | None =>
      match (λ w, eng_Get (env_now env) w key) <$> tm_warm m with
      | Some (inr entry) => stringEntryValue entry
      | _ =>
          match (λ c, eng_Get (env_now env) c key) <$> tm_cold m with
          | Some (inr entry) => stringEntryValue entry
          | _ => inl ErrKeyNotFound
          end
      end
  end.

(** The views of the hot tier are the same. *)
Definition same_view env m m' : Prop :=
  (∀ k, string_at env (tm_hot m') k = string_at env (tm_hot m) k) ∧ (∀ k, object_at env (tm_hot m') k = object_at env (tm_hot m) k) ∧
  tm_warm m' = tm_warm m ∧ tm_cold m' = tm_cold m.

Lemma Store_Get_view env s key :
  store_wf s →
  ∃ r s', Store_Get env key s = Some (r, s') ∧ store_wf s' ∧
    match string_at env s key with Some v => r = inr (BytesToString v) | None => ∃ e, r = inl e end ∧
    (∀ k, string_at env s' k = string_at env s k) ∧ ∀ k, object_at env s' k = object_at env s k.
Proof using Type*.
  intros Hwf. destruct (Store_Get_run env s key Hwf) as (s' & H & U).
  eexists _, s'. split_and!; [exact H|apply U| | |].
  - unfold string_at. fold (key_hash s key). fold (key_cell s key). destruct (cell_read _ _ _).1; [done|].
    destruct (object_at env s key); eauto.
  - intros k. unfold string_at. unfold cache_hash at 1. rewrite (ku_seed _ _ _ _ _ _ U). fold (cache_hash (st_cache s) k).
    rewrite (ku_cells _ _ _ _ _ _ U). case_decide as E; [|done].
    unfold key_cell. rewrite <-E. apply cell_read_other.
  - intros k. rewrite (ku_objects _ _ _ _ _ _ U). by case_decide; subst.
Qed.

Lemma recorded_view env s' m m' :
  (∀ k, string_at env s' k = string_at env (tm_hot m) k) → (∀ k, object_at env s' k = object_at env (tm_hot m) k) →
  same_tiers (put_hot m s') m' → same_view env m m'.
Proof using Type. intros H1 H2 (Hh & Hw & Hc). cbn in *. unfold same_view. by rewrite Hh. Qed.

(** A value found in a lower tier: it is answered, recorded, and perhaps promoted. *)
Lemma lower_tier_run env key entry from (promote : string → EM (TierManager W C P) unit) m :
  manager_ok m →
  (∀ val m1, manager_ok m1 → ∃ m2, promote val m1 = Some (tt, m2) ∧ manager_ok m2 ∧ same_tiers m1 m2) →
  ∃ m', match stringEntryValue entry with
        | inl e => tret (inl e)
        | inr val => let^ _ := record_access env key (Z.of_nat (String.length val)) from in
                     let^ _ := promote val in tret (inr val)
        end m = Some (stringEntryValue entry, m') ∧ manager_ok m' ∧ same_tiers m m'.
Proof using Type*.
  intros Hok Hp. destruct (stringEntryValue entry) as [e|val]; [by exists m|].
  destruct (record_access_run env key (Z.of_nat (String.length val)) from m Hok) as (m2 & H2 & Hok2 & T2).
  rewrite (tbind_run _ _ _ _ _ H2). destruct (Hp val m2 Hok2) as (m3 & H3 & Hok3 & T3).
  rewrite (tbind_run _ _ _ _ _ H3). exists m3. split; [done|]. split; [done|].
  unfold same_tiers in *. destruct T2 as (<- & <- & <-), T3 as (<- & <- & <-). done.
Qed.

(** GET answers for every key, with the string of the first tier that holds one:
    the hot tier, then the warm one, then the cold one. A list, hash or set in the
    hot tier does not count, not even as a value of the wrong type. What the
    tiers hold does not change. *)
Lemma tm_Get_run env m key :
  manager_ok m →
  ∃ m', tm_Get env key m = Some (tier_answer env m key, m') ∧ manager_ok m' ∧ same_view env m m'.
Proof using Type*.
  intros Hok. destruct (Store_Get_view env (tm_hot m) key (mo_hot _ Hok)) as (r & s' & HG & Hwf & Hr & Hs & Ho).
  unfold tm_Get. rewrite (tbind_run _ _ _ _ _ (on_hot_run _ _ _ _ HG)). set (m1 := put_hot m s').
  assert (manager_ok m1) as Hok1 by by apply put_hot_ok.
  enough (∃ m', _ = Some (tier_answer env m key, m') ∧ manager_ok m' ∧ same_tiers m1 m') as (m' & H & Hok' & T)
    by (exists m'; split; [exact H|]; split; [done|by eapply recorded_view]).
  unfold tier_answer. destruct (string_at env (tm_hot m) key) as [v|].
  { rewrite Hr. destruct (record_access_run env key (Z.of_nat (String.length (BytesToString v))) TierHot m1 Hok1) as (m2 & H2 & Hok2 & T2).
    rewrite (tbind_run _ _ _ _ _ H2). by exists m2. }
  destruct Hr as [e ->]. unfold tbind at 1, get. change (tm_warm m1) with (tm_warm m).
  assert (∀ entry, ∃ m', match stringEntryValue entry with
      | inl e => tret (inl e)
      | inr val => let^ _ := record_access env key (Z.of_nat (String.length val)) TierCold in
                   let^ _ := promoteFromCold key val entry in tret (inr val)
      end m1 = Some (stringEntryValue entry, m') ∧ manager_ok m' ∧ same_tiers m1 m') as Hcold.
  { intros entry. apply (lower_tier_run env key entry TierCold (λ val, promoteFromCold key val entry)); [done|].
    intros. by apply start_promotion_run. }
  destruct (tm_warm m) as [w|]; cbn [fmap option_fmap option_map]; [destruct (eng_Get (env_now env) w key) as [ew|entry]|].
  2: { apply (lower_tier_run env key entry TierWarm (λ val, maybePromote env key val entry)); [done|]. intros. by apply maybePromote_run. }
  all: unfold tbind at 1; change (tm_cold m1) with (tm_cold m); destruct (tm_cold m) as [c|]; cbn [fmap option_fmap option_map];
    [destruct (eng_Get (env_now env) c key) as [e'|entry]; [by exists m1|apply Hcold]|by exists m1].
Qed.

(** ** Demotion *)

(** The deadline that [GetEntry] finds in a cell. *)
Definition cell_deadline (now : Z) (c : option cell) : option Z :=
  let '(ttl, ok) := cell_ttl now c in if ok && (0 <? ttl) then Some (now + ttl) else None.

Lemma GetEntry_string env s key v :
  store_wf s → string_at env s key = Some v →
  ∃ s', Store_GetEntry env key s =
      Some (inr (mkEngineEntry key (VBytes v) TypeString (cell_deadline (env_now env) (key_cell s key))), s') ∧
    key_updated env s s' key (key_cell s key) (object_at env s key) ∧ same_room s s'.
Proof using Type*.
  intros Hwf Hv. pose proof (get_key env s key Hwf) as HG. unfold string_at in Hv. fold (key_hash s key) in Hv. fold (key_cell s key) in Hv.
  assert ((cell_read (env_now env) key (key_cell s key)).2 = key_cell s key) as Hc.
  { destruct (key_cell s key) as [[n|k w e]|]; [done| |done]. unfold cell_read in *.
    destruct (negb _); [done|]. by destruct (expired _ _). }
  destruct (cell_read _ _ _) as [cur c]. cbn [fst snd] in *. subst cur c.
  destruct HG as (s' & H & U & R). exists s'. split_and!; [|done|done].
  unfold Store_GetEntry. rewrite <-getcopy_key in H. sstep H. unfold peek_cache, sbind.
  destruct (key_updated_here _ _ _ _ _ _ U) as (W' & C' & _). destruct (shard_of s' key W') as (sh & Hs & Hsf).
  rewrite (TTL_spec (env_now env) (st_cache s') key sh (sw_cache _ W') Hs Hsf).
  change (cache_cell (st_cache s') (cache_hash (st_cache s') key)) with (key_cell s' key). rewrite C'. unfold cell_deadline.
  by destruct (cell_ttl _ _) as [ttl ok].
Qed.

(** A cell whose value can be read at [now'], a second before its deadline. *)
Definition keeps_until (now' : Z) (c : option cell) : Prop :=
  match c with Some (CEntry _ _ e) => e = 0 ∨ (is_i64 e ∧ now' + nanosPerSecond ≤ e) | _ => True end.

Lemma kept_deadline now now' c : 0 ≤ now ≤ now' → keeps_until now' c →
  cell_deadline now c = None ∨ ∃ t, cell_deadline now c = Some t ∧ now' + nanosPerSecond ≤ t ∧ time_Until now t = t - now ∧ now < t.
Proof using Type.
  intros Hn Hk. unfold cell_deadline. destruct c as [[n|k v e]|]; [by left| |by left]. cbn [cell_ttl keeps_until] in *.
  destruct (Z.eqb_spec e 0); [by left|]. destruct Hk as [|[Hi Hk]]; [done|]. unfold is_i64, nanosPerSecond in *.
  rewrite i64_id by (unfold is_i64; lia). rewrite (proj2 (Z.ltb_ge _ _)) by lia. cbn [andb].
  rewrite (proj2 (Z.ltb_lt _ _)) by lia. right. exists e. unfold time_Until, maxInt. split_and!; [f_equal; lia|lia|lia|lia].
Qed.

Lemma kept_read now now' key c v : now ≤ now' → keeps_until now' c → (cell_read now key c).1 = Some v → (cell_read now' key c).1 = Some v.
Proof using Type.
  intros Hn Hk. destruct c as [[n|k w e]|]; [done| |done]. cbn [cell_read]. destruct (negb _); [done|].
  cbn [keeps_until] in Hk. unfold expired, is_i64, nanosPerSecond in *.
  destruct ((0 <? e) && (e <? now)); [done|]. intros [= ->].
  destruct Hk as [->|[_ Hk]]; [done|]. by rewrite (proj2 (Z.ltb_ge e now')), andb_false_r by lia.
Qed.

Lemma string_at_cell env s key : string_at env s key = (cell_read (env_now env) key (key_cell s key)).1.
Proof using Type. done. Qed.

Lemma kept_string env env' s s' key v o :
  key_updated env s s' key (key_cell s key) o → env_now env ≤ env_now env' → keeps_until (env_now env') (key_cell s key) →
  string_at env s key = Some v → string_at env' s' key = Some v.
Proof using Type.
  intros U Ht Hk Hv. destruct (key_updated_here _ _ _ _ _ _ U) as (_ & C' & _). rewrite string_at_cell, C'.
  by eapply kept_read.
Qed.

(** The first step: the entry is read, and still there. *)
Definition read_of env m key (v : list byte) : EngineEntry :=
  mkEngineEntry key (VBytes v) TypeString (cell_deadline (env_now env) (key_cell (tm_hot m) key)).

Lemma demote_read_run env m key v :
  manager_ok m → string_at env (tm_hot m) key = Some v →
  ∃ m1, demote_read env key TierHot m =
      Some (inr (Some (read_of env m key v), entryTTL (env_now env) (read_of env m key v)), m1) ∧
    manager_ok m1 ∧ tm_warm m1 = tm_warm m ∧ tm_cold m1 = tm_cold m ∧
    key_updated env (tm_hot m) (tm_hot m1) key (key_cell (tm_hot m) key) (object_at env (tm_hot m) key) ∧ same_room (tm_hot m) (tm_hot m1).
Proof using Type*.
  intros Hok Hv. destruct (GetEntry_string env (tm_hot m) key v (mo_hot _ Hok) Hv) as (s' & HG & U & R).
  exists (put_hot m s'). unfold demote_read. rewrite (tbind_run _ _ _ _ _ (on_hot_run _ _ _ _ HG)).
  split_and!; [done|apply put_hot_ok; [done|apply U]|done|done|done|done].
Qed.

(** The last step: the key is gone from the hot tier. *)
Lemma demote_delete_run env env' m key to :
  manager_ok m →
  ∃ m', demote_delete env key TierHot to m = Some (tt, m') ∧ manager_ok m' ∧ tm_warm m' = tm_warm m ∧ tm_cold m' = tm_cold m ∧
    string_at env' (tm_hot m') key = None ∧ object_at env' (tm_hot m') key = None.
Proof using Type*.
  intros Hok. destruct (Del_removes env' (tm_hot m) [key] (mo_hot _ Hok)) as (n & s' & HD & _ & W' & Hgone & _).
  destruct (Hgone key) as [Hs Ho]; [by left|]. unfold demote_delete.
  assert ((let^ _ := on_hot (Store_Del [key]) in tret tt) m = Some (tt, put_hot m s')) as H1
    by (by rewrite (tbind_run _ _ _ _ _ (on_hot_run _ _ _ _ HD))).
  rewrite (tbind_run _ _ _ _ _ H1). rewrite bool_decide_eq_true_2 by done. unfold tbind, modify.
  set (m2 := put_counters _ _ _). assert (manager_ok m2) as Hok2 by (split; [done|apply Hok..]).
  destruct (record_move_run key TierHot to m2 Hok2) as (m3 & H3 & Hok3 & Th & Tw & Tc).
  exists m3. rewrite Th, Tw, Tc. done.
Qed.

(** The copy: the warm tier is written, or refuses. *)
Lemma demote_write_run env m key entry ttl :
  manager_ok m →
  ∃ r m', demote_write env key (Some entry) ttl TierWarm m = Some (r, m') ∧ manager_ok m' ∧ tm_hot m' = tm_hot m ∧ tm_cold m' = tm_cold m ∧
    match tm_warm m with
    | None => r = inr tt ∧ tm_warm m' = None
    | Some w => eng_Set (env_now env) w key (ee_Value entry) ttl =
                  (r, default w (tm_warm m')) ∧ is_Some (tm_warm m')
    end.
Proof using Type.
  intros [H1 H2 H3]. unfold demote_write, tbind, modify, on_warm. cbn [tm_warm put_limiter]. destruct (tm_warm m) as [w|] eqn:E.
  - destruct (eng_Set _ _ _ _ _) as [r w'] eqn:Es. eexists _, _. split; [done|]. split; [by split|]. cbn. eauto.
  - eexists _, _. split; [done|]. split; [by split|]. cbn. by rewrite E.
Qed.

(** C35: With a warm tier (without one, see [demotion_without_warm_tier_loses_key]) and
    no other request meanwhile (otherwise, see [write_during_demotion_lost]),
    [demoteKey] from the hot to the warm tier always returns, and the string can
    still be read afterwards, until a second before its deadline, with the same
    bytes: from the warm tier when the demotion succeeded, from the hot tier when
    the warm tier refused the copy. *)
Theorem demotion_keeps_value env env' m key v w :
  manager_ok m → tm_warm m = Some w → string_at env (tm_hot m) key = Some v →
  0 ≤ env_now env ≤ env_now env' → keeps_until (env_now env') (key_cell (tm_hot m) key) →
  ∃ r m' m'', demoteKey env key TierHot TierWarm m = Some (r, m') ∧
    tm_Get env' key m' = Some (inr (BytesToString v), m'') ∧
    string_at env' (tm_hot m') key = match r with None => None | Some _ => Some v end.
Proof using Type*.
  intros Hok Hw Hv Ht Hk. destruct (demote_read_run env m key v Hok Hv) as (m1 & H1 & Hok1 & W1 & C1 & U1 & _).
  unfold demoteKey. rewrite (tbind_run _ _ _ _ _ H1). set (entry := read_of env m key v) in *. set (ttl := entryTTL (env_now env) entry) in *.
  pose proof (kept_deadline _ _ _ Ht Hk) as Hd.
  assert (entry_expired (env_now env) (Some entry) = false) as ->.
  { unfold entry_expired. cbn. destruct Hd as [->|(t & -> & _ & Hu & Hl)]; [done|]. rewrite Hu. lia. }
  destruct (demote_write_run env m1 key entry ttl Hok1) as (r & m2 & H2 & Hok2 & Th2 & C2 & Hset). rewrite W1, Hw in Hset.
  rewrite (tbind_run _ _ _ _ _ H2). destruct Hset as [Hset [w' Hw']]. rewrite Hw' in Hset. cbn [from_option id] in Hset.
  destruct r as [e|[]].
  - assert (string_at env' (tm_hot m2) key = Some v) as Hv' by (rewrite Th2; eapply kept_string; [exact U1|lia|done|done]).
    destruct (tm_Get_run env' m2 key Hok2) as (m3 & H3 & _). unfold tier_answer in H3. rewrite Hv' in H3.
    by exists (Some e), m2, m3.
  - destruct (demote_delete_run env env' m2 key TierWarm Hok2) as (m3 & H3 & Hok3 & W3 & C3 & Hs & _).
    rewrite (tbind_run _ _ _ _ _ H3). destruct (tm_Get_run env' m3 key Hok3) as (m4 & H4 & _).
    assert (∃ e', eng_Get (env_now env') w' key = inr e' ∧ ee_Value e' = VBytes v) as (e' & He' & Hval).
    { refine (eng_Set_Get (env_now env) (env_now env') w key (VBytes v) _ w' Hset _ _); unfold ttl, entryTTL; cbn.
      - destruct Hd as [->|(t & -> & _ & Hu & Hl)]; [lia|]. rewrite Hu. case_match; lia.
      - destruct Hd as [->|(t & -> & Hl & Hu & _)]; [by left|]. rewrite Hu. right. destruct (Z.ltb_spec (t - env_now env) 0); unfold nanosPerSecond in *; lia. }
    unfold tier_answer in H4. rewrite Hs, W3, Hw' in H4. cbn [fmap option_fmap option_map] in H4. rewrite He' in H4.
    unfold stringEntryValue in H4. rewrite Hval in H4. by exists None, m3, m4.
Qed.

(** Without a warm tier a demotion copies the value nowhere, deletes it from the
    hot tier and reports success: the key is lost. *)
Theorem demotion_without_warm_tier_loses_key env env' m key v :
  manager_ok m → tm_warm m = None → tm_cold m = None → string_at env (tm_hot m) key = Some v →
  0 ≤ env_now env → keeps_until (env_now env) (key_cell (tm_hot m) key) →
  ∃ m' m'', demoteKey env key TierHot TierWarm m = Some (None, m') ∧ tm_Get env' key m' = Some (inl ErrKeyNotFound, m'').
Proof using Type*.
  intros Hok Hw Hc Hv Ht Hk. destruct (demote_read_run env m key v Hok Hv) as (m1 & H1 & Hok1 & W1 & C1 & _).
  unfold demoteKey. rewrite (tbind_run _ _ _ _ _ H1). set (entry := read_of env m key v) in *. set (ttl := entryTTL (env_now env) entry) in *.
  assert (entry_expired (env_now env) (Some entry) = false) as ->.
  { unfold entry_expired. cbn. destruct (kept_deadline (env_now env) (env_now env) _ ltac:(lia) Hk) as [->|(t & -> & _ & Hu & Hl)]; [done|].
    rewrite Hu. lia. }
  destruct (demote_write_run env m1 key entry ttl Hok1) as (r & m2 & H2 & Hok2 & Th2 & C2 & Hset). rewrite W1, Hw in Hset.
  rewrite (tbind_run _ _ _ _ _ H2). destruct Hset as [-> Hw2].
  destruct (demote_delete_run env env' m2 key TierWarm Hok2) as (m3 & H3 & Hok3 & W3 & C3 & Hs & _).
  rewrite (tbind_run _ _ _ _ _ H3). destruct (tm_Get_run env' m3 key Hok3) as (m4 & H4 & _).
  unfold tier_answer in H4. rewrite Hs, W3, Hw2, C3, C2, C1, Hc in H4. by exists m3, m4.
Qed.

(** ** A write during a demotion *)

Lemma tm_Set_run env m key v ttl :
  manager_ok m → st_evictor (tm_hot m) = None → has_room (st_cache (tm_hot m)) key (StringToBytes v) →
  ∃ m', tm_Set env key v ttl m = Some (inr tt, m') ∧ manager_ok m' ∧ tm_warm m' = tm_warm m ∧ tm_cold m' = tm_cold m ∧
    key_updated env (tm_hot m) (tm_hot m') key (Some (CEntry key (StringToBytes v) (expire_at (env_now env) ttl))) (object_at env (tm_hot m) key).
Proof using Type*.
  intros Hok He Hr. destruct (Store_Set_run env (tm_hot m) key v ttl (mo_hot _ Hok) He Hr) as (s' & H & U).
  unfold tm_Set. rewrite (tbind_run _ _ _ _ _ (on_hot_run _ _ _ _ H)). unfold tbind at 1, enqueue, modify.
  set (m1 := put_wb _ _). assert (manager_ok m1) as Hok1 by (split; [apply U|apply Hok..]).
  destruct (record_write_run env key (Z.of_nat (String.length v)) m1 Hok1) as (m2 & H2 & Hok2 & Th & Tw & Tc).
  rewrite (tbind_run _ _ _ _ _ H2). exists m2. rewrite Th, Tw, Tc. done.
Qed.

(** The steps of [demoteKey] with a SET of the key after the first of them. *)
Definition raced_demotion env1 env2 env3 key (new : string) : EM (TierManager W C P) (GoError + unit) :=
  let^ r := demote_read env1 key TierHot in
  match r with
  | inl e => tret (inl e)
  | inr (entry, ttl) =>
      let^ s := tm_Set env2 key new 0 in
      match s with
      | inl e => tret (inl e)
      | inr _ =>
          if entry_expired (env_now env3) entry then tret (inr tt)
          else
            let^ w := demote_write env3 key entry ttl TierWarm in
            match w with
            | inl e => tret (inl e)
            | inr _ => let^ _ := demote_delete env3 key TierHot TierWarm in tret (inr tt)
            end
      end
  end.

(** A SET of the key that comes between the steps of its demotion is answered with
    success and lost: the demotion copies the old value to the warm tier and then
    deletes the new one from the hot tier, so that GET answers the old value. *)
Theorem write_during_demotion_lost env1 env2 env3 env4 m key old new w :
  manager_ok m → tm_warm m = Some w → string_at env1 (tm_hot m) key = Some old →
  cell_deadline (env_now env1) (key_cell (tm_hot m) key) = None →
  st_evictor (tm_hot m) = None → has_room (st_cache (tm_hot m)) key (StringToBytes new) →
  (eng_Set (env_now env3) w key (VBytes old) 0).1 = inr tt →
  ∃ m' m'', raced_demotion env1 env2 env3 key new m = Some (inr tt, m') ∧
    tm_Get env4 key m' = Some (inr (BytesToString old), m'').
Proof using Type*.
  intros Hok Hw Hv Hd He Hroom Hset. destruct (demote_read_run env1 m key old Hok Hv) as (m1 & H1 & Hok1 & W1 & C1 & U1 & R1).
  unfold raced_demotion. rewrite (tbind_run _ _ _ _ _ H1). unfold read_of. rewrite Hd.
  destruct (tm_Set_run env2 m1 key new 0 Hok1) as (m2 & H2 & Hok2 & W2 & C2 & U2).
  { by rewrite (ku_evictor _ _ _ _ _ _ U1). }
  { by apply R1. }
  rewrite (tbind_run _ _ _ _ _ H2). cbn [entry_expired mbind option_bind ee_ExpireAt entryTTL].
  destruct (demote_write_run env3 m2 key (mkEngineEntry key (VBytes old) TypeString None) 0 Hok2) as (r & m3 & H3 & Hok3 & Th3 & C3 & Hs3).
  rewrite (tbind_run _ _ _ _ _ H3). rewrite W2, W1, Hw in Hs3. cbn [ee_Value] in Hs3.
  destruct Hs3 as [Hs3 [w' Hw']]. rewrite Hw' in Hs3. cbn [from_option id] in Hs3.
  rewrite Hs3 in Hset. cbn [fst] in Hset. subst r.
  destruct (demote_delete_run env3 env4 m3 key TierWarm Hok3) as (m4 & H4 & Hok4 & W4 & C4 & Hs & _).
  rewrite (tbind_run _ _ _ _ _ H4). destruct (tm_Get_run env4 m4 key Hok4) as (m5 & H5 & _).
  destruct (eng_Set_Get (env_now env3) (env_now env4) w key (VBytes old) 0 w' Hs3) as (e' & He' & Hval); [lia|by left|].
  unfold tier_answer in H5. rewrite Hs, W4, Hw' in H5. cbn [fmap option_fmap option_map] in H5. rewrite He' in H5.
  unfold stringEntryValue in H5. rewrite Hval in H5. by exists m4, m5.
Qed.
End manager.

(** ** On concrete tiers *)

Section witnesses.
#[local] Instance ranges {K A} `{Countable K} : GoRange K A := listed_range.
#[local] Existing Instance map_db.
#[local] Existing Instance entry_gob.

#[local] Instance map_db_laws : BadgerLaws (gmap string (EngineEntry * Z)) EngineEntry.
Proof.
  split.
  - intros now now' d key b ttl d' [= <-] _. cbn. by rewrite lookup_insert_eq.
  - intros now now' d key key' b ttl d' [= <-] Hk. cbn. by rewrite lookup_insert_ne.
  - by intros d d' d'' [= <-].
Qed.

#[local] Instance entry_gob_laws : GobLaws EngineEntry.
Proof. split. by intros e b [= <-]. Qed.

#[local] Instance warm_tier : TierEngine (gmap string (EngineEntry * Z)) := BadgerStore.
#[local] Instance warm_laws : TierLaws (gmap string (EngineEntry * Z)) := BadgerStore_laws.
#[local] Instance cold_tier : TierEngine S3Store := S3_engine.

(** A manager without a cold tier and without write-behind. *)
Let start (hot : Store) (warm : option (gmap string (EngineEntry * Z))) : TierManager (gmap string (EngineEntry * Z)) S3Store DefaultPolicy :=
  mkTM DefaultTierConfig hot warm None NewStatsCollector NewDefaultPolicy None [] 0 0 None.

Lemma start_ok hot warm : store_wf hot → manager_ok (start hot warm).
Proof. intros H. split; [done|apply NewSketch_ok|done]. Qed.

(** The store after SET k v. *)
Lemma hot_example :
  ∃ s, Store_Set at_5 "k" "v" 0 empty_store = Some (inr tt, s) ∧ store_wf s ∧ string_at at_5 s "k" = Some (StringToBytes "v") ∧
    key_cell s "k" = Some (CEntry "k" (StringToBytes "v") 0) ∧ st_evictor s = None.
Proof.
  destruct (Store_Set_run at_5 empty_store "k" "v" 0 empty_store_wf eq_refl) as (s & H & U).
  { apply small_room; vm_compute; lia. }
  destruct (key_updated_here _ _ _ _ _ _ U) as (Hwf & Hc & _). exists s. split_and!; [done|done| |done|by rewrite (ku_evictor _ _ _ _ _ _ U)].
  rewrite string_at_cell, Hc. done.
Qed.

Lemma demotion_keeps_value_witness :
  ∃ s r m' m'', Store_Set at_5 "k" "v" 0 empty_store = Some (inr tt, s) ∧
    demoteKey at_5 "k" TierHot TierWarm (start s (Some ∅)) = Some (r, m') ∧ tm_Get (mkEnv 9 0) "k" m' = Some (inr "v", m'').
Proof.
  destruct hot_example as (s & Hs & Hwf & Hv & Hc & _).
  destruct (demotion_keeps_value at_5 (mkEnv 9 0) (start s (Some ∅)) "k" (StringToBytes "v") ∅) as (r & m' & m'' & H1 & H2 & _).
  - by apply start_ok.
  - reflexivity.
  - exact Hv.
  - cbn. lia.
  - change (tm_hot (start s (Some ∅))) with s. rewrite Hc. by left.
  - by exists s, r, m', m''.
Defined.

Lemma demotion_without_warm_tier_loses_key_witness :
  ∃ s m' m'', Store_Set at_5 "k" "v" 0 empty_store = Some (inr tt, s) ∧
    demoteKey at_5 "k" TierHot TierWarm (start s None) = Some (None, m') ∧ tm_Get (mkEnv 9 0) "k" m' = Some (inl ErrKeyNotFound, m'').
Proof.
  destruct hot_example as (s & Hs & Hwf & Hv & Hc & _).
  destruct (demotion_without_warm_tier_loses_key at_5 (mkEnv 9 0) (start s None) "k" (StringToBytes "v")) as (m' & m'' & H1 & H2).
  - by apply start_ok.
  - reflexivity.
  - reflexivity.
  - exact Hv.
  - cbn. lia.
  - change (tm_hot (start s None)) with s. rewrite Hc. by left.
  - by exists s, m', m''.
Defined.

Lemma hot_example_room s : Store_Set at_5 "k" "v" 0 empty_store = Some (inr tt, s) → has_room (st_cache s) "k" (StringToBytes "w").
Proof.
  intros H. assert (Some (inr tt, s) = Store_Set at_5 "k" "v" 0 empty_store) as E by done. vm_compute in E. injection E as ->.
  split_and!; [reflexivity..|]. intros sh Hs. vm_compute in Hs. injection Hs as <-. vm_compute. discriminate.
Qed.

Lemma write_during_demotion_lost_witness :
  ∃ s m' m'', Store_Set at_5 "k" "v" 0 empty_store = Some (inr tt, s) ∧
    raced_demotion at_5 (mkEnv 6 0) (mkEnv 7 0) "k" "w" (start s (Some ∅)) = Some (inr tt, m') ∧
    tm_Get (mkEnv 9 0) "k" m' = Some (inr "v", m'').
Proof.
  destruct hot_example as (s & Hs & Hwf & Hv & Hc & He).
  destruct (write_during_demotion_lost at_5 (mkEnv 6 0) (mkEnv 7 0) (mkEnv 9 0) (start s (Some ∅)) "k" (StringToBytes "v") "w" ∅) as (m' & m'' & H1 & H2).
  - by apply start_ok.
  - reflexivity.
  - exact Hv.
  - change (tm_hot (start s (Some ∅))) with s. by rewrite Hc.
  - exact He.
  - by apply hot_example_room.
  - reflexivity.
  - by exists s, m', m''.
Defined.
End witnesses.
